(* ===== verification/_CoqProject ===== *)
-Q . S2P
Prelude.v
Exc.v
Ptr.v
PtrThms.v
Defer.v
Allocator.v
AllocatorInv.v
AllocatorSpec.v
AllocatorThms.v
StackAlloc.v
Stack.v
Runner.v
StackInv.v
StackSafe.v
StackEval.v
RunnerSafe.v
StackSim.v
StackThms.v
Unwind.v
UnwindAgree.v
UnwindSafe.v
UnwindExact.v
UnwindOps.v
UnwindRun.v
UnwindThms.v
AtomicWaker.v
AtomicWakerThms.v
Queue.v
QueueThms.v
Schedular.v
SchedularInv.v
SchedularSafe.v
SchedularPoll.v
SchedularQuiet.v
SchedularView.v
SchedularLive.v
SimpleFut.v
SchedularThms.v
QueueRefine.v
WakerRefine.v
SchedularUnwind.v
SchedularUnwindSafe.v
SchedularUnwindThms.v
Tree.v
TreeUnwind.v
TreeInv.v
TreePoll.v
TreeSafe.v
TreeLive.v
TreeLivePoll.v
TreeLiveScope.v
TreeLiveRun.v
TreeLiveEvent.v
TreeThms.v
TreeUnwindThms.v
TreeLiveThms.v
Calculator.v
CalculatorSpec.v
CalculatorThms.v
Examples.v
ExamplesThms.v
