(* ===== verification/Prelude.v ===== *)
(** * Reblessive: a heap allocated runtime for deeply recursive futures

    Reblessive runs recursive futures without recursion on the machine stack: a
    call of a recursive future suspends the caller, puts the callee on a stack of
    its own memory, and resumes the caller with the result.  This development
    models the runtime in [src/src/] as executable definitions and proves what
    makes it correct.

    ** Parts of the program and where they are modelled

    - [src/src/ptr.rs], [Owned]: [Ptr].  Addresses are integers, memory is a map of
      allocated regions and typed cells, and an access outside an allocated region,
      misaligned or with the wrong type is undefined ([UB]).  Its comparisons and
      [Debug] are in the module [Owned]; [map_ptr!] is [field_path].  The global allocator
      of the standard library is the class [GlobalAlloc]; it promises fresh,
      aligned regions or nothing.
    - [src/src/allocator.rs], [StackAllocator]: [Allocator], one definition for
      each method.  Blocks have a [BlockHeader] at their end, values grow downwards,
      and below each value is a back pointer to the one before.
    - [src/src/stack/mod.rs], [stack/future.rs], [stack/stk.rs], [vtable.rs],
      [Stack] with its futures: [StackAlloc] puts the allocator to use with the
      types stored on it, [Stack] has the tasks, the result place, the state
      ([StackState]), the pointer to the current stack and the futures a task can
      await.  User futures are data ([code]): what a future does between two
      suspensions.
    - [src/src/stack/runner.rs], [stub_waker.rs]: [Runner], synchronous and
      asynchronous stepping and finishing, and the drop of a runner.
    - The same files once more, for panics that unwind: [Unwind].  In [Stack] and
      [Runner] a panic ends the run; the operations of [Unwind] ([push_task_u],
      [drive_task_u], [finish_u], ...) return how they were left ([exc], in [Exc]),
      with the drops of the frames in between and the [Defer] of [enter_context].
      [SchedularUnwind] has the same for the poll of the scheduler, whose [Defer]
      removes a task that panics, and [TreeUnwind] for the tree and its runner.
    - [src/src/tree/schedular/atomic_waker.rs]: [AtomicWaker].  Each atomic
      operation is one step of one thread and a run is a schedule of steps.
    - [src/src/tree/schedular/queue.rs]: [Queue], the intrusive queue with many
      producers, in the same style.
    - [src/src/tree/schedular/mod.rs], [waker.rs]: [Schedular], the tasks with the
      counts of their [Arc]s, the doubly linked list of all tasks, polling,
      waking, cancelling and clearing.  It uses the queue and the waker through
      their results, and the futures of tasks through the class [Future]; the
      class [FutureOk] says what the theorems ask of them, and [SimpleFut] has an
      instance.
    - [src/src/defer.rs]: [Defer], used where the code uses it.
    - [src/src/tree/mod.rs], [tree/future.rs], [tree/runner.rs], [tree/stk.rs]:
      [Tree], a root stack over the scheduler.  Programs can open scopes
      ([TScope]), whose futures are tasks of the scheduler with stacks of their own
      and can open scopes again, and await events of an outside runtime.  Stacks
      are taken as the machine of [step_refines]; the futures of scopes implement
      [Future], and [TreePoll] proves [FutureOkU] of them, and [FutureOk] where they
      do not panic.
    - [src/examples/calculator.rs]: [Calculator], the recursive descent parser and
      the evaluator as programs run on the stack, with [CalculatorSpec] for the
      grammar.
    - [src/examples/heavy_fibbo.rs], [heavy_fibbo_base.rs], [async.rs]: [Examples].

    Code is written in the monad [M]: a state, and an [outcome] that is a value, a
    panic with its message, or undefined behaviour.  [wpe] is its weakest
    precondition; [wp] also excludes panics.  Loops that the code leaves when some
    condition holds carry fuel.

    ** What is proved

    - Pointers ([PtrThms]): arithmetic, accesses and borrows of an object go back and
      forth, and an access of a layout that does not fit is undefined.
    - Allocator ([AllocatorInv], [AllocatorSpec], [AllocatorThms]).  The abstract
      state is a list of blocks with the live allocations of each.  Allocating is a
      push and deallocating a pop on the list of live allocations; these are
      disjoint, aligned and inside allocated blocks; clients cannot disturb the
      allocator by storing to them; dropping frees each block once.  Layouts that are
      too large are refused, but for one overflow ([large_layouts]).
    - Stack runtime ([StackInv], [StackSafe], [RunnerSafe]).  An invariant relates
      the memory to the tasks; no operation of a runner, over arbitrary futures, is
      undefined or leaves it before the first panic, which ends the run here.
    - Meaning of programs ([StackEval], [StackSim], [StackThms]).  [prog] is a
      recursive program, [eval] its value by plain recursion, and [astep] an
      abstract machine with a stack of continuations.  One step of the runner is
      one step of the machine, and [finish] returns the value of [eval] ([cost]
      steps, so any fuel above it is enough), also when it runs asynchronously and
      outside events arrive in any order.  A program can panic ([throws] gives its
      message); [step_counts] says what stepping by hand returns.
    - Unwinding ([UnwindAgree], [UnwindSafe], [UnwindExact], [UnwindOps],
      [UnwindRun], [UnwindThms]).  Where the runner whose panics end the run
      returns, the one whose panics unwind returns the same; where it panics, the
      other unwinds with the same message and the stack in order ([exits],
      [unwind_agrees]).  The exception is a panic in the first poll of a call before
      its task is pushed: the drop of the call pops the task that is being polled,
      which is undefined ([poll_unwinds], [first_poll_panic_undefined]); [lost] follows
      it through the polls of a run.  It is the only one: an owner who catches every
      panic and goes on, with arbitrary futures and operations, keeps the invariant
      until that happens ([caught_ops_defined]).  Recursive programs give the value of
      [eval] or unwind with the panic of [throws], and leave an idle stack
      ([program_unwinds]), unless the allocator refuses a task ([out_of_memory]), a
      panic of that kind.  The witnesses use the allocator of [Allocator] too.
    - Atomic waker ([AtomicWakerThms]) and queue ([QueueThms]), for every schedule:
      no data race and no failing assertion, no lost wake-up, wait freedom; values
      are popped in the order they were pushed, and what a result of [pop] means.
      [QueueRefine] and [WakerRefine] connect them to the scheduler: every schedule
      amounts to a sequence of the atomic operations [Schedular] uses.
    - Scheduler ([SchedularInv], [SchedularSafe], [SchedularPoll],
      [SchedularThms]), for every sequence of operations: the count of a task is
      the number of its owners, so that nothing is used after it was freed; the
      linked list implements its abstract list; every future is dropped once; a
      poll ends ([pot] bounds it) and a pending one will be woken; clearing drops
      every future, and empties the queue unless a push in progress hides what is in
      it ([sees_all]).
    - Panics in the scheduler ([SchedularUnwindSafe], [SchedularUnwindThms]), for
      futures with [FutureOkU]: with panics that are caught the invariant holds as
      before, a panic takes its task out of the list and drops its future, and
      polling again comes to an end.
    - Tree runtime ([TreeInv], [TreePoll], [TreeSafe], [TreeThms]).  [eval] gives
      the value of a program with scopes by plain recursion; a tree denotes a value
      through the places of its scopes, and every operation, event and wake-up
      keeps it.  So [finish] returns that value whatever the interleaving, no
      sequence of operations is undefined, and dropping the runner leaves no task.
      These theorems are for programs that do not panic ([calm]).
    - Panics in the tree ([TreeUnwindThms]).  [Panics] has the messages there may be
      and [covered] says that the recursion of [eval] comes to no others.  With
      panics that are caught no operation is undefined ([tree_panics_defined]); a
      panic restores the thread local pointers and leaves what the tree denotes, so
      that no poll ever returns a wrong value ([tree_poll_unwinds]).  A scope with a
      future that panicked is not completed ([scope_panic_hangs]), and [finish] does
      not clear the tree ([tree_unfinished_leaks]).
    - Nothing in a tree is forgotten ([SchedularQuiet], [SchedularView],
      [SchedularLive], [TreeLive], [TreeLivePoll], [TreeLiveScope], [TreeLiveRun],
      [TreeLiveEvent], [TreeLiveThms]).  A [view] of the scheduler has what decides
      whether a task is polled again, and [act_v] says of a poll what it does to
      it.  [live] is the invariant: a task that is not in the queue waits for an
      event that has its waker, or for a scope whose task runs and will wake it.
      The task of an awaited scope is younger, so the last one waits for an event
      ([chain]).  Hence a pending poll has called the waker of its context or will
      have it called by an event ([tree_pending_waits]), and an executor gets the
      value of the program for any order of the events ([tree_completes]).
    - Calculator ([CalculatorThms]).  The parser accepts what the grammar with
      binding powers derives, parsing a printed expression gives it back, and the
      example run on the stack runtime prints the number denoted.
    - Other examples ([ExamplesThms]).  The Fibonacci function on the runtime is the
      ordinary one, with the panics of its additions; what the programs print.
    - Deviations of the code from what it means to do are theorems as well:
      [yield_never_reported], [cancelled_call_poisons_next],
      [pop_empty_with_value], [stranded_block], [large_layouts],
      [cancelled_task_leaks], [tree_step_context], [tree_finish_leaks],
      [tree_unfinished_leaks], [scope_panic_hangs],
      [parse_space_diverges], [first_poll_panic_undefined], [main_heavy_prints].

    ** Bounds and fuel

    A [usize] has 64 bits.  Blocks at least double, so that 59 rounds are enough to
    drop an allocator.  [pop_task_] goes two levels deep: a task that is dropped may
    hold the handle of one more.  [finish] needs more fuel than [cost]; [poll_sched]
    needs more than [pot], twice the sizes of all futures and the length of the
    queue; a cancellation goes from a task to newer ones only, so that the number
    of tasks bounds it.  The futures of a tree need fuel above the cost of their
    program for the loop inside one poll, and a poll of the runner more than the
    work left, [pot] and twice the cost of the root.  [block_on] needs a poll for
    each unit of that work and each event; more fuel gives the same result
    ([block_on_more]).  The parser needs more fuel
    than the length of its input, and its run more than twice that.

    ** What is not modelled

    A second panic while unwinding, which aborts; wakers and destructors do not
    panic.  A stack whose [enter] found no memory, entered half way: there a sequence
    of operations ends.  What a future is after its panic is the compiler's doing
    ([poisoned], [poison]) and has no lines in the crate.  In the tree, panics of the closures of calls, for which
    [first_poll_panic_undefined] holds as on a stack.  That tasks are not forgotten
    when others panic: they are, see [scope_panic_hangs].  Memory orderings weaker
    than sequential consistency; tests and benchmarks.  The ballast and the clock of the
    examples: the time is the number of rounds of a loop.  In the tree, the bodies of scopes are joins of their futures;
    wakers of an outside runtime are numbers, whose clones are not followed.  That
    tasks are not forgotten is shown while the runner is kept ([live_op]), and for
    contexts at addresses other than the one of [Ptr.dangling]. *)

From stdpp Require Export base gmap list strings.
From Stdlib Require Export ZArith Lia.

#[global] Open Scope Z_scope.

Declare Scope rb_scope.
Delimit Scope rb_scope with rb.
#[global] Open Scope rb_scope.

Create HintDb rb.

(** ** Outcomes of a Rust computation

    A computation returns, panics with a message, or performs an operation
    whose behaviour is undefined (a read through a dangling pointer, a double
    drop, ...).  Undefined behaviour is a value of its own, so that its absence
    is a theorem and not a convention. *)
Inductive outcome (A : Type) : Type :=
| Ok (a : A)
| Panic (msg : string)
| UB.
Arguments Ok {A} a.
Arguments Panic {A} msg.
Arguments UB {A}.

(** [Poll<T>] of [std::task]. *)
Inductive poll (A : Type) : Type :=
| Ready (a : A)
| Pending.
Arguments Ready {A} a.
Arguments Pending {A}.

Definition is_pending {A} (p : poll A) : bool :=
  match p with Ready _ => false | Pending => true end.

(** ** The state and outcome monad the components are written in *)
Definition M (S A : Type) : Type := S -> outcome (A * S).

Section monad.
Context {S : Type}.

Definition ret {A} (a : A) : M S A := fun s => Ok (a, s).
Definition bind {A B} (c : M S A) (k : A -> M S B) : M S B :=
  fun s => match c s with
           | Ok (a, s') => k a s'
           | Panic m => Panic m
           | UB => UB
           end.
Definition panic {A} (m : string) : M S A := fun _ => Panic m.
Definition ub {A} : M S A := fun _ => UB.
Definition gets {A} (f : S -> A) : M S A := fun s => Ok (f s, s).
Definition modify (f : S -> S) : M S unit := fun s => Ok (tt, f s).
(** [assert!(b, m)] *)
Definition assert (b : bool) (m : string) : M S unit :=
  if b then ret tt else panic m.
(** [Option::expect(m)] and [Option::unwrap]. *)
Definition expect {A} (o : option A) (m : string) : M S A :=
  match o with Some a => ret a | None => panic m end.
Definition unwrap {A} (o : option A) : M S A :=
  expect o "called `Option::unwrap()` on a `None` value".
(** A read of memory that must hold an object: undefined otherwise. *)
Definition deref {A} (o : option A) : M S A :=
  match o with Some a => ret a | None => ub end.
End monad.

Notation "'let!' x ':=' c 'in' k" := (bind c (fun x => k))
  (at level 10, x pattern, c at level 100, k at level 200,
   format "'[v' 'let!'  x  ':='  c  'in' '/' k ']'") : rb_scope.
Notation "'do!' c 'in' k" := (bind c (fun _ => k))
  (at level 10, c at level 100, k at level 200,
   format "'[v' 'do!'  c  'in' '/' k ']'") : rb_scope.

(** ** Weakest preconditions

    [wpe c s Q E]: [c] started in [s] is not undefined, every normal result
    satisfies [Q] and every panic message satisfies [E].  [wp] allows no panic,
    [safe] allows any. *)
Definition wpe {S A} (c : M S A) (s : S) (Q : A -> S -> Prop) (E : string -> Prop) : Prop :=
  match c s with
  | Ok (a, s') => Q a s'
  | Panic m => E m
  | UB => False
  end.
Definition no_panic : string -> Prop := fun _ => False.
Definition any_panic : string -> Prop := fun _ => True.
Abbreviation wp c s Q := (wpe c s Q no_panic).
Abbreviation safe c s Q := (wpe c s Q any_panic).

Section wp_rules.
Context {S : Type}.
Implicit Types s : S.

Lemma wpe_mono {A} (c : M S A) s (Q Q' : A -> S -> Prop) (E E' : string -> Prop) :
  wpe c s Q E ->
  (forall a s', Q a s' -> Q' a s') ->
  (forall m, E m -> E' m) ->
  wpe c s Q' E'.
Proof. unfold wpe. destruct (c s) as [[a s']| |]; auto. Qed.

Lemma wpe_post {A} (c : M S A) s (Q Q' : A -> S -> Prop) E :
  wpe c s Q E -> (forall a s', Q a s' -> Q' a s') -> wpe c s Q' E.
Proof. intros H HQ. eapply wpe_mono; eauto. Qed.

Lemma wpe_ret {A} (a : A) s (Q : A -> S -> Prop) E : Q a s -> wpe (ret a) s Q E.
Proof. exact (fun H => H). Qed.

Lemma wpe_bind {A B} (c : M S A) (k : A -> M S B) s Q E :
  wpe c s (fun a s' => wpe (k a) s' Q E) E -> wpe (bind c k) s Q E.
Proof. unfold wpe, bind. destruct (c s) as [[a s']| |]; auto. Qed.

Lemma wpe_assoc {A B C} (c : M S A) (d : A -> M S B) (k : B -> M S C) s Q E :
  wpe (bind (bind c d) k) s Q E -> wpe (bind c (fun a => bind (d a) k)) s Q E.
Proof. unfold wpe, bind. by destruct (c s) as [[a s']| |]. Qed.

(** Equal computations. *)
Lemma wpe_eq {A} (c c' : M S A) s Q E : c s = c' s -> wpe c' s Q E -> wpe c s Q E.
Proof. unfold wpe. by intros ->. Qed.

(** The run itself, where a fact about it is wanted. *)
Lemma wpe_self {A} (c : M S A) s (Q : A -> S -> Prop) E :
  wpe c s Q E -> wpe c s (fun a s' => c s = Ok (a, s') /\ Q a s') E.
Proof. unfold wpe. by destruct (c s) as [[a s']| |]. Qed.

Lemma wpe_gets {A} (f : S -> A) s (Q : A -> S -> Prop) E : Q (f s) s -> wpe (gets f) s Q E.
Proof. exact (fun H => H). Qed.

Lemma wpe_modify f s (Q : unit -> S -> Prop) E : Q tt (f s) -> wpe (modify f) s Q E.
Proof. exact (fun H => H). Qed.

Lemma wpe_panic {A} m s (Q : A -> S -> Prop) (E : string -> Prop) :
  E m -> wpe (panic m) s Q E.
Proof. exact (fun H => H). Qed.

Lemma wpe_assert b m s (Q : unit -> S -> Prop) (E : string -> Prop) :
  (b = true -> Q tt s) -> (b = false -> E m) -> wpe (assert b m) s Q E.
Proof. destruct b; cbn; auto. Qed.

Lemma wpe_assert_true b m s (Q : unit -> S -> Prop) (E : string -> Prop) :
  b = true -> Q tt s -> wpe (assert b m) s Q E.
Proof. intros ->. exact (fun H => H). Qed.

Lemma wpe_expect_some {A} (o : option A) a m s (Q : A -> S -> Prop) E :
  o = Some a -> Q a s -> wpe (expect o m) s Q E.
Proof. intros ->. exact (fun H => H). Qed.

Lemma wpe_unwrap_some {A} (o : option A) a s (Q : A -> S -> Prop) E :
  o = Some a -> Q a s -> wpe (unwrap o) s Q E.
Proof. intros ->. exact (fun H => H). Qed.

Lemma wpe_deref {A} (o : option A) a s (Q : A -> S -> Prop) E :
  o = Some a -> Q a s -> wpe (deref o) s Q E.
Proof. intros ->. exact (fun H => H). Qed.

(** A computation whose result is known. *)
Lemma wpe_value {A} (c : M S A) s a s' (Q : A -> S -> Prop) E :
  c s = Ok (a, s') -> Q a s' -> wpe c s Q E.
Proof. unfold wpe. intros ->. auto. Qed.

(** Parts of a computation whose outcome is known. *)
Lemma bind_ok {A B} (c : M S A) (k : A -> M S B) s a s' : c s = Ok (a, s') -> bind c k s = k a s'.
Proof. unfold bind. by intros ->. Qed.

Lemma bind_panic {A B} (c : M S A) (k : A -> M S B) s m : c s = Panic m -> bind c k s = Panic m.
Proof. unfold bind. by intros ->. Qed.

Lemma bind_ub {A B} (c : M S A) (k : A -> M S B) s : c s = UB -> bind c k s = UB.
Proof. unfold bind. by intros ->. Qed.

Lemma wp_ok {A} (c : M S A) s (Q : A -> S -> Prop) :
  wp c s Q -> exists a s', c s = Ok (a, s') /\ Q a s'.
Proof. unfold wpe, no_panic. destruct (c s) as [[a s']| |]; [eauto|tauto..]. Qed.

Lemma wp_intro {A} (c : M S A) s (Q : A -> S -> Prop) E :
  (exists a s', c s = Ok (a, s') /\ Q a s') -> wpe c s Q E.
Proof. intros (a & s' & Hc & HQ). eapply wpe_value; eauto. Qed.

Lemma safe_not_ub {A} (c : M S A) s Q : safe c s Q -> c s <> UB.
Proof. unfold wpe. destruct (c s); [congruence..|tauto]. Qed.
End wp_rules.

(** ** Runs that end *)
Section runs.
Context {S : Type}.
Implicit Types (s : S).

Definition ho {A} (c : M S A) s (Q : A -> S -> Prop) : Prop := forall a s', c s = Ok (a, s') -> Q a s'.

Lemma ho_bind {A B} (c : M S A) (k : A -> M S B) s Q :
  ho c s (fun a s' => ho (k a) s' Q) -> ho (bind c k) s Q.
Proof.
  intros H a s'. unfold bind. destruct (c s) as [[b s1]| |] eqn:Hc; [|done..]. by apply (H b s1).
Qed.

Lemma ho_ret {A} (a : A) s (Q : A -> S -> Prop) : Q a s -> ho (ret a) s Q.
Proof. by intros HQ b s' [= <- <-]. Qed.

Lemma ho_gets {A} (f : S -> A) s (Q : A -> S -> Prop) : Q (f s) s -> ho (gets f) s Q.
Proof. by intros HQ b s' [= <- <-]. Qed.

Lemma ho_modify f s (Q : unit -> S -> Prop) : Q tt (f s) -> ho (modify f) s Q.
Proof. by intros HQ b s' [= <- <-]. Qed.

Lemma ho_assert b m s (Q : unit -> S -> Prop) : Q tt s -> ho (assert b m) s Q.
Proof. destruct b; [by apply ho_ret|]. by intros _ a s'. Qed.
End runs.

#[export] Hint Resolve wpe_ret wpe_gets wpe_modify : rb.

(** One step of symbolic execution through the monad. *)
Ltac wp_step :=
  first
    [ apply wpe_bind
    | apply wpe_ret
    | apply wpe_gets
    | apply wpe_modify
    | eapply wpe_expect_some; [eassumption|]
    | eapply wpe_unwrap_some; [eassumption|]
    | eapply wpe_deref; [eassumption|] ];
  cbn beta.
Ltac wp_steps := repeat wp_step.

(** ** Machine words

    [usize] is 64 bits wide; addresses and sizes are integers, and every
    operation of the source that can leave the range is written out. *)
Definition usize_bits : Z := 64.
Definition usize_max : Z := 2 ^ usize_bits - 1.
Definition isize_max : Z := 2 ^ (usize_bits - 1) - 1.
Definition checked_add (a b : Z) : option Z :=
  if (a + b <=? usize_max)%Z then Some (a + b) else None.
Definition saturating_sub (a b : Z) : Z := Z.max 0 (a - b).
(** The bitwise complement of a [usize]. *)
Definition usize_not (a : Z) : Z := Z.lxor a usize_max.
(** [usize::next_power_of_two] of a positive argument, before the width is
    taken into account. *)
Definition pow2_ceil (n : Z) : Z := 2 ^ Z.log2_up n.

(** [usize::is_power_of_two]. *)
Definition is_power_of_two (n : Z) : bool := (0 <? n)%Z && (2 ^ Z.log2 n =? n)%Z.

Lemma is_power_of_two_spec n :
  is_power_of_two n = true <-> exists k, 0 <= k /\ n = 2 ^ k.
Proof.
  unfold is_power_of_two. rewrite andb_true_iff, Z.ltb_lt, Z.eqb_eq. split.
  - intros [Hn Hk]. exists (Z.log2 n). split; [apply Z.log2_nonneg|lia].
  - intros (k & Hk & ->). split; [lia|]. by rewrite Z.log2_pow2.
Qed.

Lemma pow2_ceil_power n : exists k, 0 <= k /\ pow2_ceil n = 2 ^ k.
Proof. exists (Z.log2_up n). split; [apply Z.log2_up_nonneg|done]. Qed.

Lemma pow2_ceil_ge n : 0 < n -> n <= pow2_ceil n.
Proof.
  intros Hn. unfold pow2_ceil. destruct (decide (n = 1)) as [->|Hne]; [done|].
  apply Z.log2_up_spec. lia.
Qed.

Lemma pow2_ceil_lt n : 0 < n -> pow2_ceil n < 2 * n.
Proof.
  intros Hn. unfold pow2_ceil. destruct (decide (n = 1)) as [->|Hne]; [done|].
  pose proof (Z.log2_up_spec n ltac:(lia)) as [Hlo _].
  pose proof (Z.log2_up_pos n ltac:(lia)).
  replace (Z.log2_up n) with (Z.succ (Z.pred (Z.log2_up n))) by lia.
  rewrite Z.pow_succ_r by lia. lia.
Qed.

Lemma pow2_ceil_min n k : 0 <= k -> n <= 2 ^ k -> pow2_ceil n <= 2 ^ k.
Proof.
  intros Hk Hn. unfold pow2_ceil. apply Z.pow_le_mono_r; [lia|].
  rewrite <- (Z.log2_up_pow2 k) by lia. by apply Z.log2_up_le_mono.
Qed.

(** Every power of two at least [2 ^ j] is a multiple of it. *)
Lemma pow2_divide j k : 0 <= j <= k -> (2 ^ j | 2 ^ k).
Proof.
  intros H. exists (2 ^ (k - j)). rewrite <- Z.pow_add_r by lia. f_equal. lia.
Qed.

(** Rounding down to a multiple. *)
Definition align_down (a n : Z) : Z := a - a mod n.

Lemma align_down_div a n : align_down a n = n * (a / n).
Proof. unfold align_down. pose proof (Z_div_mod_eq_full a n). lia. Qed.

Section align.
Context (n : Z) (Hn : 0 < n).

Lemma align_down_divide a : (n | align_down a n).
Proof.
  exists (a / n). unfold align_down. pose proof (Z.div_mod a n). lia.
Qed.

Lemma align_down_le a : align_down a n <= a < align_down a n + n.
Proof. unfold align_down. pose proof (Z.mod_pos_bound a n). lia. Qed.

(** It is the greatest multiple below its argument. *)
Lemma align_down_ge a m : (n | m) -> m <= a -> m <= align_down a n.
Proof.
  intros [q ->] Hle. rewrite align_down_div.
  assert (q <= a / n) by (apply Z.div_le_lower_bound; lia). nia.
Qed.

(** Rounding down first to a divisor of [n] changes nothing. *)
Lemma align_down_align_down a m :
  0 < m -> (m | n) -> align_down (align_down a m) n = align_down a n.
Proof.
  intros Hm [q Hq]. rewrite !align_down_div.
  assert (0 < q) by (apply (Z.mul_pos_cancel_r q m); lia). subst n. f_equal.
  rewrite (Z.mul_comm q m), Z.div_mul_cancel_l by lia.
  by rewrite Z.div_div by lia.
Qed.
End align.

(** The mask of the source, [addr & !(align - 1)], rounds down. *)
Lemma land_usize_not a k :
  0 <= k < usize_bits -> 0 <= a <= usize_max ->
  Z.land a (usize_not (2 ^ k - 1)) = align_down a (2 ^ k).
Proof.
  unfold usize_max, usize_bits. intros Hk Ha.
  transitivity (Z.ldiff a (Z.ones k)).
  - apply Z.bits_inj'. intros i Hi. unfold usize_not, usize_max, usize_bits.
    rewrite Z.land_spec, Z.lxor_spec, Z.ldiff_spec.
    replace (2 ^ k - 1) with (Z.ones k) by (rewrite Z.ones_equiv; lia).
    replace (2 ^ 64 - 1) with (Z.ones 64) by done.
    destruct (decide (i < 64)) as [Hlt|Hge].
    + rewrite (Z.ones_spec_low 64 i) by lia. by rewrite xorb_true_r.
    + assert (Z.testbit a i = false) as ->; [|done].
      destruct (decide (a = 0)) as [->|]; [apply Z.bits_0|].
      apply Z.bits_above_log2; [lia|].
      apply Z.log2_lt_pow2; [lia|].
      assert (2 ^ 64 <= 2 ^ i) by (apply Z.pow_le_mono_r; lia). lia.
  - rewrite Z.ldiff_ones_r, Z.shiftl_mul_pow2, Z.shiftr_div_pow2 by lia.
    unfold align_down. pose proof (Z.div_mod a (2 ^ k)). lia.
Qed.

#[export] Hint Resolve align_down_divide : rb.
