(* ===== verification/Exc.v ===== *)
(** * Computations that can be left by a panic

    What is common to the models of unwinding: results that say how a computation
    was left, and when a computation that unwinds does the same as one whose panic
    ends the run. *)

From S2P Require Import Prelude.

(** How a computation is left.  [pushing] tells the panics raised in the first
    poll of a call, once the future says that it is running and before its task
    is on the stack. *)
Inductive exc (B : Type) : Type :=
| Returns (b : B)
| Unwinds (pushing : bool) (m : string).
Arguments Returns {B} b.
Arguments Unwinds {B} pushing m.

Section combinators.
Context {S : Type}.

(** A computation that has changed nothing when it panics, or whose callers
    cannot see what it changed: an allocation that fails has, since its block is taken
    out of the allocator while a larger one is made, but the panic of [push_task]
    that it becomes is undefined before the allocator is used again. *)
Definition catch {B} (pushing : bool) (c : M S B) : M S (exc B) := fun s =>
  match c s with
  | Ok (b, s') => Ok (Returns b, s')
  | Panic m => Ok (Unwinds pushing m, s)
  | UB => UB
  end.

(** Going on, unless it unwinds. *)
Definition and_then {B C} (c : M S (exc B)) (k : B -> M S (exc C)) : M S (exc C) :=
  let! r := c in
  match r with Returns b => k b | Unwinds p m => ret (Unwinds p m) end.
End combinators.

Notation "'let?' x ':=' c 'in' k" := (and_then c (fun x => k))
  (at level 10, x pattern, c at level 100, k at level 200,
   format "'[v' 'let?'  x  ':='  c  'in' '/' k ']'") : rb_scope.

Section agree.
Context {S : Type}.

(** [ok x]: what the unwinding computation gives where the other one gives [x];
    [out m y]: [y] is an exit by unwinding with message [m]. *)
Inductive agree {X Y} (ok : X -> Y) (out : string -> Y -> Prop)
  : outcome (X * S) -> outcome (Y * S) -> Prop :=
| agree_ok x s : agree ok out (Ok (x, s)) (Ok (ok x, s))
| agree_out m y s : out m y -> agree ok out (Panic m) (Ok (y, s))
| agree_abort m m' : agree ok out (Panic m) (Panic m')
| agree_undefined m : agree ok out (Panic m) UB
| agree_ub : agree ok out UB UB.

Definition agrees {X Y} (ok : X -> Y) (out : string -> Y -> Prop) (c : M S X) (cu : M S Y) : Prop :=
  forall s, agree ok out (c s) (cu s).

(** A computation that is run on the way out of a panic. *)
Definition leaves {Y} (out : string -> Y -> Prop) (m : string) (cu : M S Y) : Prop :=
  forall s, match cu s with Ok (y, _) => out m y | Panic _ | UB => True end.

Lemma agrees_bind {X Y X' Y'} ok out ok' out' (c : M S X) (cu : M S Y) (k : X -> M S X') (ku : Y -> M S Y') :
  agrees ok out c cu -> (forall x, agrees ok' out' (k x) (ku (ok x))) ->
  (forall m y, out m y -> leaves out' m (ku y)) ->
  agrees ok' out' (bind c k) (bind cu ku).
Proof.
  intros Hc Hk Hout s. unfold bind. destruct (Hc s) as [x s'|m y s' Hy| | |]; [apply Hk|..|constructor].
  - specialize (Hout m y Hy s'). destruct (ku y s') as [[y' s2]| |]; by constructor.
  - constructor.
  - constructor.
Qed.

(** A part that is the same on both sides, such as the drop of a future. *)
Lemma agrees_same {B X Y} ok out (c : M S B) (k : B -> M S X) (ku : B -> M S Y) :
  (forall b, agrees ok out (k b) (ku b)) -> agrees ok out (bind c k) (bind c ku).
Proof. intros Hk s. unfold bind. destruct (c s) as [[b s']| |]; [apply Hk|constructor..]. Qed.

(** The same grouping of three parts on both sides. *)
Lemma agrees_assoc2 {B C D X Y} (ok : X -> Y) out (c : M S B) (d : B -> M S C) (e : B -> C -> M S D)
    (k : D -> M S X) cu :
  agrees ok out (let! x := (let! b := c in let! x := d b in e b x) in k x) cu ->
  agrees ok out (let! b := c in let! x := d b in let! y := e b x in k y) cu.
Proof.
  intros H s. specialize (H s). unfold bind in *.
  destruct (c s) as [[b s1]| |]; [|exact H..]. by destruct (d b s1) as [[x s2]| |].
Qed.

Lemma agrees_ret {X Y} (ok : X -> Y) out x y : y = ok x -> agrees ok out (ret x) (ret y).
Proof. intros -> s. constructor. Qed.

Lemma agrees_panic {X Y} (ok : X -> Y) (out : string -> Y -> Prop) m y :
  out m y -> agrees ok out (panic m) (ret y).
Proof. intros Hy s. by constructor. Qed.

Lemma agrees_ub {X Y} (ok : X -> Y) out : agrees ok out ub ub.
Proof. intros s. constructor. Qed.

Lemma leaves_ret {Y} (out : string -> Y -> Prop) m y : out m y -> leaves out m (ret y).
Proof. intros Hy s. exact Hy. Qed.

Lemma leaves_do {B Y} (out : string -> Y -> Prop) m (c : M S B) (k : B -> M S Y) :
  (forall b, leaves out m (k b)) -> leaves out m (bind c k).
Proof. intros Hk s. unfold bind. destruct (c s) as [[b s']| |]; [apply Hk|done..]. Qed.

(** The relation between the two kinds of operations. *)
Definition unwound {X} (m : string) (r : exc X) : Prop := exists p, r = Unwinds p m.
Definition follows {X} : M S X -> M S (exc X) -> Prop := agrees Returns unwound.

Lemma follows_catch {X} b (c : M S X) : follows c (catch b c).
Proof.
  intros s. unfold catch. destruct (c s) as [[x s']| |]; constructor. by exists b.
Qed.

Lemma follows_and_then {X Y} (c : M S X) cu (k : X -> M S Y) ku :
  follows c cu -> (forall x, follows (k x) (ku x)) -> follows (bind c k) (and_then cu ku).
Proof.
  intros Hc Hk. apply (agrees_bind Returns unwound); [done|done|].
  intros m y [p ->]. apply leaves_ret. by exists p.
Qed.

(** A computation that unwinds, and does not panic, says what the other one does. *)
Lemma wpe_follows {X} (c : M S X) cu s (Q : X -> S -> Prop) P :
  follows c cu -> wp cu s (fun r s' => match r with Returns x => Q x s' | Unwinds _ _ => False end) ->
  wpe c s Q P.
Proof. intros Hc. unfold wpe. by destruct (Hc s) as [x s'|m y s' [p ->]|m m'|m|]. Qed.

(** A poll gives back what was polled as well. *)
Definition unwound_with {X H} (m : string) (r : exc X * H) : Prop := exists p, r.1 = Unwinds p m.
Definition returns_with {X H} (r : X * H) : exc X * H := (Returns r.1, r.2).
Definition follows_with {X H} : M S (X * H) -> M S (exc X * H) -> Prop := agrees returns_with unwound_with.
End agree.
