(* ===== verification/Ptr.v ===== *)
(** * Raw pointers and the memory they point into (src/ptr.rs)

    [Owned<T>] is a non-null raw pointer; here it is its address.  Memory is a
    set of allocated regions, given out by the global allocator, and a map of
    the typed objects stored in them.  Every access is checked: a read of an
    address that holds no object, a write outside every region, pointer
    arithmetic that leaves its region and a deallocation with the wrong layout
    are [UB]. *)

From Stdlib Require Import NArith HexadecimalString HexadecimalN.
From S2P Require Import Prelude.

(** [std::alloc::Layout]: a size and a power-of-two alignment such that the size
    rounded up to the alignment does not exceed [isize::MAX]. *)
Record Layout := { lsize : Z; lalign : Z }.

#[export] Instance layout_eq_dec : EqDecision Layout.
Proof. solve_decision. Defined.

Record layout_ok (l : Layout) : Prop := {
  layout_size : 0 <= lsize l;
  layout_align : exists k, 0 <= k < usize_bits /\ lalign l = 2 ^ k;
  layout_fits : lsize l + (lalign l - 1) <= isize_max;
}.

(** [Layout::from_size_align]. *)
Definition from_size_align (sz al : Z) : option Layout :=
  if is_power_of_two al && (sz <=? isize_max - (al - 1))%Z
  then Some {| lsize := sz; lalign := al |} else None.

(** The global allocator ([std::alloc::alloc] and [dealloc]).  [ga_alloc live
    size align] is the address of the new region, or null; [live] are the regions
    in use.  What the standard library documents of a returned region: it is
    not null, aligned, does not wrap around the address space, and overlaps no
    live region. *)
Class GlobalAlloc := {
  ga_alloc : gmap Z Z -> Z -> Z -> Z;
  ga_spec live sz al a :
    0 < sz -> ga_alloc live sz al = a -> a <> 0 ->
    0 < a /\ (al | a) /\ a + sz <= usize_max /\
    forall b bsz, live !! b = Some bsz -> b + bsz <= a \/ a + sz <= b;
}.

(** A pointer that is not null is its address; so is a copy of it, and the pointer a
    reference is turned into. *)
Module Owned.
Definition clone (p : Z) : Z := p.
Definition from_ref (t : Z) : Z := t.
Definition as_ptr (p : Z) : Z := p.

(** [PartialEq], [PartialOrd] and [Ord] compare addresses. *)
Definition eq (p q : Z) : bool := (p =? q)%Z.
Definition cmp (p q : Z) : comparison := (p ?= q)%Z.
Definition partial_cmp (p q : Z) : option comparison := Some (cmp p q).

(** [Debug]: the name of the struct and the address in hexadecimal. *)
Definition fmt (p : Z) : string :=
  "Owned { ptr: 0x" +:+ NilZero.string_of_uint (N.to_hex_uint (Z.to_N p)) +:+ " }".
End Owned.

Section memory.
Context {C : Type}.

(** Regions map a base address to a size; cells an address to the size and
    content of the object stored there. *)
Record memory := { regions : gmap Z Z; cells : gmap Z (Z * C) }.

Definition mem_empty : memory := {| regions := ∅; cells := ∅ |}.

(** [lo, hi) lies in one allocated region. *)
Definition in_region (m : memory) (lo hi : Z) : bool :=
  bool_decide (map_Exists (fun b sz => b <= lo /\ hi <= b + sz) (regions m)).

(** The bytes [lo, hi) are overwritten: objects that overlap them are gone. *)
Definition wipe (lo hi : Z) (m : memory) : memory :=
  {| regions := regions m;
     cells := filter (fun kc => hi <= kc.1 \/ kc.1 + kc.2.1 <= lo) (cells m) |}.

Definition set_cell (p sz : Z) (c : C) (m : memory) : memory :=
  {| regions := regions m; cells := <[p := (sz, c)]> (cells m) |}.

(** *** [Owned] *)

Definition from_ptr (p : Z) : option Z := if decide (p = 0) then None else Some p.

(** [NonNull::new_unchecked]. *)
Definition from_ptr_unchecked (p : Z) : M memory Z :=
  if decide (p = 0) then ub else ret p.

(** [NonNull::<T>::dangling]: the alignment of [T] as an address. *)
Definition dangling (align : Z) : Z := align.

Definition cast (p : Z) : Z := p.
Definition addr (p : Z) : Z := p.

(** [ptr.add(n)] and [ptr.sub(n)]: both ends must stay in one region. *)
Definition add (p n : Z) : M memory Z :=
  fun m => if in_region m p (p + n) then Ok (p + n, m) else UB.
Definition sub (p n : Z) : M memory Z :=
  fun m => if in_region m (p - n) p then Ok (p - n, m) else UB.

(** [a.offset_from(b)], for byte pointers into one region. *)
Definition offset_from (a b : Z) : M memory Z :=
  fun m => if in_region m (Z.min a b) (Z.max a b) then Ok (a - b, m) else UB.

Definition map_addr_unchecked (p : Z) (f : Z -> Z) : M memory Z :=
  from_ptr_unchecked (f (addr p)).

(** [map_ptr(f)], and the closure of [map_ptr!]: the address of a field of a field
    ..., from the offsets of the fields. *)
Definition map_ptr (p : Z) (f : Z -> M memory Z) : M memory Z :=
  let! q := f (Owned.as_ptr p) in from_ptr_unchecked q.
Fixpoint field_path (offsets : list Z) (p : Z) : M memory Z :=
  match offsets with
  | [] => ret p
  | o :: offsets => let! q := add p o in field_path offsets q
  end.

(** The layout of an access fits the address: aligned, and in one region. *)
Definition accessible (m : memory) (p : Z) (l : Layout) : bool :=
  (p mod lalign l =? 0)%Z && in_region m p (p + lsize l).

(** A reference to an object of layout [l]: it must be there.  A type without size
    has its objects everywhere but at null. *)
Definition valid_ref (m : memory) (p : Z) (l : Layout) : bool :=
  if (lsize l =? 0)%Z then negb (p =? 0)%Z && (p mod lalign l =? 0)%Z
  else match cells m !! p with
       | Some (sz, _) => (sz =? lsize l)%Z && accessible m p l
       | None => false
       end.
Definition as_ref (p : Z) (l : Layout) : M memory Z :=
  fun m => if valid_ref m p l then Ok (p, m) else UB.
Definition as_mut (p : Z) (l : Layout) : M memory Z := as_ref p l.

(** [ptr.write(v)] of an object of layout [l], and [ptr.read()]. *)
Definition write (p : Z) (l : Layout) (c : C) : M memory unit :=
  fun m => if accessible m p l
           then Ok (tt, set_cell p (lsize l) c (wipe p (p + lsize l) m)) else UB.
Definition read (p : Z) : M memory C :=
  fun m => match cells m !! p with Some (_, c) => Ok (c, m) | None => UB end.

(** [ptr.replace(v)]. *)
Definition replace (p : Z) (l : Layout) (c : C) : M memory C :=
  let! old := read p in do! write p l c in ret old.

(** A store of data this model does not look at, of layout [l]. *)
Definition write_opaque (p : Z) (l : Layout) : M memory unit :=
  fun m => if accessible m p l then Ok (tt, wipe p (p + lsize l) m) else UB.

(** [std::alloc::alloc], undefined for a size of zero, and
    [std::alloc::dealloc]: the size given back must be the one asked for. *)
Definition os_alloc `{!GlobalAlloc} (sz al : Z) : M memory (option Z) :=
  fun m => if (sz =? 0)%Z then UB else
           match from_ptr (ga_alloc (regions m) sz al) with
           | Some a => Ok (Some a, {| regions := <[a := sz]> (regions m); cells := cells m |})
           | None => Ok (None, m)
           end.
Definition os_dealloc (p sz : Z) : M memory unit :=
  fun m => if decide (regions m !! p = Some sz)
           then Ok (tt, wipe p (p + sz) {| regions := delete p (regions m); cells := cells m |})
           else UB.

(** The handles given to closures ([Stk], the one of a tree, and [ScopeStk]) have no
    size: a reference to one is made from a dangling pointer. *)
Definition marker : Layout := {| lsize := 0; lalign := 1 |}.
Definition create_stk : M memory Z := as_mut (dangling (lalign marker)) marker.
Definition create_tree_stk : M memory Z := as_mut (dangling (lalign marker)) marker.
Definition new_scope_stk : M memory Z := as_mut (dangling (lalign marker)) marker.

Implicit Types m : memory.

Lemma in_region_intro m b sz lo hi :
  regions m !! b = Some sz -> b <= lo -> hi <= b + sz -> in_region m lo hi = true.
Proof. intros Hb Hlo Hhi. apply bool_decide_eq_true. by exists b, sz. Qed.

Lemma accessible_intro m b sz p l :
  regions m !! b = Some sz -> b <= p -> p + lsize l <= b + sz ->
  0 < lalign l -> (lalign l | p) -> accessible m p l = true.
Proof.
  intros Hb Hlo Hhi Hal Hdiv. unfold accessible. apply andb_true_iff. split.
  - apply Z.eqb_eq. by apply Z.mod_divide; [lia|].
  - by eapply in_region_intro.
Qed.

Lemma lookup_wipe m lo hi k sz c :
  cells m !! k = Some (sz, c) -> hi <= k \/ k + sz <= lo ->
  cells (wipe lo hi m) !! k = Some (sz, c).
Proof. intros Hk Hd. by apply map_lookup_filter_Some. Qed.

Lemma lookup_wipe_Some m lo hi k sz c :
  cells (wipe lo hi m) !! k = Some (sz, c) -> cells m !! k = Some (sz, c).
Proof. intros Hk. by apply map_lookup_filter_Some in Hk as [? _]. Qed.

(** After a write: the written object, and every object that does not overlap
    it. *)
Lemma lookup_write_eq m p sz c : cells (set_cell p sz c (wipe p (p + sz) m)) !! p = Some (sz, c).
Proof. apply lookup_insert_eq. Qed.

Lemma lookup_write_ne m p sz c k ksz kc :
  cells m !! k = Some (ksz, kc) -> k <> p -> p + sz <= k \/ k + ksz <= p ->
  cells (set_cell p sz c (wipe p (p + sz) m)) !! k = Some (ksz, kc).
Proof. intros Hk Hne Hd. cbn. rewrite lookup_insert_ne by done. by apply lookup_wipe. Qed.

(** Pointer arithmetic inside a region. *)
Lemma add_inside m p n : in_region m p (p + n) = true -> add p n m = Ok (p + n, m).
Proof. unfold add. by intros ->. Qed.

Lemma sub_inside m p n : in_region m (p - n) p = true -> sub p n m = Ok (p - n, m).
Proof. unfold sub. by intros ->. Qed.

Lemma field_path_inside m b sz offsets : forall p,
  regions m !! b = Some sz -> b <= p -> Forall (fun o => 0 <= o) offsets ->
  p + foldr Z.add 0 offsets <= b + sz ->
  field_path offsets p m = Ok (p + foldr Z.add 0 offsets, m).
Proof.
  induction offsets as [|o offsets IH]; intros p Hb Hp Ho Hs; cbn [field_path foldr] in *; [by rewrite Z.add_0_r|].
  apply Forall_cons in Ho as [Ho Hos].
  assert (Hpos : 0 <= foldr Z.add 0 offsets).
  { clear -Hos. induction Hos as [|x l Hx _ IH]; cbn; lia. }
  unfold bind. rewrite add_inside by (eapply in_region_intro; [done|lia..]).
  rewrite (IH (p + o)); [|done|lia|done|lia]. by rewrite Z.add_assoc.
Qed.

(** What was written is read back, and can be referred to. *)
Lemma write_read m p l c m' :
  write p l c m = Ok (tt, m') -> read p m' = Ok (c, m').
Proof.
  unfold write. destruct (accessible m p l); [|done]. intros [= <-]. unfold read.
  by rewrite lookup_write_eq.
Qed.

Lemma in_region_write m p sz c lo hi :
  in_region (set_cell p sz c (wipe p (p + sz) m)) lo hi = in_region m lo hi.
Proof. done. Qed.

Lemma write_as_ref m p l c m' :
  0 < p -> write p l c m = Ok (tt, m') -> as_ref p l m' = Ok (p, m').
Proof.
  intros Hp. unfold write. destruct (accessible m p l) eqn:Ha; [|done]. intros [= <-]. unfold as_ref, valid_ref.
  rewrite lookup_write_eq, Z.eqb_refl.
  assert (Ha' : accessible (set_cell p (lsize l) c (wipe p (p + lsize l) m)) p l = true) by exact Ha.
  rewrite Ha'. unfold accessible in Ha. apply andb_true_iff in Ha as [Hal _]. rewrite Hal.
  rewrite (proj2 (Z.eqb_neq p 0)) by lia. by destruct (lsize l =? 0)%Z.
Qed.

(** The handles exist in every memory, also before anything was allocated. *)
Lemma markers_valid m :
  create_stk m = Ok (1, m) /\ create_tree_stk m = Ok (1, m) /\ new_scope_stk m = Ok (1, m).
Proof. done. Qed.
End memory.
Arguments memory : clear implicits.

#[export] Hint Resolve lookup_write_eq lookup_write_ne lookup_wipe : rb.
