(* ===== verification/PtrThms.v ===== *)
(** * What pointers and memory promise

    The theorem about [Ptr] that the other components rely on without naming it. *)

From S2P Require Import Prelude Ptr.

(** Inside a region, pointer arithmetic goes back and forth: [sub] undoes [add],
    [offset_from] gives the distance, and the comparisons of pointers are those of
    the distances.  What is written with a layout that fits can be read, borrowed
    and replaced, and other objects stay; and a write of any other layout is
    undefined. *)
Theorem owned_round_trips {C} (m : memory C) b sz p n l (c c' : C) :
  regions m !! b = Some sz -> 0 < b <= p -> 0 <= n -> p + n <= b + sz ->
  (add p n m = Ok (p + n, m) /\ sub (p + n) n m = Ok (p, m) /\
   offset_from (p + n) p m = Ok (n, m) /\ Owned.cmp p (p + n) = (0 ?= n) /\
   (Owned.eq p (p + n) = true <-> n = 0)) /\
  (if accessible m p l
   then exists m', write p l c m = Ok (tt, m') /\ read p m' = Ok (c, m') /\ as_ref p l m' = Ok (p, m') /\
     (exists m'', replace p l c' m' = Ok (c, m'') /\ read p m'' = Ok (c', m'')) /\
     forall k ksz kc, cells m !! k = Some (ksz, kc) -> k <> p -> p + lsize l <= k \/ k + ksz <= p ->
       read k m' = Ok (kc, m')
   else write p l c m = UB).
Proof.
  intros Hb Hp Hn Hs. split.
  - assert (Hr : in_region m p (p + n) = true) by (eapply in_region_intro; [exact Hb|lia..]).
    split; [by apply add_inside|]. split.
    { pose proof (sub_inside m (p + n) n) as H. replace (p + n - n) with p in H by lia. auto. }
    split.
    { unfold offset_from. rewrite Z.min_r, Z.max_l by lia. rewrite Hr. do 2 f_equal. lia. }
    split; [unfold Owned.cmp|unfold Owned.eq; rewrite Z.eqb_eq; lia].
    replace p with (p + 0) at 1 by lia. apply Zcompare_plus_compat.
  - destruct (accessible m p l) eqn:Ha; [|unfold write; by rewrite Ha].
    assert (Hw : exists m', write p l c m = Ok (tt, m')) by (unfold write; rewrite Ha; eauto).
    destruct Hw as [m' Hw]. exists m'. split; [done|]. split; [by eapply write_read|].
    split; [eapply write_as_ref; [|exact Hw]; lia|]. split.
    + unfold replace, bind. rewrite (write_read _ _ _ _ _ Hw).
      assert (Ha' : accessible m' p l = true).
      { unfold write in Hw. rewrite Ha in Hw. injection Hw as <-. exact Ha. }
      assert (Hw' : exists m'', write p l c' m' = Ok (tt, m'')) by (unfold write; rewrite Ha'; eauto).
      destruct Hw' as [m'' Hw']. rewrite Hw'. exists m''. split; [done|]. by eapply write_read.
    + intros k ksz kc Hk Hne Hd. unfold write in Hw. rewrite Ha in Hw. injection Hw as <-.
      unfold read. by erewrite lookup_write_ne.
Qed.

(** A region with one object. *)
Definition memory0 : memory nat := {| regions := {[ 64 := 64 ]}; cells := {[ 96 := (8, 5%nat) ]} |}.
Definition word : Layout := {| lsize := 8; lalign := 8 |}.

Lemma owned_round_trips_witness :
  accessible memory0 72 word = true /\
  (add 72 40 memory0 = Ok (112, memory0) /\ sub 112 40 memory0 = Ok (72, memory0) /\
   offset_from 112 72 memory0 = Ok (40, memory0) /\ Owned.cmp 72 112 = (0 ?= 40) /\
   (Owned.eq 72 112 = true <-> 40 = 0)) /\
  (if accessible memory0 72 word
   then exists m', write 72 word 1%nat memory0 = Ok (tt, m') /\ read 72 m' = Ok (1%nat, m') /\
     as_ref 72 word m' = Ok (72, m') /\
     (exists m'', replace 72 word 2%nat m' = Ok (1%nat, m'') /\ read 72 m'' = Ok (2%nat, m'')) /\
     forall k ksz kc, cells memory0 !! k = Some (ksz, kc) -> k <> 72 -> 72 + lsize word <= k \/ k + ksz <= 72 ->
       read k m' = Ok (kc, m')
   else write 72 word 1%nat memory0 = UB).
Proof.
  split; [vm_compute; reflexivity|].
  apply (owned_round_trips memory0 64 64 72 40 word 1%nat 2%nat); [reflexivity|lia..].
Defined.

(** A misaligned write. *)
Example write_misaligned : write 68 word 1%nat memory0 = UB.
Proof. vm_compute. reflexivity. Qed.

Example fmt_run : Owned.fmt 48879 = "Owned { ptr: 0xbeef }".
Proof. vm_compute. reflexivity. Qed.
