(* ===== verification/Defer.v ===== *)
(** * Running code at the end of a block (src/defer.rs)

    A [Defer] runs a closure on its value when it is dropped, unless the value was
    taken out.  The values it is used with have no destructor of their own, and
    the closures do not change them. *)

From S2P Require Import Prelude.

Module Defer.
Section defer.
Context {S T : Type}.

(** [f] is [None] once the closure has run or is not to run. *)
Record Defer := { value : T; f : option (T -> M S unit) }.

Definition new (value : T) (func : T -> M S unit) : Defer := {| value := value; f := Some func |}.

(** [deref]. *)
Definition deref (d : Defer) : T := value d.

(** [Drop for Defer]. *)
Definition drop (d : Defer) : M S unit :=
  match f d with
  | Some x => x (value d)
  | None => ret tt
  end.

(** The value is taken, what is left is dropped. *)
Definition take (d : Defer) : M S T :=
  let d := {| value := value d; f := None |} in
  do! drop d in
  ret (value d).
End defer.
End Defer.
