(* ===== verification/Allocator.v ===== *)
(** * The stack allocator (src/allocator.rs)

    Operations of [StackAllocator], on the memory of [Ptr].  Blocks are regions
    of the global allocator that start with a [BlockHeader]; allocations are
    taken downwards from the end of the head block, each preceded by a word that
    links to the allocation below it. *)

From S2P Require Import Prelude Ptr.

(** [struct BlockHeader]. *)
Record BlockHeader := { previous : option Z; blast : Z }.

(** The objects the allocator stores in memory: block headers, and the back
    pointer ([Option<Owned<u8>>]) in front of every allocation. *)
Inductive object :=
| Header (h : BlockHeader)
| Link (o : option Z).

Record StackAllocator := { block : option Z; top_ptr : option Z }.

(** The state an operation runs in: [self] and the memory. *)
Record ast := { amem : memory object; aself : StackAllocator }.

Definition MINIMUM_ALIGN : Z := 8.
Definition BACK_POINTER_SIZE : Z := 8.
(** [size_of::<BlockHeader>()] and [align_of::<BlockHeader>()]. *)
Definition HEADER_SIZE : Z := 16.
Definition HEADER_ALIGN : Z := 8.
Definition header_layout : Layout := {| lsize := HEADER_SIZE; lalign := HEADER_ALIGN |}.
Definition link_layout : Layout := {| lsize := BACK_POINTER_SIZE; lalign := MINIMUM_ALIGN |}.

Definition on_mem {A} (c : M (memory object) A) : M ast A :=
  fun s => match c (amem s) with
           | Ok (a, m) => Ok (a, {| amem := m; aself := aself s |})
           | Panic e => Panic e
           | UB => UB
           end.
Definition set_block (b : option Z) : M ast unit :=
  modify (fun s => {| amem := amem s; aself := {| block := b; top_ptr := top_ptr (aself s) |} |}).
Definition set_top (t : option Z) : M ast unit :=
  modify (fun s => {| amem := amem s; aself := {| block := block (aself s); top_ptr := t |} |}).

Definition read_header (b : Z) : M ast BlockHeader :=
  let! o := on_mem (read b) in
  match o with Header h => ret h | Link _ => ub end.
Definition read_link (p : Z) : M ast (option Z) :=
  let! o := on_mem (read p) in
  match o with Link l => ret l | Header _ => ub end.
Definition write_header (b : Z) (h : BlockHeader) : M ast unit :=
  on_mem (write b header_layout (Header h)).
Definition write_link (p : Z) (l : option Z) : M ast unit :=
  on_mem (write p link_layout (Link l)).

Section allocator.
(** [debug]: compiled with debug assertions and overflow checks. *)
Context `{!GlobalAlloc} (debug : bool).

Definition new : StackAllocator := {| block := None; top_ptr := None |}.

Definition top : M ast (option Z) :=
  let! t := gets (fun s => top_ptr (aself s)) in
  match t with
  | Some x => let! p := on_mem (add x BACK_POINTER_SIZE) in ret (Some p)
  | None => ret None
  end.

Definition alloc_size (l : Layout) : option Z :=
  let pad_size := saturating_sub (lalign l) MINIMUM_ALIGN in
  checked_add (lsize l) (pad_size + BACK_POINTER_SIZE).

Definition block_size (b : Z) : M ast Z :=
  let! h := read_header b in on_mem (offset_from (blast h) b).

Definition within_block (b a : Z) : M ast bool :=
  let! size := block_size b in
  ret ((b <=? a)%Z && (a <=? b + size)%Z).

(** [usize::next_power_of_two]: an overflow panics with overflow checks and
    gives 0 without. *)
Definition next_power_of_two (n : Z) : M ast Z :=
  let p := pow2_ceil n in
  if (p <=? usize_max)%Z then ret p
  else if debug then panic "attempt to add with overflow" else ret 0.

(** An unchecked [a + b] on [usize]. *)
Definition usize_add (a b : Z) : M ast Z :=
  if (a + b <=? usize_max)%Z then ret (a + b)
  else if debug then panic "attempt to add with overflow"
  else ret ((a + b) mod 2 ^ usize_bits).

Definition debug_assert (b : bool) (m : string) : M ast unit :=
  if debug then assert b m else ret tt.

Definition alloc_new_block (size : Z) : M ast Z :=
  do! debug_assert (is_power_of_two size) "assertion failed: size.is_power_of_two()" in
  do! debug_assert (HEADER_SIZE <=? size)%Z
        "assertion failed: size >= std::mem::size_of::<BlockHeader>()" in
  do! assert (size <? isize_max)%Z "Exceeded maximum allocation size" in
  let! layout := unwrap (from_size_align size HEADER_ALIGN) in
  let! a := on_mem (os_alloc (lsize layout) (lalign layout)) in
  let! ptr := unwrap a in
  let! head := on_mem (add ptr size) in
  do! write_header ptr {| previous := None; blast := head |} in
  ret ptr.

Definition dealloc_old_block (ptr : Z) : M ast unit :=
  let! h := read_header ptr in
  let! size := on_mem (offset_from (blast h) ptr) in
  let! layout := unwrap (from_size_align size HEADER_ALIGN) in
  on_mem (os_dealloc ptr (lsize layout)).

Definition grow_alloc_new_top (l : Layout) : M ast Z :=
  let! required_size := unwrap (alloc_size l) in
  let! ob := gets (fun s => block (aself s)) in
  do! set_block None in
  let! old_block := unwrap ob in
  let! bsize := block_size old_block in
  let! sum := unwrap (checked_add bsize required_size) in
  let! new_alloc_size := next_power_of_two sum in
  let! b := alloc_new_block new_alloc_size in
  let! h := read_header b in
  do! write_header b {| previous := Some old_block; blast := blast h |} in
  do! set_block (Some b) in
  let! h := read_header b in
  ret (blast h).

Definition grow_initial (l : Layout) : M ast Z :=
  let! asz := unwrap (alloc_size l) in
  let! required_size := usize_add asz HEADER_SIZE in
  let! new_alloc_size := next_power_of_two required_size in
  do! assert (negb (new_alloc_size =? 0)%Z) "assertion `left != right` failed" in
  let! b := alloc_new_block new_alloc_size in
  do! set_block (Some b) in
  ret b.

(** The allocation pointer: the current top when it lies in the head block,
    the end of the head block otherwise. *)
Definition choose_top (b : Z) : M ast Z :=
  let! t := gets (fun s => top_ptr (aself s)) in
  match t with
  | Some x =>
      let! w := within_block b (addr (cast x)) in
      if negb w then let! h := read_header b in ret (blast h) else ret (cast x)
  | None => let! h := read_header b in ret (blast h)
  end.

(** The last part of [alloc_layout]: the allocation goes below [t], rounded
    down to the alignment, behind its back pointer. *)
Definition place_below (t : Z) (l : Layout) : M ast Z :=
  let align := Z.max (lalign l) MINIMUM_ALIGN in
  let size := lsize l in
  let! res := on_mem (sub t size) in
  let! res := on_mem (map_addr_unchecked res (fun a => Z.land a (usize_not (align - 1)))) in
  let! new_top := on_mem (sub res BACK_POINTER_SIZE) in
  let! old := gets (fun s => top_ptr (aself s)) in
  do! write_link (cast new_top) old in
  do! set_top (Some new_top) in
  ret res.

Definition alloc_layout (l : Layout) : M ast Z :=
  let! ob := gets (fun s => block (aself s)) in
  let! b := match ob with Some b => ret b | None => grow_initial l end in
  let! t := choose_top b in
  let! alloc_size := expect (alloc_size l) "Type layour exceeded limits" in
  let remaining := saturating_sub (saturating_sub (addr t) alloc_size) (addr b) in
  let! t := (if (remaining <? HEADER_SIZE)%Z then grow_alloc_new_top l else ret t) in
  place_below t l.

(** [alloc_with] stores the value the closure returns at the new allocation. *)
Definition alloc_with (l : Layout) : M ast Z :=
  let! ptr := alloc_layout l in
  do! on_mem (write_opaque ptr l) in
  ret ptr.

Definition pop_dealloc : M ast unit :=
  let! ot := gets (fun s => top_ptr (aself s)) in
  let! t := expect ot "invalid deallocation" in
  let! ob := gets (fun s => block (aself s)) in
  let! b := unwrap ob in
  let! below := read_link t in
  do! set_top below in
  let! w := within_block b (addr t) in
  if w then ret tt else
  let! h := read_header b in
  let! old_block := expect (previous h) "invalid deallocation" in
  let! free := match below with
               | Some x => let! w := within_block old_block (addr x) in ret (negb w)
               | None => ret true
               end in
  if (free : bool) then
    let! oh := read_header old_block in
    do! write_header b {| previous := previous oh; blast := blast h |} in
    dealloc_old_block old_block
  else ret tt.

(** [Drop]: the loop follows [previous] from the head block; fuel bounds the
    number of blocks. *)
Fixpoint drop_blocks (fuel : nat) (cur : option Z) : M ast (option unit) :=
  match cur with
  | None => ret (Some tt)
  | Some b =>
      match fuel with
      | O => ret None
      | S fuel =>
          let! h := read_header b in
          do! dealloc_old_block b in
          drop_blocks fuel (previous h)
      end
  end.
Definition drop (fuel : nat) : M ast (option unit) :=
  let! b := gets (fun s => block (aself s)) in drop_blocks fuel b.
End allocator.

(** ** A concrete global allocator, for evaluation: regions are handed out at
    increasing addresses, past the last live one. *)
Definition bump_end (live : gmap Z Z) : Z :=
  map_fold (fun b sz acc => Z.max (b + sz) acc) 1 live.
Definition bump_alloc (live : gmap Z Z) (sz al : Z) : Z :=
  let a := align_down (bump_end live + (al - 1)) al in
  if (0 <? al)%Z && (a + sz <=? usize_max)%Z then a else 0.

Lemma bump_end_ge live b sz : live !! b = Some sz -> b + sz <= bump_end live.
Proof.
  revert b sz. unfold bump_end.
  apply (map_fold_weak_ind (fun r m => forall b sz, m !! b = Some sz -> b + sz <= r)).
  - intros b sz H. by rewrite lookup_empty in H.
  - intros i x m r _ IH b sz [[-> ->]|[_ H]]%lookup_insert_Some; [lia|].
    specialize (IH _ _ H). lia.
Qed.

Lemma bump_end_pos live : 0 < bump_end live.
Proof.
  unfold bump_end. apply (map_fold_weak_ind (fun r _ => 0 < r)); [lia|]. intros; lia.
Qed.

#[export] Instance bump_global : GlobalAlloc.
Proof.
  refine {| ga_alloc := bump_alloc |}. unfold bump_alloc. intros live sz al a Hsz <- Ha.
  destruct (_ && _) eqn:E; [|done]. apply andb_true_iff in E as [Hal%Z.ltb_lt Hfit%Z.leb_le].
  pose proof (align_down_le al Hal (bump_end live + (al - 1))).
  pose proof (bump_end_pos live). split_and!; [lia|by apply align_down_divide|lia|].
  intros b bsz Hb%bump_end_ge. left. lia.
Defined.
