(* ===== verification/AllocatorInv.v ===== *)
(** * The invariant of the stack allocator

    The memory of a [StackAllocator] is described by its segments, head block
    first: each a block with the allocations made in it, newest first.  The
    live allocations are the concatenation over the segments, so the order in
    which they must be popped is part of the representation. *)

From S2P Require Import Prelude Ptr Allocator.

(** An allocation: the address returned and its layout. *)
Abbreviation allocation := (Z * Layout)%type.

Record segment := { sbase : Z; ssize : Z; sallocs : list allocation }.

#[export] Instance segment_eq_dec : EqDecision segment.
Proof. solve_decision. Defined.

Definition live (segs : list segment) : list allocation := concat (map sallocs segs).

(** The back pointer of an allocation. *)
Definition link_at (a : allocation) : Z := a.1 - BACK_POINTER_SIZE.

Definition limit (hi : Z) (al : list allocation) : Z :=
  match al with [] => hi | a :: _ => link_at a end.

(** The allocations of a block lie above [lo], below [hi], each with its back
    pointer, aligned, and entirely below the one made before it. *)
Fixpoint stacked (lo hi : Z) (al : list allocation) : Prop :=
  match al with
  | [] => True
  | a :: rest =>
      lo <= link_at a /\ (8 | a.1) /\ (lalign a.2 | a.1) /\ layout_ok a.2 /\
      a.1 + lsize a.2 <= limit hi rest /\ stacked lo hi rest
  end.

Record seg_ok (s : segment) : Prop := {
  seg_pos : 0 < sbase s;
  seg_align : (8 | sbase s);
  seg_pow2 : exists k, 4 <= k /\ ssize s = 2 ^ k;
  seg_small : ssize s < isize_max;
  seg_end : sbase s + ssize s <= usize_max;
  seg_stacked : stacked (sbase s + HEADER_SIZE) (sbase s + ssize s) (sallocs s);
}.

Definition seg_disj (s s' : segment) : Prop :=
  sbase s + ssize s <= sbase s' \/ sbase s' + ssize s' <= sbase s.

Fixpoint pairwise_disj (segs : list segment) : Prop :=
  match segs with
  | [] => True
  | s :: rest => Forall (seg_disj s) rest /\ pairwise_disj rest
  end.

Definition head_base (segs : list segment) : option Z := head (map sbase segs).
Definition head_link (al : list allocation) : option Z := head (map link_at al).

Fixpoint headers_ok (m : memory object) (segs : list segment) : Prop :=
  match segs with
  | [] => True
  | s :: rest =>
      cells m !! sbase s =
        Some (HEADER_SIZE, Header {| previous := head_base rest; blast := sbase s + ssize s |}) /\
      headers_ok m rest
  end.

Fixpoint links_ok (m : memory object) (al : list allocation) : Prop :=
  match al with
  | [] => True
  | a :: rest =>
      cells m !! link_at a = Some (BACK_POINTER_SIZE, Link (head_link rest)) /\ links_ok m rest
  end.

(** What memory holds, for a list of segments: regions of the global allocator
    exactly for the blocks, and the headers and links that chain them. *)
Record mem_inv (m : memory object) (segs : list segment) : Prop := {
  inv_segs : Forall seg_ok segs;
  inv_disj : pairwise_disj segs;
  inv_regions : forall b sz, regions m !! b = Some sz <->
                  exists g, g ∈ segs /\ sbase g = b /\ ssize g = sz;
  inv_headers : headers_ok m segs;
  inv_links : links_ok m (live segs);
}.

Record alloc_inv (s : ast) (segs : list segment) : Prop := {
  inv_block : block (aself s) = head_base segs;
  inv_top : top_ptr (aself s) = head_link (live segs);
  inv_mem : mem_inv (amem s) segs;
}.

(** ** Segments *)
Lemma seg_size_ge s : seg_ok s -> HEADER_SIZE <= ssize s.
Proof.
  intros [_ _ (k & Hk & ->) _ _ _]. unfold HEADER_SIZE.
  change 16 with (2 ^ 4). apply Z.pow_le_mono_r; lia.
Qed.

Lemma seg_size_divide s : seg_ok s -> (8 | ssize s).
Proof. intros [_ _ (k & Hk & ->) _ _ _]. apply (pow2_divide 3). lia. Qed.

Lemma stacked_limit lo hi al : lo <= hi -> stacked lo hi al -> lo <= limit hi al.
Proof. destruct al as [|a al]; cbn; tauto. Qed.

Lemma stacked_limit_le lo hi al : stacked lo hi al -> limit hi al <= hi.
Proof.
  revert hi. induction al as [|a al IH]; intros hi; cbn; [lia|].
  intros (Hlo & _ & _ & [Hsz _ _] & Hhi & Hst). specialize (IH _ Hst).
  unfold link_at, BACK_POINTER_SIZE in *. lia.
Qed.

Lemma stacked_limit_divide lo hi al : (8 | hi) -> stacked lo hi al -> (8 | limit hi al).
Proof.
  destruct al as [|a al]; cbn; [done|]. intros _ (_ & H8 & _).
  unfold link_at, BACK_POINTER_SIZE. apply Z.divide_sub_r; [done|by exists 1].
Qed.

Lemma stacked_elem lo hi al a :
  stacked lo hi al -> a ∈ al ->
  lo <= link_at a /\ a.1 + lsize a.2 <= hi /\ (lalign a.2 | a.1) /\ (8 | a.1) /\ layout_ok a.2.
Proof.
  revert hi. induction al as [|b al IH]; intros hi; cbn; [by rewrite elem_of_nil|].
  intros (Hlo & H8 & Hal & Hok & Hhi & Hst) [->|Ha]%elem_of_cons.
  - pose proof (stacked_limit_le _ _ _ Hst). split_and!; auto. lia.
  - by apply (IH hi).
Qed.

Lemma seg_elem s a :
  seg_ok s -> a ∈ sallocs s ->
  sbase s + HEADER_SIZE <= link_at a /\ a.1 + lsize a.2 <= sbase s + ssize s.
Proof.
  intros Hok Ha. destruct (stacked_elem _ _ _ _ (seg_stacked s Hok) Ha) as (? & ? & _). done.
Qed.

(** Popping a segment keeps it well formed. *)
Lemma seg_ok_pop b sz a al :
  seg_ok {| sbase := b; ssize := sz; sallocs := a :: al |} ->
  seg_ok {| sbase := b; ssize := sz; sallocs := al |}.
Proof. intros [? ? ? ? ? (_ & _ & _ & _ & _ & Hst)]. by split. Qed.

Lemma seg_ok_empty s : seg_ok s -> seg_ok {| sbase := sbase s; ssize := ssize s; sallocs := [] |}.
Proof. intros []. by split. Qed.

(** ** Frames: a change of memory that keeps the cells of headers and links *)
Lemma headers_ok_agree m m' segs :
  headers_ok m segs ->
  (forall s, s ∈ segs -> cells m !! sbase s <> None -> cells m' !! sbase s = cells m !! sbase s) ->
  headers_ok m' segs.
Proof.
  induction segs as [|s segs IH]; cbn; [done|]. intros [Hh Hr] Hag. split.
  - rewrite Hag; [done|left|congruence].
  - apply IH; [done|]. intros s' Hs'. apply Hag. by right.
Qed.

Lemma links_ok_agree m m' al :
  links_ok m al ->
  (forall a, a ∈ al -> cells m !! link_at a <> None -> cells m' !! link_at a = cells m !! link_at a) ->
  links_ok m' al.
Proof.
  induction al as [|a al IH]; cbn; [done|]. intros [Hh Hr] Hag. split.
  - rewrite Hag; [done|left|congruence].
  - apply IH; [done|]. intros a' Ha'. apply Hag. by right.
Qed.

Lemma headers_ok_elem m segs s :
  headers_ok m segs -> s ∈ segs -> exists p,
  cells m !! sbase s = Some (HEADER_SIZE, Header {| previous := p; blast := sbase s + ssize s |}).
Proof.
  induction segs as [|s' segs IH]; cbn; [by rewrite elem_of_nil|].
  intros [Hh Hr] [->|Hs]%elem_of_cons; [eauto|]. by apply IH.
Qed.

Lemma links_ok_elem m al a :
  links_ok m al -> a ∈ al -> exists o, cells m !! link_at a = Some (BACK_POINTER_SIZE, Link o).
Proof.
  induction al as [|a' al IH]; cbn; [by rewrite elem_of_nil|].
  intros [Hh Hr] [->|Ha]%elem_of_cons; [eauto|]. by apply IH.
Qed.

(** A write of the bytes [lo, hi), and a store at [lo], leave the headers and
    links outside alone. *)
Definition clear_of (lo hi : Z) (segs : list segment) : Prop :=
  (forall s, s ∈ segs -> hi <= sbase s \/ sbase s + HEADER_SIZE <= lo) /\
  (forall a, a ∈ live segs -> hi <= link_at a \/ a.1 <= lo).

Lemma clear_headers_wipe m lo hi segs :
  headers_ok m segs -> (forall s, s ∈ segs -> hi <= sbase s \/ sbase s + HEADER_SIZE <= lo) ->
  headers_ok (wipe lo hi m) segs.
Proof.
  intros Hh Hc. apply (headers_ok_agree m); [done|]. intros s Hs _.
  destruct (headers_ok_elem _ _ _ Hh Hs) as [p Hp]. rewrite Hp. apply lookup_wipe; auto.
Qed.

Lemma clear_links_wipe m lo hi al :
  links_ok m al -> (forall a, a ∈ al -> hi <= link_at a \/ a.1 <= lo) ->
  links_ok (wipe lo hi m) al.
Proof.
  intros Hh Hc. apply (links_ok_agree m); [done|]. intros a Ha _.
  destruct (links_ok_elem _ _ _ Hh Ha) as [p Hp]. rewrite Hp. apply lookup_wipe; [done|].
  unfold link_at, BACK_POINTER_SIZE in *. destruct (Hc a Ha); lia.
Qed.

Lemma headers_ok_set m p sz c segs :
  headers_ok m segs -> (forall s, s ∈ segs -> sbase s <> p) -> headers_ok (set_cell p sz c m) segs.
Proof.
  intros Hh Hc. apply (headers_ok_agree m); [done|]. intros s Hs _. cbn.
  apply lookup_insert_ne. intros ->. by eapply Hc.
Qed.

Lemma links_ok_set m p sz c al :
  links_ok m al -> (forall a, a ∈ al -> link_at a <> p) -> links_ok (set_cell p sz c m) al.
Proof.
  intros Hh Hc. apply (links_ok_agree m); [done|]. intros s Hs _. cbn.
  apply lookup_insert_ne. intros ->. by eapply Hc.
Qed.

Lemma pairwise_disj_elem segs s s' :
  pairwise_disj segs -> s ∈ segs -> s' ∈ segs -> s <> s' -> seg_disj s s'.
Proof.
  induction segs as [|g segs IH]; cbn; [by rewrite elem_of_nil|].
  intros [Hg Hr] [->|Hs]%elem_of_cons [->|Hs']%elem_of_cons Hne; try done.
  - rewrite Forall_forall in Hg. by apply Hg.
  - rewrite Forall_forall in Hg. destruct (Hg _ Hs); unfold seg_disj; lia.
  - by apply IH.
Qed.

Lemma live_elem segs a : a ∈ live segs <-> exists s, s ∈ segs /\ a ∈ sallocs s.
Proof.
  unfold live. induction segs as [|s segs IH]; cbn.
  - rewrite elem_of_nil. split; [done|]. intros (s & H & _). by apply elem_of_nil in H.
  - rewrite elem_of_app, IH. split.
    + intros [H|(s' & H & Ha)]; [exists s|exists s']; (split; [|done]); [left|by right].
    + intros (s' & [->|H]%elem_of_cons & Ha); [by left|right; eauto].
Qed.

(** ** Reads, under the invariant *)
Lemma wp_read_header s b sz h (Q : BlockHeader -> ast -> Prop) E :
  cells (amem s) !! b = Some (sz, Header h) -> Q h s -> wpe (read_header b) s Q E.
Proof.
  intros Hb HQ. unfold wpe, read_header, bind, on_mem, read. rewrite Hb. cbn.
  by destruct s.
Qed.

Lemma wp_read_link s p sz o (Q : option Z -> ast -> Prop) E :
  cells (amem s) !! p = Some (sz, Link o) -> Q o s -> wpe (read_link p) s Q E.
Proof.
  intros Hb HQ. unfold wpe, read_link, bind, on_mem, read. rewrite Hb. cbn.
  by destruct s.
Qed.

Lemma wp_on_mem {A} (c : M (memory object) A) s (Q : A -> ast -> Prop) E :
  wpe c (amem s) (fun a m => Q a {| amem := m; aself := aself s |}) E ->
  wpe (on_mem c) s Q E.
Proof. unfold wpe, on_mem. by destruct (c (amem s)) as [[a m]| |]. Qed.

(** Pointer arithmetic inside a region. *)
Lemma wp_add m b sz p n (Q : Z -> memory object -> Prop) E :
  regions m !! b = Some sz -> b <= p -> p + n <= b + sz -> Q (p + n) m -> wpe (add p n) m Q E.
Proof.
  intros Hb Hlo Hhi HQ. unfold wpe, add.
  by rewrite (in_region_intro m b sz) by done.
Qed.

Lemma wp_sub m b sz p n (Q : Z -> memory object -> Prop) E :
  regions m !! b = Some sz -> b <= p - n -> p <= b + sz -> Q (p - n) m -> wpe (sub p n) m Q E.
Proof.
  intros Hb Hlo Hhi HQ. unfold wpe, sub.
  by rewrite (in_region_intro m b sz) by done.
Qed.

Lemma wp_write m b sz p l c (Q : unit -> memory object -> Prop) E :
  regions m !! b = Some sz -> b <= p -> p + lsize l <= b + sz -> 0 < lalign l -> (lalign l | p) ->
  Q tt (set_cell p (lsize l) c (wipe p (p + lsize l) m)) -> wpe (write p l c) m Q E.
Proof.
  intros Hb Hlo Hhi Hal Hd HQ. unfold wpe, write.
  by rewrite (accessible_intro m b sz) by done.
Qed.

Lemma inv_region m segs g :
  mem_inv m segs -> g ∈ segs -> regions m !! sbase g = Some (ssize g).
Proof. intros Hinv Hg. apply (inv_regions m segs Hinv). eauto. Qed.

Lemma inv_seg m segs g : mem_inv m segs -> g ∈ segs -> seg_ok g.
Proof. intros Hinv Hg. pose proof (inv_segs _ _ Hinv) as H. rewrite Forall_forall in H. by apply H. Qed.

Lemma wp_block_size s segs g (Q : Z -> ast -> Prop) E :
  mem_inv (amem s) segs -> g ∈ segs -> Q (ssize g) s -> wpe (block_size (sbase g)) s Q E.
Proof.
  intros Hinv Hg HQ. destruct (headers_ok_elem _ _ g (inv_headers _ _ Hinv) Hg) as [p Hp].
  pose proof (seg_size_ge _ (inv_seg _ _ _ Hinv Hg)) as Hge. unfold HEADER_SIZE in Hge.
  apply wpe_bind. eapply wp_read_header; [done|]. cbn. apply wp_on_mem.
  unfold wpe, offset_from.
  rewrite (in_region_intro _ (sbase g) (ssize g)) by (eauto using inv_region || lia).
  replace (sbase g + ssize g - sbase g) with (ssize g) by lia. by destruct s.
Qed.

Definition in_block (g : segment) (a : Z) : bool :=
  (sbase g <=? a)%Z && (a <=? sbase g + ssize g)%Z.

Lemma wp_within_block s segs g a (Q : bool -> ast -> Prop) E :
  mem_inv (amem s) segs -> g ∈ segs -> Q (in_block g a) s -> wpe (within_block (sbase g) a) s Q E.
Proof.
  intros Hinv Hg HQ. apply wpe_bind. by eapply wp_block_size.
Qed.

(** The inclusive range of [within_block] never confuses two blocks: a back
    pointer lies in the range of a block exactly when it was allocated there. *)
Lemma in_block_same g a : seg_ok g -> a ∈ sallocs g -> in_block g (link_at a) = true.
Proof.
  intros Hok Ha. destruct (seg_elem _ _ Hok Ha) as [Hlo Hhi].
  destruct (stacked_elem _ _ _ _ (seg_stacked _ Hok) Ha) as (_ & _ & _ & _ & [Hsz _ _]).
  apply andb_true_iff. rewrite !Z.leb_le. unfold HEADER_SIZE, link_at, BACK_POINTER_SIZE in *. lia.
Qed.

Lemma in_block_other g g' a :
  seg_ok g -> seg_ok g' -> seg_disj g g' -> a ∈ sallocs g' -> in_block g (link_at a) = false.
Proof.
  intros Hok Hok' Hd Ha. destruct (seg_elem _ _ Hok' Ha) as [Hlo Hhi].
  destruct (stacked_elem _ _ _ _ (seg_stacked _ Hok') Ha) as (_ & _ & _ & _ & [Hsz _ _]).
  apply andb_false_iff. rewrite !Z.leb_gt. unfold HEADER_SIZE, link_at, BACK_POINTER_SIZE, seg_disj in *. lia.
Qed.

Lemma in_block_elem m segs g g' a :
  mem_inv m segs -> g ∈ segs -> g' ∈ segs -> a ∈ sallocs g' -> g <> g' ->
  in_block g (link_at a) = false.
Proof.
  intros Hinv Hg Hg' Ha Hne. eapply in_block_other; eauto using inv_seg.
  by eapply pairwise_disj_elem; eauto using inv_disj.
Qed.

(** The newest allocation of a block is the lowest. *)
Lemma stacked_above lo hi al a : stacked lo hi al -> a ∈ al -> limit hi al <= link_at a.
Proof.
  induction al as [|b al IH]; cbn; [by rewrite elem_of_nil|].
  intros (_ & _ & _ & [Hsz _ _] & Hhi & Hst) [->|Ha]%elem_of_cons; [done|].
  specialize (IH Hst Ha). unfold link_at, BACK_POINTER_SIZE in *. lia.
Qed.

(** Two allocations of a block are the same, or apart, back pointers included. *)
Lemma stacked_pair lo hi al a a' :
  stacked lo hi al -> a ∈ al -> a' ∈ al ->
  a = a' \/ a.1 + lsize a.2 <= link_at a' \/ a'.1 + lsize a'.2 <= link_at a.
Proof.
  revert hi. induction al as [|b al IH]; intros hi; cbn; [by rewrite elem_of_nil|].
  intros (_ & _ & _ & _ & Hhi & Hst).
  assert (Hb : forall c, c ∈ al -> b.1 + lsize b.2 <= link_at c).
  { intros c Hc. pose proof (stacked_above _ _ _ _ Hst Hc). lia. }
  intros [->|Ha]%elem_of_cons [->|Ha']%elem_of_cons; auto.
  by apply (IH hi).
Qed.

(** Bytes of a block [g] above its header are clear of the rest of memory when
    they are clear of the allocations of [g]. *)
Lemma block_clear m segs g lo hi :
  mem_inv m segs -> g ∈ segs -> sbase g + HEADER_SIZE <= lo -> hi <= sbase g + ssize g ->
  (forall a, a ∈ sallocs g -> hi <= link_at a \/ a.1 <= lo) -> clear_of lo hi segs.
Proof.
  intros Hm Hg Hlo Hhi Hal. split.
  - intros g' Hg'. pose proof (seg_size_ge _ (inv_seg _ _ _ Hm Hg')).
    destruct (decide (g = g')) as [<-|Hne]; [by right|].
    unfold HEADER_SIZE in *.
    destruct (pairwise_disj_elem _ _ _ (inv_disj _ _ Hm) Hg Hg' Hne); lia.
  - intros a (g' & Hg' & Ha)%live_elem. pose proof (inv_seg _ _ _ Hm Hg') as Hok.
    destruct (seg_elem _ _ Hok Ha) as [Ha1 Ha2].
    destruct (stacked_elem _ _ _ _ (seg_stacked _ Hok) Ha) as (_ & _ & _ & _ & [Hsz _ _]).
    destruct (decide (g = g')) as [<-|Hne]; [by apply Hal|].
    unfold HEADER_SIZE in *. unfold link_at, BACK_POINTER_SIZE in *.
    destruct (pairwise_disj_elem _ _ _ (inv_disj _ _ Hm) Hg Hg' Hne); lia.
Qed.

Lemma stacked_apart lo hi al i j a b :
  stacked lo hi al -> al !! i = Some a -> al !! j = Some b -> i <> j ->
  a.1 + lsize a.2 <= link_at b \/ b.1 + lsize b.2 <= link_at a.
Proof.
  revert i j. induction al as [|c al IH]; intros i j; cbn; [done|].
  intros (_ & _ & _ & _ & Hhi & Hst).
  assert (Hb : forall d k, al !! k = Some d -> c.1 + lsize c.2 <= link_at d).
  { intros d k Hd%list_elem_of_lookup_2. pose proof (stacked_above _ _ _ _ Hst Hd). lia. }
  destruct i as [|i], j as [|j]; cbn; intros Ha Hb' Hne; simplify_eq; eauto.
Qed.
