(* ===== verification/AllocatorSpec.v ===== *)
(** * Correctness of the stack allocator

    Every operation of [StackAllocator] preserves the invariant of
    [AllocatorInv] and acts on the list of live allocations as a stack. *)

From S2P Require Import Prelude Ptr Allocator AllocatorInv.

(** Layouts of types: [rustc] bounds the size of a type by [2 ^ 61]. *)
Definition layout_small (l : Layout) : Prop :=
  layout_ok l /\ lsize l + lalign l <= 2 ^ 61.

Definition unwrap_none : string := "called `Option::unwrap()` on a `None` value".

(** The panics an allocation can end in: the global allocator is out of memory,
    or the next block would be too large. *)
Definition alloc_failure (m : string) : Prop :=
  m = "Exceeded maximum allocation size"%string \/ m = unwrap_none.

Lemma layout_align_pos l : layout_ok l -> 0 < lalign l.
Proof. intros [_ (k & Hk & ->) _]. lia. Qed.

(** The bytes [alloc_size] reserves: the value, and enough to align it behind a
    back pointer. *)
Definition reserved (l : Layout) : Z := lsize l + Z.max (lalign l) MINIMUM_ALIGN.

Lemma alloc_size_reserved l : layout_ok l -> alloc_size l = Some (reserved l).
Proof.
  intros [Hs (k & Hk & Ha) Hf]. unfold alloc_size, reserved, saturating_sub, checked_add.
  unfold isize_max, usize_max, usize_bits, MINIMUM_ALIGN, BACK_POINTER_SIZE in *.
  destruct (Z.leb_spec (lsize l + (Z.max 0 (lalign l - 8) + 8)) (2 ^ 64 - 1)); [f_equal|]; lia.
Qed.

Lemma reserved_bounds l :
  layout_small l -> MINIMUM_ALIGN <= reserved l <= 2 ^ 61 + MINIMUM_ALIGN.
Proof.
  intros [Hok Hs]. pose proof (layout_align_pos l Hok). destruct Hok as [Hsz _ _].
  unfold reserved, MINIMUM_ALIGN. lia.
Qed.

(** The arithmetic of [place_below]: what is left after rounding down. *)
Lemma place_below_bounds l t b :
  layout_ok l -> (8 | t) -> (8 | b) -> b + HEADER_SIZE <= t - reserved l ->
  let res := align_down (t - lsize l) (Z.max (lalign l) MINIMUM_ALIGN) in
  b + HEADER_SIZE <= res - BACK_POINTER_SIZE /\ res + lsize l <= t /\
  (8 | res) /\ (lalign l | res) /\ t - reserved l < res.
Proof.
  intros [Hs (k & Hk & Ha) _] Ht Hb Hfit res.
  set (A := Z.max (lalign l) MINIMUM_ALIGN) in *.
  assert (HA : (8 | A) /\ (lalign l | A) /\ 0 < A).
  { unfold A, MINIMUM_ALIGN. destruct (Z.max_spec (lalign l) 8) as [[Hlt ->]|[Hge ->]].
    - split_and!; [by exists 1| |lia]. change 8 with (2 ^ 3). rewrite Ha. apply pow2_divide.
      split; [lia|]. apply Z.lt_le_incl, (Z.pow_lt_mono_r_iff 2); lia.
    - split_and!; [|exists 1; lia|lia]. rewrite Ha. apply (pow2_divide 3). split; [lia|].
      apply (Z.pow_le_mono_r_iff 2); lia. }
  destruct HA as (H8A & HalA & HApos).
  pose proof (align_down_le A HApos (t - lsize l)) as Hle. fold res in Hle.
  pose proof (align_down_divide A HApos (t - lsize l)) as Hdiv. fold res in Hdiv.
  assert (H8 : (8 | res)) by eauto using Z.divide_trans.
  unfold reserved in *. fold A in Hfit |- *.
  split; [|split_and!; [lia|done|by eauto using Z.divide_trans|lia]].
  unfold HEADER_SIZE, BACK_POINTER_SIZE in *. destruct Hb as [q ->], H8 as [r Hr]. lia.
Qed.

(** ** Choosing the allocation pointer *)
Section choose.
Context (s : ast) (g : segment) (segs : list segment).
Context (Hinv : alloc_inv s (g :: segs)).

Lemma wp_last (Q : Z -> ast -> Prop) E :
  Q (sbase g + ssize g) s -> wpe (let! h := read_header (sbase g) in ret (blast h)) s Q E.
Proof.
  intros HQ. destruct (headers_ok_elem _ _ g (inv_headers _ _ (inv_mem _ _ Hinv))) as [p Hp].
  { left. }
  apply wpe_bind. by eapply wp_read_header.
Qed.

Lemma wp_choose_top (Q : Z -> ast -> Prop) E :
  Q (limit (sbase g + ssize g) (sallocs g)) s -> wpe (choose_top (sbase g)) s Q E.
Proof.
  intros HQ. unfold choose_top. apply wpe_bind, wpe_gets.
  pose proof (inv_mem _ _ Hinv) as Hm. pose proof (inv_seg _ _ g Hm ltac:(left)) as Hok.
  rewrite (inv_top _ _ Hinv). unfold live. cbn [map concat].
  destruct (sallocs g) as [|a al] eqn:Hal; cbn.
  - destruct (live segs) as [|a al] eqn:Hl; unfold live in Hl; rewrite Hl; cbn;
      [by apply wp_last|].
    apply wpe_bind. eapply wp_within_block; [done|left|].
    unfold cast, addr. assert (a ∈ live segs) as (g' & Hg' & Ha)%live_elem by (unfold live; rewrite Hl; left).
    rewrite (in_block_elem _ _ g g' a Hm); [|left|by right|done|intros ->; by rewrite Hal in Ha; apply elem_of_nil in Ha].
    by apply wp_last.
  - apply wpe_bind. eapply wp_within_block; [done|left|].
    unfold cast, addr. rewrite in_block_same; [|done|rewrite Hal; left].
    by apply wpe_ret.
Qed.
End choose.

(** ** A new block *)

(** Memory [m] extended by a fresh block [g], whose header says [prev]. *)
Record block_added (m m' : memory object) (segs : list segment) (g : segment) (prev : option Z)
  : Prop := {
  added_seg : seg_ok g;
  added_empty : sallocs g = [];
  added_disj : Forall (seg_disj g) segs;
  added_regions : regions m' = <[sbase g := ssize g]> (regions m);
  added_header : cells m' !! sbase g =
    Some (HEADER_SIZE, Header {| previous := prev; blast := sbase g + ssize g |});
  added_headers : headers_ok m' segs;
  added_links : links_ok m' (live segs);
}.

Lemma block_added_inv m m' segs g :
  mem_inv m segs -> block_added m m' segs g (head_base segs) -> mem_inv m' (g :: segs).
Proof.
  intros Hm [Hok He Hd Hr Hh Hhs Hls]. split.
  - constructor; [done|]. apply (inv_segs _ _ Hm).
  - split; [done|]. apply (inv_disj _ _ Hm).
  - intros b sz. rewrite Hr, lookup_insert_Some. rewrite (inv_regions _ _ Hm).
    split.
    + intros [[<- <-]|[Hne (g' & Hg' & ? & ?)]]; [exists g|exists g']; split_and!; auto; [left|by right].
    + intros (g' & [->|Hg']%elem_of_cons & <- & <-); [by left|right]. split; [|by eauto].
      intros Heq. rewrite Forall_forall in Hd. specialize (Hd _ Hg').
      pose proof (seg_size_ge _ Hok). pose proof (seg_size_ge _ (inv_seg _ _ _ Hm Hg')).
      unfold seg_disj, HEADER_SIZE in *. lia.
  - by split.
  - unfold live in *. cbn. by rewrite He.
Qed.

(** Bytes of a fresh block are clear of the headers and links of the others. *)
Lemma fresh_clear segs g lo hi :
  Forall seg_ok segs -> Forall (seg_disj g) segs -> sbase g <= lo -> hi <= sbase g + ssize g ->
  clear_of lo hi segs.
Proof.
  rewrite !Forall_forall. intros Hs Hd Hlo Hhi. split.
  - intros g' Hg'. pose proof (seg_size_ge _ (Hs _ Hg')). destruct (Hd _ Hg'); lia.
  - intros a (g' & Hg' & Ha)%live_elem. pose proof (Hs _ Hg') as Hok.
    destruct (seg_elem _ _ Hok Ha) as [Ha1 Ha2].
    destruct (stacked_elem _ _ _ _ (seg_stacked _ Hok) Ha) as (_ & _ & _ & _ & [Hsz _ _]).
    unfold HEADER_SIZE in *. destruct (Hd _ Hg'); unfold link_at, BACK_POINTER_SIZE in *; lia.
Qed.

(** Cells outside a range survive its being overwritten. *)
Lemma clear_wipe m lo hi segs :
  clear_of lo hi segs -> headers_ok m segs -> links_ok m (live segs) ->
  headers_ok (wipe lo hi m) segs /\ links_ok (wipe lo hi m) (live segs).
Proof. intros [Hh Hl]. split; [by apply clear_headers_wipe|by apply clear_links_wipe]. Qed.

(** Writing the header of a block leaves the other blocks alone. *)
Lemma write_header_frame m segs g c :
  Forall seg_ok segs -> seg_ok g -> Forall (seg_disj g) segs ->
  headers_ok m segs -> links_ok m (live segs) ->
  let m' := set_cell (sbase g) HEADER_SIZE c (wipe (sbase g) (sbase g + HEADER_SIZE) m) in
  headers_ok m' segs /\ links_ok m' (live segs).
Proof.
  intros Hs Hok Hd Hh Hl m'. pose proof (seg_size_ge _ Hok) as Hsz.
  pose proof (fresh_clear segs g (sbase g) (sbase g + HEADER_SIZE) Hs Hd ltac:(lia) ltac:(lia)) as Hc.
  destruct (clear_wipe _ _ _ _ Hc Hh Hl) as [Hh' Hl']. destruct Hc as [Hch Hcl]. split.
  - apply headers_ok_set; [done|]. intros x Hx Heq. destruct (Hch _ Hx); unfold HEADER_SIZE in *; lia.
  - apply links_ok_set; [done|]. intros a Ha Heq.
    destruct (Hcl _ Ha); unfold link_at, BACK_POINTER_SIZE, HEADER_SIZE in *; lia.
Qed.

(** Writing the header of the new block. *)
Lemma block_added_write m m' segs g prev :
  Forall seg_ok segs -> seg_ok g -> sallocs g = [] -> Forall (seg_disj g) segs ->
  regions m' = <[sbase g := ssize g]> (regions m) ->
  headers_ok m' segs -> links_ok m' (live segs) ->
  block_added m
    (set_cell (sbase g) HEADER_SIZE (Header {| previous := prev; blast := sbase g + ssize g |})
       (wipe (sbase g) (sbase g + HEADER_SIZE) m'))
    segs g prev.
Proof.
  intros Hs Hok He Hd Hr Hh Hl.
  destruct (write_header_frame m' segs g
    (Header {| previous := prev; blast := sbase g + ssize g |})) as [Hh' Hl']; auto.
  split; auto. apply lookup_write_eq.
Qed.

(** ** Stores of the client *)

(** The bytes of a live allocation are accessible, and whatever is stored there
    leaves the allocator's own data alone. *)
Lemma live_clear m segs a :
  mem_inv m segs -> a ∈ live segs ->
  accessible m a.1 a.2 = true /\ clear_of a.1 (a.1 + lsize a.2) segs.
Proof.
  intros Hm (g & Hg & Ha)%live_elem. pose proof (inv_seg _ _ _ Hm Hg) as Hok.
  destruct (stacked_elem _ _ _ _ (seg_stacked _ Hok) Ha) as (Hlo & Hhi & Hal & H8 & Hl).
  pose proof (layout_size _ Hl). unfold link_at, HEADER_SIZE, BACK_POINTER_SIZE in *. split.
  - eapply accessible_intro; [by eapply inv_region|lia|lia|by apply layout_align_pos|done].
  - eapply block_clear; [done..|unfold HEADER_SIZE; lia|lia|]. intros a' Ha'.
    pose proof (stacked_elem _ _ _ _ (seg_stacked _ Hok) Ha') as (_ & _ & _ & _ & [Hs' _ _]).
    destruct (stacked_pair _ _ _ _ _ (seg_stacked _ Hok) Ha Ha') as [<-|[?|?]];
      unfold link_at, BACK_POINTER_SIZE in *; lia.
Qed.

Lemma mem_inv_wipe m segs lo hi :
  mem_inv m segs -> clear_of lo hi segs -> mem_inv (wipe lo hi m) segs.
Proof.
  intros [] [Hh Hl]. split; auto; [by apply clear_headers_wipe|by apply clear_links_wipe].
Qed.

Lemma wp_write_live s segs a (Q : unit -> ast -> Prop) E :
  alloc_inv s segs -> a ∈ live segs ->
  (forall s', alloc_inv s' segs -> aself s' = aself s -> Q tt s') ->
  wpe (on_mem (write_opaque a.1 a.2)) s Q E.
Proof.
  intros [Hb Ht Hm] Ha HQ. destruct (live_clear _ _ _ Hm Ha) as [Hacc Hc].
  apply wp_on_mem. unfold wpe, write_opaque. rewrite Hacc. apply HQ; [|done].
  split; [done..|]. by apply mem_inv_wipe.
Qed.

(** How an allocation changes the segments: into the head block, into a first
    block, or into a new head block at least twice as large as the old one. *)
Inductive pushed (a : allocation) : list segment -> list segment -> Prop :=
| pushed_here b sz al rest :
    pushed a ({| sbase := b; ssize := sz; sallocs := al |} :: rest)
             ({| sbase := b; ssize := sz; sallocs := a :: al |} :: rest)
| pushed_first b sz : pushed a [] [{| sbase := b; ssize := sz; sallocs := [a] |}]
| pushed_grown b sz g rest :
    2 * ssize g <= sz ->
    pushed a (g :: rest) ({| sbase := b; ssize := sz; sallocs := [a] |} :: g :: rest).

Lemma pushed_live a segs segs' : pushed a segs segs' -> live segs' = a :: live segs.
Proof. by destruct 1. Qed.

Section operations.
Context `{!GlobalAlloc} (debug : bool).

Lemma wp_debug_assert b m s (Q : unit -> ast -> Prop) E :
  b = true -> Q tt s -> wpe (debug_assert debug b m) s Q E.
Proof. intros ->. unfold debug_assert. by destruct debug. Qed.

(** A block given out by the global allocator, as an empty segment. *)
Lemma wp_os_alloc m segs k (Q : option Z -> memory object -> Prop) E :
  mem_inv m segs -> 4 <= k -> 2 ^ k < isize_max -> Q None m ->
  (forall g, ssize g = 2 ^ k -> sallocs g = [] -> seg_ok g -> Forall (seg_disj g) segs ->
     Q (Some (sbase g)) {| regions := <[sbase g := ssize g]> (regions m); cells := cells m |}) ->
  wpe (os_alloc (2 ^ k) HEADER_ALIGN) m Q E.
Proof.
  intros Hm Hk Hsmall HN HS. assert (0 < 2 ^ k) by lia. unfold wpe, os_alloc.
  replace (2 ^ k =? 0) with false by (symmetry; apply Z.eqb_neq; lia).
  unfold from_ptr. destruct (decide _) as [|Hnz]; [done|].
  destruct (ga_spec (regions m) (2 ^ k) HEADER_ALIGN _ ltac:(lia) eq_refl Hnz)
    as (Hpos & Hdiv & Hend & Hfresh).
  apply (HS {| sbase := ga_alloc (regions m) (2 ^ k) HEADER_ALIGN; ssize := 2 ^ k; sallocs := [] |});
    [done|done|by split; cbn; eauto|].
  apply Forall_forall. intros g Hg. specialize (Hfresh _ _ (inv_region _ _ _ Hm Hg)).
  unfold seg_disj. cbn. lia.
Qed.

Lemma block_layout_ok k :
  0 <= k -> 2 ^ k < isize_max ->
  from_size_align (2 ^ k) HEADER_ALIGN = Some {| lsize := 2 ^ k; lalign := HEADER_ALIGN |}.
Proof.
  intros Hk Hs. assert (2 ^ k <= 2 ^ 62).
  { apply Z.pow_le_mono_r; [lia|]. apply Z.lt_succ_r. apply (Z.pow_lt_mono_r_iff 2);
      unfold isize_max, usize_bits in *; lia. }
  unfold from_size_align.
  replace (2 ^ k <=? isize_max - (HEADER_ALIGN - 1)) with true; [done|].
  symmetry. apply Z.leb_le. unfold isize_max, usize_bits, HEADER_ALIGN. lia.
Qed.

Lemma wp_alloc_new_block s segs k (Q : Z -> ast -> Prop) :
  mem_inv (amem s) segs -> 4 <= k ->
  (forall g m', ssize g = 2 ^ k -> block_added (amem s) m' segs g None ->
     Q (sbase g) {| amem := m'; aself := aself s |}) ->
  wpe (alloc_new_block debug (2 ^ k)) s Q alloc_failure.
Proof.
  intros Hm Hk HQ. unfold alloc_new_block.
  assert (H16 : 16 <= 2 ^ k) by (change 16 with (2 ^ 4); apply Z.pow_le_mono_r; lia).
  apply wpe_bind, wp_debug_assert; [apply is_power_of_two_spec; exists k; lia|].
  apply wpe_bind, wp_debug_assert; [by apply Z.leb_le|].
  apply wpe_bind, wpe_assert; [intros Hsmall%Z.ltb_lt|by left].
  apply wpe_bind. eapply wpe_unwrap_some; [apply block_layout_ok; [lia|done]|]. cbn [lsize lalign].
  apply wpe_bind, wp_on_mem. apply (wp_os_alloc _ segs); [done..|by right|].
  intros g Hg He Hok Hd. set (m1 := {| regions := _; cells := _ |}).
  apply wpe_bind. eapply wpe_unwrap_some; [reflexivity|]. rewrite <- Hg in *.
  assert (Hr : regions m1 !! sbase g = Some (ssize g)) by apply lookup_insert_eq.
  apply wpe_bind, wp_on_mem, (wp_add _ (sbase g) (ssize g)); [done|lia|lia|].
  apply wpe_bind, wp_on_mem, (wp_write _ (sbase g) (ssize g));
    [done|lia|cbn; unfold HEADER_SIZE; lia|done|apply (seg_align _ Hok)|].
  apply wpe_ret, HQ; [done|].
  apply (block_added_write _ m1); auto; [apply (inv_segs _ _ Hm)| |].
  - apply (headers_ok_agree (amem s)); [apply Hm|done].
  - apply (links_ok_agree (amem s)); [apply Hm|done].
Qed.

Lemma pow2_ceil_block n : HEADER_SIZE <= n -> exists k, 4 <= k /\ pow2_ceil n = 2 ^ k.
Proof.
  unfold HEADER_SIZE. intros Hn. destruct (pow2_ceil_power n) as (k & Hk & Hp).
  exists k. split; [|done]. pose proof (pow2_ceil_ge n ltac:(lia)).
  apply (Z.pow_le_mono_r_iff 2); lia.
Qed.

Lemma wp_next_power_of_two n s (Q : Z -> ast -> Prop) E :
  0 < n <= 2 ^ 63 -> Q (pow2_ceil n) s -> wpe (next_power_of_two debug n) s Q E.
Proof.
  intros Hn HQ. unfold next_power_of_two.
  replace (pow2_ceil n <=? usize_max) with true; [done|].
  symmetry. apply Z.leb_le. pose proof (pow2_ceil_min n 63 ltac:(lia) ltac:(lia)).
  unfold usize_max, usize_bits. lia.
Qed.

Lemma wp_grow_initial s l (Q : Z -> ast -> Prop) :
  alloc_inv s [] -> layout_small l ->
  (forall g s', sallocs g = [] -> HEADER_SIZE + reserved l <= ssize g ->
     alloc_inv s' [g] -> Q (sbase g) s') ->
  wpe (grow_initial debug l) s Q alloc_failure.
Proof.
  intros Hinv Hl HQ. pose proof (reserved_bounds l Hl) as Hb. destruct Hl as [Hok _].
  unfold grow_initial. apply wpe_bind. eapply wpe_unwrap_some; [by apply alloc_size_reserved|].
  assert (Hn : HEADER_SIZE <= reserved l + HEADER_SIZE <= 2 ^ 62)
    by (unfold HEADER_SIZE, MINIMUM_ALIGN in *; lia).
  apply wpe_bind. unfold usize_add.
  replace (reserved l + HEADER_SIZE <=? usize_max) with true
    by (symmetry; apply Z.leb_le; unfold usize_max, usize_bits; lia).
  apply wpe_ret, wpe_bind, wp_next_power_of_two; [unfold HEADER_SIZE in *; lia|].
  destruct (pow2_ceil_block _ (proj1 Hn)) as (k & Hk & Hp).
  pose proof (pow2_ceil_ge (reserved l + HEADER_SIZE) ltac:(unfold HEADER_SIZE in *; lia)) as Hge.
  rewrite Hp in *.
  apply wpe_bind, wpe_assert_true; [apply negb_true_iff, Z.eqb_neq; lia|].
  apply wpe_bind, (wp_alloc_new_block s []); [apply Hinv|done|].
  intros g m' Hg Hadd. apply wpe_bind, wpe_modify, wpe_ret, HQ.
  - apply (added_empty _ _ _ _ _ Hadd).
  - lia.
  - split; cbn; [done| |by apply (block_added_inv _ _ [] g (inv_mem _ _ Hinv))].
    rewrite (inv_top _ _ Hinv). unfold live. cbn. by rewrite (added_empty _ _ _ _ _ Hadd).
Qed.

(** Growing doubles the head block at least. *)
Lemma wp_grow_alloc_new_top s g segs l (Q : Z -> ast -> Prop) :
  alloc_inv s (g :: segs) -> layout_small l ->
  (forall g' s', sallocs g' = [] -> HEADER_SIZE + reserved l <= ssize g' -> 2 * ssize g <= ssize g' ->
     alloc_inv s' (g' :: g :: segs) -> Q (sbase g' + ssize g') s') ->
  wpe (grow_alloc_new_top debug l) s Q alloc_failure.
Proof.
  intros Hinv Hl HQ. pose proof (reserved_bounds l Hl) as Hb. destruct Hl as [Hok _].
  pose proof (inv_mem _ _ Hinv) as Hm. pose proof (inv_seg _ _ g Hm ltac:(left)) as Hg.
  pose proof (seg_size_ge _ Hg) as Hgsz. pose proof (seg_small _ Hg) as Hgs.
  destruct (seg_pow2 _ Hg) as (j & Hj & Hgj).
  unfold grow_alloc_new_top. apply wpe_bind.
  eapply wpe_unwrap_some; [by apply alloc_size_reserved|].
  apply wpe_bind, wpe_gets, wpe_bind, wpe_modify, wpe_bind.
  eapply wpe_unwrap_some; [apply (inv_block _ _ Hinv)|].
  apply wpe_bind, (wp_block_size _ (g :: segs)); [done|left|].
  assert (Hgj62 : ssize g <= 2 ^ 62).
  { rewrite Hgj in *. apply Z.pow_le_mono_r; [lia|]. apply Z.lt_succ_r.
    apply (Z.pow_lt_mono_r_iff 2); unfold isize_max, usize_bits in *; lia. }
  assert (Hn : ssize g < ssize g + reserved l <= 2 ^ 63) by (unfold MINIMUM_ALIGN in *; lia).
  apply wpe_bind. unfold checked_add.
  replace (ssize g + reserved l <=? usize_max) with true
    by (symmetry; apply Z.leb_le; unfold usize_max, usize_bits; lia).
  eapply wpe_unwrap_some; [done|].
  apply wpe_bind, wp_next_power_of_two; [unfold HEADER_SIZE in *; lia|].
  destruct (pow2_ceil_block (ssize g + reserved l)) as (k & Hk & Hp);
    [unfold HEADER_SIZE in *; lia|].
  pose proof (pow2_ceil_ge (ssize g + reserved l) ltac:(unfold HEADER_SIZE in *; lia)) as Hge.
  rewrite Hp in *.
  assert (Hdbl : 2 * ssize g <= 2 ^ k).
  { rewrite Hgj in *. assert (j < k) by (apply (Z.pow_lt_mono_r_iff 2); lia).
    rewrite <- Z.pow_succ_r by lia. apply Z.pow_le_mono_r; lia. }
  apply wpe_bind, (wp_alloc_new_block _ (g :: segs)); [done|done|].
  intros g' m' Hg' Hadd. cbn [amem aself] in *.
  pose proof (added_seg _ _ _ _ _ Hadd) as Hok'. pose proof (seg_size_ge _ Hok') as Hsz'.
  apply wpe_bind. eapply wp_read_header; [apply (added_header _ _ _ _ _ Hadd)|]. cbn [blast].
  assert (Hreg : regions m' !! sbase g' = Some (ssize g'))
    by (rewrite (added_regions _ _ _ _ _ Hadd); apply lookup_insert_eq).
  apply wpe_bind, wp_on_mem, (wp_write _ (sbase g') (ssize g'));
    [done|lia|cbn; lia|done|apply (seg_align _ Hok')|]. cbn [amem aself].
  assert (Hadd' := block_added_write (amem s) m' (g :: segs) g' (Some (sbase g)) (inv_segs _ _ Hm) Hok'
    (added_empty _ _ _ _ _ Hadd) (added_disj _ _ _ _ _ Hadd) (added_regions _ _ _ _ _ Hadd)
    (added_headers _ _ _ _ _ Hadd) (added_links _ _ _ _ _ Hadd)).
  apply wpe_bind, wpe_modify, wpe_bind.
  eapply wp_read_header; [apply (added_header _ _ _ _ _ Hadd')|].
  apply wpe_ret, HQ; [apply (added_empty _ _ _ _ _ Hadd)|lia|lia|].
  split; cbn; [done| |by apply (block_added_inv (amem s))].
  rewrite (inv_top _ _ Hinv). unfold live. cbn. by rewrite (added_empty _ _ _ _ _ Hadd).
Qed.

(** The invariant after an allocation at [r] in the head block. *)
Lemma push_inv s g segs r l :
  let t := limit (sbase g + ssize g) (sallocs g) in
  let g' := {| sbase := sbase g; ssize := ssize g; sallocs := (r, l) :: sallocs g |} in
  alloc_inv s (g :: segs) -> layout_ok l ->
  sbase g + HEADER_SIZE <= r - 8 -> r + lsize l <= t -> (8 | r) -> (lalign l | r) ->
  alloc_inv
    {| amem := set_cell (r - 8) 8 (Link (top_ptr (aself s))) (wipe (r - 8) r (amem s));
       aself := {| block := block (aself s); top_ptr := Some (r - 8) |} |}
    (g' :: segs).
Proof.
  intros t g' Hinv Hl Hr1 Hr2 Hr3 Hr4. pose proof (inv_mem _ _ Hinv) as Hm.
  pose proof (inv_seg _ _ g Hm ltac:(left)) as Hok. pose proof (seg_stacked _ Hok) as Hst.
  pose proof (stacked_limit_le _ _ _ Hst) as Hthi. fold t in Hthi.
  pose proof (layout_size _ Hl) as Hsz.
  destruct (block_clear _ _ g (r - 8) r Hm ltac:(left)) as [Hch Hcl]; [lia|lia| |].
  { intros a Ha. pose proof (stacked_above _ _ _ _ Hst Ha) as Hab. fold t in Hab. left. lia. }
  split; cbn [amem aself block top_ptr]; [apply (inv_block _ _ Hinv)|done|]. split.
  - constructor; [|by eapply Forall_inv_tail, inv_segs]. destruct Hok. split; auto. cbn.
    split_and!; auto; unfold link_at, BACK_POINTER_SIZE in *; cbn; lia.
  - apply (inv_disj _ _ Hm).
  - intros b sz. cbn [regions set_cell wipe]. rewrite (inv_regions _ _ Hm). split.
    + intros (x & [->|Hx]%elem_of_cons & <- & <-); [exists g'; by split; [left|]|].
      exists x. by split; [right|].
    + intros (x & [->|Hx]%elem_of_cons & <- & <-); [exists g; by split; [left|]|].
      exists x. by split; [right|].
  - apply (headers_ok_set _ _ _ _ (g :: segs)); [by apply clear_headers_wipe, Hch; apply Hm|].
    intros x Hx. specialize (Hch x Hx). unfold HEADER_SIZE in Hch. lia.
  - change (live (g' :: segs)) with ((r, l) :: live (g :: segs)). split.
    + unfold link_at, BACK_POINTER_SIZE. cbn. rewrite lookup_insert_eq.
      by rewrite (inv_top _ _ Hinv).
    + apply links_ok_set; [by apply clear_links_wipe, Hcl; apply Hm|].
      intros x Hx. specialize (Hcl x Hx). unfold link_at, BACK_POINTER_SIZE in *. lia.
Qed.

(** The mask of [place_below] on the alignment of a layout. *)
Lemma layout_mask l a :
  layout_ok l -> 0 <= a <= usize_max ->
  Z.land a (usize_not (Z.max (lalign l) MINIMUM_ALIGN - 1)) =
  align_down a (Z.max (lalign l) MINIMUM_ALIGN).
Proof.
  intros [_ (k & Hk & Hka) _] Ha.
  assert (exists j, 0 <= j < usize_bits /\ Z.max (lalign l) MINIMUM_ALIGN = 2 ^ j)
    as (j & Hj & ->).
  { rewrite Hka. destruct (Z.max_spec (2 ^ k) MINIMUM_ALIGN) as [[_ ->]|[_ ->]];
      [exists 3; by split; [unfold usize_bits; lia|]|eauto]. }
  by apply land_usize_not.
Qed.

Lemma wp_place_below s g segs l (Q : Z -> ast -> Prop) E :
  let t := limit (sbase g + ssize g) (sallocs g) in
  alloc_inv s (g :: segs) -> layout_ok l -> sbase g + HEADER_SIZE <= t - reserved l ->
  (forall r s',
     alloc_inv s' ({| sbase := sbase g; ssize := ssize g; sallocs := (r, l) :: sallocs g |} :: segs) ->
     t - reserved l < r -> Q r s') ->
  wpe (place_below t l) s Q E.
Proof.
  intros t Hinv Hl Hfit HQ. pose proof (inv_mem _ _ Hinv) as Hm.
  pose proof (inv_seg _ _ g Hm ltac:(left)) as Hok. pose proof (seg_stacked _ Hok) as Hst.
  pose proof (stacked_limit_le _ _ _ Hst) as Hthi. fold t in Hthi.
  assert (Ht8 : (8 | t)).
  { eapply stacked_limit_divide; [|done].
    apply Z.divide_add_r; [apply (seg_align _ Hok)|by apply seg_size_divide]. }
  pose proof (inv_region _ _ g Hm ltac:(left)) as Hreg.
  pose proof (seg_pos _ Hok) as Hpos. pose proof (seg_end _ Hok) as Hend.
  pose proof (layout_size _ Hl) as Hsz. pose proof (layout_align_pos l Hl) as Halp.
  destruct (place_below_bounds l t (sbase g) Hl Ht8 (seg_align _ Hok) Hfit)
    as (Hr1 & Hr2 & Hr3 & Hr4 & Hr5).
  set (r := align_down (t - lsize l) (Z.max (lalign l) MINIMUM_ALIGN)) in *.
  assert (H16 : HEADER_SIZE = 16) by done. assert (H8 : BACK_POINTER_SIZE = 8) by done.
  unfold place_below. apply wpe_bind, wp_on_mem, (wp_sub _ (sbase g) (ssize g)); [done|lia|lia|].
  apply wpe_bind, wp_on_mem. unfold map_addr_unchecked, from_ptr_unchecked, addr. rewrite layout_mask by (done || lia).
  fold r. rewrite decide_False by lia.
  apply wpe_ret, wpe_bind, wp_on_mem, (wp_sub _ (sbase g) (ssize g)); [done|lia|lia|].
  apply wpe_bind, wpe_gets, wpe_bind, wp_on_mem, (wp_write _ (sbase g) (ssize g));
    cbn [amem lsize lalign link_layout]; [done|unfold cast; lia..|done| |].
  { apply Z.divide_sub_r; [done|by exists 1]. }
  apply wpe_bind, wpe_modify, wpe_ret. cbn [amem aself]. unfold cast. rewrite H8 in *.
  replace (r - 8 + 8) with r by lia. apply HQ; [|done]. by apply push_inv.
Qed.

(** [alloc_layout] once there is a head block. *)
Lemma wp_alloc_in s g segs l (Q : Z -> ast -> Prop) :
  alloc_inv s (g :: segs) -> layout_small l ->
  (forall r s',
     alloc_inv s' ({| sbase := sbase g; ssize := ssize g; sallocs := (r, l) :: sallocs g |} :: segs) ->
     Q r s') ->
  (limit (sbase g + ssize g) (sallocs g) - reserved l < sbase g + HEADER_SIZE ->
   forall r b sz s', 2 * ssize g <= sz ->
     alloc_inv s' ({| sbase := b; ssize := sz; sallocs := [(r, l)] |} :: g :: segs) -> Q r s') ->
  wpe (let! t := choose_top (sbase g) in
       let! alloc_size := expect (alloc_size l) "Type layour exceeded limits" in
       let remaining := saturating_sub (saturating_sub (addr t) alloc_size) (addr (sbase g)) in
       let! t := (if (remaining <? HEADER_SIZE)%Z then grow_alloc_new_top debug l else ret t) in
       place_below t l) s Q alloc_failure.
Proof.
  intros Hinv Hl HQ HQ'.
  pose proof (seg_pos _ (inv_seg _ _ g (inv_mem _ _ Hinv) ltac:(left))) as Hpos.
  pose proof (reserved_bounds l Hl) as Hres. unfold MINIMUM_ALIGN in Hres.
  apply wpe_bind, (wp_choose_top _ g segs); [done|]. unfold addr.
  apply wpe_bind. eapply wpe_expect_some; [by apply alloc_size_reserved, Hl|].
  apply wpe_bind. destruct (Z.ltb_spec (saturating_sub (saturating_sub
    (limit (sbase g + ssize g) (sallocs g)) (reserved l)) (sbase g)) HEADER_SIZE) as [Hlt|Hge].
  - apply (wp_grow_alloc_new_top _ g segs); [done..|]. intros g' s' He Hfit Hdbl Hinv'.
    pose proof (wp_place_below s' g' (g :: segs) l Q alloc_failure) as Hp.
    cbv zeta in Hp. rewrite He in Hp. cbn [limit] in Hp.
    apply Hp; [done|apply Hl|lia|]. intros r s'' Hi _. eapply HQ'; [|done..].
    unfold saturating_sub, HEADER_SIZE in *. lia.
  - apply wpe_ret, (wp_place_below _ g segs); [done|apply Hl| |].
    + unfold saturating_sub, HEADER_SIZE in *. lia.
    + intros r s'' Hi _. by apply HQ.
Qed.

(** [alloc_layout] pushes the new allocation. *)
Lemma wp_alloc_layout s segs l (Q : Z -> ast -> Prop) :
  alloc_inv s segs -> layout_small l ->
  (forall r s' segs', alloc_inv s' segs' -> pushed (r, l) segs segs' -> Q r s') ->
  wpe (alloc_layout debug l) s Q alloc_failure.
Proof.
  intros Hinv Hl HQ. unfold alloc_layout. apply wpe_bind, wpe_gets, wpe_bind.
  rewrite (inv_block _ _ Hinv). destruct segs as [|g segs]; cbn [head_base map head].
  - apply wp_grow_initial; [done..|]. intros g s' He Hfit Hinv'.
    apply (wp_alloc_in _ g []); [done..| |].
    + intros r s'' Hi. eapply HQ; [done|]. rewrite He. constructor.
    + rewrite He. cbn [limit]. lia.
  - apply wpe_ret. apply (wp_alloc_in s g segs); [done..| |].
    + intros r s' Hi. eapply HQ; [done|]. destruct g. constructor.
    + intros _ r b sz s' Hsz Hi. eapply HQ; [done|]. by constructor.
Qed.

Lemma wp_alloc_with s segs l (Q : Z -> ast -> Prop) :
  alloc_inv s segs -> layout_small l ->
  (forall r s' segs', alloc_inv s' segs' -> pushed (r, l) segs segs' -> Q r s') ->
  wpe (alloc_with debug l) s Q alloc_failure.
Proof.
  intros Hinv Hl HQ. apply wpe_bind, (wp_alloc_layout _ segs); [done..|].
  intros r s' segs' Hi Hp. apply wpe_bind, (wp_write_live _ segs' (r, l)); [done| |].
  - rewrite (pushed_live _ _ _ Hp). left.
  - intros s'' Hi' _. by eapply HQ.
Qed.
End operations.

(** ** Popping *)
Definition same_block (g g' : segment) : Prop := sbase g = sbase g' /\ ssize g = ssize g'.

Lemma same_block_disj segs segs' :
  Forall2 same_block segs segs' -> pairwise_disj segs -> pairwise_disj segs'.
Proof.
  induction 1 as [|g g' segs segs' [Hb Hs] Hr IH]; cbn; [done|]. intros [Hf Hp].
  split; [|by apply IH]. clear IH Hp. revert Hf.
  induction Hr as [|x x' r r' [Hxb Hxs] Hr IH]; intros Hf; [constructor|].
  apply Forall_cons_1 in Hf as [Hx Hf]. constructor; [|by apply IH].
  unfold seg_disj in *. by rewrite <- Hb, <- Hs, <- Hxb, <- Hxs.
Qed.

Lemma same_block_head segs segs' :
  Forall2 same_block segs segs' -> head_base segs = head_base segs'.
Proof. destruct 1 as [|g g' segs segs' [Hb _] _]; cbn; congruence. Qed.

Lemma same_block_headers m segs segs' :
  Forall2 same_block segs segs' -> headers_ok m segs -> headers_ok m segs'.
Proof.
  induction 1 as [|g g' segs segs' [Hb Hs] Hr IH]; cbn; [done|].
  rewrite <- Hb, <- Hs, <- (same_block_head _ _ Hr). intros [??]. split; auto.
Qed.

Lemma same_block_regions segs segs' b sz :
  Forall2 same_block segs segs' ->
  (exists g, g ∈ segs /\ sbase g = b /\ ssize g = sz) ->
  exists g, g ∈ segs' /\ sbase g = b /\ ssize g = sz.
Proof.
  intros Hr (g & Hg & <- & <-).
  induction Hr as [|x x' r r' [Hb Hs] Hr IH]; [by apply elem_of_nil in Hg|].
  apply elem_of_cons in Hg as [->|Hg].
  - exists x'. by split; [left|].
  - destruct (IH Hg) as (y & Hy & ?). exists y. by split; [right|].
Qed.

Lemma same_block_sym segs segs' : Forall2 same_block segs segs' -> Forall2 same_block segs' segs.
Proof. induction 1 as [|?? ?? []]; by constructor. Qed.

Lemma mem_inv_same_block m segs segs' :
  mem_inv m segs -> Forall2 same_block segs segs' -> Forall seg_ok segs' ->
  links_ok m (live segs') -> mem_inv m segs'.
Proof.
  intros [] Hsame Hok Hl. split; auto.
  - by eapply same_block_disj.
  - intros b sz. rewrite inv_regions. split; apply same_block_regions; auto using same_block_sym.
  - by eapply same_block_headers.
Qed.

(** The segments after the newest allocation is gone. *)
Fixpoint drop_first (segs : list segment) : list segment :=
  match segs with
  | [] => []
  | g :: rest =>
      match sallocs g with
      | _ :: al => {| sbase := sbase g; ssize := ssize g; sallocs := al |} :: rest
      | [] => g :: drop_first rest
      end
  end.

Lemma drop_first_same segs : Forall2 same_block segs (drop_first segs).
Proof.
  induction segs as [|g segs IH]; cbn; [constructor|].
  assert (Hrefl : forall l, Forall2 same_block l l) by (induction l; by constructor).
  by destruct (sallocs g); constructor.
Qed.

Lemma drop_first_live segs : live (drop_first segs) = tail (live segs).
Proof.
  induction segs as [|g segs IH]; unfold live in *; cbn; [done|].
  destruct (sallocs g) eqn:Hg; cbn; [by rewrite Hg|done].
Qed.

Lemma drop_first_ok segs : Forall seg_ok segs -> Forall seg_ok (drop_first segs).
Proof.
  induction 1 as [|g segs Hg Hr IH]; cbn; [constructor|].
  destruct (sallocs g) eqn:Hal; constructor; auto.
  apply (seg_ok_pop _ _ p). by destruct g; cbn in *; subst.
Qed.

Lemma mem_inv_drop_first m segs : mem_inv m segs -> mem_inv m (drop_first segs).
Proof.
  intros Hm. eapply mem_inv_same_block; [done|apply drop_first_same|apply drop_first_ok, Hm|].
  rewrite drop_first_live. pose proof (inv_links _ _ Hm) as Hl.
  destruct (live segs); cbn in *; tauto.
Qed.

(** Blocks left after a pop: when the newest allocation was not in the head
    block, the next block is freed if it holds nothing any more. *)
Definition pop_segs (segs : list segment) : list segment :=
  match segs with
  | [] => []
  | g :: rest =>
      match sallocs g, drop_first rest with
      | [], g1 :: rest' => if sallocs g1 is [] then g :: rest' else g :: g1 :: rest'
      | _, _ => drop_first segs
      end
  end.

Lemma pop_segs_live segs : live (pop_segs segs) = tail (live segs).
Proof.
  destruct segs as [|g rest]; [done|]. rewrite <- drop_first_live. unfold pop_segs, live.
  destruct (sallocs g) eqn:Hg; [|done]. cbn. rewrite Hg.
  destruct (drop_first rest) as [|g1 rest'] eqn:Hr; [done|].
  destruct (sallocs g1) eqn:Hg1; cbn; by rewrite Hg, ?Hg1.
Qed.

(** ** Freeing a block *)
Definition regions_ok (m : memory object) (segs : list segment) : Prop :=
  forall b sz, regions m !! b = Some sz <-> exists g, g ∈ segs /\ sbase g = b /\ ssize g = sz.

Definition block_freed (g : segment) (m : memory object) : memory object :=
  wipe (sbase g) (sbase g + ssize g)
    {| regions := delete (sbase g) (regions m); cells := cells m |}.

Lemma wp_dealloc_old_block s g p (Q : unit -> ast -> Prop) E :
  cells (amem s) !! sbase g =
    Some (HEADER_SIZE, Header {| previous := p; blast := sbase g + ssize g |}) ->
  seg_ok g -> regions (amem s) !! sbase g = Some (ssize g) ->
  Q tt {| amem := block_freed g (amem s); aself := aself s |} ->
  wpe (dealloc_old_block (sbase g)) s Q E.
Proof.
  intros Hc Hok Hr HQ. pose proof (seg_size_ge _ Hok) as Hge. unfold HEADER_SIZE in Hge.
  unfold dealloc_old_block. apply wpe_bind. eapply wp_read_header; [done|]. cbn [blast].
  apply wpe_bind, wp_on_mem. unfold wpe at 1, offset_from.
  rewrite (in_region_intro _ (sbase g) (ssize g)) by (done || lia).
  replace (sbase g + ssize g - sbase g) with (ssize g) by lia.
  destruct (seg_pow2 _ Hok) as (k & Hk & Hkg). pose proof (seg_small _ Hok).
  apply wpe_bind. eapply wpe_unwrap_some; [rewrite Hkg; apply block_layout_ok; lia|].
  apply wp_on_mem. cbn [amem aself lsize]. unfold wpe, os_dealloc.
  rewrite decide_True by congruence. by rewrite <- Hkg.
Qed.

Lemma regions_ok_freed m g segs :
  regions_ok m (g :: segs) -> Forall seg_ok (g :: segs) -> pairwise_disj (g :: segs) ->
  regions_ok (block_freed g m) segs.
Proof.
  intros Hr Hok [Hd _] b sz. cbn [block_freed wipe regions]. rewrite lookup_delete_Some, (Hr b sz).
  split.
  - intros [Hne (x & [->|Hx]%elem_of_cons & Hb & Hs)]; [done|eauto].
  - intros (x & Hx & <- & <-). split; [|exists x; by split; [right|]].
    rewrite Forall_forall in Hd, Hok. pose proof (Hd x Hx) as Hxd.
    pose proof (seg_size_ge _ (Hok x ltac:(by right))) as H1.
    pose proof (seg_size_ge _ (Hok g ltac:(by left))) as H2.
    unfold seg_disj, HEADER_SIZE in *. lia.
Qed.

Lemma freed_frame m g segs :
  Forall seg_ok segs -> Forall (seg_disj g) segs -> headers_ok m segs -> links_ok m (live segs) ->
  headers_ok (block_freed g m) segs /\ links_ok (block_freed g m) (live segs).
Proof.
  intros Hs Hd Hh Hl. apply clear_wipe.
  - apply (fresh_clear segs g); auto; lia.
  - by apply (headers_ok_agree m).
  - by apply (links_ok_agree m).
Qed.

(** Memory with the header of the head block relinked past an empty second
    block, which is then freed. *)
Definition relinked (m : memory object) (g : segment) (p : option Z) : memory object :=
  set_cell (sbase g) HEADER_SIZE (Header {| previous := p; blast := sbase g + ssize g |})
    (wipe (sbase g) (sbase g + HEADER_SIZE) m).

Lemma live_cons g segs : live (g :: segs) = sallocs g ++ live segs.
Proof. done. Qed.

Lemma mem_inv_free_second m g g1 rest :
  mem_inv m (g :: g1 :: rest) -> sallocs g = [] -> sallocs g1 = [] ->
  mem_inv (block_freed g1 (relinked m g (head_base rest))) (g :: rest).
Proof.
  intros Hm He He1. destruct (inv_disj _ _ Hm) as [Hd [Hd1 Hdr]].
  pose proof (inv_segs _ _ Hm) as [Hg Hs]%Forall_cons_1. pose proof (Forall_inv_tail Hs) as Hs'.
  pose proof (inv_links _ _ Hm) as Hl. rewrite !live_cons, He, He1 in Hl.
  destruct (inv_headers _ _ Hm) as [Hhg [Hhg1 Hhr]].
  assert (Hfree : Forall (seg_disj g1) (g :: rest)).
  { constructor; [|done]. apply Forall_cons_1 in Hd as [? _]. unfold seg_disj in *. lia. }
  destruct (write_header_frame m rest g
    (Header {| previous := head_base rest; blast := sbase g + ssize g |})) as [Hh' Hl'];
    [done..|by apply Forall_cons_1 in Hd as [_ ?]|done|done|].
  destruct (freed_frame (relinked m g (head_base rest)) g1 (g :: rest)) as [Hhf Hlf].
  - by constructor.
  - done.
  - split; [apply lookup_write_eq|done].
  - by rewrite live_cons, He.
  - split; [by constructor| | |done|done].
    + split; [by apply Forall_cons_1 in Hd as [_ ?]|done].
    + apply (regions_ok_freed _ g1 (g :: rest)).
      * intros b sz. cbn [relinked set_cell wipe regions]. rewrite (inv_regions _ _ Hm).
        split; intros (x & Hx & ?); exists x; (split; [|done]); rewrite !elem_of_cons in *; tauto.
      * constructor; [by apply Forall_cons_1 in Hs as [? _]|by constructor].
      * split; [done|]. split; [by apply Forall_cons_1 in Hd as [_ ?]|done].
Qed.

(** ** [pop_dealloc] *)

(** Whether the block below the head holds the allocation that is now on top. *)
Lemma wp_still_used s g g1 rest (Q : bool -> ast -> Prop) E :
  mem_inv (amem s) (g :: g1 :: rest) ->
  Q (if sallocs g1 is [] then true else false) s ->
  wpe (match head_link (live (g1 :: rest)) with
       | Some x => let! w := within_block (sbase g1) (addr x) in ret (negb w)
       | None => ret true
       end) s Q E.
Proof.
  intros Hm HQ. rewrite live_cons. destruct (sallocs g1) as [|a al] eqn:Hal; cbn [app].
  - destruct (live rest) as [|a al] eqn:Hl; [done|].
    assert (Ha : a ∈ live rest) by (rewrite Hl; left). apply live_elem in Ha as (x & Hx & Ha).
    apply wpe_bind, (wp_within_block _ (g :: g1 :: rest)); [done|right; left|]. unfold addr.
    rewrite (in_block_elem _ _ g1 x a Hm); [done|right; left|by right; right|done|].
    intros ->. rewrite Hal in Ha. by apply elem_of_nil in Ha.
  - apply wpe_bind, (wp_within_block _ (g :: g1 :: rest)); [done|right; left|]. unfold addr.
    rewrite in_block_same; [done|eapply inv_seg; [done|right; left]|rewrite Hal; left].
Qed.

(** The part of [pop_dealloc] after the top was not found in the head block. *)
Lemma wp_pop_old s g g1 rest (Q : unit -> ast -> Prop) E :
  mem_inv (amem s) (g :: g1 :: rest) -> sallocs g = [] ->
  (forall s', aself s' = aself s ->
     mem_inv (amem s') (if sallocs g1 is [] then g :: rest else g :: g1 :: rest) -> Q tt s') ->
  wpe (let! h := read_header (sbase g) in
       let! old_block := expect (previous h) "invalid deallocation" in
       let! free := match head_link (live (g1 :: rest)) with
                    | Some x => let! w := within_block old_block (addr x) in ret (negb w)
                    | None => ret true
                    end in
       if (free : bool) then
         let! oh := read_header old_block in
         do! write_header (sbase g) {| previous := previous oh; blast := blast h |} in
         dealloc_old_block old_block
       else ret tt) s Q E.
Proof.
  intros Hm He HQ. destruct (inv_headers _ _ Hm) as [Hh [Hh1 _]].
  apply wpe_bind. eapply wp_read_header; [exact Hh|]. cbn [previous blast].
  apply wpe_bind. eapply wpe_expect_some; [reflexivity|].
  apply wpe_bind, (wp_still_used _ g); [done|].
  destruct (sallocs g1) as [|a al] eqn:He1; [|by apply wpe_ret, HQ].
  apply wpe_bind. eapply wp_read_header; [exact Hh1|]. cbn [previous blast].
  pose proof (inv_seg _ _ g Hm ltac:(left)) as Hok. pose proof (seg_size_ge _ Hok).
  pose proof (inv_seg _ _ g1 Hm ltac:(right; left)) as Hok1.
  pose proof (inv_region _ _ g Hm ltac:(left)) as Hr.
  pose proof (inv_region _ _ g1 Hm ltac:(right; left)) as Hr1.
  apply wpe_bind, wp_on_mem, (wp_write _ (sbase g) (ssize g));
    [done|lia|cbn; lia|done|apply (seg_align _ Hok)|]. cbn [amem aself].
  fold (relinked (amem s) g (head_base rest)).
  assert (Hw : headers_ok (relinked (amem s) g (head_base rest)) (g1 :: rest)).
  { apply (write_header_frame _ (g1 :: rest)).
    - by eapply Forall_inv_tail, inv_segs.
    - done.
    - by destruct (inv_disj _ _ Hm).
    - split; [exact Hh1|]. by destruct (inv_headers _ _ Hm) as [_ [_ ?]].
    - pose proof (inv_links _ _ Hm) as Hl. by rewrite live_cons, He in Hl. }
  destruct Hw as [Hw1 _].
  eapply wp_dealloc_old_block; [exact Hw1|done|done|].
  apply HQ; [done|]. by apply mem_inv_free_second.
Qed.

Lemma wp_pop_dealloc s segs a al (Q : unit -> ast -> Prop) E :
  alloc_inv s segs -> live segs = a :: al ->
  (forall s', alloc_inv s' (pop_segs segs) -> Q tt s') ->
  wpe pop_dealloc s Q E.
Proof.
  intros [Hb Ht Hm] Hlive HQ. rewrite Hlive in Ht.
  pose proof (inv_links _ _ Hm) as Hl. rewrite Hlive in Hl. destruct Hl as [Hla _].
  pose proof (mem_inv_drop_first _ _ Hm) as Hmd.
  unfold pop_dealloc. apply wpe_bind, wpe_gets, wpe_bind.
  eapply wpe_expect_some; [exact Ht|]. apply wpe_bind, wpe_gets, wpe_bind.
  destruct segs as [|g rest]; [done|].
  eapply wpe_unwrap_some; [exact Hb|].
  apply wpe_bind. eapply wp_read_link; [exact Hla|].
  apply wpe_bind, wpe_modify, wpe_bind, (wp_within_block _ (g :: rest)); [done|left|]. unfold addr.
  unfold pop_segs in HQ. rewrite live_cons in Hlive. cbn [amem aself block].
  destruct (sallocs g) as [|a' al'] eqn:Hg.
  - cbn in Hlive. assert (Ha : a ∈ live rest) by (rewrite Hlive; left).
    apply live_elem in Ha as (x & Hx & Ha).
    rewrite (in_block_elem _ _ g x a Hm); [|left|by right|done|
      intros ->; rewrite Hg in Ha; by apply elem_of_nil in Ha].
    cbn [drop_first] in Hmd. rewrite Hg in Hmd.
    assert (Hhl : head_link al = head_link (live (drop_first rest))).
    { by rewrite drop_first_live, Hlive. }
    rewrite Hhl. destruct (drop_first rest) as [|g1 rest'] eqn:Hdf.
    + pose proof (drop_first_same rest) as Hsame. rewrite Hdf in Hsame.
      apply Forall2_nil_inv_r in Hsame as ->. by apply elem_of_nil in Hx.
    + apply (wp_pop_old _ g); [done..|]. intros s' Hs' Hm'. apply HQ. split.
      * rewrite Hs'. cbn. rewrite Hb. by destruct (sallocs g1).
      * rewrite Hs'. cbn [aself top_ptr]. f_equal.
        destruct (sallocs g1) eqn:Hg1; by rewrite !live_cons, Hg, ?Hg1.
      * done.
  - injection Hlive as -> Hal.
    assert (Hin : a ∈ sallocs g) by (rewrite Hg; left).
    rewrite (in_block_same g a); [|eapply (inv_seg _ _ _ Hm); left|done].
    apply wpe_ret, HQ. split; cbn [aself block top_ptr amem]; [| |done].
    + rewrite Hb. cbn. by rewrite Hg.
    + rewrite drop_first_live, live_cons, Hg. cbn. by rewrite Hal.
Qed.

(** ** [Drop] *)
Lemma wp_drop_blocks segs s fuel (Q : option unit -> ast -> Prop) E :
  Forall seg_ok segs -> pairwise_disj segs -> headers_ok (amem s) segs ->
  regions_ok (amem s) segs -> (length segs <= fuel)%nat ->
  (forall s', regions (amem s') = ∅ -> Q (Some tt) s') ->
  wpe (drop_blocks fuel (head_base segs)) s Q E.
Proof.
  intros Hs Hd Hh Hr Hf HQ. revert fuel s Hs Hd Hh Hr Hf.
  induction segs as [|g segs IH]; intros fuel s Hs Hd Hh Hr Hf; cbn [head_base map head].
  - assert (He : regions (amem s) = ∅).
    { apply map_empty. intros b. destruct (regions (amem s) !! b) as [sz|] eqn:Hb; [|done].
      apply Hr in Hb as (x & Hx & _). by apply elem_of_nil in Hx. }
    destruct fuel; by apply wpe_ret, HQ.
  - destruct fuel as [|fuel]; [cbn in Hf; lia|]. cbn [drop_blocks].
    destruct Hh as [Hhg Hh]. pose proof (Forall_cons_1 _ _ _ Hs) as [Hg Hs'].
    destruct Hd as [Hdg Hd].
    apply wpe_bind. eapply wp_read_header; [exact Hhg|]. cbn [previous].
    apply wpe_bind. eapply wp_dealloc_old_block; [exact Hhg|done| |].
    { apply Hr. exists g. by split; [left|]. }
    apply IH; cbn [amem aself]; [done|done| | |cbn in Hf; lia].
    + apply clear_headers_wipe; [by apply (headers_ok_agree (amem s))|].
      apply (fresh_clear segs g); auto; lia.
    + by apply regions_ok_freed.
Qed.
