(* ===== verification/AllocatorThms.v ===== *)
(** * What the stack allocator promises

    The theorems about [StackAllocator], stated on its operations and, for runs
    of any length, on the states reachable from a new allocator. *)

From Stdlib Require Import Sorted.
From S2P Require Import Prelude Ptr Allocator AllocatorInv AllocatorSpec.

(** ** Reachable states *)
Definition initial : ast := {| amem := mem_empty; aself := new |}.

Section reach.
Context `{!GlobalAlloc} (debug : bool).

Inductive reach : ast -> Prop :=
| reach_new : reach initial
| reach_alloc s l r s' :
    reach s -> layout_small l -> alloc_with debug l s = Ok (r, s') -> reach s'
| reach_pop s s' : reach s -> pop_dealloc s = Ok (tt, s') -> reach s'.
End reach.

Lemma initial_inv : alloc_inv initial [].
Proof.
  split; [done..|]. split; try done.
  intros b sz. cbn. rewrite lookup_empty. split; [done|].
  intros (g & Hg & _). by apply elem_of_nil in Hg.
Qed.

(** Each block is at least twice as large as every older one. *)
Definition doubling (segs : list segment) : Prop :=
  StronglySorted (fun a b => 2 * b <= a) (map ssize segs).

Lemma pushed_doubling a segs segs' :
  Forall seg_ok segs -> pushed a segs segs' -> doubling segs -> doubling segs'.
Proof.
  intros Hok Hp Hd. destruct Hp; [done|by repeat constructor|].
  constructor; [done|]. apply StronglySorted_inv in Hd as [Hd Hf]. constructor; [done|].
  assert (0 <= ssize g).
  { apply Forall_inv in Hok. pose proof (seg_size_ge _ Hok). unfold HEADER_SIZE in *. lia. }
  eapply Forall_impl; [exact Hf|]. cbn. lia.
Qed.

Lemma same_block_sizes segs segs' : Forall2 same_block segs segs' -> map ssize segs = map ssize segs'.
Proof. induction 1 as [|?? ?? [_ ?]]; cbn; congruence. Qed.

Lemma pop_segs_doubling segs : doubling segs -> doubling (pop_segs segs).
Proof.
  unfold doubling. intros Hd. destruct segs as [|g rest]; [done|]. unfold pop_segs.
  assert (Hall : StronglySorted (fun a b => 2 * b <= a) (map ssize (drop_first (g :: rest))))
    by by rewrite <- (same_block_sizes _ _ (drop_first_same _)).
  destruct (sallocs g); [|done]. pose proof (same_block_sizes _ _ (drop_first_same rest)) as Hsz.
  destruct (drop_first rest) as [|g1 rest'] eqn:Hdf; [done|].
  cbn in Hsz. assert (Hd' : StronglySorted (fun a b => 2 * b <= a) (map ssize (g :: g1 :: rest')))
    by (cbn in *; by rewrite <- Hsz).
  destruct (sallocs g1); [|done]. cbn in *.
  apply StronglySorted_inv in Hd' as [Hd' Hf]. apply StronglySorted_inv in Hd' as [Hd' _].
  constructor; [done|]. by apply Forall_cons_1 in Hf as [_ ?].
Qed.

Lemma doubling_bound l :
  StronglySorted (fun a b => 2 * b <= a) l -> Forall (fun z => 16 <= z) l ->
  match l with [] => True | z :: _ => 2 ^ (3 + Z.of_nat (length l)) <= z end.
Proof.
  induction 1 as [|z l Hs IH Hf]; [done|]. intros [Hz Hl]%Forall_cons_1.
  specialize (IH Hl). destruct l as [|z' l]; [done|].
  apply Forall_inv in Hf. cbn [length] in *.
  replace (3 + Z.of_nat (S (S (length l)))) with (Z.succ (3 + Z.of_nat (S (length l)))) by lia.
  rewrite Z.pow_succ_r by lia. lia.
Qed.

Section theorems.
Context `{!GlobalAlloc} (debug : bool).

(** The invariant of every reachable state. *)
Lemma reach_inv s : reach debug s -> exists segs, alloc_inv s segs /\ doubling segs.
Proof.
  induction 1 as [|s l r s' _ (segs & Hi & Hd) Hl Hrun|s s' _ (segs & Hi & Hd) Hrun].
  - exists []. split; [apply initial_inv|constructor].
  - assert (Hw : wpe (alloc_with debug l) s
      (fun _ s' => exists segs, alloc_inv s' segs /\ doubling segs) alloc_failure).
    { eapply wp_alloc_with; [done..|]. intros r' s'' segs' Hi' Hp. exists segs'. split; [done|].
      eapply pushed_doubling; [|done..]. apply (inv_segs _ _ (inv_mem _ _ Hi)). }
    unfold wpe in Hw. by rewrite Hrun in Hw.
  - destruct (live segs) as [|a al] eqn:Hlive.
    + unfold pop_dealloc, bind, gets in Hrun. rewrite (inv_top _ _ Hi), Hlive in Hrun. done.
    + assert (Hw : wp pop_dealloc s (fun _ s' => exists segs, alloc_inv s' segs /\ doubling segs)).
      { eapply wp_pop_dealloc; [done..|]. intros s'' Hi'.
        exists (pop_segs segs). by auto using pop_segs_doubling. }
      unfold wpe in Hw. by rewrite Hrun in Hw.
Qed.

Lemma doubling_length s segs : alloc_inv s segs -> doubling segs -> (length segs <= 59)%nat.
Proof.
  intros Hi Hd. pose proof (inv_segs _ _ (inv_mem _ _ Hi)) as Hs.
  pose proof (doubling_bound _ Hd) as Hb. destruct segs as [|g segs]; [cbn; lia|].
  cbn [map length] in Hb. rewrite length_map in Hb.
  assert (Hg : seg_ok g) by by apply Forall_inv in Hs.
  assert (2 ^ (3 + Z.of_nat (S (length segs))) < 2 ^ 63).
  { eapply Z.le_lt_trans; [apply Hb|apply seg_small in Hg; unfold isize_max, usize_bits in Hg; lia].
    change (ssize g :: map ssize segs) with (map ssize (g :: segs)).
    apply Forall_map. eapply Forall_impl; [exact Hs|]. intros x Hx. by apply seg_size_ge in Hx. }
  apply Z.pow_lt_mono_r_iff in H0; [cbn [length]; lia|lia|lia].
Qed.
End theorems.

(** [top] on a state of the invariant. *)
Lemma wp_top s segs : alloc_inv s segs -> top s = Ok (fst <$> head (live segs), s).
Proof.
  intros Hi. assert (Hw : wp top s (fun r s' => r = fst <$> head (live segs) /\ s' = s)).
  { unfold top. apply wpe_bind, wpe_gets. rewrite (inv_top _ _ Hi).
    destruct (live segs) as [|a al] eqn:Hl; cbn [head_link map head]; [done|].
    assert (Ha : a ∈ live segs) by (rewrite Hl; left). apply live_elem in Ha as (g & Hg & Ha).
    pose proof (inv_mem _ _ Hi) as Hm. pose proof (inv_seg _ _ _ Hm Hg) as Hok.
    destruct (stacked_elem _ _ _ _ (seg_stacked _ Hok) Ha) as (Hlo & Hhi & _ & _ & [Hs _ _]).
    unfold link_at, HEADER_SIZE, BACK_POINTER_SIZE in *.
    apply wpe_bind, wp_on_mem, (wp_add _ (sbase g) (ssize g)); [by eapply inv_region|lia|lia|].
    apply wpe_ret. cbn. split; [do 2 f_equal; lia|by destruct s]. }
  apply wp_ok in Hw as (r & s' & Hrun & -> & ->). done.
Qed.

(** Two live allocations, with their back pointers, are apart. *)
Lemma live_apart s segs i j a b :
  alloc_inv s segs -> live segs !! i = Some a -> live segs !! j = Some b -> i <> j ->
  a.1 + lsize a.2 <= link_at b \/ b.1 + lsize b.2 <= link_at a.
Proof.
  intros Hi. pose proof (inv_mem _ _ Hi) as [Hs Hd _ _ _]. clear Hi. revert i j.
  induction segs as [|g segs IH]; intros i j Ha Hb Hne; [done|].
  apply Forall_cons_1 in Hs as [Hg Hs]. destruct Hd as [Hdg Hd]. rewrite live_cons in Ha, Hb.
  assert (Hcross : forall x y, x ∈ sallocs g -> y ∈ live segs ->
    x.1 + lsize x.2 <= link_at y \/ y.1 + lsize y.2 <= link_at x).
  { intros x y Hx (g' & Hg' & Hy)%live_elem. rewrite Forall_forall in Hs, Hdg.
    destruct (seg_elem _ _ Hg Hx), (seg_elem _ _ (Hs _ Hg') Hy).
    unfold HEADER_SIZE in *. destruct (Hdg _ Hg'); lia. }
  apply lookup_app_Some in Ha as [Ha|[Hia Ha]], Hb as [Hb|[Hib Hb]].
  - by eapply stacked_apart; [apply (seg_stacked _ Hg)|..].
  - apply Hcross; by eapply list_elem_of_lookup_2.
  - apply or_comm, Hcross; by eapply list_elem_of_lookup_2.
  - eapply (IH Hs Hd); [exact Ha|exact Hb|lia].
Qed.

(** ** The theorems *)

(** [C17] Allocation refines a push: on every state of the invariant
    [alloc_with] either panics because the global allocator is exhausted or the
    next block would exceed [isize::MAX], or returns an address with the
    layout's alignment that becomes the newest live allocation, above the
    unchanged older ones; it never has undefined behaviour. *)
Theorem alloc_with_pushes `{!GlobalAlloc} debug s segs l :
  alloc_inv s segs -> layout_small l ->
  wpe (alloc_with debug l) s
    (fun r s' => exists segs', alloc_inv s' segs' /\ live segs' = (r, l) :: live segs /\ (lalign l | r))
    alloc_failure.
Proof.
  intros Hi Hl. eapply wp_alloc_with; [done..|]. intros r s' segs' Hi' Hp.
  exists segs'. pose proof (pushed_live _ _ _ Hp) as Hlive. split_and!; [done..|].
  assert (Hin : (r, l) ∈ live segs') by (rewrite Hlive; left). apply live_elem in Hin as (g & Hg & Ha).
  apply (stacked_elem _ _ _ _ (seg_stacked _ (inv_seg _ _ _ (inv_mem _ _ Hi') Hg)) Ha).
Qed.

(** A state with one block and one allocation, for the witnesses. *)
Definition layout8 : Layout := {| lsize := 24; lalign := 8 |}.
Definition one_block : ast :=
  match alloc_with (H := bump_global) true layout8 initial with Ok (_, s) => s | _ => initial end.

Lemma layout8_small : layout_small layout8.
Proof.
  split; [|done]. split; [done| |done]. exists 3. done.
Defined.

Lemma alloc_with_pushes_witness :
  alloc_inv initial [] /\ layout_small layout8 /\
  wpe (alloc_with true layout8) initial
    (fun r s' => exists segs', alloc_inv s' segs' /\ live segs' = [(r, layout8)] /\ (8 | r)) alloc_failure.
Proof.
  split_and!; [apply initial_inv|apply layout8_small|].
  apply (alloc_with_pushes true initial []); [apply initial_inv|apply layout8_small].
Defined.

Definition one_block_segs : list segment :=
  [{| sbase := 8; ssize := 64; sallocs := [(48, layout8)] |}].

Lemma one_block_inv : alloc_inv one_block one_block_segs.
Proof.
  split; [done..|]. split.
  - constructor; [|constructor]. split; try done; [by exists 6|].
    refine (conj _ (conj _ (conj _ (conj _ (conj _ I)))));
      [done|by exists 6|by exists 6|apply layout8_small|done].
  - by repeat constructor.
  - intros b sz. replace (regions (amem one_block)) with ({[8 := 64]} : gmap Z Z) by done.
    rewrite lookup_singleton_Some. split.
    + intros [<- <-]. eexists. split; [left|done].
    + intros (g & [->|Hg]%elem_of_cons & <- & <-); [done|by apply elem_of_nil in Hg].
  - by split.
  - by split.
Qed.

(** [C18] Deallocation refines a pop: while anything is live, [pop_dealloc]
    succeeds and removes exactly the newest allocation, whatever blocks the
    allocations are spread over, and frees a block only when nothing live is left
    in it (the invariant still holds). *)
Theorem pop_dealloc_pops s segs a al :
  alloc_inv s segs -> live segs = a :: al ->
  exists s' segs', pop_dealloc s = Ok (tt, s') /\ alloc_inv s' segs' /\ live segs' = al.
Proof.
  intros Hi Hl.
  assert (Hw : wp pop_dealloc s (fun _ s' => alloc_inv s' (pop_segs segs)))
    by by eapply wp_pop_dealloc.
  apply wp_ok in Hw as ([] & s' & Hrun & Hi'). exists s', (pop_segs segs).
  split_and!; [done..|]. by rewrite pop_segs_live, Hl.
Qed.

Lemma pop_dealloc_pops_witness :
  live one_block_segs = [(48, layout8)] /\
  exists s' segs', pop_dealloc one_block = Ok (tt, s') /\ alloc_inv s' segs' /\ live segs' = [].
Proof.
  split; [reflexivity|].
  apply (pop_dealloc_pops one_block one_block_segs (48, layout8)); [apply one_block_inv|reflexivity].
Defined.

(** [top] is the address of the newest live allocation. *)
Theorem top_is_newest s segs :
  alloc_inv s segs -> top s = Ok (fst <$> head (live segs), s).
Proof.
  apply wp_top.
Qed.

Lemma top_is_newest_witness : alloc_inv one_block one_block_segs /\ top one_block = Ok (Some 48, one_block).
Proof. split; [apply one_block_inv|]. apply (top_is_newest one_block one_block_segs). apply one_block_inv. Defined.

(** Live allocations never overlap: two different ones, each together with
    its back pointer, occupy disjoint bytes, and each lies inside one region of
    the global allocator, above the block header. *)
Theorem live_disjoint s segs i j a b :
  alloc_inv s segs -> live segs !! i = Some a -> live segs !! j = Some b -> i <> j ->
  (a.1 + lsize a.2 <= link_at b \/ b.1 + lsize b.2 <= link_at a) /\
  exists base sz, regions (amem s) !! base = Some sz /\
    base + HEADER_SIZE <= link_at a /\ a.1 + lsize a.2 <= base + sz.
Proof.
  intros Hi Ha Hb Hne. split; [by eapply live_apart|].
  apply list_elem_of_lookup_2, live_elem in Ha as (g & Hg & Ha). exists (sbase g), (ssize g).
  pose proof (inv_mem _ _ Hi) as Hm.
  split; [by eapply inv_region|]. by apply seg_elem; [eapply inv_seg|].
Qed.

Definition layout1 : Layout := {| lsize := 1; lalign := 1 |}.
Definition two_allocs : ast :=
  match alloc_with (H := bump_global) true layout1 one_block with Ok (_, s) => s | _ => initial end.
Definition two_allocs_segs : list segment :=
  [{| sbase := 8; ssize := 64; sallocs := [(32, layout1); (48, layout8)] |}].

Lemma layout1_small : layout_small layout1.
Proof. split; [|done]. split; [done| |done]. by exists 0. Defined.

Lemma two_allocs_inv : alloc_inv two_allocs two_allocs_segs.
Proof.
  assert (Hw : wpe (alloc_with true layout1) one_block
    (fun r s' => r = 32 -> alloc_inv s' two_allocs_segs) alloc_failure).
  { eapply wp_alloc_with; [apply one_block_inv|apply layout1_small|].
    intros r s' segs' Hi Hp Hr. subst r. inversion Hp; subst; [done|].
    exfalso. pose proof (inv_disj _ _ (inv_mem _ _ Hi)) as [Hd _].
    pose proof (inv_seg _ _ _ (inv_mem _ _ Hi) ltac:(left)) as Hok.
    pose proof (seg_elem _ (32, layout1) Hok ltac:(left)) as [Hlo Hhi].
    apply Forall_inv in Hd. unfold seg_disj, link_at, HEADER_SIZE, BACK_POINTER_SIZE in *. cbn in *. lia. }
  assert (Hrun : alloc_with true layout1 one_block = Ok (32, two_allocs)) by by vm_compute.
  unfold wpe in Hw. rewrite Hrun in Hw. by apply Hw.
Qed.

Lemma live_disjoint_witness :
  alloc_inv two_allocs two_allocs_segs /\
  (32 + 1 <= 40 \/ 48 + 24 <= 24) /\
  exists base sz, regions (amem two_allocs) !! base = Some sz /\ base + 16 <= 24 /\ 33 <= base + sz.
Proof.
  split; [apply two_allocs_inv|].
  apply (live_disjoint two_allocs two_allocs_segs 0 1 (32, layout1) (48, layout8));
    [apply two_allocs_inv|reflexivity|reflexivity|lia].
Defined.

(** A client may store anything in a live allocation: the bytes are
    accessible at its layout, and the store disturbs neither the allocator's
    headers and back pointers nor the record of what is live. *)
Theorem client_store_safe s segs a :
  alloc_inv s segs -> a ∈ live segs ->
  exists s', on_mem (write_opaque a.1 a.2) s = Ok (tt, s') /\ alloc_inv s' segs.
Proof.
  intros Hi Ha.
  assert (Hw : wp (on_mem (write_opaque a.1 a.2)) s (fun _ s' => alloc_inv s' segs)).
  { by eapply wp_write_live. }
  apply wp_ok in Hw as ([] & s' & ? & ?). eauto.
Qed.

Lemma client_store_safe_witness :
  (48, layout8) ∈ live two_allocs_segs /\
  exists s', on_mem (write_opaque 48 layout8) two_allocs = Ok (tt, s') /\ alloc_inv s' two_allocs_segs.
Proof.
  split; [apply elem_of_cons; right; left|].
  apply (client_store_safe two_allocs two_allocs_segs (48, layout8));
    [apply two_allocs_inv|apply elem_of_cons; right; left].
Defined.

(** [C37] Dropping an allocator reached by any run of allocations and pops gives
    every block back to the global allocator, each exactly once and with the
    layout it was allocated with, and the loop over the chain ends within 59
    rounds, because each new block is at least twice the size of the last. *)
Theorem drop_frees_all `{!GlobalAlloc} debug s :
  reach debug s -> exists s', drop 59 s = Ok (Some tt, s') /\ regions (amem s') = ∅.
Proof.
  intros (segs & Hi & Hd)%reach_inv.
  assert (Hw : wp (drop 59) s (fun r s' => r = Some tt /\ regions (amem s') = ∅)).
  { unfold drop. apply wpe_bind, wpe_gets. rewrite (inv_block _ _ Hi).
    destruct (inv_mem _ _ Hi). eapply wp_drop_blocks; eauto using doubling_length. }
  apply wp_ok in Hw as (r & s' & Hrun & -> & He). eauto.
Qed.

Lemma drop_frees_all_witness :
  reach true two_allocs /\
  exists s', drop 59 two_allocs = Ok (Some tt, s') /\ regions (amem s') = ∅.
Proof.
  assert (Hr : reach true two_allocs).
  { apply (reach_alloc true one_block layout1 32); [|apply layout1_small|vm_compute; reflexivity].
    apply (reach_alloc true initial layout8 48); [constructor|apply layout8_small|vm_compute; reflexivity]. }
  split; [exact Hr|]. by apply (drop_frees_all true).
Defined.

(** The range test of [within_block], although it includes the end of the
    block, identifies the block of a back pointer: it holds of the link of a live
    allocation exactly for the block the allocation was made in, even when
    another block begins where this one ends. *)
Theorem within_block_exact s segs g g' a :
  alloc_inv s segs -> g ∈ segs -> g' ∈ segs -> a ∈ sallocs g' ->
  within_block (sbase g) (link_at a) s = Ok (bool_decide (g = g'), s).
Proof.
  intros Hi Hg Hg' Ha. pose proof (inv_mem _ _ Hi) as Hm.
  assert (Hw : wp (within_block (sbase g) (link_at a)) s
    (fun r s' => r = bool_decide (g = g') /\ s' = s)).
  { eapply wp_within_block; [done..|]. split; [|done]. case_bool_decide as Hgg.
    - subst. apply in_block_same; [by eapply inv_seg|done].
    - by eapply in_block_elem. }
  apply wp_ok in Hw as (r & s' & Hrun & -> & ->). done.
Qed.

Lemma within_block_exact_witness : within_block 8 24 two_allocs = Ok (true, two_allocs).
Proof.
  set (g := {| sbase := 8; ssize := 64; sallocs := [(32, layout1); (48, layout8)] |}).
  apply (within_block_exact two_allocs two_allocs_segs g g (32, layout1));
    [apply two_allocs_inv|left|left|left].
Defined.

(** ** Memory kept after the last deallocation *)

(** No block but the head is empty. *)
Definition compact (segs : list segment) : Prop := Forall (fun g => sallocs g <> []) (tail segs).

(** Popping gives memory back: from a state in which only the head block may
    be empty, every pop leads to such a state, and once nothing is live at most
    one block is left. *)
Theorem pop_compact s segs a al :
  alloc_inv s segs -> compact segs -> live segs = a :: al ->
  exists s' segs', pop_dealloc s = Ok (tt, s') /\ alloc_inv s' segs' /\ live segs' = al /\
    compact segs' /\ (al = [] -> (length segs' <= 1)%nat).
Proof.
  intros Hi Hc Hl.
  assert (Hw : wp pop_dealloc s (fun _ s' => alloc_inv s' (pop_segs segs)))
    by by eapply wp_pop_dealloc.
  apply wp_ok in Hw as ([] & s' & Hrun & Hi'). exists s', (pop_segs segs).
  assert (Hl' : live (pop_segs segs) = al) by by rewrite pop_segs_live, Hl.
  assert (Hc' : compact (pop_segs segs)).
  { destruct segs as [|g rest]; [done|]. unfold compact, pop_segs in *. cbn [tail] in Hc.
    rewrite live_cons in Hl. destruct (sallocs g) as [|x xs] eqn:Hg; [|by cbn; rewrite Hg].
    destruct rest as [|g1 rest]; [by cbn; rewrite Hg|]. apply Forall_cons_1 in Hc as [H1 Hc].
    cbn [drop_first]. destruct (sallocs g1) as [|y ys] eqn:Hg1; [done|]. cbn [sallocs].
    destruct ys; [done|]. by constructor. }
  split_and!; [done..|]. intros ->. destruct (pop_segs segs) as [|g [|g1 rest]]; cbn; [lia..|].
  unfold compact in Hc'. cbn in Hc'. apply Forall_inv in Hc'. rewrite !live_cons in Hl'.
  apply app_eq_nil in Hl' as [_ Hl']. by apply app_eq_nil in Hl' as [? _].
Qed.

Lemma pop_compact_witness :
  compact one_block_segs /\
  exists s' segs', pop_dealloc one_block = Ok (tt, s') /\ alloc_inv s' segs' /\ live segs' = [] /\
    compact segs' /\ (@nil allocation = [] -> (length segs' <= 1)%nat).
Proof.
  split; [constructor|].
  apply (pop_compact one_block one_block_segs (48, layout8));
    [apply one_block_inv|constructor|reflexivity].
Defined.

Definition layout_n (n : Z) : Layout := {| lsize := n; lalign := 8 |}.

(** Push a small value, a larger one that needs a second block, pop it, push one
    that needs a third block, and pop everything. *)
Definition stranding_run : M ast unit :=
  let alloc n := alloc_with (H := bump_global) true (layout_n n) in
  let! _ := alloc 24 in let! _ := alloc 100 in do! pop_dealloc in
  let! _ := alloc 1000 in do! pop_dealloc in pop_dealloc.

(** Without that premise two blocks can stay allocated when nothing is live:
    the documentation says that only the most recent block is kept. *)
Theorem stranded_block :
  exists s, stranding_run initial = Ok (tt, s) /\ top_ptr (aself s) = None /\
    size (regions (amem s)) = 2%nat.
Proof. eexists. split; [vm_compute; reflexivity|]. by split. Qed.

(** ** Errors *)

(** Popping an allocator with nothing live panics, in any state. *)
Theorem pop_empty_panics s : top_ptr (aself s) = None -> pop_dealloc s = Panic "invalid deallocation".
Proof. intros Ht. unfold pop_dealloc, bind, gets. by rewrite Ht. Qed.

(** ** Large layouts *)

(** The bytes the allocator computes the size of its next block from. *)
Definition next_block (segs : list segment) (l : Layout) : Z :=
  match segs with [] => reserved l + HEADER_SIZE | g :: _ => ssize g + reserved l end.

Definition size_overflow : string := "attempt to add with overflow".

Section large.
Context `{!GlobalAlloc} (debug : bool).

Lemma reserved_le l : layout_ok l -> 0 < reserved l <= 2 ^ 63 + 7.
Proof.
  intros Hl. pose proof (layout_align_pos l Hl). destruct Hl as [Hs _ Hf].
  unfold reserved, MINIMUM_ALIGN, isize_max, usize_bits in *. lia.
Qed.

Lemma seg_size_le g : seg_ok g -> ssize g <= 2 ^ 62.
Proof.
  intros [_ _ (k & Hk & ->) Hs _ _]. unfold isize_max, usize_bits in Hs.
  apply Z.pow_le_mono_r; [lia|]. apply Z.lt_succ_r, (Z.pow_lt_mono_r_iff 2); lia.
Qed.

(** Rounding up sizes in the two ranges. *)
Lemma next_power_large n s : 2 ^ 62 < n <= 2 ^ 63 -> next_power_of_two debug n s = Ok (2 ^ 63, s).
Proof.
  intros Hn. assert (Hp : pow2_ceil n = 2 ^ 63).
  { unfold pow2_ceil. do 2 f_equal. apply Z.log2_up_unique; lia. }
  unfold next_power_of_two. by rewrite Hp.
Qed.

Lemma next_power_overflow n s :
  2 ^ 63 < n <= usize_max ->
  next_power_of_two debug n s = if debug then Panic size_overflow else Ok (0, s).
Proof.
  unfold usize_max, usize_bits. intros Hn. assert (Hp : pow2_ceil n = 2 ^ 64).
  { unfold pow2_ceil. do 2 f_equal. apply Z.log2_up_unique; lia. }
  unfold next_power_of_two. rewrite Hp. by destruct debug.
Qed.

(** Blocks of these sizes. *)
Lemma new_block_large s : alloc_new_block debug (2 ^ 63) s = Panic "Exceeded maximum allocation size".
Proof. unfold alloc_new_block. by destruct debug. Qed.

Lemma new_block_zero s : alloc_new_block false 0 s = UB.
Proof. done. Qed.

(** A layout larger than the head block has to grow. *)
Lemma alloc_layout_grows s g segs l :
  alloc_inv s (g :: segs) -> layout_ok l -> ssize g < reserved l ->
  alloc_layout debug l s = (let! t := grow_alloc_new_top debug l in place_below t l) s.
Proof.
  intros Hi Hl Hg. pose proof (inv_seg _ _ g (inv_mem _ _ Hi) ltac:(left)) as Hok.
  assert (Hc : exists t, choose_top (sbase g) s = Ok (t, s) /\ t <= sbase g + ssize g).
  { assert (Hw : wp (choose_top (sbase g)) s (fun t s' => s' = s /\ t <= sbase g + ssize g)).
    { eapply wp_choose_top; [exact Hi|]. split; [done|]. by eapply stacked_limit_le, seg_stacked. }
    apply wp_ok in Hw as (t & s' & Hrun & -> & Ht). by exists t. }
  destruct Hc as (t & Hc & Ht). unfold alloc_layout, bind at 1, gets. rewrite (inv_block _ _ Hi). cbn [head_base map head].
  unfold bind at 1, ret at 1. unfold bind at 1. rewrite Hc. unfold bind at 1, expect.
  rewrite (alloc_size_reserved l Hl). unfold ret at 1, addr. unfold bind at 1.
  pose proof (seg_pos _ Hok). rewrite (proj2 (Z.ltb_lt _ _)); [done|]. unfold saturating_sub, HEADER_SIZE. lia.
Qed.

(** The size of the next block. *)
Lemma grow_computes s g segs l :
  alloc_inv s (g :: segs) -> layout_ok l ->
  exists s1, grow_alloc_new_top debug l s =
    (let! size := next_power_of_two debug (ssize g + reserved l) in
     let! b := alloc_new_block debug size in
     let! h := read_header b in
     do! write_header b {| previous := Some (sbase g); blast := blast h |} in
     do! set_block (Some b) in
     let! h := read_header b in
     ret (blast h)) s1.
Proof.
  intros Hi Hl. pose proof (inv_mem _ _ Hi) as Hm. pose proof (inv_seg _ _ g Hm ltac:(left)) as Hok.
  pose proof (seg_size_le _ Hok). pose proof (reserved_le l Hl).
  unfold grow_alloc_new_top, bind at 1, unwrap, expect. rewrite (alloc_size_reserved l Hl). unfold ret at 1.
  unfold bind at 1, gets. unfold bind at 1, set_block, modify. set (s1 := {| amem := amem s; aself := _ |}).
  exists s1. unfold bind at 1. rewrite (inv_block _ _ Hi). cbn [head_base map head]. unfold ret at 1.
  assert (Hb : block_size (sbase g) s1 = Ok (ssize g, s1)).
  { assert (Hw : wp (block_size (sbase g)) s1 (fun n s' => n = ssize g /\ s' = s1)).
    { apply (wp_block_size _ (g :: segs)); [exact Hm|left|done]. }
    by apply wp_ok in Hw as (n & s' & Hrun & -> & ->). }
  unfold bind at 1. rewrite Hb. unfold bind at 1, checked_add, usize_max, usize_bits.
  destruct (Z.leb_spec (ssize g + reserved l) (2 ^ 64 - 1)); [done|lia].
Qed.
End large.

(** [C40] What becomes of a layout that is too large, in any state and for any layout
    that Rust accepts.  If it does not fit in the head block and the next block
    would be of more than [2 ^ 62] bytes before rounding, allocation panics with the
    message of [alloc_new_block].  Above [2 ^ 63] bytes the rounding
    overflows: a build with overflow checks panics; without them the size wraps to
    zero, which [grow_initial] catches with its assertion and
    [grow_alloc_new_top], which has none, does not: the request of zero bytes to
    the global allocator is undefined. *)
Theorem large_layouts `{!GlobalAlloc} debug s segs l :
  alloc_inv s segs -> layout_ok l ->
  (2 ^ 62 < next_block segs l <= 2 ^ 63 -> (forall g, head segs = Some g -> ssize g < reserved l) ->
     alloc_layout debug l s = Panic "Exceeded maximum allocation size") /\
  (2 ^ 63 < next_block segs l ->
     alloc_layout debug l s =
       if debug then Panic size_overflow
       else match segs with [] => Panic "assertion `left != right` failed" | _ :: _ => UB end).
Proof.
  intros Hi Hl. pose proof (reserved_le l Hl) as Hr. destruct segs as [|g segs]; cbn [next_block].
  - assert (Hg : alloc_layout debug l s = (let! b := grow_initial debug l in
      let! t := choose_top b in let! asz := expect (alloc_size l) "Type layour exceeded limits" in
      let remaining := saturating_sub (saturating_sub (addr t) asz) (addr b) in
      let! t := (if (remaining <? HEADER_SIZE)%Z then grow_alloc_new_top debug l else ret t) in place_below t l) s).
    { unfold alloc_layout, bind at 1, gets. by rewrite (inv_block _ _ Hi). }
    assert (Hi0 : grow_initial debug l s = (let! size := next_power_of_two debug (reserved l + HEADER_SIZE) in
      do! assert (negb (size =? 0)%Z) "assertion `left != right` failed" in
      let! b := alloc_new_block debug size in do! set_block (Some b) in ret b) s).
    { unfold grow_initial, bind at 1, unwrap, expect. rewrite (alloc_size_reserved l Hl). unfold ret at 1.
      unfold bind at 1, usize_add, usize_max, usize_bits, HEADER_SIZE.
      destruct (Z.leb_spec (reserved l + 16) (2 ^ 64 - 1)); [done|lia]. }
    rewrite Hg. unfold HEADER_SIZE in *. split; intros Hn.
    + intros _. apply bind_panic. rewrite Hi0. rewrite (bind_ok _ _ _ _ _ (next_power_large debug _ s Hn)).
      erewrite bind_ok by reflexivity. by apply bind_panic, new_block_large.
    + assert (Ho : next_power_of_two debug (reserved l + 16) s = if debug then Panic size_overflow else Ok (0, s)).
      { apply next_power_overflow. unfold usize_max, usize_bits. lia. }
      destruct debug; apply bind_panic; rewrite Hi0; [by apply bind_panic|]. rewrite (bind_ok _ _ _ _ _ Ho). reflexivity.
  - pose proof (seg_size_le _ (inv_seg _ _ g (inv_mem _ _ Hi) ltac:(left))) as Hs.
    destruct (grow_computes debug s g segs l Hi Hl) as [s1 Hgrow]. split.
    + intros Hn Hg. rewrite (alloc_layout_grows debug s g segs l Hi Hl (Hg _ eq_refl)).
      apply bind_panic. rewrite Hgrow. rewrite (bind_ok _ _ _ _ _ (next_power_large debug _ s1 Hn)).
      by apply bind_panic, new_block_large.
    + intros Hn. rewrite (alloc_layout_grows debug s g segs l Hi Hl) by lia.
      assert (Ho : next_power_of_two debug (ssize g + reserved l) s1 = if debug then Panic size_overflow else Ok (0, s1)).
      { apply next_power_overflow. unfold usize_max, usize_bits. lia. }
      destruct debug; [apply bind_panic|apply bind_ub]; rewrite Hgrow; [by apply bind_panic|].
      rewrite (bind_ok _ _ _ _ _ Ho). reflexivity.
Qed.

Lemma layout_n_ok n : 0 <= n <= 2 ^ 63 - 8 -> layout_ok (layout_n n).
Proof.
  intros Hn. split; cbn; [lia|by exists 3|]. unfold isize_max, usize_bits. lia.
Qed.

Lemma large_layouts_witness :
  alloc_layout (H := bump_global) true (layout_n (2 ^ 62)) one_block = Panic "Exceeded maximum allocation size" /\
  alloc_layout (H := bump_global) true (layout_n (2 ^ 63 - 16)) one_block = Panic size_overflow /\
  alloc_layout (H := bump_global) false (layout_n (2 ^ 63 - 16)) one_block = UB /\
  alloc_layout (H := bump_global) false (layout_n (2 ^ 63 - 16)) initial = Panic "assertion `left != right` failed".
Proof.
  split_and!.
  - apply (large_layouts true one_block one_block_segs); [apply one_block_inv|by apply layout_n_ok|done|].
    by intros g [= <-].
  - apply (large_layouts true one_block one_block_segs); [apply one_block_inv|by apply layout_n_ok|done].
  - apply (large_layouts false one_block one_block_segs); [apply one_block_inv|by apply layout_n_ok|done].
  - apply (large_layouts false initial []); [apply initial_inv|by apply layout_n_ok|done].
Defined.
