(* ===== verification/StackAlloc.v ===== *)
(** * The interface of the stack allocator

    What the stack runtime relies on: allocations form a stack.  The runtime is
    written and proved against the class; [stack_allocator] discharges it for
    the allocator of src/allocator.rs, and [ideal] for one that never fails. *)

From S2P Require Import Prelude Ptr Allocator AllocatorInv AllocatorSpec AllocatorThms.

Class StackAlloc (A : Type) := {
  sa_new : A;
  (** [alloc_with], [top] and [pop_dealloc]. *)
  sa_push : Layout -> M A Z;
  sa_top : M A (option Z);
  sa_pop : M A unit;
  (** The live allocations, newest first. *)
  sa_live : A -> list (Z * Layout) -> Prop;
  (** The layouts it accepts, and the panics an allocation may end in. *)
  sa_layout : Layout -> Prop;
  sa_fail : string -> Prop;
  sa_new_live : sa_live sa_new [];
  sa_push_ok s L l :
    sa_live s L -> sa_layout l ->
    wpe (sa_push l) s (fun a s' => (a ∉ map fst L) /\ sa_live s' ((a, l) :: L)) sa_fail;
  sa_top_ok s L : sa_live s L -> sa_top s = Ok ((fst <$> head L), s);
  sa_pop_ok s a L : sa_live s (a :: L) -> wpe sa_pop s (fun _ s' => sa_live s' L) no_panic;
}.

(** The allocator of the source. *)
Definition stack_live (s : ast) (L : list (Z * Layout)) : Prop :=
  exists segs, alloc_inv s segs /\ live segs = L.

Lemma stack_live_fresh s segs a L :
  alloc_inv s segs -> live segs = a :: L -> a.1 ∉ map fst L.
Proof.
  intros Hi Hl (b & Hb & Hin)%list_elem_of_fmap. apply list_elem_of_lookup in Hin as [j Hj].
  assert (Hd : a.1 + lsize a.2 <= link_at b \/ b.1 + lsize b.2 <= link_at a).
  { eapply (live_apart s segs 0 (S j)); [done|by rewrite Hl|by rewrite Hl|lia]. }
  assert (Hok : forall c, c ∈ live segs -> layout_ok c.2).
  { intros c (g & Hg & Hc)%live_elem.
    apply (stacked_elem _ _ _ _ (seg_stacked _ (inv_seg _ _ _ (inv_mem _ _ Hi) Hg)) Hc). }
  assert (Ha : 0 <= lsize a.2) by (apply Hok; rewrite Hl; left).
  assert (Hb' : 0 <= lsize b.2) by (apply Hok; rewrite Hl; right; by eapply list_elem_of_lookup_2).
  unfold link_at, BACK_POINTER_SIZE in Hd. lia.
Qed.

#[export] Instance stack_allocator `{!GlobalAlloc} (debug : bool) : StackAlloc ast.
Proof.
  refine {| sa_new := initial; sa_push := alloc_with debug; sa_top := top; sa_pop := pop_dealloc;
            sa_live := stack_live; sa_layout := layout_small; sa_fail := alloc_failure |}.
  - exists []. by split; [apply initial_inv|].
  - intros s L l (segs & Hi & <-) Hl. eapply wp_alloc_with; [done..|].
    intros r s' segs' Hi' Hp. pose proof (pushed_live _ _ _ Hp) as Hlive. split.
    + by apply (stack_live_fresh s' segs' (r, l)).
    + by exists segs'.
  - intros s L (segs & Hi & <-). by apply wp_top.
  - intros s a L (segs & Hi & Hl). eapply wp_pop_dealloc; [done..|]. intros s' Hi'.
    exists (pop_segs segs). split; [done|]. by rewrite pop_segs_live, Hl.
Defined.

(** An allocator that never fails: addresses count up. *)
Abbreviation ideal_state := (Z * list (Z * Layout))%type.
Definition ideal_push (l : Layout) : M ideal_state Z :=
  fun s => Ok (s.1 + 1, (s.1 + 1, (s.1 + 1, l) :: s.2)).
Definition ideal_top : M ideal_state (option Z) := gets (fun s => fst <$> head s.2).
Definition ideal_live (s : ideal_state) (L : list (Z * Layout)) : Prop :=
  s.2 = L /\ Forall (fun a => a.1 <= s.1) L.
Definition ideal_pop : M ideal_state unit :=
  fun s => match s.2 with _ :: L => Ok (tt, (s.1, L)) | [] => Panic "invalid deallocation" end.

#[export] Instance ideal : StackAlloc ideal_state.
Proof.
  refine {| sa_new := (0, []); sa_push := ideal_push; sa_top := ideal_top;
            sa_pop := ideal_pop; sa_fail := no_panic; sa_layout := fun _ => True;
            sa_live := ideal_live |}.
  - by split.
  - intros [n L'] L l [<- Hf] _. unfold wpe, ideal_push, ideal_live. cbn in *. split_and!; [|done|].
    + intros (b & Hb & Hin)%list_elem_of_fmap. rewrite Forall_forall in Hf.
      specialize (Hf _ Hin). lia.
    + constructor; [cbn; lia|]. eapply Forall_impl; [exact Hf|]. cbn. lia.
  - intros [n L'] L [<- _]. done.
  - intros [n L'] a L [Heq Hf]. cbn in Heq. subst L'. unfold wpe, ideal_pop, ideal_live. cbn in *. split; [done|]. by apply Forall_cons_1 in Hf as [_ ?].
Defined.
