(* ===== verification/Stack.v ===== *)
(** * The stack runtime (src/stack/mod.rs, src/stack/future.rs, src/stack/stk.rs)

    The futures a user writes are [code]: the sequence of things a [poll] of the
    future does until it returns.  A task on the stack is a suspended [code] with
    the futures it owns; the operations below are the methods of [Stack],
    [StkFuture] and [YieldFuture], on the state of one stack. *)

From S2P Require Import Prelude Ptr Defer StackAlloc.

(** [enum StackState]. *)
Inductive StackState := Base | Yield | Cancelled | NewTask.

#[export] Instance StackState_eq_dec : EqDecision StackState.
Proof. solve_decision. Defined.

(** A [Waker]: the stub of src/stub_waker.rs, or one of an outside executor. *)
Inductive Waker := Stub | Outside (n : nat).

(** [Context]: the address it lives at, and its waker. *)
Record Context := { cx_addr : Z; cx_waker : Waker }.

Section stack.
(** Values futures return; the unit value is what a [YieldFuture] gives. *)
Context {V : Type} (unit_value : V).

(** ** User futures

    Futures a future owns are numbered in the order it creates them.  The
    closure of a call is the future it gives. *)
Inductive code : Type :=
| Ret (v : V)                                  (* [Poll::Ready(v)] *)
| Suspend (k : code)                           (* [Poll::Pending]; resumed at [k] *)
| Run (f : code) (k : nat -> code)             (* [stk.run(|stk| f)], not polled yet *)
| YieldNow (k : nat -> code)                   (* [stk.yield_now()], not polled yet *)
| Poll (h : nat) (c : option Context) (k : poll V -> code)
                                               (* [h.poll(cx)], or with another context *)
| Await (h : nat) (k : V -> code)              (* the polling loop of [h.await] *)
| Drop (h : nat) (k : code)                    (* [drop(h)] *)
| PollOutside (e : nat) (k : poll V -> code)   (* poll of a future of another runtime *)
| AwaitOutside (e : nat) (k : V -> code)
| Throw (m : string)                           (* [panic!(m)] *)
| NoFuture (m : string).                       (* under [Run], or entered: a closure that
                                                  panics instead of giving a future *)

(** [enum StkFutureState]; the [Cell] of a running future is named by a
    number, its content is in [results]. *)
Inductive StkFutureState := Initial (f : code) | Running (r : nat) | Done.

Inductive handle := HStk (s : StkFutureState) | HYield (polled : bool).

(** Where a finished task puts its result: the place of the root future, or
    the [Cell] of the future it runs for. *)
Inductive dest := ToPlace (p : Z) | ToCell (r : nat).

(** A [TaskBox]: the wrapper future [async move { dest.set(Some(f.await)); wake }].
    [body] is [None] once the wrapper has returned. *)
Record task := {
  body : option code;
  handles : list (option handle);
  place : dest;
  notify : option Waker;
}.

(** Contents of an allocation: a task, the place of the final result
    ([ResultPlace]), or a task that is being polled or dropped. *)
Inductive content := CTask (t : task) | CPlace (r : option V) | CBusy.

Context {A : Type} `{!StackAlloc A}.

(** The fields of [Stack], the memory of its allocations and of the running
    futures, the thread local [STACK_PTR] (set to this stack or not), the
    wakers called so far, and the outside events that have happened. *)
Record world := {
  allocator : A;
  heap : gmap Z content;
  len : Z;
  state : StackState;
  async_context : Z;
  results : gmap nat (option V);
  next_result : nat;
  stack_ptr : bool;
  woken : list nat;
  events : gmap nat V;
}.

Definition set_allocator a (w : world) : world :=
  {| allocator := a; heap := heap w; len := len w; state := state w;
     async_context := async_context w; results := results w; next_result := next_result w;
     stack_ptr := stack_ptr w; woken := woken w; events := events w |}.
Definition set_heap h (w : world) : world :=
  {| allocator := allocator w; heap := h; len := len w; state := state w;
     async_context := async_context w; results := results w; next_result := next_result w;
     stack_ptr := stack_ptr w; woken := woken w; events := events w |}.
Definition set_len n (w : world) : world :=
  {| allocator := allocator w; heap := heap w; len := n; state := state w;
     async_context := async_context w; results := results w; next_result := next_result w;
     stack_ptr := stack_ptr w; woken := woken w; events := events w |}.
Definition set_state s (w : world) : world :=
  {| allocator := allocator w; heap := heap w; len := len w; state := s;
     async_context := async_context w; results := results w; next_result := next_result w;
     stack_ptr := stack_ptr w; woken := woken w; events := events w |}.
Definition set_async_context c (w : world) : world :=
  {| allocator := allocator w; heap := heap w; len := len w; state := state w;
     async_context := c; results := results w; next_result := next_result w;
     stack_ptr := stack_ptr w; woken := woken w; events := events w |}.
Definition set_results r n (w : world) : world :=
  {| allocator := allocator w; heap := heap w; len := len w; state := state w;
     async_context := async_context w; results := r; next_result := n;
     stack_ptr := stack_ptr w; woken := woken w; events := events w |}.
Definition set_stack_ptr p (w : world) : world :=
  {| allocator := allocator w; heap := heap w; len := len w; state := state w;
     async_context := async_context w; results := results w; next_result := next_result w;
     stack_ptr := p; woken := woken w; events := events w |}.
Definition set_woken l (w : world) : world :=
  {| allocator := allocator w; heap := heap w; len := len w; state := state w;
     async_context := async_context w; results := results w; next_result := next_result w;
     stack_ptr := stack_ptr w; woken := l; events := events w |}.
Definition set_events e (w : world) : world :=
  {| allocator := allocator w; heap := heap w; len := len w; state := state w;
     async_context := async_context w; results := results w; next_result := next_result w;
     stack_ptr := stack_ptr w; woken := woken w; events := e |}.

(** [Stack::new]. *)
Definition new_stack : world :=
  {| allocator := sa_new; heap := ∅; len := 0; state := Base; async_context := dangling 1;
     results := ∅; next_result := 0; stack_ptr := false; woken := []; events := ∅ |}.

(** ** Helpers *)
Definition on_alloc {B} (c : M A B) : M world B :=
  fun w => match c (allocator w) with
           | Ok (b, a) => Ok (b, set_allocator a w)
           | Panic m => Panic m
           | UB => UB
           end.
Definition load (a : Z) : M world content := fun w =>
  match heap w !! a with Some c => Ok (c, w) | None => UB end.
Definition store (a : Z) (c : content) : M world unit :=
  modify (fun w => set_heap (<[a := c]> (heap w)) w).
Definition free (a : Z) : M world unit :=
  modify (fun w => set_heap (delete a (heap w)) w).
Definition put_state (s : StackState) : M world unit := modify (set_state s).
(** [Cell::replace] on the state. *)
Definition replace_state (s : StackState) : M world StackState :=
  let! old := gets state in do! put_state s in ret old.
Definition add_len (d : Z) : M world unit := modify (fun w => set_len (len w + d) w).
Definition wake (k : Waker) : M world unit :=
  match k with
  | Stub => ret tt
  | Outside n => modify (fun w => set_woken (woken w ++ [n]) w)
  end.

(** The result cell of a running future: created with [None], read with
    [Cell::take], written by the task, gone with the future. *)
Definition new_result : M world nat := fun w =>
  Ok (next_result w, set_results (<[next_result w := None]> (results w)) (S (next_result w)) w).
Definition take_result (r : nat) : M world (option V) :=
  let! o := gets (fun w => results w !! r) in
  let! v := deref o in
  do! modify (fun w => set_results (<[r := None]> (results w)) (next_result w) w) in
  ret v.
Definition set_result (r : nat) (v : V) : M world unit :=
  let! o := gets (fun w => results w !! r) in
  let! _ := deref o in
  modify (fun w => set_results (<[r := Some v]> (results w)) (next_result w) w).
Definition free_result (r : nat) : M world unit :=
  modify (fun w => set_results (delete r (results w)) (next_result w) w).

(** ** The thread local stack pointer *)
Definition enter_context {B} (f : M world B) : M world B :=
  let! ptr := gets stack_ptr in
  do! modify (set_stack_ptr true) in
  let _defer := Defer.new ptr (fun ptr => modify (set_stack_ptr ptr)) in
  let! r := f in
  do! Defer.drop _defer in
  ret r.
Definition with_context {B} (f : M world B) : M world B :=
  let! ptr := gets stack_ptr in
  if (ptr : bool) then f else panic "Not within a stack context".

Definition is_rebless_context (cx : Context) : M world bool :=
  gets (fun w => (async_context w =? cx_addr cx)%Z).
Definition set_rebless_context_addr (c : Z) : M world Z :=
  let! old := gets async_context in do! modify (set_async_context c) in ret old.
Definition set_rebless_context (cx : Context) : M world Z :=
  set_rebless_context_addr (cx_addr cx).

(** [closure(M::create())]: the future of a call. *)
Definition call (closure : code) : M world code :=
  match closure with NoFuture m => panic m | _ => ret closure end.

(** ** Pushing and popping tasks *)
Context (place_layout : Layout) (task_layout : code -> Layout).

Definition alloc_future (f : code) (d : dest) (n : option Waker) : M world Z :=
  let! res := on_alloc (sa_push (task_layout f)) in
  do! store res (CTask {| body := Some f; handles := []; place := d; notify := n |}) in
  do! add_len 1 in
  ret res.

Definition push_task (f : code) (d : dest) (n : option Waker) : M world unit :=
  let! old := replace_state NewTask in
  do! assert (bool_decide (old = Base))
        "Invalid stack state, futures are not being evaluated in stack order." in
  let! _ := alloc_future f d n in
  ret tt.

(** The address of the newest allocation. *)
Definition top_task : M world Z := let! t := on_alloc sa_top in unwrap t.

Section drop.
(** [Drop for InnerStkFuture], given [Stack::pop_cancel_task]. *)
Context (pop_cancel_task : M world unit).

Definition drop_stk_future (s : StkFutureState) : M world unit :=
  match s with
  | Initial _ => ret tt
  | Done => ret tt
  | Running r =>
      let! v := take_result r in
      do! match v with
          | None =>
              with_context (
                let! st := gets state in
                if bool_decide (st <> Cancelled) then pop_cancel_task else ret tt)
          | Some _ => ret tt
          end in
      free_result r
  end.

Definition drop_handle (h : option handle) : M world unit :=
  match h with
  | Some (HStk s) => drop_stk_future s
  | Some (HYield _) | None => ret tt
  end.

(** Locals are dropped in reverse order of creation. *)
Fixpoint drop_handles (hs : list (option handle)) : M world unit :=
  match hs with
  | [] => ret tt
  | h :: hs => do! drop_handles hs in drop_handle h
  end.

(** [drop_task_inline]: the dropper of the virtual table. *)
Definition drop_task_inline (a : Z) : M world unit :=
  let! c := load a in
  match c with
  | CTask t =>
      do! store a CBusy in
      do! drop_handles (handles t) in
      free a
  | CPlace _ | CBusy => ub
  end.
End drop.

(** Dropping a task drops the futures it owns, which may pop the task above;
    that one is dropped in state [Cancelled], where futures pop nothing, so
    two levels are enough ([fuel]). *)
Fixpoint pop_task_ (fuel : nat) : M world unit :=
  match fuel with
  | O => ub
  | S fuel =>
      let pop_cancel_task :=
        let! old_state := replace_state Cancelled in
        do! pop_task_ fuel in
        put_state old_state in
      let! task := top_task in
      do! drop_task_inline pop_cancel_task task in
      do! on_alloc sa_pop in
      add_len (-1)
  end.
Definition pop_task : M world unit := pop_task_ 2.

Definition pop_cancel_task : M world unit :=
  let! old_state := replace_state Cancelled in
  do! pop_task_ 1 in
  put_state old_state.

(** ** Polling *)

(** [Future for InnerStkFuture]. *)
Definition poll_stk_future (cx : Context) (s : StkFutureState)
  : M world (poll V * StkFutureState) :=
  with_context
    match s with
    | Initial closure =>
        let! state_ptr := new_result in
        let! future := call closure in
        let! own := is_rebless_context cx in
        do! (if (own : bool) then push_task future (ToCell state_ptr) None
             else push_task future (ToCell state_ptr) (Some (cx_waker cx))) in
        ret (Pending, Running state_ptr)
    | Running r =>
        let! v := take_result r in
        match v with
        | None => ret (Pending, Running r)
        | Some x => do! free_result r in ret (Ready x, Done)
        end
    | Done => ret (Pending, Done)
    end.

(** [Future for YieldFuture]. *)
Definition poll_yield (cx : Context) (polled : bool) : M world (poll V * bool) :=
  with_context (
    let! st := gets state in
    if negb polled && bool_decide (st = Yield) then
      let! own := is_rebless_context cx in
      do! (if negb own then wake (cx_waker cx) else ret tt) in
      let! s := replace_state Yield in
      do! assert (bool_decide (s = Base)) "Stack was in inconsistant state for yielding." in
      ret (Pending, true)
    else ret (Ready unit_value, polled)).

Definition poll_handle (cx : Context) (h : handle) : M world (poll V * handle) :=
  match h with
  | HStk s => let! (p, s') := poll_stk_future cx s in ret (p, HStk s')
  | HYield b => let! (p, b') := poll_yield cx b in ret (p, HYield b')
  end.

(** Code that names a future it has dropped, or never made, does not pass the
    borrow checker; here it stops with a panic of its own. *)
Definition get_handle (hs : list (option handle)) (h : nat) : M world handle :=
  match hs !! h with Some (Some x) => ret x | _ => panic "use of a moved future" end.

(** A poll of user code: it finishes with a value, or stops at a point from
    which the next poll continues. *)
Inductive progress := Finished (v : V) | Blocked (c : code).

Fixpoint exec (cx : Context) (c : code) (hs : list (option handle))
  : M world (progress * list (option handle)) :=
  match c with
  | Ret v => ret (Finished v, hs)
  | Suspend k => ret (Blocked k, hs)
  | Run f k => exec cx (k (length hs)) (hs ++ [Some (HStk (Initial f))])
  | YieldNow k => exec cx (k (length hs)) (hs ++ [Some (HYield false)])
  | Poll h c k =>
      let! x := get_handle hs h in
      let! (p, x') := poll_handle (default cx c) x in
      exec cx (k p) (<[h := Some x']> hs)
  | Await h k =>
      let! x := get_handle hs h in
      let! (p, x') := poll_handle cx x in
      match p with
      | Ready v =>
          (* the awaited future is dropped once it is ready *)
          do! drop_handle pop_cancel_task (Some x') in
          exec cx (k v) (<[h := None]> hs)
      | Pending => ret (Blocked (Await h k), <[h := Some x']> hs)
      end
  | Drop h k =>
      let! x := get_handle hs h in
      do! drop_handle pop_cancel_task (Some x) in
      exec cx k (<[h := None]> hs)
  | PollOutside e k =>
      let! v := gets (fun w => events w !! e) in
      exec cx (k (match v with Some x => Ready x | None => Pending end)) hs
  | AwaitOutside e k =>
      let! v := gets (fun w => events w !! e) in
      match v with
      | Some x => exec cx (k x) hs
      | None => ret (Blocked (AwaitOutside e k), hs)
      end
  | Throw m => panic m
  | NoFuture m => panic m
  end.

(** The wrapper around a user future: [dest.set(Some(fut.await))], then the
    waker.  Awaiting drops the future when it is ready. *)
Definition finish_task (d : dest) (n : option Waker) (v : V) : M world unit :=
  do! match d with
      | ToPlace p =>
          let! c := load p in
          match c with CPlace _ => store p (CPlace (Some v)) | CTask _ | CBusy => ub end
      | ToCell r => set_result r v
      end in
  match n with Some k => wake k | None => ret tt end.

(** [drive_task]: the driver of the virtual table. *)
Definition drive_task (a : Z) (cx : Context) : M world (poll unit) :=
  let! c := load a in
  match c with
  | CPlace _ | CBusy => ub
  | CTask t =>
      match body t with
      | None => panic "`async fn` resumed after completion"
      | Some f =>
          do! store a CBusy in
          let! (p, hs) := exec cx f (handles t) in
          match p with
          | Blocked f' =>
              do! store a (CTask {| body := Some f'; handles := hs; place := place t;
                                    notify := notify t |}) in
              ret Pending
          | Finished v =>
              do! drop_handles pop_cancel_task hs in
              do! finish_task (place t) (notify t) v in
              do! store a (CTask {| body := None; handles := []; place := place t;
                                    notify := notify t |}) in
              ret (Ready tt)
          end
      end
  end.

Definition drive_top_task (cx : Context) : M world (poll bool) :=
  enter_context (
    let! task := top_task in
    let! r := drive_task task cx in
    match r with
    | Ready _ => do! pop_task in ret (Ready false)
    | Pending =>
        let! st := gets state in
        match st with
        | Base => ret Pending
        | Yield => do! put_state Base in ret (Ready true)
        | Cancelled => panic "stack should never be running tasks while cancelling"
        | NewTask => do! put_state Base in ret (Ready false)
        end
    end).

(** ** Entering, results, clearing *)
Definition pending_tasks : M world Z := gets (fun w => saturating_sub (len w) 1).

Definition enter_future (fut : code) : M world unit :=
  let! n := gets len in
  do! assert (n =? 0)%Z "Stack still has unresolved futures, did a previous runner leak?" in
  let! place_ptr := on_alloc (sa_push place_layout) in
  do! store place_ptr (CPlace None) in
  do! modify (set_len 1) in
  let! _ := alloc_future fut (ToPlace place_ptr) None in
  ret tt.

(** [Stack::enter]. *)
Definition enter (f : code) : M world unit :=
  let! fut := call f in enter_future fut.

(** Taking the value out of the result place. *)
Definition take_place (a : Z) : M world (option V) :=
  let! c := load a in
  match c with
  | CPlace r => do! store a (CPlace None) in ret r
  | CTask _ | CBusy => ub
  end.

Definition try_get_result : M world (option V) :=
  let! n := gets len in
  if (n =? 1)%Z then
    let! place_ptr := top_task in
    let! res := take_place place_ptr in
    do! assert (bool_decide (is_Some res))
          "Result was not writen even after all futures finished!" in
    do! free place_ptr in
    do! on_alloc sa_pop in
    do! modify (set_len 0) in
    ret res
  else ret None.

Fixpoint clear_tasks (n : nat) : M world unit :=
  match n with
  | O => ret tt
  | S n =>
      let! t := top_task in
      do! drop_task_inline pop_cancel_task t in
      do! on_alloc sa_pop in
      clear_tasks n
  end.

(** [Stack::clear::<R>]; [needs_drop] is [mem::needs_drop::<R>()]. *)
Definition clear (needs_drop : bool) : M world unit :=
  let! n := gets len in
  if (n =? 0)%Z then ret tt else
  do! put_state Cancelled in
  do! enter_context (clear_tasks (Z.to_nat (n - 1))) in
  let! place_ptr := top_task in
  do! (if needs_drop && (n <=? 2)%Z then let! _ := take_place place_ptr in ret tt else ret tt) in
  do! free place_ptr in
  do! on_alloc sa_pop in
  do! modify (set_len 0) in
  put_state Base.

(** [Drop for Stack]. *)
Definition drop_stack : M world unit := clear false.
End stack.

Arguments code V : clear implicits.
Arguments StkFutureState V : clear implicits.
Arguments handle V : clear implicits.
Arguments task V : clear implicits.
Arguments content V : clear implicits.
Arguments world V A : clear implicits.
Arguments progress V : clear implicits.
