(* ===== verification/Runner.v ===== *)
(** * Runners (src/stack/runner.rs, src/stub_waker.rs)

    The handle [Stack::enter] returns, and the futures that drive it from an
    outside executor. *)

From S2P Require Import Prelude Ptr StackAlloc Stack.

Section runner.
Context {V : Type} (unit_value : V) {A : Type} `{!StackAlloc A}.
Context (place_layout : Layout) (task_layout : code V -> Layout).

Abbreviation M_ := (M (world V A)).
Abbreviation drive := (drive_top_task unit_value task_layout).

(** [stub_waker::get], in a context that lives at [addr]. *)
Definition stub_context (addr : Z) : Context := {| cx_addr := addr; cx_waker := Stub |}.

(** [Runner::step]; [addr] is the address of its local [context]. *)
Definition step (addr : Z) : M_ (option V) :=
  let! x := try_get_result in
  match x with
  | Some x => ret (Some x)
  | None =>
      let context := stub_context addr in
      let! rebless_addr := set_rebless_context context in
      let! r := drive context in
      do! assert (negb (is_pending r))
            "a non-reblessive future was run while running the reblessive runtime as non-async" in
      let! _ := set_rebless_context_addr rebless_addr in
      ret None
  end.

(** [Drop for Runner<R>]. *)
Definition drop_runner (needs_drop : bool) : M_ unit :=
  do! put_state Cancelled in
  do! clear needs_drop in
  put_state Base.

(** The loop of [Runner::finish], at most [fuel] steps. *)
Fixpoint finish_loop (fuel : nat) (addr : Z) : M_ (option V) :=
  match fuel with
  | O => ret None
  | S fuel =>
      let! x := step addr in
      match x with
      | Some x => ret (Some x)
      | None => finish_loop fuel addr
      end
  end.

(** [Runner::finish] takes the runner by value: it is dropped on return. *)
Definition finish (fuel : nat) (addr : Z) (needs_drop : bool) : M_ (option V) :=
  let! r := finish_loop fuel addr in
  match r with
  | Some x => do! drop_runner needs_drop in ret (Some x)
  | None => ret None
  end.

(** [Runner::depth]. *)
Definition depth : M_ Z := pending_tasks.

(** [Future for StepFuture]. *)
Definition poll_step (cx : Context) : M_ (poll (option V)) :=
  let! x := try_get_result in
  match x with
  | Some x => ret (Ready (Some x))
  | None =>
      let! rebless_addr := set_rebless_context cx in
      let! r := drive cx in
      let! _ := set_rebless_context_addr rebless_addr in
      match r with
      | Ready _ => ret (Ready None)
      | Pending => ret Pending
      end
  end.

(** [Future for FinishFuture]: at most [fuel] rounds of its loop. *)
Fixpoint poll_finish (fuel : nat) (cx : Context) : M_ (option (poll V)) :=
  match fuel with
  | O => ret None
  | S fuel =>
      let! x := try_get_result in
      match x with
      | Some x => ret (Some (Ready x))
      | None =>
          let! rebless_addr := set_rebless_context cx in
          let! r := drive cx in
          let! _ := set_rebless_context_addr rebless_addr in
          match r with
          | Ready _ => poll_finish fuel cx
          | Pending => ret (Some Pending)
          end
      end
  end.
End runner.
