(* ===== verification/StackInv.v ===== *)
(** * The invariant of the stack runtime

    Whatever the user futures do, the tasks of a stack form a chain: each task
    but the root runs for exactly one future of the task below it, the only one
    there without a result, and the result cell it will write is alive. *)

From S2P Require Import Prelude Ptr StackAlloc Stack.

Section inv.
Context {V : Type} {A : Type} `{!StackAlloc A}.
Implicit Types w : world V A.

(** ** The memory of a stack: its allocations, newest first *)
Record shape w (cs : list (Z * content V)) : Prop := {
  shape_live : exists L, sa_live (allocator w) L /\ map fst L = map fst cs;
  shape_nodup : NoDup (map fst cs);
  shape_heap : heap w = list_to_map cs;
}.

(** The memory between the drop of the newest task and its deallocation. *)
Record shape_freed w (cs : list (Z * content V)) : Prop := {
  freed_live : exists a L, sa_live (allocator w) (a :: L) /\ map fst L = map fst cs;
  freed_nodup : NoDup (map fst cs);
  freed_heap : heap w = list_to_map cs;
}.

Lemma shape_lookup w cs a c : shape w cs -> (a, c) ∈ cs -> heap w !! a = Some c.
Proof. intros [_ Hn Hh] Hin. rewrite Hh. by apply elem_of_list_to_map_1. Qed.

Lemma shape_store w pre a c post c' :
  shape w (pre ++ (a, c) :: post) ->
  shape (set_heap (<[a := c']> (heap w)) w) (pre ++ (a, c') :: post).
Proof.
  intros [(L & HL & Hm) Hn Hh]. split; cbn.
  - exists L. split; [done|]. rewrite Hm. by rewrite !map_app.
  - by rewrite map_app in *.
  - rewrite Hh. rewrite map_app in Hn. cbn in Hn. apply NoDup_app in Hn as (_ & Hd & _).
    rewrite !list_to_map_app. cbn. rewrite insert_union_r, insert_insert_eq; [done|].
    apply not_elem_of_list_to_map_1. intros Ha. apply (Hd a Ha). left.
Qed.

Lemma shape_free w a c cs :
  shape w ((a, c) :: cs) -> shape_freed (set_heap (delete a (heap w)) w) cs.
Proof.
  intros [(L & HL & Hm) Hn Hh]. destruct L as [|x L]; [done|]. cbn in Hm. injection Hm as Hx Hm.
  apply NoDup_cons in Hn as [Ha Hn]. split; cbn; [eauto|done|]. rewrite Hh. cbn.
  apply delete_insert_id. by apply not_elem_of_list_to_map_1.
Qed.

(** ** Rules for the primitive operations *)
Section rules.
Context (Q : unit -> world V A -> Prop) (E : string -> Prop).

Lemma wp_load w cs a c (Q' : content V -> world V A -> Prop) :
  shape w cs -> (a, c) ∈ cs -> Q' c w -> wpe (load a) w Q' E.
Proof. intros Hs Hin HQ. unfold wpe, load. by rewrite (shape_lookup _ _ _ _ Hs Hin). Qed.

Lemma wp_top_task w a c cs (Q' : Z -> world V A -> Prop) :
  shape w ((a, c) :: cs) -> Q' a w -> wpe top_task w Q' E.
Proof.
  intros [(L & HL & Hm) _ _] HQ. destruct L as [|x L]; [done|].
  unfold wpe, top_task, bind, on_alloc. rewrite (sa_top_ok _ _ HL). cbn.
  cbn in Hm. injection Hm as -> _. by destruct w.
Qed.

Lemma wp_pop w cs :
  shape_freed w cs -> (forall al, shape (set_allocator al w) cs -> Q tt (set_allocator al w)) ->
  wpe (on_alloc sa_pop) w Q E.
Proof.
  intros [(a & L & HL & Hm) Hn Hh] HQ. pose proof (sa_pop_ok _ _ _ HL) as Hw.
  unfold wpe, on_alloc in *. destruct (sa_pop (allocator w)) as [[[] al]| |]; [|done..].
  apply HQ. split; cbn; eauto.
Qed.
End rules.

(** A closure that gives a future, and one of which nothing is known. *)
Definition callable (f : code V) : Prop := match f with NoFuture _ => False | _ => True end.

Lemma wp_call f w (Q : code V -> world V A -> Prop) E : callable f -> Q f w -> wpe (call f) w Q E.
Proof. by destruct f. Qed.

Lemma wp_call_any f w (Q : code V -> world V A -> Prop) : Q f w -> safe (call f) w Q.
Proof. by destruct f. Qed.

(** A new allocation, with the store that fills it. *)
Lemma wp_push w cs l (Q : Z -> world V A -> Prop) (E : string -> Prop) :
  shape w cs -> sa_layout l -> (forall m, sa_fail m -> E m) ->
  (forall a al,
     (forall c, shape (set_heap (<[a := c]> (heap w)) (set_allocator al w)) ((a, c) :: cs)) ->
     Q a (set_allocator al w)) ->
  wpe (on_alloc (sa_push l)) w Q E.
Proof.
  intros [(L & HL & Hm) Hn Hh] Hl HE HQ. pose proof (sa_push_ok _ _ _ HL Hl) as Hw.
  unfold wpe, on_alloc in *. destruct (sa_push l (allocator w)) as [[a al]| |]; [|auto|done].
  destruct Hw as [Ha HL']. apply HQ. intros c. rewrite Hm in Ha. split; cbn.
  - eexists. split; [done|]. cbn. by rewrite Hm.
  - by constructor.
  - by rewrite Hh.
Qed.

(** ** Result cells *)
Record cells_ok (res : gmap nat (option V)) (next : nat) (rs : list nat) : Prop := {
  cells_nodup : NoDup rs;
  cells_dom : forall r, r ∈ rs <-> is_Some (res !! r);
  cells_lt : Forall (fun r => (r < next)%nat) rs;
}.

Lemma cells_ok_perm res n rs rs' : rs ≡ₚ rs' -> cells_ok res n rs -> cells_ok res n rs'.
Proof.
  intros Hp [Hn Hd Hl]. split; [by rewrite <- Hp| |by rewrite <- Hp].
  intros r. by rewrite <- Hp.
Qed.

Lemma cells_ok_new res n rs : cells_ok res n rs -> cells_ok (<[n := None]> res) (S n) (n :: rs).
Proof.
  intros [Hn Hd Hl]. rewrite Forall_forall in Hl.
  assert (Hfresh : n ∉ rs) by (intros Hin; specialize (Hl _ Hin); lia).
  split; [by constructor| |].
  - intros r. rewrite elem_of_cons, Hd, lookup_insert_is_Some'. intuition (subst; auto).
  - constructor; [lia|]. apply Forall_forall. intros r Hr. specialize (Hl _ Hr). lia.
Qed.

Lemma cells_ok_free res n r rs : cells_ok res n (r :: rs) -> cells_ok (delete r res) n rs.
Proof.
  intros [[Hr Hn]%NoDup_cons Hd Hl]. split; [done| |by apply Forall_cons_1 in Hl as [_ ?]].
  intros x. specialize (Hd x). rewrite elem_of_cons in Hd. rewrite lookup_delete_is_Some.
  split.
  - intros Hx. split; [by intros <-|]. apply Hd. by right.
  - intros [Hne [->|Hx]%Hd]; done.
Qed.

Lemma cells_ok_set res n r v rs :
  cells_ok res n rs -> r ∈ rs -> cells_ok (<[r := v]> res) n rs.
Proof.
  intros [Hn Hd Hl] Hr. split; [done| |done]. intros x.
  rewrite lookup_insert_is_Some', <- Hd. intuition (subst; auto).
Qed.

(** The futures of [rs] without a result: none, or exactly one. *)
Definition pending_is (res : gmap nat (option V)) (rs : list nat) (px : option nat) : Prop :=
  match px with
  | None => forall r, r ∈ rs -> res !! r <> Some None
  | Some p => p ∈ rs /\ res !! p = Some None /\ forall r, r ∈ rs -> r <> p -> res !! r <> Some None
  end.

#[local] Arguments pending_is : simpl never.

Lemma pending_is_ext res res' rs px :
  (forall r, r ∈ rs -> res !! r = res' !! r) -> pending_is res rs px -> pending_is res' rs px.
Proof.
  intros He. destruct px as [p|]; unfold pending_is.
  - intros (Hp & Hn & Ho). rewrite <- (He p Hp). split_and!; [done..|].
    intros r Hr. rewrite <- (He r Hr). by apply Ho.
  - intros Ho r Hr. rewrite <- (He r Hr). by apply Ho.
Qed.

(** ** Chains of tasks *)

(** The result cells of the running futures of a task. *)
Definition handle_runs (h : option (handle V)) : list nat :=
  match h with Some (HStk (Running r)) => [r] | _ => [] end.
Definition runs (hs : list (option (handle V))) : list nat := concat (map handle_runs hs).
Definition running (ts : list (Z * task V)) : list nat :=
  concat (map (fun at_ => runs (handles at_.2)) ts).

(** [chain_below d ts]: [ts] are the tasks under a task that reports to [d],
    and end above the place [pa]. *)
Fixpoint chain_below (res : gmap nat (option V)) (pa : Z) (d : dest) (ts : list (Z * task V)) : Prop :=
  match ts with
  | [] => d = ToPlace pa
  | (_, t) :: rest =>
      exists r, d = ToCell r /\ pending_is res (runs (handles t)) (Some r) /\
        body t <> None /\ chain_below res pa (place t) rest
  end.

Lemma running_cons a t ts : running ((a, t) :: ts) = runs (handles t) ++ running ts.
Proof. done. Qed.

Lemma chain_below_ext res res' pa d ts :
  (forall r, r ∈ running ts -> res !! r = res' !! r) ->
  chain_below res pa d ts -> chain_below res' pa d ts.
Proof.
  revert d. induction ts as [|[a t] ts IH]; intros d He; cbn; [done|].
  intros (r & Hd & Hp & Hb & Hc). exists r. split_and!; [done| |done|].
  - eapply pending_is_ext; [|done]. intros x Hx. apply He. rewrite running_cons, elem_of_app. by left.
  - apply IH; [|done]. intros x Hx. apply He. rewrite running_cons, elem_of_app. by right.
Qed.

Definition task_cell (at_ : Z * task V) : Z * content V := (at_.1, CTask at_.2).
Definition stack_cells (ts : list (Z * task V)) (pa : Z) : list (Z * content V) :=
  map task_cell ts ++ [(pa, CPlace None)].

Definition running_state (s : StackState) : Prop := s = Base \/ s = NewTask.

(** ** A stack at rest *)
Record inv_running w (a : Z) (t : task V) (ts : list (Z * task V)) (pa : Z) : Prop := {
  run_shape : shape w (stack_cells ((a, t) :: ts) pa);
  run_len : len w = Z.of_nat (2 + length ts);
  run_body : body t <> None;
  run_top : pending_is (results w) (runs (handles t)) None;
  run_chain : chain_below (results w) pa (place t) ts;
  run_cells : cells_ok (results w) (next_result w) (runs (handles t) ++ running ts);
  run_state : running_state (state w);
}.

Record inv_done w (pa : Z) (v : V) : Prop := {
  done_shape : shape w [(pa, CPlace (Some v))];
  done_len : len w = 1;
  done_cells : cells_ok (results w) (next_result w) [];
  done_state : running_state (state w);
}.

Record inv_idle w : Prop := {
  idle_shape : shape w [];
  idle_len : len w = 0;
  idle_cells : cells_ok (results w) (next_result w) [];
  idle_state : running_state (state w);
}.

Inductive stack_inv w : Prop :=
| inv_is_idle : inv_idle w -> stack_inv w
| inv_is_done pa v : inv_done w pa v -> stack_inv w
| inv_is_running a t ts pa : inv_running w a t ts pa -> stack_inv w.

(** ** A stack while its newest task is polled

    The task at [a], reporting to [d], owns running futures [rs]; it may have
    pushed one task, [above], in this poll. *)
Definition above_cells (above : option (Z * task V)) : list (Z * content V) :=
  match above with Some at_ => [task_cell at_] | None => [] end.

Definition above_ok w (above : option (Z * task V)) (rs : list nat) : Prop :=
  match above with
  | None => pending_is (results w) rs None /\ running_state (state w)
  | Some (_, t) =>
      state w = NewTask /\ handles t = [] /\ body t <> None /\
      exists r, place t = ToCell r /\ pending_is (results w) rs (Some r)
  end.

Record mid w (above : option (Z * task V)) (a : Z) (d : dest) (rs : list nat)
    (ts : list (Z * task V)) (pa : Z) : Prop := {
  mid_shape : shape w (above_cells above ++ (a, CBusy) :: stack_cells ts pa);
  mid_len : len w = Z.of_nat (2 + length ts + length (above_cells above));
  mid_chain : chain_below (results w) pa d ts;
  mid_cells : cells_ok (results w) (next_result w) (rs ++ running ts);
  mid_above : above_ok w above rs;
  mid_ptr : stack_ptr w = true;
}.
End inv.
