(* ===== verification/StackSafe.v ===== *)
(** * Memory safety of the stack runtime

    Whatever code the futures run, polls of the top task, results, clearing and
    dropping preserve the invariant of [StackInv] and are never undefined; they
    may panic. *)

From S2P Require Import Prelude Ptr StackAlloc Stack Runner StackInv.

Section safe.
Context {V : Type} (unit_value : V) {A : Type} `{!StackAlloc A}.
Context (place_layout : Layout) (task_layout : code V -> Layout).
Context (Hplace : sa_layout place_layout) (Htask : forall f, sa_layout (task_layout f)).
Implicit Types w : world V A.

(** ** Running futures of a handle table *)
Lemma runs_split (hs : list (option (handle V))) h x :
  hs !! h = Some x -> exists R, runs hs ≡ₚ handle_runs x ++ R /\
    forall y, runs (<[h := y]> hs) ≡ₚ handle_runs y ++ R.
Proof.
  intros Hx. exists (runs (take h hs) ++ runs (drop (S h) hs)).
  assert (Hlt : (h < length hs)%nat) by by eapply lookup_lt_Some.
  assert (Hr : forall (l1 l2 : list (option (handle V))) y,
    runs (l1 ++ y :: l2) ≡ₚ handle_runs y ++ runs l1 ++ runs l2).
  { intros l1 l2 y. unfold runs. rewrite map_app, concat_app. cbn. solve_Permutation. }
  split.
  - rewrite <- (take_drop_middle hs h x Hx) at 1. apply Hr.
  - intros y. rewrite (insert_take_drop hs h y) by done. apply Hr.
Qed.

Lemma runs_snoc (hs : list (option (handle V))) x :
  handle_runs x = [] -> runs (hs ++ [x]) = runs hs.
Proof. intros Hx. unfold runs. rewrite map_app, concat_app. cbn. by rewrite Hx, !app_nil_r. Qed.

(** ** Popping a task that owns no futures *)
Lemma wp_pop_plain n w a t cs (Q : unit -> world V A -> Prop) E :
  shape w ((a, CTask t) :: cs) -> handles t = [] ->
  (forall al h, let w' := set_len (len w + -1) (set_heap h (set_allocator al w)) in
     shape w' cs -> Q tt w') ->
  wpe (pop_task_ (S n)) w Q E.
Proof.
  intros Hs Ht HQ. cbn [pop_task_]. apply wpe_bind. eapply wp_top_task; [done|].
  apply wpe_bind. unfold drop_task_inline. apply wpe_bind. eapply wp_load; [done|left|].
  apply wpe_bind, wpe_modify. rewrite Ht. apply wpe_bind, wpe_ret, wpe_modify.
  pose proof (shape_store w [] a _ cs CBusy Hs) as Hs'.
  apply wpe_bind. eapply wp_pop; [by eapply shape_free|]. intros al Hs''.
  apply wpe_modify. apply (HQ al (delete a (<[a := CBusy]> (heap w)))). by destruct Hs''.
Qed.

Lemma wp_pop_cancel_plain w a t cs (Q : unit -> world V A -> Prop) E :
  shape w ((a, CTask t) :: cs) -> handles t = [] ->
  (forall al h, let w' := set_len (len w + -1) (set_heap h (set_allocator al w)) in
     shape w' cs -> Q tt w') ->
  wpe pop_cancel_task w Q E.
Proof.
  intros Hs Ht HQ. apply wpe_bind, wpe_bind, wpe_gets, wpe_bind, wpe_modify, wpe_ret, wpe_bind.
  eapply (wp_pop_plain 0); [|exact Ht|].
  { destruct Hs. by split. }
  intros al h w' Hw'. apply wpe_modify. subst w'. cbn in *.
  apply (HQ al h). destruct Hw'. by split.
Qed.

(** ** The task being polled *)
Lemma mid_perm w ab a d rs rs' ts pa :
  rs ≡ₚ rs' -> mid w ab a d rs ts pa -> mid w ab a d rs' ts pa.
Proof.
  intros Hp [Hs Hl Hc Hcells Hab Hptr].
  assert (Hpi : forall px, pending_is (results w) rs px -> pending_is (results w) rs' px).
  { intros [p|]; unfold pending_is; intros H; [|by intros r; rewrite <- Hp; apply H].
    rewrite <- Hp. destruct H as (? & ? & H). split_and!; [done..|].
    intros r. rewrite <- Hp. apply H. }
  split; try done.
  - eapply cells_ok_perm; [|done]. by rewrite Hp.
  - destruct ab as [[a1 t1]|]; cbn [above_ok] in *.
    + destruct Hab as (? & ? & ? & r & ? & ?). split_and!; eauto.
    + destruct Hab as [? ?]. auto.
Qed.

(** A running future of the task being polled has a cell of its own. *)
Section cell.
Context w ab a d r rs ts pa (Hm : mid w ab a d (r :: rs) ts pa).

Lemma mid_cell : is_Some (results w !! r).
Proof. apply (cells_dom _ _ _ (mid_cells _ _ _ _ _ _ _ Hm)). left. Qed.

Lemma mid_cell_out (y : nat) : y ∈ rs ++ running ts -> delete r (results w) !! y = results w !! y.
Proof.
  intros Hy. pose proof (cells_nodup _ _ _ (mid_cells _ _ _ _ _ _ _ Hm)) as [Hr _]%NoDup_cons.
  apply lookup_delete_ne. by intros <-.
Qed.

Lemma mid_cell_free : cells_ok (delete r (results w)) (next_result w) (rs ++ running ts).
Proof. apply cells_ok_free, (mid_cells _ _ _ _ _ _ _ Hm). Qed.

Lemma mid_cell_chain : chain_below (delete r (results w)) pa d ts.
Proof.
  eapply chain_below_ext; [|exact (mid_chain _ _ _ _ _ _ _ Hm)]. intros y Hy. symmetry.
  apply mid_cell_out. rewrite elem_of_app. by right.
Qed.

Lemma mid_cell_none (y : nat) :
  y ∈ rs -> results w !! y <> Some None -> delete r (results w) !! y <> Some None.
Proof. intros Hy. rewrite mid_cell_out; [done|]. rewrite elem_of_app. by left. Qed.
End cell.

(** Dropping a running future that has its result frees its cell. *)
Lemma mid_drop_done w ab a d r rs ts pa v E :
  mid w ab a d (r :: rs) ts pa -> results w !! r = Some (Some v) ->
  wpe (drop_stk_future pop_cancel_task (Running r)) w
    (fun _ w' => mid w' ab a d rs ts pa /\ results w' = delete r (results w)) E.
Proof.
  intros Hm Hv. unfold drop_stk_future. apply wpe_bind, wpe_bind, wpe_gets, wpe_bind.
  eapply wpe_deref; [exact Hv|]. apply wpe_bind, wpe_modify, wpe_ret, wpe_bind, wpe_ret, wpe_modify.
  cbn [results set_results]. rewrite delete_insert_eq. split; [|done].
  pose proof Hm as [Hs Hl _ _ Hab Hptr].
  split; try done; cbn; rewrite ?delete_insert_eq;
    [by destruct Hs|by eapply mid_cell_chain|by eapply mid_cell_free|].
  destruct ab as [[a1 t1]|]; cbn in *; rewrite ?delete_insert_eq.
  - destruct Hab as (? & ? & ? & p & Hp & Hin & Hpn & Ho).
    split_and!; [done..|]. exists p. split; [done|].
    assert (p <> r) by (intros ->; congruence).
    assert (p ∈ rs) by by apply elem_of_cons in Hin as [?|?].
    split_and!; [done|by rewrite lookup_delete_ne|].
    intros y Hy Hne. eapply mid_cell_none; [done..|]. apply Ho; [by right|done].
  - destruct Hab as [Hp Hst]. split; [|done]. intros y Hy.
    eapply mid_cell_none; [done..|]. apply Hp. by right.
Qed.

(** Dropping the one without a result pops the task it was pushed for. *)
Lemma mid_drop_above w a1 t1 a d r rs ts pa E :
  mid w (Some (a1, t1)) a d (r :: rs) ts pa -> results w !! r = Some None ->
  wpe (drop_stk_future pop_cancel_task (Running r)) w
    (fun _ w' => mid w' None a d rs ts pa /\ state w' = NewTask /\
       results w' = delete r (results w)) E.
Proof.
  intros Hm Hn. unfold drop_stk_future. apply wpe_bind, wpe_bind, wpe_gets, wpe_bind.
  eapply wpe_deref; [exact Hn|]. apply wpe_bind, wpe_modify, wpe_ret, wpe_bind, wpe_bind, wpe_gets.
  pose proof Hm as [Hs Hl _ Hcells (Hst & Ht1 & _ & p & Hp & Hin & Hpn & Ho) Hptr].
  cbn [stack_ptr set_results]. rewrite Hptr. apply wpe_bind, wpe_gets. cbn [state set_results].
  rewrite Hst, bool_decide_true by congruence.
  apply (wp_pop_cancel_plain _ a1 t1 ((a, CBusy) :: stack_cells ts pa)); [destruct Hs; by split|exact Ht1|].
  intros al h w' Hw'. apply wpe_modify. subst w'. cbn [results set_results set_len set_heap set_allocator].
  rewrite delete_insert_eq. split; [|done].
  split; cbn; rewrite ?delete_insert_eq;
    [by destruct Hw'|cbn in *; lia|by eapply mid_cell_chain|by eapply mid_cell_free|split; [|by right]|done].
  intros y Hy. eapply mid_cell_none; [done..|]. apply Ho; [by right|].
  assert (p = r) as ->.
  { destruct (decide (r = p)) as [|Hne]; [done|].
    assert (Hin' : r ∈ r :: rs) by left. destruct (Ho r Hin' Hne Hn). }
  intros ->. pose proof (cells_nodup _ _ _ Hcells) as [Hr _]%NoDup_cons. apply Hr.
  rewrite elem_of_app. by left.
Qed.

Lemma mid_drop_running w ab a d r rs ts pa E :
  mid w ab a d (r :: rs) ts pa ->
  wpe (drop_stk_future pop_cancel_task (Running r)) w
    (fun _ w' => exists ab', mid w' ab' a d rs ts pa) E.
Proof.
  intros Hm. destruct (mid_cell _ _ _ _ _ _ _ _ Hm) as [[v|] Ho].
  - eapply wpe_post; [by eapply mid_drop_done|]. intros [] w' [? _]. eauto.
  - destruct ab as [[a1 t1]|].
    + eapply wpe_post; [by eapply mid_drop_above|]. intros [] w' [? _]. eauto.
    + destruct (mid_above _ _ _ _ _ _ _ Hm) as [Hp _]. by destruct (Hp r ltac:(left)).
Qed.

Lemma mid_drop_handle w ab a d x rs ts pa E :
  mid w ab a d (handle_runs x ++ rs) ts pa ->
  wpe (drop_handle pop_cancel_task x) w (fun _ w' => exists ab', mid w' ab' a d rs ts pa) E.
Proof.
  intros Hm. destruct x as [[[f|r|]|b]|]; cbn [handle_runs app] in Hm.
  all: try by (apply wpe_ret; eauto). by eapply mid_drop_running.
Qed.

Lemma mid_drop_handles hs : forall w ab a d rs ts pa E,
  mid w ab a d (runs hs ++ rs) ts pa ->
  wpe (drop_handles pop_cancel_task hs) w (fun _ w' => exists ab', mid w' ab' a d rs ts pa) E.
Proof.
  induction hs as [|x hs IH]; intros w ab a d rs ts pa E Hm; cbn [drop_handles].
  - apply wpe_ret. eauto.
  - apply wpe_bind. eapply wpe_post.
    + apply (IH _ ab a d (handle_runs x ++ rs) ts pa). eapply mid_perm; [|done].
      unfold runs. cbn. solve_Permutation.
    + intros [] w' (ab' & Hm'). by eapply mid_drop_handle.
Qed.

(** Pushing the task of a future polled for the first time. *)
Lemma mid_push_base w a d rs ts pa f n :
  let r := next_result w in
  let w1 := set_results (<[r := None]> (results w)) (S r) w in
  let t := {| body := Some f; handles := []; place := ToCell r; notify := n |} in
  mid w None a d rs ts pa -> state w = Base ->
  wpe (push_task task_layout f (ToCell r) n) w1
    (fun _ w' => (exists a', mid w' (Some (a', t)) a d (r :: rs) ts pa) /\
      results w' = results w1 /\ events w' = events w /\ async_context w' = async_context w /\
      woken w' = woken w) sa_fail.
Proof.
  intros r w1 t [Hs Hl Hc Hcells [Hp _] Hptr] Hst.
  assert (Hfresh : r ∉ rs ++ running ts).
  { intros Hin. pose proof (cells_lt _ _ _ Hcells) as Hlt. rewrite Forall_forall in Hlt.
    specialize (Hlt _ Hin). unfold r in Hlt. lia. }
  assert (Hout : forall y, y ∈ rs ++ running ts -> <[r := None]> (results w) !! y = results w !! y).
  { intros y Hy. apply lookup_insert_ne. by intros <-. }
  unfold push_task. apply wpe_bind, wpe_bind, wpe_gets, wpe_bind, wpe_modify, wpe_ret.
  apply wpe_bind, wpe_assert_true; [by apply bool_decide_eq_true_2|].
  apply wpe_bind, wpe_bind. eapply (wp_push _ _ _ _ _); [by destruct Hs|done|done|].
  intros a' al Hsh. apply wpe_bind, wpe_modify, wpe_bind, wpe_modify, wpe_ret, wpe_ret.
  split; [|done]. exists a'. specialize (Hsh (CTask t)).
  split; [by destruct Hsh|cbn in *; lia| | | |done].
  - eapply chain_below_ext; [|exact Hc]. intros y Hy. cbn. symmetry. apply Hout.
    rewrite elem_of_app. by right.
  - by apply cells_ok_new.
  - cbn [above_ok]. split_and!; [done..|]. exists r. split; [done|]. split_and!.
    + left.
    + apply lookup_insert_eq.
    + intros y [->|Hy]%elem_of_cons Hne; [done|]. cbn.
      rewrite Hout by (rewrite elem_of_app; by left). by apply Hp.
Qed.

(** In any other state a push panics. *)
Lemma push_task_panics w f d n :
  state w <> Base ->
  push_task task_layout f d n w
  = Panic "Invalid stack state, futures are not being evaluated in stack order.".
Proof.
  intros Hst. unfold push_task, replace_state, put_state, bind, gets, modify, ret, assert.
  by rewrite bool_decide_false.
Qed.

Lemma mid_push w ab a d rs ts pa f n :
  let r := next_result w in
  let w1 := set_results (<[r := None]> (results w)) (S r) w in
  mid w ab a d rs ts pa ->
  safe (push_task task_layout f (ToCell r) n) w1
    (fun _ w' => exists ab', mid w' ab' a d (r :: rs) ts pa).
Proof.
  intros r w1 Hm. destruct (decide (state w = Base)) as [Hst|Hst].
  - destruct ab as [[a1 t1]|]; [destruct (mid_above _ _ _ _ _ _ _ Hm); congruence|].
    eapply wpe_mono; [by eapply mid_push_base| |done]. intros [] w' [[a' Hm'] _]. eauto.
  - unfold wpe. by rewrite push_task_panics.
Qed.

(** Polling a future again, which has a task, had one, or is done. *)
Lemma mid_poll_again w ab a d cx s rs ts pa E :
  (forall f, s <> Initial f) -> mid w ab a d (handle_runs (Some (HStk s)) ++ rs) ts pa ->
  wpe (poll_stk_future task_layout cx s) w
    (fun r w' => mid w' ab a d (handle_runs (Some (HStk r.2)) ++ rs) ts pa) E.
Proof.
  intros Hs Hm. pose proof (mid_ptr _ _ _ _ _ _ _ Hm) as Hptr.
  unfold poll_stk_future, with_context. apply wpe_bind, wpe_gets. rewrite Hptr.
  destruct s as [f|r|]; cbn [handle_runs app] in Hm; [by destruct (Hs f)|..].
  - destruct (mid_cell _ _ _ _ _ _ _ _ Hm) as [o Ho].
    apply wpe_bind, wpe_bind, wpe_gets, wpe_bind. eapply wpe_deref; [exact Ho|].
    apply wpe_bind, wpe_modify, wpe_ret. destruct o as [v|].
    + apply wpe_bind, wpe_modify, wpe_ret. cbn [snd handle_runs app].
      pose proof (mid_drop_done w ab a d r rs ts pa v no_panic Hm Ho) as Hd.
      unfold drop_stk_future, take_result, deref, wpe, bind, gets in Hd.
      rewrite Ho in Hd. exact (proj1 Hd).
    + apply wpe_ret. cbn [snd handle_runs app].
      assert (<[r := None]> (results w) = results w) as -> by by apply insert_id.
      by destruct w.
  - by apply wpe_ret.
Qed.

Lemma mid_poll_stk w ab a d cx s rs ts pa :
  mid w ab a d (handle_runs (Some (HStk s)) ++ rs) ts pa ->
  safe (poll_stk_future task_layout cx s) w
    (fun r w' => exists ab', mid w' ab' a d (handle_runs (Some (HStk r.2)) ++ rs) ts pa).
Proof.
  intros Hm. destruct s as [f|r|].
  2,3: eapply wpe_post; [by eapply mid_poll_again|]; intros x w' Hx; by exists ab.
  pose proof (mid_ptr _ _ _ _ _ _ _ Hm) as Hptr.
  unfold poll_stk_future, with_context. apply wpe_bind, wpe_gets. rewrite Hptr.
  apply wpe_bind. eapply wpe_value; [done|]. apply wpe_bind, wp_call_any, wpe_bind, wpe_gets, wpe_bind.
  match goal with |- context [if ?b then _ else _] => destruct b end;
    (eapply wpe_post; [by eapply mid_push|]); intros [] w' (ab' & Hm'); apply wpe_ret; eauto.
Qed.

(** No poll of a running stack finds the state [Yield]. *)
Lemma poll_yield_ready w ab a d cx b rs ts pa :
  mid w ab a d rs ts pa -> poll_yield unit_value cx b w = Ok (Ready unit_value, b, w).
Proof.
  intros Hm. unfold poll_yield, with_context, bind, gets. rewrite (mid_ptr _ _ _ _ _ _ _ Hm).
  assert (Hst : state w <> Yield).
  { pose proof (mid_above _ _ _ _ _ _ _ Hm) as Hab. destruct ab as [[a1 t1]|].
    - destruct Hab as [-> _]. done.
    - by destruct Hab as [_ [->| ->]]. }
  rewrite (bool_decide_false (state w = Yield)) by done. by rewrite andb_false_r.
Qed.

Lemma mid_poll_handle w ab a d cx x rs ts pa :
  mid w ab a d (handle_runs (Some x) ++ rs) ts pa ->
  safe (poll_handle unit_value task_layout cx x) w
    (fun r w' => exists ab', mid w' ab' a d (handle_runs (Some r.2) ++ rs) ts pa).
Proof.
  intros Hm. destruct x as [s|b]; cbn [poll_handle]; apply wpe_bind.
  - eapply wpe_post; [by eapply mid_poll_stk|]. intros [p s'] w' (ab' & Hm'). apply wpe_ret. eauto.
  - eapply wpe_value; [by eapply poll_yield_ready|]. apply wpe_ret. eauto.
Qed.

Lemma mid_table w ab a d (hs : list (option (handle V))) h x rs ts pa :
  hs !! h = Some x -> mid w ab a d (runs hs ++ rs) ts pa ->
  exists R, mid w ab a d (handle_runs x ++ R) ts pa /\
    forall w' ab' y, mid w' ab' a d (handle_runs y ++ R) ts pa ->
      mid w' ab' a d (runs (<[h := y]> hs) ++ rs) ts pa.
Proof.
  intros Hx Hm. destruct (runs_split hs h x Hx) as (R & HR & Hy). exists (R ++ rs). split.
  - eapply mid_perm; [|done]. by rewrite HR, app_assoc.
  - intros w' ab' y Hm'. eapply mid_perm; [|done]. by rewrite Hy, app_assoc.
Qed.

Lemma wp_get_handle (hs : list (option (handle V))) h w (Q : handle V -> world V A -> Prop) :
  (forall x, hs !! h = Some (Some x) -> Q x w) -> safe (get_handle hs h) w Q.
Proof.
  intros HQ. unfold get_handle. destruct (hs !! h) as [[x|]|]; [|done..].
  by apply wpe_ret, HQ.
Qed.

(** Polling user code preserves the shape of the stack, whatever it does. *)
Lemma mid_exec c : forall w ab a d cx hs ts pa,
  mid w ab a d (runs hs ++ []) ts pa ->
  safe (exec unit_value task_layout cx c hs) w
    (fun r w' => exists ab', mid w' ab' a d (runs r.2 ++ []) ts pa).
Proof.
  induction c as [v|k IH|f _ k IH|k IH|h c0 k IH|h k IH|h k IH|e k IH|e k IH|m|m];
    intros w ab a d cx hs ts pa Hm; cbn [exec].
  - apply wpe_ret. eauto.
  - apply wpe_ret. eauto.
  - eapply IH. by rewrite runs_snoc.
  - eapply IH. by rewrite runs_snoc.
  - apply wpe_bind, wp_get_handle. intros x Hx.
    destruct (mid_table _ _ _ _ _ _ _ _ _ _ Hx Hm) as (R & Hm1 & Hback).
    apply wpe_bind. eapply wpe_post; [by eapply mid_poll_handle|].
    intros [p x'] w' (ab' & Hm'). eapply IH. by apply Hback.
  - apply wpe_bind, wp_get_handle. intros x Hx.
    destruct (mid_table _ _ _ _ _ _ _ _ _ _ Hx Hm) as (R & Hm1 & Hback).
    apply wpe_bind. eapply wpe_post; [by eapply mid_poll_handle|].
    intros [[v|] x'] w' (ab' & Hm').
    + apply wpe_bind. eapply wpe_post; [by eapply mid_drop_handle|].
      intros [] w2 (ab2 & Hm2). eapply IH. by apply Hback.
    + apply wpe_ret. exists ab'. by apply Hback.
  - apply wpe_bind, wp_get_handle. intros x Hx.
    destruct (mid_table _ _ _ _ _ _ _ _ _ _ Hx Hm) as (R & Hm1 & Hback).
    apply wpe_bind. eapply wpe_post; [by eapply mid_drop_handle|].
    intros [] w2 (ab2 & Hm2). eapply IH. by apply Hback.
  - apply wpe_bind, wpe_gets. eapply IH. done.
  - apply wpe_bind, wpe_gets. destruct (events w !! e).
    + by eapply IH.
    + apply wpe_ret. eauto.
  - done.
  - done.
Qed.

(** ** Driving the newest task *)

(** The invariant looks at the allocations, the counters, the cells and the
    state, and at no other field. *)
Record same_stack w w' : Prop := {
  same_alloc : allocator w' = allocator w;
  same_heap : heap w' = heap w;
  same_len : len w' = len w;
  same_state : state w' = state w;
  same_results : results w' = results w;
  same_next : next_result w' = next_result w;
}.

Lemma shape_same w w' cs : allocator w' = allocator w -> heap w' = heap w -> shape w cs -> shape w' cs.
Proof. intros Ha Hh [? ? ?]. by split; rewrite ?Ha, ?Hh. Qed.

Lemma inv_running_same w w' a t ts pa :
  same_stack w w' -> inv_running w a t ts pa -> inv_running w' a t ts pa.
Proof.
  intros [Ha Hh Hl Hst Hr Hn] []. by split; rewrite ?Hl, ?Hst, ?Hr, ?Hn; [eapply shape_same|..].
Qed.

Lemma inv_done_same w w' pa v : same_stack w w' -> inv_done w pa v -> inv_done w' pa v.
Proof.
  intros [Ha Hh Hl Hst Hr Hn] []. by split; rewrite ?Hl, ?Hst, ?Hr, ?Hn; [eapply shape_same|..].
Qed.

Lemma inv_idle_same w w' : same_stack w w' -> inv_idle w -> inv_idle w'.
Proof.
  intros [Ha Hh Hl Hst Hr Hn] []. by split; rewrite ?Hl, ?Hst, ?Hr, ?Hn; [eapply shape_same|..].
Qed.

Lemma stack_inv_same w w' : same_stack w w' -> stack_inv w -> stack_inv w'.
Proof.
  intros Hs [|pa v|a t ts pa]; [apply inv_is_idle|eapply inv_is_done|eapply inv_is_running].
  - by eapply inv_idle_same.
  - by eapply inv_done_same.
  - by eapply inv_running_same.
Qed.

(** The task was polled and stays; the state is settled. *)
Lemma mid_suspend w ab a t ts pa w' :
  mid w ab a (place t) (runs (handles t) ++ []) ts pa -> body t <> None ->
  allocator w' = allocator w -> heap w' = <[a := CTask t]> (heap w) -> len w' = len w ->
  results w' = results w -> next_result w' = next_result w -> running_state (state w') ->
  match ab with
  | None => inv_running w' a t ts pa
  | Some (a1, t1) => inv_running w' a1 t1 ((a, t) :: ts) pa
  end.
Proof.
  rewrite app_nil_r. intros [Hs Hl Hc Hcells Hab Hptr] Hb Ha Hh Hlen Hr Hn Hst.
  apply (shape_store _ _ _ _ _ (CTask t)) in Hs. apply (shape_same _ w') in Hs; [|done..].
  destruct ab as [[a1 t1]|]; cbn [above_ok above_cells] in *.
  - destruct Hab as (Hnt & Hh1 & Hb1 & r & Hp1 & Hpi).
    split; rewrite ?Hlen, ?Hr, ?Hn; try done.
    + rewrite Hl. cbn. lia.
    + rewrite Hh1. by intros r' Hr'%elem_of_nil.
    + cbn. exists r. split; [done|split; [exact Hpi|by split]].
    + rewrite Hh1, running_cons. by cbn [runs map concat app].
  - destruct Hab as [Hpi _].
    split; rewrite ?Hlen, ?Hr, ?Hn; try done.
    rewrite Hl. cbn. lia.
Qed.

Lemma mid_suspend_inv w ab a t ts pa w' :
  mid w ab a (place t) (runs (handles t) ++ []) ts pa -> body t <> None ->
  allocator w' = allocator w -> heap w' = <[a := CTask t]> (heap w) -> len w' = len w ->
  results w' = results w -> next_result w' = next_result w -> running_state (state w') ->
  stack_inv w'.
Proof.
  intros. assert (H' := mid_suspend w ab a t ts pa w'). destruct ab as [[a1 t1]|];
    eapply inv_is_running; by apply H'.
Qed.

(** A task that reported [v] to [d] is gone: the task below is the newest. *)
Definition settled w (d : dest) (v : V) (ts : list (Z * task V)) (pa : Z) : Prop :=
  match ts with
  | [] => inv_done w pa v
  | (a2, t2) :: ts' =>
      inv_running w a2 t2 ts' pa /\ exists r, d = ToCell r /\ results w !! r = Some (Some v)
  end.

Lemma settled_inv w d v ts pa : settled w d v ts pa -> stack_inv w.
Proof. destruct ts as [|[a2 t2] ts]; [apply inv_is_done|intros [? _]; by eapply inv_is_running]. Qed.

(** The task at [a] returned: once it is popped the stack is settled. *)
Definition pop_ready w (a : Z) d v ts pa : Prop :=
  exists cs, shape w ((a, CBusy) :: cs) /\
    forall w', shape w' cs -> len w' = len w + -1 -> state w' = state w ->
      results w' = results w -> next_result w' = next_result w -> settled w' d v ts pa.

(** What [finish_task] leaves alone, but for the wake up of [n]. *)
Definition woken_by (n : option Waker) : list nat :=
  match n with Some (Outside i) => [i] | Some Stub | None => [] end.

Definition finished_as w w' (n : option Waker) : Prop :=
  stack_ptr w' = stack_ptr w /\ state w' = state w /\ events w' = events w /\
  async_context w' = async_context w /\ woken w' = woken w ++ woken_by n.

Lemma wp_notify w n (Q : unit -> world V A -> Prop) E :
  Q tt (set_woken (woken w ++ woken_by n) w) ->
  wpe (match n with Some k => wake k | None => ret tt end) w Q E.
Proof.
  intros HQ. destruct n as [[|i]|]; cbn [woken_by] in HQ; rewrite ?app_nil_r in HQ.
  1,3: apply wpe_ret; by destruct w.
  by apply wpe_modify.
Qed.

Lemma mid_finish w ab a d ts pa n v E :
  mid w ab a d [] ts pa ->
  wpe (finish_task d n v) w (fun _ w' => pop_ready w' a d v ts pa /\ finished_as w w' n) E.
Proof.
  intros [Hs Hl Hc Hcells Hab Hptr]. destruct ab as [[a1 t1]|].
  { destruct Hab as (_ & _ & _ & r & _ & Hin & _). by apply elem_of_nil in Hin. }
  destruct Hab as [_ Hst]. cbn [above_cells app length] in *.
  unfold finish_task. apply wpe_bind. destruct ts as [|[a2 t2] ts]; cbn [chain_below] in Hc.
  - subst d. apply wpe_bind. eapply wp_load; [exact Hs|right; left|].
    apply wpe_modify, wp_notify. split; [|done]. exists [(pa, CPlace (Some v))]. split.
    + apply (shape_store _ [(a, CBusy)] pa (CPlace None) [] (CPlace (Some v))) in Hs.
      eapply shape_same; [..|exact Hs]; done.
    + intros w' Hs' Hl' Hst' Hr' Hn'. split; [done| | |].
      * rewrite Hl'. cbn in *. lia.
      * by rewrite Hr', Hn'.
      * by rewrite Hst'.
  - destruct Hc as (r & -> & Hpi & Hb & Hc). rewrite running_cons in Hcells. cbn [app] in Hcells.
    destruct Hpi as (Hin & Hr & Ho). apply wpe_bind, wpe_gets, wpe_bind.
    eapply wpe_deref; [exact Hr|]. apply wpe_modify, wp_notify. split; [|done].
    exists (stack_cells ((a2, t2) :: ts) pa). split; [by apply (shape_same w)|].
    intros w' Hs' Hl' Hst' Hr' Hn'.
    split; [|exists r; split; [done|rewrite Hr'; apply lookup_insert_eq]].
    split; rewrite ?Hr', ?Hn', ?Hst'; cbn; try done.
    + rewrite Hl'. cbn in *. lia.
    + intros y Hy. destruct (decide (y = r)) as [->|Hne]; [by rewrite lookup_insert_eq|].
      rewrite lookup_insert_ne by done. by apply Ho.
    + eapply chain_below_ext; [|done]. intros y Hy. rewrite lookup_insert_ne; [done|].
      intros <-. pose proof (cells_nodup _ _ _ Hcells) as Hnd.
      apply NoDup_app in Hnd as (_ & Hd & _). by apply (Hd r).
    + apply cells_ok_set; [done|]. rewrite elem_of_app. by left.
Qed.

Lemma wp_pop_ready w a t d v ts pa E :
  pop_ready w a d v ts pa -> handles t = [] ->
  wpe (do! store a (CTask t) in do! pop_task in ret (Ready false : poll bool)) w
    (fun r w' => r = Ready false /\ settled w' d v ts pa /\ finished_as w w' None) E.
Proof.
  intros (cs & Hs & Hinv) Ht. apply wpe_bind, wpe_modify, wpe_bind.
  eapply wp_pop_plain; [apply (shape_store w [] a CBusy cs (CTask t) Hs)|done|].
  intros al h w' Hw'. apply wpe_ret. split; [done|]. split; [by apply Hinv|].
  unfold finished_as. cbn. by rewrite app_nil_r.
Qed.

(** The newest task as its poll starts. *)
Lemma mid_start w a t ts pa :
  inv_running w a t ts pa -> stack_ptr w = true ->
  mid (set_heap (<[a := CBusy]> (heap w)) w) None a (place t) (runs (handles t)) ts pa.
Proof.
  intros [Hs Hl _ Htop Hc Hcells Hst] Hptr. split; try done.
  - by apply (shape_store w [] a _ _ CBusy) in Hs.
  - cbn in *. lia.
Qed.

Lemma wp_drive_task w a t ts pa cx :
  inv_running w a t ts pa -> stack_ptr w = true ->
  safe (let! r := drive_task unit_value task_layout a cx in
        match r with
        | Ready _ => do! pop_task in ret (Ready false)
        | Pending =>
            let! st := gets state in
            match st with
            | Base => ret Pending
            | Yield => do! put_state Base in ret (Ready true)
            | Cancelled => panic "stack should never be running tasks while cancelling"
            | NewTask => do! put_state Base in ret (Ready false)
            end
        end) w (fun r w' => stack_inv w' /\ r <> Ready true).
Proof.
  intros Hrun Hptr. pose proof (run_shape _ _ _ _ _ Hrun) as Hs. pose proof (run_body _ _ _ _ _ Hrun) as Hb.
  destruct (body t) as [f|] eqn:Hf; [clear Hb|done]. apply wpe_bind. unfold drive_task. apply wpe_bind.
  eapply wp_load; [exact Hs|left|]. cbn [snd]. rewrite Hf. apply wpe_bind, wpe_modify.
  assert (Hm : mid (set_heap (<[a := CBusy]> (heap w)) w) None a (place t)
            (runs (handles t) ++ []) ts pa).
  { rewrite app_nil_r. by apply mid_start. }
  apply wpe_bind. eapply wpe_post; [by eapply mid_exec|].
  intros [[v|f'] hs] w1 (ab & Hm1); cbn [snd] in Hm1.
  - apply wpe_bind. eapply wpe_post; [by eapply mid_drop_handles|]. intros [] w2 (ab2 & Hm2).
    apply wpe_bind. eapply wpe_post; [by eapply mid_finish|]. intros [] w3 [Hpop _].
    set (t' := {| body := None; handles := []; place := place t; notify := notify t |}).
    refine (wpe_post _ w3 _ _ any_panic (wp_pop_ready w3 a t' _ _ _ _ any_panic Hpop eq_refl) _).
    intros r w4 (-> & Hset & _). split; [by eapply settled_inv|done].
  - apply wpe_bind, wpe_modify, wpe_ret, wpe_bind, wpe_gets.
    set (t' := {| body := Some f'; handles := hs; place := place t; notify := notify t |}).
    assert (Hsusp := mid_suspend_inv w1 ab a t' ts pa).
    assert (Hst1 : running_state (state w1)).
    { pose proof (mid_above _ _ _ _ _ _ _ Hm1) as Hab. destruct ab as [[a1 t1]|].
      - right. by destruct Hab.
      - by destruct Hab. }
    cbn [state set_heap]. destruct Hst1 as [Hst1|Hst1]; rewrite Hst1.
    + apply wpe_ret. split; [|done]. apply Hsusp; try done. by left.
    + apply wpe_bind, wpe_modify, wpe_ret. split; [|done]. apply Hsusp; try done. by left.
Qed.

Lemma wp_enter_context {B} (c : M (world V A) B) w (Q : B -> world V A -> Prop) E :
  wpe c (set_stack_ptr true w) (fun b w' => Q b (set_stack_ptr (stack_ptr w) w')) E ->
  wpe (enter_context c) w Q E.
Proof.
  intros Hc. apply wpe_bind, wpe_gets, wpe_bind, wpe_modify, wpe_bind.
  eapply wpe_post; [exact Hc|]. intros b w' HQ. by apply wpe_bind, wpe_modify, wpe_ret.
Qed.

Lemma wp_drive_top w a t ts pa cx :
  inv_running w a t ts pa ->
  safe (drive_top_task unit_value task_layout cx) w
    (fun r w' => stack_inv w' /\ stack_ptr w' = stack_ptr w /\ r <> Ready true).
Proof.
  intros Hi. apply wp_enter_context. apply wpe_bind.
  assert (Hi' : inv_running (set_stack_ptr true w) a t ts pa).
  { destruct Hi. split; try done. by apply (shape_same w). }
  eapply wp_top_task; [exact (run_shape _ _ _ _ _ Hi')|].
  eapply wpe_post; [by eapply wp_drive_task|]. intros b w' [Hw' Hb].
  split; [by apply (stack_inv_same w')|done].
Qed.

(** ** Results *)
Lemma wp_try_get_result w :
  stack_inv w ->
  wp try_get_result w (fun o w' =>
    match o with
    | Some v => inv_idle w' /\ (exists pa, inv_done w pa v) /\ stack_ptr w' = stack_ptr w /\
        events w' = events w
    | None => w' = w /\ (inv_idle w \/ exists a t ts pa, inv_running w a t ts pa)
    end).
Proof.
  intros Hinv. unfold try_get_result. apply wpe_bind, wpe_gets. inversion Hinv as [Hi|pa v Hi|a t ts pa Hi]; subst.
  - rewrite (idle_len _ Hi). apply wpe_ret. eauto.
  - rewrite (done_len _ _ _ Hi). cbn. pose proof Hi as [Hs Hl Hcells Hst].
    apply wpe_bind. eapply wp_top_task; [exact Hs|]. apply wpe_bind. unfold take_place.
    apply wpe_bind. eapply wp_load; [exact Hs|left|].
    apply wpe_bind, wpe_modify, wpe_ret, wpe_bind, wpe_assert_true; [done|].
    pose proof (shape_store w [] pa _ [] (CPlace None) Hs) as Hs'.
    apply wpe_bind, wpe_modify, wpe_bind. eapply wp_pop; [by eapply shape_free|].
    intros al Hs2. apply wpe_bind, wpe_modify, wpe_ret. split; [split; [by destruct Hs2|done..]|]. split; [by exists pa|done].
  - rewrite (run_len _ _ _ _ _ Hi). rewrite (proj2 (Z.eqb_neq _ _)) by lia. apply wpe_ret. eauto 10.
Qed.

(** ** Clearing *)

(** Dropping futures in state [Cancelled] only frees their cells. *)
Lemma wp_drop_handle_cancelled x w rs (pct : M (world V A) unit) :
  cells_ok (results w) (next_result w) (handle_runs x ++ rs) ->
  state w = Cancelled -> stack_ptr w = true ->
  wp (drop_handle pct x) w (fun _ w' => exists res,
    w' = set_results res (next_result w) w /\ cells_ok res (next_result w) rs).
Proof.
  intros Hc Hst Hptr.
  destruct x as [[[f|r|]|b]|]; cbn [handle_runs app] in Hc.
  all: try by (apply wpe_ret; exists (results w); destruct w).
  assert (Hr : is_Some (results w !! r)) by (apply (cells_dom _ _ _ Hc); left). destruct Hr as [o Ho].
  apply wpe_bind, wpe_bind, wpe_gets, wpe_bind. eapply wpe_deref; [exact Ho|].
  apply wpe_bind, wpe_modify, wpe_ret.
  assert (Hc' : cells_ok (delete r (<[r := None]> (results w))) (next_result w) rs).
  { apply cells_ok_free, cells_ok_set; [done|left]. }
  apply wpe_bind. destruct o as [v|]; [by apply wpe_ret, wpe_modify; eauto|].
  apply wpe_bind, wpe_gets. cbn [stack_ptr set_results]. rewrite Hptr.
  apply wpe_bind, wpe_gets. cbn [state set_results]. rewrite Hst, bool_decide_false by auto.
  apply wpe_ret, wpe_modify. eauto.
Qed.

Lemma wp_drop_handles_cancelled hs (pct : M (world V A) unit) : forall w rs,
  cells_ok (results w) (next_result w) (runs hs ++ rs) ->
  state w = Cancelled -> stack_ptr w = true ->
  wp (drop_handles pct hs) w (fun _ w' => exists res,
    w' = set_results res (next_result w) w /\ cells_ok res (next_result w) rs).
Proof.
  induction hs as [|x hs IH]; intros w rs Hc Hst Hptr; cbn [drop_handles].
  - apply wpe_ret. exists (results w). by destruct w.
  - apply wpe_bind. eapply wpe_post.
    + apply (IH w (handle_runs x ++ rs)); [|done..]. eapply cells_ok_perm; [|done].
      unfold runs. cbn. solve_Permutation.
    + intros [] w' (res & -> & Hc'). eapply wpe_post; [by apply wp_drop_handle_cancelled|].
      cbn. intros [] w' (res' & -> & Hc''). by exists res'.
Qed.

Lemma wp_clear_tasks ts pa c : forall w,
  shape w (map task_cell ts ++ [(pa, c)]) -> cells_ok (results w) (next_result w) (running ts) ->
  state w = Cancelled -> stack_ptr w = true ->
  wp (clear_tasks (length ts)) w (fun _ w' => shape w' [(pa, c)] /\
    cells_ok (results w') (next_result w') []).
Proof.
  induction ts as [|[a t] ts IH]; intros w Hs Hc Hst Hptr; cbn [length clear_tasks].
  { by apply wpe_ret. }
  apply wpe_bind. eapply wp_top_task; [exact Hs|]. apply wpe_bind. unfold drop_task_inline.
  apply wpe_bind. eapply wp_load; [exact Hs|left|]. cbn [snd].
  apply wpe_bind, wpe_modify, wpe_bind.
  eapply wpe_post; [by apply (wp_drop_handles_cancelled _ _ _ (running ts))|]. intros [] w' (res & -> & Hc').
  apply wpe_modify, wpe_bind.
  pose proof (shape_free _ _ _ _ (shape_store w [] a _ _ CBusy Hs)) as Hs'.
  eapply wp_pop; [destruct Hs'; by split|]. intros al Hs2. by apply IH.
Qed.

(** A stack with tasks [ts] over the place [pa]; the state does not matter. *)
Record inv_mem w (ts : list (Z * task V)) (pa : Z) : Prop := {
  mem_shape : exists o, shape w (map task_cell ts ++ [(pa, CPlace o)]);
  mem_len : len w = Z.of_nat (1 + length ts);
  mem_cells : cells_ok (results w) (next_result w) (running ts);
}.

Lemma stack_inv_mem w :
  stack_inv w -> inv_idle w \/ exists ts pa, inv_mem w ts pa.
Proof.
  intros [Hi|pa v [Hs ? ? ?]|a t ts pa [Hs ? ? ? ? ? ?]]; [by left|right..].
  - exists [], pa. split; [by exists (Some v)|done..].
  - exists ((a, t) :: ts), pa. split; [by exists None|done..].
Qed.

Lemma wp_clear_mem w ts pa needs_drop :
  inv_mem w ts pa ->
  wp (clear needs_drop) w (fun _ w' => inv_idle w' /\ state w' = Base).
Proof.
  intros [[o Hs] Hl Hc]. unfold clear. apply wpe_bind, wpe_gets.
  rewrite (proj2 (Z.eqb_neq _ _)) by lia.
  apply wpe_bind, wpe_modify, wpe_bind, wp_enter_context.
  replace (Z.to_nat (len w - 1)) with (length ts) by lia.
  eapply wpe_post; [eapply wp_clear_tasks; try done; destruct Hs; by split|].
  intros [] w' [Hs' Hc'].
  apply wpe_bind. eapply wp_top_task; [destruct Hs'; by split|].
  set (w1 := set_stack_ptr _ _). assert (Hs1 : shape w1 [(pa, CPlace o)]) by (destruct Hs'; by split).
  assert (Hend : forall w2, shape w2 [(pa, CPlace None)] \/ shape w2 [(pa, CPlace o)] ->
    cells_ok (results w2) (next_result w2) [] ->
    wp (do! free pa in do! on_alloc sa_pop in do! modify (set_len 0) in put_state Base) w2
      (fun _ w' => inv_idle w' /\ state w' = Base)).
  { intros w2 Hs2 Hc2. apply wpe_bind, wpe_modify, wpe_bind.
    eapply wp_pop; [by destruct Hs2; eapply shape_free|]. intros al Hs3.
    apply wpe_bind, wpe_modify, wpe_modify. split; [|done].
    split; [by destruct Hs3|done..|by left]. }
  apply wpe_bind. destruct (needs_drop && _)%bool.
  - unfold take_place. apply wpe_bind, wpe_bind. eapply wp_load; [exact Hs1|left|].
    apply wpe_bind, wpe_modify, wpe_ret, wpe_ret, Hend; [|done]. left.
    by apply (shape_store w1 [] pa _ [] (CPlace None)) in Hs1.
  - apply wpe_ret, Hend; [by right|done].
Qed.

(** ** Runners *)
Lemma wp_drop_runner w needs_drop :
  stack_inv w -> wp (drop_runner needs_drop) w (fun _ w' => inv_idle w' /\ state w' = Base).
Proof.
  intros Hinv. unfold drop_runner. apply wpe_bind, wpe_modify, wpe_bind.
  destruct (stack_inv_mem w Hinv) as [Hi|(ts & pa & Hm)].
  - unfold clear. apply wpe_bind, wpe_gets. cbn [len set_state]. rewrite (idle_len _ Hi).
    apply wpe_ret, wpe_modify. split; [|done]. destruct Hi as [Hs Hl Hc Hst].
    split; [by destruct Hs|done..|by left].
  - eapply wpe_post.
    + apply (wp_clear_mem _ ts pa). destruct Hm as [[o Hs] Hl Hc].
      split; [exists o; by destruct Hs|done..].
    + intros [] w' [[Hs Hl Hc Hst] _]. apply wpe_modify. split; [|done].
      split; [by destruct Hs|done..|by left].
Qed.

Lemma wp_enter w f :
  inv_idle w -> callable f ->
  wpe (enter place_layout task_layout f) w
    (fun _ w' => exists a pa,
       inv_running w' a {| body := Some f; handles := []; place := ToPlace pa; notify := None |} [] pa
       /\ results w' = results w /\ state w' = state w /\ stack_ptr w' = stack_ptr w
       /\ events w' = events w /\ next_result w' = next_result w /\ woken w' = woken w) sa_fail.
Proof.
  intros [Hs Hl Hc Hst] Hf. apply wpe_bind, wp_call; [done|]. unfold enter_future.
  apply wpe_bind, wpe_gets. rewrite Hl.
  apply wpe_bind, wpe_assert_true; [done|]. apply wpe_bind.
  eapply wp_push; [exact Hs|done|done|]. intros pa al Hs1. specialize (Hs1 (CPlace None)).
  apply wpe_bind, wpe_modify, wpe_bind, wpe_modify, wpe_bind, wpe_bind.
  eapply wp_push; [destruct Hs1; by split|done|done|]. intros a al2 Hs2.
  apply wpe_bind, wpe_modify, wpe_bind, wpe_modify, wpe_ret, wpe_ret. exists a, pa.
  split; [|by destruct w]. set (t := {| body := _ |}). specialize (Hs2 (CTask t)).
  split; try done; [by destruct Hs2|]. by intros r Hr%elem_of_nil.
Qed.
End safe.
