(* ===== verification/StackEval.v ===== *)
(** * Recursive programs on the stack

    The futures of ordinary recursive code: every future made is awaited at
    once.  [prog] is that fragment, [eval] its meaning as a recursive function,
    and the runtime is shown to refine the machine [astep], which steps a
    program with an explicit stack of continuations. *)

From S2P Require Import Prelude Ptr StackAlloc Stack Runner StackInv StackSafe.

Section prog.
Context {V : Type}.

(** [async] code: a value, [stk.run(p).await], [stk.yield_now().await], the
    [await] of a future of an outside runtime, or a panic. *)
Inductive prog : Type :=
| PRet (v : V)
| PRun (p : prog) (k : V -> prog)
| PYield (k : prog)
| PAwait (e : nat) (k : V -> prog)
| PThrow (m : string).

Fixpoint compile (p : prog) : code V :=
  match p with
  | PRet v => Ret v
  | PRun q k => Run (compile q) (fun h => Await h (fun v => compile (k v)))
  | PYield k => YieldNow (fun h => Await h (fun _ => compile k))
  | PAwait e k => AwaitOutside e (fun v => compile (k v))
  | PThrow m => Throw m
  end.

Lemma compile_callable p : callable (compile p).
Proof. by destruct p. Qed.

(** The recursive function the program is: [None] if it waits for an event
    that has not happened, or panics. *)
Fixpoint eval (ev : gmap nat V) (p : prog) : option V :=
  match p with
  | PRet v => Some v
  | PRun q k => v ← eval ev q; eval ev (k v)
  | PYield k => eval ev k
  | PAwait e k => v ← ev !! e; eval ev (k v)
  | PThrow _ => None
  end.

(** The panic it ends with, if it does. *)
Fixpoint throws (ev : gmap nat V) (p : prog) : option string :=
  match p with
  | PRet _ => None
  | PRun q k =>
      match throws ev q with
      | Some m => Some m
      | None => v ← eval ev q; throws ev (k v)
      end
  | PYield k => throws ev k
  | PAwait e k => v ← ev !! e; throws ev (k v)
  | PThrow m => Some m
  end.

(** The number of polls of tasks the evaluation takes. *)
Fixpoint cost (ev : gmap nat V) (p : prog) : nat :=
  match p with
  | PRet _ => 1
  | PRun q k => 1 + cost ev q + match eval ev q with Some v => cost ev (k v) | None => 0 end
  | PYield k => cost ev k
  | PAwait e k => match ev !! e with Some v => cost ev (k v) | None => 1 end
  | PThrow _ => 1
  end.

(** What one poll of a program does: it returns, calls, waits, or panics. *)
Inductive action :=
| AFin (v : V)
| APush (q : prog) (k : V -> prog)
| ABlock (e : nat) (k : V -> prog)
| APanic (m : string).

Fixpoint go (ev : gmap nat V) (p : prog) : action :=
  match p with
  | PRet v => AFin v
  | PRun q k => APush q k
  | PYield k => go ev k
  | PAwait e k => match ev !! e with Some v => go ev (k v) | None => ABlock e k end
  | PThrow m => APanic m
  end.
Definition panics (ev : gmap nat V) (p : prog) : option string :=
  match go ev p with APanic m => Some m | AFin _ | APush _ _ | ABlock _ _ => None end.

(** ** The abstract machine *)
Inductive conf :=
| CRun (p : prog) (ks : list (V -> prog))
| CBack (v : V) (k : V -> prog) (ks : list (V -> prog))
| CDone (v : V).

(** [aborts] tells the configurations whose next poll panics; the machine does not
    leave them. *)
Definition resume (ev : gmap nat V) (p : prog) (ks : list (V -> prog)) : poll bool * conf :=
  match go ev p with
  | AFin v => (Ready false, match ks with [] => CDone v | k :: ks => CBack v k ks end)
  | APush q k => (Ready false, CRun q (k :: ks))
  | ABlock e k => (Pending, CRun (PAwait e k) ks)
  | APanic m => (Pending, CRun (PThrow m) ks)
  end.

Definition astep (ev : gmap nat V) (c : conf) : poll bool * conf :=
  match c with
  | CRun p ks => resume ev p ks
  | CBack v k ks => resume ev (k v) ks
  | CDone v => (Ready false, CDone v)
  end.

Definition aborts (ev : gmap nat V) (c : conf) : option string :=
  match c with
  | CRun p _ => panics ev p
  | CBack v k _ => panics ev (k v)
  | CDone _ => None
  end.

(** The value of a configuration, the panic it ends with, and the polls left. *)
Fixpoint eval_frames (ev : gmap nat V) (o : option V) (ks : list (V -> prog)) : option V :=
  match ks with
  | [] => o
  | k :: ks => eval_frames ev (v ← o; eval ev (k v)) ks
  end.
Fixpoint throws_frames (ev : gmap nat V) (t : option string) (o : option V) (ks : list (V -> prog))
  : option string :=
  match ks with
  | [] => t
  | k :: ks =>
      throws_frames ev (match t with Some m => Some m | None => v ← o; throws ev (k v) end)
        (v ← o; eval ev (k v)) ks
  end.
Fixpoint cost_frames (ev : gmap nat V) (o : option V) (ks : list (V -> prog)) : nat :=
  match ks with
  | [] => 0
  | k :: ks =>
      match o with
      | Some v => cost ev (k v) + cost_frames ev (eval ev (k v)) ks
      | None => 0
      end
  end.
Definition eval_conf (ev : gmap nat V) (c : conf) : option V :=
  match c with
  | CRun p ks => eval_frames ev (eval ev p) ks
  | CBack v k ks => eval_frames ev (eval ev (k v)) ks
  | CDone v => Some v
  end.
Definition throws_conf (ev : gmap nat V) (c : conf) : option string :=
  match c with
  | CRun p ks => throws_frames ev (throws ev p) (eval ev p) ks
  | CBack v k ks => throws_frames ev (throws ev (k v)) (eval ev (k v)) ks
  | CDone v => None
  end.
Definition cost_conf (ev : gmap nat V) (c : conf) : nat :=
  match c with
  | CRun p ks => cost ev p + cost_frames ev (eval ev p) ks
  | CBack v k ks => cost ev (k v) + cost_frames ev (eval ev (k v)) ks
  | CDone v => 0
  end.

(** The tasks alive in a configuration. *)
Definition frames (c : conf) : nat :=
  match c with
  | CRun _ ks => S (length ks)
  | CBack _ _ ks => S (length ks)
  | CDone _ => 0
  end.

Lemma eval_frames_none ev ks : eval_frames ev None ks = None.
Proof. by induction ks. Qed.

(** A step keeps the value; a step that does not wait makes progress. *)
Lemma resume_eval ev ev' p ks :
  ev ⊆ ev' -> eval_conf ev' (resume ev p ks).2 = eval_frames ev' (eval ev' p) ks.
Proof.
  intros Hev. unfold resume. induction p as [v|q _ k _|k IH|e k IH|m]; cbn [go eval].
  - by destruct ks as [|k ks].
  - done.
  - exact IH.
  - destruct (ev !! e) as [v|] eqn:He; [|done].
    rewrite (lookup_weaken _ _ _ _ He Hev). apply IH.
  - done.
Qed.

Lemma astep_eval ev ev' c : ev ⊆ ev' -> eval_conf ev' (astep ev c).2 = eval_conf ev' c.
Proof. intros Hev. destruct c as [p ks|v k ks|v]; cbn [astep]; [by apply resume_eval..|done]. Qed.

Lemma resume_cost ev p ks :
  let r := resume ev p ks in
  (cost ev p + cost_frames ev (eval ev p) ks)%nat =
    if is_pending r.1 then 1%nat else S (cost_conf ev r.2).
Proof.
  unfold resume. induction p as [v|q _ k _|k IH|e k IH|m]; cbn [go eval cost].
  - by destruct ks as [|k ks].
  - cbn. destruct (eval ev q) as [v|]; cbn; [lia|]. destruct ks; cbn; lia.
  - exact IH.
  - destruct (ev !! e) as [v|] eqn:He; [apply IH|]. cbn. by destruct ks.
  - cbn. by destruct ks.
Qed.

Lemma resume_pending ev p ks :
  is_pending (resume ev p ks).1 = true -> eval ev p = None.
Proof.
  unfold resume. induction p as [v|q _ k _|k IH|e k IH|m]; cbn [go eval]; [done..| | |done].
  - exact IH.
  - destruct (ev !! e) as [v|] eqn:He; [apply IH|done].
Qed.

Lemma astep_cost ev c :
  (forall v, c <> CDone v) -> is_pending (astep ev c).1 = false ->
  cost_conf ev c = S (cost_conf ev (astep ev c).2).
Proof.
  intros Hd Hp. destruct c as [p ks|v k ks|v]; [| |by destruct (Hd v)].
  - pose proof (resume_cost ev p ks) as H. cbn in *. by rewrite Hp in H.
  - pose proof (resume_cost ev (k v) ks) as H. cbn in *. by rewrite Hp in H.
Qed.

Lemma astep_pending ev c :
  is_pending (astep ev c).1 = true -> eval_conf ev c = None.
Proof.
  destruct c as [p ks|v k ks|v]; cbn; [intros ->%resume_pending..|done]; apply eval_frames_none.
Qed.

(** ** Panics *)
Lemma throws_eval ev p m : throws ev p = Some m -> eval ev p = None.
Proof.
  induction p as [v|q IHq k IHk|k IH|e k IH|m']; cbn [throws eval]; [done| |done| |done].
  - destruct (throws ev q) as [m'|]; [intros Hm; by rewrite IHq|].
    destruct (eval ev q) as [u|]; cbn; [apply IHk|done].
  - destruct (ev !! e) as [u|]; cbn; [apply IH|done].
Qed.

Lemma throws_frames_some ev m o ks : throws_frames ev (Some m) o ks = Some m.
Proof. revert o. by induction ks as [|k ks IH]; intros o; cbn. Qed.

Lemma throws_frames_none ev ks : throws_frames ev None None ks = None.
Proof. by induction ks as [|k ks IH]; cbn. Qed.

Lemma throws_conf_eval ev c m : throws_conf ev c = Some m -> eval_conf ev c = None.
Proof.
  assert (H : forall ks t o, (forall m, t = Some m -> o = None) ->
    throws_frames ev t o ks = Some m -> eval_frames ev o ks = None).
  { induction ks as [|k ks IH]; intros t o Ho; cbn; [apply Ho|]. apply IH.
    intros m'. destruct t as [x|]; [by rewrite (Ho x)|]. destruct o as [v|]; [apply throws_eval|done]. }
  destruct c as [p ks|v k ks|v]; cbn; [apply H..|done]; intros; by eapply throws_eval.
Qed.

(** A poll that panics does so with the panic the program ends with. *)
Lemma panics_throws ev p m : panics ev p = Some m -> throws ev p = Some m.
Proof.
  unfold panics. induction p as [v|q _ k _|k IH|e k IH|m']; cbn [go throws]; [done..|done| |].
  - destruct (ev !! e) as [u|]; cbn; [apply IH|done].
  - by intros [= ->].
Qed.

Lemma aborts_throws ev c m : aborts ev c = Some m -> throws_conf ev c = Some m.
Proof.
  destruct c as [p ks|v k ks|v]; cbn; [intros Hp..|done]; rewrite (panics_throws _ _ _ Hp);
    apply throws_frames_some.
Qed.

(** A step that does not panic keeps the panic the configuration ends with, and
    one that waits has none. *)
Lemma resume_throws ev ev' p ks :
  ev ⊆ ev' -> throws_conf ev' (resume ev p ks).2 = throws_frames ev' (throws ev' p) (eval ev' p) ks.
Proof.
  intros Hev. unfold resume. induction p as [v|q _ k _|k IH|e k IH|m]; cbn [go throws eval].
  - by destruct ks as [|k ks].
  - done.
  - exact IH.
  - destruct (ev !! e) as [v|] eqn:He; [|done]. rewrite (lookup_weaken _ _ _ _ He Hev). apply IH.
  - done.
Qed.

Lemma astep_throws ev ev' c : ev ⊆ ev' -> throws_conf ev' (astep ev c).2 = throws_conf ev' c.
Proof. intros Hev. destruct c as [p ks|v k ks|v]; [by apply resume_throws..|done]. Qed.

Lemma resume_waits ev p ks m :
  is_pending (resume ev p ks).1 = true -> throws ev p = Some m -> panics ev p = Some m.
Proof.
  unfold resume, panics. induction p as [v|q _ k _|k IH|e k IH|m']; cbn [go throws]; [by destruct ks|done| | |].
  - exact IH.
  - destruct (ev !! e) as [v|]; cbn; [apply IH|done].
  - done.
Qed.

Lemma astep_waits ev c m :
  is_pending (astep ev c).1 = true -> throws_conf ev c = Some m -> aborts ev c = Some m.
Proof.
  assert (H : forall p ks, is_pending (resume ev p ks).1 = true ->
    throws_frames ev (throws ev p) (eval ev p) ks = Some m -> panics ev p = Some m).
  { intros p ks Hp Hm. apply (resume_waits ev p ks); [done|].
    destruct (throws ev p) as [m'|] eqn:Ht; [by rewrite throws_frames_some in Hm|].
    by rewrite (resume_pending ev p ks Hp), throws_frames_none in Hm. }
  destruct c as [p ks|v k ks|v]; cbn; [apply H..|done].
Qed.

Lemma cost_pos ev p : (0 < cost ev p)%nat.
Proof.
  induction p as [v|q _ k _|k IH|e k IH|m]; cbn [cost]; [lia..|done| |lia].
  destruct (ev !! e); [done|lia].
Qed.

Lemma cost_conf_pos ev c : eval_conf ev c = None -> (0 < cost_conf ev c)%nat.
Proof.
  destruct c as [p ks|v k ks|v]; cbn [eval_conf cost_conf]; [intros _..|done].
  - pose proof (cost_pos ev p). lia.
  - pose proof (cost_pos ev (k v)). lia.
Qed.

(** ** More events: values stay, and the work left only shrinks by steps *)
Section more.
Context (ev ev' : gmap nat V) (Hev : ev ⊆ ev').

Lemma eval_mono p v : eval ev p = Some v -> eval ev' p = Some v.
Proof.
  revert v. induction p as [v'|q IHq k IHk|k IH|e k IH|m]; intros v; cbn [eval]; [done| |auto| |done].
  - destruct (eval ev q) as [u|]; [|done]. rewrite (IHq u eq_refl). apply IHk.
  - destruct (ev !! e) as [u|] eqn:He; [|done]. rewrite (lookup_weaken _ _ _ _ He Hev). apply IH.
Qed.

Lemma eval_frames_mono ks o o' v :
  (forall u, o = Some u -> o' = Some u) ->
  eval_frames ev o ks = Some v -> eval_frames ev' o' ks = Some v.
Proof.
  revert o o'. induction ks as [|k ks IH]; intros o o' Ho; cbn [eval_frames]; [apply Ho|].
  apply IH. intros u. destruct o as [x|]; [|done]. rewrite (Ho x eq_refl). apply eval_mono.
Qed.

Lemma eval_conf_mono c v : eval_conf ev c = Some v -> eval_conf ev' c = Some v.
Proof.
  destruct c as [p ks|u k ks|u]; cbn [eval_conf]; [apply eval_frames_mono..|done]; apply eval_mono.
Qed.

Lemma cost_mono p : (cost ev p <= cost ev' p)%nat.
Proof.
  induction p as [v'|q IHq k IHk|k IH|e k IH|m]; cbn [cost]; [lia| |done| |lia].
  - destruct (eval ev q) as [u|] eqn:Hq; [rewrite (eval_mono q u Hq); specialize (IHk u)|]; lia.
  - destruct (ev !! e) as [u|] eqn:He; [by rewrite (lookup_weaken _ _ _ _ He Hev)|].
    destruct (ev' !! e) as [u|]; [apply cost_pos|lia].
Qed.

Lemma resume_cost_le p ks :
  (cost_conf ev' (resume ev p ks).2 <= cost ev' p + cost_frames ev' (eval ev' p) ks)%nat.
Proof.
  unfold resume. induction p as [v|q _ k _|k IH|e k IH|m]; cbn [go eval cost].
  - destruct ks as [|k ks]; cbn; lia.
  - cbn. destruct (eval ev' q) as [v|]; cbn; [lia|]. destruct ks; cbn; lia.
  - exact IH.
  - destruct (ev !! e) as [v|] eqn:He; [|done].
    rewrite (lookup_weaken _ _ _ _ He Hev). apply IH.
  - done.
Qed.

Lemma astep_cost_le c : (cost_conf ev' (astep ev c).2 <= cost_conf ev' c)%nat.
Proof. destruct c as [p ks|v k ks|v]; cbn [astep]; [apply resume_cost_le..|done]. Qed.

Lemma throws_mono p m : throws ev p = Some m -> throws ev' p = Some m.
Proof.
  induction p as [v'|q IHq k IHk|k IH|e k IH|m']; cbn [throws]; [done| |auto| |done].
  - destruct (throws ev q) as [m'|] eqn:Hq; [intros Hm; by rewrite (IHq Hm)|].
    destruct (eval ev q) as [u|] eqn:Hu; [|done]. cbn. intros Hm. pose proof (eval_mono q u Hu) as Hu'.
    destruct (throws ev' q) as [m'|] eqn:Hq'; [by rewrite (throws_eval _ _ _ Hq') in Hu'|].
    rewrite Hu'. by apply IHk.
  - destruct (ev !! e) as [u|] eqn:He; [|done]. rewrite (lookup_weaken _ _ _ _ He Hev). apply IH.
Qed.

Lemma throws_frames_mono ks : forall t t' o o' m,
  (forall m, t = Some m -> t' = Some m) -> (forall v, o = Some v -> o' = Some v /\ t' = None) ->
  throws_frames ev t o ks = Some m -> throws_frames ev' t' o' ks = Some m.
Proof.
  induction ks as [|k ks IH]; intros t t' o o' m Ht Ho; cbn [throws_frames]; [apply Ht|].
  apply IH.
  - intros m'. destruct t as [x|]; [intros [= ->]; by rewrite (Ht m' eq_refl)|].
    destruct o as [v|]; [|done]. destruct (Ho v eq_refl) as [-> ->]. apply throws_mono.
  - intros v. destruct o as [u|]; [|done]. destruct (Ho u eq_refl) as [-> ->]. cbn. intros Hv.
    rewrite (eval_mono _ _ Hv). split; [done|].
    destruct (throws ev' (k u)) as [m'|] eqn:Hm; [|done]. pose proof (eval_mono _ _ Hv) as Hv'.
    by rewrite (throws_eval _ _ _ Hm) in Hv'.
Qed.

Lemma throws_conf_mono c m : throws_conf ev c = Some m -> throws_conf ev' c = Some m.
Proof.
  assert (H : forall p v, eval ev p = Some v -> eval ev' p = Some v /\ throws ev' p = None).
  { intros p v Hv. pose proof (eval_mono p v Hv) as Hv'. split; [done|].
    destruct (throws ev' p) as [m'|] eqn:Hm; [|done]. by rewrite (throws_eval _ _ _ Hm) in Hv'. }
  destruct c as [p ks|v k ks|v]; cbn; [apply throws_frames_mono..|done]; try apply H; intros; by apply throws_mono.
Qed.
End more.
End prog.

Arguments prog V : clear implicits.
Arguments conf V : clear implicits.
Arguments action V : clear implicits.

(** [stack.enter(p).finish()] *)
Definition enter_finish {V} (unit_value : V) {A} `{!StackAlloc A}
    (place_layout : Layout) (task_layout : code V -> Layout)
    (p : prog V) (fuel : nat) (addr : Z) (needs_drop : bool) : M (world V A) (option V) :=
  do! enter place_layout task_layout (compile p) in
  finish unit_value task_layout fuel addr needs_drop.
