(* ===== verification/RunnerSafe.v ===== *)
(** * Sequences of runner operations

    Every sequence of calls a program can make on one stack keeps the invariant
    of [StackInv]. *)

From S2P Require Import Prelude Ptr StackAlloc Stack Runner StackInv StackSafe.

(** What the owner of a stack can do with it and its runners.  [Leak] forgets a
    runner ([mem::forget]); [Event] is something outside happening. *)
Inductive op (V : Type) : Type :=
| Enter (f : code V)
| Step (addr : Z)
| Finish (fuel : nat) (addr : Z) (needs_drop : bool)
| PollStep (cx : Context)
| PollFinish (fuel : nat) (cx : Context)
| DropRunner (needs_drop : bool)
| Leak
| Event (e : nat) (v : V)
| DropStack.
Arguments Enter {V} f.
Arguments Step {V} addr.
Arguments Finish {V} fuel addr needs_drop.
Arguments PollStep {V} cx.
Arguments PollFinish {V} fuel cx.
Arguments DropRunner {V} needs_drop.
Arguments Leak {V}.
Arguments Event {V} e v.
Arguments DropStack {V}.

Section runner_safe.
Context {V : Type} (unit_value : V) {A : Type} `{!StackAlloc A}.
Context (place_layout : Layout) (task_layout : code V -> Layout).

Definition discard {B} (c : M (world V A) B) : M (world V A) unit := let! _ := c in ret tt.

Definition run_op (o : op V) : M (world V A) unit :=
  match o with
  | Enter f => enter place_layout task_layout f
  | Step addr => discard (step unit_value task_layout addr)
  | Finish fuel addr nd => discard (finish unit_value task_layout fuel addr nd)
  | PollStep cx => discard (poll_step unit_value task_layout cx)
  | PollFinish fuel cx => discard (poll_finish unit_value task_layout fuel cx)
  | DropRunner nd => drop_runner nd
  | Leak => ret tt
  | Event e v => modify (fun w => set_events (<[e := v]> (events w)) w)
  | DropStack => drop_stack
  end.

Fixpoint run_ops (os : list (op V)) : M (world V A) unit :=
  match os with
  | [] => ret tt
  | o :: os => do! run_op o in run_ops os
  end.

Context (Hplace : sa_layout place_layout) (Htask : forall f, sa_layout (task_layout f)).
Implicit Types w : world V A.

(** An idle stack has no task to drive. *)
Lemma drive_idle w cx :
  inv_idle w -> drive_top_task unit_value task_layout cx w = Panic "called `Option::unwrap()` on a `None` value".
Proof.
  intros [[(L & HL & Hm) _ _] _ _ _]. destruct L; [|done].
  unfold drive_top_task, enter_context, bind, gets, modify, top_task, bind, on_alloc. cbn.
  by rewrite (sa_top_ok _ _ HL).
Qed.

Lemma wp_drive w cx :
  stack_inv w -> (inv_idle w \/ exists a t ts pa, inv_running w a t ts pa) ->
  safe (drive_top_task unit_value task_layout cx) w
    (fun r w' => stack_inv w' /\ stack_ptr w' = stack_ptr w /\ r <> Ready true).
Proof.
  intros _ [Hi|(a & t & ts & pa & Hi)].
  - unfold wpe. by rewrite drive_idle.
  - by eapply wp_drive_top.
Qed.

Lemma stack_inv_context w c : stack_inv w -> stack_inv (set_async_context c w).
Proof. by apply stack_inv_same. Qed.

Lemma wp_drive_in_context w c cx :
  stack_inv w -> (inv_idle w \/ exists a t ts pa, inv_running w a t ts pa) ->
  safe (drive_top_task unit_value task_layout cx) (set_async_context c w)
    (fun r w' => stack_inv w' /\ r <> Ready true).
Proof.
  intros Hi Hrun. eapply wpe_post; [apply wp_drive|].
  - by apply stack_inv_context.
  - destruct Hrun as [[]|(a & t & ts & pa & [])]; [left|right; exists a, t, ts, pa].
    all: split; try done; by apply (shape_same w).
  - by intros r w' (? & ? & ?).
Qed.

Lemma inv_idle_running w : inv_idle w \/ (exists a t ts pa, inv_running w a t ts pa) -> stack_inv w.
Proof. intros [|(a & t & ts & pa & ?)]; [by apply inv_is_idle|by eapply inv_is_running]. Qed.

Lemma wp_step w addr :
  stack_inv w -> safe (step unit_value task_layout addr) w (fun _ w' => stack_inv w').
Proof.
  intros Hi. apply wpe_bind. eapply wpe_mono; [by apply wp_try_get_result| |done].
  intros [v|] w'; [intros [? _]; by apply wpe_ret, inv_is_idle|intros [-> Hrun]].
  apply wpe_bind, wpe_bind, wpe_gets, wpe_bind, wpe_modify, wpe_ret, wpe_bind.
  eapply wpe_post; [by eapply wp_drive_in_context|]. intros r w2 [Hi2 _].
  apply wpe_bind, wpe_assert; [intros _|done].
  apply wpe_bind, wpe_bind, wpe_gets, wpe_bind, wpe_modify, wpe_ret, wpe_ret.
  by apply stack_inv_context.
Qed.

Lemma wp_finish_loop fuel addr : forall w,
  stack_inv w -> safe (finish_loop unit_value task_layout fuel addr) w (fun _ w' => stack_inv w').
Proof.
  induction fuel as [|fuel IH]; intros w Hi; cbn [finish_loop]; [by apply wpe_ret|].
  apply wpe_bind. eapply wpe_post; [by apply wp_step|]. intros [v|] w' Hi'; [by apply wpe_ret|].
  by apply IH.
Qed.

Lemma wp_finish fuel addr needs_drop w :
  stack_inv w ->
  safe (finish unit_value task_layout fuel addr needs_drop) w (fun _ w' => stack_inv w').
Proof.
  intros Hi. apply wpe_bind. eapply wpe_post; [by apply wp_finish_loop|].
  intros [v|] w' Hi'; [|by apply wpe_ret]. apply wpe_bind.
  eapply wpe_mono; [by apply wp_drop_runner| |done]. intros [] w2 [? _]. by apply wpe_ret, inv_is_idle.
Qed.

Lemma wp_poll_step w cx :
  stack_inv w -> safe (poll_step unit_value task_layout cx) w (fun _ w' => stack_inv w').
Proof.
  intros Hi. apply wpe_bind. eapply wpe_mono; [by apply wp_try_get_result| |done].
  intros [v|] w'; [intros [? _]; by apply wpe_ret, inv_is_idle|intros [-> Hrun]].
  apply wpe_bind, wpe_bind, wpe_gets, wpe_bind, wpe_modify, wpe_ret, wpe_bind.
  eapply wpe_post; [by eapply wp_drive_in_context|]. intros r w2 [Hi2 _].
  apply wpe_bind, wpe_bind, wpe_gets, wpe_bind, wpe_modify, wpe_ret.
  destruct r; by apply wpe_ret, stack_inv_context.
Qed.

Lemma wp_poll_finish fuel cx : forall w,
  stack_inv w -> safe (poll_finish unit_value task_layout fuel cx) w (fun _ w' => stack_inv w').
Proof.
  induction fuel as [|fuel IH]; intros w Hi; cbn [poll_finish]; [by apply wpe_ret|].
  apply wpe_bind. eapply wpe_mono; [by apply wp_try_get_result| |done].
  intros [v|] w'; [intros [? _]; by apply wpe_ret, inv_is_idle|intros [-> Hrun]].
  apply wpe_bind, wpe_bind, wpe_gets, wpe_bind, wpe_modify, wpe_ret, wpe_bind.
  eapply wpe_post; [by eapply wp_drive_in_context|]. intros r w2 [Hi2 _].
  apply wpe_bind, wpe_bind, wpe_gets, wpe_bind, wpe_modify, wpe_ret.
  destruct r; [by apply IH, stack_inv_context|by apply wpe_ret, stack_inv_context].
Qed.

(** A leaked runner makes the next [enter] panic. *)
Lemma enter_busy w f :
  stack_inv w -> len w <> 0 -> callable f ->
  enter place_layout task_layout f w
  = Panic "Stack still has unresolved futures, did a previous runner leak?".
Proof.
  intros _ Hl Hf. assert (Hc : call f w = Ok (f, w)) by by destruct f.
  unfold enter, bind at 1. rewrite Hc. unfold enter_future, bind, gets, assert.
  by rewrite (proj2 (Z.eqb_neq _ _) Hl).
Qed.

Lemma wp_enter_any w f :
  stack_inv w -> safe (enter place_layout task_layout f) w (fun _ w' => stack_inv w').
Proof.
  intros Hi. assert (callable f \/ exists m, f = NoFuture m) as [Hf|[m ->]]
    by (destruct f; eauto; by left); [|done].
  destruct (decide (len w = 0)) as [Hl|Hl].
  - assert (inv_idle w) as Hidle by (destruct Hi as [|? ? []|? ? ? ? []]; [done|lia..]).
    eapply wpe_mono; [by apply wp_enter| |done].
    intros [] w' (a & pa & Hr & _). by eapply inv_is_running.
  - unfold wpe. by rewrite enter_busy.
Qed.

Lemma wp_drop_stack w :
  stack_inv w -> wp drop_stack w (fun _ w' => inv_idle w' /\ (state w' = Base \/ w' = w)).
Proof.
  intros Hi. destruct (stack_inv_mem w Hi) as [Hidle|(ts & pa & Hm)].
  - unfold drop_stack, clear. apply wpe_bind, wpe_gets. rewrite (idle_len _ Hidle).
    apply wpe_ret. auto.
  - eapply wpe_post; [by eapply wp_clear_mem|]. intros [] w' [? ?]. auto.
Qed.

Lemma wp_run_op o w : stack_inv w -> safe (run_op o) w (fun _ w' => stack_inv w').
Proof.
  intros Hi. destruct o as [f|addr|fuel addr nd|cx|fuel cx|nd| |e v|]; cbn [run_op].
  - by apply wp_enter_any.
  - apply wpe_bind. eapply wpe_post; [by apply wp_step|]. intros; by apply wpe_ret.
  - apply wpe_bind. eapply wpe_post; [by apply wp_finish|]. intros; by apply wpe_ret.
  - apply wpe_bind. eapply wpe_post; [by apply wp_poll_step|]. intros; by apply wpe_ret.
  - apply wpe_bind. eapply wpe_post; [by apply wp_poll_finish|]. intros; by apply wpe_ret.
  - eapply wpe_mono; [by apply wp_drop_runner| |done]. intros [] w' [? _]. by apply inv_is_idle.
  - by apply wpe_ret.
  - apply wpe_modify. by apply (stack_inv_same w).
  - eapply wpe_mono; [by apply wp_drop_stack| |done]. intros [] w' [? _]. by apply inv_is_idle.
Qed.

Lemma wp_run_ops os : forall w, stack_inv w -> safe (run_ops os) w (fun _ w' => stack_inv w').
Proof.
  induction os as [|o os IH]; intros w Hi; cbn [run_ops]; [by apply wpe_ret|].
  apply wpe_bind. eapply wpe_post; [by apply wp_run_op|]. intros [] w' Hi'. by apply IH.
Qed.

Lemma new_stack_inv : inv_idle (new_stack : world V A).
Proof.
  split; [|done| |by left].
  - split; [|constructor|done]. exists []. split; [apply sa_new_live|done].
  - split; [constructor| |constructor]. intros r. cbn. rewrite lookup_empty.
    rewrite elem_of_nil. split; [done|by intros []].
Qed.
End runner_safe.
