(* ===== verification/StackSim.v ===== *)
(** * The runtime refines the machine of [StackEval]

    [repr w c]: the tasks of the stack are the frames of the configuration.  A
    poll of the newest task is a step of the machine. *)

From S2P Require Import Prelude Ptr StackAlloc Stack Runner StackInv StackSafe StackEval RunnerSafe.

Section sim.
Context {V : Type} (unit_value : V) {A : Type} `{!StackAlloc A}.
Context (place_layout : Layout) (task_layout : code V -> Layout).
Context (Hplace : sa_layout place_layout) (Htask : forall f, sa_layout (task_layout f)).
Implicit Types w : world V A.

(** ** One poll of a program *)

(** The fields a poll in the runtime's own context leaves alone. *)
Definition kept w w' : Prop :=
  events w' = events w /\ async_context w' = async_context w /\ woken w' = woken w /\
  stack_ptr w' = stack_ptr w.

Lemma kept_refl w : kept w w.
Proof. done. Qed.

Lemma kept_trans w1 w2 w3 : kept w1 w2 -> kept w2 w3 -> kept w1 w3.
Proof. intros (? & ? & ? & ?) (? & ? & ? & ?). repeat split; congruence. Qed.

(** A task that has been called and waits for the future it made last. *)
Definition waiting (k : V -> prog V) (n : nat) : code V := Await n (fun v => compile (k v)).
Definition waiting_handles (n r : nat) : list (option (handle V)) :=
  replicate n None ++ [Some (HStk (Running r))].

Definition exec_post w (p : prog V) a d ts pa (r : progress V * list (option (handle V))) w' : Prop :=
  match go (events w) p with
  | AFin v => w' = w /\ exists n, r = (Finished v, replicate n None)
  | ABlock e k => w' = w /\ exists n, r = (Blocked (compile (PAwait e k)), replicate n None)
  | APush q k =>
      kept w w' /\ exists n a' x,
        r = (Blocked (waiting k n), waiting_handles n x) /\
        mid w' (Some (a', {| body := Some (compile q); handles := []; place := ToCell x; notify := None |}))
          a d [x] ts pa
  | APanic _ => False
  end.
Definition exec_fails w (p : prog V) (m : string) : Prop := sa_fail m \/ panics (events w) p = Some m.

Lemma lookup_replicate_snoc (n : nat) (x : option (handle V)) :
  (replicate n None ++ [x]) !! n = Some x.
Proof. rewrite lookup_app_r by (by rewrite length_replicate). by rewrite length_replicate, Nat.sub_diag. Qed.

Lemma insert_replicate_snoc (n : nat) (x y : option (handle V)) :
  <[n := y]> (replicate n None ++ [x]) = replicate n None ++ [y].
Proof. rewrite insert_app_r_alt by (by rewrite length_replicate). by rewrite length_replicate, Nat.sub_diag. Qed.

Lemma replicate_snoc (n : nat) : replicate n None ++ [None] = replicate (S n) (None : option (handle V)).
Proof. by rewrite replicate_S_end. Qed.

Lemma runs_replicate (n : nat) : runs (replicate n (None : option (handle V))) = [].
Proof. induction n as [|n IH]; [done|]. exact IH. Qed.

Lemma runs_waiting n r : runs (waiting_handles n r) = [r].
Proof.
  unfold waiting_handles, runs. rewrite map_app, concat_app. fold (runs (replicate n (None : option (handle V)))).
  by rewrite runs_replicate.
Qed.

Lemma wp_get_handle_at hs h x w (Q : handle V -> world V A -> Prop) E :
  hs !! h = Some (Some x) -> Q x w -> wpe (get_handle hs h) w Q E.
Proof. intros Hx HQ. unfold get_handle. rewrite Hx. by apply wpe_ret. Qed.

Lemma wp_poll_push w a d ts pa cx f :
  mid w None a d [] ts pa -> state w = Base -> async_context w = cx_addr cx -> callable f ->
  wpe (poll_stk_future task_layout cx (Initial f)) w
    (fun r w' => kept w w' /\ exists a' x, r = (Pending, Running x) /\
       mid w' (Some (a', {| body := Some f; handles := []; place := ToCell x; notify := None |}))
         a d [x] ts pa) sa_fail.
Proof.
  intros Hm Hst Hcx Hf. unfold poll_stk_future, with_context. apply wpe_bind, wpe_gets.
  rewrite (mid_ptr _ _ _ _ _ _ _ Hm). apply wpe_bind. eapply wpe_value; [done|].
  apply wpe_bind, wp_call; [done|]. apply wpe_bind, wpe_gets. cbn [async_context set_results]. rewrite Hcx, Z.eqb_refl.
  apply wpe_bind. eapply wpe_post; [by eapply mid_push_base|].
  intros [] w' ((a' & Hm') & Hr & He & Ha & Hw). apply wpe_ret. split.
  - unfold kept. by rewrite (mid_ptr _ _ _ _ _ _ _ Hm), (mid_ptr _ _ _ _ _ _ _ Hm').
  - by exists a', (next_result w).
Qed.

Lemma wp_exec_prog p : forall w a d ts pa cx n,
  mid w None a d [] ts pa -> state w = Base -> async_context w = cx_addr cx ->
  wpe (exec unit_value task_layout cx (compile p) (replicate n None)) w
    (exec_post w p a d ts pa) (exec_fails w p).
Proof.
  unfold exec_fails, panics.
  induction p as [v|q _ k _|k IH|e k IH|m]; intros w a d ts pa cx n Hm Hst Hcx.
  - apply wpe_ret. split; [done|]. by exists n.
  - cbn [compile exec]. rewrite length_replicate.
    apply wpe_bind. eapply wp_get_handle_at; [apply lookup_replicate_snoc|].
    apply wpe_bind, wpe_bind. eapply wpe_mono; [by eapply wp_poll_push, compile_callable| |by left].
    intros [? ?] w' (Hk & a' & x & [= -> ->] & Hm'). apply wpe_ret, wpe_ret.
    rewrite insert_replicate_snoc. split; [done|]. by exists n, a', x.
  - cbn [compile exec]. rewrite length_replicate.
    apply wpe_bind. eapply wp_get_handle_at; [apply lookup_replicate_snoc|].
    apply wpe_bind, wpe_bind. unfold poll_yield, with_context. apply wpe_bind, wpe_gets.
    rewrite (mid_ptr _ _ _ _ _ _ _ Hm). apply wpe_bind, wpe_gets. rewrite Hst.
    apply wpe_ret, wpe_ret, wpe_bind, wpe_ret. rewrite insert_replicate_snoc, replicate_snoc.
    by apply IH.
  - cbn [compile exec]. apply wpe_bind, wpe_gets. unfold exec_post. cbn [go].
    destruct (events w !! e) as [v|] eqn:He.
    + by apply IH.
    + apply wpe_ret. split; [done|]. by exists n.
  - by apply wpe_panic; right.
Qed.

(** The callee has returned [v]: the future is taken and the program goes on. *)
Lemma wp_exec_waiting w a d ts pa cx k n r v :
  mid w None a d [r] ts pa -> results w !! r = Some (Some v) ->
  state w = Base -> async_context w = cx_addr cx ->
  wpe (exec unit_value task_layout cx (waiting k n) (waiting_handles n r)) w
    (fun x w' => exists w1, mid w1 None a d [] ts pa /\ kept w w1 /\ state w1 = Base /\
       exec_post w1 (k v) a d ts pa x w') (exec_fails w (k v)).
Proof.
  intros Hm Hr Hst Hcx. unfold waiting. cbn [exec].
  apply wpe_bind. eapply wp_get_handle_at; [apply lookup_replicate_snoc|].
  apply wpe_bind, wpe_bind. unfold poll_stk_future, with_context. apply wpe_bind, wpe_gets.
  rewrite (mid_ptr _ _ _ _ _ _ _ Hm). apply wpe_bind, wpe_bind, wpe_gets, wpe_bind.
  eapply wpe_deref; [exact Hr|]. apply wpe_bind, wpe_modify, wpe_ret, wpe_bind, wpe_modify, wpe_ret, wpe_ret.
  apply wpe_bind, wpe_ret. unfold waiting_handles. rewrite insert_replicate_snoc, replicate_snoc.
  set (w1 := set_results _ _ _).
  assert (Hm1 : mid w1 None a d [] ts pa).
  { pose proof (mid_drop_running w None a d r [] ts pa no_panic Hm) as Hd.
    unfold drop_stk_future, take_result, deref, wpe, bind, gets in Hd. rewrite Hr in Hd.
    destruct Hd as (ab & Hd). destruct ab as [[a1 t1]|]; [|exact Hd].
    destruct (mid_above _ _ _ _ _ _ _ Hd) as (? & ? & ? & ? & ? & Hin & _). by apply elem_of_nil in Hin. }
  eapply wpe_mono; [by apply wp_exec_prog| |done]. intros x w' Hpost. by exists w1.
Qed.

(** ** Configurations in memory *)
Definition frame (at_ : Z * task V) (k : V -> prog V) : Prop :=
  exists n r, body at_.2 = Some (waiting k n) /\ handles at_.2 = waiting_handles n r /\
    notify at_.2 = None.

Inductive repr w : conf V -> Prop :=
| repr_run a t ts pa p ks n :
    inv_running w a t ts pa -> state w = Base ->
    body t = Some (compile p) -> handles t = replicate n None -> notify t = None ->
    Forall2 frame ts ks -> repr w (CRun p ks)
| repr_back a t ts pa v k ks n r :
    inv_running w a t ts pa -> state w = Base ->
    body t = Some (waiting k n) -> handles t = waiting_handles n r -> notify t = None ->
    results w !! r = Some (Some v) -> Forall2 frame ts ks -> repr w (CBack v k ks)
| repr_done pa v : inv_done w pa v -> state w = Base -> repr w (CDone v).

Lemma wp_drop_replicate n w (pct : M (world V A) unit) (Q : unit -> world V A -> Prop) E :
  Q tt w -> wpe (drop_handles pct (replicate n None)) w Q E.
Proof.
  revert Q. induction n as [|n IH]; intros Q HQ; cbn [replicate drop_handles]; [by apply wpe_ret|].
  apply wpe_bind, IH. by apply wpe_ret.
Qed.

(** What is left to do once the newest task was polled. *)
Definition after_poll (r : poll unit) : M (world V A) (poll bool) :=
  match r with
  | Ready _ => do! pop_task in ret (Ready false)
  | Pending =>
      let! st := gets state in
      match st with
      | Base => ret Pending
      | Yield => do! put_state Base in ret (Ready true)
      | Cancelled => panic "stack should never be running tasks while cancelling"
      | NewTask => do! put_state Base in ret (Ready false)
      end
  end.

(** The task returned [v]. *)
Lemma wp_finish_return w w0 a (t : task V) ts pa ks v E (n : nat) :
  mid w None a (place t) [] ts pa -> state w = Base -> kept w0 w -> notify t = None ->
  Forall2 frame ts ks ->
  wpe (do! drop_handles pop_cancel_task (replicate n None) in
       do! finish_task (place t) (notify t) v in
       do! store a (CTask {| body := None; handles := []; place := place t; notify := notify t |}) in
       ret (Ready tt)) w
    (fun r w' => wpe (after_poll r) w' (fun r w' => r = Ready false /\ kept w0 w' /\
       repr w' (match ks with [] => CDone v | k :: ks => CBack v k ks end)) E) E.
Proof.
  intros Hm Hst Hk Hn Hf. apply wpe_bind, wp_drop_replicate, wpe_bind.
  eapply wpe_post; [by eapply mid_finish|]. intros [] w1 [Hpop (Hp1 & Hs1 & He1 & Ha1 & Hw1)].
  set (t' := {| body := None |}).
  refine (wpe_post _ w1 _ _ E (wp_pop_ready w1 a t' _ _ _ _ E Hpop eq_refl) _).
  intros r w2 (-> & Hset & Hp2 & Hs2 & He2 & Ha2 & Hw2). split; [done|].
  rewrite Hn in Hw1. cbn in Hw1, Hw2. rewrite app_nil_r in Hw1, Hw2. split.
  { apply (kept_trans _ w); [done|]. unfold kept. split_and!; congruence. }
  assert (Hbase : state w2 = Base) by congruence.
  destruct Hf as [|[a2 t2] k ts ks (m & r & Hb & Hh & Hnn) Hf].
  - by apply (repr_done _ pa).
  - destruct Hset as [Hrun (r' & Hd & Hr)].
    eapply (repr_back _ a2 t2 ts pa v k ks m r); try done.
    assert (r = r') as ->; [|done].
    pose proof (mid_chain _ _ _ _ _ _ _ Hm) as (r2 & Hd2 & (Hin & _) & _).
    rewrite Hd in Hd2. injection Hd2 as <-. cbn in Hh. rewrite Hh, runs_waiting in Hin.
    by apply list_elem_of_singleton in Hin.
Qed.

(** The task waits: for the task it pushed, or for something outside. *)
Lemma wp_stay w w0 w1 p q a (t : task V) ts pa ks n :
  mid w1 None a (place t) [] ts pa -> state w1 = Base -> kept w0 w1 -> notify t = None ->
  Forall2 frame ts ks ->
  exec_post w1 p a (place t) ts pa (Blocked q, n) w ->
  (forall v, go (events w1) p <> AFin v) -> forall E,
  wpe (do! store a (CTask {| body := Some q; handles := n; place := place t; notify := notify t |}) in
       ret Pending) w
    (fun r w' => wpe (after_poll r) w' (fun r w' => r = (resume (events w1) p ks).1 /\ kept w0 w' /\
       repr w' (resume (events w1) p ks).2) E) E.
Proof.
  intros Hm Hst Hk Hn Hf Hpost Hgo E. unfold exec_post, resume in *.
  apply wpe_bind, wpe_modify, wpe_ret, wpe_bind, wpe_gets. cbn [state set_heap].
  destruct (go (events w1) p) as [v|e k|i k|m]; [by destruct (Hgo v)| | |done]; cbn [fst snd].
  - destruct Hpost as (Hk' & m & a' & x & [= -> ->] & Hm').
    destruct (mid_above _ _ _ _ _ _ _ Hm') as (Hst' & _). rewrite Hst'.
    apply wpe_bind, wpe_modify, wpe_ret. split; [done|]. split; [by apply (kept_trans _ w1)|].
    set (t' := {| body := Some (waiting k m) |}).
    set (t1 := {| body := Some (compile e) |}) in Hm'.
    eapply (repr_run _ a' t1 ((a, t') :: ts) pa e (k :: ks) 0); try done.
    + apply (mid_suspend w (Some (a', t1)) a t' ts pa _); try done; [|by left].
      cbn [handles t']. by rewrite runs_waiting.
    + constructor; [|done]. by exists m, x.
  - destruct Hpost as [-> (m & [= -> ->])]. rewrite Hst. apply wpe_ret.
    split; [done|]. split; [done|].
    set (t' := {| body := Some (compile (PAwait i k)); handles := replicate m None;
                  place := place t; notify := notify t |}).
    eapply (repr_run _ a t' ts pa (PAwait i k) ks m); try done.
    apply (mid_suspend w1 None a t' ts pa _); try done; [|by left].
    cbn [handles t']. by rewrite runs_replicate.
Qed.

Lemma repr_same w w' c : same_stack w w' -> repr w c -> repr w' c.
Proof.
  intros Hs Hr. pose proof Hs as [_ _ _ Hst Hres _].
  destruct Hr as [a t ts pa p ks n Hr|a t ts pa v k ks n r Hr|pa v Hd].
  - eapply (repr_run _ a t ts pa p ks n); try done; [by eapply inv_running_same|congruence].
  - eapply (repr_back _ a t ts pa v k ks n r); try done; [by eapply inv_running_same|congruence..].
  - eapply (repr_done _ pa); [by eapply inv_done_same|congruence].
Qed.

(** The newest task runs the program [p] until it returns, calls or waits. *)
Lemma wp_drive_exec w a t ts pa cx f p ks :
  inv_running w a t ts pa -> state w = Base -> async_context w = cx_addr cx ->
  body t = Some f -> notify t = None -> Forall2 frame ts ks ->
  (forall wb, mid wb None a (place t) (runs (handles t)) ts pa -> results wb = results w ->
     state wb = Base -> async_context wb = cx_addr cx -> events wb = events w ->
     wpe (exec unit_value task_layout cx f (handles t)) wb
       (fun x w' => exists w1, mid w1 None a (place t) [] ts pa /\ kept wb w1 /\ state w1 = Base /\
          exec_post w1 p a (place t) ts pa x w') (exec_fails w p)) ->
  wpe (drive_top_task unit_value task_layout cx) w
    (fun r w' => r = (resume (events w) p ks).1 /\ kept w w' /\ repr w' (resume (events w) p ks).2 /\
       panics (events w) p = None)
    (exec_fails w p).
Proof.
  intros Hrun Hst Hcx Hb Hn Hf Hexec. apply wp_enter_context.
  set (w0 := set_stack_ptr true w).
  assert (Hrun0 : inv_running w0 a t ts pa) by by apply (inv_running_same w).
  pose proof (run_shape _ _ _ _ _ Hrun0) as Hs0.
  apply wpe_bind. eapply wp_top_task; [exact Hs0|]. apply wpe_bind. unfold drive_task.
  apply wpe_bind. eapply wp_load; [exact Hs0|left|]. cbn [snd]. rewrite Hb.
  apply wpe_bind, wpe_modify. set (wb := set_heap _ w0).
  assert (Hm : mid wb None a (place t) (runs (handles t)) ts pa).
  { by apply mid_start. }
  apply wpe_bind. eapply wpe_post; [by apply Hexec|]. intros x w2 (w1 & Hm1 & Hk1 & Hst1 & Hpost).
  assert (Hev : events w1 = events w) by apply Hk1.
  assert (Hend : forall w' c, kept wb w' -> repr w' c ->
    kept w (set_stack_ptr (stack_ptr w) w') /\ repr (set_stack_ptr (stack_ptr w) w') c).
  { intros w' c (? & ? & ? & ?) Hr. split; [done|]. by apply (repr_same w'). }
  unfold exec_post in Hpost. unfold panics. destruct (go (events w1) p) as [v|q k|e k|m] eqn:Hgo; [..|done].
  - destruct Hpost as [-> [n ->]]. eapply wpe_mono; [by eapply (wp_finish_return w1 wb)| |done].
    intros r w3 Hw3. eapply wpe_post; [exact Hw3|]. intros b w4 (-> & Hk4 & Hr4).
    unfold resume. rewrite <- Hev, Hgo. split; [done|]. destruct (Hend w4 _ Hk4 Hr4). by split.
  - pose proof Hpost as (_ & n & a' & y & -> & _).
    eapply wpe_post; [eapply (wp_stay w2 wb w1 p); try done; unfold exec_post; by rewrite Hgo|].
    intros r w3 Hw3. eapply wpe_post; [exact Hw3|]. intros b w4 (-> & Hk4 & Hr4).
    rewrite <- Hev, Hgo. split; [done|]. destruct (Hend w4 _ Hk4 Hr4). by split.
  - pose proof Hpost as (_ & n & ->).
    eapply wpe_post; [eapply (wp_stay w2 wb w1 p); try done; unfold exec_post; by rewrite Hgo|].
    intros r w3 Hw3. eapply wpe_post; [exact Hw3|]. intros b w4 (-> & Hk4 & Hr4).
    rewrite <- Hev, Hgo. split; [done|]. destruct (Hend w4 _ Hk4 Hr4). by split.
Qed.

(** A poll of the newest task is a step of the machine. *)
Lemma wp_drive_repr w c cx :
  repr w c -> (forall v, c <> CDone v) -> async_context w = cx_addr cx ->
  wpe (drive_top_task unit_value task_layout cx) w
    (fun r w' => r = (astep (events w) c).1 /\ kept w w' /\ repr w' (astep (events w) c).2 /\
       aborts (events w) c = None)
    (fun m => sa_fail m \/ aborts (events w) c = Some m).
Proof.
  intros Hr Hc Hcx. destruct Hr as [a t ts pa p ks n Hr|a t ts pa v k ks n r Hr|pa v Hd]; [..|by destruct (Hc v)].
  - eapply wp_drive_exec; [done..|]. intros wb Hm Hres Hst Hcx' Hev.
    match goal with H : handles t = _ |- _ => rewrite H in * end. rewrite runs_replicate in Hm.
    eapply wpe_mono; [by apply wp_exec_prog| |unfold exec_fails; by rewrite Hev].
    intros x w' Hpost. by exists wb.
  - eapply wp_drive_exec; [done..|]. intros wb Hm Hres Hst Hcx' Hev.
    match goal with H : handles t = _ |- _ => rewrite H in * end. rewrite runs_waiting in Hm.
    eapply wpe_mono; [apply wp_exec_waiting; [done| |done..]; by rewrite Hres|done|].
    unfold exec_fails. by rewrite Hev.
Qed.

(** ** Steps and runs *)
Lemma repr_len w c : repr w c -> len w = 1 + Z.of_nat (frames c).
Proof.
  intros [a t ts pa p ks n Hr ? ? ? ? Hf|a t ts pa v k ks n r Hr ? ? ? ? ? Hf|pa v Hd ?]; cbn [frames].
  - rewrite (run_len _ _ _ _ _ Hr), (Forall2_length _ _ _ Hf). lia.
  - rewrite (run_len _ _ _ _ _ Hr), (Forall2_length _ _ _ Hf). lia.
  - by rewrite (done_len _ _ _ Hd).
Qed.

Lemma repr_inv w c : repr w c -> stack_inv w.
Proof. intros []; [by eapply inv_is_running..|by eapply inv_is_done]. Qed.

Lemma inv_done_unique w pa pa' v v' : inv_done w pa v -> inv_done w pa' v' -> v = v'.
Proof.
  intros [Hs _ _ _] [Hs' _ _ _]. pose proof (shape_lookup _ _ pa (CPlace (Some v)) Hs ltac:(left)) as H.
  rewrite (shape_heap _ _ Hs') in H. cbn in H. apply lookup_insert_Some in H as [[_ H]|[_ H]].
  - by injection H.
  - by rewrite lookup_empty in H.
Qed.

Lemma wp_try_repr w c E :
  repr w c -> wpe try_get_result w (fun o w' =>
    match c with
    | CDone v => o = Some v /\ inv_idle w' /\ events w' = events w
    | CRun _ _ | CBack _ _ _ => o = None /\ w' = w
    end) E.
Proof.
  intros Hr. eapply wpe_mono; [by apply wp_try_get_result, (repr_inv w c)| |done].
  pose proof (repr_len w c Hr) as Hl.
  intros [v|] w'.
  - intros (Hi & (pa & Hd) & _ & He). pose proof (done_len _ _ _ Hd).
    destruct Hr as [| |pa' v' Hd']; cbn [frames] in Hl; [lia..|].
    by rewrite (inv_done_unique _ _ _ _ _ Hd Hd').
  - intros [-> Hrun]. destruct Hr as [| |pa v Hd]; [done..|].
    destruct Hrun as [Hi|(a & t & ts & pa' & Hi)]; [rewrite (idle_len _ Hi) in Hl|rewrite (run_len _ _ _ _ _ Hi) in Hl];
      cbn [frames] in Hl; lia.
Qed.

Definition done_dec (c : conf V) : {v | c = CDone v} + {forall v, c <> CDone v}.
Proof. destruct c as [| |v]; [by right..|left; by exists v]. Defined.

Lemma wp_try_not_done w c (Q : option V -> world V A -> Prop) E :
  repr w c -> (forall v, c <> CDone v) -> Q None w -> wpe try_get_result w Q E.
Proof.
  intros Hr Hc HQ. eapply wpe_post; [by apply (wp_try_repr w c)|].
  intros o w' H. destruct c as [| |v]; [destruct H as [-> ->]; done..|by destruct (Hc v)].
Qed.

(** Driving with the context set for the duration of the poll. *)
Lemma wp_drive_context {B} w c cx (k : poll bool -> M (world V A) B) Q (E : string -> Prop) :
  repr w c -> (forall v, c <> CDone v) -> (forall m, sa_fail m -> E m) ->
  (forall m, aborts (events w) c = Some m -> E m) ->
  (forall w', aborts (events w) c = None -> repr w' (astep (events w) c).2 -> events w' = events w -> woken w' = woken w ->
     async_context w' = cx_addr cx -> stack_ptr w' = stack_ptr w ->
     wpe (k (astep (events w) c).1) w' Q E) ->
  wpe (let! r := drive_top_task unit_value task_layout cx in k r) (set_async_context (cx_addr cx) w) Q E.
Proof.
  intros Hr Hc HE HE' Hk. apply wpe_bind. eapply wpe_mono.
  - apply (wp_drive_repr _ c); [|done|done]. by apply (repr_same w).
  - cbn [events set_async_context]. intros r w' (-> & (He & Ha & Hw & Hp) & Hr' & Hab). by apply Hk.
  - intros m [Hm|Hm]; auto.
Qed.

Definition sync_pending : string :=
  "a non-reblessive future was run while running the reblessive runtime as non-async".

(** [Runner::step]. *)
Lemma wp_step_repr w c addr :
  repr w c ->
  wpe (step unit_value task_layout addr) w
    (fun o w' =>
       match c with
       | CDone v => o = Some v /\ inv_idle w'
       | CRun _ _ | CBack _ _ _ =>
           o = None /\ is_pending (astep (events w) c).1 = false /\
           repr w' (astep (events w) c).2 /\ kept w w'
       end)
    (fun m => sa_fail m \/ aborts (events w) c = Some m \/
       m = sync_pending /\ is_pending (astep (events w) c).1 = true /\ aborts (events w) c = None).
Proof.
  intros Hr. apply wpe_bind. destruct (done_dec c) as [[v ->]|Hc].
  { eapply wpe_post; [by apply (wp_try_repr w (CDone v))|]. intros o w' (-> & Hi & _). by apply wpe_ret. }
  eapply wp_try_not_done; [done..|].
  apply wpe_bind, wpe_bind, wpe_gets, wpe_bind, wpe_modify, wpe_ret.
  apply (wp_drive_context w c (stub_context addr)); [done..|by left|by right; left|].
  intros w' Hab Hr' He Hw Ha Hp. apply wpe_bind, wpe_assert.
  - intros Hb%negb_true_iff. apply wpe_bind, wpe_bind, wpe_gets, wpe_bind, wpe_modify, wpe_ret, wpe_ret.
    destruct c as [| |v]; [..|by destruct (Hc v)].
    all: split; [done|split; [done|split; [by apply (repr_same w')|done]]].
  - intros Hb%negb_false_iff. by right; right.
Qed.

Lemma wp_finish_loop_repr fuel addr : forall w c v,
  repr w c -> eval_conf (events w) c = Some v -> (cost_conf (events w) c < fuel)%nat ->
  wpe (finish_loop unit_value task_layout fuel addr) w (fun o w' => o = Some v /\ inv_idle w') sa_fail.
Proof.
  induction fuel as [|fuel IH]; intros w c v Hr Hv Hfuel; [lia|]. cbn [finish_loop]. apply wpe_bind.
  eapply wpe_mono; [by apply (wp_step_repr w c)| |].
  - intros o w' H. destruct (done_dec c) as [[v' ->]|Hc].
    { destruct H as [-> Hi]. injection Hv as ->. by apply wpe_ret. }
    assert (o = None /\ is_pending (astep (events w) c).1 = false /\
      repr w' (astep (events w) c).2 /\ kept w w') as (-> & Hp & Hr' & He & _).
    { destruct c as [| |v']; [exact H..|by destruct (Hc v')]. }
    apply (IH w' (astep (events w) c).2); [done| |]; rewrite He.
    + by rewrite astep_eval.
    + rewrite (astep_cost _ _ Hc Hp) in Hfuel. lia.
  - intros m [Hm|[Hm|(_ & Hp & _)]]; [done|..].
    + by rewrite (throws_conf_eval _ _ _ (aborts_throws _ _ _ Hm)) in Hv.
    + by rewrite (astep_pending _ _ Hp) in Hv.
Qed.

(** Stepping by hand: [n] steps in a row, with what each returned. *)
Fixpoint step_times (n : nat) (addr : Z) : M (world V A) (list (option V)) :=
  match n with
  | O => ret []
  | S n =>
      let! x := step unit_value task_layout addr in
      let! xs := step_times n addr in
      ret (x :: xs)
  end.

(** A runner whose value was taken has no task to step. *)
Lemma step_idle w addr :
  inv_idle w -> step unit_value task_layout addr w = Panic "called `Option::unwrap()` on a `None` value".
Proof.
  intros Hi. unfold step, bind at 1, try_get_result, bind at 1, gets. rewrite (idle_len _ Hi).
  change (0 =? 1)%Z with false. cbv beta iota delta [ret].
  unfold set_rebless_context, set_rebless_context_addr, bind, gets, modify, ret. cbv zeta.
  rewrite drive_idle; [done|]. by apply (inv_idle_same w).
Qed.

(** The results of [n] steps of a run that takes [c] steps to its value, and when a
    step is too many. *)
Definition steps_return (c : nat) (v : V) (n : nat) (xs : list (option V)) : Prop :=
  if decide (n <= c)%nat then xs = replicate n None else n = S c /\ xs = replicate c None ++ [Some v].

Lemma wp_step_times n addr : forall w c v,
  repr w c -> eval_conf (events w) c = Some v ->
  wpe (step_times n addr) w
    (fun xs w' => steps_return (cost_conf (events w) c) v n xs /\
       (if decide (n <= cost_conf (events w) c)%nat then exists c', repr w' c' else inv_idle w') /\
       events w' = events w)
    (fun m => sa_fail m \/ (S (cost_conf (events w) c) < n)%nat /\
       m = "called `Option::unwrap()` on a `None` value").
Proof.
  induction n as [|n IH]; intros w c v Hr Hv; cbn [step_times].
  { apply wpe_ret. unfold steps_return. rewrite !decide_True by lia. split; [done|]. split; [by exists c|done]. }
  apply wpe_bind. destruct (done_dec c) as [[v' ->]|Hc].
  - injection Hv as ->. unfold step at 1. apply wpe_bind.
    eapply wpe_post; [by apply (wp_try_repr w (CDone v))|]. intros o w' (-> & Hi & He).
    apply wpe_ret, wpe_bind. destruct n as [|n]; cbn [step_times].
    + apply wpe_ret, wpe_ret. unfold steps_return. cbn. by rewrite !decide_False by lia.
    + apply wpe_bind. unfold wpe. rewrite (step_idle _ _ Hi). right. cbn. split; [lia|done].
  - eapply wpe_mono; [by apply (wp_step_repr w c)|..].
    + intros o w' H.
      assert (o = None /\ is_pending (astep (events w) c).1 = false /\
        repr w' (astep (events w) c).2 /\ kept w w') as (-> & Hp & Hr' & He & _).
      { destruct c as [| |v']; [exact H..|by destruct (Hc v')]. }
      rewrite (astep_cost _ _ Hc Hp). apply wpe_bind. eapply wpe_mono.
      * apply (IH w' (astep (events w) c).2 v); [done|]. by rewrite He, astep_eval.
      * rewrite He. intros xs w2 (Hx & Hw & He2). apply wpe_ret. unfold steps_return in *.
        destruct (decide (n <= _)%nat).
        -- rewrite !decide_True by lia. by rewrite Hx.
        -- rewrite !decide_False by lia. destruct Hx as [-> ->]. done.
      * rewrite He. intros m [Hm|[Hn ->]]; [by left|right]. split; [lia|done].
    + intros m [Hm|[Hm|(_ & Hp & _)]]; [by left|..].
      * by rewrite (throws_conf_eval _ _ _ (aborts_throws _ _ _ Hm)) in Hv.
      * by rewrite (astep_pending _ _ Hp) in Hv.
Qed.

(** A synchronous run of a program without a value panics: as the program does, or
    because it waits for something outside. *)
Lemma wp_finish_loop_waits fuel addr : forall w c,
  repr w c -> eval_conf (events w) c = None -> (cost_conf (events w) c <= fuel)%nat -> (0 < fuel)%nat ->
  wpe (finish_loop unit_value task_layout fuel addr) w (fun _ _ => False)
    (fun m => sa_fail m \/ m = default sync_pending (throws_conf (events w) c)).
Proof.
  induction fuel as [|fuel IH]; intros w c Hr Hv Hfuel Hpos; [lia|]. cbn [finish_loop]. apply wpe_bind.
  assert (Hc : forall v, c <> CDone v) by (intros v ->; done).
  eapply wpe_mono; [by apply (wp_step_repr w c)| |].
  - intros o w' H.
    assert (o = None /\ is_pending (astep (events w) c).1 = false /\
      repr w' (astep (events w) c).2 /\ kept w w') as (-> & Hp & Hr' & He & _).
    { destruct c as [| |v']; [exact H..|by destruct (Hc v')]. }
    rewrite (astep_cost _ _ Hc Hp) in Hfuel.
    assert (0 < cost_conf (events w) (astep (events w) c).2)%nat.
    { apply cost_conf_pos. rewrite astep_eval by done. by rewrite Hv. }
    eapply wpe_mono; [apply (IH w' (astep (events w) c).2); [done|rewrite He..|lia]; [by rewrite astep_eval|lia]|done|].
    intros m. by rewrite He, astep_throws by done.
  - intros m [Hm|[Hm|(-> & Hp & Hab)]]; [by left|right..].
    + by rewrite (aborts_throws _ _ _ Hm).
    + destruct (throws_conf (events w) c) as [m|] eqn:Ht; [|done].
      by rewrite (astep_waits _ _ _ Hp Ht) in Hab.
Qed.

(** [Runner::finish_async]: one poll runs to the value, or to the first thing
    that has to be waited for. *)
Lemma wp_poll_finish_repr fuel cx : forall w c,
  repr w c -> throws_conf (events w) c = None -> (cost_conf (events w) c < fuel)%nat ->
  wpe (poll_finish unit_value task_layout fuel cx) w
    (fun o w' =>
       events w' = events w /\
       match eval_conf (events w) c with
       | Some v => o = Some (Ready v) /\ inv_idle w'
       | None => o = Some Pending /\ exists c', repr w' c' /\
           forall ev, events w ⊆ ev ->
             eval_conf ev c' = eval_conf ev c /\ throws_conf ev c' = throws_conf ev c /\
             (cost_conf ev c' <= cost_conf ev c)%nat
       end) sa_fail.
Proof.
  induction fuel as [|fuel IH]; intros w c Hr Ht Hfuel; [lia|]. cbn [poll_finish]. apply wpe_bind.
  destruct (done_dec c) as [[v ->]|Hc].
  { eapply wpe_post; [by apply (wp_try_repr w (CDone v))|]. intros o w' (-> & Hi & He).
    by apply wpe_ret. }
  eapply wp_try_not_done; [done..|].
  apply wpe_bind, wpe_bind, wpe_gets, wpe_bind, wpe_modify, wpe_ret.
  apply (wp_drive_context w c cx); [done..| |].
  { intros m Hm. by rewrite (aborts_throws _ _ _ Hm) in Ht. }
  intros w' Hab Hr' He Hw Ha Hp. apply wpe_bind, wpe_bind, wpe_gets, wpe_bind, wpe_modify, wpe_ret.
  set (w2 := set_async_context _ w'). assert (Hr2 : repr w2 (astep (events w) c).2) by by apply (repr_same w').
  assert (He2 : events w2 = events w) by done.
  destruct (astep (events w) c).1 as [b|] eqn:Hb.
  - assert (Hpend : is_pending (astep (events w) c).1 = false) by by rewrite Hb.
    rewrite (astep_cost _ _ Hc Hpend) in Hfuel. eapply wpe_post.
    + apply (IH w2 (astep (events w) c).2); [done|by rewrite He2, astep_throws by done|rewrite He2; lia].
    + rewrite He2. intros o w3 [He3 H]. split; [done|]. rewrite astep_eval in H by done.
      destruct (eval_conf (events w) c); [done|]. destruct H as [-> (c' & Hr3 & Hv)].
      split; [done|]. exists c'. split; [done|]. intros ev Hev. destruct (Hv ev Hev) as (-> & -> & Hle).
      pose proof (astep_cost_le _ _ Hev c). rewrite astep_eval, astep_throws by done. split; [done|split; [done|lia]].
  - apply wpe_ret. split; [done|]. rewrite (astep_pending (events w) c) by by rewrite Hb.
    split; [done|]. exists (astep (events w) c).2. split; [done|]. intros ev Hev.
    split; [by apply astep_eval|split; [by apply astep_throws|by apply astep_cost_le]].
Qed.

(** A poll of a program that panics ends with its panic. *)
Lemma wp_poll_finish_throws fuel cx m : forall w c,
  repr w c -> throws_conf (events w) c = Some m -> (cost_conf (events w) c <= fuel)%nat -> (0 < fuel)%nat ->
  wpe (poll_finish unit_value task_layout fuel cx) w (fun _ _ => False) (fun m' => sa_fail m' \/ m' = m).
Proof.
  induction fuel as [|fuel IH]; intros w c Hr Ht Hfuel Hpos; [lia|]. cbn [poll_finish]. apply wpe_bind.
  assert (Hc : forall v, c <> CDone v) by (intros v ->; done).
  eapply wp_try_not_done; [done..|].
  apply wpe_bind, wpe_bind, wpe_gets, wpe_bind, wpe_modify, wpe_ret.
  apply (wp_drive_context w c cx); [done..|by left| |].
  { intros m' Hm'%aborts_throws. right. congruence. }
  intros w' Hab Hr' He Hw Ha Hp. apply wpe_bind, wpe_bind, wpe_gets, wpe_bind, wpe_modify, wpe_ret.
  destruct (astep (events w) c).1 as [b|] eqn:Hb.
  2: { rewrite (astep_waits (events w) c m) in Hab; [done|by rewrite Hb|done]. }
  assert (Hpend : is_pending (astep (events w) c).1 = false) by by rewrite Hb.
  rewrite (astep_cost _ _ Hc Hpend) in Hfuel.
  assert (0 < cost_conf (events w) (astep (events w) c).2)%nat.
  { apply cost_conf_pos. rewrite astep_eval by done. by eapply throws_conf_eval. }
  set (w2 := set_async_context _ w'). assert (He2 : events w2 = events w) by done.
  apply (IH w2 (astep (events w) c).2); [by apply (repr_same w')|rewrite He2..|lia]; [by rewrite astep_throws by done|lia].
Qed.

(** Entering a program. *)
Lemma wp_enter_repr w p :
  inv_idle w -> state w = Base ->
  wpe (enter place_layout task_layout (compile p)) w
    (fun _ w' => repr w' (CRun p []) /\ events w' = events w) sa_fail.
Proof.
  intros Hi Hst. eapply wpe_post; [by apply wp_enter, compile_callable|].
  intros [] w' (a & pa & Hr & _ & Hst' & _ & He & _). split; [|done].
  eapply (repr_run _ a _ [] pa p [] 0); try done. congruence.
Qed.

(** An executor that polls [finish_async] again after each thing that happens
    outside; [arrivals] are these, in order. *)
Fixpoint executor (fuel : nat) (cx : Context) (arrivals : list (nat * V)) : M (world V A) (option V) :=
  let! r := poll_finish unit_value task_layout fuel cx in
  match r with
  | Some (Ready v) => ret (Some v)
  | Some Pending | None =>
      match arrivals with
      | [] => ret None
      | (e, v) :: rest =>
          do! modify (fun w => set_events (<[e := v]> (events w)) w) in
          executor fuel cx rest
      end
  end.

(** The events known once all of [arrivals] have come. *)
Definition deliver (arrivals : list (nat * V)) (ev : gmap nat V) : gmap nat V :=
  fold_left (fun ev x => <[x.1 := x.2]> ev) arrivals ev.

Fixpoint arrivals_new (arrivals : list (nat * V)) (ev : gmap nat V) : Prop :=
  match arrivals with
  | [] => True
  | (e, v) :: rest => ev !! e = None /\ arrivals_new rest (<[e := v]> ev)
  end.

Lemma deliver_subseteq arrivals : forall ev, arrivals_new arrivals ev -> ev ⊆ deliver arrivals ev.
Proof.
  induction arrivals as [|[e v] rest IH]; intros ev H; cbn in *; [done|].
  destruct H as [He H]. etrans; [|by apply IH]. by apply insert_subseteq.
Qed.

Lemma wp_executor fuel cx arrivals : forall w c v,
  repr w c -> arrivals_new arrivals (events w) ->
  eval_conf (deliver arrivals (events w)) c = Some v ->
  (forall ev, events w ⊆ ev -> ev ⊆ deliver arrivals (events w) -> (cost_conf ev c < fuel)%nat) ->
  wpe (executor fuel cx arrivals) w (fun o w' => o = Some v /\ inv_idle w') sa_fail.
Proof.
  induction arrivals as [|[e u] rest IH]; intros w c v Hr Hnew Hv Hfuel; cbn [executor].
  all: apply wpe_bind; eapply wpe_post;
    [eapply wp_poll_finish_repr; [done| |by apply Hfuel; [|apply deliver_subseteq]]|].
  1, 3: match goal with |- ?t = None => destruct t as [m|] eqn:Ht; [|done] end;
    apply (throws_conf_mono _ _ (deliver_subseteq _ _ Hnew)), throws_conf_eval in Ht; congruence.
  - intros o w' [_ H]. cbn in Hv. rewrite Hv in H. destruct H as [-> Hi]. by apply wpe_ret.
  - intros o w' [He H]. destruct (eval_conf (events w) c) as [v'|] eqn:Hv'.
    + destruct H as [-> Hi]. apply wpe_ret. split; [|done].
      rewrite (eval_conf_mono _ _ (deliver_subseteq _ _ Hnew) _ _ Hv') in Hv. congruence.
    + destruct H as [-> (c' & Hr' & Hc')]. destruct Hnew as [Hne Hnew].
      apply wpe_bind, wpe_modify. eapply IH.
      * by apply (repr_same w').
      * cbn. by rewrite He.
      * cbn [events set_events]. rewrite He.
        etrans; [exact (proj1 (Hc' _ (deliver_subseteq ((e, u) :: rest) _ (conj Hne Hnew))))|exact Hv].
      * cbn [events set_events]. rewrite He. intros ev H1 H2.
        assert (Hsub : events w ⊆ ev) by (etrans; [by apply (insert_subseteq _ e u)|done]).
        specialize (Hfuel ev Hsub H2). pose proof (proj2 (proj2 (Hc' ev Hsub))). lia.
Qed.

(** What arrives can make the program panic. *)
Lemma wp_executor_throws fuel cx m arrivals : forall w c,
  repr w c -> arrivals_new arrivals (events w) ->
  throws_conf (deliver arrivals (events w)) c = Some m ->
  (forall ev, events w ⊆ ev -> ev ⊆ deliver arrivals (events w) -> (cost_conf ev c < fuel)%nat) ->
  wpe (executor fuel cx arrivals) w (fun _ _ => False) (fun m' => sa_fail m' \/ m' = m).
Proof.
  induction arrivals as [|[e u] rest IH]; intros w c Hr Hnew Ht Hfuel; cbn [executor]; apply wpe_bind.
  all: pose proof (Hfuel (events w) (reflexivity _) (deliver_subseteq _ _ Hnew)) as Hf.
  all: destruct (throws_conf (events w) c) as [m'|] eqn:Ht0;
    [pose proof (throws_conf_mono _ _ (deliver_subseteq _ _ Hnew) _ _ Ht0); assert (m' = m) as -> by congruence;
     eapply wpe_mono; [apply (wp_poll_finish_throws fuel cx _ w c Hr Ht0); lia|done|done]|].
  { cbn in Ht. congruence. }
  eapply wpe_mono; [by apply (wp_poll_finish_repr fuel cx w c)| |by left]. intros o w' [He H].
  destruct (eval_conf (events w) c) as [v|] eqn:Hv.
  { pose proof (eval_conf_mono _ _ (deliver_subseteq _ _ Hnew) _ _ Hv) as Hv'.
    rewrite (throws_conf_eval _ _ _ Ht) in Hv'. done. }
  destruct H as [-> (c' & Hr' & Hc')]. destruct Hnew as [Hne Hnew]. apply wpe_bind, wpe_modify.
  apply (IH _ c'); cbn [events set_events]; rewrite ?He.
  - by apply (repr_same w').
  - done.
  - etrans; [exact (proj1 (proj2 (Hc' _ (deliver_subseteq ((e, u) :: rest) _ (conj Hne Hnew)))))|exact Ht].
  - intros ev H1 H2. assert (Hsub : events w ⊆ ev) by (etrans; [by apply (insert_subseteq _ e u)|done]).
    specialize (Hfuel ev Hsub H2). pose proof (proj2 (proj2 (Hc' ev Hsub))). lia.
Qed.

(** ** Cancelling a call *)
Lemma shape_heap_unique w w' cs : shape w cs -> shape w' cs -> heap w' = heap w.
Proof. intros [_ _ ->] [_ _ ->]. done. Qed.

Lemma wp_poll_first w a d rs ts pa cx f :
  mid w None a d rs ts pa -> state w = Base -> callable f ->
  wpe (poll_stk_future task_layout cx (Initial f)) w
    (fun r w' => exists a', r = (Pending, Running (next_result w)) /\
       results w' = <[next_result w := None]> (results w) /\
       mid w' (Some (a', {| body := Some f; handles := []; place := ToCell (next_result w);
                            notify := if (async_context w =? cx_addr cx)%Z then None
                                      else Some (cx_waker cx) |}))
         a d (next_result w :: rs) ts pa) sa_fail.
Proof.
  intros Hm Hst Hf. unfold poll_stk_future, with_context. apply wpe_bind, wpe_gets.
  rewrite (mid_ptr _ _ _ _ _ _ _ Hm). apply wpe_bind. eapply wpe_value; [done|].
  apply wpe_bind, wp_call; [done|]. apply wpe_bind, wpe_gets. cbn [async_context set_results].
  apply wpe_bind. destruct (_ =? _)%Z.
  all: eapply wpe_post; [by eapply mid_push_base|].
  all: intros [] w' ((a' & Hm') & Hr & _); apply wpe_ret; by exists a'.
Qed.

Lemma wp_poll_then_drop w a d rs ts pa cx f :
  mid w None a d rs ts pa -> state w = Base -> callable f ->
  wpe (let! (p, s) := poll_stk_future task_layout cx (Initial f) in
       do! drop_stk_future pop_cancel_task s in ret p) w
    (fun p w' => p = Pending /\ mid w' None a d rs ts pa /\ state w' = NewTask /\
       len w' = len w /\ heap w' = heap w /\ results w' = results w) sa_fail.
Proof.
  intros Hm Hst Hf. apply wpe_bind. eapply wpe_post; [by eapply wp_poll_first|].
  intros [p s] w1 (a' & [= -> ->] & Hr1 & Hm1). apply wpe_bind.
  eapply wpe_post; [eapply mid_drop_above; [done|]; rewrite Hr1; apply lookup_insert_eq|].
  intros [] w2 (Hm2 & Hst2 & Hr2). apply wpe_ret. split; [done|].
  pose proof (mid_shape _ _ _ _ _ _ _ Hm) as Hs. pose proof (mid_shape _ _ _ _ _ _ _ Hm2) as Hs2.
  pose proof (mid_len _ _ _ _ _ _ _ Hm) as Hl. pose proof (mid_len _ _ _ _ _ _ _ Hm2) as Hl2.
  split; [done|]. split; [done|]. split; [congruence|]. split; [by eapply shape_heap_unique|].
  rewrite Hr2, Hr1. apply delete_insert_id. destruct (results w !! next_result w) eqn:Ho; [|done].
  exfalso. pose proof (mid_cells _ _ _ _ _ _ _ Hm) as [_ Hdom Hlt]. rewrite Forall_forall in Hlt.
  specialize (Hlt (next_result w)). rewrite Hdom in Hlt. specialize (Hlt (mk_is_Some _ _ Ho)). lia.
Qed.
(** A whole synchronous run. *)
Lemma wp_enter_finish w p v fuel addr needs_drop :
  inv_idle w -> state w = Base -> eval (events w) p = Some v -> (cost (events w) p < fuel)%nat ->
  wpe (enter_finish unit_value place_layout task_layout p fuel addr needs_drop) w
    (fun r w' => r = Some v /\ inv_idle w' /\ state w' = Base) sa_fail.
Proof.
  intros Hi Hst Hv Hfuel. apply wpe_bind.
  eapply wpe_post; [by apply wp_enter_repr|]. intros [] w1 [Hr He].
  apply wpe_bind. eapply wpe_post.
  - apply (wp_finish_loop_repr _ _ _ (CRun p []) v); [done|by rewrite He|]. rewrite He. cbn. lia.
  - intros o w2 [-> Hi2]. apply wpe_bind. eapply wpe_mono; [by apply wp_drop_runner, inv_is_idle| |done].
    intros [] w3 [Hi3 Hst3]. by apply wpe_ret.
Qed.
End sim.
