(* ===== verification/StackThms.v ===== *)
(** * What the stack runtime promises

    The theorems about [Stack], [Runner] and [StkFuture], over every allocator
    with the interface [StackAlloc]; the witnesses use the ideal one. *)

From S2P Require Import Prelude Ptr StackAlloc Stack Runner StackInv StackSafe StackEval RunnerSafe StackSim.

Section statements.
Context {V : Type} (unit_value : V) {A : Type} `{!StackAlloc A}.
Context (place_layout : Layout) (task_layout : code V -> Layout).

(** The layouts the runtime allocates are accepted by the allocator. *)
Definition layouts_ok : Prop := sa_layout place_layout /\ forall f, sa_layout (task_layout f).

(** [stack.enter(p).finish_async().await] on an executor that polls again
    after each of [arrivals]. *)
Definition enter_finish_async (p : prog V) (fuel : nat) (cx : Context) (arrivals : list (nat * V))
  : M (world V A) (option V) :=
  do! enter place_layout task_layout (compile p) in
  executor unit_value task_layout fuel cx arrivals.
End statements.

(** ** A concrete program, for the witnesses *)
Definition V0 := nat.
Definition layout0 : Layout := {| lsize := 16; lalign := 8 |}.
Definition task0 : code V0 -> Layout := fun _ => layout0.
Definition stack0 : world V0 ideal_state := new_stack.
Definition cx0 : Context := {| cx_addr := 77; cx_waker := Outside 5 |}.

(** The Fibonacci function of the README, with recursion through the stack. *)
Fixpoint fib (n : nat) : prog nat :=
  match n with
  | O => PRet 0%nat
  | S O => PRet 1%nat
  | S (S m as n') => PRun (fib n') (fun a => PRun (fib m) (fun b => PYield (PRet (a + b)%nat)))
  end.

(** It waits for an outside event and adds one to what it brings. *)
Definition outside_prog : prog nat := PAwait 3 (fun v => PRun (PRet v) (fun u => PRet (S u))).

Lemma layouts_ok0 : layouts_ok (A := ideal_state) layout0 task0.
Proof. by split. Defined.

(** ** Results *)

(** [C1] A recursive program entered on an idle stack and run by [finish] gives
    the value of the recursive function it denotes, for every program, provided
    nothing it waits for is missing: the loop ends within the program's cost,
    the stack is idle again, and the only panics are the allocator's. *)
Theorem finish_computes {V} (unit_value : V) {A} `{!StackAlloc A} place_layout task_layout
    (w : world V A) p v fuel addr needs_drop :
  layouts_ok (A := A) place_layout task_layout -> inv_idle w -> state w = Base ->
  eval (events w) p = Some v -> (cost (events w) p < fuel)%nat ->
  wpe (enter_finish unit_value place_layout task_layout p fuel addr needs_drop) w
    (fun r w' => r = Some v /\ inv_idle w' /\ state w' = Base) sa_fail.
Proof.
  intros [Hpl Htl]. by apply wp_enter_finish.
Qed.

Lemma finish_computes_witness :
  eval ∅ (fib 10) = Some 55%nat /\
  wpe (enter_finish 0%nat layout0 task0 (fib 10) 1000 64 false) stack0
    (fun r w' => r = Some 55%nat /\ inv_idle w' /\ state w' = Base) no_panic.
Proof.
  split; [vm_compute; reflexivity|].
  apply finish_computes; [apply layouts_ok0|apply new_stack_inv|reflexivity|vm_compute; reflexivity|].
  apply Nat.ltb_lt. vm_compute. reflexivity.
Defined.

(** [C2] The asynchronous run gives the same value: whatever order the events the
    program waits for come in, and however often the future is polled before
    they have all come, it ends with the value of the recursive function on all
    of them. *)
Theorem finish_async_computes {V} (unit_value : V) {A} `{!StackAlloc A} place_layout task_layout
    (w : world V A) p v fuel cx arrivals :
  layouts_ok (A := A) place_layout task_layout -> inv_idle w -> state w = Base ->
  arrivals_new arrivals (events w) ->
  eval (deliver arrivals (events w)) p = Some v -> (cost (deliver arrivals (events w)) p < fuel)%nat ->
  wpe (enter_finish_async unit_value place_layout task_layout p fuel cx arrivals) w
    (fun r w' => r = Some v /\ inv_idle w') sa_fail.
Proof.
  intros [Hpl Htl] Hi Hst Hnew Hv Hfuel. apply wpe_bind.
  eapply wpe_post; [by apply wp_enter_repr|]. intros [] w1 [Hr He].
  eapply (wp_executor _ _ Htl _ _ _ _ (CRun p [])); rewrite ?He; [done..|].
  intros ev _ Hev. pose proof (cost_mono _ _ Hev p). cbn. lia.
Qed.

Lemma finish_async_computes_witness :
  eval (deliver [(1%nat, 9%nat); (3%nat, 6%nat)] ∅) outside_prog = Some 7%nat /\
  wpe (enter_finish_async 0%nat layout0 task0 outside_prog 10 cx0 [(1%nat, 9%nat); (3%nat, 6%nat)]) stack0
    (fun r w' => r = Some 7%nat /\ inv_idle w') no_panic.
Proof.
  split; [vm_compute; reflexivity|].
  apply finish_async_computes; [apply layouts_ok0|apply new_stack_inv|reflexivity|..].
  - by split.
  - vm_compute. reflexivity.
  - apply Nat.ltb_lt. vm_compute. reflexivity.
Defined.

(** A synchronous run of a program without a value panics; it neither
    returns nor loops.  If the program panics, however deep in its recursion, the
    message is the program's; otherwise it waits for something outside that has
    not happened, and the message is the one of [Runner::step]. *)
Theorem finish_waiting_panics {V} (unit_value : V) {A} `{!StackAlloc A} place_layout task_layout
    (w : world V A) p fuel addr needs_drop :
  layouts_ok (A := A) place_layout task_layout -> inv_idle w -> state w = Base ->
  eval (events w) p = None -> (cost (events w) p < fuel)%nat ->
  wpe (enter_finish unit_value place_layout task_layout p fuel addr needs_drop) w
    (fun _ _ => False) (fun m => sa_fail m \/ m = default sync_pending (throws (events w) p)).
Proof.
  intros [Hpl Htl] Hi Hst Hv Hfuel. apply wpe_bind.
  eapply wpe_mono; [by apply wp_enter_repr| |by left]. intros [] w1 [Hr He].
  apply wpe_bind. eapply wpe_mono.
  - apply (wp_finish_loop_waits _ _ Htl _ _ _ (CRun p [])); [done|by rewrite He| |lia].
    rewrite He. cbn. lia.
  - by intros.
  - intros m. by rewrite He.
Qed.

Lemma finish_waiting_panics_witness :
  let boom : prog nat := PRun (PThrow "boom") PRet in
  throws (events stack0) outside_prog = None /\ throws (events stack0) boom = Some "boom" /\
  wpe (enter_finish 0%nat layout0 task0 outside_prog 10 64 false) stack0
    (fun _ _ => False) (fun m => no_panic m \/ m = default sync_pending (throws (events stack0) outside_prog)) /\
  wpe (enter_finish 0%nat layout0 task0 boom 10 64 false) stack0
    (fun _ _ => False) (fun m => no_panic m \/ m = default sync_pending (throws (events stack0) boom)).
Proof.
  split; [vm_compute; reflexivity|]. split; [reflexivity|].
  split; apply finish_waiting_panics; [apply layouts_ok0|apply new_stack_inv|reflexivity| | |
    apply layouts_ok0|apply new_stack_inv|reflexivity| |].
  all: try apply Nat.ltb_lt; vm_compute; reflexivity.
Defined.

(** [C31] Any recursive program can be interrupted: stepped by hand, it returns
    [None] for exactly as many steps as the program has polls, with the stack in
    a state from which it can go on or be dropped; the next step gives the value
    of the recursive function and leaves the stack idle.  One step more panics:
    a runner must not be stepped after it has given its value. *)
Theorem step_counts {V} (unit_value : V) {A} `{!StackAlloc A} place_layout task_layout
    (w : world V A) p v n addr :
  layouts_ok (A := A) place_layout task_layout -> inv_idle w -> state w = Base ->
  eval (events w) p = Some v ->
  wpe (do! enter place_layout task_layout (compile p) in step_times unit_value task_layout n addr) w
    (fun xs w' => steps_return (cost (events w) p) v n xs /\
       (if decide (n <= cost (events w) p)%nat then stack_inv w' else inv_idle w'))
    (fun m => sa_fail m \/ (S (cost (events w) p) < n)%nat /\
       m = "called `Option::unwrap()` on a `None` value").
Proof.
  intros [Hpl Htl] Hi Hst Hv. apply wpe_bind.
  eapply wpe_mono; [by apply wp_enter_repr| |by left]. intros [] w1 [Hr He].
  assert (Hc : cost_conf (events w1) (CRun p []) = cost (events w) p) by (rewrite He; cbn; lia).
  rewrite <- Hc. eapply wpe_post; [apply (wp_step_times _ _ Htl n addr w1 (CRun p []) v Hr); by rewrite He|].
  intros xs w' (Hx & Hw & _). split; [done|]. destruct (decide _); [|done].
  destruct Hw as [c' Hr']. by eapply repr_inv.
Qed.

Lemma step_counts_witness :
  eval (events stack0) (fib 5) = Some 5%nat /\
  wpe (do! enter layout0 task0 (compile (fib 5)) in step_times 0%nat task0 29 64) stack0
    (fun xs w' => steps_return (cost (events stack0) (fib 5)) 5%nat 29 xs /\
       (if decide (29 <= cost (events stack0) (fib 5))%nat then stack_inv w' else inv_idle w'))
    (fun m => no_panic m \/ (S (cost (events stack0) (fib 5)) < 29)%nat /\
       m = "called `Option::unwrap()` on a `None` value").
Proof.
  assert (Hv : eval (events stack0) (fib 5) = Some 5%nat) by (vm_compute; reflexivity).
  split; [exact Hv|]. apply step_counts; [apply layouts_ok0|apply new_stack_inv|reflexivity|exact Hv].
Defined.

(** The run itself. *)
Example step_counts_run :
  match (do! enter layout0 task0 (compile (fib 5)) in step_times 0%nat task0 30 64) stack0 with
  | Ok (xs, _) => Some (last xs)
  | _ => None
  end = Some (Some (Some 5%nat)).
Proof. vm_compute. reflexivity. Qed.

(** ** Refinement *)

(** What a step from configuration [c] leaves behind, and how it may panic. *)
Definition step_post {V A} `{!StackAlloc A} (w : world V A) (c : conf V) (o : option V) (w' : world V A) : Prop :=
  match c with
  | CDone v => o = Some v /\ inv_idle w'
  | CRun _ _ | CBack _ _ _ =>
      o = None /\ is_pending (astep (events w) c).1 = false /\
      repr w' (astep (events w) c).2 /\ kept w w'
  end.
Definition step_panics {V A} `{!StackAlloc A} (w : world V A) (c : conf V) (m : string) : Prop :=
  sa_fail m \/ aborts (events w) c = Some m \/
  m = sync_pending /\ is_pending (astep (events w) c).1 = true /\ aborts (events w) c = None.

(** [C3] [Runner::step] implements one step of the abstract machine, in any
    configuration: it returns the value of a finished configuration, otherwise it
    polls exactly the newest task, which returns, calls or waits as the machine
    does, and leaves the events, the wakers, the thread local stack and the
    context address as they were. *)
Theorem step_refines {V} (unit_value : V) {A} `{!StackAlloc A} (task_layout : code V -> Layout)
    (w : world V A) c addr :
  (forall f, sa_layout (task_layout f)) -> repr w c ->
  wpe (step unit_value task_layout addr) w (step_post w c) (step_panics w c).
Proof. intros Htl Hr. by apply wp_step_repr. Qed.

(** A stack entered with a program. *)
Definition entered (p : prog V0) : world V0 ideal_state :=
  match enter layout0 task0 (compile p) stack0 with Ok (_, w) => w | _ => stack0 end.

Lemma entered_repr p : repr (entered p) (CRun p []).
Proof.
  pose proof (wp_enter_repr layout0 task0 I (fun _ => I) stack0 p new_stack_inv eq_refl) as H.
  unfold entered. unfold wpe in H. destruct (enter layout0 task0 (compile p) stack0) as [[[] w]| |];
    [by destruct H|done..].
Qed.

Lemma step_refines_witness :
  (forall f, sa_layout (StackAlloc := ideal) (task0 f)) /\
  wpe (step 0%nat task0 64) (entered (fib 2))
    (step_post (entered (fib 2)) (CRun (fib 2) [])) (step_panics (entered (fib 2)) (CRun (fib 2) [])).
Proof.
  split; [by intros|]. apply (step_refines 0%nat task0 (entered (fib 2)) (CRun (fib 2) [])); [by intros|].
  apply entered_repr.
Defined.

(** [Runner::depth] is the number of calls that are active: the frames of the
    configuration, one for a stack just entered and zero for a finished one. *)
Theorem depth_frames {V} {A} `{!StackAlloc A} (w : world V A) c :
  repr w c -> depth w = Ok (Z.of_nat (frames c), w).
Proof.
  intros Hr. unfold depth, pending_tasks, gets, saturating_sub. rewrite (repr_len _ _ Hr).
  do 2 f_equal. lia.
Qed.

Lemma depth_frames_witness : depth (entered (fib 2)) = Ok (1, entered (fib 2)).
Proof. apply (depth_frames (entered (fib 2)) (CRun (fib 2) [])). apply entered_repr. Defined.

(** ** Safety for arbitrary futures *)

(** Whatever the futures do and whatever sequence of operations the owner makes on
    the stack, no operation is undefined up to the first panic, which ends the run
    here, and every stack they leave satisfies the invariant.  What happens when
    panics unwind and are caught is in [UnwindThms]. *)
Theorem runner_ops_defined {V} (unit_value : V) {A} `{!StackAlloc A} place_layout task_layout os :
  layouts_ok (A := A) place_layout task_layout ->
  safe (run_ops unit_value place_layout task_layout os) (new_stack : world V A)
    (fun _ w => stack_inv w).
Proof. intros [Hpl Htl]. by apply wp_run_ops, inv_is_idle, new_stack_inv. Qed.

Lemma runner_ops_defined_witness :
  layouts_ok (A := ideal_state) layout0 task0 /\
  safe (run_ops 0%nat layout0 task0 [Enter (compile (fib 3)); Step 64; Leak; PollStep cx0; DropRunner true])
    stack0 (fun _ w => stack_inv w).
Proof. split; [apply layouts_ok0|]. apply (runner_ops_defined 0%nat). apply layouts_ok0. Defined.

(** [C38] Dropping a runner at any moment empties the stack without a panic: every
    task and the result place are deallocated in stack order, no result cell is
    left, and the state is [Base]. *)
Theorem drop_runner_clears {V} {A} `{!StackAlloc A} (w : world V A) needs_drop :
  stack_inv w -> exists w', drop_runner needs_drop w = Ok (tt, w') /\ inv_idle w' /\
    state w' = Base /\ heap w' = ∅ /\ results w' = ∅.
Proof.
  intros Hi. apply (wp_drop_runner w needs_drop), wp_ok in Hi as ([] & w' & Hrun & Hi & Hst).
  exists w'. split_and!; [done..| |].
  - by rewrite (shape_heap _ _ (idle_shape _ Hi)).
  - apply map_eq. intros r. rewrite lookup_empty. apply eq_None_not_Some.
    intros Hr%(cells_dom _ _ _ (idle_cells _ Hi)). by apply elem_of_nil in Hr.
Qed.

Lemma drop_runner_clears_witness :
  exists w', drop_runner true (entered (fib 2)) = Ok (tt, w') /\ inv_idle w' /\
    state w' = Base /\ heap w' = ∅ /\ results w' = ∅.
Proof. apply (drop_runner_clears (entered (fib 2))). eapply repr_inv. apply entered_repr. Defined.

(** After [mem::forget] of a runner that still had tasks, [enter] panics
    instead of mixing the old tasks with a new result. *)
Theorem leaked_runner_blocks_enter {V} {A} `{!StackAlloc A} place_layout task_layout
    (w : world V A) f :
  stack_inv w -> ~ inv_idle w -> callable f ->
  enter place_layout task_layout f w
  = Panic "Stack still has unresolved futures, did a previous runner leak?".
Proof.
  intros Hi Hn Hf. apply enter_busy; [done| |done]. destruct Hi as [|? ? Hd|? ? ? ? Hr]; [done|..].
  - by rewrite (done_len _ _ _ Hd).
  - rewrite (run_len _ _ _ _ _ Hr). lia.
Qed.

Lemma leaked_runner_blocks_enter_witness :
  enter layout0 task0 (Ret 1%nat) (entered (fib 2))
  = Panic "Stack still has unresolved futures, did a previous runner leak?".
Proof.
  apply leaked_runner_blocks_enter; [eapply repr_inv; apply entered_repr| |exact I].
  intros Hi. pose proof (idle_len _ Hi) as Hl. rewrite (repr_len _ _ (entered_repr (fib 2))) in Hl.
  discriminate Hl.
Defined.

(** ** Futures polled in other ways *)

(** A future polled for the first time while another one has just been
    pushed (two futures joined, say) panics instead of breaking the stack order. *)
Theorem push_out_of_order_panics {V} {A} `{!StackAlloc A} task_layout (w : world V A) cx f :
  stack_ptr w = true -> state w <> Base -> callable f ->
  poll_stk_future task_layout cx (Initial f) w
  = Panic "Invalid stack state, futures are not being evaluated in stack order.".
Proof.
  intros Hp Hst Hf. unfold poll_stk_future, with_context, bind, gets. rewrite Hp.
  assert (Hc : call (A := A) f = ret f) by by destruct f. rewrite Hc. unfold ret, new_result, is_rebless_context, bind, gets. destruct (_ =? _)%Z; by rewrite push_task_panics.
Qed.

Lemma push_out_of_order_panics_witness :
  poll_stk_future task0 cx0 (Initial (Ret 1%nat)) (set_stack_ptr true (set_state NewTask (entered (fib 2))))
  = Panic "Invalid stack state, futures are not being evaluated in stack order.".
Proof. apply push_out_of_order_panics; [reflexivity|discriminate|exact I]. Defined.

(** [yield_now] never yields: in no poll of a running stack does the driver
    report that a future asked to yield, because no operation enters the state
    [Yield]. *)
Theorem yield_never_reported {V} (unit_value : V) {A} `{!StackAlloc A} (task_layout : code V -> Layout)
    (w : world V A) a t ts pa cx :
  (forall f, sa_layout (task_layout f)) -> inv_running w a t ts pa ->
  safe (drive_top_task unit_value task_layout cx) w (fun r w' => r <> Ready true /\ running_state (state w')).
Proof.
  intros Htl Hr. eapply wpe_post; [by eapply wp_drive_top|]. intros r w' (Hi & _ & Hy).
  split; [done|]. by destruct Hi as [[]|? ? []|? ? ? ? []].
Qed.

Definition yielding : code V0 := YieldNow (fun h => Await h (fun _ => Ret 4%nat)).
Definition task_of (f : code V0) (pa : Z) : task V0 :=
  {| body := Some f; handles := []; place := ToPlace pa; notify := None |}.
Definition entered_code (f : code V0) : world V0 ideal_state :=
  match enter layout0 task0 f stack0 with Ok (_, w) => w | _ => stack0 end.

Lemma entered_code_inv f : callable f -> inv_running (entered_code f) 2 (task_of f 1) [] 1.
Proof.
  intros Hf. assert (Hc : call (A := ideal_state) f = ret f) by by destruct f.
  unfold entered_code, enter, bind at 1. rewrite Hc. cbn [ret].
  split; [|done|done|by intros r Hr%elem_of_nil|done| |by left].
  - split; [|by apply (bool_decide_unpack (NoDup [2; 1]))|done].
    exists [(2, layout0); (1, layout0)]. split; [|done]. split; [done|]. by repeat constructor.
  - split; [constructor| |constructor]. intros r. cbn. rewrite lookup_empty, elem_of_nil.
    split; [done|by intros []].
Qed.

Lemma yield_never_reported_witness :
  (forall f, sa_layout (StackAlloc := ideal) (task0 f)) /\
  safe (drive_top_task 0%nat task0 cx0) (entered_code yielding)
    (fun r w' => r <> Ready true /\ running_state (state w')).
Proof.
  split; [by intros|].
  apply (yield_never_reported 0%nat task0 (entered_code yielding) 2 (task_of yielding 1) [] 1);
    [by intros|by apply entered_code_inv].
Defined.

(** Dropping a call half way undoes it: after the first poll of a future and
    its drop, the tasks, their memory and the result cells are as before the
    poll; only the state still says that a task was pushed. *)
Theorem cancel_undoes_call {V} {A} `{!StackAlloc A} (task_layout : code V -> Layout)
    (w : world V A) a d rs ts pa cx f :
  (forall f, sa_layout (task_layout f)) -> mid w None a d rs ts pa -> state w = Base -> callable f ->
  wpe (let! (p, s) := poll_stk_future task_layout cx (Initial f) in
       do! drop_stk_future pop_cancel_task s in ret p) w
    (fun p w' => p = Pending /\ mid w' None a d rs ts pa /\ state w' = NewTask /\
       len w' = len w /\ heap w' = heap w /\ results w' = results w) sa_fail.
Proof. intros Htl Hm Hst Hf. by apply wp_poll_then_drop. Qed.

Definition polling (f : code V0) : world V0 ideal_state :=
  set_heap (<[2 := CBusy]> (heap (entered_code f))) (set_stack_ptr true (entered_code f)).

Lemma polling_mid f : callable f -> mid (polling f) None 2 (ToPlace 1) [] [] 1.
Proof.
  intros Hf. apply (mid_start (set_stack_ptr true (entered_code f)) 2 (task_of f 1) [] 1); [|done].
  by apply (inv_running_same (entered_code f)), entered_code_inv.
Qed.

Lemma cancel_undoes_call_witness :
  wpe (let! (p, s) := poll_stk_future task0 cx0 (Initial (Ret 1%nat)) in
       do! drop_stk_future pop_cancel_task s in ret p) (polling yielding)
    (fun p w' => p = Pending /\ mid w' None 2 (ToPlace 1) [] [] 1 /\ state w' = NewTask /\
       len w' = len (polling yielding) /\ heap w' = heap (polling yielding) /\
       results w' = results (polling yielding)) no_panic.
Proof.
  exact (cancel_undoes_call task0 (polling yielding) 2 (ToPlace 1) [] [] 1 cx0 (Ret 1%nat)
    (fun _ => I) (polling_mid yielding I) eq_refl I).
Defined.

(** A call cancelled in the poll that would otherwise finish the caller, and then
    a call by the caller's caller. *)
Definition cancelled_call (leaf : code V0) : code V0 :=
  Run leaf (fun h => Poll h None (fun _ => Drop h (Ret 1%nat))).
Definition cancel_then_call (leaf : code V0) : code V0 :=
  Run (cancelled_call leaf) (fun h => Await h (fun _ =>
  Run leaf (fun h' => Await h' Ret))).

(** The state left behind by a cancelled call can outlive the task: when the
    caller returns in the same poll, the next ordinary call on the stack panics,
    whatever is called. *)
Theorem cancelled_call_poisons_next leaf :
  callable leaf ->
  (do! enter layout0 task0 (cancel_then_call leaf) in finish 0%nat task0 10 64 false) stack0
  = Panic "Invalid stack state, futures are not being evaluated in stack order.".
Proof. destruct leaf; [..|done]; intros _; vm_compute; reflexivity. Qed.

(** A future first polled with a context that is not the runtime's (by a
    scheduler in between) remembers that context's waker in its task. *)
Theorem foreign_poll_registers {V} {A} `{!StackAlloc A} (task_layout : code V -> Layout)
    (w : world V A) a d rs ts pa cx f :
  (forall f, sa_layout (task_layout f)) -> mid w None a d rs ts pa -> state w = Base ->
  callable f -> async_context w <> cx_addr cx ->
  wpe (poll_stk_future task_layout cx (Initial f)) w
    (fun r w' => r.1 = Pending /\ exists a',
       mid w' (Some (a', {| body := Some f; handles := []; place := ToCell (next_result w);
                            notify := Some (cx_waker cx) |}))
         a d (next_result w :: rs) ts pa) sa_fail.
Proof.
  intros Htl Hm Hst Hf Hcx. eapply wpe_post; [by eapply wp_poll_first|].
  intros r w' (a' & -> & _ & Hm'). split; [done|]. exists a'.
  by rewrite (proj2 (Z.eqb_neq _ _) Hcx) in Hm'.
Qed.

Lemma foreign_poll_registers_witness :
  async_context (polling yielding) <> cx_addr cx0 /\
  wpe (poll_stk_future task0 cx0 (Initial (Ret 1%nat))) (polling yielding)
    (fun r w' => r.1 = Pending /\ exists a',
       mid w' (Some (a', {| body := Some (Ret 1%nat); handles := []; place := ToCell 0;
                            notify := Some (Outside 5) |}))
         2 (ToPlace 1) [0%nat] [] 1) no_panic.
Proof.
  split; [discriminate|].
  refine (foreign_poll_registers task0 (polling yielding) 2 (ToPlace 1) [] [] 1 cx0 (Ret 1%nat)
    (fun _ => I) (polling_mid yielding I) eq_refl I _). discriminate.
Defined.
