(* ===== verification/Unwind.v ===== *)
(** * Panics that unwind (src/stack/mod.rs, src/stack/future.rs, src/stack/runner.rs)

    In [Stack] and [Runner] a panic ends a run.  Here it unwinds: the frames
    between the panic and its handler drop what they own, and the stack is
    looked at afterwards.  A computation that can unwind returns an [exc]; a panic
    of the monad [M] itself is then a panic while unwinding, an abort.  The
    operations below are those of [Stack] and [Runner] again, with their exits by
    unwinding written out. *)

From S2P Require Import Prelude Exc Ptr Defer StackAlloc Stack Runner.

Section unwind.
Context {V : Type} (unit_value : V) {A : Type} `{!StackAlloc A}.
Context (place_layout : Layout) (task_layout : code V -> Layout).

Abbreviation M_ := (M (world V A)).

(** ** Polls of calls *)
Definition push_task_u (f : code V) (d : dest) (n : option Waker) : M_ (exc unit) :=
  let! old := replace_state NewTask in
  let? _ := catch true (assert (bool_decide (old = Base))
        "Invalid stack state, futures are not being evaluated in stack order.") in
  let? _ := catch true (alloc_future task_layout f d n) in
  ret (Returns tt).

(** The state of the future is part of the result: it is dropped as it was when
    the panic left the poll. *)
Definition poll_stk_future_u (cx : Context) (s : StkFutureState V)
  : M_ (exc (poll V) * StkFutureState V) :=
  let! ptr := gets stack_ptr in
  if (ptr : bool) then
    match s with
    | Initial closure =>
        let! state_ptr := new_result in
        let! r :=
          let? future := catch true (call closure) in
          let! own := is_rebless_context cx in
          if (own : bool) then push_task_u future (ToCell state_ptr) None
          else push_task_u future (ToCell state_ptr) (Some (cx_waker cx)) in
        match r with
        | Returns _ => ret (Returns Pending, Running state_ptr)
        | Unwinds p m => ret (Unwinds p m, Running state_ptr)
        end
    | Running _ | Done => let! (p, s') := poll_stk_future task_layout cx s in ret (Returns p, s')
    end
  else ret (Unwinds false "Not within a stack context", s).

Definition poll_handle_u (cx : Context) (h : handle V) : M_ (exc (poll V) * handle V) :=
  match h with
  | HStk s => let! (p, s') := poll_stk_future_u cx s in ret (p, HStk s')
  | HYield b =>
      let! r := catch false (poll_yield unit_value cx b) in
      match r with
      | Returns (p, b') => ret (Returns p, HYield b')
      | Unwinds p m => ret (Unwinds p m, HYield b)
      end
  end.

(** A poll of user code, with the futures it owns at the panic. *)
Fixpoint exec_u (cx : Context) (c : code V) (hs : list (option (handle V)))
  : M_ (exc (progress V) * list (option (handle V))) :=
  match c with
  | Ret v => ret (Returns (Finished v), hs)
  | Suspend k => ret (Returns (Blocked k), hs)
  | Run f k => exec_u cx (k (length hs)) (hs ++ [Some (HStk (Initial f))])
  | YieldNow k => exec_u cx (k (length hs)) (hs ++ [Some (HYield false)])
  | Poll h c k =>
      let! r := catch false (get_handle hs h) in
      match r with
      | Unwinds p m => ret (Unwinds p m, hs)
      | Returns x =>
          let! (r, x') := poll_handle_u (default cx c) x in
          match r with
          | Unwinds p m => ret (Unwinds p m, <[h := Some x']> hs)
          | Returns p => exec_u cx (k p) (<[h := Some x']> hs)
          end
      end
  | Await h k =>
      let! r := catch false (get_handle hs h) in
      match r with
      | Unwinds p m => ret (Unwinds p m, hs)
      | Returns x =>
          let! (r, x') := poll_handle_u cx x in
          match r with
          | Unwinds p m => ret (Unwinds p m, <[h := Some x']> hs)
          | Returns (Ready v) =>
              do! drop_handle pop_cancel_task (Some x') in
              exec_u cx (k v) (<[h := None]> hs)
          | Returns Pending => ret (Returns (Blocked (Await h k)), <[h := Some x']> hs)
          end
      end
  | Drop h k =>
      let! r := catch false (get_handle hs h) in
      match r with
      | Unwinds p m => ret (Unwinds p m, hs)
      | Returns x =>
          do! drop_handle pop_cancel_task (Some x) in
          exec_u cx k (<[h := None]> hs)
      end
  | PollOutside e k =>
      let! v := gets (fun w => events w !! e) in
      exec_u cx (k (match v with Some x => Ready x | None => Pending end)) hs
  | AwaitOutside e k =>
      let! v := gets (fun w => events w !! e) in
      match v with
      | Some x => exec_u cx (k x) hs
      | None => ret (Returns (Blocked (AwaitOutside e k)), hs)
      end
  | Throw m => ret (Unwinds false m, hs)
  | NoFuture m => ret (Unwinds false m, hs)
  end.

(** ** Driving a task *)

(** What a future is once a panic has left it: polled again, it panics.  This is
    the code the compiler makes of an [async] function, not code of the crate. *)
Definition poisoned : code V := Throw "`async fn` resumed after panicking".

(** What becomes of the task at [a] that a poll has left with the futures [hs]:
    unwinding drops them, and the task stays on the stack. *)
Definition leave_task (a : Z) (t : task V) (r : exc (progress V)) (hs : list (option (handle V)))
  : M_ (exc (poll unit)) :=
  match r with
  | Unwinds p m =>
      do! drop_handles pop_cancel_task hs in
      do! store a (CTask {| body := Some poisoned; handles := []; place := place t;
                            notify := notify t |}) in
      ret (Unwinds p m)
  | Returns (Blocked f') =>
      do! store a (CTask {| body := Some f'; handles := hs; place := place t;
                            notify := notify t |}) in
      ret (Returns Pending)
  | Returns (Finished v) =>
      do! drop_handles pop_cancel_task hs in
      do! finish_task (place t) (notify t) v in
      do! store a (CTask {| body := None; handles := []; place := place t;
                            notify := notify t |}) in
      ret (Returns (Ready tt))
  end.

Definition drive_task_u (a : Z) (cx : Context) : M_ (exc (poll unit)) :=
  let! c := load a in
  match c with
  | CPlace _ | CBusy => ub
  | CTask t =>
      match body t with
      | None => ret (Unwinds false "`async fn` resumed after completion")
      | Some f =>
          do! store a CBusy in
          let! (r, hs) := exec_u cx f (handles t) in
          leave_task a t r hs
      end
  end.

Definition after_poll_u (r : poll unit) : M_ (exc (poll bool)) :=
  match r with
  | Ready _ => do! pop_task in ret (Returns (Ready false))
  | Pending =>
      let! st := gets state in
      match st with
      | Base => ret (Returns Pending)
      | Yield => do! put_state Base in ret (Returns (Ready true))
      | Cancelled => ret (Unwinds false "stack should never be running tasks while cancelling")
      | NewTask => do! put_state Base in ret (Returns (Ready false))
      end
  end.

(** [enter_context] restores the thread local pointer on both exits: that is what
    its [Defer] is for. *)
Definition drive_top_task_u (cx : Context) : M_ (exc (poll bool)) :=
  enter_context (
    let? task := catch false top_task in
    let? r := drive_task_u task cx in
    after_poll_u r).

(** ** Entering *)

(** A panic of the closure, and the one of a stack that is not empty, come before
    the stack is touched.  Those of the allocator stay panics of [M]: the stack
    they leave, entered half way, is not modelled. *)
Definition enter_u (f : code V) : M_ (exc unit) :=
  let? fut := catch false (call f) in
  let! n := gets len in
  if (n =? 0)%Z then do! enter_future place_layout task_layout fut in ret (Returns tt)
  else ret (Unwinds false "Stack still has unresolved futures, did a previous runner leak?").

(** ** Runners *)

(** A panic of the poll skips the reset of the context address. *)
Definition step_u (addr : Z) : M_ (exc (option V)) :=
  let? x := catch false try_get_result in
  match x with
  | Some x => ret (Returns (Some x))
  | None =>
      let context := stub_context addr in
      let! rebless_addr := set_rebless_context context in
      let? r := drive_top_task_u context in
      let? _ := catch false (assert (negb (is_pending r))
            "a non-reblessive future was run while running the reblessive runtime as non-async") in
      let! _ := set_rebless_context_addr rebless_addr in
      ret (Returns None)
  end.

Fixpoint finish_loop_u (fuel : nat) (addr : Z) : M_ (exc (option V)) :=
  match fuel with
  | O => ret (Returns None)
  | S fuel =>
      let? x := step_u addr in
      match x with
      | Some x => ret (Returns (Some x))
      | None => finish_loop_u fuel addr
      end
  end.

(** [finish] owns the runner: it is dropped on both exits. *)
Definition finish_u (fuel : nat) (addr : Z) (needs_drop : bool) : M_ (exc (option V)) :=
  let! r := finish_loop_u fuel addr in
  match r with
  | Returns (Some x) => do! drop_runner needs_drop in ret (Returns (Some x))
  | Returns None => ret (Returns None)
  | Unwinds p m => do! drop_runner needs_drop in ret (Unwinds p m)
  end.

Definition poll_step_u (cx : Context) : M_ (exc (poll (option V))) :=
  let? x := catch false try_get_result in
  match x with
  | Some x => ret (Returns (Ready (Some x)))
  | None =>
      let! rebless_addr := set_rebless_context cx in
      let? r := drive_top_task_u cx in
      let! _ := set_rebless_context_addr rebless_addr in
      match r with
      | Ready _ => ret (Returns (Ready None))
      | Pending => ret (Returns Pending)
      end
  end.

Fixpoint poll_finish_u (fuel : nat) (cx : Context) : M_ (exc (option (poll V))) :=
  match fuel with
  | O => ret (Returns None)
  | S fuel =>
      let? x := catch false try_get_result in
      match x with
      | Some x => ret (Returns (Some (Ready x)))
      | None =>
          let! rebless_addr := set_rebless_context cx in
          let? r := drive_top_task_u cx in
          let! _ := set_rebless_context_addr rebless_addr in
          match r with
          | Ready _ => poll_finish_u fuel cx
          | Pending => ret (Returns (Some Pending))
          end
      end
  end.
End unwind.
