(* ===== verification/UnwindAgree.v ===== *)
(** * Unwinding changes how a run ends, not what it computes

    The operations of [Unwind] against those of [Stack] and [Runner]: where the
    latter return, the former return the same; where the latter panic, the
    former unwind with the same message, unless the unwinding itself goes
    wrong. *)

From S2P Require Import Prelude Exc Ptr Defer StackAlloc Stack Runner Unwind.

Section stack.
Context {V : Type} (unit_value : V) {A : Type} `{!StackAlloc A}.
Context (place_layout : Layout) (task_layout : code V -> Layout).

Lemma push_task_follows f d n :
  follows (S := world V A) (push_task task_layout f d n) (push_task_u task_layout f d n).
Proof.
  apply agrees_same. intros old. apply follows_and_then; [apply follows_catch|]. intros _.
  unfold and_then. apply (agrees_bind Returns unwound); [apply follows_catch|..].
  - intros _. by apply agrees_ret.
  - intros m y [p ->]. apply leaves_ret. by exists p.
Qed.

(** A later poll of a future is the same on both sides. *)
Lemma poll_again_follows cx s w :
  agree returns_with unwound_with (poll_stk_future task_layout cx s w)
    ((let! (p, s') := poll_stk_future task_layout cx s in ret (Returns p, s')) w).
Proof.
  unfold bind. destruct (poll_stk_future task_layout cx s w) as [[[p s'] w']| |]; constructor.
Qed.

Lemma poll_stk_follows cx s :
  follows_with (S := world V A) (poll_stk_future task_layout cx s) (poll_stk_future_u task_layout cx s).
Proof.
  intros w. unfold poll_stk_future_u. destruct (stack_ptr w) eqn:Hp.
  2: { unfold poll_stk_future, with_context, bind, gets. rewrite Hp. constructor. by exists false. }
  destruct s as [closure|r|]; [|unfold bind at 1, gets; rewrite Hp; apply poll_again_follows..].
  unfold poll_stk_future, with_context. revert w Hp. intros w _. revert w. apply agrees_same.
  intros []; [|apply agrees_panic; by exists false].
  apply agrees_same. intros r. apply agrees_assoc2. apply (agrees_bind Returns unwound).
  - apply follows_and_then; [apply follows_catch|]. intros f. apply agrees_same. intros [];
      apply push_task_follows.
  - intros _. by apply agrees_ret.
  - intros m y [p ->]. apply leaves_ret. by exists p.
Qed.

Lemma poll_handle_follows cx h :
  follows_with (S := world V A) (poll_handle unit_value task_layout cx h) (poll_handle_u unit_value task_layout cx h).
Proof.
  destruct h as [s|b]; cbn [poll_handle poll_handle_u].
  - apply (agrees_bind returns_with unwound_with); [apply poll_stk_follows|..].
    + intros [p s']. by apply agrees_ret.
    + intros m [p' s'] [p Hp]. apply leaves_ret. by exists p.
  - apply (agrees_bind Returns unwound); [apply follows_catch|..].
    + intros [p b']. by apply agrees_ret.
    + intros m y [p ->]. apply leaves_ret. by exists p.
Qed.

(** The parts of [exec] that look at the table of futures. *)
Lemma use_handle_follows {X} hs h (k : handle V -> M (world V A) (X * list (option (handle V)))) ku :
  (forall x, follows_with (k x) (ku x)) ->
  follows_with (bind (get_handle hs h) k)
    (let! r := catch false (get_handle hs h) in
     match r with Unwinds p m => ret (Unwinds p m, hs) | Returns x => ku x end).
Proof.
  intros Hk. apply (agrees_bind Returns unwound); [apply follows_catch|done|].
  intros m y [p ->]. apply leaves_ret. by exists p.
Qed.

Lemma exec_follows cx c : forall hs,
  follows_with (S := world V A) (exec unit_value task_layout cx c hs) (exec_u unit_value task_layout cx c hs).
Proof.
  induction c as [v|k IH|f _ k IH|k IH|h c0 k IH|h k IH|h k IH|e k IH|e k IH|m|m]; intros hs; cbn [exec exec_u].
  - by apply agrees_ret.
  - by apply agrees_ret.
  - apply IH.
  - apply IH.
  - apply use_handle_follows. intros x.
    apply (agrees_bind returns_with unwound_with); [apply poll_handle_follows|..].
    + intros [p x']. apply IH.
    + intros m [r x'] [p Hp]. cbn in Hp. subst r. apply leaves_ret. by exists p.
  - apply use_handle_follows. intros x.
    apply (agrees_bind returns_with unwound_with); [apply poll_handle_follows|..].
    + intros [[v|] x']; [apply agrees_same; intros []; apply IH|by apply agrees_ret].
    + intros m [r x'] [p Hp]. cbn in Hp. subst r. apply leaves_ret. by exists p.
  - apply use_handle_follows. intros x. apply agrees_same. intros []. apply IH.
  - apply agrees_same. intros v. apply IH.
  - apply agrees_same. intros [v|]; [apply IH|by apply agrees_ret].
  - apply agrees_panic. by exists false.
  - apply agrees_panic. by exists false.
Qed.

Lemma drive_task_follows a cx :
  follows (S := world V A) (drive_task unit_value task_layout a cx) (drive_task_u unit_value task_layout a cx).
Proof.
  apply agrees_same. intros [t| |]; [|apply agrees_ub..].
  destruct (body t) as [f|]; [|apply agrees_panic; by exists false].
  apply agrees_same. intros []. apply (agrees_bind returns_with unwound_with); [apply exec_follows|..].
  - intros [[v|f'] hs]; do 3 try (apply agrees_same; intros []); by apply agrees_ret.
  - intros m [r hs] [p Hp]. cbn in Hp. subst r. do 2 (apply leaves_do; intros []). apply leaves_ret. by exists p.
Qed.

Lemma drive_top_follows cx :
  follows (S := world V A) (drive_top_task unit_value task_layout cx) (drive_top_task_u unit_value task_layout cx).
Proof.
  apply agrees_same. intros ptr. apply agrees_same. intros []. apply (agrees_bind Returns unwound).
  - apply follows_and_then; [apply follows_catch|]. intros task.
    apply follows_and_then; [apply drive_task_follows|]. intros [[]|].
    + apply agrees_same. intros []. by apply agrees_ret.
    + apply agrees_same. intros []; [by apply agrees_ret| |apply agrees_panic; by exists false|].
      all: apply agrees_same; intros []; by apply agrees_ret.
  - intros r. apply agrees_same. intros []. by apply agrees_ret.
  - intros m y [p ->]. apply leaves_do. intros []. apply leaves_ret. by exists p.
Qed.

Lemma step_follows addr :
  follows (S := world V A) (step unit_value task_layout addr) (step_u unit_value task_layout addr).
Proof.
  apply follows_and_then; [apply follows_catch|]. intros [x|]; [by apply agrees_ret|].
  apply agrees_same. intros old. apply follows_and_then; [apply drive_top_follows|]. intros r.
  apply follows_and_then; [apply follows_catch|]. intros _. apply agrees_same. intros _. by apply agrees_ret.
Qed.

Lemma finish_loop_follows fuel addr :
  follows (S := world V A) (finish_loop unit_value task_layout fuel addr)
    (finish_loop_u unit_value task_layout fuel addr).
Proof.
  induction fuel as [|fuel IH]; [by apply agrees_ret|]. cbn [finish_loop finish_loop_u].
  apply follows_and_then; [apply step_follows|]. intros [x|]; [by apply agrees_ret|apply IH].
Qed.

Lemma finish_follows fuel addr nd :
  follows (S := world V A) (finish unit_value task_layout fuel addr nd)
    (finish_u unit_value task_layout fuel addr nd).
Proof.
  apply (agrees_bind Returns unwound); [apply finish_loop_follows|..].
  - intros [x|]; [|by apply agrees_ret]. apply agrees_same. intros []. by apply agrees_ret.
  - intros m y [p ->]. apply leaves_do. intros []. apply leaves_ret. by exists p.
Qed.

Lemma poll_step_follows cx :
  follows (S := world V A) (poll_step unit_value task_layout cx) (poll_step_u unit_value task_layout cx).
Proof.
  apply follows_and_then; [apply follows_catch|]. intros [x|]; [by apply agrees_ret|].
  apply agrees_same. intros old. apply follows_and_then; [apply drive_top_follows|]. intros r.
  apply agrees_same. intros _. destruct r; by apply agrees_ret.
Qed.

Lemma poll_finish_follows fuel cx :
  follows (S := world V A) (poll_finish unit_value task_layout fuel cx)
    (poll_finish_u unit_value task_layout fuel cx).
Proof.
  induction fuel as [|fuel IH]; [by apply agrees_ret|]. cbn [poll_finish poll_finish_u].
  apply follows_and_then; [apply follows_catch|]. intros [x|]; [by apply agrees_ret|].
  apply agrees_same. intros old. apply follows_and_then; [apply drive_top_follows|]. intros r.
  apply agrees_same. intros _. destruct r; [apply IH|by apply agrees_ret].
Qed.
End stack.
