(* ===== verification/UnwindSafe.v ===== *)
(** * What unwinding leaves behind

    A panic of user code leaves a stack that satisfies the invariant of
    [StackInv]: its task is poisoned and owns nothing.  A panic in the first poll
    of a call leaves one more running future than there are tasks for them
    ([broken]); the drop of these futures pops the task that is being polled. *)

From S2P Require Import Prelude Exc Ptr Defer StackAlloc Stack Runner StackInv StackSafe RunnerSafe Unwind UnwindAgree.

(** [unless_ub c s Q]: [c] started in [s] is undefined, or returns with [Q]. *)
Definition unless_ub {S A} (c : M S A) (s : S) (Q : A -> S -> Prop) : Prop :=
  match c s with Ok (a, s') => Q a s' | Panic _ => False | UB => True end.

Section unless_ub_rules.
Context {S : Type}.
Implicit Types s : S.

Lemma uu_bind {A B} (c : M S A) (k : A -> M S B) s Q :
  unless_ub c s (fun a s' => unless_ub (k a) s' Q) -> unless_ub (bind c k) s Q.
Proof. unfold unless_ub, bind. by destruct (c s) as [[a s']| |]. Qed.

Lemma uu_post {A} (c : M S A) s (Q Q' : A -> S -> Prop) :
  unless_ub c s Q -> (forall a s', Q a s' -> Q' a s') -> unless_ub c s Q'.
Proof. unfold unless_ub. destruct (c s) as [[a s']| |]; auto. Qed.

Lemma uu_wp {A} (c : M S A) s (Q : A -> S -> Prop) : wp c s Q -> unless_ub c s Q.
Proof. unfold unless_ub, wpe, no_panic. by destruct (c s) as [[a s']| |]. Qed.

Lemma uu_wp_bind {A B} (c : M S A) (k : A -> M S B) s Q :
  wp c s (fun a s' => unless_ub (k a) s' Q) -> unless_ub (bind c k) s Q.
Proof. intros H. by apply uu_bind, uu_wp. Qed.

(** The state a computation leaves, if it leaves one. *)
Lemma uu_state {A} (c : M S A) s d (P : S -> Prop) (Q : A -> S -> Prop) :
  unless_ub c s Q -> (forall a s', Q a s' -> P s') -> P d ->
  P match c s with Ok (_, s') => s' | Panic _ | UB => d end.
Proof. unfold unless_ub. destruct (c s) as [[a s']| |]; [intros H HQ _; by apply (HQ a)|done..]. Qed.

Lemma uu_ub {A} s (Q : A -> S -> Prop) : unless_ub ub s Q.
Proof. exact I. Qed.
End unless_ub_rules.

Section unwind_safe.
Context {V : Type} (unit_value : V) {A : Type} `{!StackAlloc A}.
Context (place_layout : Layout) (task_layout : code V -> Layout).
Context (Hplace : sa_layout place_layout) (Htask : forall f, sa_layout (task_layout f)).
Implicit Types w : world V A.

(** ** More running futures than tasks *)

(** The futures of [rs] that wait for a task. *)
Definition no_result (res : gmap nat (option V)) (r : nat) : bool :=
  match res !! r with Some None => true | _ => false end.
Definition waits (res : gmap nat (option V)) (rs : list nat) : list nat :=
  filter (fun r => no_result res r = true) rs.

Lemma no_result_true res r : no_result res r = true <-> res !! r = Some None.
Proof. unfold no_result. by destruct (res !! r) as [[v|]|]. Qed.

Record broken w (ab : option (Z * task V)) (a : Z) (rs : list nat) (ts : list (Z * task V)) (pa : Z) : Prop := {
  bro_shape : shape w (above_cells ab ++ (a, CBusy) :: stack_cells ts pa);
  bro_nodup : NoDup rs;
  bro_waits : length (waits (results w) rs) = S (length (above_cells ab));
  bro_plain : match ab with Some (_, t) => handles t = [] | None => True end;
  bro_state : state w <> Cancelled;
  bro_ptr : stack_ptr w = true;
}.

Lemma waits_ext res res' rs :
  (forall r, r ∈ rs -> res !! r = res' !! r) -> waits res rs = waits res' rs.
Proof.
  intros He. unfold waits. induction rs as [|r rs IH]; [done|]. rewrite !filter_cons.
  rewrite IH by (intros x Hx; apply He; by right).
  unfold no_result. by rewrite (He r) by left.
Qed.

Lemma waits_none res rs : pending_is res rs None -> waits res rs = [].
Proof.
  unfold pending_is, waits. intros H. induction rs as [|r rs IH]; [done|]. rewrite filter_cons.
  rewrite decide_False by (rewrite no_result_true; apply H; left). apply IH. intros x Hx. apply H. by right.
Qed.

Lemma waits_one res rs p : NoDup rs -> pending_is res rs (Some p) -> waits res rs = [p].
Proof.
  unfold pending_is, waits. intros Hn (Hp & Hpn & Ho).
  induction Hn as [|r rs Hr Hn IH]; [by apply elem_of_nil in Hp|]. rewrite filter_cons.
  destruct (decide (r = p)) as [->|Hne].
  - rewrite decide_True by by apply no_result_true. f_equal. apply waits_none. intros x Hx. apply Ho; [by right|].
    by intros ->.
  - rewrite decide_False by (rewrite no_result_true; apply Ho; [left|done]). apply IH.
    + by apply elem_of_cons in Hp as [->|Hp].
    + intros x Hx. apply Ho. by right.
Qed.

(** One more running future, without a task, makes a stack broken. *)
Lemma mid_broken w w' ab a d rs ts pa :
  mid w ab a d rs ts pa ->
  allocator w' = allocator w -> heap w' = heap w -> stack_ptr w' = true ->
  state w' <> Cancelled -> results w' = <[next_result w := None]> (results w) ->
  broken w' ab a (next_result w :: rs) ts pa.
Proof.
  intros [Hs _ _ Hcells Hab _] Ha Hh Hp Hst Hr.
  assert (Hfresh : next_result w ∉ rs).
  { intros Hin. pose proof (cells_lt _ _ _ Hcells) as Hlt. rewrite Forall_forall in Hlt.
    specialize (Hlt (next_result w)). rewrite elem_of_app in Hlt. specialize (Hlt (or_introl Hin)). lia. }
  pose proof (cells_nodup _ _ _ Hcells) as (Hn & _)%NoDup_app.
  split; [by apply (shape_same w)|by constructor| |by destruct ab as [[]|]; [apply Hab|]|done|done].
  rewrite Hr. unfold waits. rewrite filter_cons, decide_True by apply no_result_true, lookup_insert_eq. cbn. f_equal.
  fold (waits (<[next_result w := None]> (results w)) rs).
  rewrite (waits_ext _ (results w)) by (intros x Hx; apply lookup_insert_ne; by intros <-).
  destruct ab as [[a1 t1]|]; cbn.
  - destruct Hab as (_ & _ & _ & r & _ & Hpend). by rewrite (waits_one _ _ r).
  - by rewrite waits_none by apply Hab.
Qed.

Lemma broken_perm w ab a rs rs' ts pa : rs ≡ₚ rs' -> broken w ab a rs ts pa -> broken w ab a rs' ts pa.
Proof.
  intros Hp [Hs Hn Hw Ht Hst Hptr]. split; try done; [by rewrite <- Hp|].
  rewrite <- Hw. unfold waits. by rewrite Hp.
Qed.

(** Dropping one of the futures of a broken stack: if it waits, a task is popped,
    and if there is none left above, the one popped is being polled. *)
Lemma broken_pop w ab a rs ts pa :
  broken w ab a rs ts pa ->
  unless_ub pop_cancel_task w (fun _ w' => exists at_, ab = Some at_ /\
    shape w' ((a, CBusy) :: stack_cells ts pa) /\ results w' = results w /\
    state w' <> Cancelled /\ stack_ptr w' = true).
Proof.
  intros [Hs _ _ Ht Hst Hptr]. destruct ab as [[a1 t1]|]; cbn [above_cells app] in Hs.
  - apply uu_wp. eapply wp_pop_cancel_plain; [exact Hs|done|]. intros al h w' Hs'.
    by exists (a1, t1).
  - apply uu_wp_bind, wpe_bind, wpe_gets, wpe_bind, wpe_modify, wpe_ret, uu_bind, uu_wp_bind.
    eapply wp_top_task; [destruct Hs; by split|]. apply uu_bind, uu_wp_bind.
    eapply wp_load; [destruct Hs; by split|left|]. apply uu_ub.
Qed.

Lemma broken_drop_handle x w ab a rs ts pa :
  broken w ab a (handle_runs x ++ rs) ts pa ->
  unless_ub (drop_handle pop_cancel_task x) w (fun _ w' => exists ab', broken w' ab' a rs ts pa).
Proof.
  intros Hb. destruct x as [[[f|r|]|b]|]; cbn [handle_runs app] in Hb;
    try by (exists ab; exact Hb).
  apply uu_bind. unfold take_result, unless_ub, bind at 1 2, gets, deref.
  destruct (results w !! r) as [o|] eqn:Ho; [|done]. cbn [ret bind modify].
  pose proof Hb as [Hs [Hr Hn]%NoDup_cons Hw Ht Hst Hptr].
  assert (Hout : forall res, res = delete r (<[r := None]> (results w)) -> waits res rs = waits (results w) rs).
  { intros res ->. apply waits_ext. intros x Hx. rewrite lookup_delete_ne by by intros <-.
    apply lookup_insert_ne. by intros <-. }
  unfold waits in Hw. rewrite filter_cons in Hw. fold (waits (results w) rs) in Hw. destruct o as [v|].
  - rewrite decide_False in Hw by (rewrite no_result_true; congruence).
    apply uu_wp_bind, wpe_ret, uu_wp, wpe_modify. exists ab. split; try done; [by apply (shape_same w)|].
    cbn. by rewrite Hout.
  - rewrite decide_True in Hw by by apply no_result_true. cbn in Hw.
    set (w1 := set_results _ _ _).
    assert (Hb1 : broken w1 ab a (r :: rs) ts pa).
    { split; try done; [by apply (shape_same w)|by constructor|].
      change (results w1) with (<[r := None]> (results w)).
      unfold waits. rewrite filter_cons, decide_True by apply no_result_true, lookup_insert_eq.
      rewrite <- Hw. cbn [length]. do 2 f_equal. apply waits_ext. intros x Hx. apply lookup_insert_ne. by intros <-. }
    apply uu_bind. unfold with_context. apply uu_wp_bind, wpe_gets. rewrite (bro_ptr _ _ _ _ _ _ Hb1).
    apply uu_wp_bind, wpe_gets. rewrite bool_decide_true by exact (bro_state _ _ _ _ _ _ Hb1).
    eapply uu_post; [by eapply broken_pop|]. intros [] w2 (at_ & -> & Hs2 & Hr2 & Hst2 & Hptr2).
    apply uu_wp, wpe_modify. exists None. split; try done; [by apply (shape_same w2)|].
    cbn [results set_results]. rewrite Hout by by rewrite Hr2. cbn in Hw. injection Hw as ->. done.
Qed.

Lemma broken_drop_handles hs : forall w ab a rs ts pa,
  broken w ab a (runs hs ++ rs) ts pa ->
  unless_ub (drop_handles pop_cancel_task hs) w (fun _ w' => exists ab', broken w' ab' a rs ts pa).
Proof.
  induction hs as [|x hs IH]; intros w ab a rs ts pa Hb; cbn [drop_handles]; [by exists ab|].
  apply uu_bind. eapply uu_post.
  - apply (IH _ ab a (handle_runs x ++ rs) ts pa). eapply broken_perm; [|done].
    unfold runs. cbn. solve_Permutation.
  - intros [] w' (ab' & Hb'). by eapply broken_drop_handle.
Qed.

(** There is always one too many. *)
Lemma broken_unwinds_ub hs w ab a ts pa :
  broken w ab a (runs hs) ts pa -> drop_handles pop_cancel_task hs w = UB.
Proof.
  intros Hb. rewrite <- (app_nil_r (runs hs)) in Hb. pose proof (broken_drop_handles _ _ _ _ _ _ _ Hb) as H.
  unfold unless_ub in H. destruct (drop_handles _ hs w) as [[[] w']| |]; [|done..].
  destruct H as (ab' & [_ _ Hw _ _ _]). done.
Qed.

(** ** Polls that unwind *)

(** A poll of the task at [a], which owns the running futures [rs], is left with
    the stack in order, or broken by a panic of a first poll. *)
Definition left_as {X} (a : Z) (d : dest) (rs : list nat) ts pa (r : exc X) w : Prop :=
  match r with
  | Unwinds true _ => exists ab, broken w ab a rs ts pa
  | Returns _ | Unwinds false _ => exists ab, mid w ab a d rs ts pa
  end.

Lemma left_as_perm {X} a d rs rs' ts pa (r : exc X) w :
  rs ≡ₚ rs' -> left_as a d rs ts pa r w -> left_as a d rs' ts pa r w.
Proof.
  intros Hp. destruct r as [x|[] m]; intros [ab H]; exists ab;
    first [by eapply mid_perm|by eapply broken_perm].
Qed.

Lemma left_as_unwinds {X Y} a d rs ts pa p m w :
  left_as (X := X) a d rs ts pa (Unwinds p m) w -> left_as (X := Y) a d rs ts pa (Unwinds p m) w.
Proof. done. Qed.

(** The first poll: every panic of it leaves a future without a task. *)
Lemma push_base_u w f d n :
  state w = Base ->
  push_task_u task_layout f d n w =
    match push_task task_layout f d n w with
    | Ok (x, w') => Ok (Returns x, w')
    | Panic m => Ok (Unwinds true m, set_state NewTask w)
    | UB => UB
    end.
Proof.
  intros Hst. unfold push_task_u, push_task, and_then, catch, replace_state, put_state, assert, bind, gets,
    modify, ret. rewrite Hst, bool_decide_true by done.
  destruct (alloc_future task_layout f d n (set_state NewTask w)) as [[x w']| |]; done.
Qed.

Lemma mid_push_u w ab a d rs ts pa f n :
  let r := next_result w in
  let w1 := set_results (<[r := None]> (results w)) (S r) w in
  mid w ab a d rs ts pa ->
  wp (push_task_u task_layout f (ToCell r) n) w1 (fun x w' => left_as a d (r :: rs) ts pa x w' /\
    forall m, x <> Unwinds false m).
Proof.
  intros r w1 Hm. assert (Hbro : broken (set_state NewTask w1) ab a (r :: rs) ts pa).
  { eapply mid_broken; try done. by apply (mid_ptr _ _ _ _ _ _ _ Hm). }
  destruct (decide (state w = Base)) as [Hst|Hst].
  - destruct ab as [[a1 t1]|]; [destruct (mid_above _ _ _ _ _ _ _ Hm); congruence|].
    pose proof (mid_push_base task_layout Htask w a d rs ts pa f n Hm Hst) as Hp.
    unfold wpe in *. rewrite push_base_u by done. cbn zeta in Hp. fold r in Hp. fold w1 in Hp.
    destruct (push_task task_layout f (ToCell r) n w1) as [[[] w2]| |]; [|split; [by exists None|done]|done].
    destruct Hp as [[a' Hm'] _]. split; [by eexists|done].
  - unfold wpe, push_task_u, and_then, catch, replace_state, put_state, assert, bind, gets, modify, ret.
    rewrite bool_decide_false by done. split; [by exists ab|done].
Qed.

Lemma mid_poll_stk_u w ab a d cx s rs ts pa :
  mid w ab a d (handle_runs (Some (HStk s)) ++ rs) ts pa ->
  wp (poll_stk_future_u task_layout cx s) w (fun r w' =>
    left_as a d (handle_runs (Some (HStk r.2)) ++ rs) ts pa r.1 w').
Proof.
  intros Hm. unfold poll_stk_future_u. apply wpe_bind, wpe_gets. rewrite (mid_ptr _ _ _ _ _ _ _ Hm).
  destruct s as [f|r|].
  2,3: apply wpe_bind; eapply wpe_post; [by eapply mid_poll_again|]; intros [p s'] w' Hm'; by exists ab.
  cbn [handle_runs app] in Hm. apply wpe_bind. eapply wpe_value; [done|]. apply wpe_bind.
  set (w1 := set_results _ _ _).
  eapply wpe_post with (Q := fun x w' => left_as a d (next_result w :: rs) ts pa x w').
  - unfold and_then. apply wpe_bind. destruct (catch true (call f) w1) as [[[f'|p m] w2]| |] eqn:Hc.
    + assert (w2 = w1) as -> by by destruct f; injection Hc as _ <-.
      eapply wpe_value; [exact Hc|]. apply wpe_bind, wpe_gets.
      match goal with |- context [if ?b then _ else _] => destruct b end;
        (eapply wpe_post; [by eapply mid_push_u|]); by intros x w' [Hx _].
    + eapply wpe_value; [exact Hc|]. apply wpe_ret. destruct f; try done. injection Hc as <- _ <-.
      exists ab. eapply mid_broken; try done; [apply (mid_ptr _ _ _ _ _ _ _ Hm)|].
      pose proof (mid_above _ _ _ _ _ _ _ Hm) as Hab. cbn. destruct ab as [[]|].
      * by rewrite (proj1 Hab).
      * by destruct Hab as [_ [->| ->]].
    + by destruct f.
    + by destruct f.
  - intros [x|p m] w' H; by apply wpe_ret.
Qed.

(** A first poll succeeds in state [Base] only, and leaves it. *)
Lemma first_poll_u w ab a d rs ts pa cx g :
  mid w ab a d rs ts pa ->
  wp (poll_stk_future_u task_layout cx (Initial g)) w (fun r w' => exists x, r.2 = Running x /\
    ((exists m, r.1 = Unwinds true m) \/
     (r.1 = Returns Pending /\ state w = Base /\ exists at_, mid w' (Some at_) a d (x :: rs) ts pa))).
Proof.
  intros Hm. unfold poll_stk_future_u. apply wpe_bind, wpe_gets. rewrite (mid_ptr _ _ _ _ _ _ _ Hm).
  apply wpe_bind. eapply wpe_value; [done|]. apply wpe_bind. set (w1 := set_results _ _ _).
  eapply wpe_post with (Q := fun x w' => (exists m, x = Unwinds true m) \/
    (x = Returns tt /\ state w = Base /\ exists at_, mid w' (Some at_) a d (next_result w :: rs) ts pa)).
  2: { intros [[]|p m] w' H; apply wpe_ret; exists (next_result w); (split; [done|]).
       - destruct H as [[m H]|[_ H]]; [done|by right].
       - destruct H as [[m' [= -> ->]]|[H _]]; [left; by exists m'|done]. }
  assert (Hpush : forall f n, wp (push_task_u task_layout f (ToCell (next_result w)) n) w1 (fun x w' =>
    (exists m, x = Unwinds true m) \/
    (x = Returns tt /\ state w = Base /\ exists at_, mid w' (Some at_) a d (next_result w :: rs) ts pa))).
  { intros f n. destruct (decide (state w = Base)) as [Hst|Hst].
    - destruct ab as [[a1 t1]|]; [destruct (mid_above _ _ _ _ _ _ _ Hm); congruence|].
      pose proof (mid_push_base task_layout Htask w a d rs ts pa f n Hm Hst) as Hp.
      unfold wpe in *. rewrite push_base_u by done. cbn zeta in Hp. fold w1 in Hp.
      destruct (push_task _ _ _ _ w1) as [[[] w2]| |]; [|left; by eexists|done].
      destruct Hp as [[a' Hm'] _]. right. split_and!; [done..|]. by eexists.
    - unfold wpe, push_task_u, and_then, catch, replace_state, put_state, assert, bind, gets, modify, ret.
      rewrite bool_decide_false by done. left. by eexists. }
  unfold and_then. apply wpe_bind. assert (call g w1 = Ok (g, w1) \/ exists m, g = NoFuture m) as [Hg|[m ->]]
    by (destruct g; eauto).
  - eapply wpe_value; [unfold catch; by rewrite Hg|]. apply wpe_bind, wpe_gets.
    match goal with |- context [if ?b then _ else _] => destruct b end; apply Hpush.
  - apply wpe_ret. left. by exists m.
Qed.

Lemma mid_poll_handle_u w ab a d cx x rs ts pa :
  mid w ab a d (handle_runs (Some x) ++ rs) ts pa ->
  wp (poll_handle_u unit_value task_layout cx x) w (fun r w' =>
    left_as a d (handle_runs (Some r.2) ++ rs) ts pa r.1 w').
Proof.
  intros Hm. destruct x as [s|b]; cbn [poll_handle_u]; apply wpe_bind.
  - eapply wpe_post; [by eapply mid_poll_stk_u|]. intros [p s'] w' H. by apply wpe_ret.
  - eapply wpe_value; [unfold catch; by erewrite poll_yield_ready|]. apply wpe_ret. by exists ab.
Qed.

Lemma left_as_back {X} w ab a d (hs : list (option (handle V))) h x ts pa :
  hs !! h = Some x -> mid w ab a d (runs hs ++ []) ts pa ->
  exists R, mid w ab a d (handle_runs x ++ R) ts pa /\
    forall y (r : exc X) w', left_as a d (handle_runs y ++ R) ts pa r w' ->
      left_as a d (runs (<[h := y]> hs) ++ []) ts pa r w'.
Proof.
  intros Hx Hm. destruct (runs_split hs h x Hx) as (R & HR & Hy). exists R. split.
  - eapply mid_perm; [|done]. by rewrite HR, app_nil_r.
  - intros y r w' Hl. eapply left_as_perm; [|done]. by rewrite app_nil_r, Hy.
Qed.

Lemma wp_use_handle {X} hs h w (k : handle V -> M (world V A) (exc X * list (option (handle V)))) Q :
  (forall x, hs !! h = Some (Some x) -> wp (k x) w Q) ->
  (forall m, Q (Unwinds false m, hs) w) ->
  wp (let! r := catch false (get_handle hs h) in
      match r with Unwinds p m => ret (Unwinds p m, hs) | Returns x => k x end) w Q.
Proof.
  intros Hk Hq. apply wpe_bind. unfold get_handle, catch.
  destruct (hs !! h) as [[x|]|] eqn:Hx; (eapply wpe_value; [done|]); [by apply Hk|by apply wpe_ret..].
Qed.

Lemma mid_exec_u c : forall w ab a d cx hs ts pa,
  mid w ab a d (runs hs ++ []) ts pa ->
  wp (exec_u unit_value task_layout cx c hs) w (fun r w' => left_as a d (runs r.2 ++ []) ts pa r.1 w').
Proof.
  induction c as [v|k IH|f _ k IH|k IH|h c0 k IH|h k IH|h k IH|e k IH|e k IH|m|m];
    intros w ab a d cx hs ts pa Hm; cbn [exec_u].
  - by exists ab.
  - by exists ab.
  - eapply IH. by rewrite runs_snoc.
  - eapply IH. by rewrite runs_snoc.
  - apply wp_use_handle; [|by exists ab]. intros x Hx.
    destruct (left_as_back (X := poll V) _ _ _ _ _ _ _ _ _ Hx Hm) as (R & Hm1 & Hback).
    apply wpe_bind. eapply wpe_post; [by eapply mid_poll_handle_u|].
    intros [[p|p m] x'] w' Hl; apply (Hback (Some x')) in Hl; [|by apply wpe_ret].
    destruct Hl as [ab' Hm']. by eapply IH.
  - apply wp_use_handle; [|by exists ab]. intros x Hx.
    destruct (left_as_back (X := poll V) _ _ _ _ _ _ _ _ _ Hx Hm) as (R & Hm1 & Hback).
    apply wpe_bind. eapply wpe_post; [by eapply mid_poll_handle_u|].
    intros [[[v|]|p m] x'] w' Hl.
    + destruct Hl as [ab' Hm']. apply wpe_bind. eapply wpe_post; [by eapply mid_drop_handle|].
      intros [] w2 [ab2 Hm2]. specialize (Hback None (Returns Pending) w2).
      destruct Hback as [ab3 Hm3]; [by exists ab2|]. by eapply IH.
    + apply (Hback (Some x')) in Hl. by apply wpe_ret.
    + apply (Hback (Some x')) in Hl. by apply wpe_ret.
  - apply wp_use_handle; [|by exists ab]. intros x Hx.
    destruct (left_as_back (X := poll V) _ _ _ _ _ _ _ _ _ Hx Hm) as (R & Hm1 & Hback).
    apply wpe_bind. eapply wpe_post; [by eapply mid_drop_handle|].
    intros [] w2 [ab2 Hm2]. specialize (Hback None (Returns Pending) w2).
    destruct Hback as [ab3 Hm3]; [by exists ab2|]. by eapply IH.
  - apply wpe_bind, wpe_gets. by eapply IH.
  - apply wpe_bind, wpe_gets. destruct (events w !! e); [by eapply IH|]. apply wpe_ret. by exists ab.
  - by exists ab.
  - by exists ab.
Qed.

(** A poll of user code that makes a call and awaits it: a panic of the closure is
    a panic of the first poll. *)
Lemma exec_closure_panics w ab a d cx hs ts pa m k :
  mid w ab a d (runs hs ++ []) ts pa ->
  exists hs' w', exec_u unit_value task_layout cx (Run (NoFuture m) (fun h => Await h k)) hs w
    = Ok (Unwinds true m, hs', w').
Proof.
  intros Hm. cbn [exec_u]. unfold bind at 1, catch, get_handle.
  rewrite (list_lookup_middle hs []) by done. cbn [ret].
  unfold poll_handle_u, poll_stk_future_u, bind, gets. rewrite (mid_ptr _ _ _ _ _ _ _ Hm). cbn. by do 2 eexists.
Qed.

(** Two calls polled in one poll: the second one, if not the first. *)
Lemma exec_join_panics w ab a d cx hs ts pa g g' c c' k :
  mid w ab a d (runs hs ++ []) ts pa ->
  exists m hs' w', exec_u unit_value task_layout cx
    (Run g (fun h => Run g' (fun h' => Poll h c (fun _ => Poll h' c' k)))) hs w
    = Ok (Unwinds true m, hs', w').
Proof.
  intros Hm. cbn [exec_u]. set (hs2 := (hs ++ _) ++ _).
  assert (H1 : hs2 !! length hs = Some (Some (HStk (Initial g)))).
  { unfold hs2. rewrite <- app_assoc. by apply list_lookup_middle. }
  assert (H2 : forall y, <[length hs := y]> hs2 !! length (hs ++ [Some (HStk (Initial g))])
      = Some (Some (HStk (Initial g')))).
  { intros y. rewrite list_lookup_insert_ne by (rewrite length_app; cbn; lia). unfold hs2.
    by apply list_lookup_middle. }
  unfold bind at 1, catch at 1, get_handle at 1. rewrite H1. cbn [ret].
  pose proof (first_poll_u _ _ _ _ _ _ _ (default cx c) g Hm) as Hp. unfold wpe in Hp.
  unfold poll_handle_u at 1, bind at 1 2.
  destruct (poll_stk_future_u task_layout (default cx c) (Initial g) w) as [[[r1 s1] w1]| |]; [|done..].
  destruct Hp as (x & Hx & [[m Hr]|(Hr & _ & at_ & Hm1)]); cbn in Hx, Hr; subst; cbn [ret]; [by do 3 eexists|].
  unfold bind at 1, catch at 1, get_handle at 1. rewrite H2. cbn [ret].
  pose proof (first_poll_u _ _ _ _ _ _ _ (default cx c') g' Hm1) as Hp. unfold wpe in Hp.
  unfold poll_handle_u at 1, bind at 1 2.
  destruct (poll_stk_future_u task_layout (default cx c') (Initial g') w1) as [[[r2 s2] w2]| |]; [|done..].
  destruct Hp as (y & Hy & [[m Hr]|(Hr & Hb & _)]); cbn in Hy, Hr; subst; cbn [ret]; [by do 3 eexists|].
  pose proof (mid_above _ _ _ _ _ _ _ Hm1) as Hab. destruct at_ as [a1 t1]. destruct Hab. congruence.
Qed.

(** ** Driving the newest task *)

(** The stack as the poll of its newest task starts. *)
Definition poll_start (w : world V A) (a : Z) : world V A :=
  set_heap (<[a := CBusy]> (heap w)) (set_stack_ptr true w).

Lemma mid_poll_start w a t ts pa :
  inv_running w a t ts pa -> mid (poll_start w a) None a (place t) (runs (handles t) ++ []) ts pa.
Proof.
  intros Hr. rewrite app_nil_r. apply (mid_start (set_stack_ptr true w)); [|done].
  by apply (inv_running_same w).
Qed.

Lemma poll_start_reads w a t ts pa :
  inv_running w a t ts pa ->
  top_task (set_stack_ptr true w) = Ok (a, set_stack_ptr true w) /\
  load a (set_stack_ptr true w) = Ok (CTask t, set_stack_ptr true w).
Proof.
  intros Hrun. assert (Hrun0 : inv_running (set_stack_ptr true w) a t ts pa) by by apply (inv_running_same w).
  pose proof (run_shape _ _ _ _ _ Hrun0) as Hs0. split.
  - pose proof (wp_top_task no_panic _ _ _ _ (fun x w' => x = a /\ w' = set_stack_ptr true w) Hs0 (conj eq_refl eq_refl)) as H.
    unfold wpe in H. destruct (top_task _) as [[x w']| |]; [|done..]. by destruct H as [-> ->].
  - unfold load. by rewrite (shape_lookup _ _ a (CTask t) Hs0 ltac:(left)).
Qed.

(** A poll that left the stack in order keeps the invariant: a task left by a
    panic owns nothing any more, and panics if it is polled again. *)
Lemma wp_leave_task w ab a (t : task V) hs ts pa r :
  mid w ab a (place t) (runs hs ++ []) ts pa -> (forall m, r <> Unwinds true m) ->
  wp (let? r := leave_task a t r hs in after_poll_u r) w
    (fun x w' => stack_inv w' /\ forall p m, x = Unwinds p m -> r = Unwinds p m).
Proof.
  intros Hm Hr. assert (Hst : forall w' ab' rs, mid w' ab' a (place t) rs ts pa -> running_state (state w')).
  { intros w' ab' rs Hm'. pose proof (mid_above _ _ _ _ _ _ _ Hm') as Hab. destruct ab' as [[a1 t1]|].
    - right. by destruct Hab.
    - by destruct Hab. }
  destruct r as [[v|f']|[] m]; [..|by destruct (Hr m)|].
  - apply wpe_bind, wpe_bind. eapply wpe_post; [by eapply mid_drop_handles|]. intros [] w1 [ab1 Hm1].
    apply wpe_bind. eapply wpe_post; [by eapply mid_finish|]. intros [] w2 [Hpop _].
    set (t' := {| body := None; handles := []; place := place t; notify := notify t |}).
    pose proof (wp_pop_ready w2 a t' _ _ _ _ no_panic Hpop eq_refl) as Hw.
    apply wpe_bind, wpe_modify, wpe_ret. unfold after_poll_u, wpe, bind, store, modify, ret in *.
    destruct (pop_task _) as [[[] w3]| |]; [|done..].
    destruct Hw as (_ & Hset & _). split; [by eapply settled_inv|done].
  - apply wpe_bind, wpe_bind, wpe_modify, wpe_ret, wpe_bind, wpe_gets.
    set (t' := {| body := Some f'; handles := hs; place := place t; notify := notify t |}).
    assert (Hsusp := mid_suspend_inv w ab a t' ts pa).
    cbn [state set_heap]. destruct (Hst _ _ _ Hm) as [Hst1|Hst1]; rewrite Hst1.
    + apply wpe_ret. split; [|done]. apply Hsusp; try done. by left.
    + apply wpe_bind, wpe_modify, wpe_ret. split; [|done]. apply Hsusp; try done. by left.
  - apply wpe_bind, wpe_bind. eapply wpe_post; [by eapply mid_drop_handles|]. intros [] w1 [ab1 Hm1].
    apply wpe_bind, wpe_modify, wpe_ret, wpe_ret.
    set (t' := {| body := Some poisoned; handles := []; place := place t; notify := notify t |}).
    split; [|by intros ? ? [= <- <-]]. apply (mid_suspend_inv w1 ab1 a t' ts pa); try done. exact (Hst _ _ _ Hm1).
Qed.

(** A poll of a running stack, whatever its newest task does: it is undefined if
    it unwinds from the first poll of a call, and only then.  It unwinds only if
    the code of the task did, with the same message. *)
Lemma drive_u_exits w a t ts pa f cx :
  inv_running w a t ts pa -> body t = Some f ->
  match exec_u unit_value task_layout cx f (handles t) (poll_start w a) with
  | Ok (Unwinds true _, _, _) => drive_top_task_u unit_value task_layout cx w = UB
  | Ok (r, _, _) => wp (drive_top_task_u unit_value task_layout cx) w
              (fun x w' => (stack_inv w' /\ stack_ptr w' = stack_ptr w) /\
                 forall p m, x = Unwinds p m -> r = Unwinds p m)
  | Panic _ | UB => False
  end.
Proof.
  intros Hrun Hf. pose proof (mid_exec_u f _ _ _ _ cx _ _ _ (mid_poll_start _ _ _ _ _ Hrun)) as He.
  destruct (poll_start_reads _ _ _ _ _ Hrun) as [Ht Hl].
  assert (Hd : drive_top_task_u unit_value task_layout cx w =
    match exec_u unit_value task_layout cx f (handles t) (poll_start w a) with
    | Ok (r, hs, w1) =>
        match (let? r := leave_task a t r hs in after_poll_u r) w1 with
        | Ok (r, w2) => Ok (r, set_stack_ptr (stack_ptr w) w2)
        | Panic m => Panic m
        | UB => UB
        end
    | Panic m => Panic m
    | UB => UB
    end).
  { unfold drive_top_task_u, enter_context, bind at 1, gets. unfold bind at 1, modify. unfold bind at 1.
    unfold and_then at 1, bind at 1, catch. rewrite Ht. unfold and_then, drive_task_u, bind, store, modify.
    rewrite Hl, Hf.
    change (set_heap (<[a := CBusy]> (heap (set_stack_ptr true w))) (set_stack_ptr true w)) with (poll_start w a).
    destruct (exec_u _ _ _ _ _ _) as [[[r hs] w1]| |]; [|done..]. cbn [ret].
    destruct (leave_task a t r hs w1) as [[[x|p m] w2]| |]; [|done..]. cbn [ret].
    by destruct (after_poll_u x w2) as [[y w3]| |]. }
  rewrite Hd. unfold wpe in He.
  destruct (exec_u _ _ _ _ _ _) as [[[r hs] w1]| |]; [|done..]. cbn [fst snd] in He.
  assert (Hok : forall ab, mid w1 ab a (place t) (runs hs ++ []) ts pa -> (forall m, r <> Unwinds true m) ->
    wp (fun w => match (let? r := leave_task a t r hs in after_poll_u r) w1 with
        | Ok (r, w2) => Ok (r, set_stack_ptr (stack_ptr w) w2)
        | Panic m => Panic m
        | UB => UB
        end) w (fun x w' => (stack_inv w' /\ stack_ptr w' = stack_ptr w) /\
                  forall p m, x = Unwinds p m -> r = Unwinds p m)).
  { intros ab Hm Hr. pose proof (wp_leave_task _ _ _ _ _ _ _ _ Hm Hr) as H. unfold wpe in *.
    destruct ((let? r := leave_task a t r hs in after_poll_u r) w1) as [[b w2]| |]; [|done..].
    destruct H as [Hi H]. split; [|exact H]. split; [|done]. by apply (stack_inv_same w2). }
  unfold wpe in *. rewrite Hd. destruct r as [x|[] m]; cbn [left_as] in He.
  - destruct He as [ab He]. by apply (Hok ab).
  - destruct He as [ab He]. rewrite app_nil_r in He. unfold and_then, leave_task, bind.
    by rewrite (broken_unwinds_ub _ _ _ _ _ _ He).
  - destruct He as [ab He]. by apply (Hok ab).
Qed.

Lemma drive_u_cases w a t ts pa f cx :
  inv_running w a t ts pa -> body t = Some f ->
  match exec_u unit_value task_layout cx f (handles t) (poll_start w a) with
  | Ok (Unwinds true _, _, _) => drive_top_task_u unit_value task_layout cx w = UB
  | Ok _ => wp (drive_top_task_u unit_value task_layout cx) w
              (fun _ w' => stack_inv w' /\ stack_ptr w' = stack_ptr w)
  | Panic _ | UB => False
  end.
Proof.
  intros Hrun Hf. pose proof (drive_u_exits w a t ts pa f cx Hrun Hf) as H.
  destruct (exec_u _ _ _ _ _ _) as [[[[x|[] m] hs] w1]| |]; [|done| |done..].
  all: eapply wpe_post; [exact H|]; by intros ? ? [].
Qed.

(** ** Runners *)
Lemma uu_drive w cx :
  (inv_idle w \/ exists a t ts pa, inv_running w a t ts pa) ->
  unless_ub (drive_top_task_u unit_value task_layout cx) w
    (fun _ w' => stack_inv w' /\ stack_ptr w' = stack_ptr w).
Proof.
  intros [Hi|(a & t & ts & pa & Hr)].
  - destruct (idle_shape _ Hi) as [(L & HL & Hm) _ _]. destruct L; [|done].
    unfold unless_ub, drive_top_task_u, enter_context, and_then, catch, top_task, on_alloc, bind, gets, modify.
    cbn. rewrite (sa_top_ok _ _ HL). cbn. split; [|done]. apply inv_is_idle. by apply (inv_idle_same w).
  - pose proof (run_body _ _ _ _ _ Hr) as Hb. destruct (body t) as [f|] eqn:Hf; [clear Hb|done].
    pose proof (drive_u_cases w a t ts pa f cx Hr Hf) as H.
    destruct (exec_u _ _ _ _ _ _) as [[[[x|[] m] hs] w1]| |]; [by apply uu_wp| |by apply uu_wp|done..].
    unfold unless_ub. by rewrite H.
Qed.

Lemma uu_and_then {X Y} (c : M (world V A) (exc X)) (k : X -> M (world V A) (exc Y)) w Q :
  unless_ub c w (fun r w' => match r with
    | Returns x => unless_ub (k x) w' Q
    | Unwinds p m => Q (Unwinds p m) w'
    end) -> unless_ub (and_then c k) w Q.
Proof. intros H. apply uu_bind. eapply uu_post; [exact H|]. by intros [x|p m] w'. Qed.

Lemma uu_try_get_result w Q :
  stack_inv w ->
  (forall v w', inv_idle w' -> stack_ptr w' = stack_ptr w -> Q (Returns (Some v)) w') ->
  ((inv_idle w \/ exists a t ts pa, inv_running w a t ts pa) -> Q (Returns None) w) ->
  unless_ub (catch false try_get_result) w Q.
Proof.
  intros Hi Hv Hn. pose proof (wp_try_get_result w Hi) as H. unfold wpe, unless_ub, catch in *.
  destruct (try_get_result w) as [[[v|] w']| |]; [|destruct H as [-> H]; by apply Hn|done..].
  destruct H as (Hi' & _ & Hp & _). by apply Hv.
Qed.

Lemma uu_drive_in_context w c cx Q :
  (inv_idle w \/ exists a t ts pa, inv_running w a t ts pa) ->
  (forall r w', stack_inv w' -> stack_ptr w' = stack_ptr w -> Q r w') ->
  unless_ub (drive_top_task_u unit_value task_layout cx) (set_async_context c w) Q.
Proof.
  intros Hrun HQ. eapply uu_post; [apply uu_drive|].
  - destruct Hrun as [Hi|(a & t & ts & pa & Hr)]; [left|right; exists a, t, ts, pa].
    + by apply (inv_idle_same w).
    + by apply (inv_running_same w).
  - intros r w' [Hi Hp]. by apply HQ.
Qed.

Lemma uu_step w addr :
  stack_inv w -> unless_ub (step_u unit_value task_layout addr) w
    (fun _ w' => stack_inv w' /\ stack_ptr w' = stack_ptr w).
Proof.
  intros Hi. apply uu_and_then, uu_try_get_result; [done| |].
  - intros v w' Hi' Hp. split; [by apply inv_is_idle|done].
  - intros Hrun. apply uu_wp_bind, wpe_bind, wpe_gets, wpe_bind, wpe_modify, wpe_ret.
    apply uu_and_then. eapply uu_drive_in_context; [done|]. intros [r|p m] w2 Hi2 Hp2; [|done].
    apply uu_and_then. unfold catch, assert, unless_ub. destruct (negb (is_pending r)); [|done].
    cbn [ret]. split; [by apply stack_inv_context|done].
Qed.

Lemma uu_finish_loop fuel addr : forall w,
  stack_inv w -> unless_ub (finish_loop_u unit_value task_layout fuel addr) w (fun _ w' => stack_inv w').
Proof.
  induction fuel as [|fuel IH]; intros w Hi; cbn [finish_loop_u]; [done|].
  apply uu_and_then. eapply uu_post; [by apply uu_step|]. intros [[v|]|p m] w' [Hi' _]; [done| |done].
  by apply IH.
Qed.

Lemma uu_finish w fuel addr nd :
  stack_inv w -> unless_ub (finish_u unit_value task_layout fuel addr nd) w (fun r w' =>
    match r with
    | Returns None => stack_inv w'
    | Returns (Some _) | Unwinds _ _ => inv_idle w' /\ state w' = Base
    end).
Proof.
  intros Hi. apply uu_bind. eapply uu_post; [by apply uu_finish_loop|].
  intros [[v|]|p m] w' Hi'; [|done|].
  all: apply uu_wp_bind; eapply wpe_post; [by apply wp_drop_runner|]; by intros [] w2 H.
Qed.
End unwind_safe.
