(* ===== verification/UnwindExact.v ===== *)
(** * Where a run that unwinds differs from one that ends

    An exact account of the panics of a step and of a runner: which of them unwind
    with the message of the panic, in which state they leave the stack, and which
    are undefined.  The second are the panics in the first poll of a call, which
    [lost] follows through the polls of a run. *)

From S2P Require Import Prelude Exc Ptr Defer StackAlloc Stack Runner StackInv StackSafe RunnerSafe.
From S2P Require Import Unwind UnwindAgree UnwindSafe.

Create HintDb steady.

Section unwind_exact.
Context {V : Type} (unit_value : V) {A : Type} `{!StackAlloc A}.
Context (place_layout : Layout) (task_layout : code V -> Layout).

(** ** The context address

    Nothing below a runner writes to it. *)
Definition steady {B} (c : M (world V A) B) : Prop :=
  forall w, ho c w (fun _ w' => async_context w' = async_context w).

Lemma steady_bind {B C} (c : M (world V A) B) (k : B -> M (world V A) C) :
  steady c -> (forall b, steady (k b)) -> steady (bind c k).
Proof.
  intros Hc Hk w. apply ho_bind. intros b w1 H1 c' w2 H2. rewrite (Hk b w1 c' w2 H2). by apply (Hc w b).
Qed.
Lemma steady_ret {B} (b : B) : steady (ret b).
Proof. intros w. by apply ho_ret. Qed.
Lemma steady_gets {B} (f : world V A -> B) : steady (gets f).
Proof. intros w. by apply ho_gets. Qed.
Lemma steady_modify f : (forall w, async_context (f w) = async_context w) -> steady (modify f).
Proof. intros Hf w. by apply ho_modify. Qed.
Lemma steady_panic {B} m : steady (panic m : M _ B).
Proof. by intros w b w'. Qed.
Lemma steady_ub {B} : steady (ub : M _ B).
Proof. by intros w b w'. Qed.
Lemma steady_deref {B} (o : option B) : steady (deref o).
Proof. destruct o; [apply steady_ret|apply steady_ub]. Qed.
Lemma steady_unwrap {B} (o : option B) : steady (unwrap o).
Proof. destruct o; [apply steady_ret|apply steady_panic]. Qed.
Lemma steady_assert b m : steady (assert b m).
Proof. destruct b; [apply steady_ret|apply steady_panic]. Qed.
Lemma steady_load a : steady (load a).
Proof. intros w b w'. unfold load. destruct (heap w !! a); [by intros [= _ <-]|done]. Qed.
Lemma steady_new_result : steady new_result.
Proof. by intros w b w' [= _ <-]. Qed.
Lemma steady_on_alloc {B} (c : M A B) : steady (on_alloc c).
Proof. intros w b w'. unfold on_alloc. destruct (c (allocator w)) as [[x a]| |]; [by intros [= _ <-]|done..]. Qed.
Lemma steady_catch {B} p (c : M (world V A) B) : steady c -> steady (catch p c).
Proof.
  intros Hc w r w'. unfold catch. destruct (c w) as [[b w1]| |] eqn:H; [|by intros [= _ <-]|done].
  intros [= _ <-]. by apply (Hc w b).
Qed.
Lemma steady_and_then {B C} (c : M (world V A) (exc B)) (k : B -> M (world V A) (exc C)) :
  steady c -> (forall b, steady (k b)) -> steady (and_then c k).
Proof. intros Hc Hk. apply steady_bind; [done|]. intros [b|p m]; [done|apply steady_ret]. Qed.

#[local] Hint Resolve steady_ret steady_gets steady_panic steady_ub steady_deref steady_unwrap steady_assert
  steady_load steady_new_result steady_on_alloc : steady.

(** Follows the code. *)
Ltac keep :=
  repeat first
    [ solve [auto with steady]
    | match goal with
      | |- steady (modify _) => apply steady_modify; done
      | |- steady (catch _ _) => apply steady_catch
      | |- steady (and_then _ _) => apply steady_and_then; [|intros ?]
      | |- steady (bind _ _) => apply steady_bind; [|intros ?]
      end
    | case_match ].

Lemma steady_drop_handles c hs : steady c -> steady (drop_handles (V := V) c hs).
Proof.
  intros Hc. induction hs as [|h hs IH]; cbn [drop_handles]; [apply steady_ret|]. apply steady_bind; [done|].
  intros _. unfold drop_handle, drop_stk_future, take_result, free_result, with_context. keep.
Qed.

Lemma steady_drop_inline c a : steady c -> steady (drop_task_inline (V := V) c a).
Proof.
  intros Hc. pose proof (fun hs => steady_drop_handles c hs Hc). unfold drop_task_inline, store, free. keep.
Qed.

Lemma steady_pop_task n : steady (pop_task_ (V := V) n).
Proof.
  induction n as [|n IH]; cbn [pop_task_]; [apply steady_ub|].
  set (c := bind (replace_state Cancelled) _).
  assert (Hc : steady c) by (unfold c, replace_state, put_state; keep).
  pose proof (fun a => steady_drop_inline c a Hc). unfold top_task, add_len. keep.
Qed.

Lemma steady_pop_cancel : steady (pop_cancel_task (V := V)).
Proof. pose proof (steady_pop_task 1). unfold pop_cancel_task, replace_state, put_state. keep. Qed.

Lemma steady_push f d n : steady (push_task_u task_layout f d n).
Proof. unfold push_task_u, replace_state, put_state, alloc_future, store, add_len. keep. Qed.

Lemma steady_poll_handle cx h : steady (poll_handle_u unit_value task_layout cx h).
Proof.
  pose proof steady_push. destruct h as [[f|r|]|b]; cbn [poll_handle_u]; unfold poll_stk_future_u, poll_stk_future,
    poll_yield, with_context, call, is_rebless_context, take_result, free_result, wake, replace_state, put_state; keep.
Qed.

Lemma steady_exec cx c : forall hs, steady (exec_u unit_value task_layout cx c hs).
Proof.
  assert (Hd : forall h, steady (drop_handle pop_cancel_task h)).
  { intros h. pose proof (steady_drop_handles _ [h] steady_pop_cancel) as H.
    cbn [drop_handles] in H. intros w b w' Hr. apply (H w b w'). exact Hr. }
  assert (Hg : forall hs h, steady (catch false (get_handle hs h))) by (intros; unfold get_handle; keep).
  induction c as [v|k IH|f _ k IH|k IH|h c0 k IH|h k IH|h k IH|e k IH|e k IH|m|m]; intros hs; cbn [exec_u];
    try apply steady_ret; try apply IH.
  - apply steady_bind; [apply Hg|]. intros [x|p m]; [|apply steady_ret]. apply steady_bind; [apply steady_poll_handle|].
    intros [[p|p m] x']; [apply IH|apply steady_ret].
  - apply steady_bind; [apply Hg|]. intros [x|p m]; [|apply steady_ret]. apply steady_bind; [apply steady_poll_handle|].
    intros [[[v|]|p m] x']; [|apply steady_ret..]. apply steady_bind; [apply Hd|]. intros _. apply IH.
  - apply steady_bind; [apply Hg|]. intros [x|p m]; [|apply steady_ret]. apply steady_bind; [apply Hd|]. intros _. apply IH.
  - apply steady_bind; [apply steady_gets|]. intros v. apply IH.
  - apply steady_bind; [apply steady_gets|]. intros [v|]; [apply IH|apply steady_ret].
Qed.

Lemma steady_drive cx : steady (drive_top_task_u unit_value task_layout cx).
Proof.
  pose proof (fun hs => steady_drop_handles _ hs steady_pop_cancel). pose proof steady_exec. pose proof (steady_pop_task 2).
  assert (forall b, steady (Defer.drop (Defer.new b (fun ptr => modify (set_stack_ptr ptr)))))
    by (intros b; by apply steady_modify).
  unfold drive_top_task_u, enter_context, drive_task_u, leave_task, after_poll_u, finish_task, set_result, wake,
    top_task, store, put_state, pop_task. cbv zeta. keep.
Qed.

(** ** Panics of first polls *)

(** The code of the newest task panics, in context [cx], in the first poll of a
    call it makes. *)
Definition first_poll_panics (cx : Context) (m : string) (w : world V A) : Prop :=
  exists a t ts pa f hs w1, inv_running w a t ts pa /\ body t = Some f /\
    exec_u unit_value task_layout cx f (handles t) (poll_start w a) = Ok (Unwinds true m, hs, w1).

(** The same, in a poll of a runner, which sets the context of the stack. *)
Definition poll_lost (cx : Context) (m : string) (w : world V A) : Prop :=
  first_poll_panics cx m (set_async_context (cx_addr cx) w).

(** After polls that end without a result. *)
Inductive lost (cx : Context) (m : string) : world V A -> Prop :=
| lost_now w : poll_lost cx m w -> lost cx m w
| lost_later w w' :
    poll_step_u unit_value task_layout cx w = Ok (Returns (Ready None), w') -> lost cx m w' -> lost cx m w.

(** ** Exits *)

(** How [cu], which unwinds, ends where [c], which ends with a panic, does: the
    same result and state, or by unwinding with the same message, or it is
    undefined. *)
Definition exits {S X} (c : M S X) (cu : M S (exc X)) (s : S) (clean : S -> Prop) (undefined : string -> Prop) : Prop :=
  match c s with
  | Ok (x, s') => cu s = Ok (Returns x, s')
  | Panic m => (exists s', cu s = Ok (Unwinds false m, s') /\ clean s') \/ (cu s = UB /\ undefined m)
  | UB => False
  end.
End unwind_exact.

Section exits_rules.
Context {S : Type}.
Implicit Types (s : S).

Lemma exits_ret {X} (x : X) s cl un : exits (ret x) (ret (Returns x)) s cl un.
Proof. done. Qed.

Lemma exits_same {B X} (c : M S B) (k : B -> M S X) ku s cl un :
  wp c s (fun b s' => exits (k b) (ku b) s' cl un) -> exits (bind c k) (bind c ku) s cl un.
Proof. unfold exits, wpe, bind. by destruct (c s) as [[b s']| |]. Qed.

Lemma exits_mono {X} (c : M S X) cu s (cl cl' : S -> Prop) (un un' : string -> Prop) :
  exits c cu s cl un -> (forall s', cl s' -> cl' s') -> (forall m, un m -> un' m) -> exits c cu s cl' un'.
Proof.
  unfold exits. intros H Hcl Hun. destruct (c s) as [[b s']| |]; [done| |done].
  destruct H as [(s' & ? & ?)|[? ?]]; [left; exists s'; auto|right; auto].
Qed.

Lemma exits_and_then {B X} (c : M S B) cu (k : B -> M S X) ku s cl un :
  exits c cu s cl un -> (forall b s', c s = Ok (b, s') -> exits (k b) (ku b) s' cl un) ->
  exits (bind c k) (and_then cu ku) s cl un.
Proof.
  unfold exits, and_then, bind. intros H Hk. destruct (c s) as [[b s']| |]; [|..|done].
  - rewrite H. by apply Hk.
  - destruct H as [(s' & -> & ?)|[-> ?]]; [left; by exists s'|by right].
Qed.

Lemma exits_value {B X} p (c : M S B) b s' (k : B -> M S X) ku s cl un :
  c s = Ok (b, s') -> exits (k b) (ku b) s' cl un -> exits (bind c k) (and_then (catch p c) ku) s cl un.
Proof. unfold exits, and_then, bind, catch. by intros ->. Qed.

Lemma exits_catch {X} (c : M S X) s (cl : S -> Prop) un :
  c s <> UB -> cl s -> exits c (catch false c) s cl un.
Proof. unfold exits, catch. intros Hc Hs. destruct (c s) as [[b s']| |]; [done| |done]. left. by exists s. Qed.
Lemma assert_ok b m s u s' : assert b m s = Ok (u, s') -> s' = s.
Proof. by destruct b; intros [= _ ->]. Qed.
End exits_rules.

Section unwind_exits.
Context {V : Type} (unit_value : V) {A : Type} `{!StackAlloc A}.
Context (place_layout : Layout) (task_layout : code V -> Layout).
Context (Htask : forall f, sa_layout (task_layout f)).
Implicit Types w : world V A.

(** A panic of the code of the newest task leaves the poll of it. *)
Lemma drive_top_panics w a t ts pa f cx m :
  inv_running w a t ts pa -> body t = Some f ->
  exec unit_value task_layout cx f (handles t) (poll_start w a) = Panic m ->
  drive_top_task unit_value task_layout cx w = Panic m.
Proof.
  intros Hrun Hf He. destruct (poll_start_reads _ _ _ _ _ Hrun) as [Ht Hl].
  unfold drive_top_task, enter_context, bind at 1, gets. unfold bind at 1, modify. unfold bind at 1.
  unfold bind at 1. rewrite Ht. unfold bind at 1, drive_task, bind at 1. rewrite Hl, Hf.
  unfold bind at 1, store, modify.
  change (set_heap (<[a := CBusy]> (heap (set_stack_ptr true w))) (set_stack_ptr true w)) with (poll_start w a).
  unfold bind at 1. by rewrite He.
Qed.

(** What a poll that unwinds leaves. *)
Definition left_clean (w w' : world V A) : Prop :=
  stack_inv w' /\ stack_ptr w' = stack_ptr w /\ async_context w' = async_context w.

Lemma drive_exits w cx :
  (inv_idle w \/ exists a t ts pa, inv_running w a t ts pa) ->
  exits (drive_top_task unit_value task_layout cx) (drive_top_task_u unit_value task_layout cx) w
    (left_clean w) (fun m => first_poll_panics unit_value task_layout cx m w).
Proof.
  intros [Hi|(a & t & ts & pa & Hr)].
  - unfold exits. rewrite drive_idle by done. left. exists (set_stack_ptr (stack_ptr w) (set_stack_ptr true w)).
    split; [|split; [|done]; by apply inv_is_idle, (inv_idle_same w)].
    destruct (idle_shape _ Hi) as [(L & HL & Hm) _ _]. destruct L; [|done].
    unfold drive_top_task_u, enter_context, and_then, catch, top_task, on_alloc, bind, gets, modify.
    cbn. by rewrite (sa_top_ok _ _ HL).
  - pose proof (run_body _ _ _ _ _ Hr) as Hb. destruct (body t) as [f|] eqn:Hf; [clear Hb|done].
    pose proof (drive_top_follows unit_value task_layout cx w) as Hfol.
    pose proof (drive_u_exits unit_value task_layout Htask w a t ts pa f cx Hr Hf) as Hex.
    pose proof (exec_follows unit_value task_layout cx f (handles t) (poll_start w a)) as Hef.
    pose proof (steady_drive unit_value task_layout cx w) as Hkeep.
    destruct (exec_u unit_value task_layout cx f (handles t) (poll_start w a)) as [[[r hs] w1]| |] eqn:Hu; [|done..].
    assert (Hlost : forall m, r = Unwinds true m -> exits (drive_top_task unit_value task_layout cx)
      (drive_top_task_u unit_value task_layout cx) w (left_clean w) (fun m => first_poll_panics unit_value task_layout cx m w)).
    { intros m ->. unfold exits. rewrite Hex.
      assert (He : exec unit_value task_layout cx f (handles t) (poll_start w a) = Panic m).
      { inversion Hef as [x s Hx Hy|m0 y s Hy Hx Hz|m0 m' Hx Hy|m0 Hx Hy|Hx Hy].
        by destruct Hy as [p [= _ ->]]. }
      rewrite (drive_top_panics _ _ _ _ _ _ _ _ Hr Hf He). right. split; [done|].
      by exists a, t, ts, pa, f, hs, w1. }
    assert (Hok : (forall m, r <> Unwinds true m) -> exits (drive_top_task unit_value task_layout cx)
      (drive_top_task_u unit_value task_layout cx) w (left_clean w) (fun m => first_poll_panics unit_value task_layout cx m w)).
    { intros Hn. assert (Hw : wp (drive_top_task_u unit_value task_layout cx) w
        (fun x w' => (stack_inv w' /\ stack_ptr w' = stack_ptr w) /\ forall p m, x = Unwinds p m -> r = Unwinds p m)).
      { destruct r as [x|[] m]; [exact Hex|by destruct (Hn m)|exact Hex]. }
      apply wp_ok in Hw as (x & w' & Hrun & [Hi Hp] & Hun). specialize (Hkeep x w' Hrun).
      unfold exits. rewrite Hrun in Hfol |- *.
      inversion Hfol as [y s Hx Hy|m0 y s Hy Hx Hz|m0 m' Hx Hy|m0 Hx Hy|Hx Hy]; [done|].
      destruct Hy as [p ->]. subst. left. exists w'. split; [|done]. specialize (Hun _ _ eq_refl).
      destruct p; [by destruct (Hn m0)|done]. }
    destruct r as [x|[] m]; [by apply Hok|by eapply Hlost|by apply Hok].
Qed.

(** ** Runners *)
Lemma try_result_cases w :
  stack_inv w ->
  (exists v w', try_get_result w = Ok (Some v, w') /\ inv_idle w' /\ stack_ptr w' = stack_ptr w) \/
  (try_get_result w = Ok (None, w) /\ (inv_idle w \/ exists a t ts pa, inv_running w a t ts pa)).
Proof.
  intros Hi. destruct (wp_ok _ _ _ (wp_try_get_result w Hi)) as ([v|] & w' & Hrun & H).
  - left. exists v, w'. split; [done|]. by destruct H as (? & _ & ? & _).
  - destruct H as [-> H]. by right.
Qed.

(** The part of a step that polls the newest task. *)
Lemma drive_in_exits w c cx :
  (inv_idle w \/ exists a t ts pa, inv_running w a t ts pa) ->
  exits (drive_top_task unit_value task_layout cx) (drive_top_task_u unit_value task_layout cx)
    (set_async_context c w)
    (fun w' => stack_inv w' /\ stack_ptr w' = stack_ptr w /\ async_context w' = c)
    (fun m => first_poll_panics unit_value task_layout cx m (set_async_context c w)).
Proof.
  intros Hr. assert (Hr' : inv_idle (set_async_context c w) \/
    exists a t ts pa, inv_running (set_async_context c w) a t ts pa).
  { destruct Hr as [Hi|(a & t & ts & pa & Hr)]; [left|right; exists a, t, ts, pa];
      [by apply (inv_idle_same w)|by apply (inv_running_same w)]. }
  apply drive_exits, Hr'.
Qed.

Lemma drive_in_ok w c cx r w' :
  (inv_idle w \/ exists a t ts pa, inv_running w a t ts pa) ->
  drive_top_task unit_value task_layout cx (set_async_context c w) = Ok (r, w') ->
  stack_inv w' /\ stack_ptr w' = stack_ptr w /\ async_context w' = c.
Proof.
  intros Hr Hrun. pose proof (drive_in_exits w c cx Hr) as He. unfold exits in He. rewrite Hrun in He.
  pose proof (uu_drive_in_context unit_value task_layout Htask w c cx
    (fun _ w' => stack_inv w' /\ stack_ptr w' = stack_ptr w) Hr) as Hu.
  unfold unless_ub in Hu. rewrite He in Hu. destruct Hu as [Hi Hp]; [done|]. split_and!; [done..|].
  by rewrite (steady_drive unit_value task_layout cx _ _ _ He).
Qed.

(** A poll or a step that ends by a panic leaves the stack in order, but does not
    put the context address back. *)
Definition run_clean (c : Z) (w w' : world V A) : Prop :=
  stack_inv w' /\ stack_ptr w' = stack_ptr w /\ async_context w' = c.

Lemma step_exits w addr :
  stack_inv w ->
  exits (step unit_value task_layout addr) (step_u unit_value task_layout addr) w (run_clean addr w)
    (fun m => poll_lost unit_value task_layout (stub_context addr) m w).
Proof.
  intros Hi. destruct (try_result_cases w Hi) as [(v & w' & Hrun & _)|[Hrun Hr]];
    (eapply exits_value; [exact Hrun|]); [done|].
  apply exits_same, wpe_bind, wpe_gets, wpe_bind, wpe_modify, wpe_ret, exits_and_then; [by apply drive_in_exits|].
  intros r w2 Hd. apply (drive_in_ok w) in Hd; [|done]. apply exits_and_then; [by apply exits_catch; destruct r|].
  intros [] w3 ->%assert_ok. by apply exits_same, wpe_bind, wpe_gets, wpe_bind, wpe_modify, wpe_ret.
Qed.

Lemma poll_step_exits w cx :
  stack_inv w ->
  exits (poll_step unit_value task_layout cx) (poll_step_u unit_value task_layout cx) w (run_clean (cx_addr cx) w)
    (fun m => poll_lost unit_value task_layout cx m w).
Proof.
  intros Hi. destruct (try_result_cases w Hi) as [(v & w' & Hrun & _)|[Hrun Hr]];
    (eapply exits_value; [exact Hrun|]); [done|].
  apply exits_same, wpe_bind, wpe_gets, wpe_bind, wpe_modify, wpe_ret, exits_and_then; [by apply drive_in_exits|].
  intros r w2 _. apply exits_same, wpe_bind, wpe_gets, wpe_bind, wpe_modify, wpe_ret. by destruct r.
Qed.

(** A step without a result is a poll of [StepFuture] without one. *)
Lemma step_u_none w addr w' :
  step_u unit_value task_layout addr w = Ok (Returns None, w') ->
  poll_step_u unit_value task_layout (stub_context addr) w = Ok (Returns (Ready None), w').
Proof.
  unfold step_u, poll_step_u, and_then, bind.
  destruct (catch false try_get_result w) as [[[[x|]|p m] w1]| |]; [done| |done..]. cbn [ret].
  destruct (set_rebless_context (stub_context addr) w1) as [[old w2]| |]; [|done..].
  destruct (drive_top_task_u unit_value task_layout (stub_context addr) w2) as [[[[x|]|p m] w3]| |]; cbn; [|done..].
  by intros [= <-].
Qed.

(** What a step or a poll that returns leaves. *)
Lemma step_ok w addr o w' :
  stack_inv w -> step unit_value task_layout addr w = Ok (o, w') ->
  stack_inv w' /\ stack_ptr w' = stack_ptr w /\
  (o = None -> poll_step_u unit_value task_layout (stub_context addr) w = Ok (Returns (Ready None), w')).
Proof.
  intros Hi Hrun. pose proof (step_exits w addr Hi) as He. unfold exits in He. rewrite Hrun in He.
  pose proof (uu_step unit_value task_layout Htask w addr Hi) as Hu. unfold unless_ub in Hu. rewrite He in Hu.
  destruct Hu as [Hi' Hp]. split_and!; [done..|]. intros ->. by apply step_u_none.
Qed.

Lemma poll_step_ok w cx r w' :
  stack_inv w -> poll_step unit_value task_layout cx w = Ok (r, w') ->
  stack_inv w' /\ poll_step_u unit_value task_layout cx w = Ok (Returns r, w').
Proof.
  intros Hi Hrun. pose proof (poll_step_exits w cx Hi) as He. unfold exits in He. rewrite Hrun in He. split; [|done].
  pose proof (wp_poll_step unit_value task_layout Htask w cx Hi) as Hw. unfold wpe in Hw. by rewrite Hrun in Hw.
Qed.

Lemma finish_loop_exits fuel addr : forall w,
  stack_inv w ->
  exits (finish_loop unit_value task_layout fuel addr) (finish_loop_u unit_value task_layout fuel addr) w
    (run_clean addr w) (fun m => lost unit_value task_layout (stub_context addr) m w).
Proof.
  induction fuel as [|fuel IH]; intros w Hi; cbn [finish_loop finish_loop_u]; [done|].
  apply exits_and_then.
  - eapply exits_mono; [by apply step_exits|done|]. intros m. by constructor.
  - intros [x|] w' Hrun; [done|]. destruct (step_ok _ _ _ _ Hi Hrun) as (Hi' & Hp & Hl).
    eapply exits_mono; [by apply IH|..].
    + intros w2 (? & ? & ?). split_and!; [done|congruence|done].
    + intros m. eapply lost_later. by apply Hl.
Qed.

(** One round of the loop of [FinishFuture] is a poll of [StepFuture]. *)
Definition after_round {X} (done : V -> X) (pending : X) (again : M (world V A) X) (r : poll (option V)) : M (world V A) X :=
  match r with
  | Ready (Some x) => ret (done x)
  | Ready None => again
  | Pending => ret pending
  end.

Lemma poll_finish_round fuel cx w :
  poll_finish unit_value task_layout (S fuel) cx w =
  (let! r := poll_step unit_value task_layout cx in
   after_round (fun x => Some (Ready x)) (Some Pending) (poll_finish unit_value task_layout fuel cx) r) w.
Proof.
  cbn [poll_finish]. unfold poll_step, bind.
  destruct (try_get_result w) as [[[x|] w1]| |]; [done| |done..].
  destruct (set_rebless_context cx w1) as [[old w2]| |]; [|done..].
  destruct (drive_top_task unit_value task_layout cx w2) as [[[x|] w3]| |]; [| |done..];
    by destruct (set_rebless_context_addr old w3) as [[y w4]| |].
Qed.

Lemma poll_finish_round_u fuel cx w :
  poll_finish_u unit_value task_layout (S fuel) cx w =
  (let? r := poll_step_u unit_value task_layout cx in
   after_round (fun x => Returns (Some (Ready x))) (Returns (Some Pending))
     (poll_finish_u unit_value task_layout fuel cx) r) w.
Proof.
  cbn [poll_finish_u]. unfold poll_step_u, and_then, bind.
  destruct (catch false try_get_result w) as [[[[x|]|p m] w1]| |]; [done| |done..]. cbn [ret].
  destruct (set_rebless_context cx w1) as [[old w2]| |]; [|done..].
  destruct (drive_top_task_u unit_value task_layout cx w2) as [[[[x|]|p m] w3]| |]; cbn; [| |done..];
    by destruct (set_rebless_context_addr old w3) as [[y w4]| |].
Qed.

Lemma poll_finish_exits fuel cx : forall w,
  stack_inv w ->
  exits (poll_finish unit_value task_layout fuel cx) (poll_finish_u unit_value task_layout fuel cx) w
    (fun w' => stack_inv w' /\ async_context w' = cx_addr cx) (fun m => lost unit_value task_layout cx m w).
Proof.
  induction fuel as [|fuel IH]; intros w Hi; [done|]. unfold exits.
  rewrite poll_finish_round, poll_finish_round_u. apply exits_and_then.
  - eapply exits_mono; [by apply poll_step_exits|by intros w' (? & _ & ?)|]. intros m. by constructor.
  - intros r w' Hrun. destruct (poll_step_ok _ _ _ _ Hi Hrun) as [Hi' Hu]. destruct r as [[x|]|]; [done| |done].
    eapply exits_mono; [by apply IH|done|]. intros m. by apply lost_later.
Qed.

(** [finish] drops the runner on both exits. *)
Lemma finish_exits fuel addr nd w :
  stack_inv w ->
  exits (finish unit_value task_layout fuel addr nd) (finish_u unit_value task_layout fuel addr nd) w
    (fun w' => inv_idle w' /\ state w' = Base /\ heap w' = ∅)
    (fun m => lost unit_value task_layout (stub_context addr) m w).
Proof.
  intros Hi. pose proof (finish_loop_exits fuel addr w Hi) as H. unfold exits, finish, finish_u, bind in *.
  destruct (finish_loop unit_value task_layout fuel addr w) as [[[x|] w1]|m|] eqn:Hrun; [..|done].
  - rewrite H. pose proof (wp_finish_loop unit_value task_layout Htask fuel addr w Hi) as Hw. unfold wpe in Hw.
    rewrite Hrun in Hw. destruct (wp_ok _ _ _ (wp_drop_runner w1 nd Hw)) as ([] & w2 & -> & _). done.
  - by rewrite H.
  - destruct H as [(w1 & -> & Hi1 & _)|[-> ?]]; [left|by right].
    destruct (wp_ok _ _ _ (wp_drop_runner w1 nd Hi1)) as ([] & w2 & -> & Hi2 & Hst). exists w2.
    split; [done|]. split_and!; [done..|]. by rewrite (shape_heap _ _ (idle_shape _ Hi2)).
Qed.
End unwind_exits.
