(* ===== verification/UnwindOps.v ===== *)
(** * Sequences of operations whose panics are caught

    The operations an owner can make on one stack, as in [RunnerSafe], where a
    panic unwinds to the owner, who catches it and goes on with the stack. *)

From S2P Require Import Prelude Exc Ptr StackAlloc Stack Runner StackInv StackSafe RunnerSafe.
From S2P Require Import Unwind UnwindExact.

Section unwind_ops.
Context {V : Type} (unit_value : V) {A : Type} `{!StackAlloc A}.
Context (place_layout : Layout) (task_layout : code V -> Layout).

Definition caught {B} (c : M (world V A) (exc B)) : M (world V A) unit := let! _ := c in ret tt.

(** The operations of [RunnerSafe], by an owner who catches what leaves them. *)
Definition run_op_u (o : op V) : M (world V A) unit :=
  match o with
  | Enter f => caught (enter_u place_layout task_layout f)
  | Step addr => caught (step_u unit_value task_layout addr)
  | Finish fuel addr nd => caught (finish_u unit_value task_layout fuel addr nd)
  | PollStep cx => caught (poll_step_u unit_value task_layout cx)
  | PollFinish fuel cx => caught (poll_finish_u unit_value task_layout fuel cx)
  | DropRunner nd => drop_runner nd
  | Leak => ret tt
  | Event e v => modify (fun w => set_events (<[e := v]> (events w)) w)
  | DropStack => drop_stack
  end.

Fixpoint run_ops_u (os : list (op V)) : M (world V A) unit :=
  match os with
  | [] => ret tt
  | o :: os => do! run_op_u o in run_ops_u os
  end.

(** The operation polls a task, now or in a later round of its loop, that panics in
    the first poll of a call. *)
Definition op_lost (o : op V) (w : world V A) : Prop :=
  match o with
  | Step addr => exists m, poll_lost unit_value task_layout (stub_context addr) m w
  | Finish _ addr _ => exists m, lost unit_value task_layout (stub_context addr) m w
  | PollStep cx => exists m, poll_lost unit_value task_layout cx m w
  | PollFinish _ cx => exists m, lost unit_value task_layout cx m w
  | _ => False
  end.

Context (Hplace : sa_layout place_layout) (Htask : forall f, sa_layout (task_layout f)).
Implicit Types w : world V A.

(** Exits of an operation whose panic is caught. *)
Definition op_exits (c : M (world V A) unit) (w : world V A) (undefined : Prop) : Prop :=
  match c w with
  | Ok (_, w') => stack_inv w'
  | Panic m => sa_fail m
  | UB => undefined
  end.

Lemma caught_exits {B} (c : M (world V A) B) cu w cl un :
  exits c cu w cl un -> (forall w', cl w' -> stack_inv w') -> safe c w (fun _ w' => stack_inv w') ->
  op_exits (caught cu) w (exists m, un m).
Proof.
  unfold exits, op_exits, caught, bind, wpe. intros H Hcl Hs. destruct (c w) as [[b w']|m|]; [by rewrite H| |done].
  destruct H as [(w' & -> & Hc)|[-> Hm]]; [by apply Hcl|by exists m].
Qed.

Lemma enter_u_exits w f : stack_inv w -> op_exits (caught (enter_u place_layout task_layout f)) w False.
Proof.
  intros Hi. assert (callable f \/ exists m, f = NoFuture m) as [Hf|[m ->]]
    by (destruct f; eauto; by left); [|done].
  assert (Hc : call f w = Ok (f, w)) by by destruct f.
  unfold op_exits, caught, enter_u, and_then, bind, catch, gets. rewrite Hc. cbn [ret].
  destruct (Z.eqb_spec (len w) 0) as [Hl|Hl]; [|done].
  assert (inv_idle w) as Hidle by (destruct Hi as [|? ? []|? ? ? ? []]; [done|lia..]).
  pose proof (wp_enter place_layout task_layout Hplace Htask w f Hidle Hf) as He.
  unfold enter, bind at 1 in He. unfold wpe in He. rewrite Hc in He.
  destruct (enter_future place_layout task_layout f w) as [[[] w']|m|]; cbn [ret]; [|exact He|done].
  destruct He as (a & pa & Hr & _). by eapply inv_is_running.
Qed.

Lemma op_exits_wp (c : M (world V A) unit) w P : wp c w (fun _ w' => stack_inv w') -> op_exits c w P.
Proof. unfold op_exits, wpe. by destruct (c w) as [[[] w']|m|]. Qed.

Lemma run_op_u_exits o w : stack_inv w -> op_exits (run_op_u o) w (op_lost o w).
Proof.
  intros Hi. destruct o as [f|addr|fuel addr nd|cx|fuel cx|nd| |e v|]; cbn [run_op_u op_lost].
  - by apply enter_u_exits.
  - eapply caught_exits; [by apply step_exits|by intros w' []|by apply wp_step].
  - eapply caught_exits; [by apply finish_exits|by intros w' (? & _); apply inv_is_idle|by apply wp_finish].
  - eapply caught_exits; [by apply poll_step_exits|by intros w' []|by apply wp_poll_step].
  - eapply caught_exits; [by apply poll_finish_exits|by intros w' []|by apply wp_poll_finish].
  - apply op_exits_wp. eapply wpe_post; [by apply wp_drop_runner|]. intros [] w' [? _]. by apply inv_is_idle.
  - by apply op_exits_wp, wpe_ret.
  - apply op_exits_wp, wpe_modify. by apply (stack_inv_same w).
  - apply op_exits_wp. eapply wpe_post; [by apply wp_drop_stack|]. intros [] w' [? _]. by apply inv_is_idle.
Qed.

(** A run that is undefined: some operation, made on a stack that satisfies the
    invariant, polls a task that panics in the first poll of a call. *)
Definition ops_lost (os : list (op V)) (w0 : world V A) : Prop :=
  exists before o after w, os = before ++ o :: after /\ run_ops_u before w0 = Ok (tt, w) /\
    stack_inv w /\ op_lost o w.

Lemma run_ops_u_exits os : forall w, stack_inv w -> op_exits (run_ops_u os) w (ops_lost os w).
Proof.
  induction os as [|o os IH]; intros w Hi; [done|]. cbn [run_ops_u]. pose proof (run_op_u_exits o w Hi) as H.
  unfold op_exits, bind in *. destruct (run_op_u o w) as [[[] w']|m|] eqn:Ho; [|done|].
  - specialize (IH w' H). destruct (run_ops_u os w') as [[[] w2]|m|]; [done..|].
    destruct IH as (before & o' & after & w2 & -> & Hrun & Hi2 & Hl).
    exists (o :: before), o', after, w2. split; [done|]. split; [|done]. cbn [run_ops_u]. unfold bind. by rewrite Ho.
  - by exists [], o, os, w.
Qed.
End unwind_ops.
