(* ===== verification/UnwindRun.v ===== *)
(** * Recursive programs that panic

    A program of [StackEval] never panics in the first poll of a call, unless the
    allocator refuses the task of the call.  All its own panics unwind to the
    caller of the runner. *)

From S2P Require Import Prelude Exc Ptr Defer StackAlloc Stack Runner StackInv StackSafe RunnerSafe StackEval StackSim.
From S2P Require Import Unwind UnwindAgree UnwindSafe UnwindExact.

Section unwind_run.
Context {V : Type} (unit_value : V) {A : Type} `{!StackAlloc A}.
Context (place_layout : Layout) (task_layout : code V -> Layout).

(** ** The end of memory *)

(** The allocator refuses the task of some call, with message [m]. *)
Definition refuses (w : world V A) (m : string) : Prop :=
  exists f, sa_push (task_layout f) (allocator w) = Panic m.

(** After some polls the newest task makes a call whose task the allocator refuses:
    a panic in the first poll of that call. *)
Inductive out_of_memory (cx : Context) : world V A -> Prop :=
| refused_now w m :
    poll_lost unit_value task_layout cx m w -> refuses w m -> out_of_memory cx w
| refused_later w w' :
    poll_step_u unit_value task_layout cx w = Ok (Returns (Ready None), w') -> out_of_memory cx w' ->
    out_of_memory cx w.

(** A future entered and run to its end with [Q]: [enter] may fail for lack of
    memory, and the run is undefined if it ends in a call that does. *)
Definition runs_to (f : code V) (fuel : nat) (addr : Z) (needs_drop : bool) (w : world V A)
    (Q : exc (option V) -> world V A -> Prop) : Prop :=
  match enter place_layout task_layout f w with
  | Ok (_, w1) =>
      match finish_u unit_value task_layout fuel addr needs_drop w1 with
      | Ok (r, w') => Q r w'
      | UB => out_of_memory (stub_context addr) w1
      | Panic _ => False
      end
  | Panic m => sa_fail m
  | UB => False
  end.

Context (Hplace : sa_layout place_layout) (Htask : forall f, sa_layout (task_layout f)).
Implicit Types w : world V A.

(** ** Polls of programs *)

(** How a poll of a program that began in [w] is left: by a panic of its own, or in
    the first poll of a call because the allocator refuses. *)
Definition left_by {X} w (own : string -> Prop) (r : exc X) : Prop :=
  match r with
  | Returns _ => True
  | Unwinds true m => refuses w m
  | Unwinds false m => own m
  end.

Lemma push_task_refused w f d n m :
  state w = Base -> push_task task_layout f d n w = Panic m -> refuses w m.
Proof.
  intros Hst. unfold push_task, replace_state, put_state, assert, alloc_future, on_alloc, bind, gets, modify, ret.
  rewrite Hst, bool_decide_true by done. cbn [allocator set_state]. intros H. exists f.
  by destruct (sa_push (task_layout f) (allocator w)) as [[a al]| |]; [|injection H as ->|].
Qed.

Lemma push_u_ok w a d rs ts pa f n :
  let r := next_result w in
  let w1 := set_results (<[r := None]> (results w)) (S r) w in
  mid w None a d rs ts pa -> state w = Base ->
  wp (push_task_u task_layout f (ToCell r) n) w1 (fun x _ => left_by w (fun _ => False) x).
Proof.
  intros r w1 Hm Hst. pose proof (mid_push_base task_layout Htask w a d rs ts pa f n Hm Hst) as Hp.
  unfold wpe in *. rewrite push_base_u by done. cbn zeta in Hp. fold r in Hp. fold w1 in Hp.
  destruct (push_task task_layout f (ToCell r) n w1) as [[[] w2]|m|] eqn:He; [done| |done].
  by apply (push_task_refused w1) in He.
Qed.

Lemma poll_call_ok w a d rs ts pa cx f :
  mid w None a d rs ts pa -> state w = Base -> callable f ->
  wp (poll_stk_future_u task_layout cx (Initial f)) w (fun r _ =>
    left_by w (fun _ => False) r.1 /\ forall p, r.1 = Returns p -> p = Pending).
Proof.
  intros Hm Hst Hf. unfold poll_stk_future_u. apply wpe_bind, wpe_gets. rewrite (mid_ptr _ _ _ _ _ _ _ Hm).
  apply wpe_bind. eapply wpe_value; [done|]. apply wpe_bind. set (w1 := set_results _ _ _).
  eapply wpe_post with (Q := fun x _ => left_by w (fun _ => False) x).
  - unfold and_then. apply wpe_bind. assert (Hc : call f w1 = Ok (f, w1)) by by destruct f.
    eapply wpe_value; [unfold catch; by rewrite Hc|]. apply wpe_bind, wpe_gets.
    match goal with |- context [if ?b then _ else _] => destruct b end; by eapply push_u_ok.
  - intros [[]|p m] w' H; apply wpe_ret; [split; [done|]; by intros ? [= <-]|done].
Qed.

Lemma exec_u_prog p : forall w a d ts pa cx n,
  mid w None a d [] ts pa -> state w = Base ->
  wp (exec_u unit_value task_layout cx (compile p) (replicate n None)) w
    (fun r _ => left_by w (fun m => panics (events w) p = Some m) r.1).
Proof.
  induction p as [v|q _ k _|k IH|e k IH|m]; intros w a d ts pa cx n Hm Hst; cbn [compile exec_u].
  - done.
  - rewrite length_replicate. unfold bind at 1, catch, get_handle. rewrite lookup_replicate_snoc. cbn [ret].
    apply wpe_bind. unfold poll_handle_u. apply wpe_bind.
    eapply wpe_post; [by eapply poll_call_ok, compile_callable|]. intros [[p|[] m] s] w' [Hl Hp]; apply wpe_ret.
    + cbn in Hp. rewrite (Hp _ eq_refl). by apply wpe_ret.
    + by apply wpe_ret.
    + done.
  - rewrite length_replicate. unfold bind at 1, catch at 1, get_handle. rewrite lookup_replicate_snoc. cbn [ret].
    apply wpe_bind. unfold poll_handle_u. apply wpe_bind.
    eapply wpe_value; [unfold catch; by erewrite poll_yield_ready|]. apply wpe_ret.
    apply wpe_bind, wpe_ret. rewrite insert_replicate_snoc, replicate_snoc. by eapply IH.
  - apply wpe_bind, wpe_gets. unfold panics. cbn [go]. destruct (events w !! e); [by eapply IH|by apply wpe_ret].
  - done.
Qed.

Lemma left_by_same {X} w w' own own' (r : exc X) :
  allocator w' = allocator w -> (forall m, own' m -> own m) -> left_by w' own' r -> left_by w own r.
Proof. intros Ha Ho. destruct r as [x|[] m]; cbn; [done| |apply Ho]. unfold refuses. by rewrite Ha. Qed.

Lemma exec_u_waiting w a d ts pa cx k n r v :
  mid w None a d [r] ts pa -> results w !! r = Some (Some v) -> state w = Base ->
  wp (exec_u unit_value task_layout cx (waiting k n) (waiting_handles n r)) w
    (fun x _ => left_by w (fun m => panics (events w) (k v) = Some m) x.1).
Proof.
  intros Hm Hr Hst. unfold waiting. cbn [exec_u]. unfold bind at 1, catch, get_handle.
  unfold waiting_handles at 1. rewrite lookup_replicate_snoc. cbn [ret].
  apply wpe_bind. unfold poll_handle_u, poll_stk_future_u. apply wpe_bind, wpe_bind, wpe_gets.
  rewrite (mid_ptr _ _ _ _ _ _ _ Hm). apply wpe_bind.
  assert (Hpoll : exists w1, poll_stk_future task_layout cx (Running r) w = Ok (Ready v, Done, w1) /\
    mid w1 None a d [] ts pa /\ state w1 = Base /\ allocator w1 = allocator w /\ events w1 = events w).
  { pose proof (mid_poll_again task_layout w None a d cx (Running r) [] ts pa no_panic) as H.
    unfold wpe, poll_stk_future, with_context, take_result, deref, bind, gets in *.
    rewrite (mid_ptr _ _ _ _ _ _ _ Hm), Hr in *. cbn [ret modify] in *. eexists. split; [done|]. split; [|done].
    by apply H. }
  destruct Hpoll as (w1 & Hpoll & Hm1 & Hst1 & Ha1 & He1). eapply wpe_value; [exact Hpoll|]. apply wpe_ret, wpe_ret.
  apply wpe_bind, wpe_ret. unfold waiting_handles. rewrite insert_replicate_snoc, replicate_snoc.
  eapply wpe_post; [by eapply exec_u_prog|]. intros x w' H. eapply left_by_same; [done| |exact H].
  intros m. by rewrite He1.
Qed.

(** ** Steps *)

(** The newest task of a configuration, and how a poll of it is left. *)
Lemma repr_left_by w c cx :
  repr w c -> (forall v, c <> CDone v) -> exists a t ts pa f,
    inv_running w a t ts pa /\ body t = Some f /\
    wp (exec_u unit_value task_layout cx f (handles t)) (poll_start w a)
      (fun r _ => left_by w (fun m => aborts (events w) c = Some m) r.1).
Proof.
  intros Hr Hc. destruct Hr as [a t ts pa p ks n Hr Hst Hb Hh Hn Hf|a t ts pa v k ks n r Hr Hst Hb Hh Hn Hv Hf|pa v Hd];
    [..|by destruct (Hc v)].
  all: exists a, t, ts, pa; eexists; (split; [exact Hr|]); (split; [exact Hb|]);
    pose proof (mid_poll_start _ _ _ _ _ Hr) as Hm; rewrite Hh in *; rewrite app_nil_r in Hm.
  - rewrite runs_replicate in Hm. eapply wpe_post; [by eapply exec_u_prog|]. done.
  - rewrite runs_waiting in Hm. eapply wpe_post; [by eapply exec_u_waiting|]. done.
Qed.

(** A poll of a configuration ends as the machine steps, or by unwinding with the
    panic of the program and the stack in order, or it is undefined because the
    allocator refuses. *)
Definition drive_end w c (r : exc (poll bool)) w' : Prop :=
  match r with
  | Returns x => x = (astep (events w) c).1 /\ kept w w' /\ repr w' (astep (events w) c).2 /\
      aborts (events w) c = None
  | Unwinds p m => p = false /\ aborts (events w) c = Some m /\ stack_inv w'
  end.

Lemma drive_u_repr w c cx :
  repr w c -> (forall v, c <> CDone v) -> async_context w = cx_addr cx ->
  wp (drive_top_task_u unit_value task_layout cx) w (drive_end w c) \/
  (drive_top_task_u unit_value task_layout cx w = UB /\
   exists m, first_poll_panics unit_value task_layout cx m w /\ refuses w m).
Proof.
  intros Hr Hc Hcx. destruct (repr_left_by w c cx Hr Hc) as (a & t & ts & pa & f & Hrun & Hb & He).
  pose proof (drive_u_exits unit_value task_layout Htask w a t ts pa f cx Hrun Hb) as Hex.
  pose proof (drive_exits unit_value task_layout Htask w cx (or_intror (ex_intro _ a (ex_intro _ t (ex_intro _ ts (ex_intro _ pa Hrun)))))) as Hd.
  pose proof (wp_drive_repr unit_value task_layout Htask w c cx Hr Hc Hcx) as Hm.
  unfold wpe in He. destruct (exec_u unit_value task_layout cx f (handles t) (poll_start w a)) as [[[r hs] w1]| |] eqn:Hu; [|done..].
  cbn [fst] in He. assert ((exists m, r = Unwinds true m) \/ forall m, r <> Unwinds true m) as [[m ->]|Hn]
    by (destruct r as [x|[] m]; [right|left; by exists m|right]; done).
  { right. split; [exact Hex|]. exists m. split; [|exact He]. by exists a, t, ts, pa, f, hs, w1. }
  left. assert (Hw : wp (drive_top_task_u unit_value task_layout cx) w
    (fun x w' => (stack_inv w' /\ stack_ptr w' = stack_ptr w) /\ forall p m, x = Unwinds p m -> r = Unwinds p m)).
  { destruct r as [x|[] m]; [exact Hex|by destruct (Hn m)|exact Hex]. }
  apply wp_ok in Hw as (x & w' & Hx & [Hi _] & Hl). unfold exits in Hd. unfold wpe in *. rewrite Hx in *.
  destruct x as [y|p m]; cbn [drive_end].
  - destruct (drive_top_task unit_value task_layout cx w) as [[z w2]|m|]; [by injection Hd as -> ->| |done].
    destruct Hd as [(? & [=] & _)|[[=] _]].
  - specialize (Hl p m eq_refl). subst r. destruct p; [by destruct (Hn m)|done].
Qed.

Definition step_end w c (r : exc (option V)) w' : Prop :=
  match r with
  | Returns o => match c with
      | CDone v => o = Some v /\ inv_idle w'
      | CRun _ _ | CBack _ _ _ => o = None /\ is_pending (astep (events w) c).1 = false /\
          repr w' (astep (events w) c).2 /\ events w' = events w
      end
  | Unwinds p m => p = false /\ stack_inv w' /\ (aborts (events w) c = Some m \/
      m = sync_pending /\ is_pending (astep (events w) c).1 = true /\ aborts (events w) c = None)
  end.

(** A step of a stack without a result. *)
Lemma step_u_drives w addr :
  try_get_result w = Ok (None, w) ->
  step_u unit_value task_layout addr w =
  (let? r := drive_top_task_u unit_value task_layout (stub_context addr) in
   let? _ := catch false (assert (negb (is_pending r))
     "a non-reblessive future was run while running the reblessive runtime as non-async") in
   let! _ := set_rebless_context_addr (async_context w) in
   ret (Returns None)) (set_async_context addr w).
Proof. intros H. unfold step_u, and_then, bind, catch. by rewrite H. Qed.

Lemma step_u_repr w c addr :
  repr w c ->
  wp (step_u unit_value task_layout addr) w (step_end w c) \/
  (step_u unit_value task_layout addr w = UB /\ out_of_memory (stub_context addr) w).
Proof.
  intros Hr. pose proof (wp_try_repr w c no_panic Hr) as Ht. unfold wpe in Ht.
  destruct (try_get_result w) as [[o w0]| |] eqn:Htr; [|done..]. destruct (done_dec c) as [[v ->]|Hn].
  { left. destruct Ht as (-> & Hi & _). unfold wpe, step_u, and_then, bind, catch. by rewrite Htr. }
  assert (o = None /\ w0 = w) as [-> ->] by (destruct c as [| |v]; [done..|by destruct (Hn v)]).
  unfold wpe. rewrite (step_u_drives _ _ Htr). set (w1 := set_async_context addr w).
  destruct (drive_u_repr w1 c (stub_context addr)) as [Hd|[Hd (m & Hm & Hrf)]]; [by apply (repr_same w)|done|done| |].
  - left. unfold wpe, and_then, bind in *.
    destruct (drive_top_task_u unit_value task_layout (stub_context addr) w1) as [[[x|p m] w2]| |]; [|..|done|done].
    + destruct Hd as (-> & Hk & Hr2 & Hab). change (events w1) with (events w) in *.
      unfold catch, assert. destruct (is_pending (astep (events w) c).1) eqn:Hp; cbn.
      * split; [done|]. split; [by eapply repr_inv|]. right. by split_and!.
      * destruct c as [| |v]; [..|by destruct (Hn v)].
        all: split; [done|split; [done|split; [by apply (repr_same w2)|apply Hk]]].
    + destruct Hd as (-> & Hab & Hi). split; [done|]. split; [done|]. by left.
  - right. unfold and_then, bind. rewrite Hd. split; [done|]. by eapply refused_now.
Qed.

(** A whole run, from the value or the panic of the program. *)
Definition loop_end w c (r : exc (option V)) w' : Prop :=
  stack_inv w' /\
  match eval_conf (events w) c with
  | Some v => r = Returns (Some v)
  | None => r = Unwinds false (default sync_pending (throws_conf (events w) c))
  end.

Lemma finish_loop_u_repr fuel addr : forall w c,
  repr w c -> (cost_conf (events w) c < fuel)%nat ->
  wp (finish_loop_u unit_value task_layout fuel addr) w (loop_end w c) \/
  (finish_loop_u unit_value task_layout fuel addr w = UB /\ out_of_memory (stub_context addr) w).
Proof.
  induction fuel as [|fuel IH]; intros w c Hr Hfuel; [lia|]. cbn [finish_loop_u].
  destruct (step_u_repr w c addr Hr) as [Hs|[Hs Hm]].
  2: { right. split; [|done]. unfold and_then, bind. by rewrite Hs. }
  apply wp_ok in Hs as (r & w1 & Hrun & H). unfold wpe, and_then, bind. rewrite Hrun. destruct r as [o|p m].
  - cbn [step_end] in H. destruct (done_dec c) as [[v ->]|Hc].
    { destruct H as [-> Hi]. left. split; [by apply inv_is_idle|done]. }
    assert (o = None /\ is_pending (astep (events w) c).1 = false /\
      repr w1 (astep (events w) c).2 /\ events w1 = events w) as (-> & Hp & Hr' & He).
    { destruct c as [| |v']; [exact H..|by destruct (Hc v')]. }
    rewrite (astep_cost _ _ Hc Hp) in Hfuel.
    destruct (IH w1 (astep (events w) c).2) as [Hl|[Hl Hm]]; [done|rewrite He; lia|left|right].
    + unfold wpe, loop_end in *. by rewrite He, astep_eval, astep_throws in Hl.
    + split; [done|]. eapply refused_later; [|exact Hm]. by apply step_u_none.
  - destruct H as (-> & Hi & H). left. split; [done|].
    assert (eval_conf (events w) c = None /\ m = default sync_pending (throws_conf (events w) c)) as [-> ->].
    { destruct H as [Hab|(-> & Hp & Hab)].
      - apply aborts_throws in Hab. split; [by eapply throws_conf_eval|]. by rewrite Hab.
      - split; [by apply astep_pending|]. destruct (throws_conf (events w) c) as [m|] eqn:Ht; [|done].
        by rewrite (astep_waits _ _ _ Hp Ht) in Hab. }
    done.
Qed.

Lemma program_runs w p fuel addr nd :
  inv_idle w -> state w = Base -> (cost (events w) p < fuel)%nat ->
  runs_to (compile p) fuel addr nd w (fun r w' => inv_idle w' /\ state w' = Base /\
    match eval (events w) p with
    | Some v => r = Returns (Some v)
    | None => r = Unwinds false (default sync_pending (throws (events w) p))
    end).
Proof.
  intros Hi Hst Hfuel. unfold runs_to. pose proof (wp_enter_repr place_layout task_layout Hplace Htask w p Hi Hst) as He.
  unfold wpe in He. destruct (enter place_layout task_layout (compile p) w) as [[[] w1]|m|]; [|done..].
  destruct He as [Hr He]. unfold finish_u.
  destruct (finish_loop_u_repr fuel addr w1 (CRun p []) Hr) as [Hl|[Hl Hm]]; [rewrite He; cbn; lia| |].
  - apply wp_ok in Hl as (r & w2 & Hrun & Hi2 & H). rewrite He in H. cbn in H. unfold bind. rewrite Hrun.
    destruct (wp_ok _ _ _ (wp_drop_runner w2 nd Hi2)) as ([] & w3 & Hd & Hi3 & Hst3).
    destruct (eval (events w) p) as [v|]; subst r; by rewrite Hd.
  - unfold bind. by rewrite Hl.
Qed.

Lemma runs_to_post f fuel addr nd w (Q Q' : exc (option V) -> world V A -> Prop) :
  runs_to f fuel addr nd w Q -> (forall r w', Q r w' -> Q' r w') -> runs_to f fuel addr nd w Q'.
Proof.
  unfold runs_to. intros H HQ. destruct (enter place_layout task_layout f w) as [[u w1]|m|]; [|done..].
  destruct (finish_u unit_value task_layout fuel addr nd w1) as [[r w']|m|]; [by apply HQ|done..].
Qed.
End unwind_run.
