(* ===== verification/UnwindThms.v ===== *)
(** * Panics: what unwinding promises and what it does not

    The theorems about [Unwind], over every allocator with the interface
    [StackAlloc]; the witnesses use the ideal one. *)

From S2P Require Import Prelude Exc Ptr Allocator AllocatorSpec StackAlloc Stack Runner StackInv StackSafe RunnerSafe StackEval StackSim StackThms.
From S2P Require Import Unwind UnwindAgree UnwindSafe UnwindExact UnwindOps UnwindRun.

(** A task that calls, and panics in the call. *)
Definition throwing : code V0 := Run (Throw "boom") (fun h => Await h Ret).

(** A call of a closure that panics. *)
Definition bad_closure : code V0 := Run (NoFuture "no") (fun h => Await h Ret).

(** [C8] Whatever the futures do (polls in any order, with any context, futures
    dropped half way, polled again after they are done, panics anywhere) and
    whatever sequence of operations the owner makes on the stack (steps, runs,
    asynchronous polls, dropping or leaking the runner, entering again, dropping
    the stack), catching every panic and going on: the stack satisfies its
    invariant after each operation.  The sequence ends early only if [enter] finds no
    memory, and it is undefined only if an operation polls a task that panics in
    the first poll of a call. *)
Theorem caught_ops_defined {V} (unit_value : V) {A} `{!StackAlloc A} place_layout task_layout os :
  layouts_ok (A := A) place_layout task_layout ->
  match run_ops_u unit_value place_layout task_layout os (new_stack : world V A) with
  | Ok (_, w) => stack_inv w
  | Panic m => sa_fail m
  | UB => exists before o after w, os = before ++ o :: after /\
      run_ops_u unit_value place_layout task_layout before (new_stack : world V A) = Ok (tt, w) /\
      stack_inv w /\ op_lost unit_value task_layout o w
  end.
Proof. intros [Hpl Htl]. apply (run_ops_u_exits unit_value place_layout task_layout Hpl Htl), inv_is_idle, new_stack_inv. Qed.

(** A panic is caught, the poisoned task is polled again, dropped, and the stack
    entered again. *)
Definition panicking_ops : list (op V0) :=
  [Enter throwing; Step 64; Step 64; PollStep cx0; DropRunner false; Enter (compile (fib 3)); Finish 3 64 false].

Lemma caught_ops_defined_witness :
  layouts_ok (A := ideal_state) layout0 task0 /\
  exists w, run_ops_u 0%nat layout0 task0 panicking_ops stack0 = Ok (tt, w) /\ stack_inv w.
Proof.
  split; [apply layouts_ok0|].
  pose proof (caught_ops_defined 0%nat layout0 task0 panicking_ops layouts_ok0) as H.
  assert (Hrun : exists w, run_ops_u 0%nat layout0 task0 panicking_ops stack0 = Ok (tt, w))
    by (eexists; vm_compute; reflexivity).
  destruct Hrun as [w Hrun]. exists w. split; [exact Hrun|]. change (new_stack : world V0 ideal_state) with stack0 in H.
  rewrite Hrun in H. exact H.
Defined.





(** [C19] A panic during a poll, whatever the newest task does.  If it is raised
    in the first poll of a call, once the future says it is running and before its task
    is on the stack, then the drop of that future pops the task that is being
    polled: undefined.  After every other panic, as after every poll that returns,
    the stack satisfies its invariant and the thread local pointer is what it was. *)
Theorem poll_unwinds {V} (unit_value : V) {A} `{!StackAlloc A} (task_layout : code V -> Layout)
    (w : world V A) a t ts pa f cx :
  (forall f, sa_layout (task_layout f)) -> inv_running w a t ts pa -> body t = Some f ->
  match exec_u unit_value task_layout cx f (handles t) (poll_start w a) with
  | Ok (Unwinds true _, _, _) => drive_top_task_u unit_value task_layout cx w = UB
  | Ok _ => wp (drive_top_task_u unit_value task_layout cx) w
              (fun _ w' => stack_inv w' /\ stack_ptr w' = stack_ptr w)
  | Panic _ | UB => False
  end.
Proof. intros Htl Hr Hf. by apply (drive_u_cases unit_value task_layout Htl w a t ts pa). Qed.

(** How the first poll of an entered future is left by a panic. *)
Definition first_poll_left (f : code V0) : option bool :=
  match exec_u 0%nat task0 cx0 f [] (poll_start (entered_code f) 2) with
  | Ok (Unwinds b _, _, _) => Some b
  | _ => None
  end.

Lemma poll_unwinds_witness :
  first_poll_left bad_closure = Some true /\
  match exec_u 0%nat task0 cx0 bad_closure [] (poll_start (entered_code bad_closure) 2) with
  | Ok (Unwinds true _, _, _) => drive_top_task_u 0%nat task0 cx0 (entered_code bad_closure) = UB
  | Ok _ => wp (drive_top_task_u 0%nat task0 cx0) (entered_code bad_closure)
              (fun _ w' => stack_inv w' /\ stack_ptr w' = stack_ptr (entered_code bad_closure))
  | Panic _ | UB => False
  end.
Proof.
  split; [vm_compute; reflexivity|].
  assert (Hr : inv_running (entered_code bad_closure) 2 (task_of bad_closure 1) [] 1) by by apply entered_code_inv.
  pose proof (poll_unwinds 0%nat task0 (entered_code bad_closure) 2 (task_of bad_closure 1) [] 1 bad_closure cx0
    (proj2 layouts_ok0) Hr eq_refl) as H.
  exact H.
Defined.

(** A panic that leaves [finish] leaves an idle stack, which can be entered
    again: the runner is dropped on the way out, and with it every task, also the
    poisoned one. *)
Theorem finish_unwinds_idle {V} (unit_value : V) {A} `{!StackAlloc A} (task_layout : code V -> Layout)
    (w : world V A) fuel addr nd :
  (forall f, sa_layout (task_layout f)) -> stack_inv w ->
  unless_ub (finish_u unit_value task_layout fuel addr nd) w (fun r w' =>
    match r with
    | Returns None => stack_inv w'
    | Returns (Some _) | Unwinds _ _ => inv_idle w' /\ state w' = Base /\ heap w' = ∅
    end).
Proof.
  intros Htl Hi. eapply uu_post; [by apply uu_finish|].
  intros [[v|]|p m] w'; [|done|]; intros [Hi' Hst]; split_and!; try done;
    by rewrite (shape_heap _ _ (idle_shape _ Hi')).
Qed.

(** The message that left a run by unwinding. *)
Definition unwound_message {X S} (o : outcome (exc X * S)) : option string :=
  match o with Ok (Unwinds _ m, _) => Some m | _ => None end.

Lemma finish_unwinds_idle_witness :
  unwound_message (finish_u 0%nat task0 10 64 false (entered_code throwing)) = Some "boom" /\
  unless_ub (finish_u 0%nat task0 10 64 false) (entered_code throwing) (fun r w' =>
    match r with
    | Returns None => stack_inv w'
    | Returns (Some _) | Unwinds _ _ => inv_idle w' /\ state w' = Base /\ heap w' = ∅
    end).
Proof.
  split; [vm_compute; reflexivity|].
  apply finish_unwinds_idle; [by intros|]. eapply inv_is_running. by apply entered_code_inv.
Defined.

(** [C10] A recursive program entered on an idle stack and run by [finish]: a program
    with a value gives it, and one that panics, however deep, makes the run unwind
    with its message (or that of [step], if it waits for something outside).
    Either way the stack is left idle.  Only the allocator can make it end
    otherwise: [enter] panics if it finds no memory, and the run is undefined if the
    task of a call is refused, a panic in the first poll of that call. *)
Theorem program_unwinds {V} (unit_value : V) {A} `{!StackAlloc A} place_layout task_layout
    (w : world V A) p fuel addr nd :
  layouts_ok (A := A) place_layout task_layout ->
  inv_idle w -> state w = Base -> (cost (events w) p < fuel)%nat ->
  match enter place_layout task_layout (compile p) w with
  | Ok (_, w1) =>
      match finish_u unit_value task_layout fuel addr nd w1 with
      | Ok (r, w') => inv_idle w' /\ state w' = Base /\
          match eval (events w) p with
          | Some v => r = Returns (Some v)
          | None => r = Unwinds false (default sync_pending (throws (events w) p))
          end
      | UB => out_of_memory unit_value task_layout (stub_context addr) w1
      | Panic _ => False
      end
  | Panic m => sa_fail m
  | UB => False
  end.
Proof. intros [Hpl Htl] Hi Hst Hfuel. by apply program_runs. Qed.

(** A panic at the bottom of a recursion. *)
Fixpoint sink (n : nat) : prog V0 :=
  match n with O => PThrow "boom" | S n => PRun (sink n) PRet end.

(** The same stack over the allocator of src/allocator.rs, with a global allocator
    that hands out regions at increasing addresses. *)
#[local] Instance real : StackAlloc ast := stack_allocator (H := bump_global) true.
Definition real_stack0 : world V0 ast := new_stack.

Lemma real_layouts_ok : layouts_ok (A := ast) layout0 task0.
Proof.
  assert (H : layout_small layout0) by (split; [split; [done|by exists 3|done]|done]).
  split; [exact H|by intros].
Defined.

(** How a program entered on that stack is left. *)
Definition real_exit (p : prog V0) (fuel : nat) : option (exc (option V0)) :=
  match enter layout0 task0 (compile p) real_stack0 with
  | Ok (_, w1) => match finish_u 0%nat task0 fuel 64 false w1 with Ok (r, _) => Some r | _ => None end
  | _ => None
  end.

Lemma program_unwinds_witness :
  real_exit (sink 20) 50 = Some (Unwinds false "boom") /\ real_exit (fib 7) 100 = Some (Returns (Some 13%nat)) /\
  match enter layout0 task0 (compile (sink 20)) real_stack0 with
  | Ok (_, w1) =>
      match finish_u 0%nat task0 50 64 false w1 with
      | Ok (r, w') => inv_idle w' /\ state w' = Base /\
          match eval (events real_stack0) (sink 20) with
          | Some v => r = Returns (Some v)
          | None => r = Unwinds false (default sync_pending (throws (events real_stack0) (sink 20)))
          end
      | UB => out_of_memory 0%nat task0 (stub_context 64) w1
      | Panic _ => False
      end
  | Panic m => sa_fail m
  | UB => False
  end.
Proof.
  split; [vm_compute; reflexivity|]. split; [vm_compute; reflexivity|].
  refine (program_unwinds 0%nat layout0 task0 real_stack0 (sink 20) 50 64 false real_layouts_ok _ eq_refl _).
  - apply new_stack_inv.
  - apply Nat.ltb_lt. vm_compute. reflexivity.
Defined.

(** [C30] Two ways to raise a panic in a first poll.  A closure given to
    [stk.run] that panics before it gives a future; and two calls polled in one
    poll, where the assertion on the order of the stack is meant to stop the
    second.  In both the poll is undefined, in any running stack. *)
Theorem first_poll_panic_undefined {V} (unit_value : V) {A} `{!StackAlloc A} (task_layout : code V -> Layout)
    (w : world V A) a t ts pa f cx :
  (forall f, sa_layout (task_layout f)) -> inv_running w a t ts pa -> body t = Some f ->
  (exists m k, f = Run (NoFuture m) (fun h => Await h k)) \/
  (exists g g' c c' k, f = Run g (fun h => Run g' (fun h' => Poll h c (fun _ => Poll h' c' k)))) ->
  drive_top_task_u unit_value task_layout cx w = UB.
Proof.
  intros Htl Hr Hf Hcase. pose proof (mid_poll_start _ _ _ _ _ Hr) as Hm.
  pose proof (drive_u_cases unit_value task_layout Htl w a t ts pa f cx Hr Hf) as H.
  destruct Hcase as [(m & k & ->)|(g & g' & c & c' & k & ->)].
  - destruct (exec_closure_panics unit_value task_layout _ _ _ _ cx _ _ _ m k Hm) as (hs & w1 & He).
    by rewrite He in H.
  - destruct (exec_join_panics unit_value task_layout Htl _ _ _ _ cx _ _ _ g g' c c' k Hm) as (m & hs & w1 & He).
    by rewrite He in H.
Qed.

Lemma first_poll_panic_undefined_witness :
  inv_running (entered_code bad_closure) 2 (task_of bad_closure 1) [] 1 /\
  drive_top_task_u 0%nat task0 cx0 (entered_code bad_closure) = UB.
Proof.
  assert (Hr : inv_running (entered_code bad_closure) 2 (task_of bad_closure 1) [] 1)
    by by apply entered_code_inv.
  split; [exact Hr|].
  eapply first_poll_panic_undefined; [by intros|exact Hr|reflexivity|]. left. by exists "no", Ret.
Defined.

(** The runs themselves: a closure that panics, two calls that are joined, and a
    panic inside a call, after which the stack is used again. *)
Example bad_closure_run :
  finish_u 0%nat task0 10 64 false (entered_code bad_closure) = UB.
Proof. vm_compute. reflexivity. Qed.

Example join_run :
  finish_u 0%nat task0 10 64 false (entered_code
    (Run yielding (fun a => Run yielding (fun b => Poll a None (fun _ => Poll b None (fun _ => Throw "no"))))))
  = UB.
Proof. vm_compute. reflexivity. Qed.

Example throwing_then_fib :
  (match finish_u 0%nat task0 10 64 false (entered_code throwing) with
   | Ok (_, w) =>
       match (do! enter layout0 task0 (compile (fib 10)) in finish_u 0%nat task0 1000 64 false) w with
       | Ok (Returns r, _) => r | _ => None end
   | _ => None end) = Some 55%nat.
Proof. vm_compute. reflexivity. Qed.
