(* ===== verification/AtomicWaker.v ===== *)
(** * The atomic waker (src/tree/schedular/atomic_waker.rs)

    [register] and [wake] as sequences of atomic operations of the threads that
    call them.  A thread is a number; [pcs] says which operation each performs
    next, and any interleaving of the threads is a list of [action]s.  Accesses
    to the waker cell, which is not atomic, are steps of their own, so that a
    data race is two threads about to touch it at once. *)

From stdpp Require Import functions.
From S2P Require Import Prelude.

Module AtomicWaker.

Definition WAITING : Z := 0.
Definition REGISTERING : Z := 1.
Definition WAKING : Z := 2.

(** The place of a thread in the code; [w] is the waker passed to [register]. *)
Inductive pc :=
| Idle
| RLock (w : nat)      (* register: compare_exchange(WAITING, REGISTERING) *)
| RUpdate (w : nat)    (* the lock is held: update the cell *)
| RUnlock (w : nat)    (* compare_exchange(REGISTERING, WAITING) *)
| RTake (w : nat)      (* a wake came: take the waker from the cell *)
| RSwap (old : nat)    (* state.swap(WAITING) *)
| RWake (old : nat)    (* waker.wake() *)
| RWakeRef (w : nat)   (* a wake is in progress: waker.wake_by_ref() *)
| WFetch               (* take: fetch_or(WAKING) *)
| WTake                (* the lock is held: take the waker *)
| WRelease (o : option nat)  (* fetch_and(!WAKING) *)
| WWake (o : option nat).    (* wake: waker.wake() *)

#[export] Instance pc_eq_dec : EqDecision pc.
Proof. solve_decision. Defined.

(** The state of an [AtomicWaker], the places of the threads, and what happened:
    the wakers called, in order, the waker of the last [register] to reach its
    first operation with the wakers called before it, and whether a [wake] has
    begun since. *)
Record aw := {
  st : Z;
  cell : option nat;
  pcs : nat -> pc;
  woken : list nat;
  cur : option nat;
  mark : nat;
  signalled : bool;
}.

Definition new : aw :=
  {| st := WAITING; cell := None; pcs := fun _ => Idle; woken := []; cur := None; mark := 0;
     signalled := false |}.

(** ** Updates of the fields *)
Definition set_st (x : Z) (s : aw) : aw :=
  {| st := x; cell := cell s; pcs := pcs s; woken := woken s; cur := cur s; mark := mark s;
     signalled := signalled s |}.
Definition set_cell (o : option nat) (s : aw) : aw :=
  {| st := st s; cell := o; pcs := pcs s; woken := woken s; cur := cur s; mark := mark s;
     signalled := signalled s |}.
Definition set_pc (i : nat) (p : pc) (s : aw) : aw :=
  {| st := st s; cell := cell s; pcs := <[i := p]> (pcs s); woken := woken s; cur := cur s;
     mark := mark s; signalled := signalled s |}.
Definition add_woken (w : nat) (s : aw) : aw :=
  {| st := st s; cell := cell s; pcs := pcs s; woken := woken s ++ [w]; cur := cur s;
     mark := mark s; signalled := signalled s |}.
(** [register] of [w] begins; a [wake] begins. *)
Definition note_register (w : nat) (s : aw) : aw :=
  {| st := st s; cell := cell s; pcs := pcs s; woken := woken s; cur := Some w;
     mark := length (woken s); signalled := false |}.
Definition note_wake (s : aw) : aw :=
  {| st := st s; cell := cell s; pcs := pcs s; woken := woken s; cur := cur s;
     mark := mark s; signalled := true |}.

(** ** The atomic operations on the state *)
Definition compare_exchange (old new : Z) : M aw (Z + Z) :=
  let! x := gets st in
  if (x =? old)%Z then do! modify (set_st new) in ret (inl x) else ret (inr x).
Definition fetch_or (m : Z) : M aw Z :=
  let! x := gets st in do! modify (set_st (Z.lor x m)) in ret x.
Definition fetch_and (m : Z) : M aw Z :=
  let! x := gets st in do! modify (set_st (Z.land x m)) in ret x.
Definition swap (y : Z) : M aw Z :=
  let! x := gets st in do! modify (set_st y) in ret x.

(** [Option::take] on the cell. *)
Definition take_cell : M aw (option nat) :=
  let! o := gets cell in do! modify (set_cell None) in ret o.
Definition wake_waker (w : nat) : M aw unit := modify (add_woken w).
Definition goto (i : nat) (p : pc) : M aw unit := modify (set_pc i p).

(** ** One operation of thread [i] *)
Definition run (i : nat) : M aw unit :=
  let! p := gets (fun s => pcs s i) in
  match p with
  | Idle => ret tt
  (* register *)
  | RLock w =>
      do! modify (note_register w) in
      let! r := compare_exchange WAITING REGISTERING in
      match r with
      | inl _ => goto i (RUpdate w)
      | inr state =>
          if (state =? WAKING)%Z then goto i (RWakeRef w)
          else
            do! assert ((state =? REGISTERING) || (state =? Z.lor REGISTERING WAKING))%Z
                  "assertion failed: state == REGISTERING || state == REGISTERING | WAKING" in
            goto i Idle
      end
  | RUpdate w =>
      let! o := gets cell in
      (* [will_wake]: the waker in the cell is the one registered *)
      do! (if bool_decide (o = Some w) then ret tt else modify (set_cell (Some w))) in
      goto i (RUnlock w)
  | RUnlock w =>
      let! r := compare_exchange REGISTERING WAITING in
      match r with
      | inl _ => goto i Idle
      | inr actual =>
          do! assert (actual =? Z.lor REGISTERING WAKING)%Z
                "assertion `left == right` failed: actual, REGISTERING | WAKING" in
          goto i (RTake w)
      end
  | RTake w =>
      let! o := take_cell in
      let! waker := unwrap o in
      goto i (RSwap waker)
  | RSwap waker =>
      let! _ := swap WAITING in
      goto i (RWake waker)
  | RWake waker =>
      do! wake_waker waker in
      goto i Idle
  | RWakeRef w =>
      do! wake_waker w in
      goto i Idle
  (* wake, with take inlined *)
  | WFetch =>
      do! modify note_wake in
      let! state := fetch_or WAKING in
      if (state =? WAITING)%Z then goto i WTake
      else
        do! assert ((state =? REGISTERING) || (state =? Z.lor REGISTERING WAKING) || (state =? WAKING))%Z
              "assertion failed: state == REGISTERING || state == REGISTERING | WAKING || state == WAKING" in
        goto i Idle
  | WTake =>
      let! waker := take_cell in
      goto i (WRelease waker)
  | WRelease waker =>
      let! _ := fetch_and (usize_not WAKING) in
      goto i (WWake waker)
  | WWake waker =>
      do! match waker with Some w => wake_waker w | None => ret tt end in
      goto i Idle
  end.

(** ** Schedules *)

(** An idle thread calls [register] or [wake], or a thread makes its next step. *)
Inductive action := Register (i w : nat) | Wake (i : nat) | Run (i : nat).

Definition call (i : nat) (p : pc) : M aw unit :=
  let! q := gets (fun s => pcs s i) in
  if bool_decide (q = Idle) then goto i p else ret tt.

Definition act (a : action) : M aw unit :=
  match a with
  | Register i w => call i (RLock w)
  | Wake i => call i WFetch
  | Run i => run i
  end.

Fixpoint schedule (l : list action) : M aw unit :=
  match l with
  | [] => ret tt
  | a :: l => do! act a in schedule l
  end.

End AtomicWaker.
