(* ===== verification/AtomicWakerThms.v ===== *)
(** * What the atomic waker promises

    Over every interleaving of the threads: the cell is never touched by two at
    once, no assertion fails, every call ends within six steps of its thread,
    and no wake up after a registration is lost. *)

From stdpp Require Import functions.
From S2P Require Import Prelude AtomicWaker.
Import AtomicWaker.

(** ** The lock *)

(** The threads that hold it: while registering, or while waking. *)
Definition registering (p : pc) : bool :=
  match p with RUpdate _ | RUnlock _ | RTake _ | RSwap _ => true | _ => false end.
Definition waking (p : pc) : bool :=
  match p with WTake | WRelease _ => true | _ => false end.
Definition holds (p : pc) : bool := registering p || waking p.

(** A thread about to touch the cell. *)
Definition accesses (p : pc) : bool :=
  match p with RUpdate _ | RTake _ | WTake => true | _ => false end.

Lemma accesses_holds p : accesses p = true -> holds p = true.
Proof. by destruct p. Qed.

(** What the holder at [p] knows of the state and the cell. *)
Definition holder_ok (s : aw) (p : pc) : Prop :=
  match p with
  | RUpdate _ => st s = 1 \/ st s = 3
  | RUnlock w => (st s = 1 \/ st s = 3) /\ cell s = Some w
  | RTake w => st s = 3 /\ cell s = Some w
  | RSwap w => st s = 3 /\ cell s = None
  | WTake => st s = 2
  | WRelease _ => st s = 2 /\ cell s = None
  | _ => True
  end.

(** The state says who holds the lock, and nobody else does. *)
Definition lock_inv (s : aw) : Prop :=
  (st s = 0 /\ forall i, holds (pcs s i) = false) \/
  exists h, holds (pcs s h) = true /\ holder_ok s (pcs s h) /\
    forall i, i <> h -> holds (pcs s i) = false.

Lemma lock_inv_new : lock_inv new.
Proof. by left. Qed.

Lemma holds_insert (f : nat -> pc) i p j :
  holds ((<[i := p]> f) j) = if decide (j = i) then holds p else holds (f j).
Proof.
  case_decide as Hji; [subst; by rewrite fn_lookup_insert|by rewrite fn_lookup_insert_ne].
Qed.

Lemma lock_holder s i :
  lock_inv s -> holds (pcs s i) = true ->
  holder_ok s (pcs s i) /\ forall j, j <> i -> holds (pcs s j) = false.
Proof.
  intros [[_ Hn]|(h & Hh & Hok & Hn)] Hi; [by rewrite Hn in Hi|].
  destruct (decide (i = h)) as [->|Hne]; [done|]. by rewrite Hn in Hi.
Qed.

Lemma holder_state s p : holder_ok s p -> holds p = true -> st s = 1 \/ st s = 2 \/ st s = 3.
Proof. destruct p; cbn; intuition; done. Qed.

Lemma lock_free s : lock_inv s -> st s = 0 -> forall i, holds (pcs s i) = false.
Proof.
  intros [[_ Hn]|(h & Hh & Hok & _)] H0; [done|]. destruct (holder_state _ _ Hok Hh); lia.
Qed.

Lemma lock_held s : lock_inv s -> st s <> 0 ->
  exists h, holds (pcs s h) = true /\ holder_ok s (pcs s h) /\ forall i, i <> h -> holds (pcs s i) = false.
Proof. by intros [[? _]|?]. Qed.

(** The four ways a step of thread [i] changes the lock. *)
Section moves.
Context (s s' : aw) (i : nat) (p : pc) (Hinv : lock_inv s) (Hpcs : pcs s' = <[i := p]> (pcs s)).

Lemma lock_set (Hholds : holds p = true) (Hok : holder_ok s' p)
    (Hn : forall j, j <> i -> holds (pcs s j) = false) : lock_inv s'.
Proof.
  right. exists i. rewrite Hpcs, fn_lookup_insert. split; [done|]. split; [done|].
  intros j Hj. rewrite fn_lookup_insert_ne by done. by apply Hn.
Qed.

Lemma lock_clear (Hholds : holds p = false) (Hst : st s' = 0)
    (Hn : forall j, j <> i -> holds (pcs s j) = false) : lock_inv s'.
Proof.
  left. split; [done|]. intros j. rewrite Hpcs, holds_insert. case_decide; [done|]. by apply Hn.
Qed.

Lemma lock_other (Hi : holds (pcs s i) = false) (Hp : holds p = false)
    (Hok : forall q, holds q = true -> holder_ok s q -> holder_ok s' q)
    (Hst : st s = 0 -> st s' = 0) : lock_inv s'.
Proof.
  destruct Hinv as [[H0 Hn]|(h & Hh & Hok' & Hn)].
  - left. split; [by apply Hst|]. intros j. rewrite Hpcs, holds_insert. by case_decide.
  - assert (h <> i) by (intros ->; congruence).
    right. exists h. rewrite Hpcs, fn_lookup_insert_ne by done. split; [done|]. split; [by apply Hok|].
    intros j Hj. fold (pcs s). rewrite holds_insert. case_decide; [done|]. by apply Hn.
Qed.
End moves.

(** Setting the [WAKING] bit of a held lock. *)
Lemma holder_ok_wake s s' q :
  cell s' = cell s -> st s' = Z.lor (st s) WAKING -> holds q = true -> holder_ok s q -> holder_ok s' q.
Proof.
  intros Hc Hst Hq H. pose proof (holder_state _ _ H Hq) as Hcases.
  unfold holder_ok in *. rewrite Hc, Hst.
  destruct q; try done; cbn in Hq; destruct Hcases as [E|[E|E]]; rewrite E in *; cbn; intuition (try lia; auto).
Qed.

Lemma holder_ok_ext s s' q : cell s' = cell s -> st s' = st s -> holder_ok s q -> holder_ok s' q.
Proof. intros Hc Hst. unfold holder_ok. by rewrite Hc, Hst. Qed.

Lemma act_lock_register s i p :
  lock_inv s -> holds p = false -> wp (call i p) s (fun _ s' => lock_inv s').
Proof.
  intros Hi Hp. unfold call. apply wpe_bind, wpe_gets. case_bool_decide as Hidle; [|by apply wpe_ret].
  apply wpe_modify. apply (lock_other s _ i p); [done|done|by rewrite Hidle|done|done|done].
Qed.

Lemma run_lock_register s i w :
  lock_inv s -> pcs s i = RLock w -> wp (run i) s (fun _ s' => lock_inv s').
Proof.
  intros Hi Hpc. unfold run. apply wpe_bind, wpe_gets. rewrite Hpc.
  apply wpe_bind, wpe_modify, wpe_bind, wpe_bind, wpe_gets. cbn [st note_register].
  destruct (Z.eqb_spec (st s) WAITING) as [H0|H0].
  - apply wpe_bind, wpe_modify, wpe_ret, wpe_modify.
    apply (lock_set s _ i (RUpdate w)); [done|done|by left|]. intros j _. by apply lock_free.
  - apply wpe_ret. destruct (lock_held s Hi H0) as (h & Hh & Hok & Hn).
    assert (Hend : forall q, holds q = false -> lock_inv (set_pc i q (note_register w s))).
    { intros q Hq. apply (lock_other s _ i q); [done|done|by rewrite Hpc|done|done|done]. }
    destruct (Z.eqb_spec (st s) WAKING); [by apply wpe_modify, Hend|].
    apply wpe_bind, wpe_assert_true; [|by apply wpe_modify, Hend].
    destruct (holder_state _ _ Hok Hh) as [->|[E| ->]]; [done|by rewrite E in *|done].
Qed.

Lemma run_lock_wake s i :
  lock_inv s -> pcs s i = WFetch -> wp (run i) s (fun _ s' => lock_inv s').
Proof.
  intros Hi Hpc. unfold run. apply wpe_bind, wpe_gets. rewrite Hpc.
  apply wpe_bind, wpe_modify, wpe_bind, wpe_bind, wpe_gets, wpe_bind, wpe_modify, wpe_ret. cbn [st note_wake].
  destruct (Z.eqb_spec (st s) WAITING) as [H0|H0].
  - apply wpe_modify. apply (lock_set s _ i WTake); [done|done| |].
    + cbn. by rewrite H0.
    + intros j _. by apply lock_free.
  - destruct (lock_held s Hi H0) as (h & Hh & Hok & Hn).
    apply wpe_bind, wpe_assert_true.
    { destruct (holder_state _ _ Hok Hh) as [->|[->| ->]]; done. }
    apply wpe_modify. apply (lock_other s _ i Idle); [done|done|by rewrite Hpc|done| |done].
    intros q Hq. by apply holder_ok_wake.
Qed.

(** The steps of the holder of the lock. *)
Lemma run_lock_holder s i :
  lock_inv s -> holds (pcs s i) = true -> wp (run i) s (fun _ s' => lock_inv s').
Proof.
  intros Hi Hh. destruct (lock_holder s i Hi Hh) as [Hok Hn]. unfold run. apply wpe_bind, wpe_gets.
  destruct (pcs s i) as [|w|w|w|w|w|w|w| | |o|o] eqn:Hpc; try done; cbn [holder_ok] in Hok.
  - apply wpe_bind, wpe_gets, wpe_bind. case_bool_decide as Ho.
    + apply wpe_ret, wpe_modify. by apply (lock_set s _ i (RUnlock w)).
    + apply wpe_modify, wpe_modify. by apply (lock_set s _ i (RUnlock w)).
  - apply wpe_bind, wpe_bind, wpe_gets. destruct Hok as [[E|E] Hc]; rewrite E.
    + change (1 =? REGISTERING)%Z with true. cbn iota. apply wpe_bind, wpe_modify, wpe_ret, wpe_modify. by apply (lock_clear s _ i Idle).
    + change (3 =? REGISTERING)%Z with false. cbn iota.
      apply wpe_ret, wpe_bind, wpe_assert_true; [done|]. apply wpe_modify. by apply (lock_set s _ i (RTake w)).
  - destruct Hok as [E Hc]. apply wpe_bind, wpe_bind, wpe_gets, wpe_bind, wpe_modify, wpe_ret.
    rewrite Hc. apply wpe_bind, wpe_ret, wpe_modify. by apply (lock_set s _ i (RSwap w)).
  - apply wpe_bind, wpe_bind, wpe_gets, wpe_bind, wpe_modify, wpe_ret, wpe_modify.
    by apply (lock_clear s _ i (RWake w)).
  - apply wpe_bind, wpe_bind, wpe_gets, wpe_bind, wpe_modify, wpe_ret, wpe_modify.
    by apply (lock_set s _ i (WRelease (cell s))).
  - destruct Hok as [E Hc].
    apply wpe_bind, wpe_bind, wpe_gets, wpe_bind, wpe_modify, wpe_ret, wpe_modify.
    apply (lock_clear s _ i (WWake o)); [done|done| |done]. cbn. by rewrite E.
Qed.

Lemma run_lock s i : lock_inv s -> wp (run i) s (fun _ s' => lock_inv s').
Proof.
  intros Hi. destruct (holds (pcs s i)) eqn:Hh; [by apply run_lock_holder|].
  destruct (pcs s i) as [|w|w|w|w|w|w|w| | |o|o] eqn:Hpc; try done.
  - unfold run. apply wpe_bind, wpe_gets. rewrite Hpc. by apply wpe_ret.
  - by apply (run_lock_register s i w).
  - unfold run. apply wpe_bind, wpe_gets. rewrite Hpc. apply wpe_bind, wpe_modify, wpe_modify.
    apply (lock_other s _ i Idle); [done|done|by rewrite Hpc|done|done|done].
  - unfold run. apply wpe_bind, wpe_gets. rewrite Hpc. apply wpe_bind, wpe_modify, wpe_modify.
    apply (lock_other s _ i Idle); [done|done|by rewrite Hpc|done|done|done].
  - by apply run_lock_wake.
  - unfold run. apply wpe_bind, wpe_gets. rewrite Hpc. apply wpe_bind.
    destruct o as [w|]; [apply wpe_modify, wpe_modify|apply wpe_ret, wpe_modify].
    all: apply (lock_other s _ i Idle); [done|done|by rewrite Hpc|done|done|done].
Qed.

Lemma act_lock s a : lock_inv s -> wp (act a) s (fun _ s' => lock_inv s').
Proof.
  intros Hi. destruct a as [i w|i|i]; [by apply act_lock_register..|by apply run_lock].
Qed.

Lemma schedule_lock l : forall s, lock_inv s -> wp (schedule l) s (fun _ s' => lock_inv s').
Proof.
  induction l as [|a l IH]; intros s Hi; cbn [schedule]; [by apply wpe_ret|].
  apply wpe_bind. eapply wpe_post; [by apply act_lock|]. intros [] s' Hi'. by apply IH.
Qed.

(** ** Progress *)

(** The steps a thread still has to make. *)
Definition rank (p : pc) : nat :=
  match p with
  | Idle => 0
  | RWake _ | RWakeRef _ | WWake _ => 1
  | RSwap _ | WRelease _ => 2
  | RTake _ | WTake => 3
  | RUnlock _ | WFetch => 4
  | RUpdate _ => 5
  | RLock _ => 6
  end.

Lemma rank_idle p : rank p = 0%nat -> p = Idle.
Proof. by destruct p. Qed.

Lemma run_rank s i s' :
  run i s = Ok (tt, s') -> (rank (pcs s' i) <= pred (rank (pcs s i)))%nat.
Proof.
  unfold run, bind, gets, compare_exchange, fetch_or, fetch_and, swap, take_cell, wake_waker, goto,
    modify, assert, unwrap, expect, bind, gets, ret, panic.
  destruct (pcs s i) as [|w|w|w|w|w|w|w| | |o|o] eqn:Hpc; intros H.
  all: repeat first [progress simplify_eq/= | case_match].
  all: rewrite ?fn_lookup_insert, ?Hpc; cbn; lia.
Qed.

Lemma run_to_idle n : forall s i,
  lock_inv s -> (rank (pcs s i) <= n)%nat ->
  exists s', schedule (replicate n (Run i)) s = Ok (tt, s') /\ pcs s' i = Idle /\ lock_inv s'.
Proof.
  induction n as [|n IH]; intros s i Hi Hr.
  - exists s. split; [done|]. split; [apply rank_idle; lia|done].
  - destruct (wp_ok _ _ _ (run_lock s i Hi)) as ([] & s1 & Hrun & Hi1).
    pose proof (run_rank s i s1 Hrun).
    destruct (IH s1 i Hi1 ltac:(lia)) as (s2 & Hs2 & Hidle & Hi2).
    exists s2. split; [|done]. cbn [replicate schedule act]. unfold bind. by rewrite Hrun.
Qed.

(** ** No wake up is lost *)

Definition is_register (p : pc) : bool :=
  match p with
  | RLock _ | RUpdate _ | RUnlock _ | RTake _ | RSwap _ | RWake _ | RWakeRef _ => true
  | _ => false
  end.

(** The waker [w] has been called since the registration. *)
Definition delivered (s : aw) (w : nat) : Prop := w ∈ drop (mark s) (woken s).

(** The thread at [p] is on its way to call [w]. *)
Definition inflight_at (s : aw) (p : pc) (w : nat) : Prop :=
  match p with
  | RSwap o | RWake o | RWakeRef o => o = w
  | WRelease o | WWake o => o = Some w
  | WTake => cell s = Some w
  | RUpdate w' | RUnlock w' | RTake w' => w' = w /\ st s = 3
  | _ => False
  end.

(** [w] is in place for the next wake, or about to be. *)
Definition armed (s : aw) (w : nat) : Prop :=
  (cell s = Some w /\ st s = 0) \/
  (st s = 1 /\ exists i, pcs s i = RUpdate w \/ pcs s i = RUnlock w).

Definition served (s : aw) (w : nat) : Prop :=
  delivered s w \/ (exists i, inflight_at s (pcs s i) w) \/ (armed s w /\ signalled s = false).

(** Only thread [r] registers. *)
Record sig_inv (r : nat) (s : aw) : Prop := {
  sig_lock : lock_inv s;
  sig_reg : forall i, i <> r -> is_register (pcs s i) = false;
  sig_mark : (mark s <= length (woken s))%nat;
  sig_served : forall w, cur s = Some w -> served s w;
}.

Lemma sig_inv_new r : sig_inv r new.
Proof. split; [apply lock_inv_new|done|done|done]. Qed.

(** What [inflight_at] says of a thread that does not hold the lock depends on
    nothing else. *)
Lemma inflight_at_free s s' p w :
  holds p = false -> inflight_at s p w -> inflight_at s' p w.
Proof. by destruct p. Qed.

Lemma inflight_at_wake s s' p w :
  cell s' = cell s -> (st s = 3 -> st s' = 3) -> inflight_at s p w -> inflight_at s' p w.
Proof. intros Hc Hst. destruct p; cbn; rewrite ?Hc; intuition. Qed.

Lemma delivered_app s s' l w :
  (mark s <= length (woken s))%nat -> mark s' = mark s -> woken s' = woken s ++ l ->
  delivered s w \/ w ∈ l -> delivered s' w.
Proof.
  intros Hm Hmark Hw. unfold delivered. rewrite Hmark, Hw, drop_app_le by done.
  rewrite elem_of_app. intuition.
Qed.

(** A step of thread [i] that calls the wakers [l]. *)
Section serve.
Context (r : nat) (s s' : aw) (i : nat) (p : pc) (l : list nat).
Context (Hinv : sig_inv r s) (Hlock : lock_inv s') (Hpcs : pcs s' = <[i := p]> (pcs s)).
Context (Hwoken : woken s' = woken s ++ l) (Hmark : mark s' = mark s) (Hcur : cur s' = cur s).

Lemma sig_step :
  (is_register p = true -> i = r) ->
  (forall j w, j <> i -> inflight_at s (pcs s j) w -> inflight_at s' (pcs s j) w) ->
  (forall w, inflight_at s (pcs s i) w -> w ∈ l \/ inflight_at s' p w) ->
  (forall w, armed s w -> signalled s = false -> served s' w) ->
  sig_inv r s'.
Proof.
  intros Hp Hj Hi Ha. destruct Hinv as [_ Hreg Hm Hs]. split; [done| | |].
  - intros j Hne. rewrite Hpcs. destruct (decide (j = i)) as [->|].
    + rewrite fn_lookup_insert. destruct (is_register p); [by rewrite Hp in Hne|done].
    + rewrite fn_lookup_insert_ne by done. by apply Hreg.
  - rewrite Hmark, Hwoken, length_app. lia.
  - intros w Hw. rewrite Hcur in Hw. destruct (Hs w Hw) as [Hd|[[j Hfl]|[Har Hsig]]].
    + left. by apply (delivered_app s s' l); [..|left].
    + destruct (decide (j = i)) as [->|Hne].
      * destruct (Hi w Hfl) as [Hin|Hfl']; [left; by apply (delivered_app s s' l); [..|right]|].
        right; left. exists i. by rewrite Hpcs, fn_lookup_insert.
      * right; left. exists j. rewrite Hpcs, fn_lookup_insert_ne by done. by apply Hj.
    + by apply Ha.
Qed.
End serve.

(** A step of a thread that does not hold the lock and leaves the state and the
    cell alone. *)
Lemma sig_other r s s' i p l :
  sig_inv r s -> lock_inv s' -> pcs s' = <[i := p]> (pcs s) -> woken s' = woken s ++ l ->
  mark s' = mark s -> cur s' = cur s -> cell s' = cell s -> st s' = st s -> signalled s' = signalled s ->
  holds (pcs s i) = false -> (is_register p = true -> i = r) ->
  (forall w, inflight_at s (pcs s i) w -> w ∈ l) -> sig_inv r s'.
Proof.
  intros Hinv Hlock Hpcs Hw Hm Hc Hcell Hst Hsig Hh Hp Hin. eapply sig_step; try done.
  - intros j w _. apply inflight_at_wake; congruence.
  - intros w Hfl. left. by apply Hin.
  - intros w Har Hs. right; right. split; [|congruence].
    destruct Har as [[? ?]|(? & j & Hj)]; [left; split; congruence|right]. split; [congruence|].
    exists j. rewrite Hpcs, fn_lookup_insert_ne; [done|]. intros ->. by destruct Hj as [Hj|Hj]; rewrite Hj in Hh.
Qed.

(** A step of the holder of the lock. *)
Lemma sig_holder r s s' i p :
  sig_inv r s -> lock_inv s' -> pcs s' = <[i := p]> (pcs s) -> woken s' = woken s ->
  mark s' = mark s -> cur s' = cur s -> holds (pcs s i) = true ->
  (is_register p = true -> i = r) ->
  (forall w, inflight_at s (pcs s i) w -> inflight_at s' p w) ->
  (forall w, armed s w -> signalled s = false -> served s' w) -> sig_inv r s'.
Proof.
  intros Hinv Hlock Hpcs Hw Hm Hc Hh Hp Hin Ha.
  destruct (lock_holder s i (sig_lock _ _ Hinv) Hh) as [_ Hn].
  eapply (sig_step r s s' i p []); try done; [by rewrite app_nil_r| |by right; apply Hin].
  intros j w Hj. apply inflight_at_free. by apply Hn.
Qed.

(** Nothing is armed in the states 2 and 3. *)
Lemma not_armed s w : st s <> 1 -> st s <> 0 -> ~ armed s w.
Proof. by intros H1 H0 [[_ ?]|[? _]]. Qed.

(** ** Every step serves the registered waker *)
Section steps.
Context (r : nat) (s s' : aw) (i : nat) (Hinv : sig_inv r s) (Hrun : run i s = Ok (tt, s')) (Hlock : lock_inv s').

Lemma reg_is_r w : pcs s i = RLock w \/ is_register (pcs s i) = true -> i = r.
Proof.
  intros Hp. destruct (decide (i = r)) as [|Hne]; [done|]. pose proof (sig_reg _ _ Hinv i Hne).
  destruct Hp as [Hp|]; [by rewrite Hp in *|congruence].
Qed.

(** The lock is held by a thread that registers exactly in states 1 and 3. *)
Lemma not_locked_by_register w : pcs s i = RLock w -> st s = 0 \/ st s = 2.
Proof.
  intros Hp. assert (i = r) as -> by (apply (reg_is_r w); by left).
  destruct (sig_lock _ _ Hinv) as [[? _]|(h & Hh & Hok & _)]; [by left|right].
  assert (h <> r) as Hne%(sig_reg _ _ Hinv) by (intros ->; by rewrite Hp in Hh).
  destruct (pcs s h); by cbn in *; intuition.
Qed.

Lemma step_rlock w : pcs s i = RLock w -> sig_inv r s'.
Proof.
  intros Hp. pose proof (not_locked_by_register w Hp) as Hst.
  assert (i = r) as -> by (apply (reg_is_r w); by left).
  unfold run, bind, gets in Hrun. rewrite Hp in Hrun. unfold modify, compare_exchange, bind, gets in Hrun.
  cbn [st note_register] in Hrun. assert (Hreg : forall p, is_register p = true ->
    forall j, j <> r -> is_register ((<[r := p]> (pcs s)) j) = false).
  { intros p _ j Hj. rewrite fn_lookup_insert_ne by done. by apply (sig_reg _ _ Hinv). }
  destruct Hst as [Hst|Hst]; rewrite Hst in Hrun; cbn in Hrun; injection Hrun as <-.
  all: split; [done|by apply Hreg|done|]; cbn; intros w' [= <-].
  - right; right. split; [right|done]. split; [done|]. exists r. cbn. rewrite fn_lookup_insert. by left.
  - right; left. exists r. cbn. by rewrite fn_lookup_insert.
Qed.

Lemma step_holder_register w : pcs s i = RUpdate w \/ pcs s i = RUnlock w \/ pcs s i = RTake w ->
  sig_inv r s'.
Proof.
  intros Hp.
  assert (Hh : holds (pcs s i) = true) by by destruct Hp as [Hp|[Hp|Hp]]; rewrite Hp.
  destruct (lock_holder s i (sig_lock _ _ Hinv) Hh) as [Hok Hn].
  assert (i = r) as -> by (apply (reg_is_r w); right; by destruct Hp as [Hp|[Hp|Hp]]; rewrite Hp).
  assert (Harmed : forall w', armed s w' -> st s = 1 /\ (pcs s r = RUpdate w' \/ pcs s r = RUnlock w')).
  { intros w' [[_ H0]|[H1 [j Hj]]]; [destruct (holder_state _ _ Hok Hh); lia|]. split; [done|].
    destruct (decide (j = r)) as [->|Hne]; [done|]. specialize (Hn j Hne).
    by destruct Hj as [Hj|Hj]; rewrite Hj in Hn. }
  unfold run, bind, gets in Hrun. destruct Hp as [Hp|[Hp|Hp]]; rewrite Hp in *; cbn [holder_ok] in Hok.
  - assert (Hs' : exists c, s' = set_pc r (RUnlock w) (set_cell c s)).
    { unfold goto, modify, ret in Hrun. case_bool_decide; injection Hrun as <-; [exists (cell s)|eexists; done].
      by destruct s. }
    destruct Hs' as [c ->]. apply (sig_holder r s _ r (RUnlock w)); try done; [by rewrite Hp..|].
    intros w' Har Hsig. destruct (Harmed w' Har) as [H1 [[= <-]|[=]]].
    right; right. split; [right|done]. split; [done|]. exists r. cbn. rewrite fn_lookup_insert. by right.
  - unfold compare_exchange, bind, gets, modify, ret, assert, goto in Hrun.
    destruct Hok as [[E|E] Hc]; rewrite E in Hrun; cbn in Hrun; injection Hrun as <-.
    + apply (sig_holder r s _ r Idle); try done; [by rewrite Hp|rewrite Hp; cbn; intros; lia|].
      intros w' Har Hsig. destruct (Harmed w' Har) as [H1 [[=]|[= <-]]].
      right; right. split; [by left|done].
    + apply (sig_holder r s _ r (RTake w)); try done; [by rewrite Hp..|].
      intros w' Har Hsig. destruct (Harmed w' Har) as [H1 _]. lia.
  - destruct Hok as [E Hc]. unfold take_cell, bind, gets, modify, ret, unwrap, expect, goto in Hrun.
    rewrite Hc in Hrun. injection Hrun as <-.
    apply (sig_holder r s _ r (RSwap w)); try done; [by rewrite Hp|by rewrite Hp; intros w' [-> _]|].
    intros w' Har Hsig. destruct (Harmed w' Har) as [H1 _]. lia.
Qed.

Lemma step_rswap w : pcs s i = RSwap w -> sig_inv r s'.
Proof.
  intros Hp. assert (Hh : holds (pcs s i) = true) by by rewrite Hp.
  destruct (lock_holder s i (sig_lock _ _ Hinv) Hh) as [Hok _]. rewrite Hp in Hok. destruct Hok as [E _].
  assert (i = r) as -> by (apply (reg_is_r w); right; by rewrite Hp).
  unfold run, bind, gets in Hrun. rewrite Hp in Hrun. injection Hrun as <-.
  apply (sig_holder r s _ r (RWake w)); try done; [by rewrite Hp|].
  intros w' Har _. exfalso. apply (not_armed s w'); [lia..|done].
Qed.

Lemma step_wtake : pcs s i = WTake -> sig_inv r s'.
Proof.
  intros Hp. assert (Hh : holds (pcs s i) = true) by by rewrite Hp.
  destruct (lock_holder s i (sig_lock _ _ Hinv) Hh) as [Hok _]. rewrite Hp in Hok. cbn in Hok.
  unfold run, bind, gets in Hrun. rewrite Hp in Hrun. injection Hrun as <-.
  apply (sig_holder r s _ i (WRelease (cell s))); try done; [by rewrite Hp|].
  intros w' Har _. exfalso. apply (not_armed s w'); [lia..|done].
Qed.

Lemma step_wrelease o : pcs s i = WRelease o -> sig_inv r s'.
Proof.
  intros Hp. assert (Hh : holds (pcs s i) = true) by by rewrite Hp.
  destruct (lock_holder s i (sig_lock _ _ Hinv) Hh) as [Hok _]. rewrite Hp in Hok. destruct Hok as [E _].
  unfold run, bind, gets in Hrun. rewrite Hp in Hrun. injection Hrun as <-.
  apply (sig_holder r s _ i (WWake o)); try done; [by rewrite Hp|].
  intros w' Har _. exfalso. apply (not_armed s w'); [lia..|done].
Qed.

(** A waker is called. *)
Lemma step_call o :
  pcs s i = WWake o \/ (exists w, o = Some w /\ (pcs s i = RWake w \/ pcs s i = RWakeRef w)) ->
  sig_inv r s'.
Proof.
  intros Hp. assert (Hs' : s' = set_pc i Idle (match o with Some w => add_woken w s | None => s end)).
  { unfold run, bind, gets in Hrun. destruct Hp as [Hp|(w & -> & [Hp|Hp])]; rewrite Hp in Hrun;
      [destruct o|..]; by injection Hrun as <-. }
  apply (sig_other r s s' i Idle (match o with Some w => [w] | None => [] end)); subst s';
    try done; try by destruct o.
  - destruct o; cbn; [done|by rewrite app_nil_r].
  - destruct Hp as [Hp|(w & _ & [Hp|Hp])]; by rewrite Hp.
  - intros w. destruct Hp as [Hp|(w0 & -> & [Hp|Hp])]; rewrite Hp; cbn.
    + intros ->. left.
    + intros ->. left.
    + intros ->. left.
Qed.

Lemma step_wfetch : pcs s i = WFetch -> sig_inv r s'.
Proof.
  intros Hp. assert (Hh : holds (pcs s i) = false) by by rewrite Hp.
  assert (Hs' : exists p, s' = set_pc i p (set_st (Z.lor (st s) WAKING) (note_wake s)) /\
    p = if (st s =? 0)%Z then WTake else Idle).
  { unfold run, bind, gets in Hrun. rewrite Hp in Hrun.
    unfold modify, fetch_or, bind, gets, modify, ret in Hrun. cbn [st note_wake] in Hrun.
    exists (if (st s =? 0)%Z then WTake else Idle). split; [|done].
    change WAITING with 0 in Hrun. destruct (st s =? 0)%Z; unfold assert, goto, modify, ret, panic in Hrun.
    - by simplify_eq/=.
    - destruct ((_ || _) || _)%bool; by simplify_eq/=. }
  destruct Hs' as (p & -> & Hpe).
  apply (sig_step r s _ i p []); try done; [by rewrite app_nil_r|by subst p; case_match| | |].
  - intros j w _. apply inflight_at_wake; [done|]. cbn. by intros ->.
  - intros w. by rewrite Hp.
  - intros w [[Hc H0]|[H1 [j Hj]]] _; right; left.
    + exists i. cbn. rewrite fn_lookup_insert. subst p. by rewrite H0.
    + exists j. cbn [set_pc pcs set_st note_wake]. rewrite fn_lookup_insert_ne by (intros ->; by destruct Hj as [Hj|Hj]; rewrite Hj in Hp).
      destruct Hj as [Hj|Hj]; rewrite Hj; cbn; by rewrite H1.
Qed.

Lemma run_sig : sig_inv r s'.
Proof.
  destruct (pcs s i) as [|w|w|w|w|w|w|w| | |o|o] eqn:Hp.
  - unfold run, bind, gets in Hrun. rewrite Hp in Hrun. by injection Hrun as <-.
  - by apply (step_rlock w).
  - apply (step_holder_register w). auto.
  - apply (step_holder_register w). auto.
  - apply (step_holder_register w). auto.
  - by apply (step_rswap w).
  - apply (step_call (Some w)). right. exists w. auto.
  - apply (step_call (Some w)). right. exists w. auto.
  - by apply step_wfetch.
  - by apply step_wtake.
  - by apply (step_wrelease o).
  - apply (step_call o). by left.
Qed.
End steps.

Definition registers_only (r : nat) (a : action) : Prop :=
  match a with Register i _ => i = r | Wake _ | Run _ => True end.

Lemma call_sig r s i p s' :
  sig_inv r s -> lock_inv s' -> call i p s = Ok (tt, s') -> holds p = false ->
  (is_register p = true -> i = r) -> sig_inv r s'.
Proof.
  intros Hi Hl Hc Hh Hp. unfold call, bind, gets in Hc. case_bool_decide as Hidle; [|by injection Hc as <-].
  injection Hc as <-. eapply (sig_other r s _ i p []); try done; [by rewrite app_nil_r|by rewrite Hidle..].
Qed.

Lemma act_sig r s a : sig_inv r s -> registers_only r a ->
  exists s', act a s = Ok (tt, s') /\ sig_inv r s'.
Proof.
  intros Hi Ha. destruct (wp_ok _ _ _ (act_lock s a (sig_lock _ _ Hi))) as ([] & s1 & Hact & Hlock).
  exists s1. split; [done|]. destruct a as [i w|i|i]; cbn in Ha.
  - by apply (call_sig r s i (RLock w)).
  - by apply (call_sig r s i WFetch).
  - by eapply run_sig.
Qed.

Lemma schedule_sig r l : forall s, sig_inv r s -> Forall (registers_only r) l ->
  exists s', schedule l s = Ok (tt, s') /\ sig_inv r s'.
Proof.
  induction l as [|a l IH]; intros s Hi Hl; cbn [schedule]; [by exists s|].
  apply Forall_cons_1 in Hl as [Ha Hl]. destruct (act_sig r s a Hi Ha) as (s1 & Hact & Hi1).
  destruct (IH s1 Hi1 Hl) as (s2 & Hs2 & Hi2). exists s2. split; [|done]. unfold bind. by rewrite Hact.
Qed.

(** ** The theorems *)

(** [C35] Under every interleaving of any number of threads that register and
    wake, no assertion of the code fails, [unwrap] never finds the cell empty, and
    no two threads are ever about to touch the waker cell at once: the state word
    is a lock. *)
Theorem waker_race_free l :
  exists s, schedule l new = Ok (tt, s) /\
    forall i j, accesses (pcs s i) = true -> accesses (pcs s j) = true -> i = j.
Proof.
  destruct (wp_ok _ _ _ (schedule_lock l new lock_inv_new)) as ([] & s & Hs & Hi).
  exists s. split; [done|]. intros i j Ha%accesses_holds Hb%accesses_holds.
  destruct (decide (j = i)) as [|Hne]; [done|].
  destruct (lock_holder s i Hi Ha) as [_ Hn]. by rewrite Hn in Hb.
Qed.

(** [register] and [wake] are wait free: from any moment of any
    interleaving, a thread left alone for six steps has finished its call. *)
Theorem waker_wait_free l s i :
  schedule l new = Ok (tt, s) ->
  exists s', schedule (replicate 6 (Run i)) s = Ok (tt, s') /\ pcs s' i = Idle.
Proof.
  intros Hs. pose proof (schedule_lock l new lock_inv_new) as Hw. unfold wpe in Hw. rewrite Hs in Hw.
  destruct (run_to_idle 6 s i Hw) as (s' & ? & ? & _); [destruct (pcs s i); cbn; lia|eauto].
Qed.

(** The state a schedule leads to. *)
Definition after (l : list action) : aw := match schedule l new with Ok (_, s) => s | _ => new end.

Lemma schedule_after l : schedule l new = Ok (tt, after l).
Proof.
  unfold after. pose proof (schedule_lock l new lock_inv_new) as Hw. unfold wpe in Hw.
  by destruct (schedule l new) as [[[] s]| |].
Qed.

Definition race_schedule : list action := [Register 0 7; Run 0; Wake 1; Run 1; Run 0].

Lemma waker_wait_free_witness :
  exists s', schedule (replicate 6 (Run 0)) (after race_schedule) = Ok (tt, s') /\ pcs s' 0%nat = Idle.
Proof. apply (waker_wait_free race_schedule). apply schedule_after. Defined.

(** [C24] No wake up is lost: with one thread registering (the scheduler that is
    polled) and any number waking, once every call has returned, a [wake] that
    began after the last [register] began means that the registered waker has
    been called since then. *)
Theorem no_lost_wakeup r l s w :
  Forall (registers_only r) l -> schedule l new = Ok (tt, s) ->
  (forall i, pcs s i = Idle) -> cur s = Some w -> signalled s = true ->
  w ∈ drop (mark s) (woken s).
Proof.
  intros Hl Hs Hidle Hcur Hsig. destruct (schedule_sig r l new (sig_inv_new r) Hl) as (s' & Hs' & Hi).
  rewrite Hs in Hs'. injection Hs' as <-. destruct (sig_served _ _ Hi w Hcur) as [Hd|[[i Hfl]|[_ Hf]]].
  - done.
  - by rewrite Hidle in Hfl.
  - by rewrite Hf in Hsig.
Qed.

(** A wake that lands while the registration holds the lock. *)
Definition wake_during_register : list action := race_schedule ++ replicate 4 (Run 0).
Definition after_wake : aw := after wake_during_register.

Lemma no_lost_wakeup_witness : woken after_wake = [7%nat] /\ 7%nat ∈ drop (mark after_wake) (woken after_wake).
Proof.
  split; [vm_compute; reflexivity|]. apply (no_lost_wakeup 0 wake_during_register after_wake 7).
  - by repeat constructor.
  - apply schedule_after.
  - intros [|[|i]]; vm_compute; reflexivity.
  - vm_compute. reflexivity.
  - vm_compute. reflexivity.
Defined.
