(* ===== verification/Queue.v ===== *)
(** * The queue of woken tasks (src/tree/schedular/queue.rs)

    The intrusive queue with many producers and one consumer.  [push] and [pop]
    are sequences of steps with one access to shared memory each; a thread that
    pushes is a number, and an interleaving is a list of [action]s. *)

From stdpp Require Import functions.
From S2P Require Import Prelude.

Module Queue.

(** Nodes are addresses; the address of the node inside the queue is given. *)
Section queue.
Context (stub : Z).

(** [enum Pop]. *)
Inductive Pop := Empty | Value (x : Z) | Inconsistant.

(** The place of a pushing thread. *)
Inductive ppc :=
| PIdle
| PClear (node : Z)        (* node.next.store(null) *)
| PSwap (node : Z)         (* prev = head.swap(node) *)
| PLink (prev node : Z).   (* prev.next.store(node) *)

(** The place of the consumer in [pop], with its local variables. *)
Inductive cpc :=
| CIdle
| CFirst                   (* load next of the tail *)
| CSecond (tail : Z)       (* the stub was skipped: load next of the new tail *)
| CHead (tail : Z)         (* no next: load the head *)
| CClear (tail : Z)        (* push the stub *)
| CSwap (tail : Z)
| CLink (tail prev : Z)
| CLast (tail : Z).        (* load next again *)

(** The fields of [Queue], the [next] pointers of all nodes ([None] is null), the
    places of the threads, and what happened: the values whose push has swapped
    the head and those popped, in order, and the results of [pop]. *)
Record queue := {
  nx : Z -> option Z;
  head : Z;
  tail : Z;
  pcs : nat -> ppc;
  con : cpc;
  pushed : list Z;
  popped : list Z;
  results : list Pop;
}.

(** [Queue::new] followed by [init]. *)
Definition init : queue :=
  {| nx := fun _ => None; head := stub; tail := stub; pcs := fun _ => PIdle; con := CIdle;
     pushed := []; popped := []; results := [] |}.

(** ** Updates of the fields *)
Definition set_nx (a : Z) (o : option Z) (s : queue) : queue :=
  {| nx := <[a := o]> (nx s); head := head s; tail := tail s; pcs := pcs s; con := con s;
     pushed := pushed s; popped := popped s; results := results s |}.
Definition set_head (a : Z) (s : queue) : queue :=
  {| nx := nx s; head := a; tail := tail s; pcs := pcs s; con := con s;
     pushed := pushed s; popped := popped s; results := results s |}.
Definition set_tail (a : Z) (s : queue) : queue :=
  {| nx := nx s; head := head s; tail := a; pcs := pcs s; con := con s;
     pushed := pushed s; popped := popped s; results := results s |}.
Definition set_pc (i : nat) (p : ppc) (s : queue) : queue :=
  {| nx := nx s; head := head s; tail := tail s; pcs := <[i := p]> (pcs s); con := con s;
     pushed := pushed s; popped := popped s; results := results s |}.
Definition set_con (c : cpc) (s : queue) : queue :=
  {| nx := nx s; head := head s; tail := tail s; pcs := pcs s; con := c;
     pushed := pushed s; popped := popped s; results := results s |}.
Definition log_push (x : Z) (s : queue) : queue :=
  {| nx := nx s; head := head s; tail := tail s; pcs := pcs s; con := con s;
     pushed := pushed s ++ [x]; popped := popped s; results := results s |}.
Definition log_result (r : Pop) (s : queue) : queue :=
  {| nx := nx s; head := head s; tail := tail s; pcs := pcs s; con := con s; pushed := pushed s;
     popped := match r with Value x => popped s ++ [x] | Empty | Inconsistant => popped s end;
     results := results s ++ [r] |}.

(** ** [push]: the three steps of thread [i] *)
Definition run_push (i : nat) (s : queue) : queue :=
  match pcs s i with
  | PIdle => s
  | PClear node => set_pc i (PSwap node) (set_nx node None s)
  | PSwap node =>
      let prev := head s in
      set_pc i (PLink prev node) (log_push node (set_head node s))
  | PLink prev node => set_pc i PIdle (set_nx prev (Some node) s)
  end.

(** ** [pop] *)
Definition return_ (r : Pop) (s : queue) : queue := set_con CIdle (log_result r s).

(** [if let Some(n) = next { self.tail.set(n); return Pop::Value(tail) }]. *)
Definition value_or (t : Z) (k : queue -> queue) (s : queue) : queue :=
  match nx s t with
  | Some n => return_ (Value t) (set_tail n s)
  | None => k s
  end.

Definition run_pop (s : queue) : queue :=
  match con s with
  | CIdle => s
  | CFirst =>
      let t := tail s in
      if (t =? stub)%Z then
        match nx s t with
        | None => return_ Empty s
        | Some n => set_con (CSecond n) (set_tail n s)
        end
      else value_or t (set_con (CHead t)) s
  | CSecond t => value_or t (set_con (CHead t)) s
  | CHead t => if (head s =? t)%Z then set_con (CClear t) s else return_ Inconsistant s
  | CClear t => set_con (CSwap t) (set_nx stub None s)
  | CSwap t =>
      let prev := head s in
      set_con (CLink t prev) (set_head stub s)
  | CLink t prev => set_con (CLast t) (set_nx prev (Some stub) s)
  | CLast t => value_or t (return_ Empty) s
  end.

(** ** Schedules *)
Inductive action := Push (i : nat) (node : Z) | RunPush (i : nat) | CallPop | RunPop.

Definition act (s : queue) (a : action) : queue :=
  match a with
  | Push i node => match pcs s i with PIdle => set_pc i (PClear node) s | _ => s end
  | RunPush i => run_push i s
  | CallPop => match con s with CIdle => set_con CFirst s | _ => s end
  | RunPop => run_pop s
  end.

Definition schedule (l : list action) (s : queue) : queue := fold_left act l s.

(** The values in the queue: pushed and not yet popped. *)
Definition outstanding (s : queue) : list Z := list.drop (length (popped s)) (pushed s).

(** [push] is only called on a node that is in no queue and in no other call. *)
Definition preparing (p : ppc) (node : Z) : bool :=
  match p with
  | PClear n | PSwap n | PLink _ n => (n =? node)%Z
  | PIdle => false
  end.
Definition may_push (s : queue) (node : Z) : Prop :=
  node <> stub /\ (node ∉ outstanding s) /\ forall j, preparing (pcs s j) node = false.

Fixpoint allowed (l : list action) (s : queue) : Prop :=
  match l with
  | [] => True
  | a :: l => (match a with Push _ node => may_push s node | _ => True end) /\ allowed l (act s a)
  end.
End queue.

End Queue.
