(* ===== verification/QueueThms.v ===== *)
(** * What the queue promises

    In every interleaving the nodes from the tail to the head form a chain whose
    missing links are exactly those of the pushes in progress.  From it follow
    the order of the values, the safety of the accesses to the nodes, and what
    the results of [pop] mean. *)

From stdpp Require Import functions.
From S2P Require Import Prelude Queue.
Import Queue.

(** ** Consecutive elements of a list *)
Fixpoint next_in (c : list Z) (a b : Z) : Prop :=
  match c with
  | x :: ((y :: _) as c') => (x = a /\ y = b) \/ next_in c' a b
  | _ => False
  end.

Lemma next_in_elem c a b : next_in c a b -> a ∈ c /\ b ∈ c.
Proof.
  induction c as [|x [|y c] IH]; [done..|]. intros [[-> ->]|H].
  - split; [left|right; left].
  - destruct (IH H). split; by right.
Qed.

Lemma next_in_snoc c x a b :
  next_in (c ++ [x]) a b <-> next_in c a b \/ (last c = Some a /\ b = x).
Proof.
  induction c as [|y [|z c] IH]; [split; [done|by intros [?|[? ?]]]|..].
  - cbn. split; [intros [[-> ->]|?]; [by right|done]|intros [?|[[= ->] ->]]; [done|by left]].
  - change ((y :: z :: c) ++ [x]) with (y :: z :: (c ++ [x])).
    cbn [next_in]. change (next_in (z :: c ++ [x]) a b) with (next_in ((z :: c) ++ [x]) a b).
    rewrite IH. change (last (y :: z :: c)) with (last (z :: c)). tauto.
Qed.

Lemma next_in_unique c a b b' : NoDup c -> next_in c a b -> next_in c a b' -> b = b'.
Proof.
  induction c as [|x [|y c] IH]; [done..|]. intros [Hx Hn]%NoDup_cons.
  intros [[-> ->]|H] [[E ->]|H']; [done|..].
  - by apply next_in_elem in H' as [? _].
  - subst. by apply next_in_elem in H as [? _].
  - by apply IH.
Qed.

Lemma next_in_not_last c a b : NoDup c -> next_in c a b -> last c <> Some a.
Proof.
  induction c as [|x [|y c] IH]; [done..|]. intros [Hx Hn]%NoDup_cons H.
  change (last (x :: y :: c)) with (last (y :: c)). destruct H as [[-> ->]|H]; [|by apply IH].
  intros Hl. apply Hx. by eapply last_Some_elem_of.
Qed.

Section inv.
Context (stub : Z).

(** The node of a push in progress. *)
Definition node_of (p : ppc) : option Z :=
  match p with PIdle => None | PClear n | PSwap n | PLink _ n => Some n end.

(** The link from [a] to [b] is still to be written. *)
Definition pending (s : queue) (a b : Z) : Prop :=
  (exists i, pcs s i = PLink a b) \/ (b = stub /\ exists t, con s = CLink t a).

(** The consumer's knowledge of the chain. *)
Definition con_ok (s : queue) (c : list Z) : Prop :=
  match con s with
  | CIdle | CFirst => True
  | CSecond t | CHead t => t = tail s /\ t <> stub
  | CClear t => t = tail s /\ t <> stub /\ (stub ∉ c)
  | CSwap t => t = tail s /\ t <> stub /\ (stub ∉ c) /\ nx s stub = None
  | CLink t _ | CLast t => t = tail s /\ t <> stub /\ (stub ∈ c)
  end.

Record qinv (s : queue) (c : list Z) : Prop := {
  q_tail : exists c', c = tail s :: c';
  q_head : last c = Some (head s);
  q_nodup : NoDup c;
  q_last : nx s (head s) = None;
  q_links : forall a b, next_in c a b -> nx s a = Some b \/ (nx s a = None /\ pending s a b);
  q_pend : forall a b, pending s a b -> next_in c a b /\ nx s a = None;
  q_prep : forall i n, pcs s i = PClear n \/ pcs s i = PSwap n -> n ∉ c;
  q_stub : forall i n, node_of (pcs s i) = Some n -> n <> stub;
  q_cleared : forall i n, pcs s i = PSwap n -> nx s n = None;
  q_dist : forall i j n, node_of (pcs s i) = Some n -> node_of (pcs s j) = Some n -> i = j;
  q_con : con_ok s c;
  q_vals : pushed s = popped s ++ filter (fun x => x <> stub) c;
}.

Lemma init_qinv : qinv (init stub) [stub].
Proof.
  split; try done.
  - by exists [].
  - apply NoDup_singleton.
  - by intros a b [[? ?]|[? [? ?]]].
  - by intros i n [?|?].
  - by rewrite filter_cons_False by auto.
Qed.

(** The values outstanding are the chain without the stub. *)
Lemma outstanding_chain s c : qinv s c -> outstanding s = filter (fun x => x <> stub) c.
Proof. intros Hq. unfold outstanding. rewrite (q_vals _ _ Hq). by rewrite drop_app_length. Qed.

Lemma pending_unique s c a b b' i :
  qinv s c -> pcs s i = PLink a b -> pending s a b' -> b' = b /\ (forall j, pcs s j = PLink a b' -> j = i) /\
    ~ (exists t, con s = CLink t a).
Proof.
  intros Hq Hi Hp. assert (Hp' : pending s a b) by (left; by exists i).
  destruct (q_pend _ _ Hq _ _ Hp') as [Hn _].
  assert (Huniq : forall x, pending s a x -> x = b).
  { intros x Hx. destruct (q_pend _ _ Hq _ _ Hx) as [Hn' _]. by eapply next_in_unique; [apply Hq|..]. }
  split; [by apply Huniq|]. split.
  - intros j Hj. rewrite (Huniq b' Hp) in Hj. apply (q_dist _ _ Hq j i b); [by rewrite Hj|by rewrite Hi].
  - intros Hc. assert (stub = b) by (apply Huniq; by right).
    apply (q_stub _ _ Hq i b); [by rewrite Hi|done].
Qed.

(** ** Steps of the producers *)
Lemma q_head_elem s c : qinv s c -> head s ∈ c.
Proof. intros Hq. eapply last_Some_elem_of, Hq. Qed.

Lemma pending_set_pc s s' i p a b :
  pcs s' = <[i := p]> (pcs s) -> con s' = con s ->
  (forall x y, pcs s i <> PLink x y) -> (forall x y, p <> PLink x y) ->
  pending s' a b <-> pending s a b.
Proof.
  intros Hp Hc Ho Hn. unfold pending. rewrite Hp, Hc. split; (intros [[j Hj]|?]; [left|by right]).
  - exists j. destruct (decide (j = i)) as [->|]; [rewrite fn_lookup_insert in Hj; by destruct (Hn a b)|].
    by rewrite fn_lookup_insert_ne in Hj.
  - exists j. rewrite fn_lookup_insert_ne; [done|]. intros ->. by destruct (Ho a b).
Qed.

(** The facts about the places of the threads after thread [i] moves to [p]. *)
Section producer.
Context (s s' : queue) (i : nat) (p : ppc) (Hpcs : pcs s' = <[i := p]> (pcs s)).

Lemma pcs_cases (P : nat -> ppc -> Prop) :
  P i p -> (forall j, j <> i -> P j (pcs s j)) -> forall j, P j (pcs s' j).
Proof.
  intros Hi Hj j. rewrite Hpcs. destruct (decide (j = i)) as [->|]; [by rewrite fn_lookup_insert|].
  rewrite fn_lookup_insert_ne by done. by apply Hj.
Qed.

Lemma pcs_dist :
  (forall j k n, node_of (pcs s j) = Some n -> node_of (pcs s k) = Some n -> j = k) ->
  (forall j n, j <> i -> node_of p = Some n -> node_of (pcs s j) <> Some n) ->
  forall j k n, node_of (pcs s' j) = Some n -> node_of (pcs s' k) = Some n -> j = k.
Proof.
  intros Hd Hp j k n. rewrite Hpcs.
  destruct (decide (j = i)) as [->|Hj], (decide (k = i)) as [->|Hk];
    rewrite ?fn_lookup_insert, ?fn_lookup_insert_ne by done; intros H1 H2.
  - done.
  - by destruct (Hp k n Hk H1).
  - by destruct (Hp j n Hj H2).
  - by eapply Hd.
Qed.
End producer.

Lemma push_call_inv s c i n :
  qinv s c -> pcs s i = PIdle -> may_push stub s n -> qinv (set_pc i (PClear n) s) c.
Proof.
  intros Hq Hi (Hns & Hno & Hnp). set (s' := set_pc _ _ _). assert (Hnc : n ∉ c).
  { intros Hin. apply Hno. rewrite (outstanding_chain _ _ Hq). by apply list_elem_of_filter. }
  assert (Hpend : forall a b, pending s' a b <-> pending s a b).
  { intros a b. eapply (pending_set_pc _ _ i (PClear n)); [done..|by rewrite Hi|done]. }
  destruct Hq as [Ht Hh Hnd Hl Hlk Hpd Hpr Hs Hcl Hd Hc Hv]. split; try done.
  - intros a b Hn. rewrite Hpend. by apply Hlk.
  - intros a b. rewrite Hpend. by apply Hpd.
  - apply (pcs_cases s s' i (PClear n) eq_refl (fun _ p => forall m, p = PClear m \/ p = PSwap m -> m ∉ c)).
    + by intros m [[= <-]|?].
    + intros j _ m. apply Hpr.
  - apply (pcs_cases s s' i (PClear n) eq_refl (fun _ p => forall m, node_of p = Some m -> m <> stub)).
    + by intros m [= <-].
    + intros j _ m. apply Hs.
  - apply (pcs_cases s s' i (PClear n) eq_refl (fun _ p => forall m, p = PSwap m -> nx s m = None)).
    + done.
    + intros j _ m. apply Hcl.
  - apply (pcs_dist s s' i (PClear n) eq_refl Hd). intros j m _ [= <-] Hj.
    specialize (Hnp j). unfold preparing in Hnp. destruct (pcs s j); cbn in Hj; [done|..]; injection Hj as ->; lia.
Qed.

Lemma run_push_clear s c i n :
  qinv s c -> pcs s i = PClear n -> qinv (set_pc i (PSwap n) (set_nx n None s)) c.
Proof.
  intros Hq Hi. set (s' := set_pc _ _ _). pose proof (q_head_elem _ _ Hq) as Hhc.
  assert (Hpend : forall a b, pending s' a b <-> pending s a b).
  { intros a b. eapply (pending_set_pc _ _ i (PSwap n)); [done..|by rewrite Hi|done]. }
  destruct Hq as [Ht Hh Hnd Hl Hlk Hpd Hpr Hs Hcl Hd Hc Hv].
  assert (Hnc : n ∉ c) by (eapply Hpr; by left).
  assert (Hns : n <> stub) by (eapply Hs; by rewrite Hi).
  assert (Hnx : forall a, a <> n -> nx s' a = nx s a) by (intros a Ha; by apply fn_lookup_insert_ne).
  assert (Hnx' : forall a, a ∈ c -> nx s' a = nx s a) by (intros a Ha; apply Hnx; by intros ->).
  split; try done.
  - change (head s') with (head s). by rewrite Hnx'.
  - intros a b Hn. rewrite Hpend, Hnx' by (by apply next_in_elem in Hn as [? _]). by apply Hlk.
  - intros a b. rewrite Hpend. intros [Hn ?]%Hpd. split; [done|]. rewrite Hnx'; [done|].
    by apply next_in_elem in Hn as [? _].
  - apply (pcs_cases s s' i (PSwap n) eq_refl (fun _ p => forall m, p = PClear m \/ p = PSwap m -> m ∉ c)).
    + by intros m [?|[= <-]].
    + intros j _ m. apply Hpr.
  - apply (pcs_cases s s' i (PSwap n) eq_refl (fun _ p => forall m, node_of p = Some m -> m <> stub)).
    + by intros m [= <-].
    + intros j _ m. apply Hs.
  - apply (pcs_cases s s' i (PSwap n) eq_refl (fun _ p => forall m, p = PSwap m -> nx s' m = None)).
    + intros m [= <-]. apply fn_lookup_insert.
    + intros j _ m Hj. destruct (decide (m = n)) as [->|]; [apply fn_lookup_insert|].
      rewrite Hnx by done. by eapply Hcl.
  - apply (pcs_dist s s' i (PSwap n) eq_refl Hd). intros j m Hne [= <-] Hj. apply Hne.
    apply (Hd j i n); [done|by rewrite Hi].
  - unfold con_ok in *. change (con s') with (con s). change (tail s') with (tail s).
    destruct (con s); try done. by rewrite Hnx.
Qed.

Lemma filter_stub_snoc c n : n <> stub ->
  filter (fun x => x <> stub) (c ++ [n]) = filter (fun x => x <> stub) c ++ [n].
Proof. intros Hn. by rewrite filter_app, filter_cons_True, filter_nil. Qed.

Lemma run_push_swap s c i n :
  qinv s c -> pcs s i = PSwap n ->
  qinv (set_pc i (PLink (head s) n) (log_push n (set_head n s))) (c ++ [n]).
Proof.
  intros Hq Hi. set (s' := set_pc _ _ _). pose proof (q_head_elem _ _ Hq) as Hhc.
  destruct Hq as [[c' Ht] Hh Hnd Hl Hlk Hpd Hpr Hs Hcl Hd Hc Hv].
  assert (Hnc : n ∉ c) by (eapply Hpr; by right).
  assert (Hns : n <> stub) by (eapply Hs; by rewrite Hi).
  assert (Hpend : forall a b, pending s' a b <-> pending s a b \/ (a = head s /\ b = n)).
  { intros a b. unfold pending. cbn [pcs con s' set_pc log_push set_head]. split.
    - intros [[j Hj]|?]; [|by left; right]. destruct (decide (j = i)) as [->|].
      + rewrite fn_lookup_insert in Hj. injection Hj as <- <-. by right.
      + rewrite fn_lookup_insert_ne in Hj by done. left; left. by exists j.
    - intros [[[j Hj]|?]|[-> ->]]; [|by right|].
      + left. exists j. rewrite fn_lookup_insert_ne; [done|]. intros ->. congruence.
      + left. exists i. apply fn_lookup_insert. }
  split; cbn [tail head nx s' set_pc log_push set_head pushed popped].
  - exists (c' ++ [n]). by rewrite Ht.
  - apply last_snoc.
  - apply NoDup_app. split; [done|]. split; [|apply NoDup_singleton].
    by intros x Hx ->%list_elem_of_singleton.
  - by apply Hcl with i.
  - intros a b [Hn|[Hla ->]]%next_in_snoc; rewrite Hpend.
    + destruct (Hlk a b Hn) as [?|[? ?]]; [by left|right; split; [done|by left]].
    + rewrite Hla in Hh. injection Hh as ->. right. split; [done|by right].
  - intros a b. rewrite Hpend, next_in_snoc. intros [[Hn ?]%Hpd|[-> ->]]; [split; [by left|done]|].
    split; [by right|done].
  - apply (pcs_cases s s' i (PLink (head s) n) eq_refl (fun _ p => forall m, p = PClear m \/ p = PSwap m -> m ∉ c ++ [n])).
    + by intros m [?|?].
    + intros j Hj m Hm. rewrite elem_of_app, list_elem_of_singleton. intros [Hmc| ->]; [by eapply Hpr|].
      apply Hj. apply (Hd j i n); [by destruct Hm as [Hm|Hm]; rewrite Hm|by rewrite Hi].
  - apply (pcs_cases s s' i (PLink (head s) n) eq_refl (fun _ p => forall m, node_of p = Some m -> m <> stub)).
    + by intros m [= <-].
    + intros j _ m. apply Hs.
  - apply (pcs_cases s s' i (PLink (head s) n) eq_refl (fun _ p => forall m, p = PSwap m -> nx s m = None)).
    + done.
    + intros j _ m. apply Hcl.
  - apply (pcs_dist s s' i (PLink (head s) n) eq_refl Hd). intros j m Hne [= <-] Hj. apply Hne.
    apply (Hd j i n); [done|by rewrite Hi].
  - unfold con_ok in *. cbn [con tail nx s' set_pc log_push set_head].
    destruct (con s); try done; rewrite elem_of_app, list_elem_of_singleton; intuition.
  - by rewrite filter_stub_snoc, Hv, app_assoc.
Qed.

(** Writing the link of a push in progress. *)
Section link.
Context (s s' : queue) (c : list Z) (a b : Z) (Hq : qinv s c) (Hp : pending s a b).
Context (Hnx : nx s' = <[a := Some b]> (nx s)).
Context (Hpend : forall x y, pending s' x y <-> pending s x y /\ x <> a).

Lemma link_nx x : x <> a -> nx s' x = nx s x.
Proof. intros Hx. rewrite Hnx. by apply fn_lookup_insert_ne. Qed.

Lemma link_head : nx s' (head s) = nx s (head s).
Proof.
  apply link_nx. destruct (q_pend _ _ Hq _ _ Hp) as [Hn _].
  pose proof (next_in_not_last _ _ _ (q_nodup _ _ Hq) Hn) as Hl. rewrite (q_head _ _ Hq) in Hl. congruence.
Qed.

Lemma link_links x y : next_in c x y -> nx s' x = Some y \/ (nx s' x = None /\ pending s' x y).
Proof.
  intros Hn. destruct (decide (x = a)) as [->|Hx].
  - left. rewrite Hnx, fn_lookup_insert. f_equal. destruct (q_pend _ _ Hq _ _ Hp) as [Hn' _].
    by eapply next_in_unique; [apply Hq|..].
  - rewrite link_nx, Hpend by done. destruct (q_links _ _ Hq x y Hn) as [?|[? ?]]; [by left|by right].
Qed.

Lemma link_pend x y : pending s' x y -> next_in c x y /\ nx s' x = None.
Proof. rewrite Hpend. intros [[? ?]%(q_pend _ _ Hq) Hx]. by rewrite link_nx. Qed.

Lemma link_outside x : x ∉ c -> nx s' x = nx s x.
Proof.
  intros Hx. apply link_nx. intros ->. apply Hx.
  destruct (q_pend _ _ Hq _ _ Hp) as [[? _]%next_in_elem _]. done.
Qed.
End link.

Lemma run_push_link s c i a b :
  qinv s c -> pcs s i = PLink a b -> qinv (set_pc i PIdle (set_nx a (Some b) s)) c.
Proof.
  intros Hq Hi. set (s' := set_pc _ _ _).
  assert (Hp : pending s a b) by (left; by exists i).
  assert (Hpend : forall x y, pending s' x y <-> pending s x y /\ x <> a).
  { intros x y. split.
    - intros Hxy. assert (Hold : pending s x y).
      { destruct Hxy as [[j Hj]|?]; [left; exists j|by right]. cbn in Hj.
        destruct (decide (j = i)) as [->|]; [by rewrite fn_lookup_insert in Hj|by rewrite fn_lookup_insert_ne in Hj]. }
      split; [done|]. intros ->. destruct (pending_unique s c a b y i Hq Hi Hold) as (-> & Hj & Hc).
      destruct Hxy as [[j Hxy]|[_ Hcon]]; [|by apply Hc]. cbn in Hxy.
      destruct (decide (j = i)) as [->|Hne]; [by rewrite fn_lookup_insert in Hxy|].
      rewrite fn_lookup_insert_ne in Hxy by done. by apply Hne, Hj.
    - intros [[[j Hj]|?] Hx]; [left; exists j|by right]. cbn. rewrite fn_lookup_insert_ne; [done|].
      intros ->. congruence. }
  assert (Hnx : nx s' = <[a := Some b]> (nx s)) by done.
  pose proof (link_outside s s' c a b Hq Hp Hnx) as Hout.
  pose proof Hq as [Ht Hh Hnd Hl _ _ Hpr Hs Hcl Hd Hc Hv]. split; try done.
  - change (head s') with (head s). by rewrite (link_head s s' c a b).
  - by apply (link_links s s' c a b).
  - by apply (link_pend s s' c a b).
  - apply (pcs_cases s s' i PIdle eq_refl (fun _ p => forall m, p = PClear m \/ p = PSwap m -> m ∉ c)).
    + by intros m [?|?].
    + intros j _ m. apply Hpr.
  - apply (pcs_cases s s' i PIdle eq_refl (fun _ p => forall m, node_of p = Some m -> m <> stub)); [done|].
    intros j _ m. apply Hs.
  - apply (pcs_cases s s' i PIdle eq_refl (fun _ p => forall m, p = PSwap m -> nx s' m = None)); [done|].
    intros j _ m Hj. rewrite Hout; [by eapply Hcl|]. apply (Hpr j). by right.
  - by apply (pcs_dist s s' i PIdle eq_refl Hd).
  - unfold con_ok in *. change (con s') with (con s). change (tail s') with (tail s).
    destruct (con s); try done. destruct Hc as (? & ? & Hst & ?). by rewrite Hout.
Qed.

Lemma run_push_inv s c i : qinv s c -> exists c', qinv (run_push i s) c'.
Proof.
  intros Hq. unfold run_push. destruct (pcs s i) as [|n|n|a b] eqn:Hi.
  - by exists c.
  - exists c. by apply run_push_clear.
  - exists (c ++ [n]). by apply run_push_swap.
  - exists c. by apply run_push_link.
Qed.

(** ** Steps of the consumer *)
Definition linking (p : cpc) : bool := match p with CLink _ _ => true | _ => false end.

Lemma pending_con s s' a b :
  pcs s' = pcs s -> linking (con s) = false -> linking (con s') = false ->
  pending s' a b <-> pending s a b.
Proof.
  intros Hp H1 H2. unfold pending. rewrite Hp.
  split; (intros [?|[_ [t Ht]]]; [by left|]); [by rewrite Ht in H2|by rewrite Ht in H1].
Qed.

(** A step that leaves the chain alone. *)
Lemma con_stay s s' c :
  qinv s c -> nx s' = nx s -> head s' = head s -> tail s' = tail s -> pcs s' = pcs s ->
  pushed s' = pushed s -> popped s' = popped s ->
  linking (con s) = false -> linking (con s') = false -> con_ok s' c -> qinv s' c.
Proof.
  intros [Ht Hh Hnd Hl Hlk Hpd Hpr Hs Hcl Hd Hc Hv] Hnx Hhd Htl Hpcs Hpush Hpop H1 H2 Hok.
  assert (Hpend := fun a b => pending_con s s' a b Hpcs H1 H2).
  split; rewrite ?Hnx, ?Hhd, ?Htl, ?Hpcs, ?Hpush, ?Hpop; try done.
  - intros a b Hn. rewrite Hpend. by apply Hlk.
  - intros a b. rewrite Hpend. by apply Hpd.
Qed.

(** The first node leaves the chain. *)
Lemma con_advance s s' t n c :
  qinv s (t :: c) -> nx s t = Some n ->
  nx s' = nx s -> head s' = head s -> tail s' = n -> pcs s' = pcs s -> pushed s' = pushed s ->
  popped s' = (if decide (t = stub) then popped s else popped s ++ [t]) ->
  linking (con s) = false -> linking (con s') = false -> con_ok s' c -> qinv s' c.
Proof.
  intros [Ht Hh Hnd Hl Hlk Hpd Hpr Hs Hcl Hd Hc Hv] Hn Hnx Hhd Htl Hpcs Hpush Hpop H1 H2 Hok.
  assert (Hpend := fun a b => pending_con s s' a b Hpcs H1 H2).
  apply NoDup_cons in Hnd as [Htc Hnd].
  assert (Hc' : exists c2, c = n :: c2).
  { destruct c as [|x c]; [cbn in Hh; congruence|]. exists c. f_equal.
    destruct (Hlk t x) as [?|[? _]]; [by left|congruence..]. }
  destruct Hc' as [c2 ->].
  split; rewrite ?Hnx, ?Hhd, ?Htl, ?Hpcs; try done.
  - by exists c2.
  - intros a b Hab. rewrite Hpend. apply Hlk. by right.
  - intros a b Hab%Hpend. destruct (Hpd a b Hab) as [[[-> ->]|?] ?]; [congruence|done].
  - intros i m Hm Hin. apply (Hpr i m Hm). by right.
  - rewrite Hpush, Hpop, Hv. case_decide as Hts.
    + by rewrite filter_cons_False by auto.
    + rewrite filter_cons_True by done. by rewrite <- app_assoc.
Qed.

(** Some producer has swapped the head and not linked its node yet. *)
Definition busy (s : queue) : Prop := exists i a b, pcs s i = PLink a b.

(** What a result of [pop] says of the queue when it is returned. *)
Definition result_ok (s s' : queue) (r : Pop) : Prop :=
  match r with
  | Value x => outstanding s = x :: outstanding s'
  | Empty => outstanding s = [] \/ busy s
  | Inconsistant => outstanding s <> []
  end.

Definition pop_post (s s' : queue) : Prop :=
  results s' = results s \/ exists r, results s' = results s ++ [r] /\ result_ok s s' r.

Lemma pending_busy s a b : pending s a b -> linking (con s) = false -> busy s.
Proof. intros [[i Hi]|[_ [t Ht]]] H; [by exists i, a, b|by rewrite Ht in H]. Qed.

(** A null [next] before the head is a push in progress. *)
Lemma null_next s t y c : qinv s (t :: y :: c) -> nx s t = None -> linking (con s) = false -> busy s.
Proof.
  intros Hq Hn H. destruct (q_links _ _ Hq t y) as [?|[_ ?]]; [by left|congruence|].
  by eapply pending_busy.
Qed.

Lemma value_post s c t n :
  qinv s (t :: c) -> t <> stub -> nx s t = Some n -> linking (con s) = false ->
  qinv (return_ (Value t) (set_tail n s)) c /\ pop_post s (return_ (Value t) (set_tail n s)).
Proof.
  intros Hq Ht Hn Hl.
  assert (Hq' : qinv (return_ (Value t) (set_tail n s)) c).
  { eapply (con_advance s _ t n c Hq Hn); try done. by rewrite decide_False. }
  split; [done|]. right. exists (Value t). split; [done|]. unfold result_ok.
  by rewrite (outstanding_chain _ _ Hq), (outstanding_chain _ _ Hq'), filter_cons_True.
Qed.

(** Moving on without a result. *)
Lemma move_post s c p :
  qinv s c -> linking (con s) = false -> linking p = false -> con_ok (set_con p s) c ->
  exists c', qinv (set_con p s) c' /\ pop_post s (set_con p s).
Proof. intros Hq H1 H2 Hok. exists c. split; [by apply (con_stay s)|by left]. Qed.

Lemma value_or_post s c t k :
  qinv s c -> t = tail s -> t <> stub -> linking (con s) = false ->
  (nx s t = None -> exists c', qinv (k s) c' /\ pop_post s (k s)) ->
  exists c', qinv (value_or t k s) c' /\ pop_post s (value_or t k s).
Proof.
  intros Hq Htl Ht Hl Hk. unfold value_or. destruct (nx s t) as [n|] eqn:Hn; [|by apply Hk].
  destruct (q_tail _ _ Hq) as [c' ->]. subst t. exists c'. by apply value_post.
Qed.

Lemma run_pop_first s c :
  qinv s c -> con s = CFirst -> exists c', qinv (run_pop stub s) c' /\ pop_post s (run_pop stub s).
Proof.
  intros Hq Hcon. unfold run_pop. rewrite Hcon.
  assert (Hl : linking (con s) = false) by by rewrite Hcon.
  destruct (Z.eqb_spec (tail s) stub) as [Ht|Ht].
  - destruct (q_tail _ _ Hq) as [c' Hc]. rewrite Ht in Hc. subst c. destruct (nx s (tail s)) as [n|] eqn:Hn.
    + rewrite Ht in Hn. exists c'. split; [|by left].
      pose proof (q_nodup _ _ Hq) as [Hsc _]%NoDup_cons.
      eapply (con_advance s _ stub n c' Hq Hn); try done; [by rewrite decide_True|].
      cbn. split; [done|]. intros ->. destruct c' as [|y c'].
      * pose proof (q_head _ _ Hq) as Hh. pose proof (q_last _ _ Hq) as Hla. cbn in Hh. congruence.
      * destruct (q_links _ _ Hq stub y) as [E|[E _]]; [by left|rewrite Hn in E; injection E as <-|congruence].
        apply Hsc. left.
    + exists (stub :: c'). split; [by apply (con_stay s)|]. right. exists Empty. split; [done|].
      unfold result_ok. destruct c' as [|y c'].
      * left. rewrite (outstanding_chain _ _ Hq). by rewrite filter_cons_False by auto.
      * right. rewrite Ht in Hn. by eapply null_next.
  - eapply value_or_post; [done..|]. intros _. apply (move_post s c); [done..|]. by cbn.
Qed.

Lemma run_pop_last s c t :
  qinv s c -> con s = CLast t -> exists c', qinv (run_pop stub s) c' /\ pop_post s (run_pop stub s).
Proof.
  intros Hq Hcon. unfold run_pop. rewrite Hcon.
  assert (Hl : linking (con s) = false) by by rewrite Hcon.
  pose proof (q_con _ _ Hq) as Hok. unfold con_ok in Hok. rewrite Hcon in Hok. destruct Hok as (Htl & Ht & Hin).
  eapply value_or_post; [done..|]. intros Hn. exists c. split; [by apply (con_stay s)|].
  right. exists Empty. split; [done|]. right. destruct (q_tail _ _ Hq) as [c' ->]. rewrite <- Htl in *.
  destruct c' as [|y c']; [by apply list_elem_of_singleton in Hin|]. by eapply null_next.
Qed.

Lemma run_pop_head s c t :
  qinv s c -> con s = CHead t -> exists c', qinv (run_pop stub s) c' /\ pop_post s (run_pop stub s).
Proof.
  intros Hq Hcon. unfold run_pop. rewrite Hcon.
  assert (Hl : linking (con s) = false) by by rewrite Hcon.
  pose proof (q_con _ _ Hq) as Hok. unfold con_ok in Hok. rewrite Hcon in Hok. destruct Hok as (Htl & Ht).
  destruct (Z.eqb_spec (head s) t) as [Hh|Hh].
  - apply (move_post s c); [done..|]. cbn. split; [done|]. split; [done|].
    destruct (q_tail _ _ Hq) as [c' Hc]. rewrite <- Htl in Hc. subst c.
    destruct c' as [|y c']; [by rewrite list_elem_of_singleton; congruence|]. exfalso.
    pose proof (q_head _ _ Hq) as Hla. pose proof (q_nodup _ _ Hq) as [Hn _]%NoDup_cons.
    apply Hn. rewrite Hh in Hla. change (last (t :: y :: c')) with (last (y :: c')) in Hla.
    by eapply last_Some_elem_of.
  - exists c. split; [by apply (con_stay s)|]. right. exists Inconsistant. split; [done|].
    unfold result_ok. rewrite (outstanding_chain _ _ Hq). destruct (q_tail _ _ Hq) as [c' ->].
    rewrite filter_cons_True by (by rewrite <- Htl). done.
Qed.

(** The consumer pushes the stub. *)
Lemma run_pop_clear s c t : qinv s c -> con s = CClear t -> qinv (run_pop stub s) c.
Proof.
  intros Hq Hcon. unfold run_pop. rewrite Hcon. set (s' := set_con _ _).
  assert (Hpend : forall a b, pending s' a b <-> pending s a b)
    by (intros a b; apply pending_con; [done|by rewrite Hcon|done]).
  pose proof (q_head_elem _ _ Hq) as Hhc. destruct Hq as [Ht Hh Hnd Hl Hlk Hpd Hpr Hs Hcl Hd Hc Hv].
  unfold con_ok in Hc. rewrite Hcon in Hc. destruct Hc as (Htl & Hts & Hsc).
  assert (Hnx : forall a, a <> stub -> nx s' a = nx s a) by (intros a Ha; by apply fn_lookup_insert_ne).
  assert (Hnx' : forall a, a ∈ c -> nx s' a = nx s a) by (intros a Ha; apply Hnx; by intros ->).
  split; try done.
  - change (head s') with (head s). by rewrite Hnx'.
  - intros a b Hn. rewrite Hpend, Hnx' by (by apply next_in_elem in Hn as [? _]). by apply Hlk.
  - intros a b. rewrite Hpend. intros [Hn ?]%Hpd. split; [done|]. rewrite Hnx'; [done|].
    by apply next_in_elem in Hn as [? _].
  - intros i n Hi. change (pcs s' i) with (pcs s i) in Hi. rewrite Hnx; [by eapply Hcl|].
    apply (Hs i). by rewrite Hi.
  - unfold con_ok. cbn. split_and!; [done..|]. apply fn_lookup_insert.
Qed.

Lemma run_pop_swap s c t : qinv s c -> con s = CSwap t -> qinv (run_pop stub s) (c ++ [stub]).
Proof.
  intros Hq Hcon. unfold run_pop. rewrite Hcon. set (s' := set_con _ _).
  destruct Hq as [[c' Ht] Hh Hnd Hl Hlk Hpd Hpr Hs Hcl Hd Hc Hv].
  unfold con_ok in Hc. rewrite Hcon in Hc. destruct Hc as (Htl & Hts & Hsc & Hns).
  assert (Hpend : forall a b, pending s' a b <-> pending s a b \/ (a = head s /\ b = stub)).
  { intros a b. unfold pending. change (pcs s') with (pcs s). change (con s') with (CLink t (head s)). split.
    - intros [?|[-> [t' [= _ <-]]]]; [by left; left|by right].
    - intros [[?|[_ [t' Ht']]]|[-> ->]]; [by left|congruence|right]. split; [done|by exists t]. }
  split; cbn [tail head nx s' set_con set_head pushed popped pcs]; try done.
  - exists (c' ++ [stub]). by rewrite Ht.
  - apply last_snoc.
  - apply NoDup_app. split; [done|]. split; [|apply NoDup_singleton].
    by intros x Hx ->%list_elem_of_singleton.
  - intros a b [Hn|[Hla ->]]%next_in_snoc; rewrite Hpend.
    + destruct (Hlk a b Hn) as [?|[? ?]]; [by left|right; split; [done|by left]].
    + rewrite Hla in Hh. injection Hh as ->. right. split; [done|by right].
  - intros a b. rewrite Hpend, next_in_snoc. intros [[Hn ?]%Hpd|[-> ->]]; [split; [by left|done]|].
    split; [by right|done].
  - intros i n Hi. rewrite elem_of_app, list_elem_of_singleton. intros [Hin| ->]; [by eapply Hpr|].
    apply (Hs i stub); [by destruct Hi as [Hi|Hi]; rewrite Hi|done].
  - unfold con_ok. cbn. split; [done|]. split; [done|]. rewrite elem_of_app, list_elem_of_singleton. by right.
  - rewrite filter_app, filter_cons_False by auto. by rewrite filter_nil, app_nil_r.
Qed.

Lemma run_pop_link s c t a : qinv s c -> con s = CLink t a -> qinv (run_pop stub s) c.
Proof.
  intros Hq Hcon. unfold run_pop. rewrite Hcon. set (s' := set_con _ _).
  assert (Hp : pending s a stub) by (right; split; [done|by exists t]).
  assert (Hnone : forall i y, pcs s i <> PLink a y).
  { intros i y Hi. destruct (pending_unique s c a y stub i Hq Hi Hp) as (_ & _ & Hn).
    apply Hn. by exists t. }
  assert (Hpend : forall x y, pending s' x y <-> pending s x y /\ x <> a).
  { intros x y. unfold pending. change (pcs s') with (pcs s). change (con s') with (CLast t). split.
    - intros [[i Hi]|[_ [t' Ht']]]; [|done]. split; [left; by exists i|]. intros ->. by apply (Hnone i y).
    - intros [[?|[_ [t' Ht']]] Hx]; [by left|congruence]. }
  assert (Hnx : nx s' = <[a := Some stub]> (nx s)) by done.
  pose proof (link_outside s s' c a stub Hq Hp Hnx) as Hout.
  pose proof Hq as [Ht Hh Hnd Hl _ _ Hpr Hs Hcl Hd Hc Hv]. split; try done.
  - change (head s') with (head s). by rewrite (link_head s s' c a stub).
  - by apply (link_links s s' c a stub).
  - by apply (link_pend s s' c a stub).
  - intros i n Hi. rewrite Hout; [by eapply Hcl|]. apply (Hpr i). by right.
  - unfold con_ok in *. by rewrite Hcon in Hc.
Qed.

Lemma run_pop_inv s c :
  qinv s c -> exists c', qinv (run_pop stub s) c' /\ pop_post s (run_pop stub s).
Proof.
  intros Hq. destruct (con s) as [| |t|t|t|t|t a|t] eqn:Hcon.
  - exists c. unfold run_pop. rewrite Hcon. split; [done|by left].
  - by eapply run_pop_first.
  - unfold run_pop. rewrite Hcon. pose proof (q_con _ _ Hq) as Hok. unfold con_ok in Hok.
    rewrite Hcon in Hok. destruct Hok as (Htl & Ht).
    assert (Hl : linking (con s) = false) by by rewrite Hcon.
    eapply value_or_post; [done..|]. intros _. by apply (move_post s c).
  - by eapply run_pop_head.
  - exists c. split; [by eapply run_pop_clear|]. left. unfold run_pop. by rewrite Hcon.
  - exists (c ++ [stub]). split; [by eapply run_pop_swap|]. left. unfold run_pop. by rewrite Hcon.
  - exists c. split; [by eapply run_pop_link|]. left. unfold run_pop. by rewrite Hcon.
  - by eapply run_pop_last.
Qed.

(** ** Runs *)
Lemma act_inv s c a :
  qinv s c -> match a with Push _ n => may_push stub s n | _ => True end ->
  exists c', qinv (act stub s a) c'.
Proof.
  intros Hq Ha. destruct a as [i n|i| |]; cbn [act].
  - destruct (pcs s i) eqn:Hi; [exists c; by apply push_call_inv|by exists c..].
  - by eapply run_push_inv.
  - destruct (con s) eqn:Hcon; [exists c|by exists c..]. apply (con_stay s); try done. by rewrite Hcon.
  - destruct (run_pop_inv s c Hq) as (c' & ? & _). by exists c'.
Qed.

Lemma schedule_inv l : forall s c, qinv s c -> allowed stub l s -> exists c', qinv (schedule stub l s) c'.
Proof.
  induction l as [|a l IH]; intros s c Hq Hal; [by exists c|]. destruct Hal as [Ha Hal].
  destruct (act_inv s c a Hq Ha) as [c' Hq']. by apply (IH _ c').
Qed.

(** ** [pop] with nobody pushing *)
Lemma pcs_idle_links s c a b :
  qinv s c -> (forall i, pcs s i = PIdle) -> linking (con s) = false -> next_in c a b -> nx s a = Some b.
Proof.
  intros Hq Hidle Hl Hn. destruct (q_links _ _ Hq a b Hn) as [?|[_ Hp]]; [done|].
  destruct (pending_busy _ _ _ Hp Hl) as (i & x & y & Hi). by rewrite Hidle in Hi.
Qed.

Lemma pops_idle n s : con s = CIdle -> schedule stub (replicate n RunPop) s = s.
Proof. intros H. induction n as [|n IH]; [done|]. cbn. unfold run_pop at 1. rewrite H. exact IH. Qed.

Lemma schedule_cons a l s : schedule stub (a :: l) s = schedule stub l (act stub s a).
Proof. done. Qed.

Lemma pops_step n s : schedule stub (replicate (S n) RunPop) s = schedule stub (replicate n RunPop) (run_pop stub s).
Proof. done. Qed.

(** The last value of the queue takes the long way, round the stub. *)
Lemma pops_last s t :
  con s = CHead t -> head s = t -> t <> stub ->
  exists s', schedule stub (replicate 5 RunPop) s = s' /\ con s' = CIdle /\ results s' = results s ++ [Value t].
Proof.
  intros Hc Hh Ht. eexists. split; [done|].
  assert (H1 : run_pop stub s = set_con (CClear t) s)
    by (unfold run_pop; by rewrite Hc, Hh, Z.eqb_refl).
  set (s1 := set_con (CClear t) s) in H1. set (s2 := set_con (CSwap t) (set_nx stub None s1)).
  assert (H3 : run_pop stub s2 = set_con (CLink t t) (set_head stub s2)).
  { unfold run_pop. cbn [con s2 set_con]. change (head s2) with (head s). by rewrite Hh. }
  set (s3 := set_con (CLink t t) (set_head stub s2)) in H3.
  set (s4 := set_con (CLast t) (set_nx t (Some stub) s3)).
  assert (H5 : run_pop stub s4 = return_ (Value t) (set_tail stub s4)).
  { unfold run_pop. cbn [con s4 set_con]. unfold value_or.
    change (nx s4 t) with ((<[t := Some stub]> (nx s3)) t). by rewrite fn_lookup_insert. }
  rewrite pops_step, H1, pops_step. change (run_pop stub s1) with s2. rewrite pops_step, H3, pops_step.
  change (run_pop stub s3) with s4. by rewrite pops_step, H5.
Qed.

Lemma pops_value s t n k :
  con s = CFirst \/ con s = CSecond t -> t = tail s -> t <> stub -> nx s t = Some n ->
  let s' := schedule stub (replicate (S k) RunPop) s in
  con s' = CIdle /\ results s' = results s ++ [Value t].
Proof.
  intros Hc Htl Ht Hn. cbn zeta. rewrite pops_step.
  assert (run_pop stub s = return_ (Value t) (set_tail n s)) as ->.
  { unfold run_pop. destruct Hc as [Hc|Hc]; rewrite Hc; unfold value_or; [|by rewrite Hn].
    rewrite <- Htl, (proj2 (Z.eqb_neq _ _) Ht). by rewrite Hn. }
  by rewrite pops_idle.
Qed.

Lemma pops_from s c k :
  qinv s c -> (forall i, pcs s i = PIdle) -> con s = CFirst \/ con s = CSecond (tail s) -> tail s <> stub ->
  let s' := schedule stub (replicate (6 + k) RunPop) s in
  con s' = CIdle /\ results s' = results s ++ [Value (tail s)].
Proof.
  intros Hq Hidle Hc Ht. assert (Hl : linking (con s) = false) by (by destruct Hc as [Hc|Hc]; rewrite Hc).
  destruct (q_tail _ _ Hq) as [[|y c'] ->].
  - pose proof (q_head _ _ Hq) as Hh. cbn in Hh. injection Hh as Hh. pose proof (q_last _ _ Hq) as Hn.
    rewrite <- Hh in Hn. cbn zeta. change (6 + k)%nat with (S (5 + k)). rewrite pops_step.
    assert (run_pop stub s = set_con (CHead (tail s)) s) as ->.
    { unfold run_pop. destruct Hc as [Hc|Hc]; rewrite Hc; unfold value_or; [|by rewrite Hn].
      rewrite (proj2 (Z.eqb_neq _ _) Ht). by rewrite Hn. }
    destruct (pops_last (set_con (CHead (tail s)) s) (tail s)) as (s' & Hs' & Hc' & Hr'); [done|done|done|].
    rewrite replicate_add. unfold schedule in *. rewrite fold_left_app, Hs'.
    fold (schedule stub (replicate k RunPop) s'). by rewrite pops_idle.
  - apply (pops_value s (tail s) y (5 + k)); [done..|].
    apply (pcs_idle_links s (tail s :: y :: c')); [done..|by left].
Qed.

Lemma pops_alone s c :
  qinv s c -> (forall i, pcs s i = PIdle) -> con s = CFirst ->
  let s' := schedule stub (replicate 7 RunPop) s in
  con s' = CIdle /\
  results s' = results s ++ [match outstanding s with [] => Empty | x :: _ => Value x end].
Proof.
  intros Hq Hidle Hc. rewrite (outstanding_chain _ _ Hq).
  destruct (decide (tail s = stub)) as [Ht|Ht].
  - destruct (q_tail _ _ Hq) as [c' E]. rewrite Ht in E. subst c. rewrite filter_cons_False by auto.
    destruct c' as [|n c'].
    + pose proof (q_head _ _ Hq) as Hh. cbn in Hh. injection Hh as Hh. pose proof (q_last _ _ Hq) as Hn.
      rewrite <- Hh in Hn. cbn zeta. rewrite pops_step. unfold run_pop. rewrite Hc, Ht, Z.eqb_refl, Hn. by rewrite pops_idle.
    + assert (Hn : nx s stub = Some n).
      { apply (pcs_idle_links s (stub :: n :: c')); [done|done|by rewrite Hc|by left]. }
      cbn zeta. rewrite pops_step.
      pose proof (run_pop_first s _ Hq Hc) as (c2 & Hq2 & _). revert Hq2. unfold run_pop.
      rewrite Hc, Ht, Z.eqb_refl, Hn. intros Hq2. set (s1 := set_con (CSecond n) (set_tail n s)).
      pose proof (q_con _ _ Hq2) as [_ Hns].
      rewrite filter_cons_True by done. by apply (pops_from s1 c2 0); [| |right|].
  - destruct (pops_from s c 1 Hq Hidle (or_introl Hc) Ht) as [H1 H2]. split; [done|]. etrans; [exact H2|].
    destruct (q_tail _ _ Hq) as [c' ->]. by rewrite filter_cons_True.
Qed.
End inv.

(** ** The theorems *)

(** [C22] The queue is first in first out and loses nothing: in every interleaving
    of any number of pushing threads with the consumer, the values popped, in the
    order they were popped, followed by the values still in the queue, are the
    values pushed in the order in which their pushes swapped the head; and no
    value is in the queue twice. *)
Theorem queue_fifo stub l :
  allowed stub l (init stub) ->
  let s := schedule stub l (init stub) in pushed s = popped s ++ outstanding s /\ NoDup (outstanding s).
Proof.
  intros Hl s. destruct (schedule_inv stub l _ _ (init_qinv stub) Hl) as [c Hq]. fold s in Hq.
  rewrite (outstanding_chain _ _ _ Hq). split; [apply (q_vals _ _ _ Hq)|].
  apply NoDup_filter, (q_nodup _ _ _ Hq).
Qed.

(** Two pushes that overlap, the second one linked first. *)
Definition overlapping : list action :=
  [Push 0 1; Push 1 2; RunPush 0; RunPush 1; RunPush 0; RunPush 1; RunPush 1; CallPop; RunPop; RunPush 0;
   CallPop; RunPop; RunPop].

Ltac solve_may_push :=
  refine (conj _ (conj _ _));
    [discriminate
    |apply (bool_decide_unpack _); vm_compute; exact I
    |intros [|[|j]]; vm_compute; reflexivity].
Ltac solve_allowed := repeat (refine (conj _ _); [first [exact I|solve_may_push]|]); exact I.

Lemma overlapping_allowed : allowed 0 overlapping (init 0).
Proof. solve_allowed. Defined.

Lemma queue_fifo_witness :
  allowed 0 overlapping (init 0) /\ results (schedule 0 overlapping (init 0)) = [Empty; Value 1] /\
  let s := schedule 0 overlapping (init 0) in pushed s = popped s ++ outstanding s /\ NoDup (outstanding s).
Proof. split; [apply overlapping_allowed|]. split; [vm_compute; reflexivity|]. apply queue_fifo. apply overlapping_allowed. Defined.

(** [C23] The results of [pop] are sound in every interleaving: a value returned is
    the oldest one of the queue and leaves it; [Inconsistant] is only returned
    while there is a value; and [Empty] only if there is none or if a push is
    between its swap and its link at that moment. *)
Theorem pop_results stub l :
  allowed stub l (init stub) ->
  let s := schedule stub l (init stub) in pop_post s (run_pop stub s).
Proof.
  intros Hl s. destruct (schedule_inv stub l _ _ (init_qinv stub) Hl) as [c Hq].
  by destruct (run_pop_inv stub s c Hq) as (_ & _ & Hp).
Qed.

Lemma pop_results_witness :
  let s := schedule 0 overlapping (init 0) in pop_post s (run_pop 0 s).
Proof. apply pop_results. apply overlapping_allowed. Defined.

(** The pointers the queue writes through are alive: the node whose [next] a
    push is about to set, the node [pop] is about to read, and the head are the
    stub or nodes still in the queue, which nobody has been given back yet. *)
Theorem queue_nodes_alive stub l :
  allowed stub l (init stub) ->
  let s := schedule stub l (init stub) in
  (forall i prev node, pcs s i = PLink prev node -> prev ∈ stub :: outstanding s) /\
  (forall t prev, con s = CLink t prev -> prev ∈ stub :: outstanding s) /\
  (tail s ∈ stub :: outstanding s) /\ (head s ∈ stub :: outstanding s).
Proof.
  intros Hl s. destruct (schedule_inv stub l _ _ (init_qinv stub) Hl) as [c Hq]. fold s in Hq.
  assert (Hc : forall a, a ∈ c -> a ∈ stub :: outstanding s).
  { intros a Ha. rewrite (outstanding_chain _ _ _ Hq). destruct (decide (a = stub)) as [->|Hne]; [left|right].
    by apply list_elem_of_filter. }
  split_and!.
  - intros i prev node Hi. apply Hc. destruct (q_pend _ _ _ Hq prev node) as [Hn _]; [left; by exists i|].
    by apply next_in_elem in Hn as [? _].
  - intros t prev Ht. apply Hc.
    destruct (q_pend _ _ _ Hq prev stub) as [Hn _]; [right; split; [done|by exists t]|].
    by apply next_in_elem in Hn as [? _].
  - apply Hc. destruct (q_tail _ _ _ Hq) as [c' ->]. left.
  - apply Hc. by apply (q_head_elem stub).
Qed.

Lemma queue_nodes_alive_witness :
  let s := schedule 0 overlapping (init 0) in
  (forall i prev node, pcs s i = PLink prev node -> prev ∈ 0 :: outstanding s) /\
  (forall t prev, con s = CLink t prev -> prev ∈ 0 :: outstanding s) /\
  (tail s ∈ 0 :: outstanding s) /\ (head s ∈ 0 :: outstanding s).
Proof. apply queue_nodes_alive. apply overlapping_allowed. Defined.

(** With no push running beside it, [pop] ends within seven steps and is
    exact: it returns the oldest value, or [Empty] when there is none, and never
    [Inconsistant]. *)
Theorem pop_alone stub l :
  allowed stub l (init stub) ->
  let s := schedule stub l (init stub) in
  (forall i, pcs s i = PIdle) -> con s = CIdle ->
  let s' := schedule stub (CallPop :: replicate 7 RunPop) s in
  con s' = CIdle /\
  results s' = results s ++ [match outstanding s with [] => Empty | x :: _ => Value x end].
Proof.
  intros Hl s Hidle Hcon. destruct (schedule_inv stub l _ _ (init_qinv stub) Hl) as [c Hq]. fold s in Hq.
  clearbody s. assert (Hact : act stub s CallPop = set_con CFirst s) by (cbn; by rewrite Hcon).
  assert (Hq' : qinv stub (set_con CFirst s) c) by (refine (con_stay stub s (set_con CFirst s) c Hq eq_refl eq_refl eq_refl eq_refl eq_refl eq_refl _ eq_refl I); by rewrite Hcon).
  cbn zeta. rewrite schedule_cons, Hact. exact (pops_alone stub _ c Hq' Hidle eq_refl).
Qed.

Definition two_pushes : list action := [Push 0 1; RunPush 0; RunPush 0; RunPush 0; Push 0 2; RunPush 0; RunPush 0; RunPush 0].

Lemma two_pushes_allowed : allowed 0 two_pushes (init 0).
Proof. solve_allowed. Defined.

Lemma two_pushes_idle i : pcs (schedule 0 two_pushes (init 0)) i = PIdle.
Proof. destruct i as [|i]; vm_compute; reflexivity. Defined.

Lemma pop_alone_witness :
  let s := schedule 0 two_pushes (init 0) in
  let s' := schedule 0 (CallPop :: replicate 7 RunPop) s in
  con s' = CIdle /\ results s' = results s ++ [match outstanding s with [] => Empty | x :: _ => Value x end].
Proof. exact (pop_alone 0 two_pushes two_pushes_allowed two_pushes_idle eq_refl). Defined.

(** The consumer starts a [pop] with the value 1 in the queue; a second push
    swaps the head before the stub is pushed. *)
Definition late_push : list action :=
  [Push 0 1; RunPush 0; RunPush 0; RunPush 0; CallPop; RunPop; RunPop; RunPop; RunPop;
   Push 0 2; RunPush 0; RunPush 0; RunPop; RunPop; RunPop].

(** [pop] can say [Empty] while a value is there whose push had ended before
    the [pop] began: the last load of [next] finds null because another push
    swapped the head, and the code returns [Empty] where the queue is
    inconsistent. *)
Theorem pop_empty_with_value :
  allowed 0 late_push (init 0) /\
  results (schedule 0 late_push (init 0)) = [Empty] /\
  outstanding (schedule 0 late_push (init 0)) = [1; 2].
Proof. split; [solve_allowed|]. by split; vm_compute. Qed.
