(* ===== verification/Schedular.v ===== *)
(** * The scheduler of the tree runtime (src/tree/schedular/mod.rs, waker.rs)

    Tasks live in [Arc]s whose counts the code keeps by hand; a task is owned by
    the list of all tasks, by the queue when it is to be polled, by wakers and by
    a cancel token.  The memory of the tasks is a map that a task leaves when its
    count reaches zero, so that a use after free is an undefined lookup.  The
    queue and its waker are used through their results: operations of one step, which
    [QueueRefine] and [WakerRefine] show those of [Queue] and [AtomicWaker] to
    implement; a push of another thread that is not linked yet is a [gap].

    The futures of the tasks are a parameter with the class [Future]: what a poll
    of one does is an [act], which the scheduler runs. *)

From S2P Require Import Prelude Defer.

Module Schedular.

(** A thing a future owns: a cancel token, or a waker of a task. *)
Inductive thing := Tok (n : nat) | Wak (i : nat).

#[export] Instance thing_eq_dec : EqDecision thing.
Proof. solve_decision. Defined.

(** [enum TaskState]. *)
Inductive TaskState := Running | Cancelled | Done.

#[export] Instance TaskState_eq_dec : EqDecision TaskState.
Proof. solve_decision. Defined.

Section schedular.
(** The futures, and the memory they share. *)
Context {F U : Type}.

(** ** Futures of tasks

    What a poll does until it returns a value of type [R]. *)
Inductive act (R : Type) : Type :=
| ARet (r : R)
| APanic (m : string)
| AStuck                                   (* it does not end *)
| AWakeSelf (k : act R)                    (* [cx.waker().wake_by_ref()] *)
| AClone (own : bool) (k : nat -> act R)   (* [cx.waker().clone()], kept in the future or not *)
| ASpawn (f : F) (l : list nat) (k : nat -> act R)
                                           (* [push_cancellable(f)]: the token is kept in the
                                              future, and [f] owns the wakers [l] *)
| ADrop (x : thing) (k : act R)            (* drop of something it owns *)
| AWake (i : nat) (k : act R)              (* [waker.wake()] *)
| AOwned (k : list thing -> act R)         (* what it owns *)
| AGet (k : U -> act R)
| AUpd (g : U -> U) (k : act R).
#[local] Arguments ARet {R}.
#[local] Arguments APanic {R}.
#[local] Arguments AStuck {R}.
#[local] Arguments AWakeSelf {R}.
#[local] Arguments AClone {R}.
#[local] Arguments ASpawn {R}.
#[local] Arguments ADrop {R}.
#[local] Arguments AWake {R}.
#[local] Arguments AOwned {R}.
#[local] Arguments AGet {R}.
#[local] Arguments AUpd {R}.

Fixpoint abind {A B} (c : act A) (h : A -> act B) : act B :=
  match c with
  | ARet a => h a
  | APanic m => APanic m
  | AStuck => AStuck
  | AWakeSelf k => AWakeSelf (abind k h)
  | AClone own k => AClone own (fun i => abind (k i) h)
  | ASpawn f l k => ASpawn f l (fun n => abind (k n) h)
  | ADrop x k => ADrop x (abind k h)
  | AWake i k => AWake i (abind k h)
  | AOwned k => AOwned (fun l => abind (k l) h)
  | AGet k => AGet (fun u => abind (k u) h)
  | AUpd g k => AUpd g (abind k h)
  end.

(** A poll returns the future as it is then, or nothing when it is ready;
    [fdone] is a future that has returned. *)
Class Future := {
  fpoll : F -> act (option F);
  fdone : F;
}.

(** [Task]: the strong count of its [Arc], its [TaskBody], and its future, which
    is [None] once it has been dropped and while it is polled.  [owned] are the
    things inside the future. *)
Record task := {
  strong : Z;
  next : option nat;
  prev : option nat;
  done : TaskState;
  queued : bool;
  future : option F;
  owned : list thing;
}.

(** A push in progress in another thread: after how many values [pop] finds it,
    and whether [pop] then says [Inconsistant] or [Empty]. *)
Record gap_at := { gap_after : nat; gap_inconsistant : bool }.

(** The fields of [Schedular] with its queue, the memory of the tasks, the wakers
    and cancel tokens that exist ([None] once used up), the wakers of the outside
    executor that were called, and the futures dropped, in order. *)
Record sched := {
  tasks : gmap nat task;
  next_id : nat;
  len : Z;
  all_next : option nat;
  all_prev : option nat;
  should_poll : list nat;
  queue_alive : bool;
  gap : option gap_at;
  registered : option nat;
  wakers : list (option nat);
  tokens : list (option nat);
  outer_woken : list nat;
  dropped : list nat;
  user : U;
}.

(** [Schedular::new]. *)
Definition new (u : U) : sched :=
  {| tasks := ∅; next_id := 0; len := 0; all_next := None; all_prev := None; should_poll := [];
     queue_alive := true; gap := None; registered := None; wakers := []; tokens := [];
     outer_woken := []; dropped := []; user := u |}.

(** ** Updates of the fields *)
Definition set_tasks m (s : sched) : sched :=
  {| tasks := m; next_id := next_id s; len := len s; all_next := all_next s; all_prev := all_prev s;
     should_poll := should_poll s; queue_alive := queue_alive s; gap := gap s;
     registered := registered s; wakers := wakers s; tokens := tokens s;
     outer_woken := outer_woken s; dropped := dropped s; user := user s |}.
Definition set_next_id n (s : sched) : sched :=
  {| tasks := tasks s; next_id := n; len := len s; all_next := all_next s; all_prev := all_prev s;
     should_poll := should_poll s; queue_alive := queue_alive s; gap := gap s;
     registered := registered s; wakers := wakers s; tokens := tokens s;
     outer_woken := outer_woken s; dropped := dropped s; user := user s |}.
Definition set_len n (s : sched) : sched :=
  {| tasks := tasks s; next_id := next_id s; len := n; all_next := all_next s; all_prev := all_prev s;
     should_poll := should_poll s; queue_alive := queue_alive s; gap := gap s;
     registered := registered s; wakers := wakers s; tokens := tokens s;
     outer_woken := outer_woken s; dropped := dropped s; user := user s |}.
Definition set_all_next o (s : sched) : sched :=
  {| tasks := tasks s; next_id := next_id s; len := len s; all_next := o; all_prev := all_prev s;
     should_poll := should_poll s; queue_alive := queue_alive s; gap := gap s;
     registered := registered s; wakers := wakers s; tokens := tokens s;
     outer_woken := outer_woken s; dropped := dropped s; user := user s |}.
Definition set_all_prev o (s : sched) : sched :=
  {| tasks := tasks s; next_id := next_id s; len := len s; all_next := all_next s; all_prev := o;
     should_poll := should_poll s; queue_alive := queue_alive s; gap := gap s;
     registered := registered s; wakers := wakers s; tokens := tokens s;
     outer_woken := outer_woken s; dropped := dropped s; user := user s |}.
Definition set_should_poll l (s : sched) : sched :=
  {| tasks := tasks s; next_id := next_id s; len := len s; all_next := all_next s; all_prev := all_prev s;
     should_poll := l; queue_alive := queue_alive s; gap := gap s;
     registered := registered s; wakers := wakers s; tokens := tokens s;
     outer_woken := outer_woken s; dropped := dropped s; user := user s |}.
Definition set_queue_alive b (s : sched) : sched :=
  {| tasks := tasks s; next_id := next_id s; len := len s; all_next := all_next s; all_prev := all_prev s;
     should_poll := should_poll s; queue_alive := b; gap := gap s;
     registered := registered s; wakers := wakers s; tokens := tokens s;
     outer_woken := outer_woken s; dropped := dropped s; user := user s |}.
Definition set_gap g (s : sched) : sched :=
  {| tasks := tasks s; next_id := next_id s; len := len s; all_next := all_next s; all_prev := all_prev s;
     should_poll := should_poll s; queue_alive := queue_alive s; gap := g;
     registered := registered s; wakers := wakers s; tokens := tokens s;
     outer_woken := outer_woken s; dropped := dropped s; user := user s |}.
Definition set_registered r (s : sched) : sched :=
  {| tasks := tasks s; next_id := next_id s; len := len s; all_next := all_next s; all_prev := all_prev s;
     should_poll := should_poll s; queue_alive := queue_alive s; gap := gap s;
     registered := r; wakers := wakers s; tokens := tokens s;
     outer_woken := outer_woken s; dropped := dropped s; user := user s |}.
Definition set_wakers l (s : sched) : sched :=
  {| tasks := tasks s; next_id := next_id s; len := len s; all_next := all_next s; all_prev := all_prev s;
     should_poll := should_poll s; queue_alive := queue_alive s; gap := gap s;
     registered := registered s; wakers := l; tokens := tokens s;
     outer_woken := outer_woken s; dropped := dropped s; user := user s |}.
Definition set_tokens l (s : sched) : sched :=
  {| tasks := tasks s; next_id := next_id s; len := len s; all_next := all_next s; all_prev := all_prev s;
     should_poll := should_poll s; queue_alive := queue_alive s; gap := gap s;
     registered := registered s; wakers := wakers s; tokens := l;
     outer_woken := outer_woken s; dropped := dropped s; user := user s |}.
Definition add_outer_woken w (s : sched) : sched :=
  {| tasks := tasks s; next_id := next_id s; len := len s; all_next := all_next s; all_prev := all_prev s;
     should_poll := should_poll s; queue_alive := queue_alive s; gap := gap s;
     registered := registered s; wakers := wakers s; tokens := tokens s;
     outer_woken := outer_woken s ++ [w]; dropped := dropped s; user := user s |}.
Definition add_dropped id (s : sched) : sched :=
  {| tasks := tasks s; next_id := next_id s; len := len s; all_next := all_next s; all_prev := all_prev s;
     should_poll := should_poll s; queue_alive := queue_alive s; gap := gap s;
     registered := registered s; wakers := wakers s; tokens := tokens s;
     outer_woken := outer_woken s; dropped := dropped s ++ [id]; user := user s |}.

Definition set_user u (s : sched) : sched :=
  {| tasks := tasks s; next_id := next_id s; len := len s; all_next := all_next s; all_prev := all_prev s;
     should_poll := should_poll s; queue_alive := queue_alive s; gap := gap s;
     registered := registered s; wakers := wakers s; tokens := tokens s;
     outer_woken := outer_woken s; dropped := dropped s; user := u |}.

Definition with_strong n (t : task) : task :=
  {| strong := n; next := next t; prev := prev t; done := done t; queued := queued t;
     future := future t; owned := owned t |}.
Definition with_next o (t : task) : task :=
  {| strong := strong t; next := o; prev := prev t; done := done t; queued := queued t;
     future := future t; owned := owned t |}.
Definition with_prev o (t : task) : task :=
  {| strong := strong t; next := next t; prev := o; done := done t; queued := queued t;
     future := future t; owned := owned t |}.
Definition with_done d (t : task) : task :=
  {| strong := strong t; next := next t; prev := prev t; done := d; queued := queued t;
     future := future t; owned := owned t |}.
Definition with_queued b (t : task) : task :=
  {| strong := strong t; next := next t; prev := prev t; done := done t; queued := b;
     future := future t; owned := owned t |}.
Definition with_future f l (t : task) : task :=
  {| strong := strong t; next := next t; prev := prev t; done := done t; queued := queued t;
     future := f; owned := l |}.

(** ** Tasks in memory *)
Definition get_task (id : nat) : M sched task :=
  let! o := gets (fun s => tasks s !! id) in deref o.
Definition put_task (id : nat) (t : task) : M sched unit :=
  modify (fun s => set_tasks (<[id := t]> (tasks s)) s).
Definition upd_task (id : nat) (f : task -> task) : M sched unit :=
  let! t := get_task id in put_task id (f t).

(** [Arc::increment_strong_count], [Arc::decrement_strong_count]. *)
Definition incr_task (id : nat) : M sched unit :=
  upd_task id (fun t => with_strong (strong t + 1) t).
Definition decr_task (id : nat) : M sched unit :=
  let! t := get_task id in
  if (strong t =? 1)%Z then modify (fun s => set_tasks (delete id (tasks s)) s)
  else put_task id (with_strong (strong t - 1) t).

(** [queued.compare_exchange(false, true)]: whether it succeeded. *)
Definition set_queued (id : nat) : M sched bool :=
  let! t := get_task id in
  if queued t then ret false else do! put_task id (with_queued true t) in ret true.

(** ** The queue and the waker of the executor *)
Inductive Pop := Empty | Value (id : nat) | Inconsistant.

Definition q_push (id : nat) : M sched unit :=
  modify (fun s => set_should_poll (should_poll s ++ [id]) s).

Definition q_pop : M sched Pop :=
  let! g := gets gap in
  match g with
  | Some {| gap_after := O; gap_inconsistant := b |} =>
      do! modify (set_gap None) in
      ret (if b then Inconsistant else Empty)
  | _ =>
      let! q := gets should_poll in
      match q with
      | [] => ret Empty
      | id :: q =>
          do! modify (set_should_poll q) in
          do! modify (set_gap (match g with
                               | Some g => Some {| gap_after := pred (gap_after g);
                                                   gap_inconsistant := gap_inconsistant g |}
                               | None => None
                               end)) in
          ret (Value id)
      end
  end.

Definition wake_outer (w : nat) : M sched unit := modify (add_outer_woken w).

(** [AtomicWaker::register] and [wake] without a concurrent call. *)
Definition queue_register (w : nat) : M sched unit := modify (set_registered (Some w)).
Definition queue_wake : M sched unit :=
  let! o := gets registered in
  match o with
  | Some w => do! modify (set_registered None) in wake_outer w
  | None => ret tt
  end.

(** ** Wakers of tasks (waker.rs) *)
Definition inner_clone (id : nat) : M sched unit := incr_task id.
(** [Waker::clone]: the new waker goes to the next slot. *)
Definition clone_waker (id : nat) : M sched unit :=
  do! inner_clone id in modify (fun s => set_wakers (wakers s ++ [Some id]) s).
Definition schedular_drop (id : nat) : M sched unit := decr_task id.
Definition schedular_wake (id : nat) : M sched unit :=
  let! ok := set_queued id in
  if negb ok then schedular_drop id
  else
    let! alive := gets queue_alive in
    if negb alive then schedular_drop id
    else do! q_push id in queue_wake.
Definition schedular_wake_ref (id : nat) : M sched unit :=
  do! inner_clone id in schedular_wake id.

(** The waker in slot [i], used up when [by_value]. *)
Definition use_waker (i : nat) (by_value : bool) (f : nat -> M sched unit) : M sched unit :=
  let! l := gets wakers in
  match l !! i with
  | Some (Some id) =>
      do! (if by_value then modify (set_wakers (<[i := None]> l)) else ret tt) in f id
  | _ => ret tt
  end.

(** ** Cancelling *)
Fixpoint for_each {A} (f : A -> M sched unit) (l : list A) : M sched unit :=
  match l with
  | [] => ret tt
  | n :: l => do! f n in for_each f l
  end.

Section drop.
(** The drop of a token or waker inside a future. *)
Context (drop_token : nat -> M sched unit).

Definition drop_thing (x : thing) : M sched unit :=
  match x with
  | Tok n => drop_token n
  | Wak i => use_waker i true schedular_drop
  end.

(** [drop_task]: drop of the future in place.  What it owns is dropped in the reverse
    of the order it was made. *)
Definition drop_task (id : nat) : M sched unit :=
  let! t := get_task id in
  let! _ := deref (future t) in
  do! put_task id (with_future None [] t) in
  do! modify (add_dropped id) in
  for_each drop_thing (reverse (owned t)).

(** [Drop for CancelToken]. *)
Definition drop_cancel_token (id : nat) : M sched unit :=
  let! t := get_task id in
  let _defer := Defer.new id decr_task in
  match done t with
  | Cancelled | Done => Defer.drop _defer
  | Running =>
      do! put_task id (with_done Cancelled t) in
      do! drop_task id in
      let! ok := set_queued id in
      if (ok : bool) then
        let! alive := gets queue_alive in
        if (alive : bool) then
          do! queue_wake in
          do! q_push id in
          let! _ := Defer.take _defer in ret tt
        else Defer.drop _defer
      else Defer.drop _defer
  end.

(** The token in slot [n], if it has not been dropped. *)
Definition take_token (n : nat) : M sched unit :=
  let! l := gets tokens in
  match l !! n with
  | Some (Some id) => do! modify (set_tokens (<[n := None]> l)) in drop_cancel_token id
  | _ => ret tt
  end.
End drop.

(** Tokens are inside futures of older tasks, so the recursion goes at most
    once through every task ([fuel]). *)
Fixpoint drop_token_ (fuel : nat) (n : nat) : M sched unit :=
  match fuel with
  | O => ub
  | S fuel => take_token (drop_token_ fuel) n
  end.
Definition drop_token (n : nat) : M sched unit :=
  let! fuel := gets next_id in drop_token_ (S fuel) n.

(** ** The list of all tasks *)
Definition is_empty : M sched bool :=
  gets (fun s => match all_next s with None => true | Some _ => false end).

Definition push_task_to_all (id : nat) : M sched unit :=
  let! an := gets all_next in
  do! upd_task id (with_next an) in
  do! match an with Some x => upd_task x (with_prev (Some id)) | None => ret tt end in
  do! modify (set_all_next (Some id)) in
  let! ap := gets all_prev in
  match ap with None => modify (set_all_prev (Some id)) | Some _ => ret tt end.

(** [f] owns the things [l]. *)
Definition push_cancellable (f : F) (l : list thing) : M sched nat :=
  let! id := gets next_id in
  do! modify (set_next_id (S id)) in
  do! put_task id {| strong := 1; next := None; prev := None; done := Running; queued := true;
                     future := Some f; owned := l |} in
  do! incr_task id in
  do! incr_task id in
  do! push_task_to_all id in
  do! q_push id in
  do! modify (fun s => set_len (len s + 1) s) in
  let! ts := gets tokens in
  do! modify (set_tokens (ts ++ [Some id])) in
  ret (length ts).

Definition pop_task_all (id : nat) : M sched unit :=
  do! upd_task id (with_queued true) in
  let! t := get_task id in
  do! put_task id (with_done Done t) in
  do! match done t with Running => drop_task drop_token id | Cancelled | Done => ret tt end in
  let! t := get_task id in
  do! match next t with
      | Some n => upd_task n (with_prev (prev t))
      | None => modify (set_all_prev (prev t))
      end in
  let! t := get_task id in
  do! match prev t with
      | Some p => upd_task p (with_next (next t))
      | None => modify (set_all_next (next t))
      end in
  do! decr_task id in
  let! n := gets len in
  do! assert (0 <? n)%Z "attempt to subtract with overflow" in
  modify (set_len (n - 1)).

(** ** Polling *)
Context `{!Future}.

(** Who is polled: the future of a task, or one outside of the scheduler with the
    waker [w] in its context, whose clones are not followed. *)
Inductive who := AsTask (id : nat) | AsRoot (w : nat).

Fixpoint run_act {R} (o : who) (a : act R) : M sched R :=
  match a with
  | ARet r => ret r
  | APanic m => panic m
  | AStuck => ub
  | AWakeSelf k =>
      do! match o with AsTask id => schedular_wake_ref id | AsRoot w => wake_outer w end in
      run_act o k
  | AClone own k =>
      let! i := gets (fun s => length (wakers s)) in
      do! match o with
          | AsTask id =>
              do! clone_waker id in
              if own then upd_task id (fun t => with_future (future t) (owned t ++ [Wak i]) t) else ret tt
          | AsRoot _ => modify (fun s => set_wakers (wakers s ++ [None]) s)
          end in
      run_act o (k i)
  | ASpawn f l k =>
      let! n := push_cancellable f (map Wak l) in
      do! match o with
          | AsTask id => upd_task id (fun t => with_future (future t) (owned t ++ [Tok n]) t)
          | AsRoot _ => ret tt
          end in
      run_act o (k n)
  | ADrop x k =>
      do! match o with
          | AsTask id =>
              let! t := get_task id in
              if decide (x ∈ owned t) then drop_thing drop_token x else ret tt
          | AsRoot _ => drop_thing drop_token x
          end in
      run_act o k
  | AWake i k => do! use_waker i true schedular_wake in run_act o k
  | AOwned k =>
      match o with
      | AsTask id => let! t := get_task id in run_act o (k (owned t))
      | AsRoot _ => run_act o (k [])
      end
  | AGet k => let! u := gets user in run_act o (k u)
  | AUpd g k => do! modify (fun s => set_user (g (user s)) s) in run_act o k
  end.

(** The poll of the future of task [id] returned [r]: what a future that is ready
    owns is dropped, the last thing first. *)
Definition finish_poll (id : nat) (r : option F) : M sched (poll unit) :=
  match r with
  | None =>
      let! t := get_task id in
      do! put_task id (with_future None [] t) in
      do! for_each (drop_thing drop_token) (reverse (owned t)) in
      do! upd_task id (fun t => with_future (Some fdone) (owned t) t) in
      ret (Ready tt)
  | Some f =>
      do! upd_task id (fun t => with_future (Some f) (owned t) t) in
      ret Pending
  end.

Definition exec (id : nat) (a : act (option F)) : M sched (poll unit) :=
  let! r := run_act (AsTask id) a in finish_poll id r.

Definition drive_task (id : nat) : M sched (poll unit) :=
  let! t := get_task id in
  let! f := deref (future t) in
  do! put_task id (with_future None (owned t) t) in
  exec id (fpoll f).

(** The loop of [poll], with its counters; [w] is the waker of its context. *)
Fixpoint poll_loop (fuel : nat) (w : nat) (iteration yielded : Z) : M sched (option (poll unit)) :=
  match fuel with
  | O => ret None
  | S fuel =>
      let! p := q_pop in
      match p with
      | Empty => let! e := is_empty in ret (Some (if e : bool then Ready tt else Pending))
      | Inconsistant => do! wake_outer w in ret (Some Pending)
      | Value cur =>
          let! t := get_task cur in
          match done t with
          | Cancelled => do! pop_task_all cur in poll_loop fuel w iteration yielded
          | Done => do! decr_task cur in poll_loop fuel w iteration yielded
          | Running =>
              do! upd_task cur (with_queued false) in
              do! assert (queued t) "assertion failed: prev" in
              let remove := Defer.new tt (fun _ => pop_task_all cur) in
              let iteration := iteration + 1 in
              let! r := drive_task cur in
              match r with
              | Ready _ =>
                  (* the deferred removal, then the drop of the waker *)
                  do! Defer.drop remove in
                  do! schedular_drop cur in
                  poll_loop fuel w iteration yielded
              | Pending =>
                  let! _ := Defer.take remove in
                  let! t := get_task cur in
                  let yielded := yielded + (if queued t then 1 else 0) in
                  let! n := gets len in
                  if ((2 <? yielded) || (n <? iteration))%Z then
                    do! wake_outer w in
                    do! schedular_drop cur in
                    ret (Some Pending)
                  else
                    do! schedular_drop cur in
                    poll_loop fuel w iteration yielded
              end
          end
      end
  end.

Definition poll_sched (fuel : nat) (w : nat) : M sched (option (poll unit)) :=
  let! e := is_empty in
  if (e : bool) then ret (Some (Ready tt))
  else do! queue_register w in poll_loop fuel w 0 0.

(** ** Clearing *)
Fixpoint clear_all (fuel : nat) : M sched (option unit) :=
  match fuel with
  | O => ret None
  | S fuel =>
      let! o := gets all_next in
      match o with
      | Some c => do! pop_task_all c in clear_all fuel
      | None => ret (Some tt)
      end
  end.

Fixpoint clear_queue (fuel : nat) : M sched (option unit) :=
  match fuel with
  | O => ret None
  | S fuel =>
      let! p := q_pop in
      match p with
      | Empty => ret (Some tt)
      | Value cur => do! decr_task cur in clear_queue fuel
      | Inconsistant => clear_queue fuel
      end
  end.

(** [clear], which is also [Drop for Schedular]. *)
Definition clear (fuel : nat) : M sched (option unit) :=
  let! r := clear_all fuel in
  match r with
  | Some _ => clear_queue fuel
  | None => ret None
  end.

(** ** What can happen to a scheduler *)
Inductive op :=
| OPush (f : F)               (* [push_cancellable] by the owner *)
| OPoll (fuel : nat) (w : nat)
| OWake (i : nat)             (* the waker in slot [i] is called ... *)
| OWakeRef (i : nat)
| OClone (i : nat)            (* ... cloned, dropped *)
| ODropWaker (i : nat)
| ODropToken (n : nat)
| OGap (g : gap_at)           (* another thread is in the middle of a push *)
| OClear (fuel : nat)
| ODrop (fuel : nat).         (* the scheduler is dropped *)

(** The methods of a scheduler are called while it exists. *)
Definition if_alive (c : M sched unit) : M sched unit :=
  let! b := gets queue_alive in if (b : bool) then c else ret tt.

Definition run_op (o : op) : M sched unit :=
  match o with
  | OPush f => if_alive (let! _ := push_cancellable f [] in ret tt)
  | OPoll fuel w => if_alive (let! _ := poll_sched fuel w in ret tt)
  | OWake i => use_waker i true schedular_wake
  | OWakeRef i => use_waker i false schedular_wake_ref
  | OClone i =>
      use_waker i false clone_waker
  | ODropWaker i => use_waker i true schedular_drop
  | ODropToken n => drop_token n
  | OGap g => modify (set_gap (Some g))
  | OClear fuel => if_alive (let! _ := clear fuel in ret tt)
  | ODrop fuel =>
      if_alive (let! r := clear fuel in
                match r with Some _ => modify (set_queue_alive false) | None => ret tt end)
  end.

Fixpoint run_ops (l : list op) : M sched unit :=
  match l with
  | [] => ret tt
  | o :: l => do! run_op o in run_ops l
  end.

End schedular.
Arguments act F U R : clear implicits.
Arguments ARet {F U R}.
Arguments APanic {F U R}.
Arguments AStuck {F U R}.
Arguments AWakeSelf {F U R}.
Arguments AClone {F U R}.
Arguments ASpawn {F U R}.
Arguments ADrop {F U R}.
Arguments AWake {F U R}.
Arguments AOwned {F U R}.
Arguments AGet {F U R}.
Arguments AUpd {F U R}.
Arguments Future F U : clear implicits.
Arguments task F : clear implicits.
Arguments sched F U : clear implicits.
Arguments op F : clear implicits.

End Schedular.
