(* ===== verification/SchedularInv.v ===== *)
(** * The invariant of the scheduler

    The strong count of a task is the number of its owners; the list of all tasks
    is a doubly linked list of the tasks that are not done; a future exists
    exactly while its task runs; and a task marked as queued is in the queue. *)

From S2P Require Import Prelude Schedular.
Import Schedular.

(** ** Counting owners *)
Abbreviation cnt := (count_occ Nat.eq_dec).

Lemma cnt_perm l l' x : l ≡ₚ l' -> cnt l x = cnt l' x.
Proof. intros Hp. by apply Permutation_count_occ. Qed.

Lemma cnt_cons l x y : cnt (y :: l) x = ((if decide (y = x) then 1 else 0) + cnt l x)%nat.
Proof. cbn. destruct (Nat.eq_dec y x), (decide (y = x)); done. Qed.

Lemma cnt_elem l x : (0 < cnt l x)%nat <-> x ∈ l.
Proof. rewrite list_elem_of_In. rewrite (count_occ_In Nat.eq_dec). lia. Qed.

(** The tasks in the slots that are not used up. *)
Definition live (l : list (option nat)) : list nat := omap id l.

Lemma live_take l n c : l !! n = Some (Some c) -> live l ≡ₚ c :: live (<[n := None]> l).
Proof.
  intros Hn. assert (Hlt : (n < length l)%nat) by by eapply lookup_lt_Some.
  rewrite <- (take_drop_middle l n (Some c) Hn) at 1.
  rewrite (insert_take_drop l n None) by done. unfold live. rewrite !omap_app. cbn. solve_Permutation.
Qed.

Lemma live_snoc l c : live (l ++ [Some c]) ≡ₚ c :: live l.
Proof. unfold live. rewrite omap_app. cbn. solve_Permutation. Qed.

Section inv.
Context {F U : Type}.
Implicit Types (s : sched F U) (L held : list nat) (t : task F).

(** All owners of tasks: the list [L] of all tasks, the queue, the wakers, the
    cancel tokens, and those in local variables of running code or lost ([held]). *)
Definition refs s L held : list nat :=
  L ++ should_poll s ++ live (wakers s) ++ live (tokens s) ++ held.

(** ** Tasks *)

(** The state of a task in the midst of an operation: [pol] is being polled,
    [rm] is being removed from the list, those of [cn] are being cancelled, and
    [ex] was popped from the queue but is still marked as queued. *)
Record doing := { pol : option nat; rm : option nat; cn : list nat; ex : option nat }.
Definition at_rest : doing := {| pol := None; rm := None; cn := []; ex := None |}.

Definition in_queue (q : list nat) (d : doing) (id : nat) : Prop := id ∈ q \/ ex d = Some id.

Definition status (q L : list nat) (d : doing) (id : nat) t : Prop :=
  (pol d = Some id -> done t = Running) /\ (rm d = Some id -> done t = Done) /\
  (id ∈ cn d -> done t = Cancelled) /\
  match done t with
  | Running =>
      id ∈ L /\ (future t = None <-> pol d = Some id) /\ (queued t = true -> in_queue q d id)
  | Cancelled =>
      id ∈ L /\ future t = None /\ (queued t = true -> in_queue q d id) /\
      (queued t = false -> id ∈ cn d)
  | Done => future t = None /\ queued t = true /\ (id ∈ L -> rm d = Some id)
  end.

Record core s L (d : doing) held : Prop := {
  c_nodup : NoDup L;
  c_queue : NoDup (should_poll s);
  c_count : forall id, match tasks s !! id with
              | Some t => strong t = Z.of_nat (cnt (refs s L held) id) /\ (0 < cnt (refs s L held) id)%nat
              | None => cnt (refs s L held) id = 0%nat
              end;
  c_status : forall id t, tasks s !! id = Some t -> status (should_poll s) L d id t;
  c_queued : forall id t, id ∈ should_poll s -> tasks s !! id = Some t -> queued t = true;
  c_fresh : forall id, is_Some (tasks s !! id) -> (id < next_id s)%nat;
  c_owned : forall id t n, tasks s !! id = Some t -> Tok n ∈ owned t ->
              (n < length (tokens s))%nat /\
              forall c, tokens s !! n = Some (Some c) -> (id < c)%nat;
  c_alive : queue_alive s = false -> L = [];
}.

(** ** The doubly linked list *)

(** [L] is linked in [m], after [p] and before [n]. *)
Fixpoint dll (m : gmap nat (task F)) (p : option nat) (L : list nat) (n : option nat) : Prop :=
  match L with
  | [] => True
  | x :: L =>
      (exists t, m !! x = Some t /\ prev t = p /\
         next t = match L with [] => n | y :: _ => Some y end) /\ dll m (Some x) L n
  end.

Record linked s L : Prop := {
  l_dll : dll (tasks s) None L None;
  l_next : all_next s = head L;
  l_prev : all_prev s = last L;
  l_len : len s = Z.of_nat (length L);
}.

(** ** Every future is dropped once

    The futures dropped are those of the tasks that do not run any more, in
    memory or not, and none was dropped twice. *)
Record drops s : Prop := {
  d_nodup : NoDup (dropped s);
  d_dropped : forall id, id ∈ dropped s <->
     (id < next_id s)%nat /\ forall t, tasks s !! id = Some t -> done t <> Running;
}.

(** ** What the scheduler asks of futures

    [uok] says which memory the futures may share, [uin] when they may be polled,
    [ule] how the memory may change, [fok] which futures are fine with it, and
    [fsize] bounds what a future can still do, whatever happens. *)
Class FutureSpec := {
  uok : U -> Prop;
  uin : U -> Prop;
  ule : U -> U -> Prop;
  fok : U -> F -> Prop;
  fsize : U -> F -> nat;
  fpanics : string -> Prop;
}.

Context {FU : Future F U} {FS : FutureSpec}.

(** A poll that does at most [n] when it starts with memory [u]; what it returns
    satisfies [post] with what is left of [n]. *)
Fixpoint act_ok {R} (post : nat -> U -> R -> Prop) (n : nat) (u : U) (a : act F U R) : Prop :=
  match a with
  | ARet r => post n u r
  | APanic _ | AStuck => False
  | AWakeSelf k | AWake _ k => exists m, n = S m /\ act_ok post m u k
  | AClone _ k => forall i, act_ok post n u (k i)
  | ASpawn f l k => fok u f /\ exists m, n = S (fsize u f + m) /\ forall i, act_ok post m u (k i)
  | ADrop x k => act_ok post n u k
  | AOwned k => forall l, act_ok post n u (k l)
  | AGet k => act_ok post n u (k u)
  | AUpd g k => ule u (g u) /\ uok (g u) /\ act_ok post n (g u) k
  end.

Lemma act_ok_mono {R} (post post' : nat -> U -> R -> Prop) n u a :
  (forall n u r, post n u r -> post' n u r) -> act_ok post n u a -> act_ok post' n u a.
Proof.
  intros Hp. revert n u. induction a as [r|m| |k IH|own k IH|f l k IH|x k IH|i k IH|k IH|k IH|g k IH];
    intros n u; cbn [act_ok]; try done; try (by auto).
  - intros (m & -> & Ha). exists m. auto.
  - intros (Hf & m & -> & Ha). split; [done|]. exists m. auto.
  - intros (m & -> & Ha). exists m. auto.
  - intros (Hl & Ho & Ha). auto.
Qed.

Lemma act_ok_bind {R S} (post : nat -> U -> S -> Prop) n u (a : act F U R) h :
  act_ok (fun n u r => act_ok post n u (h r)) n u a -> act_ok post n u (abind a h).
Proof.
  revert n u. induction a as [r|m| |k IH|own k IH|f l k IH|x k IH|i k IH|k IH|k IH|g k IH];
    intros n u; cbn [act_ok abind]; try done; try (by auto).
  - intros (m & -> & Ha). exists m. auto.
  - intros (Hf & m & -> & Ha). split; [done|]. exists m. auto.
  - intros (m & -> & Ha). exists m. auto.
  - intros (Hl & Ho & Ha). auto.
Qed.

(** What is left only shrinks. *)
Lemma act_ok_le {R} (post : nat -> U -> R -> Prop) n u (a : act F U R) :
  act_ok post n u a -> act_ok (fun m u r => (m <= n)%nat /\ post m u r) n u a.
Proof.
  revert n u. induction a as [r|m| |k IH|own k IH|f l k IH|x k IH|i k IH|k IH|k IH|g k IH];
    intros n u; cbn [act_ok]; try done; try (by auto).
  - intros (m & -> & Ha). exists m. split; [done|]. eapply act_ok_mono; [|by apply IH].
    cbn beta. intros n' u' r [? ?]. split; [lia|done].
  - intros (Hf & m & -> & Ha). split; [done|]. exists m. split; [done|]. intros i.
    eapply act_ok_mono; [|by apply IH]. cbn beta. intros n' u' r [? ?]. split; [lia|done].
  - intros (m & -> & Ha). exists m. split; [done|]. eapply act_ok_mono; [|by apply IH].
    cbn beta. intros n' u' r [? ?]. split; [lia|done].
  - intros (Hl & Ho & Ha). auto.
Qed.

(** What a poll of a future returns: a future that is fine and has no more to do
    than is left, and memory in which others may be polled. *)
Definition poll_ok (n : nat) (u : U) (r : option F) : Prop :=
  uin u /\
  match r with
  | None => (fsize u fdone <= n)%nat
  | Some f => fok u f /\ (fsize u f <= n)%nat
  end.

Class FutureLaws : Prop := {
  ule_refl u : ule u u;
  ule_trans u1 u2 u3 : ule u1 u2 -> ule u2 u3 -> ule u1 u3;
  fok_mono u u' f : ule u u' -> fok u f -> fok u' f;
  fsize_mono u u' f : ule u u' -> fok u f -> fsize u' f = fsize u f;
  fsize_pos u f : (0 < fsize u f)%nat;
}.

Class FutureOk : Prop := {
  #[global] future_laws :: FutureLaws;
  fpoll_ok u f : uok u -> uin u -> fok u f -> act_ok poll_ok (fsize u f) u (fpoll f);
}.

(** The tasks whose future has returned but is not dropped yet. *)
Context {gone : nat -> Prop}.

(** The futures of all others are fine. *)
Record users s : Prop := {
  u_ok : uok (user s);
  u_futures : forall id t f, tasks s !! id = Some t -> future t = Some f -> gone id \/ fok (user s) f;
}.

Record sinv_ s L (d : doing) held : Prop := {
  s_core : core s L d held;
  s_linked : linked s L;
  s_drops : drops s;
  s_users : users s;
}.

(** ** The work left

    The size of the futures of all tasks, and the length of the queue: no
    operation makes it grow, but for a task that is pushed. *)
Definition task_weight (u : U) t : nat :=
  match future t with Some f => 2 * fsize u f | None => 0 end.

Fixpoint weight (u : U) (m : gmap nat (task F)) (n : nat) : nat :=
  match n with
  | O => 0
  | S n => match m !! n with Some t => task_weight u t | None => 0 end + weight u m n
  end.

Definition pot s : nat := weight (user s) (tasks s) (next_id s) + length (should_poll s).

(** The waker [w] was called since [o], or will be by the next wake-up. *)
Definition armed (w : nat) (o : list nat) s : Prop :=
  exists l, outer_woken s = o ++ l /\ (registered s = Some w \/ w ∈ l).

(** What dropping things does not do: create tasks or tokens, or lose a wake-up. *)
Record frame s s' : Prop := {
  lt_user : user s' = user s;
  lt_len : length (tokens s') = length (tokens s);
  lt_token : forall n c, tokens s' !! n = Some (Some c) -> tokens s !! n = Some (Some c);
  lt_next : next_id s' = next_id s;
  lt_alive : queue_alive s' = queue_alive s;
  lt_gap : gap s' = gap s;
  lt_armed : forall w o, armed w o s -> armed w o s';
  lt_dropped : forall id, id ∈ dropped s -> id ∈ dropped s';
}.

(** Nor does it add [k] or more to the work left. *)
Definition later (k : nat) s s' : Prop := frame s s' /\ (pot s' <= k + pot s)%nat.

(** ** Lemmas on the linked list *)
Lemma dll_ext m m' p L n :
  (forall x t, x ∈ L -> m !! x = Some t -> exists t', m' !! x = Some t' /\ prev t' = prev t /\ next t' = next t) ->
  dll m p L n -> dll m' p L n.
Proof.
  revert p. induction L as [|x L IH]; intros p He; [done|]. cbn [dll]. intros [(t & Ht & Hp & Hn) Hd].
  split.
  - destruct (He x t ltac:(left) Ht) as (t' & Ht' & Hp' & Hn'). exists t'. by rewrite Hp', Hn'.
  - apply IH; [|done]. intros y u Hy. apply He. by right.
Qed.

Lemma dll_app m p l1 l2 n :
  dll m p (l1 ++ l2) n <->
  dll m p l1 (match l2 with [] => n | y :: _ => Some y end) /\
  dll m (match last l1 with None => p | Some x => Some x end) l2 n.
Proof.
  clear gone.
  revert p. induction l1 as [|x l1 IH]; intros p; [cbn; tauto|].
  cbn [app dll]. rewrite IH. clear IH.
  assert (Hl : match last (x :: l1) with None => p | Some y => Some y end
             = match last l1 with None => Some x | Some y => Some y end).
  { destruct l1 as [|y l1]; [done|]. change (last (x :: y :: l1)) with (last (y :: l1)).
    by destruct (last (y :: l1)) eqn:E; [|apply last_None in E]. }
  rewrite Hl. destruct l1 as [|y l1]; cbn [app]; [|tauto].
  destruct l2; cbn; tauto.
Qed.

Lemma dll_insert_out m p L n x t : x ∉ L -> dll m p L n -> dll (<[x := t]> m) p L n.
Proof.
  intros Hx. apply dll_ext. intros y u Hy Hu. exists u. rewrite lookup_insert_ne; [done|]. by intros ->.
Qed.

Lemma dll_set_prev m p p' x L n t :
  NoDup (x :: L) -> m !! x = Some t -> dll m p (x :: L) n -> dll (<[x := with_prev p' t]> m) p' (x :: L) n.
Proof.
  intros [Hx _]%NoDup_cons Ht [(t0 & Ht0 & _ & Hn) Hd]. rewrite Ht in Ht0. injection Ht0 as <-.
  split; [|by apply dll_insert_out]. exists (with_prev p' t). by rewrite lookup_insert_eq.
Qed.

Lemma dll_set_next m p L x n n' t :
  NoDup (L ++ [x]) -> m !! x = Some t -> dll m p (L ++ [x]) n ->
  dll (<[x := with_next n' t]> m) p (L ++ [x]) n'.
Proof.
  clear gone.
  intros (Hnd & Hx & _)%NoDup_app Ht. rewrite !dll_app. cbn [dll]. intros [H1 [(t0 & Ht0 & Hp & _) _]].
  rewrite Ht in Ht0. injection Ht0 as <-. split.
  - apply dll_insert_out; [|done]. intros Hin. apply (Hx x Hin). left.
  - split; [|done]. exists (with_next n' t). by rewrite lookup_insert_eq.
Qed.

Lemma dll_lookup m p L n x : x ∈ L -> dll m p L n -> is_Some (m !! x).
Proof.
  revert p. induction L as [|y L IH]; intros p; [by intros ?%elem_of_nil|].
  intros [->|Hx]%elem_of_cons [(t & Ht & _) Hd]; [by eexists|by eapply IH].
Qed.

(** ** Lemmas on the work left and on frames *)
Lemma weight_insert_ge u m n id t' : (n <= id)%nat -> weight u (<[id := t']> m) n = weight u m n.
Proof.
  induction n as [|n IH]; [done|]. intros Hn. cbn [weight]. by rewrite lookup_insert_ne, IH by lia.
Qed.

Lemma weight_insert u m n id t t' :
  m !! id = Some t -> (id < n)%nat ->
  (weight u (<[id := t']> m) n + task_weight u t = weight u m n + task_weight u t')%nat.
Proof.
  intros Ht. induction n as [|n IH]; [lia|]. intros Hn. cbn [weight].
  destruct (decide (n = id)) as [->|Hne].
  - rewrite lookup_insert_eq, Ht, weight_insert_ge by lia. lia.
  - rewrite lookup_insert_ne by done. specialize (IH ltac:(lia)). lia.
Qed.

Lemma weight_mono u m m' n :
  (forall id, match m' !! id with
     | Some t' => exists t, m !! id = Some t /\ (task_weight u t' <= task_weight u t)%nat
     | None => True
     end) -> (weight u m' n <= weight u m n)%nat.
Proof.
  intros H. induction n as [|n IH]; [done|]. cbn [weight]. specialize (H n).
  destruct (m' !! n) as [t'|]; [destruct H as (t & -> & ?); lia|lia].
Qed.

Lemma armed_same w o s s' :
  outer_woken s' = outer_woken s -> registered s' = registered s -> armed w o s -> armed w o s'.
Proof. intros H1 H2. unfold armed. by rewrite H1, H2. Qed.

Lemma frame_refl s : frame s s.
Proof. by split. Qed.

Lemma frame_trans s1 s2 s3 : frame s1 s2 -> frame s2 s3 -> frame s1 s3.
Proof. intros [] []. split; try congruence; auto. Qed.

Lemma later_refl s : later 0 s s.
Proof. split; [apply frame_refl|lia]. Qed.

Lemma later_trans k1 k2 s1 s2 s3 : later k1 s1 s2 -> later k2 s2 s3 -> later (k1 + k2) s1 s3.
Proof. intros [H1 ?] [H2 ?]. split; [by eapply frame_trans|lia]. Qed.

(** Only the tasks change, and none of them gets more to do. *)
Lemma later_tasks s m :
  (forall id, match m !! id with
     | Some t' => exists t, tasks s !! id = Some t /\ (task_weight (user s) t' <= task_weight (user s) t)%nat
     | None => True
     end) -> later 0 s (set_tasks m s).
Proof.
  intros H. split; [by split|]. unfold pot. cbn. pose proof (weight_mono _ _ _ (next_id s) H). lia.
Qed.

Lemma later_put s id t t' :
  tasks s !! id = Some t -> (task_weight (user s) t' <= task_weight (user s) t)%nat ->
  later 0 s (set_tasks (<[id := t']> (tasks s)) s).
Proof.
  intros Ht Hw. apply later_tasks. intros x. destruct (decide (x = id)) as [->|Hne].
  - rewrite lookup_insert_eq. eauto.
  - rewrite lookup_insert_ne by done. destruct (tasks s !! x); eauto.
Qed.

Lemma later_delete s id : later 0 s (set_tasks (delete id (tasks s)) s).
Proof.
  apply later_tasks. intros x. destruct (decide (x = id)) as [->|Hne].
  - by rewrite lookup_delete_eq.
  - rewrite lookup_delete_ne by done. destruct (tasks s !! x); eauto.
Qed.

(** ** Lemmas on dropped futures *)
Lemma drops_same s s' :
  tasks s' = tasks s -> dropped s' = dropped s -> next_id s' = next_id s -> drops s -> drops s'.
Proof. intros H1 H2 H3 []. split; rewrite ?H1, ?H2, ?H3; done. Qed.

Lemma drops_put s id t t' :
  drops s -> tasks s !! id = Some t -> (done t' = Running <-> done t = Running) ->
  drops (set_tasks (<[id := t']> (tasks s)) s).
Proof.
  clear gone.
  intros [Hnd Hd] Ht Hr. split; [done|]. intros x. cbn. rewrite Hd.
  destruct (decide (x = id)) as [->|Hne]; [rewrite lookup_insert_eq|by rewrite lookup_insert_ne].
  rewrite Ht. split; intros [? H]; (split; [done|]); intros u [= <-]; specialize (H _ eq_refl); tauto.
Qed.

Lemma drops_kill s id t t' :
  drops s -> tasks s !! id = Some t -> (id < next_id s)%nat -> done t = Running -> done t' <> Running ->
  drops (add_dropped id (set_tasks (<[id := t']> (tasks s)) s)).
Proof.
  clear gone.
  intros [Hnd Hd] Ht Hlt Hr Hr'. split; cbn.
  - apply NoDup_app. split; [done|]. split; [|apply NoDup_singleton].
    intros x Hx ->%list_elem_of_singleton. apply Hd in Hx as [_ Hx]. by apply (Hx t).
  - intros x. rewrite elem_of_app, list_elem_of_singleton, Hd.
    destruct (decide (x = id)) as [->|Hne]; [rewrite lookup_insert_eq|rewrite lookup_insert_ne by done; tauto].
    split; [|by right]. intros _. split; [done|]. by intros u [= <-].
Qed.

Lemma drops_delete s id t :
  drops s -> tasks s !! id = Some t -> done t <> Running -> drops (set_tasks (delete id (tasks s)) s).
Proof.
  intros [Hnd Hd] Ht Hr. split; [done|]. intros x. cbn. rewrite Hd.
  destruct (decide (x = id)) as [->|Hne]; [rewrite lookup_delete_eq|by rewrite lookup_delete_ne].
  rewrite Ht. split; intros [? H]; (split; [done|]); intros u [= <-]; auto.
Qed.

Lemma users_same s s' : tasks s' = tasks s -> user s' = user s -> users s -> users s'.
Proof. intros H1 H2 []. split; rewrite ?H1, ?H2; done. Qed.

Lemma users_put s id t' :
  users s -> (forall f, future t' = Some f -> gone id \/ fok (user s) f) ->
  users (set_tasks (<[id := t']> (tasks s)) s).
Proof.
  intros [Hu Hf] Ht. split; [done|]. cbn. intros x u f [[<- <-]|[Hne Hx]]%lookup_insert_Some; [by apply Ht|].
  by apply (Hf x u f).
Qed.

(** ** Steps that change one part of the invariant *)
Implicit Types (d : doing).

Lemma core_get s L d held id : core s L d held -> id ∈ refs s L held -> exists t, tasks s !! id = Some t.
Proof.
  intros Hc Hin%cnt_elem. pose proof (c_count _ _ _ _ Hc id) as H.
  destruct (tasks s !! id) as [t|]; [by exists t|lia].
Qed.

Lemma refs_held s L held id : id ∈ held -> id ∈ refs s L held.
Proof. intros H. unfold refs. rewrite !elem_of_app. auto. Qed.

Lemma refs_list s L held id : id ∈ L -> id ∈ refs s L held.
Proof. intros H. unfold refs. rewrite !elem_of_app. auto. Qed.

Lemma refs_cons s L held id x : cnt (refs s L (id :: held)) x = cnt (id :: refs s L held) x.
Proof. apply cnt_perm. unfold refs. solve_Permutation. Qed.

(** Two descriptions of what is going on that agree about task [id]. *)
Definition same_at d d' (id : nat) : Prop :=
  (pol d = Some id <-> pol d' = Some id) /\ (rm d = Some id <-> rm d' = Some id) /\
  (id ∈ cn d <-> id ∈ cn d') /\ (ex d = Some id <-> ex d' = Some id).

Lemma same_at_refl d id : same_at d d id.
Proof. done. Qed.

Lemma status_mono q q' L L' d d' id t :
  same_at d d' id -> (id ∈ q -> id ∈ q' \/ ex d' = Some id) -> (id ∈ L <-> id ∈ L') ->
  status q L d id t -> status q' L' d' id t.
Proof.
  clear gone.
  intros (Hp & Hr & Hc & He) Hq HL (H1 & H2 & H3 & H). unfold status, in_queue in *.
  split; [tauto|]. split; [tauto|]. split; [tauto|]. destruct (done t); intuition.
Qed.

(** The fields the invariant reads. *)
Record same_core s s' : Prop := {
  e_user : user s' = user s;
  e_tasks : tasks s' = tasks s;
  e_queue : should_poll s' = should_poll s;
  e_wakers : wakers s' = wakers s;
  e_tokens : tokens s' = tokens s;
  e_next : next_id s' = next_id s;
  e_alive : queue_alive s' = queue_alive s;
}.

Lemma core_same s s' L d held : same_core s s' -> core s L d held -> core s' L d held.
Proof.
  intros [H0 H1 H2 H3 H4 H5 H6] []. split; rewrite ?H1, ?H2, ?H4, ?H5, ?H6; try done.
  intros id. unfold refs. rewrite ?H1, ?H2, ?H3, ?H4. apply c_count0.
Qed.

Lemma linked_same s s' L :
  tasks s' = tasks s -> all_next s' = all_next s -> all_prev s' = all_prev s -> len s' = len s ->
  linked s L -> linked s' L.
Proof. intros H1 H2 H3 H4 []. split; rewrite ?H1, ?H2, ?H3, ?H4; done. Qed.

Lemma sinv_same s s' L d held :
  same_core s s' -> all_next s' = all_next s -> all_prev s' = all_prev s -> len s' = len s ->
  dropped s' = dropped s -> sinv_ s L d held -> sinv_ s' L d held.
Proof.
  intros Hs ? ? ? ? [Hc Hl Hd Hu]. split; [by eapply core_same| | |].
  - eapply linked_same; [apply Hs|done..].
  - eapply drops_same; [apply Hs|done|apply Hs|done].
  - eapply users_same; [apply Hs|apply Hs|done].
Qed.

(** A task changes, but neither its count nor its links. *)
Lemma core_put s L d d' held id t t' :
  core s L d held -> tasks s !! id = Some t -> strong t' = strong t ->
  status (should_poll s) L d' id t' -> (forall x, x <> id -> same_at d d' x) ->
  (id ∈ should_poll s -> queued t' = true) -> (forall x, x ∈ owned t' -> x ∈ owned t) ->
  core (set_tasks (<[id := t']> (tasks s)) s) L d' held.
Proof.
  clear gone.
  intros [Hnd Hq Hcnt Hst Hqu Hf Ho Ha] Ht Hs Hst' Hd Hq' Ho'. split; try done; cbn.
  - intros x. change (refs (set_tasks _ _) L held) with (refs s L held). specialize (Hcnt x).
    destruct (decide (x = id)) as [->|Hne]; [rewrite lookup_insert_eq|by rewrite lookup_insert_ne].
    rewrite Ht in Hcnt. by rewrite Hs.
  - intros x u [[<- <-]|[Hne Hu]]%lookup_insert_Some; [done|].
    eapply status_mono; [|by left|done|by apply Hst]. by apply Hd.
  - intros x u Hx [[<- <-]|[Hne Hu]]%lookup_insert_Some; [by apply Hq'|by eapply Hqu].
  - intros x Hx. apply Hf. apply lookup_insert_is_Some' in Hx as [->|?]; [by eexists|done].
  - intros x u n [[<- <-]|[Hne Hu]]%lookup_insert_Some Hn; [|by eapply Ho].
    eapply (Ho id t); [done|by apply Ho'].
Qed.

Lemma linked_put s L id t t' :
  linked s L -> tasks s !! id = Some t -> next t' = next t -> prev t' = prev t ->
  linked (set_tasks (<[id := t']> (tasks s)) s) L.
Proof.
  intros [Hd Hn Hp Hl] Ht Hnx Hpv. split; try done. cbn. eapply dll_ext; [|done].
  intros x u _ Hu. destruct (decide (x = id)) as [->|Hne].
  - exists t'. rewrite lookup_insert_eq. rewrite Ht in Hu. by injection Hu as <-.
  - exists u. by rewrite lookup_insert_ne.
Qed.

Lemma sinv_put s L d d' held id t t' :
  sinv_ s L d held -> tasks s !! id = Some t ->
  strong t' = strong t -> next t' = next t -> prev t' = prev t ->
  status (should_poll s) L d' id t' -> (forall x, x <> id -> same_at d d' x) ->
  (id ∈ should_poll s -> queued t' = true) -> (forall x, x ∈ owned t' -> x ∈ owned t) ->
  (done t' = Running <-> done t = Running) -> (forall f, future t' = Some f -> gone id \/ fok (user s) f) ->
  sinv_ (set_tasks (<[id := t']> (tasks s)) s) L d' held.
Proof.
  intros [Hc Hl Hd Hu] Ht ? ? ? ? ? ? ? ? ?.
  split; [by eapply core_put|by eapply linked_put|by eapply drops_put|by apply users_put].
Qed.

(** ** The counts *)
Context (E : string -> Prop).

Lemma wp_get_task s id t (Q : task F -> sched F U -> Prop) :
  tasks s !! id = Some t -> Q t s -> wpe (get_task id) s Q E.
Proof. intros Ht HQ. apply wpe_bind, wpe_gets. rewrite Ht. by apply wpe_ret. Qed.

Lemma wp_incr s L d held id t (Q : unit -> sched F U -> Prop) :
  sinv_ s L d held -> tasks s !! id = Some t ->
  (forall s', sinv_ s' L d (id :: held) ->
     s' = set_tasks (<[id := with_strong (strong t + 1) t]> (tasks s)) s -> Q tt s') ->
  wpe (incr_task id) s Q E.
Proof.
  intros [Hc Hl Hd Hu] Ht HQ. apply wpe_bind. eapply wp_get_task; [done|]. apply wpe_modify, HQ; [|done].
  pose proof Hc as [Hnd Hq Hcnt Hst Hqu Hf Ho Ha].
  split; [|by eapply linked_put|by eapply drops_put|(apply users_put; [done|]; intros f; by apply (u_futures _ Hu id t))].
  set (t' := with_strong (strong t + 1) t).
  split; try done; cbn.
  - intros x. change (refs (set_tasks _ _) L (id :: held)) with (refs s L (id :: held)).
    specialize (Hcnt x). rewrite refs_cons, cnt_cons. destruct (decide (x = id)) as [->|Hne].
    + rewrite lookup_insert_eq, decide_True by done. rewrite Ht in Hcnt. cbn [strong t' with_strong]. lia.
    + rewrite lookup_insert_ne, decide_False by congruence. done.
  - intros x u [[<- <-]|[Hne Hxu]]%lookup_insert_Some; [by apply (Hst id t)|by apply Hst].
  - intros x u Hx [[<- <-]|[Hne Hxu]]%lookup_insert_Some; [by apply (Hqu id t)|by eapply Hqu].
  - intros x Hx. apply Hf. apply lookup_insert_is_Some' in Hx as [->|?]; [by eexists|done].
  - intros x u n [[<- <-]|[Hne Hxu]]%lookup_insert_Some Hn; [by eapply (Ho id t)|by eapply Ho].
Qed.

Lemma sinv_delete s L d held id t :
  sinv_ s L d (id :: held) -> tasks s !! id = Some t -> strong t = 1 ->
  sinv_ (set_tasks (delete id (tasks s)) s) L d held.
Proof.
  intros [Hc [Hd Hn Hp Hlen] Hdr [Hu Hfu]] Ht H1. pose proof Hc as [Hnd Hq Hcnt Hst Hqu Hf Ho Ha].
  assert (Hzero : cnt (refs s L held) id = 0%nat).
  { specialize (Hcnt id). rewrite Ht, refs_cons, cnt_cons, decide_True in Hcnt by done. lia. }
  assert (Hout : id ∉ refs s L held) by (rewrite <- cnt_elem; lia).
  split; [|split; try done| |].
  - split; try done; cbn.
    + intros x. change (refs (set_tasks _ _) L held) with (refs s L held).
      specialize (Hcnt x). rewrite refs_cons, cnt_cons in Hcnt. destruct (decide (x = id)) as [->|Hne].
      * by rewrite lookup_delete_eq.
      * rewrite decide_False in Hcnt by congruence. by rewrite lookup_delete_ne.
    + intros x u [Hne Hxu]%lookup_delete_Some. by apply Hst.
    + intros x u Hx [Hne Hxu]%lookup_delete_Some. by eapply Hqu.
    + intros x [Hne Hx]%lookup_delete_is_Some. by apply Hf.
    + intros x u n [Hne Hxu]%lookup_delete_Some. by eapply Ho.
  - cbn. eapply dll_ext; [|exact Hd]. intros x u Hx Hxu. exists u. rewrite lookup_delete_ne; [done|].
    intros <-. apply Hout. by apply refs_list.
  - eapply drops_delete; [done..|]. intros Hr. apply Hout, refs_list.
    destruct (Hst _ _ Ht) as (_ & _ & _ & H). rewrite Hr in H. tauto.
  - split; [done|]. cbn. intros x u f [_ Hx]%lookup_delete_Some. by apply (Hfu x u f).
Qed.

Lemma wp_decr s L d held id (Q : unit -> sched F U -> Prop) :
  sinv_ s L d (id :: held) ->
  (forall m, let s' := set_tasks m s in sinv_ s' L d held -> later 0 s s' ->
     (forall x, x <> id -> m !! x = tasks s !! x) ->
     (forall u, m !! id = Some u -> exists t, tasks s !! id = Some t /\ u = with_strong (strong u) t) -> Q tt s') ->
  wpe (decr_task id) s Q E.
Proof.
  intros Hinv HQ. pose proof Hinv as [Hc Hl Hd Hu].
  destruct (core_get _ _ _ _ id Hc) as [t Ht]; [by apply refs_held; left|].
  apply wpe_bind. eapply wp_get_task; [done|]. pose proof (c_count _ _ _ _ Hc id) as Hcnt.
  rewrite Ht, refs_cons, cnt_cons, decide_True in Hcnt by done.
  destruct (Z.eqb_spec (strong t) 1) as [H1|H1]; apply wpe_modify, HQ.
  - by eapply sinv_delete.
  - apply later_delete.
  - intros x Hx. by rewrite lookup_delete_ne.
  - intros u. by rewrite lookup_delete_eq.
  - pose proof Hc as [Hnd Hq Hcnt' Hst Hqu Hf Ho Ha]. set (t' := with_strong (strong t - 1) t).
    split; [|by eapply linked_put|by eapply drops_put|(apply users_put; [done|]; intros f; by apply (u_futures _ Hu id t))].
    split; try done; cbn.
    + intros x. change (refs (set_tasks _ _) L held) with (refs s L held).
      destruct (decide (x = id)) as [->|Hne].
      * rewrite lookup_insert_eq. cbn [strong t' with_strong]. lia.
      * specialize (Hcnt' x). rewrite refs_cons, cnt_cons, decide_False in Hcnt' by congruence.
        by rewrite lookup_insert_ne.
    + intros x u [[<- <-]|[Hne Hxu]]%lookup_insert_Some; [by apply (Hst id t)|by apply Hst].
    + intros x u Hx [[<- <-]|[Hne Hxu]]%lookup_insert_Some; [by apply (Hqu id t)|by eapply Hqu].
    + intros x Hx. apply Hf. apply lookup_insert_is_Some' in Hx as [->|?]; [by eexists|done].
    + intros x u n [[<- <-]|[Hne Hxu]]%lookup_insert_Some Hn; [by eapply (Ho id t)|by eapply Ho].
  - by eapply later_put.
  - intros x Hx. by rewrite lookup_insert_ne.
  - intros u. rewrite lookup_insert_eq. intros [= <-]. by exists t.
Qed.
End inv.

Arguments FutureSpec F U : clear implicits.
Arguments FutureLaws F U {_}.
Arguments FutureOk F U {_ _}.
Arguments users {F U FS} gone s.
Arguments sinv_ {F U FS} gone s L d held.

(** Mostly there are none. *)
Definition none_returned : nat -> Prop := fun _ => False.
Abbreviation sinv := (sinv_ none_returned).

Lemma sinv_gone {F U} {FS : FutureSpec F U} (gone gone' : nat -> Prop) (s : sched F U) L d held :
  (forall id t, gone id -> tasks s !! id = Some t -> future t <> None -> gone' id) ->
  sinv_ gone s L d held -> sinv_ gone' s L d held.
Proof.
  intros Hg [Hc Hl Hd [Hu Hf]]. split; [done..|]. split; [done|].
  intros id t f Ht Hft. destruct (Hf id t f Ht Hft) as [H|H]; [left|by right].
  apply (Hg id t H Ht). by rewrite Hft.
Qed.

