(* ===== verification/SchedularSafe.v ===== *)
(** * The operations of the scheduler keep its invariant

    Each lemma runs one operation from a state with the invariant: it is defined,
    ends in a state with the invariant, and adds no work. *)

From S2P Require Import Prelude Schedular SchedularInv.
Import Schedular.

(** The future of the task [t] is one of those that are fine. *)
Ltac same_future Hinv t :=
  let f := fresh in intros f; eapply (u_futures _ (s_users _ _ _ _ Hinv) _ t); eassumption.

Section ops.
Context {F U : Type} {FU : Future F U} {FS : FutureSpec F U} {FL : FutureLaws F U}.
Implicit Types (s : sched F U) (L held : list nat) (d : doing) (t : task F).
Context {gone : nat -> Prop} (E : string -> Prop).
#[local] Abbreviation sinv := (sinv_ gone).
#[local] Abbreviation users := (users gone).

(** ** The queue *)

Lemma not_queued s L d held id t :
  core s L d held -> tasks s !! id = Some t -> queued t = false -> id ∉ should_poll s.
Proof. intros Hc Ht Hq Hin. pose proof (c_queued _ _ _ _ Hc id t Hin Ht). congruence. Qed.

(** A task is marked as queued and goes into the queue. *)
Lemma sinv_enqueue s L d d' held id t :
  sinv s L d (id :: held) -> tasks s !! id = Some t -> queued t = false ->
  done t <> Done -> pol d' = pol d -> rm d' = rm d ->
  (id ∈ cn d' -> id ∈ cn d) -> (forall x, x <> id -> same_at d d' x) ->
  sinv (set_should_poll (should_poll s ++ [id]) (set_tasks (<[id := with_queued true t]> (tasks s)) s))
    L d' held.
Proof.
  intros [Hc Hl Hd Hus] Ht Hq Hdn Hpol Hrm Hcn Hsame.
  pose proof (not_queued _ _ _ _ _ _ Hc Ht Hq) as Hout. pose proof Hc as [Hnd Hqn Hcnt Hst Hqu Hf Ho Ha].
  set (s1 := set_tasks (<[id := with_queued true t]> (tasks s)) s).
  split; [|eapply (linked_same s1); [done..|by eapply linked_put]
          |eapply (drops_same s1); [done..|by eapply drops_put]
          |eapply (users_same s1); [done..|apply users_put; [done|]; intros f; by apply (u_futures _ Hus id t)]].
  split; try done; cbn.
  - apply NoDup_app. split; [done|]. split; [|apply NoDup_singleton].
    intros x Hx ->%list_elem_of_singleton. done.
  - intros x. specialize (Hcnt x). rewrite refs_cons in Hcnt.
    assert (cnt (refs (set_should_poll (should_poll s ++ [id]) s1) L held) x = cnt (id :: refs s L held) x) as ->.
    { apply cnt_perm. unfold refs. cbn. solve_Permutation. }
    destruct (decide (x = id)) as [->|Hne]; [rewrite lookup_insert_eq|by rewrite lookup_insert_ne].
    by rewrite Ht in Hcnt.
  - intros x u [[<- <-]|[Hne Hu]]%lookup_insert_Some.
    + destruct (Hst _ _ Ht) as (H1 & H2 & H3 & H). unfold status, in_queue in *. cbn.
      rewrite Hpol, Hrm. split; [done|]. split; [done|]. split; [auto|].
      assert (id ∈ should_poll s ++ [id]) by (apply elem_of_app; right; by left).
      destruct (done t); [|intuition congruence|done]. destruct H as (? & ? & ?).
      split; [done|]. split; [done|]. by left.
    + eapply status_mono; [by apply Hsame| |done|by apply Hst].
      intros Hx. left. apply elem_of_app. by left.
  - intros x u Hx [[<- <-]|[Hne Hu]]%lookup_insert_Some; [done|].
    apply elem_of_app in Hx as [Hx|Hx%list_elem_of_singleton]; [by eapply Hqu|congruence].
  - intros x Hx. apply Hf. apply lookup_insert_is_Some' in Hx as [->|?]; [by eexists|done].
  - intros x u n [[<- <-]|[Hne Hu]]%lookup_insert_Some Hn; [by eapply (Ho id t)|by eapply Ho].
Qed.

(** Without the queue no task is left that could go into it. *)
Lemma queue_still_alive s L d held id : core s L d held -> id ∈ L -> queue_alive s = true.
Proof.
  intros Hc HL. destruct (queue_alive s) eqn:Ha; [done|].
  apply (c_alive _ _ _ _ Hc) in Ha as ->. by apply not_elem_of_nil in HL.
Qed.

Lemma armed_wake s w w0 o :
  registered s = Some w -> armed w0 o s -> armed w0 o (add_outer_woken w (set_registered None s)).
Proof.
  intros Hr (l & Ho & Hw). exists (l ++ [w]). cbn. rewrite Ho, <- app_assoc. split; [done|].
  right. rewrite elem_of_app, list_elem_of_singleton. destruct Hw as [Hw|Hw]; [right; congruence|by left].
Qed.

Lemma armed_outer s w w0 o : armed w0 o s -> armed w0 o (add_outer_woken w s).
Proof. clear gone.
  intros (l & Ho & Hw). exists (l ++ [w]). cbn. rewrite Ho, <- app_assoc. split; [done|].
  rewrite elem_of_app. tauto.
Qed.

(** What [wake] leaves of a state. *)
Definition woken s s' : Prop :=
  exists r o, s' = set_registered r s \/ s' = add_outer_woken o (set_registered r s).

Lemma wp_queue_wake s (Q : unit -> sched F U -> Prop) :
  (registered s = None -> Q tt s) ->
  (forall w, registered s = Some w -> Q tt (add_outer_woken w (set_registered None s))) ->
  wpe queue_wake s Q E.
Proof.
  intros H1 H2. apply wpe_bind, wpe_gets. destruct (registered s) as [w|] eqn:Hr.
  - apply wpe_bind, wpe_modify, wpe_modify. by apply H2.
  - apply wpe_ret. by apply H1.
Qed.

(** A value is taken out of the queue. *)
Lemma sinv_dequeue s L d held id q :
  sinv s L d held -> ex d = None -> should_poll s = id :: q ->
  sinv (set_should_poll q s) L {| pol := pol d; rm := rm d; cn := cn d; ex := Some id |} (id :: held).
Proof.
  intros [Hc [Hd Hn Hp Hlen] Hdr Hus] Hex Hq. pose proof Hc as [Hnd Hqn Hcnt Hst Hqu Hf Ho Ha].
  split; [|by split|by apply (drops_same s)|by apply (users_same s)].
  split; try done; cbn.
  - rewrite Hq in Hqn. by apply NoDup_cons in Hqn as [_ ?].
  - intros x. specialize (Hcnt x).
    assert (cnt (refs (set_should_poll q s) L (id :: held)) x = cnt (refs s L held) x) as ->; [|done].
    apply cnt_perm. unfold refs. cbn. rewrite Hq. solve_Permutation.
  - intros x t Ht. specialize (Hst x t Ht). rewrite Hq in Hst. unfold status, in_queue in *. cbn.
    assert (H : x ∈ id :: q \/ ex d = Some x -> x ∈ q \/ Some id = Some x).
    { intros [[->|?]%elem_of_cons|?]; [by right|by left|congruence]. }
    destruct (done t); intuition.
  - intros x t Hx. apply Hqu. rewrite Hq. by right.
Qed.

(** No push in progress makes [pop] report an empty queue that is not. *)
Definition sees_all s : Prop := forall g, gap s = Some g -> gap_inconsistant g = true.

Definition gaps s : nat := match gap s with Some _ => 1 | None => 0 end.

Lemma wp_q_pop s L d held (Q : Pop -> sched F U -> Prop) :
  sinv s L d held -> ex d = None ->
  (gaps s = 1%nat -> Q Inconsistant (set_gap None s)) ->
  (forall g, let s' := set_gap g s in
     (sees_all s -> should_poll s = [] /\ sees_all s') -> Q Empty s') ->
  (forall id q g, let s' := set_gap g (set_should_poll q s) in
     should_poll s = id :: q -> id ∉ q -> (sees_all s -> sees_all s') -> (gaps s' <= gaps s)%nat ->
     (forall t, tasks s !! id = Some t -> queued t = true) ->
     sinv s' L {| pol := pol d; rm := rm d; cn := cn d; ex := Some id |} (id :: held) ->
     Q (Value id) s') ->
  wpe q_pop s Q E.
Proof.
  intros Hinv Hex Hinc Hemp Hval. apply wpe_bind, wpe_gets.
  assert (Hrest : forall g, (gap s = None -> g = None) ->
    (sees_all s -> forall g', g = Some g' -> gap_inconsistant g' = true) ->
    wpe (let! q := gets should_poll in
         match q with
         | [] => ret Empty
         | id :: q => do! modify (set_should_poll q) in do! modify (set_gap g) in ret (Value id)
         end) s Q E).
  { intros g Hg Hs. apply wpe_bind, wpe_gets. destruct (should_poll s) as [|id q] eqn:Hq.
    - apply wpe_ret. replace s with (set_gap (gap s) s) by by destruct s. by apply Hemp.
    - apply wpe_bind, wpe_modify, wpe_bind, wpe_modify, wpe_ret. apply Hval; try done.
      + pose proof (c_queue _ _ _ _ (s_core _ _ _ _ Hinv)) as Hnd. rewrite Hq in Hnd.
        by apply NoDup_cons in Hnd as [? _].
      + unfold gaps. cbn. destruct (gap s); [destruct g; lia|by rewrite Hg].
      + intros t. apply (c_queued _ _ _ _ (s_core _ _ _ _ Hinv)). rewrite Hq. left.
      + eapply sinv_same; [| | | | |by eapply sinv_dequeue]; by try split. }
  unfold gaps, sees_all in *. destruct (gap s) as [[[|n] b]|] eqn:Hg.
  - apply wpe_bind, wpe_modify. destruct b; apply wpe_ret; [by apply Hinc|].
    apply Hemp. intros H. by specialize (H _ eq_refl).
  - apply Hrest; [done|]. intros H g' [= <-]. by apply (H _ eq_refl).
  - by apply Hrest.
Qed.

(** ** Tokens and wakers *)
Lemma core_refs s s' L L' d held held' :
  tasks s' = tasks s -> should_poll s' = should_poll s -> next_id s' = next_id s ->
  queue_alive s' = queue_alive s ->
  refs s' L held' ≡ₚ refs s L held ->
  (forall n c, tokens s' !! n = Some (Some c) -> tokens s !! n = Some (Some c) \/ (next_id s <= c)%nat) ->
  (length (tokens s) <= length (tokens s'))%nat ->
  core s L d held -> core s' L d held'.
Proof.
  intros H1 H2 H3 H4 Hr Ht Hlen [Hnd Hq Hcnt Hst Hqu Hf Ho Ha].
  split; rewrite ?H1, ?H2, ?H3, ?H4; try done.
  - intros id. rewrite (cnt_perm _ _ id Hr). apply Hcnt.
  - intros id t n Hid Hn. destruct (Ho id t n Hid Hn) as [Hlt Hc]. split; [lia|].
    intros c [Hc'|Hc']%Ht; [by apply Hc|]. specialize (Hf id). rewrite Hid in Hf.
    assert (id < next_id s)%nat by by apply Hf. lia.
Qed.

Lemma sinv_take_token s L d held n c :
  sinv s L d held -> tokens s !! n = Some (Some c) ->
  sinv (set_tokens (<[n := None]> (tokens s)) s) L d (c :: held).
Proof.
  intros [Hc Hl Hd Hus] Hn. split; [|by apply (linked_same s)|by apply (drops_same s)|by apply (users_same s)].
  eapply (core_refs s); try done; cbn.
  - unfold refs. cbn. rewrite (live_take _ _ _ Hn). solve_Permutation.
  - intros m x [(_ & ? & _)|[_ ?]]%list_lookup_insert_Some; [done|by left].
  - by rewrite length_insert.
Qed.

Lemma later_take_token s n : later 0 s (set_tokens (<[n := None]> (tokens s)) s).
Proof.
  split; [|done]. split; try done; cbn.
  - by rewrite length_insert.
  - intros m x [(_ & ? & _)|[_ ?]]%list_lookup_insert_Some; done.
Qed.

Lemma sinv_take_waker s L d held n c :
  sinv s L d held -> wakers s !! n = Some (Some c) ->
  sinv (set_wakers (<[n := None]> (wakers s)) s) L d (c :: held).
Proof.
  intros [Hc Hl Hd Hus] Hn. split; [|by apply (linked_same s)|by apply (drops_same s)|by apply (users_same s)].
  eapply (core_refs s); try done; cbn; [|auto].
  unfold refs. cbn. rewrite (live_take _ _ _ Hn). solve_Permutation.
Qed.

Lemma sinv_add_waker s L d held c :
  sinv s L d (c :: held) -> sinv (set_wakers (wakers s ++ [Some c]) s) L d held.
Proof.
  intros [Hc Hl Hd Hus]. split; [|by apply (linked_same s)|by apply (drops_same s)|by apply (users_same s)].
  eapply (core_refs s); try done; cbn; [|auto].
  unfold refs. cbn. rewrite live_snoc. solve_Permutation.
Qed.
(** A waker is used by value or by reference. *)
Lemma live_waker s L d held i id :
  sinv s L d held -> wakers s !! i = Some (Some id) -> is_Some (tasks s !! id).
Proof.
  intros [Hc _ _ _] Hi. destruct (core_get _ _ _ _ id Hc) as [t ->]; [|by eexists].
  unfold refs. rewrite !elem_of_app, (live_take _ _ _ Hi), elem_of_cons. tauto.
Qed.

Lemma later_wakers s l : later 0 s (set_wakers l s).
Proof. by split; [split|]. Qed.

Lemma wp_use_waker i b f s L d held (Q : unit -> sched F U -> Prop) :
  sinv s L d held ->
  (forall id s', sinv s' L d (if b : bool then id :: held else held) -> later 0 s s' ->
     is_Some (tasks s' !! id) -> wpe (f id) s' Q E) ->
  Q tt s -> wpe (use_waker i b f) s Q E.
Proof.
  intros Hinv Hf HQ. apply wpe_bind, wpe_gets. destruct (wakers s !! i) as [[id|]|] eqn:Hi; [|by apply wpe_ret..].
  apply wpe_bind. pose proof (live_waker _ _ _ _ _ _ Hinv Hi) as Hid. destruct b.
  - apply wpe_modify, Hf; [by apply sinv_take_waker|apply later_wakers|done].
  - apply wpe_ret, Hf; [done|apply later_refl|done].
Qed.

(** ** Dropping futures and tokens *)
Lemma wp_for_each {A} (f : A -> M (sched F U) unit) l s (I : sched F U -> Prop) (Q : unit -> sched F U -> Prop) :
  (forall n s', n ∈ l -> I s' -> wpe (f n) s' (fun _ => I) E) ->
  I s -> (forall s', I s' -> Q tt s') -> wpe (for_each f l) s Q E.
Proof.
  revert s. induction l as [|n l IH]; intros s Hf Hs HQ; cbn [for_each]; [by apply wpe_ret, HQ|].
  apply wpe_bind. eapply wpe_post; [apply Hf; [left|done]|]. intros [] s' Hs'.
  apply IH; [|done..]. intros n' s'' Hn. apply Hf. by right.
Qed.

(** A sub-operation on [n] keeps the invariant and adds no work. *)
Definition drops_well {A} (f : A -> M (sched F U) unit) (n : A) s L d held : Prop :=
  wpe (f n) s (fun _ s' => sinv s' L d held /\ later 0 s s') E.

Lemma wp_for_each_drop {A} (f : A -> M (sched F U) unit) l s L d held (Q : unit -> sched F U -> Prop) :
  (forall n s', n ∈ l -> sinv s' L d held -> later 0 s s' -> drops_well f n s' L d held) ->
  sinv s L d held -> (forall s', sinv s' L d held -> later 0 s s' -> Q tt s') ->
  wpe (for_each f l) s Q E.
Proof.
  intros Hf Hs HQ.
  apply (wp_for_each f l s (fun s' => sinv s' L d held /\ later 0 s s')).
  - intros n s' Hn [H1 H2]. eapply wpe_post; [by apply Hf|]. intros [] s'' [H3 H4].
    split; [done|]. by eapply (later_trans 0 0).
  - split; [done|apply later_refl].
  - intros s' [? ?]. by apply HQ.
Qed.

Lemma wp_drop_waker i s L d held :
  sinv s L d held -> drops_well (fun i => use_waker i true schedular_drop) i s L d held.
Proof.
  intros Hinv. eapply wp_use_waker; [done| |split; [done|apply later_refl]].
  intros id s1 Hinv1 Hlt1 _. eapply wp_decr; [done|]. intros m s' Hs' Hlt _ _.
  split; [done|]. by eapply (later_trans 0 0).
Qed.

(** The task [id] stops running and its future goes away. *)
Lemma sinv_kill s L d d' held id t t' :
  sinv s L d held -> tasks s !! id = Some t -> done t = Running -> done t' <> Running ->
  strong t' = strong t -> next t' = next t -> prev t' = prev t -> owned t' = [] -> future t' = None ->
  status (should_poll s) L d' id t' -> (forall x, x <> id -> same_at d d' x) ->
  (id ∈ should_poll s -> queued t' = true) ->
  sinv (add_dropped id (set_tasks (<[id := t']> (tasks s)) s)) L d' held.
Proof.
  intros [Hc Hl Hd Hus] Ht Hr Hr' ? ? ? Ho Hfu ? ? ?.
  set (s1 := set_tasks (<[id := t']> (tasks s)) s).
  split.
  - eapply (core_same s1); [by split|]. eapply core_put; try done. rewrite Ho. by intros n ?%not_elem_of_nil.
  - eapply (linked_same s1); [done..|by eapply linked_put].
  - eapply drops_kill; try done. apply (c_fresh _ _ _ _ Hc). by eexists.
  - apply (users_same s1); [done..|]. apply users_put; [done|]. by rewrite Hfu.
Qed.

(** Two units of work are gone with the future. *)
Lemma pot_kill s L d held id t t' f :
  core s L d held -> tasks s !! id = Some t -> future t = Some f -> future t' = None ->
  (pot (add_dropped id (set_tasks (<[id := t']> (tasks s)) s)) + 2 <= pot s)%nat.
Proof.
  intros Hc Ht Hf Hf'. unfold pot. cbn.
  assert (Hlt : (id < next_id s)%nat) by (apply (c_fresh _ _ _ _ Hc); by eexists).
  pose proof (weight_insert (user s) (tasks s) (next_id s) id t t' Ht Hlt) as Hw.
  assert (task_weight (user s) t' = 0%nat) as H' by (unfold task_weight; by rewrite Hf').
  assert (2 <= task_weight (user s) t)%nat.
  { unfold task_weight. rewrite Hf. pose proof (fsize_pos (user s) f). lia. }
  lia.
Qed.

Lemma running_future s L d held id t :
  core s L d held -> tasks s !! id = Some t -> done t = Running -> pol d <> Some id ->
  id ∈ L /\ exists f, future t = Some f.
Proof.
  intros Hc Ht Hr Hp. destruct (c_status _ _ _ _ Hc _ _ Ht) as (_ & _ & _ & H). rewrite Hr in H.
  destruct H as (HL & Hf & _). split; [done|]. destruct (future t) as [f|]; [by eexists|].
  exfalso. by apply Hp, Hf.
Qed.

(** [drop_task] just after the task was marked as [X]. *)
Lemma wp_drop_task f s L d d' held id t X (Q : unit -> sched F U -> Prop) :
  sinv s L d held -> tasks s !! id = Some t -> done t = Running -> X <> Running ->
  pol d <> Some id -> status (should_poll s) L d' id (with_done X (with_future None [] t)) ->
  (forall x, x <> id -> same_at d d' x) ->
  (forall x s', x ∈ owned t -> sinv s' L d' held -> frame s s' ->
     drops_well (drop_thing f) x s' L d' held) ->
  (forall s', sinv s' L d' held -> frame s s' -> (pot s' + 2 <= pot s)%nat -> id ∈ dropped s' -> Q tt s') ->
  wpe (drop_task f id) (set_tasks (<[id := with_done X t]> (tasks s)) s) Q E.
Proof.
  intros Hinv Ht Hr HX Hp Hst Hd Hf HQ. pose proof Hinv as [Hc _ _ _].
  destruct (running_future _ _ _ _ _ _ Hc Ht Hr Hp) as (HL & fu & Hfu).
  apply wpe_bind. eapply wp_get_task; [cbn; apply lookup_insert_eq|]. apply wpe_bind.
  eapply wpe_deref; [exact Hfu|]. apply wpe_bind, wpe_modify. cbn. rewrite insert_insert_eq.
  apply wpe_bind, wpe_modify.
  set (t' := with_future None [] (with_done X t)). cbn [owned with_done].
  match goal with |- wpe _ ?s1 _ _ =>
    change s1 with (add_dropped id (set_tasks (<[id := t']> (tasks s)) s))
  end.
  assert (Hk : sinv (add_dropped id (set_tasks (<[id := t']> (tasks s)) s)) L d' held).
  { eapply sinv_kill; try done. intros Hin. by apply (c_queued _ _ _ _ Hc id t). }
  pose proof (pot_kill s L d held id t t' fu Hc Ht Hfu eq_refl) as Hpot.
  assert (Hfr0 : frame s (add_dropped id (set_tasks (<[id := t']> (tasks s)) s))).
  { split; try done. intros x Hx. apply elem_of_app. by left. }
  eapply (wp_for_each_drop (drop_thing f) _ _ L d' held); [|exact Hk|].
  - intros n s' Hn Hs' [Hfr _]. apply Hf; [by apply elem_of_reverse|done|]. by eapply frame_trans.
  - intros s' Hs' [Hfr Hle]. apply HQ; [done| |lia|]; [by eapply frame_trans|].
    apply (lt_dropped _ _ Hfr), elem_of_app. right. by left.
Qed.
(** Tokens inside the future of [id] are for newer tasks, or used up. *)
Lemma owned_newer s s' L d held id t n :
  core s L d held -> tasks s !! id = Some t -> Tok n ∈ owned t -> frame s s' ->
  forall c, tokens s' !! n = Some (Some c) -> (id < c)%nat.
Proof.
  intros Hc Ht Hn Hfr c Hs'. destruct (c_owned _ _ _ _ Hc _ _ _ Ht Hn) as [_ H].
  by apply H, (lt_token _ _ Hfr).
Qed.

Definition cancelling d id : doing := {| pol := pol d; rm := rm d; cn := id :: cn d; ex := ex d |}.

Lemma same_cancelling d id x : x <> id -> same_at d (cancelling d id) x.
Proof. intros Hx. unfold same_at. cbn. rewrite elem_of_cons. intuition. Qed.

(** A cancelled task that is already marked as queued needs nothing more. *)
Lemma sinv_cancelled s L d held id t :
  sinv s L (cancelling d id) held -> tasks s !! id = Some t -> queued t = true -> sinv s L d held.
Proof.
  intros [[Hnd Hq Hcnt Hst Hqu Hf Ho Ha] Hl Hd Hus] Ht Hqt. split; [|done..]. split; try done.
  intros x u Hu. pose proof (Hst x u Hu) as H. destruct (decide (x = id)) as [->|Hne].
  - rewrite Ht in Hu. injection Hu as <-. destruct H as (H1 & H2 & H3 & H).
    assert (done t = Cancelled) as Hdn by by (apply H3; left).
    unfold status, in_queue in *. cbn in *. rewrite Hdn in *.
    split; [done|]. split; [done|]. split; [done|]. destruct H as (? & ? & ? & ?).
    split; [done|]. split; [done|]. split; [done|congruence].
  - eapply status_mono; [|by left|done|exact H]. destruct (same_cancelling d id x Hne) as (? & ? & ? & ?).
    unfold same_at. tauto.
Qed.

(** The end of a cancellation: the task goes into the queue so that it will be
    removed, unless it is there. *)
Lemma wp_cancel_queue s L d held id (Q : unit -> sched F U -> Prop) :
  sinv s L (cancelling d id) (id :: held) ->
  (forall s', sinv s' L d held -> frame s s' -> (pot s' <= 1 + pot s)%nat -> Q tt s') ->
  wpe (let! ok := set_queued id in
       if (ok : bool) then
         let! alive := gets queue_alive in
         if (alive : bool) then do! queue_wake in q_push id
         else decr_task id
       else decr_task id) s Q E.
Proof.
  intros Hinv HQ. pose proof Hinv as [Hc _ _ _].
  destruct (core_get _ _ _ _ id Hc) as [t Ht]; [by apply refs_held; left|].
  destruct (c_status _ _ _ _ Hc _ _ Ht) as (_ & _ & Hcn & Hst).
  assert (done t = Cancelled) as Hdn by (apply Hcn; left). rewrite Hdn in Hst. destruct Hst as (HL & _).
  apply wpe_bind, wpe_bind. eapply wp_get_task; [done|]. destruct (queued t) eqn:Hqt.
  { apply wpe_ret. eapply wp_decr; [by eapply sinv_cancelled|].
    intros m s' Hs' [Hfr Hpot] _ _. apply HQ; [done..|lia]. }
  apply wpe_bind, wpe_modify, wpe_ret, wpe_bind, wpe_gets. cbn [queue_alive set_tasks].
  rewrite (queue_still_alive _ _ _ _ _ Hc HL).
  assert (Hs' : sinv (set_should_poll (should_poll s ++ [id])
            (set_tasks (<[id := with_queued true t]> (tasks s)) s)) L d held).
  { eapply (sinv_enqueue s L (cancelling d id)); try done; [congruence|by right|].
    intros x Hx. destruct (same_cancelling d id x Hx) as (? & ? & ? & ?). unfold same_at. tauto. }
  destruct (later_put s id t (with_queued true t) Ht ltac:(done)) as [Hfr Hpot].
  assert (Hpot' : forall s', user s' = user s -> tasks s' = <[id := with_queued true t]> (tasks s) -> next_id s' = next_id s ->
    should_poll s' = should_poll s ++ [id] -> (pot s' <= 1 + pot s)%nat).
  { intros s' H0 H1 H2 H3. unfold pot in *. rewrite H0, H1, H2, H3, length_app. cbn in *. lia. }
  apply wpe_bind, wp_queue_wake.
  - intros _. apply wpe_modify, HQ; [eapply sinv_same; [| | | | |exact Hs']; by try split| |by apply Hpot'].
    eapply frame_trans; [exact Hfr|]. by split.
  - intros w Hr. apply wpe_modify, HQ; [eapply sinv_same; [| | | | |exact Hs']; by try split| |by apply Hpot'].
    eapply frame_trans; [exact Hfr|]. split; try done. intros w0 o Ha. exact (armed_wake _ w w0 o Hr Ha).
Qed.

Lemma wp_drop_cancel_token f s L d held id (Q : unit -> sched F U -> Prop) :
  sinv s L d (id :: held) -> (forall p, pol d = Some p -> (p < id)%nat) ->
  (forall n s' d' held', sinv s' L d' held' -> pol d' = pol d -> next_id s' = next_id s ->
     (forall c, tokens s' !! n = Some (Some c) -> (id < c)%nat) -> drops_well f n s' L d' held') ->
  (forall s', sinv s' L d held -> later 0 s s' -> id ∈ dropped s' -> Q tt s') ->
  wpe (drop_cancel_token f id) s Q E.
Proof.
  intros Hinv Hp Hf HQ. pose proof Hinv as [Hc _ _ _].
  destruct (core_get _ _ _ _ id Hc) as [t Ht]; [by apply refs_held; left|].
  assert (Hdecr : done t <> Running -> wpe (decr_task id) s Q E).
  { intros Hdn. eapply wp_decr; [done|]. intros m s' Hs' Hlt _ _. apply HQ; [done..|].
    apply (d_dropped _ (s_drops _ _ _ _ Hinv)). split; [|congruence].
    apply (c_fresh _ _ _ _ Hc). by eexists. }
  apply wpe_bind. eapply wp_get_task; [done|]. destruct (done t) eqn:Hdn; [|by apply Hdecr..].
  apply wpe_bind, wpe_modify, wpe_bind.
  destruct (c_status _ _ _ _ Hc _ _ Ht) as (H1 & H2 & H3 & Hst). rewrite Hdn in Hst.
  destruct Hst as (HL & _ & Hqd).
  eapply (wp_drop_task f s L d (cancelling d id)); try done.
  - intros Hpol%Hp. lia.
  - split; [intros Hpol%Hp; lia|]. split; [intros Hrm; apply H2 in Hrm; congruence|]. split; [done|]. cbn.
    split; [done|]. split; [done|]. split; [exact Hqd|]. intros _. left.
  - apply same_cancelling.
  - intros [n|i] s' Hn Hs' Hfr; [|by apply (wp_drop_waker i)].
    apply Hf; [done..|apply (lt_next _ _ Hfr)|]. by eapply owned_newer.
  - intros s' Hs' Hfr Hpot Hin. eapply wp_cancel_queue; [exact Hs'|].
    intros s'' Hs'' Hfr' Hpot'. apply HQ; [done| |by apply (lt_dropped _ _ Hfr')].
    split; [by eapply frame_trans|lia].
Qed.

(** What may be dropped: tokens for tasks newer than the one being polled. *)
Definition droppable d (n : nat) s : Prop :=
  forall c, tokens s !! n = Some (Some c) -> forall p, pol d = Some p -> (p < c)%nat.

(** The recursion goes to newer tasks only, so that the fuel is enough. *)
Lemma wp_drop_token_ fuel n s L d held :
  sinv s L d held -> droppable d n s ->
  (0 < fuel)%nat -> (forall c, tokens s !! n = Some (Some c) -> (next_id s < fuel + c)%nat) ->
  wpe (drop_token_ fuel n) s (fun _ s' => (sinv s' L d held /\ later 0 s s') /\
    forall c, tokens s !! n = Some (Some c) -> c ∈ dropped s' /\ tokens s' !! n = Some None) E.
Proof.
  revert n s d held. induction fuel as [|fuel IH]; intros n s d held Hinv Hpol Hf0 Hfuel; [lia|].
  cbn [drop_token_]. apply wpe_bind, wpe_gets.
  destruct (tokens s !! n) as [[c|]|] eqn:Hn;
    [|apply wpe_ret; split; [split; [done|apply later_refl]|done]..].
  apply wpe_bind, wpe_modify. pose proof (sinv_take_token _ _ _ _ _ _ Hinv Hn) as Hinv'.
  assert (Hc : (c < next_id s)%nat).
  { pose proof Hinv' as [Hc _ _ _]. destruct (core_get _ _ _ _ c Hc) as [t Ht]; [by apply refs_held; left|].
    apply (c_fresh _ _ _ _ Hc). by eexists. }
  specialize (Hfuel c eq_refl). pose proof (later_take_token s n) as Hlt.
  eapply wp_drop_cancel_token; [exact Hinv'|by apply Hpol| |].
  - intros n' s' d' held' Hs' Hpol' Hnx Hnew. cbn in Hnx.
    eapply wpe_post; [apply IH; [done| |lia|]|by intros [] s'' [? _]].
    + intros c' Hc' p Hp. rewrite Hpol' in Hp. pose proof (Hpol c Hn p Hp). pose proof (Hnew c' Hc'). lia.
    + intros c' Hc'. pose proof (Hnew c' Hc'). lia.
  - intros s' Hs' Hlt' Hin. split; [split; [done|by eapply (later_trans 0 0)]|].
    intros c' [= <-]. split; [done|]. destruct Hlt' as [Hfr _].
    destruct (tokens s' !! n) as [[c'|]|] eqn:Hn'; [|done|].
    + apply (lt_token _ _ Hfr) in Hn'. cbn in Hn'. by rewrite list_lookup_insert_eq in Hn' by by eapply lookup_lt_Some.
    + apply lookup_ge_None in Hn'. rewrite (lt_len _ _ Hfr) in Hn'. cbn in Hn'.
      rewrite length_insert in Hn'. apply lookup_lt_Some in Hn. lia.
Qed.

Lemma wp_drop_token_drops n s L d held :
  sinv s L d held -> droppable d n s ->
  wpe (drop_token n) s (fun _ s' => (sinv s' L d held /\ later 0 s s') /\
    forall c, tokens s !! n = Some (Some c) -> c ∈ dropped s' /\ tokens s' !! n = Some None) E.
Proof.
  intros Hinv Hn. apply wpe_bind, wpe_gets. apply wp_drop_token_; [done..|lia|]. intros. lia.
Qed.

Lemma wp_drop_token n s L d held :
  sinv s L d held -> droppable d n s -> drops_well drop_token n s L d held.
Proof.
  intros Hinv Hn. eapply wpe_post; [by apply wp_drop_token_drops|]. by intros [] s' [? _].
Qed.

Definition droppable_thing d (x : thing) s : Prop :=
  match x with Tok n => droppable d n s | Wak _ => True end.

Lemma wp_drop_thing x s L d held :
  sinv s L d held -> droppable_thing d x s -> drops_well (drop_thing drop_token) x s L d held.
Proof. destruct x as [n|i]; intros Hinv Hn; [by apply wp_drop_token|by apply (wp_drop_waker i)]. Qed.

(** ** Taking a task out of the list *)

(** The task [id] between [l1] and [l2], where the list before it goes on to [n]
    and the list after it comes from [p]. *)
Record cut s (l1 l2 : list nat) (id : nat) d held (p n : option nat) : Prop := {
  g_core : core s (l1 ++ id :: l2) d held;
  g_drops : drops s;
  g_before : dll (tasks s) None l1 n;
  g_after : dll (tasks s) p l2 None;
  g_id : exists t, tasks s !! id = Some t /\ prev t = last l1 /\ next t = head l2;
  g_len : len s = Z.of_nat (length (l1 ++ id :: l2));
  g_users : users s;
}.

Lemma cut_start s l1 l2 id d held :
  sinv s (l1 ++ id :: l2) d held -> cut s l1 l2 id d held (Some id) (Some id).
Proof.
  intros [Hc [Hd Hn Hp Hl] Hdr Hus]. apply dll_app in Hd as [H1 [(t & Ht & Htp & Htn) H2]].
  split; try done. exists t. split; [done|]. split; [rewrite Htp; by destruct (last l1)|by destruct l2].
Qed.

Lemma cut_end s l1 l2 id d held :
  cut s l1 l2 id d held (last l1) (head l2) -> dll (tasks s) None (l1 ++ l2) None.
Proof.
  intros [_ _ H1 H2 _ _ _]. apply dll_app. split; [by destruct l2|by destruct (last l1)].
Qed.

Lemma cut_nodup s l1 l2 id d held p n :
  cut s l1 l2 id d held p n ->
  NoDup l1 /\ NoDup l2 /\ (id ∉ l1) /\ (id ∉ l2) /\ (forall x, x ∈ l1 -> x ∉ l2).
Proof.
  intros Hcut. pose proof (c_nodup _ _ _ _ (g_core _ _ _ _ _ _ _ _ Hcut)) as Hnd.
  apply NoDup_app in Hnd as (H1 & H2 & (H3 & H4)%NoDup_cons).
  split_and!; try done.
  - intros Hin. apply (H2 id Hin). left.
  - intros x Hx Hx'. apply (H2 x Hx). by right.
Qed.

(** The links of another task change. *)
Lemma core_relink s L d held x t t' :
  core s L d held -> tasks s !! x = Some t -> strong t' = strong t -> done t' = done t ->
  queued t' = queued t -> future t' = future t -> owned t' = owned t ->
  core (set_tasks (<[x := t']> (tasks s)) s) L d held.
Proof.
  intros Hc Ht Hs Hd Hq Hf Ho. eapply core_put; try done.
  - pose proof (c_status _ _ _ _ Hc _ _ Ht) as H. unfold status in *. by rewrite Hd, Hf, Hq.
  - intros Hin. rewrite Hq. by apply (c_queued _ _ _ _ Hc x t).
  - by rewrite Ho.
Qed.

Lemma wp_unlink_next s l1 l2 id t d held (Q : unit -> sched F U -> Prop) :
  cut s l1 l2 id d held (Some id) (Some id) -> tasks s !! id = Some t ->
  all_prev s = last (l1 ++ id :: l2) ->
  (forall s', cut s' l1 l2 id d held (last l1) (Some id) -> later 0 s s' ->
     all_prev s' = last (l1 ++ l2) -> all_next s' = all_next s -> Q tt s') ->
  wpe (match next t with
       | Some n => upd_task n (with_prev (prev t))
       | None => modify (set_all_prev (prev t))
       end) s Q E.
Proof.
  intros Hcut Ht Hp HQ. destruct (cut_nodup _ _ _ _ _ _ _ _ Hcut) as (Hn1 & Hn2 & Hi1 & Hi2 & H12).
  destruct Hcut as [Hc Hd H1 H2 (t0 & Ht0 & Hprev & Hnext) Hl Hus].
  rewrite Ht in Ht0. injection Ht0 as <-. rewrite Hnext, Hprev. destruct l2 as [|n l2]; cbn [head].
  - apply wpe_modify, HQ; [|by split; [split|]|cbn; by rewrite app_nil_r|done].
    split; try done; [by eapply (core_same s); [split|]|by eapply (drops_same s)|by exists t|by apply (users_same s)].
  - destruct H2 as [(tn & Htn & Hpn & Hnn) H2]. apply wpe_bind. eapply wp_get_task; [done|].
    apply wpe_modify, HQ; [|by eapply later_put| |done].
    + split; cbn; try done.
      * by eapply core_relink.
      * by eapply drops_put.
      * apply dll_insert_out; [|done]. intros Hx. apply (H12 n Hx). left.
      * eapply dll_set_prev; [done..|]. split; [by exists tn|done].
      * exists t. rewrite lookup_insert_ne; [done|]. intros ->. apply Hi2. left.
      * apply users_put; [done|]. intros f. by apply (u_futures _ Hus n tn).
    + cbn. rewrite Hp, !last_app. cbn. by destruct (last (n :: l2)) eqn:Hla; [|apply last_None in Hla].
Qed.

Lemma wp_unlink_prev s l1 l2 id t d held (Q : unit -> sched F U -> Prop) :
  cut s l1 l2 id d held (last l1) (Some id) -> tasks s !! id = Some t ->
  all_next s = head (l1 ++ id :: l2) ->
  (forall s', cut s' l1 l2 id d held (last l1) (head l2) -> later 0 s s' ->
     all_next s' = head (l1 ++ l2) -> all_prev s' = all_prev s -> Q tt s') ->
  wpe (match prev t with
       | Some p => upd_task p (with_next (next t))
       | None => modify (set_all_next (next t))
       end) s Q E.
Proof.
  intros Hcut Ht Hp HQ. destruct (cut_nodup _ _ _ _ _ _ _ _ Hcut) as (Hn1 & Hn2 & Hi1 & Hi2 & H12).
  destruct Hcut as [Hc Hd H1 H2 (t0 & Ht0 & Hprev & Hnext) Hl Hus].
  rewrite Ht in Ht0. injection Ht0 as <-. rewrite Hnext, Hprev.
  destruct l1 as [|p l1 _] using rev_ind; [cbn [last]|rewrite last_snoc in *].
  - apply wpe_modify, HQ; [|by split; [split|]|done|done].
    split; try done; [by eapply (core_same s); [split|]|by eapply (drops_same s)|by exists t|by apply (users_same s)].
  - pose proof H1 as H1'. apply dll_app in H1' as [_ [(tp & Htp & _) _]].
    apply wpe_bind. eapply wp_get_task; [done|].
    apply wpe_modify, HQ; [|by eapply later_put| |done].
    + split; cbn; try done.
      * by eapply core_relink.
      * by eapply drops_put.
      * by eapply dll_set_next.
      * apply dll_insert_out; [|by rewrite ?last_snoc]. apply H12, elem_of_app. right. by left.
      * exists t. rewrite lookup_insert_ne; [by rewrite ?last_snoc|].
        intros ->. apply Hi1, elem_of_app. right. by left.
      * apply users_put; [done|]. intros f. by apply (u_futures _ Hus p tp).
    + cbn. rewrite Hp. by destruct l1.
Qed.

(** The length is not looked at by [decr_task]. *)
Lemma wp_decr_len n s id (Q : unit -> sched F U -> Prop) :
  wpe (decr_task id) (set_len n s) (fun _ s' => Q tt (set_len (len s) s')) E ->
  wpe (decr_task id) s Q E.
Proof.
  destruct s. unfold decr_task, get_task, put_task, wpe, bind, gets, deref, modify, ub, ret. cbn.
  destruct (tasks0 !! id) as [t|]; cbn; [|done]. by destruct (strong t =? 1).
Qed.
(** The task [id] is done and on its way out. *)
Definition removing id : doing := {| pol := None; rm := Some id; cn := []; ex := None |}.

Definition popped o : doing := {| pol := None; rm := None; cn := []; ex := o |}.

(** Out of the list, its count goes from the list to [held]. *)
Lemma sinv_unlinked s l1 l2 id held n p :
  cut s l1 l2 id (removing id) held n p -> all_next s = head (l1 ++ l2) -> all_prev s = last (l1 ++ l2) ->
  dll (tasks s) None (l1 ++ l2) None ->
  sinv (set_len (Z.of_nat (length (l1 ++ l2))) s) (l1 ++ l2) at_rest (id :: held).
Proof.
  intros Hcut Hnx Hpv Hd. destruct (cut_nodup _ _ _ _ _ _ _ _ Hcut) as (Hn1 & Hn2 & Hi1 & Hi2 & H12).
  destruct Hcut as [Hc Hdr _ _ _ _]. split; [|by split|by apply (drops_same s)|by apply (users_same s)].
  pose proof Hc as [Hnd Hq Hcnt Hst Hqu Hf Ho Ha].
  assert (Hin : forall x, x <> id -> x ∈ l1 ++ id :: l2 <-> x ∈ l1 ++ l2).
  { intros x Hx. rewrite !elem_of_app, elem_of_cons. tauto. }
  split; try done; cbn.
  - apply NoDup_app. done.
  - intros x. specialize (Hcnt x).
    assert (cnt (refs (set_len (Z.of_nat (length (l1 ++ l2))) s) (l1 ++ l2) (id :: held)) x
          = cnt (refs s (l1 ++ id :: l2) held) x) as ->; [|done].
    apply cnt_perm. unfold refs. cbn. solve_Permutation.
  - intros x t Ht. pose proof (Hst x t Ht) as H. destruct (decide (x = id)) as [->|Hne].
    + destruct H as (_ & Hdn & _ & H). rewrite Hdn in H by done. split; [done|]. split; [done|].
      split; [by intros ?%not_elem_of_nil|]. rewrite Hdn by done. destruct H as (? & ? & _).
      split; [done|]. split; [done|]. rewrite elem_of_app. tauto.
    + eapply status_mono; [|by left|by apply Hin|exact H]. unfold same_at. cbn. intuition congruence.
  - intros Hal. apply Ha in Hal. by destruct l1.
Qed.

(** The first half of [pop_task_all]: the task is marked as done and its future
    is dropped if it still runs. *)
Lemma wp_finish_task {A} s L held id o (k : M (sched F U) A) (Q : A -> sched F U -> Prop) :
  sinv s L (popped o) held -> id ∈ L -> (o = None \/ o = Some id) ->
  (forall s', sinv s' L (removing id) held -> later 0 s s' -> wpe k s' Q E) ->
  wpe (do! upd_task id (with_queued true) in
       let! t := get_task id in
       do! put_task id (with_done Done t) in
       do! match done t with Running => drop_task drop_token id | Cancelled | Done => ret tt end in
       k) s Q E.
Proof.
  intros Hinv HL Ho HQ. pose proof Hinv as [Hc _ _ _].
  destruct (core_get _ _ _ _ id Hc) as [t Ht]; [by apply refs_list|].
  destruct (c_status _ _ _ _ Hc _ _ Ht) as (_ & _ & _ & Hst).
  assert (Hsame : forall x, x <> id -> same_at (popped o) (popped (Some id)) x).
  { intros x Hx. unfold same_at. cbn. destruct Ho as [-> | ->]; intuition congruence. }
  assert (Hsame' : forall x, x <> id -> same_at (popped (Some id)) (removing id) x).
  { intros x Hx. unfold same_at. cbn. intuition congruence. }
  set (t1 := with_queued true t). set (s1 := set_tasks (<[id := t1]> (tasks s)) s).
  assert (Hinv1 : sinv s1 L (popped (Some id)) held).
  { eapply sinv_put; try done; [|by same_future Hinv t].
    split; [done|]. split; [done|]. split; [by intros ?%not_elem_of_nil|]. unfold in_queue. cbn. destruct (done t).
    - destruct Hst as (_ & Hf & _). split; [done|]. split; [exact Hf|]. by right.
    - destruct Hst as (_ & Hf & _). split; [done|]. split; [exact Hf|]. split; [by right|done].
    - destruct Hst as (_ & _ & Hrm). by apply Hrm in HL. }
  assert (Ht1 : tasks s1 !! id = Some t1) by apply lookup_insert_eq.
  assert (Hlt : later 0 s s1) by by eapply later_put.
  apply wpe_bind, wpe_bind. eapply wp_get_task; [done|]. apply wpe_modify, wpe_bind.
  eapply (wp_get_task _ s1); [exact Ht1|]. apply wpe_bind, wpe_modify, wpe_bind.
  assert (Hdone : forall t', done t' = Done -> future t' = None -> queued t' = true ->
    status (should_poll s1) L (removing id) id t').
  { intros t' Hd' Hf' Hq'. split; [done|]. split; [done|]. split; [by intros ?%not_elem_of_nil|].
    rewrite Hd'. done. }
  destruct (done t) eqn:Hdn; cbn [done t1 with_queued]; rewrite Hdn.
  - eapply (wp_drop_task drop_token s1); [done|exact Ht1|exact Hdn|done|done|by apply Hdone|done| |].
    + intros x s' _ Hs' _. apply wp_drop_thing; [done|by destruct x].
    + intros s' Hs' Hfr Hpot _. apply HQ; [done|]. eapply (later_trans 0 0); [done|]. split; [done|lia].
  - apply wpe_ret, HQ.
    + destruct Hst as (_ & Hf & _). eapply (sinv_put s1); try done; [by apply Hdone| |].
      * cbn. by rewrite Hdn.
      * cbn. by rewrite Hf.
    + eapply (later_trans 0 0); [done|]. by eapply later_put.
  - destruct Hst as (_ & _ & Hrm). by apply Hrm in HL.
Qed.

Lemma later_len s n : later 0 s (set_len n s).
Proof. by split; [split|]. Qed.

Lemma wp_pop_task_all s L held id o (Q : unit -> sched F U -> Prop) :
  sinv s L (popped o) held -> id ∈ L -> (o = None \/ o = Some id) ->
  (forall l1 l2 s', L = l1 ++ id :: l2 -> sinv s' (l1 ++ l2) at_rest held -> later 0 s s' -> Q tt s') ->
  wpe (pop_task_all id) s Q E.
Proof.
  intros Hinv HL Ho HQ. eapply wp_finish_task; [done..|]. intros s1 Hinv1 Hlt1.
  apply list_elem_of_split in HL as (l1 & l2 & ->). specialize (HQ l1 l2).
  pose proof Hinv1 as [_ [_ Hnx Hpv _] _ _]. apply cut_start in Hinv1 as Hcut.
  destruct (g_id _ _ _ _ _ _ _ _ Hcut) as (t & Ht & _).
  apply wpe_bind. eapply wp_get_task; [done|]. apply wpe_bind.
  eapply wp_unlink_next; [done..|]. intros s2 Hcut2 Hlt2 Hpv2 Hnx2.
  destruct (g_id _ _ _ _ _ _ _ _ Hcut2) as (t2 & Ht2 & _).
  apply wpe_bind. eapply wp_get_task; [done|]. apply wpe_bind.
  eapply wp_unlink_prev; [done|done|congruence|]. intros s3 Hcut3 Hlt3 Hnx3 Hpv3.
  pose proof (g_len _ _ _ _ _ _ _ _ Hcut3) as Hlen. rewrite length_app in Hlen. cbn in Hlen.
  apply wpe_bind, (wp_decr_len (Z.of_nat (length (l1 ++ l2)))). eapply wp_decr.
  { eapply sinv_unlinked; [done|done|congruence|by eapply cut_end]. }
  intros m s4 Hinv4 Hlt4 _ _. apply wpe_bind, wpe_gets, wpe_bind.
  apply wpe_assert_true; [cbn; apply Z.ltb_lt; lia|]. apply wpe_modify. cbn [len set_len].
  replace (len s3 - 1) with (Z.of_nat (length (l1 ++ l2))) by (rewrite Hlen, length_app; lia).
  apply HQ; [done|exact Hinv4|]. eapply (later_trans 0 0); [exact Hlt1|].
  eapply (later_trans 0 0); [exact Hlt2|]. eapply (later_trans 0 0); [exact Hlt3|].
  eapply (later_trans 0 0); [apply later_len|exact Hlt4].
Qed.
End ops.
