(* ===== verification/SchedularPoll.v ===== *)
(** * Pushing, waking, polling and clearing keep the invariant of the scheduler *)

From S2P Require Import Prelude Schedular SchedularInv SchedularSafe.
Import Schedular.

Lemma bind_assoc_wpe {S A B C} (c : M S A) (k : A -> M S B) (h : B -> M S C) s Q E :
  wpe (bind (bind c k) h) s Q E -> wpe (bind c (fun a => bind (k a) h)) s Q E.
Proof. unfold wpe, bind. by destruct (c s) as [[a s']| |]. Qed.

Section poll.
Context {F U : Type} {FU : Future F U} {FS : FutureSpec F U} {FL : FutureLaws F U}.
Implicit Types (s : sched F U) (L held : list nat) (d : doing) (t : task F).
Context (E : string -> Prop).

(** ** A new task *)
Lemma core_spawn s s' L d held t0 :
  core s L d held -> queue_alive s = true ->
  tasks s' = <[next_id s := t0]> (tasks s) -> should_poll s' = should_poll s ++ [next_id s] ->
  wakers s' = wakers s -> tokens s' = tokens s ++ [Some (next_id s)] ->
  next_id s' = S (next_id s) -> queue_alive s' = queue_alive s ->
  strong t0 = 3 -> done t0 = Running -> is_Some (future t0) -> queued t0 = true -> (forall n, Tok n ∉ owned t0) ->
  pol d <> Some (next_id s) -> rm d <> Some (next_id s) -> (next_id s ∉ cn d) ->
  core s' (next_id s :: L) d held.
Proof.
  intros [Hnd Hq Hcnt Hst Hqu Hf Ho Ha] Hal Htk Hsp Hwk Hto Hnx Hal' Hs Hdn Hfu Hq0 Ho0 Hpol Hrm Hcn.
  remember (next_id s) as n eqn:Hn.
  assert (Hfresh : tasks s !! n = None).
  { apply eq_None_not_Some. intros ?%Hf. lia. }
  assert (Hzero : cnt (refs s L held) n = 0%nat).
  { specialize (Hcnt n). by rewrite Hfresh in Hcnt. }
  assert (Hout : n ∉ refs s L held) by (rewrite <- cnt_elem; lia).
  unfold refs in Hout. rewrite !elem_of_app in Hout.
  assert (Hrefs : forall x, cnt (refs s' (n :: L) held) x = cnt (n :: n :: n :: refs s L held) x).
  { intros x. apply cnt_perm. unfold refs. rewrite Hsp, Hwk, Hto, live_snoc. solve_Permutation. }
  split; rewrite ?Htk, ?Hsp, ?Hto, ?Hnx, ?Hal', ?Hal; try done.
  - apply NoDup_cons. split; [tauto|done].
  - apply NoDup_app. split; [done|]. split; [|apply NoDup_singleton].
    intros x Hx ->%list_elem_of_singleton. tauto.
  - intros x. rewrite Hrefs, !cnt_cons. specialize (Hcnt x). destruct (decide (n = x)) as [<-|Hne].
    + rewrite lookup_insert_eq, Hs, Hzero. lia.
    + by rewrite lookup_insert_ne.
  - intros x u [[<- <-]|[Hne Hu]]%lookup_insert_Some.
    + split; [done|]. split; [done|]. split; [done|]. rewrite Hdn. split; [left|]. split.
      * destruct Hfu as [f ->]. split; done.
      * intros _. left. apply elem_of_app. right. by left.
    + eapply status_mono; [apply same_at_refl| | |by apply Hst].
      * rewrite elem_of_app. auto.
      * rewrite elem_of_cons. intuition congruence.
  - intros x u Hx [[<- <-]|[Hne Hu]]%lookup_insert_Some; [done|].
    apply elem_of_app in Hx as [Hx|Hx%list_elem_of_singleton]; [by eapply Hqu|congruence].
  - intros x [->|Hx%Hf]%lookup_insert_is_Some'; lia.
  - intros x u i [[<- <-]|[Hne Hu]]%lookup_insert_Some Hi; [by apply Ho0 in Hi|].
    destruct (Ho x u i Hu Hi) as [Hlt Hc]. rewrite length_app. split; [cbn; lia|].
    intros c Hc'. rewrite lookup_app_l in Hc' by done. by apply Hc.
Qed.

Lemma drops_spawn s s' t0 :
  drops s -> tasks s' = <[next_id s := t0]> (tasks s) -> done t0 = Running ->
  next_id s' = S (next_id s) -> dropped s' = dropped s -> drops s'.
Proof.
  intros [Hnd Hd] Htk Hr Hnx Hdr. split; rewrite ?Hdr, ?Htk, ?Hnx; [done|].
  intros x. rewrite Hd. destruct (decide (x = next_id s)) as [->|Hne].
  - rewrite lookup_insert_eq. split; [lia|]. intros [_ H]. by specialize (H _ eq_refl).
  - rewrite lookup_insert_ne by done. split; intros [? ?]; (split; [lia|done]).
Qed.

(** What a task may do while it is polled. *)
Record grows s s' : Prop := {
  gr_user : ule (user s) (user s');
  gr_alive : queue_alive s' = queue_alive s;
  gr_gap : gap s' = gap s;
  gr_armed : forall w o, armed w o s -> armed w o s';
}.

Lemma grows_trans s1 s2 s3 : grows s1 s2 -> grows s2 s3 -> grows s1 s3.
Proof. intros [] []. split; try congruence; [by eapply ule_trans|auto]. Qed.

Lemma frame_grows s s' : frame s s' -> grows s s'.
Proof. intros []. split; [rewrite lt_user; apply ule_refl|done..]. Qed.

(** The tasks after [push_task_to_all] of a new task [n]. *)
Definition link_new (m : gmap nat (task F)) (n : nat) t0 (o : option nat) : gmap nat (task F) :=
  let m := <[n := with_next o t0]> m in
  match o with
  | Some x => match m !! x with Some t => <[x := with_prev (Some n) t]> m | None => m end
  | None => m
  end.

Definition first_strong (f : F) (l : list thing) : task F :=
  {| strong := 3; next := None; prev := None; done := Running; queued := true;
     future := Some f; owned := l |}.

(** The state after [push_cancellable f]. *)
Definition spawned (f : F) (l : list thing) s : sched F U :=
  {| tasks := link_new (tasks s) (next_id s) (first_strong f l) (all_next s); next_id := S (next_id s);
     len := len s + 1; all_next := Some (next_id s);
     all_prev := match all_prev s with None => Some (next_id s) | Some x => Some x end;
     should_poll := should_poll s ++ [next_id s]; queue_alive := queue_alive s; gap := gap s;
     registered := registered s; wakers := wakers s; tokens := tokens s ++ [Some (next_id s)];
     outer_woken := outer_woken s; dropped := dropped s; user := user s |}.

(** The end of [push_cancellable]. *)
Lemma wp_push_rest s id (Q : nat -> sched F U -> Prop) :
  Q (length (tokens s))
    (set_tokens (tokens s ++ [Some id]) (set_len (len s + 1)
       (set_should_poll (should_poll s ++ [id])
         (set_all_prev (match all_prev s with None => Some id | Some x => Some x end)
            (set_all_next (Some id) s))))) ->
  wpe (do! modify (set_all_next (Some id)) in
       let! ap := gets all_prev in
       match ap with None => modify (set_all_prev (Some id)) | Some _ => ret tt end) s
    (fun _ s' => wpe (do! q_push id in
       do! modify (fun s => set_len (len s + 1) s) in
       let! ts := gets tokens in
       do! modify (set_tokens (ts ++ [Some id])) in
       ret (length ts)) s' Q E) E.
Proof. destruct s as [? ? ? ? []]; exact (fun H => H). Qed.

Lemma wp_push_spawned f l s (Q : nat -> sched F U -> Prop) :
  match all_next s with Some x => is_Some (tasks s !! x) /\ x <> next_id s | None => True end ->
  Q (length (tokens s)) (spawned f l s) -> wpe (push_cancellable f l) s Q E.
Proof.
  intros Hx HQ. apply wpe_bind, wpe_gets, wpe_bind, wpe_modify, wpe_bind, wpe_modify.
  do 2 (apply wpe_bind, wpe_bind; eapply wp_get_task; [cbn; apply lookup_insert_eq|]; apply wpe_modify).
  apply wpe_bind, wpe_bind, wpe_gets. cbn. rewrite !insert_insert_eq.
  apply wpe_bind, wpe_bind. eapply wp_get_task; [cbn; apply lookup_insert_eq|]. apply wpe_modify.
  cbn. rewrite insert_insert_eq. unfold spawned, link_new in HQ. apply wpe_bind.
  destruct (all_next s) as [x|] eqn:Han.
  - destruct Hx as [[t Ht] Hne]. rewrite lookup_insert_ne, Ht in HQ by done. apply wpe_bind.
    eapply wp_get_task; [cbn; by rewrite lookup_insert_ne|]. apply wpe_modify.
    by apply wp_push_rest.
  - by apply wpe_ret, wp_push_rest.
Qed.

Lemma link_new_dll m n t0 L :
  prev t0 = None -> NoDup L -> (n ∉ L) -> dll m None L None ->
  dll (link_new m n t0 (head L)) None (n :: L) None.
Proof.
  intros Hp Hnd Hn Hd. unfold link_new. destruct L as [|x L]; cbn [head].
  - split; [|done]. eexists. by rewrite lookup_insert_eq.
  - assert (Hne : n <> x) by (intros ->; apply Hn; left). rewrite lookup_insert_ne by done.
    pose proof Hd as [(t & Ht & _) _]. rewrite Ht. split.
    + eexists. rewrite lookup_insert_ne, lookup_insert_eq by done. done.
    + eapply dll_set_prev; [done|by rewrite lookup_insert_ne|]. by apply dll_insert_out.
Qed.

Lemma fresh_next s L d held : core s L d held -> tasks s !! next_id s = None.
Proof. intros Hc. apply eq_None_not_Some. intros H%(c_fresh _ _ _ _ Hc). lia. Qed.

Lemma fresh_list s L d held : core s L d held -> next_id s ∉ L.
Proof.
  intros Hc Hin. destruct (core_get _ _ _ _ (next_id s) Hc) as [t Ht]; [by apply refs_list|].
  rewrite (fresh_next _ _ _ _ Hc) in Ht. done.
Qed.

Lemma head_task s L d held x :
  sinv s L d held -> all_next s = Some x -> is_Some (tasks s !! x) /\ x <> next_id s.
Proof.
  intros [Hc [_ Hn _ _] _ _] Hx. rewrite Hn in Hx. destruct L as [|y L]; [done|]. injection Hx as ->.
  destruct (core_get _ _ _ _ x Hc) as [t Ht]; [by apply refs_list; left|].
  split; [by eexists|]. intros ->. by rewrite (fresh_next _ _ _ _ Hc) in Ht.
Qed.

Lemma sinv_spawned f l s L d held :
  sinv s L d held -> queue_alive s = true -> (forall n, Tok n ∉ l) -> fok (user s) f ->
  pol d <> Some (next_id s) -> rm d <> Some (next_id s) -> (next_id s ∉ cn d) ->
  sinv (spawned f l s) (next_id s :: L) d held.
Proof.
  intros Hinv Hal Hown Hfok Hpol Hrm Hcn. pose proof Hinv as [Hc [Hd Hn Hp Hl] Hdr Hus].
  set (t1 := with_next (all_next s) (first_strong f l)). set (s1 := set_tasks (<[next_id s := t1]> (tasks s)) (spawned f l s)).
  assert (Hc1 : core s1 (next_id s :: L) d held) by by eapply (core_spawn s s1 L d held t1).
  assert (Hdr1 : drops s1) by by eapply (drops_spawn s s1 t1).
  assert (Hus1 : users none_returned s1).
  { split; [apply Hus|]. cbn. intros x t f' [[<- <-]|[Hne Hx]]%lookup_insert_Some; [intros [= <-]; by right|].
    by apply (u_futures _ Hus x t). }
  assert (H : core (spawned f l s) (next_id s :: L) d held /\ drops (spawned f l s) /\ users none_returned (spawned f l s)).
  { destruct (all_next s) as [x|] eqn:Han.
    - destruct (head_task _ _ _ _ x Hinv Han) as [[t Ht] Hne].
      assert (Ht1 : tasks s1 !! x = Some t) by by (cbn; rewrite lookup_insert_ne).
      assert (Htk : tasks (spawned f l s) = <[x := with_prev (Some (next_id s)) t]> (tasks s1)).
      { cbn. unfold link_new. rewrite Han. rewrite lookup_insert_ne, Ht by done. done. }
      set (s2 := set_tasks (<[x := with_prev (Some (next_id s)) t]> (tasks s1)) s1). split_and!.
      + apply (core_same s2); [by split|]. by eapply core_relink.
      + apply (drops_same s2); [done..|]. by eapply drops_put.
      + apply (users_same s2); [done..|]. apply users_put; [done|]. intros f'. by apply (u_futures _ Hus1 x t).
    - assert (Htk : tasks (spawned f l s) = tasks s1) by (cbn; unfold link_new; by rewrite Han).
      split_and!; [by eapply (core_same s1)|by eapply (drops_same s1)|by apply (users_same s1)]. }
  destruct H as (? & ? & ?). split; [done| |done..]. split; cbn.
  - rewrite Hn. apply link_new_dll; [done|by eapply c_nodup|by eapply fresh_list|done].
  - done.
  - rewrite Hp. destruct L; [done|]. by destruct (last (_ :: L)) eqn:E'; [|apply last_None in E'].
  - rewrite Hl. lia.
Qed.

Lemma grows_spawned f l s : grows s (spawned f l s).
Proof. split; [apply ule_refl|done..]. Qed.

Lemma pot_spawned f l s L d held :
  sinv s L d held -> (pot (spawned f l s) = 2 * fsize (user s) f + 1 + pot s)%nat.
Proof.
  intros Hinv. unfold pot. cbn [tasks next_id should_poll spawned user]. rewrite length_app. cbn [length weight].
  assert (H : weight (user s) (link_new (tasks s) (next_id s) (first_strong f l) (all_next s)) (next_id s)
            = weight (user s) (tasks s) (next_id s)
       /\ match link_new (tasks s) (next_id s) (first_strong f l) (all_next s) !! next_id s with
          | Some t => task_weight (user s) t = (2 * fsize (user s) f)%nat | None => False end).
  { unfold link_new. destruct (all_next s) as [x|] eqn:Han.
    - destruct (head_task _ _ _ _ x Hinv Han) as [[t Ht] Hne].
      rewrite lookup_insert_ne, Ht by done. rewrite lookup_insert_ne, lookup_insert_eq by done.
      split; [|done].
      assert (Hlt : (x < next_id s)%nat) by (apply (c_fresh _ _ _ _ (s_core _ _ _ _ Hinv)); by eexists).
      pose proof (weight_insert (user s) (<[next_id s := with_next (Some x) (first_strong f l)]> (tasks s)) (next_id s) x t
        (with_prev (Some (next_id s)) t)) as Hw.
      rewrite lookup_insert_ne in Hw by done. specialize (Hw Ht Hlt). rewrite (weight_insert_ge (user s) (tasks s)) in Hw by lia.
      change (task_weight (user s) (with_prev (Some (next_id s)) t)) with (task_weight (user s) t) in Hw. lia.
    - rewrite lookup_insert_eq. split; [apply weight_insert_ge; lia|done]. }
  destruct H as [-> H]. destruct (link_new _ _ _ _ !! _) as [t|]; [|done]. rewrite H. cbn [task_weight]. lia.
Qed.

Lemma wp_push_cancellable f l s L d held (Q : nat -> sched F U -> Prop) :
  sinv s L d held -> queue_alive s = true -> (forall n, Tok n ∉ l) -> fok (user s) f ->
  pol d <> Some (next_id s) -> rm d <> Some (next_id s) -> (next_id s ∉ cn d) ->
  (sinv (spawned f l s) (next_id s :: L) d held -> grows s (spawned f l s) ->
   pot (spawned f l s) = (2 * fsize (user s) f + 1 + pot s)%nat -> Q (length (tokens s)) (spawned f l s)) ->
  wpe (push_cancellable f l) s Q E.
Proof.
  intros Hinv ? ? ? ? ? ? HQ. apply wp_push_spawned.
  - destruct (all_next s) as [x|] eqn:Hx; [by eapply head_task|done].
  - apply HQ; [by apply sinv_spawned|apply grows_spawned|by eapply pot_spawned].
Qed.

(** ** Waking *)
Lemma wp_schedular_wake s L d held id (Q : unit -> sched F U -> Prop) :
  sinv s L d (id :: held) ->
  (forall s', sinv s' L d held -> frame s s' -> (pot s' <= 1 + pot s)%nat -> Q tt s') ->
  wpe (schedular_wake id) s Q E.
Proof.
  intros Hinv HQ. pose proof Hinv as [Hc _ _ _].
  destruct (core_get _ _ _ _ id Hc) as [t Ht]; [by apply refs_held; left|].
  destruct (c_status _ _ _ _ Hc _ _ Ht) as (_ & _ & _ & Hst).
  apply wpe_bind, wpe_bind. eapply wp_get_task; [done|]. destruct (queued t) eqn:Hqt.
  { apply wpe_ret. eapply wp_decr; [done|]. intros m s' Hs' [Hfr Hpot] _ _. apply HQ; [done..|lia]. }
  apply wpe_bind, wpe_modify, wpe_ret. cbn [negb]. apply wpe_bind, wpe_gets. cbn [queue_alive set_tasks].
  assert (done t <> Done /\ id ∈ L) as [Hnd HL] by (destruct (done t); intuition congruence).
  rewrite (queue_still_alive _ _ _ _ _ Hc HL). apply wpe_bind, wpe_modify.
  assert (Hs' : sinv (set_should_poll (should_poll s ++ [id])
            (set_tasks (<[id := with_queued true t]> (tasks s)) s)) L d held) by by eapply sinv_enqueue.
  destruct (later_put s id t (with_queued true t) Ht ltac:(done)) as [Hfr Hpot].
  assert (Hpot' : forall s', user s' = user s -> tasks s' = <[id := with_queued true t]> (tasks s) -> next_id s' = next_id s ->
    should_poll s' = should_poll s ++ [id] -> (pot s' <= 1 + pot s)%nat).
  { intros s' H0 H1 H2 H3. unfold pot in *. rewrite H0, H1, H2, H3, length_app. cbn in *. lia. }
  apply wp_queue_wake.
  - intros _. apply HQ; [exact Hs'| |by apply Hpot']. eapply frame_trans; [exact Hfr|]. by split.
  - intros w Hr. apply HQ; [eapply sinv_same; [| | | | |exact Hs']; by try split| |by apply Hpot'].
    eapply frame_trans; [exact Hfr|]. split; try done. intros w0 o Ha. exact (armed_wake _ w w0 o Hr Ha).
Qed.

Lemma later_incr s id t : tasks s !! id = Some t ->
  later 0 s (set_tasks (<[id := with_strong (strong t + 1) t]> (tasks s)) s).
Proof. intros Ht. by eapply later_put. Qed.

Lemma wp_schedular_wake_ref s L d held id (Q : unit -> sched F U -> Prop) :
  sinv s L d held -> is_Some (tasks s !! id) ->
  (forall s', sinv s' L d held -> frame s s' -> (pot s' <= 1 + pot s)%nat -> Q tt s') ->
  wpe (schedular_wake_ref id) s Q E.
Proof.
  intros Hinv [t Ht] HQ. apply wpe_bind. eapply wp_incr; [done..|]. intros s1 Hs1 ->.
  destruct (later_incr _ _ _ Ht) as [Hfr Hpot].
  eapply wp_schedular_wake; [done|]. intros s' Hs' Hfr' Hpot'.
  apply HQ; [done|by eapply frame_trans|lia].
Qed.

Lemma wp_clone_waker s L d held id (Q : unit -> sched F U -> Prop) :
  sinv s L d held -> is_Some (tasks s !! id) ->
  (forall s', sinv s' L d held -> later 0 s s' -> Q tt s') -> wpe (clone_waker id) s Q E.
Proof.
  intros Hinv [t Ht] HQ. apply wpe_bind. eapply wp_incr; [done..|]. intros s1 Hs1 ->.
  apply wpe_modify, HQ; [by apply sinv_add_waker|].
  eapply (later_trans 0 0); [by eapply later_incr|]. split; [by split|done].
Qed.

(** ** The poll of one future *)
Definition polling id : doing := {| pol := Some id; rm := None; cn := []; ex := None |}.

Lemma polled_task s L held id :
  sinv s L (polling id) held -> id ∈ L ->
  exists t, tasks s !! id = Some t /\ done t = Running /\ future t = None.
Proof.
  intros [Hc _ _] HL. destruct (core_get _ _ _ _ id Hc) as [t Ht]; [by apply refs_list|].
  exists t. destruct (c_status _ _ _ _ Hc _ _ Ht) as (Hr & _ & _ & H).
  specialize (Hr eq_refl). rewrite Hr in H. split_and!; [done..|]. by apply H.
Qed.

Lemma pot_put s L d held id t t' :
  core s L d held -> tasks s !! id = Some t ->
  (pot (set_tasks (<[id := t']> (tasks s)) s) + task_weight (user s) t = pot s + task_weight (user s) t')%nat.
Proof.
  intros Hc Ht. assert (Hlt : (id < next_id s)%nat) by (apply (c_fresh _ _ _ _ Hc); by eexists).
  pose proof (weight_insert (user s) (tasks s) (next_id s) id t t' Ht Hlt). unfold pot. cbn. lia.
Qed.

Lemma grows_refl s : grows s s.
Proof. apply frame_grows, frame_refl. Qed.

(** The future of the polled task goes back to its place. *)
Lemma wp_put_back (gone : nat -> Prop) s L held id k (Q : unit -> sched F U -> Prop) :
  sinv s L (polling id) held -> id ∈ L -> gone id \/ fok (user s) k ->
  (forall s', sinv_ gone s' L at_rest held -> frame s s' -> (pot s' <= 2 * fsize (user s) k + pot s)%nat -> Q tt s') ->
  wpe (upd_task id (fun t => with_future (Some k) (owned t) t)) s Q E.
Proof.
  intros Hinv HL Hk HQ. destruct (polled_task _ _ _ _ Hinv HL) as (t & Ht & Hr & Hf).
  pose proof Hinv as [Hc _ _ _]. apply wpe_bind. eapply wp_get_task; [done|]. apply wpe_modify, HQ.
  - destruct (c_status _ _ _ _ Hc _ _ Ht) as (_ & _ & _ & H). rewrite Hr in H. destruct H as (_ & _ & Hq).
    apply (sinv_gone none_returned gone) in Hinv; [|done].
    eapply sinv_put; try done.
    + split; [done|]. split; [done|]. split; [by intros ?%not_elem_of_nil|]. cbn. rewrite Hr.
      split; [done|]. split; [done|]. exact Hq.
    + intros x Hx. unfold same_at. cbn. intuition congruence.
    + intros Hin. by apply (c_queued _ _ _ _ Hc id t).
    + by intros f [= <-].
  - by split.
  - pose proof (pot_put s _ _ _ id t (with_future (Some k) (owned t) t) Hc Ht) as Hp.
    unfold task_weight in Hp. rewrite Hf in Hp. cbn [future with_future] in Hp. lia.
Qed.

(** What the polled task owns can be dropped. *)
Lemma droppable_owned s s' L held id t x :
  core s L (polling id) held -> tasks s !! id = Some t -> x ∈ owned t -> frame s s' ->
  droppable_thing (polling id) x s'.
Proof.
  intros Hc Ht Hn Hfr. destruct x as [n|i]; [|done]. intros c Hs' p [= <-]. by eapply (owned_newer s s' L).
Qed.

(** The things the polled task owns change. *)
Lemma sinv_owned s L held id t l :
  sinv s L (polling id) held -> tasks s !! id = Some t -> id ∈ L ->
  (forall n, Tok n ∈ l -> (n < length (tokens s))%nat /\
     forall c, tokens s !! n = Some (Some c) -> (id < c)%nat) ->
  sinv (set_tasks (<[id := with_future (future t) l t]> (tasks s)) s) L (polling id) held.
Proof.
  intros Hinv Ht HL Hn. pose proof Hinv as [Hc Hl Hd Hus].
  split; [|by eapply linked_put|by eapply drops_put|apply users_put; [done|by same_future Hinv t]].
  pose proof Hc as [Hnd Hq Hcnt Hst Hqu Hf Ho Ha]. split; try done; cbn.
  - intros x. change (refs (set_tasks _ _) L held) with (refs s L held). specialize (Hcnt x).
    destruct (decide (x = id)) as [->|Hne]; [rewrite lookup_insert_eq|by rewrite lookup_insert_ne].
    by rewrite Ht in Hcnt.
  - intros x u [[<- <-]|[Hne Hu]]%lookup_insert_Some; [by apply (Hst id t)|by apply Hst].
  - intros x u Hx [[<- <-]|[Hne Hu]]%lookup_insert_Some; [by apply (Hqu id t)|by eapply Hqu].
  - intros x Hx. apply Hf. apply lookup_insert_is_Some' in Hx as [->|?]; [by eexists|done].
  - intros x u n [[<- <-]|[Hne Hu]]%lookup_insert_Some Hn'; [by apply Hn|by eapply Ho].
Qed.

(** The future of [id] has returned if its poll was ready. *)
Definition returned (r : poll unit) id : nat -> Prop := fun x => x = id /\ r = Ready tt.

(** What is known of the state after a poll that had [k] left to do. *)
Definition exec_post id L held s (k : nat) (Q : poll unit -> sched F U -> Prop) : Prop :=
  forall r L' s', sinv_ (returned r id) s' L' at_rest held -> id ∈ L' -> grows s s' -> uin (user s') ->
    (pot s' <= k + pot s)%nat -> Q r s'.

Lemma exec_post_mono id L L1 held s s1 k k1 Q :
  exec_post id L held s k Q -> grows s s1 -> (k1 + pot s1 <= k + pot s)%nat ->
  exec_post id L1 held s1 k1 Q.
Proof.
  intros HQ Hgr Hle r L' s' H1 H2 H3 H4 H5. eapply HQ; [exact H1|done|by eapply grows_trans|done|lia].
Qed.

(** A future that is ready drops what it owns. *)
Lemma wp_finish_poll r s L held id n (Q : poll unit -> sched F U -> Prop) :
  sinv s L (polling id) held -> id ∈ L -> poll_ok n (user s) r ->
  exec_post id L held s (2 * n) Q -> wpe (finish_poll id r) s Q E.
Proof.
  intros Hinv HL [Hin Hn] HQ. destruct (polled_task _ _ _ _ Hinv HL) as (t & Ht & Hr & Hf).
  destruct r as [f|]; cbn [finish_poll] in *.
  { destruct Hn as [Hok Hn]. apply wpe_bind.
    apply (wp_put_back (returned Pending id) s L held); [done..|by right|]. intros s' Hs' Hfr Hpot.
    apply wpe_ret. eapply HQ; [done..|by apply frame_grows|by rewrite (lt_user _ _ Hfr)|lia]. }
  pose proof Hinv as [Hc _ _ _]. apply wpe_bind. eapply wp_get_task; [done|].
  apply wpe_bind, wpe_modify, wpe_bind. rewrite <- Hf.
  set (s1 := set_tasks (<[id := with_future (future t) [] t]> (tasks s)) s).
  assert (Hinv1 : sinv s1 L (polling id) held).
  { apply sinv_owned; try done. by intros x ?%not_elem_of_nil. }
  assert (Hlt1 : later 0 s s1) by by eapply later_put.
  apply (wp_for_each_drop (gone := none_returned) E _ _ s1 L (polling id) held); [|done|].
  - intros x s' Hx Hs' Hlt. apply wp_drop_thing; [done|].
    eapply (droppable_owned s); [done|done|by apply elem_of_reverse|].
    eapply frame_trans; [apply Hlt1|apply Hlt].
  - intros s2 Hinv2 Hlt2. apply wpe_bind.
    apply (wp_put_back (returned (Ready tt) id) s2 L held); [done|done|by left|].
    intros s3 Hinv3 Hfr3 Hpot3. apply wpe_ret. destruct Hlt1 as [Hfr1 ?], Hlt2 as [Hfr2 ?].
    rewrite (lt_user _ _ Hfr2), (lt_user _ _ Hfr1) in Hpot3.
    eapply HQ; [done..| | |lia].
    + apply frame_grows. eapply frame_trans; [done|]. by eapply frame_trans.
    + by rewrite (lt_user _ _ Hfr3), (lt_user _ _ Hfr2), (lt_user _ _ Hfr1).
Qed.

(** A task that is polled pushes another and keeps its token. *)
Lemma wp_spawn_owned {A} f l s L held id (c : nat -> M (sched F U) A) (Q : A -> sched F U -> Prop) :
  sinv s L (polling id) held -> id ∈ L -> queue_alive s = true -> (forall n, Tok n ∉ l) ->
  fok (user s) f ->
  (forall n s', sinv s' (next_id s :: L) (polling id) held -> grows s s' -> user s' = user s ->
     (pot s' <= 2 * fsize (user s) f + 1 + pot s)%nat -> wpe (c n) s' Q E) ->
  wpe (let! n := push_cancellable f l in
       do! upd_task id (fun t => with_future (future t) (owned t ++ [Tok n]) t) in c n) s Q E.
Proof.
  intros Hinv HL Hal Hown Hfok HQ. destruct (polled_task _ _ _ _ Hinv HL) as (t & Ht & _). apply wpe_bind.
  assert (Hlt : (id < next_id s)%nat) by (apply (c_fresh _ _ _ _ (s_core _ _ _ _ Hinv)); by eexists).
  eapply wp_push_cancellable; [done..|cbn; intros [= ?]; lia|done|by apply not_elem_of_nil|].
  intros Hinv1 Hgr1 Hpot1. set (s1 := spawned f l s) in *.
  assert (HL1 : id ∈ next_id s :: L) by by right.
  destruct (polled_task _ _ _ _ Hinv1 HL1) as (t1 & Ht1 & _).
  apply wpe_bind, wpe_bind. eapply wp_get_task; [done|]. apply wpe_modify.
  destruct (later_put s1 id t1 (with_future (future t1) (owned t1 ++ [Tok (length (tokens s))]) t1) Ht1 ltac:(done))
    as [Hfr2 Hpot2].
  apply HQ; [|by eapply grows_trans; [|apply frame_grows]|done|lia].
  apply sinv_owned; try done. intros n [Hn|[= ->]%list_elem_of_singleton]%elem_of_app.
  - by apply (c_owned _ _ _ _ (s_core _ _ _ _ Hinv1) id t1).
  - cbn. rewrite length_app. split; [cbn; lia|]. intros c'. rewrite lookup_app_r, Nat.sub_diag by done.
    by intros [= <-].
Qed.

(** The memory of the futures changes. *)
Lemma weight_user u u' s n :
  users none_returned s -> user s = u -> ule u u' -> weight u' (tasks s) n = weight u (tasks s) n.
Proof.
  intros [_ Hf] <- Hu. induction n as [|n IH]; [done|]. cbn [weight]. rewrite IH.
  destruct (tasks s !! n) as [t|] eqn:Ht; [|done]. f_equal. unfold task_weight.
  destruct (future t) as [f|] eqn:Hft; [|done]. destruct (Hf n t f Ht Hft) as [[]|Hok].
  by rewrite (fsize_mono (user s)).
Qed.

Lemma sinv_user s L d held u :
  sinv s L d held -> ule (user s) u -> uok u ->
  sinv (set_user u s) L d held /\ grows s (set_user u s) /\ pot (set_user u s) = pot s.
Proof.
  intros [Hc Hl Hd Hus] Hle Hok. split; [|split].
  - destruct Hc. split; [by split|by apply (linked_same s)|by apply (drops_same s)|].
    split; [done|]. intros id t f Ht Hf. destruct (u_futures _ Hus id t f Ht Hf) as [[]|Hfk].
    right. by eapply fok_mono.
  - by split.
  - unfold pot. cbn. f_equal. by apply weight_user.
Qed.

(** ** What polled code does

    The same for a task and for code that runs outside of the scheduler. *)
Definition who_doing (o : who) : doing := match o with AsTask id => polling id | AsRoot _ => at_rest end.
Definition who_in (o : who) (L : list nat) : Prop := match o with AsTask id => id ∈ L | AsRoot _ => True end.

Lemma sinv_add_none s L d held : sinv s L d held -> sinv (set_wakers (wakers s ++ [None]) s) L d held.
Proof.
  intros [Hc Hl Hd Hus]. split; [|by apply (linked_same s)|by apply (drops_same s)|by apply (users_same s)].
  eapply (core_refs s); try done; cbn; [|auto].
  unfold refs. cbn. unfold live. rewrite omap_app. cbn. by rewrite app_nil_r.
Qed.

Section who.
Context (o : who).

Lemma wp_wake_self s L held (Q : unit -> sched F U -> Prop) :
  sinv s L (who_doing o) held -> who_in o L ->
  (forall s', sinv s' L (who_doing o) held -> frame s s' -> (pot s' <= 1 + pot s)%nat -> Q tt s') ->
  wpe (match o with AsTask id => schedular_wake_ref id | AsRoot w => wake_outer w end) s Q E.
Proof.
  intros Hinv HL HQ. destruct o as [id|w].
  - destruct (polled_task _ _ _ _ Hinv HL) as (t & Ht & _).
    eapply wp_schedular_wake_ref; [done|by eexists|done].
  - apply wpe_modify, HQ; [eapply sinv_same; [| | | | |exact Hinv]; by try split| |].
    + split; try done. intros w0 l. apply armed_outer.
    + change (pot (add_outer_woken w s)) with (pot s). lia.
Qed.

Lemma wp_clone_self own i s L held (Q : unit -> sched F U -> Prop) :
  sinv s L (who_doing o) held -> who_in o L ->
  (forall s', sinv s' L (who_doing o) held -> later 0 s s' -> Q tt s') ->
  wpe (match o with
       | AsTask id =>
           do! clone_waker id in
           if (own : bool) then upd_task id (fun t => with_future (future t) (owned t ++ [Wak i]) t) else ret tt
       | AsRoot _ => modify (fun s => set_wakers (wakers s ++ [None]) s)
       end) s Q E.
Proof.
  intros Hinv HL HQ. destruct o as [id|w].
  - destruct (polled_task _ _ _ _ Hinv HL) as (t & Ht & _). apply wpe_bind. eapply wp_clone_waker; [done|by eexists|].
    intros s1 Hs1 Hlt1. destruct own; [|by apply wpe_ret, HQ].
    destruct (polled_task _ _ _ _ Hs1 HL) as (t1 & Ht1 & _).
    apply wpe_bind. eapply wp_get_task; [done|]. apply wpe_modify, HQ.
    + apply sinv_owned; try done. intros n [Hn|?%list_elem_of_singleton]%elem_of_app; [|done].
      by apply (c_owned _ _ _ _ (s_core _ _ _ _ Hs1) id t1).
    + eapply (later_trans 0 0); [done|by eapply later_put].
  - apply wpe_modify, HQ; [by apply sinv_add_none|]. split; [by split|done].
Qed.

Lemma wp_spawn {A} f l s L held (c : nat -> M (sched F U) A) (Q : A -> sched F U -> Prop) :
  sinv s L (who_doing o) held -> who_in o L -> queue_alive s = true -> fok (user s) f ->
  (forall n s' L', sinv s' L' (who_doing o) held -> who_in o L' -> grows s s' -> user s' = user s ->
     (pot s' <= 2 * fsize (user s) f + 1 + pot s)%nat -> wpe (c n) s' Q E) ->
  wpe (let! n := push_cancellable f (map Wak l) in
       do! match o with
           | AsTask id => upd_task id (fun t => with_future (future t) (owned t ++ [Tok n]) t)
           | AsRoot _ => ret tt
           end in c n) s Q E.
Proof.
  intros Hinv HL Hal Hf HQ.
  assert (Hwak : forall n, Tok n ∉ map Wak l) by (intros n (? & ? & ?)%list_elem_of_fmap; done).
  destruct o as [id|w].
  - eapply wp_spawn_owned; [done..|]. intros n s' Hs' Hgr Hu Hpot. eapply HQ; [exact Hs'|by right|done..].
  - apply wpe_bind. eapply wp_push_cancellable; [done..|by apply not_elem_of_nil|].
    intros Hs' Hgr Hpot. apply wpe_bind, wpe_ret. eapply HQ; [exact Hs'|done..|by rewrite Hpot].
Qed.

Lemma wp_drop_own x s L held (Q : unit -> sched F U -> Prop) :
  sinv s L (who_doing o) held -> who_in o L ->
  (forall s', sinv s' L (who_doing o) held -> later 0 s s' -> Q tt s') ->
  wpe (match o with
       | AsTask id =>
           let! t := get_task id in
           if decide (x ∈ owned t) then drop_thing drop_token x else ret tt
       | AsRoot _ => drop_thing drop_token x
       end) s Q E.
Proof.
  intros Hinv HL HQ. destruct o as [id|w].
  - destruct (polled_task _ _ _ _ Hinv HL) as (t & Ht & _). apply wpe_bind. eapply wp_get_task; [done|].
    case_decide as Hx; [|by apply wpe_ret, HQ; [|apply later_refl]].
    eapply wpe_post; [apply (wp_drop_thing (gone := none_returned)); [done|]|intros [] s' [Hs' Hlt]; by apply HQ].
    eapply (droppable_owned s); [apply Hinv|done..|apply frame_refl].
  - eapply wpe_post; [apply (wp_drop_thing (gone := none_returned)); [done|by destruct x]|intros [] s' [Hs' Hlt]; by apply HQ].
Qed.

(** What is known after code that had [n] left to do. *)
Definition act_post {R} (post : nat -> U -> R -> Prop) held s (n : nat) (Q : R -> sched F U -> Prop) : Prop :=
  forall r L' s' m, sinv s' L' (who_doing o) held -> who_in o L' -> grows s s' -> post m (user s') r ->
    (2 * m + pot s' <= 2 * n + pot s)%nat -> Q r s'.

Lemma act_post_mono {R} (post : nat -> U -> R -> Prop) held s s1 n n1 Q :
  act_post post held s n Q -> grows s s1 -> (2 * n1 + pot s1 <= 2 * n + pot s)%nat ->
  act_post post held s1 n1 Q.
Proof.
  intros HQ Hgr Hle r L' s' m H1 H2 H3 H4 H5. eapply HQ; [exact H1|done|by eapply grows_trans|done|lia].
Qed.

Lemma wp_run_act {R} (a : act F U R) post n s L held Q :
  sinv s L (who_doing o) held -> who_in o L -> queue_alive s = true -> act_ok post n (user s) a ->
  act_post post held s n Q -> wpe (run_act o a) s Q E.
Proof.
  revert n s L. induction a as [r|m| |k IH|own k IH|f l k IH|x k IH|i k IH|k IH|k IH|g k IH];
    intros n s L Hinv HL Hal Ha HQ; cbn [act_ok] in Ha; cbn [run_act]; try done.
  - apply wpe_ret. eapply HQ; [done|done|apply grows_refl|done|done].
  - destruct Ha as (m & -> & Ha). apply wpe_bind. eapply wp_wake_self; [done..|]. intros s' Hs' Hfr Hpot.
    apply (IH m _ L); [done..|by rewrite (lt_alive _ _ Hfr)|by rewrite (lt_user _ _ Hfr)|].
    eapply act_post_mono; [done|by apply frame_grows|lia].
  - apply wpe_bind, wpe_gets, wpe_bind. eapply wp_clone_self; [done..|]. intros s' Hs' [Hfr Hpot].
    apply (IH _ n _ L); [done..|by rewrite (lt_alive _ _ Hfr)|by rewrite (lt_user _ _ Hfr)|].
    eapply act_post_mono; [done|by apply frame_grows|lia].
  - destruct Ha as (Hf & m & -> & Ha). eapply wp_spawn; [done..|]. intros i s' L' Hs' HL' Hgr Hu Hpot.
    eapply IH; [exact Hs'|done|by rewrite (gr_alive _ _ Hgr)|by rewrite Hu|].
    eapply act_post_mono; [done|done|lia].
  - apply wpe_bind. eapply wp_drop_own; [done..|]. intros s' Hs' [Hfr Hpot].
    apply (IH n _ L); [done..|by rewrite (lt_alive _ _ Hfr)|by rewrite (lt_user _ _ Hfr)|].
    eapply act_post_mono; [done|by apply frame_grows|lia].
  - destruct Ha as (m & -> & Ha). apply wpe_bind.
    assert (Hk : forall s', sinv s' L (who_doing o) held -> frame s s' -> (pot s' <= 1 + pot s)%nat ->
      wpe (run_act o k) s' Q E).
    { intros s' Hs' Hfr Hpot.
      apply (IH m _ L); [done..|by rewrite (lt_alive _ _ Hfr)|by rewrite (lt_user _ _ Hfr)|].
      eapply act_post_mono; [done|by apply frame_grows|lia]. }
    eapply wp_use_waker; [done| |apply Hk; [done|apply frame_refl|lia]].
    intros id' s1 Hs1 [Hfr1 Hpot1] _. eapply wp_schedular_wake; [done|].
    intros s' Hs' Hfr Hpot. apply Hk; [done|by eapply frame_trans|lia].
  - destruct o as [id|w]; [|by apply (IH [] n _ L)].
    destruct (polled_task _ _ _ _ Hinv HL) as (t & Ht & _).
    apply wpe_bind. eapply wp_get_task; [done|]. by apply (IH _ n _ L).
  - apply wpe_bind, wpe_gets. by apply (IH _ n _ L).
  - destruct Ha as (Hle & Hok & Ha). apply wpe_bind, wpe_modify.
    destruct (sinv_user _ _ _ _ _ Hinv Hle Hok) as (Hs' & Hgr & Hpot).
    apply (IH n _ L); [done..|]. eapply act_post_mono; [done|done|lia].
Qed.

End who.

Lemma wp_exec a n s L held id (Q : poll unit -> sched F U -> Prop) :
  sinv s L (polling id) held -> id ∈ L -> queue_alive s = true -> act_ok poll_ok n (user s) a ->
  exec_post id L held s (2 * n) Q -> wpe (exec id a) s Q E.
Proof.
  intros Hinv HL Hal Ha HQ. apply wpe_bind. eapply (wp_run_act (AsTask id)); [exact Hinv|done..|].
  intros r L' s' m Hs' HL' Hgr Hr Hpot. eapply wp_finish_poll; [done..|].
  eapply exec_post_mono; [done|done|lia].
Qed.

(** A running task that was popped from the queue is polled: its future is taken out
    and run by [c]. *)
Lemma wp_take_future {A} s L held id (c : F -> M (sched F U) A) (Q : A -> sched F U -> Prop) :
  sinv s L at_rest held -> (exists t, tasks s !! id = Some t /\ done t = Running) ->
  (forall f s1, sinv s1 L (polling id) held -> id ∈ L -> frame s s1 -> fok (user s) f ->
     (2 * fsize (user s) f + pot s1 <= pot s)%nat -> wpe (c f) s1 Q E) ->
  wpe (let! t := get_task id in
       let! f := deref (future t) in
       do! put_task id (with_future None (owned t) t) in c f) s Q E.
Proof.
  intros Hinv (t & Ht & Hr) HQ. pose proof Hinv as [Hc _ _ _].
  destruct (running_future _ _ _ _ _ _ Hc Ht Hr ltac:(done)) as (HL & f & Hf).
  destruct (c_status _ _ _ _ Hc _ _ Ht) as (_ & _ & _ & H). rewrite Hr in H. destruct H as (_ & _ & Hq).
  apply wpe_bind. eapply wp_get_task; [done|]. apply wpe_bind. eapply wpe_deref; [done|].
  apply wpe_bind, wpe_modify.
  destruct (u_futures _ (s_users _ _ _ _ Hinv) _ _ _ Ht Hf) as [[]|Hfok].
  apply HQ; [|done|by split|done|].
  - eapply (sinv_put s L at_rest (polling id)); try done.
    + split; [done|]. split; [done|]. split; [by intros ?%not_elem_of_nil|]. cbn. by rewrite Hr.
    + intros x Hx. unfold same_at. cbn. intuition congruence.
    + intros Hcur. by apply (c_queued _ _ _ _ Hc id t).
  - pose proof (pot_put s _ _ _ id t (with_future None (owned t) t) Hc Ht) as Hp.
    unfold task_weight in Hp. rewrite Hf in Hp. cbn [future with_future] in Hp. lia.
Qed.

Lemma wp_drive_fut {FO : FutureOk F U} s L held id (Q : poll unit -> sched F U -> Prop) :
  sinv s L at_rest held -> queue_alive s = true -> uin (user s) ->
  (exists t, tasks s !! id = Some t /\ done t = Running) ->
  exec_post id L held s 0 Q -> wpe (drive_task id) s Q E.
Proof.
  intros Hinv Hal Hin Ht HQ. eapply wp_take_future; [done..|]. intros f s1 Hinv1 HL Hfr Hfok Hpot.
  eapply (wp_exec _ (fsize (user s) f) _ L held); [done|done|by rewrite (lt_alive _ _ Hfr)| |].
  - rewrite (lt_user _ _ Hfr). apply fpoll_ok; [apply (s_users _ _ _ _ Hinv)|done..].
  - eapply exec_post_mono; [done|by apply frame_grows|lia].
Qed.

(** ** The loop of [poll] *)
Lemma sinv_status s L d d' held :
  (forall id t, tasks s !! id = Some t -> status (should_poll s) L d id t ->
     status (should_poll s) L d' id t) ->
  sinv s L d held -> sinv s L d' held.
Proof.
  intros Hst [[Hnd Hq Hcnt Hs Hqu Hf Ho Ha] Hl Hd Hus]. split; [|done..]. split; try done.
  intros id t Ht. by apply Hst, Hs.
Qed.

(** A task that is done can be forgotten by the queue. *)
Lemma sinv_popped_done s L held id t :
  sinv s L (popped (Some id)) held -> tasks s !! id = Some t -> done t = Done -> sinv s L at_rest held.
Proof.
  intros Hinv Ht Hd. eapply sinv_status; [|exact Hinv]. intros x u Hu Hst.
  destruct (decide (x = id)) as [->|Hne].
  - assert (u = t) as -> by congruence. destruct Hst as (_ & _ & _ & H). rewrite Hd in H.
    split; [done|]. split; [done|]. split; [by intros ?%not_elem_of_nil|]. by rewrite Hd.
  - eapply status_mono; [|by left|done|exact Hst]. unfold same_at. cbn. intuition congruence.
Qed.

(** A running task is taken from the queue to be polled. *)
Lemma wp_unqueue s L held id t (Q : unit -> sched F U -> Prop) :
  sinv s L (popped (Some id)) held -> tasks s !! id = Some t -> done t = Running ->
  (id ∉ should_poll s) ->
  (forall s', sinv s' L at_rest held -> later 0 s s' ->
     tasks s' !! id = Some (with_queued false t) -> Q tt s') ->
  wpe (upd_task id (with_queued false)) s Q E.
Proof.
  intros Hinv Ht Hr Hout HQ. pose proof Hinv as [Hc _ _ _].
  destruct (c_status _ _ _ _ Hc _ _ Ht) as (_ & _ & _ & H). rewrite Hr in H. destruct H as (HL & Hf & _).
  apply wpe_bind. eapply wp_get_task; [done|]. apply wpe_modify, HQ.
  - eapply sinv_put; try done.
    + split; [done|]. split; [done|]. split; [by intros ?%not_elem_of_nil|]. cbn. by rewrite Hr.
    + intros x Hx. unfold same_at. cbn. intuition congruence.
    + by same_future Hinv t.
  - by eapply later_put.
  - apply lookup_insert_eq.
Qed.

(** The waker [w] was called since [o]. *)
Definition called (w : nat) (o : list nat) s : Prop := exists l, outer_woken s = o ++ l /\ w ∈ l.

(** What the loop keeps from one iteration to the next. *)
Record moves s s' : Prop := {
  m_user : ule (user s) (user s');
  m_alive : queue_alive s' = queue_alive s;
  m_armed : forall w o, armed w o s -> armed w o s';
  m_sees : sees_all s -> sees_all s';
}.

Lemma moves_trans s1 s2 s3 : moves s1 s2 -> moves s2 s3 -> moves s1 s3.
Proof. intros [] []. split; [by eapply ule_trans|congruence|auto..]. Qed.

Lemma grows_moves s s' : grows s s' -> moves s s'.
Proof. intros [Hu Ha Hg Hm]. split; [done..|]. intros Hs g. rewrite Hg. apply Hs. Qed.

Lemma later_moves k s s' : later k s s' -> moves s s'.
Proof. intros [Hf _]. by apply grows_moves, frame_grows. Qed.

(** The result of the loop: it has one when [fuel] exceeds the work left; ready
    means that no task is left; and a pending executor is woken again. *)
Definition poll_post (w fuel : nat) s (r : option (poll unit)) s' : Prop :=
  exists L' held', sinv s' L' at_rest held' /\ queue_alive s' = queue_alive s /\
    ule (user s) (user s') /\ uin (user s') /\ ((pot s < fuel)%nat -> is_Some r) /\ (pot s' <= pot s)%nat /\
    (r = Some (Ready tt) -> L' = []) /\
    (r = Some Pending -> forall o, armed w o s -> sees_all s ->
       called w o s' \/ (registered s' = Some w /\ should_poll s' = [] /\ L' <> [])).

Lemma poll_post_step w fuel fuel1 s s1 r s' :
  moves s s1 -> (pot s1 <= pot s)%nat -> (pot s < fuel -> pot s1 < fuel1)%nat ->
  poll_post w fuel1 s1 r s' -> poll_post w fuel s r s'.
Proof.
  intros [Hu Ha Hm Hs] Hp Hf (L' & held' & H1 & H2 & H3 & H4 & H5 & H6 & H7 & H8). exists L', held'.
  split_and!; [done|congruence|by eapply ule_trans|done|auto|lia|done|].
  intros Hr o Ho Hse. by apply H8; [|apply Hm|apply Hs].
Qed.

(** The executor is called and the waker of the task dropped. *)
Lemma wp_yield w s0 s L held id fuel (Q : option (poll unit) -> sched F U -> Prop) :
  moves s0 s -> sinv s L at_rest (id :: held) -> uin (user s) -> (pot s <= pot s0)%nat ->
  (forall r s', poll_post w fuel s0 r s' -> Q r s') ->
  wpe (do! wake_outer w in do! schedular_drop id in ret (Some Pending)) s Q E.
Proof.
  intros [Hu Ha Hm Hs] Hinv Hin Hpot HQ. apply wpe_bind, wpe_modify, wpe_bind.
  eapply wp_decr; [eapply (sinv_same s); [by split|done..]|].
  intros m s' Hs' [Hfr Hpot'] _ _. apply wpe_ret, HQ. exists L, held.
  change (pot (add_outer_woken w s)) with (pot s) in Hpot'.
  split_and!; [done|done|done|done|by eexists|lia|done|].
  intros _ o Ho _. left. destruct (Hm _ _ Ho) as (l & Hl & _). exists (l ++ [w]). cbn.
  rewrite Hl, <- app_assoc. split; [done|]. apply elem_of_app. right. by left.
Qed.

(** A task that is out of the list has no future. *)
Lemma sinv_popped r s L held id :
  sinv_ (returned r id) s L at_rest held -> id ∉ L -> sinv s L at_rest held.
Proof.
  intros Hinv HL. eapply sinv_gone; [|exact Hinv]. intros x t [-> _] Ht Hf.
  destruct (c_status _ _ _ _ (s_core _ _ _ _ Hinv) _ _ Ht) as (_ & _ & _ & H).
  destruct (done t); [by destruct HL, H..|]. by destruct H.
Qed.

(** The guard of [poll] takes a task whose poll is over out of the list, and its
    waker is dropped. *)
Lemma wp_remove {A} r s L held id (k : M (sched F U) A) (Q : A -> sched F U -> Prop) :
  sinv_ (returned r id) s L at_rest (id :: held) -> id ∈ L ->
  (forall s' L', sinv s' L' at_rest held -> id ∉ L' -> frame s s' -> (pot s' <= pot s)%nat -> wpe k s' Q E) ->
  wpe (do! pop_task_all id in do! schedular_drop id in k) s Q E.
Proof.
  intros Hinv HL HQ. apply wpe_bind. eapply (wp_pop_task_all _ _ _ _ _ None); [done|done|by left|].
  intros l1 l2 s3 -> Hinv3 [Hfr3 Hpot3]. apply wpe_bind. eapply wp_decr; [done|].
  intros m s4 Hinv4 [Hfr4 Hpot4] _ _.
  assert (Hout : id ∉ l1 ++ l2).
  { pose proof (c_nodup _ _ _ _ (s_core _ _ _ _ Hinv)) as Hnd.
    apply NoDup_app in Hnd as (_ & H12 & [H2 _]%NoDup_cons).
    intros [H|H]%elem_of_app; [|done]. apply (H12 id H). left. }
  apply sinv_popped in Hinv4; [|done].
  eapply HQ; [done|done|by eapply frame_trans|lia].
Qed.

(** What is done with a task taken from the queue, before the next iteration. *)
Lemma wp_poll_running {FO : FutureOk F U} w fuel s L held cur t it y (Q : option (poll unit) -> sched F U -> Prop) :
  sinv s L (popped (Some cur)) (cur :: held) -> tasks s !! cur = Some t -> done t = Running ->
  queued t = true -> (cur ∉ should_poll s) -> queue_alive s = true -> uin (user s) ->
  (forall s' L' it y, sinv s' L' at_rest held -> grows s s' -> uin (user s') -> (pot s' <= pot s)%nat ->
     wpe (poll_loop fuel w it y) s' Q E) ->
  (forall r s', poll_post w (S fuel) s r s' -> Q r s') ->
  wpe (do! upd_task cur (with_queued false) in
       do! assert (queued t) "assertion failed: prev" in
       let! r := drive_task cur in
       match r with
       | Ready _ =>
           do! pop_task_all cur in
           do! schedular_drop cur in
           poll_loop fuel w (it + 1) y
       | Pending =>
           let! t := get_task cur in
           let! n := gets len in
           if ((2 <? y + (if queued t then 1 else 0)) || (n <? it + 1))%Z then
             do! wake_outer w in
             do! schedular_drop cur in
             ret (Some Pending)
           else
             do! schedular_drop cur in
             poll_loop fuel w (it + 1) (y + (if queued t then 1 else 0))
       end) s Q E.
Proof.
  intros Hinv Ht Hr Hq Hout Hal Hin Hnext HQ. apply wpe_bind. eapply wp_unqueue; [done..|].
  intros s1 Hinv1 [Hfr1 Hpot1] Ht1. apply wpe_bind, wpe_assert_true; [done|]. apply wpe_bind.
  eapply wp_drive_fut; [done|by rewrite (lt_alive _ _ Hfr1)|by rewrite (lt_user _ _ Hfr1)|by eexists|].
  intros r L2 s2 Hinv2 HL2 Hgr2 Hin2 Hpot2.
  assert (Hgr : grows s s2) by (eapply grows_trans; [by apply frame_grows|done]).
  destruct r as [u|].
  - eapply wp_remove; [done..|]. intros s' L' Hinv' _ Hfr Hpot.
    eapply Hnext; [done| |by rewrite (lt_user _ _ Hfr)|lia].
    eapply grows_trans; [done|by apply frame_grows].
  - apply (sinv_gone _ none_returned) in Hinv2; [|by intros ? ? [_ [=]]].
    destruct (core_get _ _ _ _ cur (s_core _ _ _ _ Hinv2)) as [t2 Ht2]; [by apply refs_list|].
    apply wpe_bind. eapply wp_get_task; [done|]. apply wpe_bind, wpe_gets.
    destruct (_ || _).
    + eapply wp_yield; [by apply grows_moves|done..|lia|done].
    + apply wpe_bind. eapply wp_decr; [done|].
      intros m s4 Hinv4 [Hfr4 Hpot4] _ _. eapply Hnext; [done| |by rewrite (lt_user _ _ Hfr4)|lia].
      eapply grows_trans; [done|by apply frame_grows].
Qed.

Lemma moves_gap s g : (sees_all s -> sees_all (set_gap g s)) -> moves s (set_gap g s).
Proof. split; [apply ule_refl|done..]. Qed.

Lemma sinv_gap s L d held g : sinv s L d held -> sinv (set_gap g s) L d held.
Proof. intros H. eapply sinv_same; [| | | | |exact H]; by try split. Qed.

Lemma moves_pop s q g :
  (sees_all s -> sees_all (set_gap g (set_should_poll q s))) -> moves s (set_gap g (set_should_poll q s)).
Proof. split; [apply ule_refl|done..]. Qed.

Lemma pot_pop s id q g : should_poll s = id :: q -> (S (pot (set_gap g (set_should_poll q s))) = pot s)%nat.
Proof. intros Hq. unfold pot. cbn. rewrite Hq. cbn. lia. Qed.

Lemma wp_poll_loop {FO : FutureOk F U} w fuel s L held it y (Q : option (poll unit) -> sched F U -> Prop) :
  sinv s L at_rest held -> queue_alive s = true -> uin (user s) ->
  (forall r s', poll_post w fuel s r s' -> Q r s') -> wpe (poll_loop fuel w it y) s Q E.
Proof.
  revert s L held it y Q. induction fuel as [|fuel IH]; intros s L held it y Q Hinv Hal Hin HQ; cbn [poll_loop].
  { apply wpe_ret, HQ. exists L, held. split_and!; [done|done|apply ule_refl|done|lia|done..]. }
  apply wpe_bind. eapply wp_q_pop; [done|done|..].
  - intros _. apply wpe_bind, wpe_modify, wpe_ret, HQ. exists L, held.
    split_and!; [eapply sinv_same; [| | | | |exact Hinv]; by try split|done|apply ule_refl|done|by eexists|done|done|].
    intros _ o (l & Hl & _) _. left. exists (l ++ [w]). cbn. rewrite Hl, <- app_assoc.
    split; [done|]. apply elem_of_app. right. by left.
  - intros g s1 Hs. apply wpe_bind, wpe_gets, wpe_ret, HQ. exists L, held.
    split_and!; [by apply sinv_gap|done|apply ule_refl|done|by eexists|done| |].
    + cbn. rewrite (l_next _ _ (s_linked _ _ _ _ Hinv)). by destruct L.
    + intros Hr o (l & Hl & Hw) Hse. destruct (Hs Hse) as [Hq _].
      destruct Hw as [Hw|Hw]; [right|left; by exists l]. split_and!; [done..|]. intros ->.
      cbn in Hr. by rewrite (l_next _ _ (s_linked _ _ _ _ Hinv)) in Hr.
  - intros cur q g s1 Hq Hout Hse Hg Hqt Hinv1. pose proof (pot_pop s cur q g Hq) as Hpot1.
    pose proof (moves_pop s q g Hse) as Hmv1. fold s1 in Hpot1, Hmv1.
    destruct (core_get _ _ _ _ cur (s_core _ _ _ _ Hinv1)) as [t Ht]; [by apply refs_held; left|].
    assert (Hnext : forall s' L' held' it y, sinv s' L' at_rest held' -> moves s1 s' -> uin (user s') -> (pot s' <= pot s1)%nat ->
      wpe (poll_loop fuel w it y) s' Q E).
    { intros s' L' held' it' y' Hinv' Hm Hin' Hp. eapply IH; [done|by rewrite (m_alive _ _ Hm)|done|].
      intros r s'' Hpost. apply HQ. apply (poll_post_step w (S fuel) fuel s s'); [by eapply moves_trans|lia|lia|exact Hpost]. }
    apply wpe_bind. eapply (wp_get_task _ s1); [done|]. destruct (done t) eqn:Hdn.
    + eapply (wp_poll_running w fuel s1 L held cur t it y); try done; [by apply Hqt| |].
      * intros s' L' it' y' Hinv' Hgr Hin' Hp. eapply Hnext; [done|by apply grows_moves|done..].
      * intros r s' Hpost. apply HQ. apply (poll_post_step w (S fuel) (S fuel) s s1); [done|lia|lia|exact Hpost].
    + destruct (c_status _ _ _ _ (s_core _ _ _ _ Hinv1) _ _ Ht) as (_ & _ & _ & H).
      rewrite Hdn in H. destruct H as (HL & _). apply wpe_bind.
      eapply wp_pop_task_all; [exact Hinv1|done|by right|]. intros l1 l2 s' -> Hinv' Hlt.
      eapply Hnext; [done|by eapply later_moves|by rewrite (lt_user _ _ (proj1 Hlt))|by destruct Hlt].
    + apply wpe_bind. eapply wp_decr; [by eapply sinv_popped_done|]. intros m s' Hinv' Hlt _ _.
      eapply Hnext; [done|by eapply later_moves|by rewrite (lt_user _ _ (proj1 Hlt))|by destruct Hlt].
Qed.

Lemma wp_poll_sched {FO : FutureOk F U} w fuel s L held (Q : option (poll unit) -> sched F U -> Prop) :
  sinv s L at_rest held -> queue_alive s = true -> uin (user s) ->
  (forall r s', (L = [] /\ r = Some (Ready tt) /\ s' = s) \/
     (L <> [] /\ poll_post w fuel (set_registered (Some w) s) r s') -> Q r s') ->
  wpe (poll_sched fuel w) s Q E.
Proof.
  intros Hinv Hal Hin HQ. apply wpe_bind, wpe_gets. rewrite (l_next _ _ (s_linked _ _ _ _ Hinv)).
  destruct L as [|x L]; cbn [head].
  - apply wpe_ret, HQ. by left.
  - apply wpe_bind, wpe_modify. eapply wp_poll_loop; [|done|done|].
    + eapply sinv_same; [| | | | |exact Hinv]; by try split.
    + intros r s' Hpost. apply HQ. by right.
Qed.

(** ** Clearing *)
Lemma wp_clear_all fuel s L held (Q : option unit -> sched F U -> Prop) :
  sinv s L at_rest held ->
  (forall r L' s', sinv s' L' at_rest held -> later 0 s s' -> (r = Some tt -> L' = []) ->
     ((length L < fuel)%nat -> r = Some tt) -> Q r s') ->
  wpe (clear_all fuel) s Q E.
Proof.
  revert s L Q. induction fuel as [|fuel IH]; intros s L Q Hinv HQ; cbn [clear_all].
  { apply wpe_ret, (HQ _ L); [done|apply later_refl|done|lia]. }
  apply wpe_bind, wpe_gets. rewrite (l_next _ _ (s_linked _ _ _ _ Hinv)). destruct L as [|x L]; cbn [head].
  - apply wpe_ret, (HQ _ []); [done|apply later_refl|done|done].
  - apply wpe_bind. eapply wp_pop_task_all; [exact Hinv|left|by left|].
    intros l1 l2 s1 HL Hinv1 Hlt1. eapply IH; [exact Hinv1|]. intros r L' s' Hinv' Hlt Hr Hf.
    apply (HQ r L'); [done|by eapply (later_trans 0 0)|done|].
    intros Hlen. apply Hf. apply (f_equal length) in HL. rewrite length_app in *. cbn in *. lia.
Qed.

(** When the list is empty the tasks in the queue are done. *)
Lemma wp_clear_queue fuel s held (Q : option unit -> sched F U -> Prop) :
  sinv s [] at_rest held ->
  (forall r s', sinv s' [] at_rest held -> queue_alive s' = queue_alive s ->
     next_id s' = next_id s -> user s' = user s -> (r = Some tt -> sees_all s -> should_poll s' = []) ->
     ((length (should_poll s) + gaps s < fuel)%nat -> r = Some tt) -> Q r s') ->
  wpe (clear_queue fuel) s Q E.
Proof.
  revert s Q. induction fuel as [|fuel IH]; intros s Q Hinv HQ; cbn [clear_queue].
  { apply wpe_ret, HQ; [done..|lia]. }
  apply wpe_bind. eapply wp_q_pop; [done|done|..].
  - intros Hg. eapply IH; [by apply sinv_gap|]. intros r s' H1 H2 H3 Hu H4 H5.
    apply HQ; [done..| |]; [intros Hr _; by apply H4|]. intros Hlt. apply H5.
    change (should_poll (set_gap None s)) with (should_poll s). change (gaps (set_gap None s)) with 0%nat. lia.
  - intros g s1 Hs. apply wpe_ret, HQ; [by apply sinv_gap|done|done|done| |done].
    intros _ Hse. by apply Hs.
  - intros cur q g s1 Hq Hout Hse Hg _ Hinv1.
    destruct (core_get _ _ _ _ cur (s_core _ _ _ _ Hinv1)) as [t Ht]; [by apply refs_held; left|].
    assert (Hdn : done t = Done).
    { destruct (c_status _ _ _ _ (s_core _ _ _ _ Hinv1) _ _ Ht) as (_ & _ & _ & H).
      destruct (done t); [destruct H as [H _]; by apply not_elem_of_nil in H..|done]. }
    apply wpe_bind. eapply wp_decr; [by eapply sinv_popped_done|]. intros m s2 Hinv2 [Hfr2 _] _ _.
    eapply IH; [exact Hinv2|]. intros r s' H1 H2 H3 Hu H4 H5.
    apply HQ; [done..|by rewrite Hu, (lt_user _ _ Hfr2)| |].
    + intros Hr Hsee. apply H4; [done|]. by apply Hse.
    + intros Hlt. apply H5. change (gaps s2) with (gaps s1). change (should_poll s2) with q.
      rewrite Hq in Hlt. cbn in Hlt. lia.
Qed.

Lemma wp_clear fuel s L held (Q : option unit -> sched F U -> Prop) :
  sinv s L at_rest held ->
  (forall r L' s', sinv s' L' at_rest held -> queue_alive s' = queue_alive s -> next_id s' = next_id s ->
     user s' = user s -> (r = Some tt -> L' = [] /\ (sees_all s -> should_poll s' = [])) ->
     ((length L < fuel)%nat -> (pot s + gaps s < fuel)%nat -> r = Some tt) -> Q r s') ->
  wpe (clear fuel) s Q E.
Proof.
  intros Hinv HQ. apply wpe_bind. eapply wp_clear_all; [done|].
  intros r L1 s1 Hinv1 [Hfr Hpot] Hr1 Hf1. destruct r as [[]|].
  - rewrite (Hr1 eq_refl) in Hinv1. eapply wp_clear_queue; [done|]. intros r s' H1 H2 H3 Hu H4 H5.
    apply (HQ r []); [done|by rewrite H2, (lt_alive _ _ Hfr)|by rewrite H3, (lt_next _ _ Hfr)|by rewrite Hu, (lt_user _ _ Hfr)| |].
    + intros Hr. split; [done|]. intros Hse. apply H4; [done|]. intros g. rewrite (lt_gap _ _ Hfr). apply Hse.
    + intros _ Hlt. apply H5. assert (gaps s1 = gaps s) as -> by (unfold gaps; by rewrite (lt_gap _ _ Hfr)).
      unfold pot in *. lia.
  - apply wpe_ret, (HQ None L1); [done|apply Hfr|apply Hfr|apply Hfr|done|]. intros Hlt _. by apply Hf1.
Qed.

(** ** Everything that can happen to a scheduler *)
Lemma wp_if_alive c s (Q : unit -> sched F U -> Prop) :
  (queue_alive s = true -> wpe c s Q E) -> (queue_alive s = false -> Q tt s) -> wpe (if_alive c) s Q E.
Proof. intros H1 H2. apply wpe_bind, wpe_gets. destruct (queue_alive s); [by apply H1|by apply H2]. Qed.

(** A scheduler between operations. *)
Definition rest s : Prop := exists L held, sinv s L at_rest held.

(** The futures pushed from outside are fine, and can be polled from there. *)
Definition op_ok (o : op F) : Prop :=
  match o with
  | OPush f => forall u, uok u -> fok u f
  | OPoll _ _ => forall u, uok u -> uin u
  | _ => True
  end.

Lemma wp_waker_op i b f s :
  rest s ->
  (forall id s' L held, sinv s' L at_rest (if b : bool then id :: held else held) ->
     is_Some (tasks s' !! id) -> wpe (f id) s' (fun _ => rest) E) ->
  wpe (use_waker i b f) s (fun _ => rest) E.
Proof.
  intros (L & held & Hinv) Hf. eapply wp_use_waker; [done| |by exists L, held].
  intros id s' Hs' _ Hid. by eapply Hf.
Qed.

Definition is_poll (o : op F) : bool := match o with OPoll _ _ => true | _ => false end.

Lemma wp_other_op o s : rest s -> op_ok o -> is_poll o = false -> wpe (run_op o) s (fun _ => rest) E.
Proof.
  intros Hrest Hok Hno. pose proof Hrest as (L & held & Hinv).
  destruct o as [f|fuel w|i|i|i|i|n|g|fuel|fuel]; cbn [run_op].
  - apply wp_if_alive; [|done]. intros Hal. apply wpe_bind.
    eapply wp_push_cancellable;
      [done|done|by intros n ?%not_elem_of_nil|apply Hok, (s_users _ _ _ _ Hinv)|done..|by apply not_elem_of_nil|].
    intros ? _ _. apply wpe_ret. by eexists _, _.
  - done.
  - apply wp_waker_op; [done|]. intros id s1 L1 held1 Hinv1 _.
    eapply wp_schedular_wake; [done|]. intros s' H _ _. by eexists _, _.
  - apply wp_waker_op; [done|]. intros id s1 L1 held1 Hinv1 Hid.
    eapply wp_schedular_wake_ref; [done..|]. intros s' H _ _. by eexists _, _.
  - apply wp_waker_op; [done|]. intros id s1 L1 held1 Hinv1 Hid.
    eapply wp_clone_waker; [done..|]. intros s' H _. by eexists _, _.
  - apply wp_waker_op; [done|]. intros id s1 L1 held1 Hinv1 _.
    eapply wp_decr; [done|]. intros m s' H _ _ _. by eexists _, _.
  - eapply wpe_post; [by apply (wp_drop_token (gone := none_returned))|]. intros [] s' [H _]. by exists L, held.
  - apply wpe_modify. exists L, held. by apply sinv_gap.
  - apply wp_if_alive; [|done]. intros Hal. apply wpe_bind. eapply wp_clear; [done|].
    intros r L' s' H _ _ _ _ _. apply wpe_ret. by exists L', held.
  - apply wp_if_alive; [|done]. intros Hal. apply wpe_bind. eapply wp_clear; [done|].
    intros [[]|] L' s' H _ _ _ Hr _; [|apply wpe_ret; by exists L', held].
    apply wpe_modify. destruct (Hr eq_refl) as [-> _]. exists [], held. destruct H as [Hc Hl Hd Hus].
    split; [|by apply (linked_same s')|by apply (drops_same s')|by apply (users_same s')].
    destruct Hc as [Hnd Hq Hcnt Hs Hqu Hf Ho Ha]. by split.
Qed.

Lemma wp_sched_op {FO : FutureOk F U} o s : rest s -> op_ok o -> wpe (run_op o) s (fun _ => rest) E.
Proof.
  intros Hrest Hok. destruct (is_poll o) eqn:Ho; [|by apply wp_other_op]. destruct o as [|fuel w| | | | | | | |]; try done.
  pose proof Hrest as (L & held & Hinv).
  apply wp_if_alive; [|done]. intros Hal. apply wpe_bind. eapply wp_poll_sched; [done|done|apply Hok, (s_users _ _ _ _ Hinv)|].
  intros r s' [(_ & _ & ->)|(_ & L' & held' & H & _)]; apply wpe_ret; [done|by exists L', held'].
Qed.

Lemma wp_sched_ops {FO : FutureOk F U} l s : rest s -> Forall op_ok l -> wpe (run_ops l) s (fun _ => rest) E.
Proof.
  revert s. induction l as [|o l IH]; intros s Hs Hl; cbn [run_ops]; [by apply wpe_ret|].
  apply Forall_cons in Hl as [Ho Hl].
  apply wpe_bind. eapply wpe_post; [by apply wp_sched_op|]. intros [] s' Hs'. by apply IH.
Qed.

Lemma rest_new u : uok u -> rest (new u).
Proof.
  intros Hu. exists [], []. split.
  - split; try done; try apply NoDup_nil_2. intros id [t Ht]. done.
  - by split.
  - split; [apply NoDup_nil_2|]. intros id. cbn. split; [by intros ?%not_elem_of_nil|lia].
  - split; [done|]. intros id t f Ht. done.
Qed.

End poll.
