(* ===== verification/SchedularQuiet.v ===== *)
(** * What the operations of the scheduler do not touch

    Properties of the state that code keeps because it does not write to it, and
    runs that do not depend on the fuel. *)

From S2P Require Import Prelude Defer Schedular.
Import Schedular.

(** ** What code does not touch *)
Lemma ho_get_task {F U} x (s : sched F U) (Q : task F -> sched F U -> Prop) :
  (forall t, tasks s !! x = Some t -> Q t s) -> ho (get_task x) s Q.
Proof.
  intros HQ. apply ho_bind, ho_gets. destruct (tasks s !! x) as [t|]; [|by intros a s']. by apply ho_ret, HQ.
Qed.

Section quiet.
Context {F U : Type} {FU : Future F U}.
Implicit Types (s : sched F U).

Context (I : sched F U -> Prop).

Definition quiet {A} (c : M (sched F U) A) : Prop := forall s, I s -> ho c s (fun _ => I).

Lemma quiet_bind {A B} (c : M (sched F U) A) (k : A -> M (sched F U) B) :
  quiet c -> (forall a, quiet (k a)) -> quiet (bind c k).
Proof. intros Hc Hk s Hs. apply ho_bind. intros a s' Hrun. apply Hk. by eapply Hc. Qed.
Lemma quiet_ret {A} (a : A) : quiet (ret a).
Proof. intros s Hs. by apply ho_ret. Qed.
Lemma quiet_gets {A} (f : sched F U -> A) : quiet (gets f).
Proof. intros s Hs. by apply ho_gets. Qed.
Lemma quiet_modify f : (forall s, I s -> I (f s)) -> quiet (modify f).
Proof. intros Hf s Hs. by apply ho_modify, Hf. Qed.
Lemma quiet_panic {A} m : quiet (panic m : M _ A).
Proof. by intros s Hs a s'. Qed.
Lemma quiet_ub {A} : quiet (ub : M _ A).
Proof. by intros s Hs a s'. Qed.
Lemma quiet_deref {A} (o : option A) : quiet (deref o).
Proof. destruct o; [apply quiet_ret|apply quiet_ub]. Qed.
Lemma quiet_assert b m : quiet (assert b m).
Proof. destruct b; [apply quiet_ret|apply quiet_panic]. Qed.
Lemma quiet_for_each {A} (f : A -> M (sched F U) unit) l : (forall x, quiet (f x)) -> quiet (for_each f l).
Proof. intros Hf. induction l as [|x l IH]; cbn; [apply quiet_ret|]. apply quiet_bind; [done|]. by intros _. Qed.
End quiet.

Create HintDb quiet.
#[export] Hint Resolve quiet_ret quiet_gets quiet_panic quiet_ub quiet_deref quiet_assert : quiet.

(** Follows the code. *)
Ltac hush :=
  repeat first
    [ solve [auto with quiet] | apply quiet_modify; done | apply quiet_for_each; intros ? | apply quiet_bind; [|intros ?]
    | case_match ].

(** ** No other thread in the middle of a push

    It stays so while only the owner of the scheduler runs, and executors are only
    called more often than [log] says. *)
Section gapless.
Context {F U : Type} {FU : Future F U} (log : list nat).
Implicit Types (s : sched F U).

Definition gapless s : Prop := gap s = None /\ exists l, outer_woken s = log ++ l.
Abbreviation quiet := (quiet (F := F) (U := U) gapless).

Lemma quiet_wake_outer w : quiet (wake_outer w).
Proof. apply quiet_modify. intros s [Hg [l Hl]]. split; [done|]. exists (l ++ [w]). cbn. by rewrite Hl, app_assoc. Qed.
#[local] Hint Resolve quiet_wake_outer : quiet.

Lemma quiet_get_task id : quiet (get_task id).
Proof. unfold get_task. hush. Qed.
#[local] Hint Resolve quiet_get_task : quiet.
Lemma quiet_upd_task id f : quiet (upd_task id f).
Proof. unfold upd_task, put_task. hush. Qed.
Lemma quiet_decr_task id : quiet (decr_task id).
Proof. unfold decr_task, put_task. hush. Qed.
#[local] Hint Resolve quiet_upd_task quiet_decr_task : quiet.
Lemma quiet_set_queued id : quiet (set_queued id).
Proof. unfold set_queued, put_task. hush. Qed.
Lemma quiet_queue_wake : quiet queue_wake.
Proof. unfold queue_wake. hush. Qed.
#[local] Hint Resolve quiet_set_queued quiet_queue_wake : quiet.
Lemma quiet_schedular_wake id : quiet (schedular_wake id).
Proof. unfold schedular_wake, schedular_drop, q_push. hush. Qed.
#[local] Hint Resolve quiet_schedular_wake : quiet.
Lemma quiet_schedular_wake_ref id : quiet (schedular_wake_ref id).
Proof. unfold schedular_wake_ref, inner_clone, incr_task. hush. Qed.
Lemma quiet_use_waker i b f : (forall id, quiet (f id)) -> quiet (use_waker i b f).
Proof. intros Hf. unfold use_waker. hush. Qed.
#[local] Hint Resolve quiet_schedular_wake_ref quiet_use_waker : quiet.

Lemma quiet_drop_thing dt x : (forall n, quiet (dt n)) -> quiet (drop_thing dt x).
Proof. intros Hd. destruct x as [n|i]; [apply Hd|]. apply quiet_use_waker. intros id. apply quiet_decr_task. Qed.
#[local] Hint Resolve quiet_drop_thing : quiet.
Lemma quiet_drop_task dt id : (forall n, quiet (dt n)) -> quiet (drop_task dt id).
Proof. intros Hd. unfold drop_task, put_task. hush. Qed.
#[local] Hint Resolve quiet_drop_task : quiet.
Lemma quiet_drop_token_ fuel n : quiet (drop_token_ fuel n).
Proof.
  induction fuel as [|fuel IH] in n |- *; cbn [drop_token_]; [apply quiet_ub|].
  unfold take_token, drop_cancel_token, put_task, q_push, Defer.drop, Defer.take. hush.
Qed.
#[local] Hint Resolve quiet_drop_token_ : quiet.
Lemma quiet_drop_token n : quiet (drop_token n).
Proof. unfold drop_token. hush. Qed.
#[local] Hint Resolve quiet_drop_token : quiet.

Lemma quiet_push f l : quiet (push_cancellable f l).
Proof. unfold push_cancellable, push_task_to_all, put_task, incr_task, q_push. hush. Qed.
Lemma quiet_pop_task_all id : quiet (pop_task_all id).
Proof. unfold pop_task_all, put_task. hush. Qed.
#[local] Hint Resolve quiet_push quiet_pop_task_all : quiet.

Lemma quiet_run_act {R} x (a : act F U R) : quiet (run_act x a).
Proof.
  induction a; cbn [run_act]; unfold clone_waker, inner_clone, incr_task; hush.
Qed.
#[local] Hint Resolve quiet_run_act : quiet.
Lemma quiet_drive_task id : quiet (drive_task id).
Proof. unfold drive_task, put_task, exec, finish_poll. hush. Qed.
#[local] Hint Resolve quiet_drive_task : quiet.

Lemma quiet_q_pop : quiet q_pop.
Proof.
  intros s Hs. unfold q_pop. apply ho_bind, ho_gets. destruct Hs as [Hs Hl]. rewrite Hs.
  by apply ho_bind, ho_gets; destruct (should_poll s); [apply ho_ret|apply ho_bind, ho_modify, ho_bind, ho_modify, ho_ret].
Qed.
#[local] Hint Resolve quiet_q_pop : quiet.

Lemma quiet_poll_loop fuel w it y : quiet (poll_loop fuel w it y).
Proof.
  induction fuel as [|fuel IH] in it, y |- *; cbn [poll_loop]; unfold is_empty, schedular_drop, Defer.drop, Defer.take; hush.
Qed.
Lemma quiet_poll_sched fuel w : quiet (poll_sched fuel w).
Proof. unfold poll_sched, is_empty, queue_register. pose proof quiet_poll_loop. hush. Qed.
End gapless.

(** ** Who does not call the executor *)
Section silent.
Context {F U : Type} {FU : Future F U} (log : list nat).
Implicit Types (s : sched F U) (t : task F).

Definition silent s : Prop := outer_woken s = log.
Abbreviation quiet := (quiet (F := F) (U := U) silent).

Lemma silent_get_task id : quiet (get_task id).
Proof. unfold get_task. hush. Qed.
#[local] Hint Resolve silent_get_task : quiet.
Lemma silent_upd_task id f : quiet (upd_task id f).
Proof. unfold upd_task, put_task. hush. Qed.
Lemma silent_decr_task id : quiet (decr_task id).
Proof. unfold decr_task, put_task. hush. Qed.
#[local] Hint Resolve silent_upd_task silent_decr_task : quiet.

Lemma silent_clone x b i : quiet
  (match x with
   | AsTask id =>
       do! clone_waker id in
       if (b : bool) then upd_task id (fun t => with_future (future t) (owned t ++ [Wak i]) t) else ret tt
   | AsRoot _ => modify (fun s => set_wakers (wakers s ++ [None]) s)
   end).
Proof. unfold clone_waker, inner_clone, incr_task. hush. Qed.

Lemma silent_push f l : quiet (push_cancellable f l).
Proof. unfold push_cancellable, push_task_to_all, put_task, incr_task, q_push. hush. Qed.

(** The token of a task that does not run is dropped. *)
Lemma silent_drop n s :
  silent s -> (forall j t, tokens s !! n = Some (Some j) -> tasks s !! j = Some t -> done t <> Running) ->
  ho (drop_thing drop_token (Tok n)) s (fun _ => silent).
Proof.
  intros Hs Hd. apply ho_bind, ho_gets, ho_bind, ho_gets. destruct (tokens s !! n) as [[j|]|]; [|by apply ho_ret..].
  apply ho_bind, ho_modify, ho_bind, ho_get_task. intros t Ht. specialize (Hd j t eq_refl Ht).
  by destruct (done t); [|apply silent_decr_task..].
Qed.
End silent.

(** ** More fuel changes nothing *)
Section more.
Context {S : Type}.

(** A run of [c] that has a result is one of [c']. *)
Definition more {A} (c c' : M S (option A)) : Prop :=
  forall s a s', c s = Ok (Some a, s') -> c' s = Ok (Some a, s').

Lemma more_refl {A} (c : M S (option A)) : more c c.
Proof. by intros s a s'. Qed.

Lemma more_none {A} (c : M S (option A)) : more (ret None) c.
Proof. by intros s a s'. Qed.

Lemma more_bind {A B} (c : M S A) (k k' : A -> M S (option B)) :
  (forall a, more (k a) (k' a)) -> more (bind c k) (bind c k').
Proof. intros Hk s b s'. unfold bind. destruct (c s) as [[a s1]| |]; [apply Hk|done..]. Qed.

(** A first part with fuel, and no result without one of it. *)
Lemma more_first {A B} (c c' : M S (option A)) (k k' : option A -> M S (option B)) :
  more c c' -> (forall a, more (k (Some a)) (k' (Some a))) -> (forall s b s', k None s <> Ok (Some b, s')) ->
  more (bind c k) (bind c' k').
Proof.
  intros Hc Hk Hn s b s'. unfold bind. destruct (c s) as [[[a|] s1]| |] eqn:Hr; [|by intros H%Hn|done..].
  rewrite (Hc _ _ _ Hr). apply Hk.
Qed.
End more.

Ltac follow_more := repeat first [apply more_refl | apply more_none | done | apply more_bind; intros ? | case_match].

Lemma more_poll_loop {F U} {FU : Future F U} fuel fuel' w it y :
  (fuel <= fuel')%nat -> more (poll_loop (F := F) (U := U) fuel w it y) (poll_loop fuel' w it y).
Proof.
  revert fuel' it y. induction fuel as [|fuel IH]; intros fuel' it y Hle; [apply more_none|].
  destruct fuel' as [|fuel']; [lia|]. cbn [poll_loop].
  assert (H : forall it y, more (poll_loop (F := F) (U := U) fuel w it y) (poll_loop fuel' w it y)) by (intros; apply IH; lia).
  repeat first [apply H | apply more_refl | apply more_bind; intros ? | case_match].
Qed.

Lemma more_poll_sched {F U} {FU : Future F U} fuel fuel' w :
  (fuel <= fuel')%nat -> more (poll_sched (F := F) (U := U) fuel w) (poll_sched fuel' w).
Proof.
  intros Hle. apply more_bind. intros []; [apply more_refl|]. apply more_bind. intros _. by apply more_poll_loop.
Qed.
