(* ===== verification/SchedularView.v ===== *)
(** * What the scheduler does to the tasks that run

    The running tasks with their futures, the wakers and the tokens: what decides
    whether a task will be polled again.  Each operation has its effect on this
    view, and a poll of the scheduler keeps a property of it that the polls of
    futures keep. *)

From S2P Require Import Prelude Defer Schedular SchedularInv SchedularSafe SchedularPoll SchedularQuiet.
Import Schedular.

Section view.
Context {F U : Type}.
Implicit Types (s : sched F U) (t : task F).

Record running_task := { rt_queued : bool; rt_future : F; rt_owned : list thing }.

Record view := {
  v_tasks : gmap nat running_task;
  v_wakers : list (option nat);
  v_tokens : list (option nat);
  v_next : nat;
  v_user : U;
}.

(** The future of the task that is polled is not in its place; [cur] tells the
    one it was polled with. *)
Definition future_in (cur : option (nat * F)) (id : nat) t : option F :=
  match cur with
  | Some (c, f) => if decide (c = id) then Some f else future t
  | None => future t
  end.

Definition as_running (cur : option (nat * F)) (id : nat) t : option running_task :=
  match done t with
  | Running =>
      match future_in cur id t with
      | Some f => Some {| rt_queued := queued t; rt_future := f; rt_owned := owned t |}
      | None => None
      end
  | Cancelled | Done => None
  end.

Definition view_of cur s : view :=
  {| v_tasks := map_imap (as_running cur) (tasks s); v_wakers := wakers s; v_tokens := tokens s;
     v_next := next_id s; v_user := user s |}.

(** ** Effects *)
Definition on_tasks f (v : view) : view :=
  {| v_tasks := f (v_tasks v); v_wakers := v_wakers v; v_tokens := v_tokens v; v_next := v_next v; v_user := v_user v |}.
Definition on_wakers f (v : view) : view :=
  {| v_tasks := v_tasks v; v_wakers := f (v_wakers v); v_tokens := v_tokens v; v_next := v_next v; v_user := v_user v |}.
Definition on_tokens f (v : view) : view :=
  {| v_tasks := v_tasks v; v_wakers := v_wakers v; v_tokens := f (v_tokens v); v_next := v_next v; v_user := v_user v |}.
Definition on_user f (v : view) : view :=
  {| v_tasks := v_tasks v; v_wakers := v_wakers v; v_tokens := v_tokens v; v_next := v_next v; v_user := f (v_user v) |}.

Definition queue_as (b : bool) (t : running_task) : running_task :=
  {| rt_queued := b; rt_future := rt_future t; rt_owned := rt_owned t |}.
Definition put_future (f : F) (t : running_task) : running_task :=
  {| rt_queued := rt_queued t; rt_future := f; rt_owned := rt_owned t |}.
Definition own (x : thing) (t : running_task) : running_task :=
  {| rt_queued := rt_queued t; rt_future := rt_future t; rt_owned := rt_owned t ++ [x] |}.

Definition wake_v (id : nat) : view -> view := on_tasks (alter (queue_as true) id).
Definition drop_slot (i : nat) : view -> view := on_wakers (fun l => <[i := None]> l).
Definition wake_slot (i : nat) (v : view) : view :=
  match v_wakers v !! i with
  | Some (Some id) => wake_v id (drop_slot i v)
  | _ => v
  end.
Definition spawn_v (f : F) (l : list nat) (v : view) : view :=
  {| v_tasks := <[v_next v := {| rt_queued := true; rt_future := f; rt_owned := map Wak l |}]> (v_tasks v);
     v_wakers := v_wakers v; v_tokens := v_tokens v ++ [Some (v_next v)]; v_next := S (v_next v); v_user := v_user v |}.

(** What the code that is polled does to its own task. *)
Definition own_v (o : who) (x : thing) (v : view) : view :=
  match o with AsTask id => on_tasks (alter (own x) id) v | AsRoot _ => v end.
Definition clone_v (o : who) (b : bool) (v : view) : view :=
  match o with
  | AsTask id =>
      let v' := on_wakers (fun l => l ++ [Some id]) v in
      if b then own_v o (Wak (length (v_wakers v))) v' else v'
  | AsRoot _ => on_wakers (fun l => l ++ [None]) v
  end.
Definition wake_self_v (o : who) (v : view) : view :=
  match o with AsTask id => wake_v id v | AsRoot _ => v end.

(** ** Polls

    [post] holds of the view and the result at the end of the poll [a]; tokens
    are dropped of tasks that do not run any more. *)
Fixpoint act_v {R} (o : who) (post : view -> R -> Prop) (v : view) (a : act F U R) : Prop :=
  match a with
  | ARet r => post v r
  | APanic _ | AStuck => True
  | AWakeSelf k => act_v o post (wake_self_v o v) k
  | AClone b k => act_v o post (clone_v o b v) (k (length (v_wakers v)))
  | ASpawn f l k => act_v o post (own_v o (Tok (length (v_tokens v))) (spawn_v f l v)) (k (length (v_tokens v)))
  | ADrop (Tok n) k =>
      (forall j, v_tokens v !! n = Some (Some j) -> v_tasks v !! j = None) /\
      act_v o post (on_tokens (fun l => <[n := None]> l) v) k /\
      match o with
      | AsTask id => (forall rt, v_tasks v !! id = Some rt -> Tok n ∉ rt_owned rt) -> act_v o post v k
      | AsRoot _ => True
      end
  | ADrop (Wak _) _ | AOwned _ => False
  | AWake i k => act_v o post (wake_slot i v) k
  | AGet k => act_v o post v (k (v_user v))
  | AUpd g k => act_v o post (on_user g v) k
  end.

Lemma act_v_mono {R} o (post post' : view -> R -> Prop) v a :
  (forall v r, post v r -> post' v r) -> act_v o post v a -> act_v o post' v a.
Proof.
  intros Hp. revert v. induction a as [r|m| |k IH|own k IH|f l k IH|[n|i] k IH|i k IH|k IH|k IH|g k IH];
    intros v; cbn [act_v]; try done; try (by auto).
  intros (H1 & H2 & H3). split_and!; [done|by auto|]. destruct o; [|done]. auto.
Qed.

Lemma act_v_bind {R S} o (post : view -> S -> Prop) v (a : act F U R) h :
  act_v o (fun v r => act_v o post v (h r)) v a -> act_v o post v (abind a h).
Proof.
  revert v. induction a as [r|m| |k IH|own k IH|f l k IH|[n|i] k IH|i k IH|k IH|k IH|g k IH];
    intros v; cbn [act_v abind]; try done; try (by auto).
  intros (H1 & H2 & H3). split_and!; [done|by auto|]. destruct o; [|done]. auto.
Qed.

Lemma act_v_and {R} o (post post' : view -> R -> Prop) v a :
  act_v o post v a -> act_v o post' v a -> act_v o (fun v r => post v r /\ post' v r) v a.
Proof.
  revert v. induction a as [r|m| |k IH|own k IH|f l k IH|[n|i] k IH|i k IH|k IH|k IH|g k IH];
    intros v; cbn [act_v]; try done; try (by auto).
  intros (H1 & H2 & H3) (_ & H4 & H5). split_and!; [done|by auto|]. destruct o; [|done]. auto.
Qed.

(** ** Views of states *)
Implicit Types (L held : list nat) (d : doing).

Lemma view_eq v v' :
  (forall id, v_tasks v' !! id = v_tasks v !! id) -> v_wakers v' = v_wakers v -> v_tokens v' = v_tokens v ->
  v_next v' = v_next v -> v_user v' = v_user v -> v' = v.
Proof. destruct v, v'. cbn. intros H -> -> -> ->. f_equal. by apply map_eq. Qed.

Lemma view_lookup cur s id : v_tasks (view_of cur s) !! id = tasks s !! id ≫= as_running cur id.
Proof. apply map_lookup_imap. Qed.

(** A task changes in a way the view does not see. *)
Lemma view_put cur s id t t' :
  tasks s !! id = Some t -> as_running cur id t' = as_running cur id t ->
  view_of cur (set_tasks (<[id := t']> (tasks s)) s) = view_of cur s.
Proof.
  intros Ht He. apply view_eq; try done. intros x. rewrite !view_lookup. cbn.
  destruct (decide (x = id)) as [->|Hne]; [by rewrite lookup_insert_eq, Ht|by rewrite lookup_insert_ne].
Qed.

(** A task changes as the view does. *)
Lemma view_alter cur s id t t' g :
  tasks s !! id = Some t -> as_running cur id t' = g <$> as_running cur id t ->
  view_of cur (set_tasks (<[id := t']> (tasks s)) s) = on_tasks (alter g id) (view_of cur s).
Proof.
  intros Ht He. apply view_eq; try done. intros x. cbn [v_tasks on_tasks].
  destruct (decide (x = id)) as [->|Hne].
  - rewrite lookup_alter_eq, !view_lookup. cbn. by rewrite lookup_insert_eq, Ht.
  - rewrite lookup_alter_ne, !view_lookup by done. cbn. by rewrite lookup_insert_ne.
Qed.

Lemma queue_as_true (rt : running_task) : rt_queued rt = true -> queue_as true rt = rt.
Proof. by destruct rt as [[] f l]. Qed.

Lemma wake_queued cur s id t :
  tasks s !! id = Some t -> queued t = true -> wake_v id (view_of cur s) = view_of cur s.
Proof.
  intros Ht Hq. apply view_eq; try done. intros x. cbn [v_tasks wake_v on_tasks].
  destruct (decide (x = id)) as [->|Hne]; [|by rewrite lookup_alter_ne].
  rewrite lookup_alter_eq, view_lookup, Ht. cbn. unfold as_running. destruct (done t); try done.
  destruct (future_in cur id t); [|done]. cbn. by rewrite Hq.
Qed.
End view.

Arguments running_task F : clear implicits.
Arguments view F U : clear implicits.

(** A triple with what is known of the run. *)
Lemma wpe_run {S A} (c : M S A) s (Q R : A -> S -> Prop) E :
  wpe c s Q E -> (forall a s', c s = Ok (a, s') -> Q a s' -> R a s') -> wpe c s R E.
Proof. unfold wpe. destruct (c s) as [[a s']| |]; auto. Qed.

Section ops.
Context {F U : Type} {FU : Future F U} {FS : FutureSpec F U} {FO : FutureOk F U}.
Implicit Types (s : sched F U) (L held : list nat) (d : doing) (t : task F).
Context (E : string -> Prop).

(** ** The effects of the operations *)
Lemma view_decr gone cur s s' L d held held' id u :
  sinv_ gone s L d held -> sinv_ gone s' L d held' -> decr_task id s = Ok (u, s') -> view_of cur s' = view_of cur s.
Proof.
  intros Hinv Hinv' Hrun. unfold decr_task, get_task, bind, gets in Hrun.
  destruct (tasks s !! id) as [t|] eqn:Ht; [|done]. cbn in Hrun.
  destruct (strong t =? 1)%Z; injection Hrun as _ <-.
  - apply view_eq; try done. intros x. rewrite !view_lookup. cbn.
    destruct (decide (x = id)) as [->|Hne]; [|by rewrite lookup_delete_ne]. rewrite lookup_delete_eq, Ht. cbn.
    unfold as_running. destruct (done t) eqn:Hd; try done. exfalso.
    destruct (c_status _ _ _ _ (s_core _ _ _ _ Hinv) _ _ Ht) as (_ & _ & _ & H). rewrite Hd in H.
    destruct (core_get _ _ _ _ id (s_core _ _ _ _ Hinv')) as [t' Ht']; [by apply refs_list, H|].
    cbn in Ht'. by rewrite lookup_delete_eq in Ht'.
  - by eapply view_put.
Qed.

Lemma view_wakers cur s l : view_of cur (set_wakers l s) = on_wakers (fun _ => l) (view_of cur s).
Proof. done. Qed.

Lemma wp_decr_v gone cur s L d held id (Q : unit -> sched F U -> Prop) :
  sinv_ gone s L d (id :: held) ->
  (forall s', sinv_ gone s' L d held -> later 0 s s' -> view_of cur s' = view_of cur s -> Q tt s') ->
  wpe (decr_task id) s Q E.
Proof.
  intros Hinv HQ. eapply (wpe_run _ _ (fun _ s' => sinv_ gone s' L d held /\ later 0 s s')).
  - eapply wp_decr; [exact Hinv|]. intros m s' H1 H2 _ _. by split.
  - intros [] s' Hrun [H1 H2]. apply HQ; [done..|]. by eapply view_decr.
Qed.

Lemma wp_wake_v cur s L d held id (Q : unit -> sched F U -> Prop) :
  sinv s L d (id :: held) ->
  (forall s', sinv s' L d held -> frame s s' -> (pot s' <= 1 + pot s)%nat ->
     view_of cur s' = wake_v id (view_of cur s) -> Q tt s') ->
  wpe (schedular_wake id) s Q E.
Proof.
  intros Hinv HQ.
  eapply (wpe_run _ _ (fun _ s' => sinv s' L d held /\ frame s s' /\ (pot s' <= 1 + pot s)%nat)).
  - eapply wp_schedular_wake; [exact Hinv|]. by intros s' ? ? ?.
  - intros [] s' Hrun (H1 & H2 & H3). apply HQ; [done..|].
    destruct (core_get _ _ _ _ id (s_core _ _ _ _ Hinv)) as [t Ht]; [by apply refs_held; left|].
    unfold schedular_wake, set_queued, get_task, bind, gets in Hrun. rewrite Ht in Hrun. cbn in Hrun.
    destruct (queued t) eqn:Hq; cbn in Hrun.
    + rewrite (wake_queued cur s id t Ht Hq). by eapply view_decr.
    + assert (Hal : queue_alive s = true).
      { destruct (c_status _ _ _ _ (s_core _ _ _ _ Hinv) _ _ Ht) as (_ & _ & _ & H).
        eapply queue_still_alive; [exact (s_core _ _ _ _ Hinv)|]. instantiate (1 := id).
        destruct (done t); [apply H..|]. destruct H as (_ & ? & _). congruence. }
      rewrite Hal in Hrun. cbn in Hrun. unfold queue_wake, bind, gets in Hrun. cbn in Hrun.
      assert (Hv : forall s', tasks s' = <[id := with_queued true t]> (tasks s) -> wakers s' = wakers s ->
        tokens s' = tokens s -> next_id s' = next_id s -> user s' = user s ->
        view_of cur s' = wake_v id (view_of cur s)).
      { intros s1 Hs1 ? ? ? ?. transitivity (view_of cur (set_tasks (<[id := with_queued true t]> (tasks s)) s)).
        - unfold view_of. cbn. congruence.
        - eapply view_alter; [exact Ht|]. unfold as_running, future_in. cbn.
          destruct (done t); try done. destruct cur as [[c f]|]; [case_decide|]; by destruct (future t). }
      destruct (registered s); injection Hrun as <-; by apply Hv.
Qed.

Lemma wp_wake_ref_v cur s L d held id (Q : unit -> sched F U -> Prop) :
  sinv s L d held -> is_Some (tasks s !! id) ->
  (forall s', sinv s' L d held -> frame s s' -> (pot s' <= 1 + pot s)%nat ->
     view_of cur s' = wake_v id (view_of cur s) -> Q tt s') ->
  wpe (schedular_wake_ref id) s Q E.
Proof.
  intros Hinv [t Ht] HQ. apply wpe_bind. eapply wp_incr; [done..|]. intros s1 Hs1 Heq.
  destruct (later_incr _ _ _ Ht) as [Hfr Hpot]. rewrite <- Heq in Hfr, Hpot.
  assert (Hv : view_of cur s1 = view_of cur s) by (rewrite Heq; by eapply view_put).
  eapply (wp_wake_v cur); [exact Hs1|]. intros s' Hs' Hfr' Hpot' Hv'.
  apply HQ; [done|by eapply frame_trans|lia|by rewrite Hv', Hv].
Qed.

Lemma wp_clone_v cur s L d held id (Q : unit -> sched F U -> Prop) :
  sinv s L d held -> is_Some (tasks s !! id) ->
  (forall s', sinv s' L d held -> later 0 s s' ->
     view_of cur s' = on_wakers (fun l => l ++ [Some id]) (view_of cur s) ->
     Q tt s') ->
  wpe (clone_waker id) s Q E.
Proof.
  intros Hinv [t Ht] HQ. apply wpe_bind. eapply wp_incr; [done..|]. intros s1 Hs1 Heq.
  assert (Hv : view_of cur s1 = view_of cur s) by (rewrite Heq; by eapply view_put).
  apply wpe_modify, HQ; [by apply sinv_add_waker| |].
  - eapply (later_trans 0 0); [by eapply later_incr|]. rewrite Heq. split; [by split|done].
  - rewrite view_wakers, Hv. unfold on_wakers. by rewrite Heq.
Qed.

(** The waker in slot [i] is called. *)
Lemma wp_wake_slot_v cur i s L d held (Q : unit -> sched F U -> Prop) :
  sinv s L d held ->
  (forall s', sinv s' L d held -> frame s s' -> (pot s' <= 1 + pot s)%nat ->
     view_of cur s' = wake_slot i (view_of cur s) -> Q tt s') ->
  wpe (use_waker i true schedular_wake) s Q E.
Proof.
  intros Hinv HQ. apply wpe_bind, wpe_gets. destruct (wakers s !! i) as [[id|]|] eqn:Hi.
  - apply wpe_bind, wpe_modify. destruct (later_wakers s (<[i := None]> (wakers s))) as [Hfr Hpot].
    eapply (wp_wake_v cur); [by apply sinv_take_waker|]. intros s' Hs' Hfr' Hpot' Hv.
    apply HQ; [done|by eapply frame_trans|lia|]. rewrite Hv. unfold wake_slot. cbn [v_wakers view_of]. by rewrite Hi.
  - apply wpe_ret, HQ; [done|apply frame_refl|lia|]. unfold wake_slot. cbn [v_wakers view_of]. by rewrite Hi.
  - apply wpe_ret, HQ; [done|apply frame_refl|lia|]. unfold wake_slot. cbn [v_wakers view_of]. by rewrite Hi.
Qed.

(** A waker is dropped. *)
Lemma wp_drop_slot_v gone cur i s L d held (Q : unit -> sched F U -> Prop) :
  sinv_ gone s L d held ->
  (forall s', sinv_ gone s' L d held -> later 0 s s' -> view_of cur s' = drop_slot i (view_of cur s) -> Q tt s') ->
  wpe (use_waker i true schedular_drop) s Q E.
Proof.
  intros Hinv HQ. apply wpe_bind, wpe_gets.
  assert (Hsame : forall o, wakers s !! i = o -> o = None \/ o = Some None -> Q tt s).
  { intros o Ho Hor. apply HQ; [done|apply later_refl|]. unfold drop_slot. apply view_eq; try done. cbn.
    destruct Hor as [-> | ->]; [symmetry; apply list_insert_ge; by apply lookup_ge_None|by rewrite list_insert_id]. }
  destruct (wakers s !! i) as [[id|]|] eqn:Hi; [|apply wpe_ret; eapply Hsame; eauto..].
  apply wpe_bind, wpe_modify. eapply (wp_decr_v gone cur); [by apply sinv_take_waker|]. intros s' Hs' Hlt Hv.
  apply HQ; [done|eapply (later_trans 0 0); [apply later_wakers|done]|by rewrite Hv].
Qed.

(** A token of a task that does not run is dropped. *)
Lemma view_drop_token gone cur n s s' L d held u :
  sinv_ gone s L d held -> sinv_ gone s' L d held ->
  (forall j t, tokens s !! n = Some (Some j) -> tasks s !! j = Some t -> done t <> Running) ->
  drop_token n s = Ok (u, s') -> view_of cur s' = on_tokens (fun l => <[n := None]> l) (view_of cur s).
Proof.
  intros Hinv Hinv' Hdone Hrun. unfold drop_token, bind, gets in Hrun. cbn [drop_token_] in Hrun.
  unfold take_token, bind, gets in Hrun. destruct (tokens s !! n) as [[j|]|] eqn:Hn; cbn in Hrun.
  - pose proof (sinv_take_token _ _ _ _ _ _ Hinv Hn) as Hinv1. set (s1 := set_tokens _ s) in *.
    transitivity (view_of cur s1); [|done].
    destruct (core_get _ _ _ _ j (s_core _ _ _ _ Hinv1)) as [t Ht]; [by apply refs_held; left|].
    assert (Hr : decr_task j s1 = Ok (u, s')).
    { unfold drop_cancel_token, get_task, bind, gets in Hrun. rewrite Ht in Hrun. cbn in Hrun.
      specialize (Hdone j t eq_refl Ht). by destruct (done t). }
    by eapply view_decr.
  - injection Hrun as _ <-. apply view_eq; try done. cbn. by rewrite list_insert_id.
  - injection Hrun as _ <-. apply view_eq; try done. cbn. by rewrite list_insert_ge by by apply lookup_ge_None.
Qed.

(** A task is pushed. *)
Lemma view_spawned cur f l s L d held :
  sinv s L d held -> (forall c g, cur = Some (c, g) -> (c < next_id s)%nat) ->
  view_of cur (spawned f (map Wak l) s) = spawn_v f l (view_of cur s).
Proof.
  intros Hinv Hcur. pose proof (fresh_next _ _ _ _ (s_core _ _ _ _ Hinv)) as Hfr.
  assert (Hnew : forall o, as_running cur (next_id s) (with_next o (first_strong f (map Wak l))) =
    Some {| rt_queued := true; rt_future := f; rt_owned := map Wak l |}).
  { intros o. unfold as_running, future_in. cbn. destruct cur as [[c g]|]; [|done]. specialize (Hcur c g eq_refl).
    rewrite decide_False by lia. done. }
  apply view_eq; try done. intros x. rewrite view_lookup. cbn [v_tasks spawn_v v_next view_of].
  unfold spawned, link_new. cbn [tasks].
  destruct (all_next s) as [y|] eqn:Hy.
  - destruct (head_task _ _ _ _ y Hinv Hy) as [[t Ht] Hne]. rewrite lookup_insert_ne, Ht by done.
    destruct (decide (x = next_id s)) as [->|Hx].
    + rewrite lookup_insert_ne, !lookup_insert_eq by done. apply Hnew.
    + rewrite (lookup_insert_ne (map_imap _ _)), map_lookup_imap by done. destruct (decide (x = y)) as [->|Hxy].
      * by rewrite lookup_insert_eq, Ht.
      * by rewrite !lookup_insert_ne by done.
  - destruct (decide (x = next_id s)) as [->|Hx].
    + rewrite !lookup_insert_eq. apply Hnew.
    + by rewrite !lookup_insert_ne, map_lookup_imap by done.
Qed.
End ops.

Section run.
Context {F U : Type} {FU : Future F U} {FS : FutureSpec F U} {FO : FutureOk F U}.
Implicit Types (s : sched F U) (L held : list nat) (t : task F).
Context (E : string -> Prop) (o : who) (cur : option (nat * F)).

(** The view shows the future the task was polled with. *)
Definition cur_ok : Prop := match o with AsTask id => exists f, cur = Some (id, f) | AsRoot _ => cur = None end.
Context (Hcur : cur_ok).

Lemma cur_old s L held c g :
  sinv s L (who_doing o) held -> who_in o L -> cur = Some (c, g) -> (c < next_id s)%nat.
Proof.
  intros Hinv HL Hc. unfold cur_ok in Hcur. destruct o as [id|w]; [|congruence].
  destruct Hcur as [f Hf]. rewrite Hf in Hc. injection Hc as <- _.
  destruct (polled_task _ _ _ _ Hinv HL) as (t & Ht & _).
  apply (c_fresh _ _ _ _ (s_core _ _ _ _ Hinv)). by eexists.
Qed.

(** What does not run is not in the view. *)
Lemma not_in_view s L held j t :
  sinv s L (who_doing o) held -> tasks s !! j = Some t -> v_tasks (view_of cur s) !! j = None -> done t <> Running.
Proof.
  intros Hinv Ht Hv Hr. rewrite view_lookup, Ht in Hv. cbn in Hv. unfold as_running in Hv. rewrite Hr in Hv.
  destruct (c_status _ _ _ _ (s_core _ _ _ _ Hinv) _ _ Ht) as (_ & _ & _ & H). rewrite Hr in H.
  destruct H as (_ & Hf & _). unfold future_in in Hv. unfold cur_ok in Hcur.
  destruct o as [id|w].
  - destruct Hcur as [f ->]. case_decide as Hd; [done|]. destruct (future t) eqn:Hft; [done|].
    destruct Hf as [Hf _]. specialize (Hf eq_refl). cbn in Hf. congruence.
  - rewrite Hcur in Hv. destruct (future t) eqn:Hft; [done|]. destruct Hf as [Hf _]. by specialize (Hf eq_refl).
Qed.

(** The polled task comes to own something. *)
Lemma view_own s id t x :
  o = AsTask id -> tasks s !! id = Some t ->
  view_of cur (set_tasks (<[id := with_future (future t) (owned t ++ [x]) t]> (tasks s)) s) =
  own_v o x (view_of cur s).
Proof.
  intros Ho Ht. rewrite Ho. eapply view_alter; [done|]. unfold as_running, future_in. cbn.
  destruct (done t); try done. destruct cur as [[c f]|]; [case_decide|]; by destruct (future t).
Qed.

Lemma wp_wake_self_v s L held (Q : unit -> sched F U -> Prop) :
  sinv s L (who_doing o) held -> who_in o L ->
  (forall s', sinv s' L (who_doing o) held -> frame s s' -> (pot s' <= 1 + pot s)%nat ->
     view_of cur s' = wake_self_v o (view_of cur s) -> Q tt s') ->
  wpe (match o with AsTask id => schedular_wake_ref id | AsRoot w => wake_outer w end) s Q E.
Proof.
  intros Hinv HL HQ. destruct o as [id|w].
  - destruct (polled_task _ _ _ _ Hinv HL) as (t & Ht & _).
    eapply (wp_wake_ref_v E cur); [done|by eexists|done].
  - apply wpe_modify, HQ; [eapply sinv_same; [| | | | |exact Hinv]; by try split| | |done].
    + split; try done. intros w0 l. apply armed_outer.
    + change (pot (add_outer_woken w s)) with (pot s). lia.
Qed.

Lemma wp_clone_self_v b s L held (Q : unit -> sched F U -> Prop) :
  sinv s L (who_doing o) held -> who_in o L ->
  (forall s', sinv s' L (who_doing o) held -> later 0 s s' -> view_of cur s' = clone_v o b (view_of cur s) -> Q tt s') ->
  wpe (match o with
       | AsTask id =>
           do! clone_waker id in
           if (b : bool) then upd_task id (fun t => with_future (future t) (owned t ++ [Wak (length (wakers s))]) t) else ret tt
       | AsRoot _ => modify (fun s => set_wakers (wakers s ++ [None]) s)
       end) s Q E.
Proof.
  intros Hinv HL HQ. destruct o as [id|w] eqn:Ho.
  - destruct (polled_task _ _ _ _ Hinv HL) as (t & Ht & _). apply wpe_bind.
    eapply (wp_clone_v E cur); [done|by eexists|].
    intros s1 Hs1 Hlt1 Hv1. destruct b; [|by apply wpe_ret, HQ].
    destruct (polled_task _ _ _ _ Hs1 HL) as (t1 & Ht1 & _).
    apply wpe_bind. eapply wp_get_task; [done|]. apply wpe_modify, HQ.
    + apply sinv_owned; try done. intros n [Hn|?%list_elem_of_singleton]%elem_of_app; [|done].
      by apply (c_owned _ _ _ _ (s_core _ _ _ _ Hs1) id t1).
    + eapply (later_trans 0 0); [done|by eapply later_put].
    + cbn [clone_v]. rewrite <- Ho in *. rewrite (view_own s1 id) by done. by rewrite Hv1, Ho.
  - apply wpe_modify, HQ; [by apply sinv_add_none|split; [by split|done]|done].
Qed.

Lemma wp_spawn_v {A} f l s L held (c : nat -> M (sched F U) A) (Q : A -> sched F U -> Prop) :
  sinv s L (who_doing o) held -> who_in o L -> queue_alive s = true -> fok (user s) f ->
  (forall s' L', sinv s' L' (who_doing o) held -> who_in o L' -> grows s s' -> user s' = user s ->
     (pot s' <= 2 * fsize (user s) f + 1 + pot s)%nat ->
     view_of cur s' = own_v o (Tok (length (tokens s))) (spawn_v f l (view_of cur s)) ->
     wpe (c (length (tokens s))) s' Q E) ->
  wpe (let! n := push_cancellable f (map Wak l) in
       do! match o with
           | AsTask id => upd_task id (fun t => with_future (future t) (owned t ++ [Tok n]) t)
           | AsRoot _ => ret tt
           end in c n) s Q E.
Proof.
  intros Hinv HL Hal Hf HQ. pose proof (cur_old s L held) as Hold.
  assert (Hwak : forall n, Tok n ∉ map Wak l) by (intros n (? & ? & ?)%list_elem_of_fmap; done).
  assert (Hv : view_of cur (spawned f (map Wak l) s) = spawn_v f l (view_of cur s)).
  { eapply view_spawned; [exact Hinv|]. intros c' g Hc. by eapply Hold. }
  assert (Hlt : forall p, pol (who_doing o) = Some p -> (p < next_id s)%nat).
  { unfold cur_ok in Hcur. destruct o as [id|w]; [|done]. destruct Hcur as [g Hg]. intros p [= <-]. by eapply Hold. }
  apply wpe_bind. eapply wp_push_cancellable; [done|done|done|done| | |destruct o; by apply not_elem_of_nil|].
  { intros Hp. apply Hlt in Hp. lia. } { by destruct o. }
  intros Hinv1 Hgr1 Hpot1. set (s1 := spawned f (map Wak l) s) in *.
  assert (HL1 : who_in o (next_id s :: L)) by (destruct o; [by right|done]).
  destruct o as [id|w] eqn:Ho; [|apply wpe_bind, wpe_ret; eapply HQ; [exact Hinv1|done|done|done|lia|by rewrite Hv]].
  destruct (polled_task _ _ _ _ Hinv1 HL1) as (t1 & Ht1 & _).
  apply wpe_bind, wpe_bind. eapply wp_get_task; [done|]. apply wpe_modify.
  destruct (later_put s1 id t1 (with_future (future t1) (owned t1 ++ [Tok (length (tokens s))]) t1) Ht1 ltac:(done))
    as [Hfr2 Hpot2].
  eapply HQ; [|exact HL1|by eapply grows_trans; [|apply frame_grows]|done|lia|].
  - apply sinv_owned; try done. intros n [Hn|[= ->]%list_elem_of_singleton]%elem_of_app.
    + by apply (c_owned _ _ _ _ (s_core _ _ _ _ Hinv1) id t1).
    + cbn. rewrite length_app. split; [cbn; lia|]. intros c'. rewrite lookup_app_r, Nat.sub_diag by done.
      intros [= <-]. apply Hlt. done.
  - rewrite <- Ho. rewrite (view_own s1 id) by done. by rewrite Hv.
Qed.

Lemma wp_drop_own_v n s L held (Q : unit -> sched F U -> Prop) :
  sinv s L (who_doing o) held -> who_in o L ->
  (forall j, tokens s !! n = Some (Some j) -> v_tasks (view_of cur s) !! j = None) ->
  (forall s', sinv s' L (who_doing o) held -> later 0 s s' -> outer_woken s' = outer_woken s ->
     view_of cur s' = on_tokens (fun l => <[n := None]> l) (view_of cur s) \/
     view_of cur s' = view_of cur s /\
       (exists id, o = AsTask id /\ forall rt, v_tasks (view_of cur s) !! id = Some rt -> Tok n ∉ rt_owned rt) -> Q tt s') ->
  wpe (match o with
       | AsTask id =>
           let! t := get_task id in
           if decide (Tok n ∈ owned t) then drop_thing drop_token (Tok n) else ret tt
       | AsRoot _ => drop_thing drop_token (Tok n)
       end) s Q E.
Proof.
  intros Hinv HL Hdead HQ.
  assert (Hdrop : droppable_thing (who_doing o) (Tok n) s -> wpe (drop_thing drop_token (Tok n)) s Q E).
  { intros Hd. eapply wpe_run; [by apply (wp_drop_thing (gone := none_returned))|].
    intros [] s' Hrun [Hs' Hlt].
    assert (Hnot : forall j t, tokens s !! n = Some (Some j) -> tasks s !! j = Some t -> done t <> Running).
    { intros j t Hj Ht. by eapply not_in_view; [|exact Ht|apply Hdead]. }
    apply HQ; [done..|by eapply (silent_drop (outer_woken s))|].
    left. eapply view_drop_token; [exact Hinv|exact Hs'|exact Hnot|exact Hrun]. }
  destruct o as [id|w].
  - destruct (polled_task _ _ _ _ Hinv HL) as (t & Ht & _). apply wpe_bind. eapply wp_get_task; [done|].
    case_decide as Hx.
    + apply Hdrop. eapply (droppable_owned s); [apply Hinv|done..|apply frame_refl].
    + apply wpe_ret, HQ; [done|apply later_refl|done|]. right. split; [done|]. exists id. split; [done|].
      intros rt. rewrite view_lookup, Ht. cbn. unfold as_running. destruct (done t); try done.
      destruct (future_in cur id t); [|done]. by intros [= <-].
  - apply Hdrop. by intros c _ p [=].
Qed.

(** What the code that is polled may do with [n], and a call of the executor costs
    some of it. *)
Definition act_post_v {R} (post : nat -> U -> R -> Prop) (postv : view F U -> R -> Prop) held s (n : nat)
    (Q : R -> sched F U -> Prop) : Prop :=
  forall r L' s' m, sinv s' L' (who_doing o) held -> who_in o L' -> grows s s' -> post m (user s') r ->
    (2 * m + pot s' <= 2 * n + pot s)%nat ->
    (outer_woken s' = outer_woken s \/ 2 * m + pot s' < 2 * n + pot s)%nat -> postv (view_of cur s') r -> Q r s'.

Lemma act_post_v_mono {R} (post : nat -> U -> R -> Prop) postv held s s1 n n1 Q :
  act_post_v post postv held s n Q -> grows s s1 -> (2 * n1 + pot s1 <= 2 * n + pot s)%nat ->
  (outer_woken s1 = outer_woken s \/ 2 * n1 + pot s1 < 2 * n + pot s)%nat -> act_post_v post postv held s1 n1 Q.
Proof.
  intros HQ Hgr Hle Ho r L' s' m H1 H2 H3 H4 H5 H6 H7. eapply HQ; [exact H1|done|by eapply grows_trans|done|lia| |done].
  destruct Ho as [Ho|Ho], H6 as [H6|H6]; [left; congruence|right; lia..].
Qed.

Lemma wp_run_act_v {R} (a : act F U R) post postv n s L held (Q : R -> sched F U -> Prop) :
  sinv s L (who_doing o) held -> who_in o L -> queue_alive s = true ->
  act_ok post n (user s) a -> act_v o postv (view_of cur s) a -> act_post_v post postv held s n Q ->
  wpe (run_act o a) s Q E.
Proof.
  revert n s L. induction a as [r|m| |k IH|b k IH|f l k IH|x k IH|i k IH|k IH|k IH|g k IH];
    intros n s L Hinv HL Hal Ha Hv HQ; cbn [act_ok act_v] in Ha, Hv; cbn [run_act]; try done.
  - apply wpe_ret. eapply HQ; [done|done|apply grows_refl|done|done|by left|done].
  - destruct Ha as (m & -> & Ha). apply wpe_bind. eapply wp_wake_self_v; [done..|]. intros s' Hs' Hfr Hpot Hv'.
    apply (IH m _ L); [done..|by rewrite (lt_alive _ _ Hfr)|by rewrite (lt_user _ _ Hfr)|by rewrite Hv'|].
    eapply act_post_v_mono; [done|by apply frame_grows|lia|right; lia].
  - apply wpe_bind, wpe_gets, wpe_bind. eapply wpe_run.
    { eapply (wp_clone_self_v b s L held (fun _ s' => sinv s' L (who_doing o) held /\ later 0 s s' /\
        view_of cur s' = clone_v o b (view_of cur s))); [done..|]. by intros s' ? ? ?. }
    intros [] s' Hrun (Hs' & [Hfr Hpot] & Hv').
    apply (IH _ n _ L); [done..|by rewrite (lt_alive _ _ Hfr)|by rewrite (lt_user _ _ Hfr)|by rewrite Hv'|].
    eapply act_post_v_mono; [done|by apply frame_grows|lia|left]. by eapply (silent_clone (outer_woken s)).
  - destruct Ha as (Hf & m & -> & Ha). eapply wp_spawn_v; [done..|]. intros s' L' Hs' HL' Hgr Hu Hpot Hv'.
    eapply IH; [exact Hs'|done|by rewrite (gr_alive _ _ Hgr)|by rewrite Hu|by rewrite Hv'|].
    eapply act_post_v_mono; [done|done|lia|right; lia].
  - destruct x as [j|]; [|done]. destruct Hv as (Hdead & Hv1 & Hv2).
    apply wpe_bind. eapply wp_drop_own_v; [done..|]. intros s' Hs' [Hfr Hpot] Hlog Hv'.
    apply (IH n _ L); [done..|by rewrite (lt_alive _ _ Hfr)|by rewrite (lt_user _ _ Hfr)| |].
    + destruct Hv' as [-> |[-> (id & -> & Hn)]]; [done|by apply Hv2].
    + eapply act_post_v_mono; [done|by apply frame_grows|lia|by left].
  - destruct Ha as (m & -> & Ha). apply wpe_bind. eapply (wp_wake_slot_v E cur); [done|]. intros s' Hs' Hfr Hpot Hv'.
    apply (IH m _ L); [done..|by rewrite (lt_alive _ _ Hfr)|by rewrite (lt_user _ _ Hfr)|by rewrite Hv'|].
    eapply act_post_v_mono; [done|by apply frame_grows|lia|right; lia].
  - apply wpe_bind, wpe_gets. by apply (IH _ n _ L).
  - destruct Ha as (Hle & Hok & Ha). apply wpe_bind, wpe_modify.
    destruct (sinv_user _ _ _ _ _ Hinv Hle Hok) as (Hs' & Hgr & Hpot).
    apply (IH n _ L); [done..|]. eapply act_post_v_mono; [done|done|lia|by left].
Qed.
End run.

Section poll.
Context {F U : Type} {FU : Future F U} {FS : FutureSpec F U} {FO : FutureOk F U}.
Implicit Types (s : sched F U) (L held : list nat) (t : task F) (v : view F U).
Context (E : string -> Prop).

(** ** The end of a poll *)

(** What a future that has returned owns: tokens used up, and wakers of its own
    task. *)
Definition idle_things id v : Prop :=
  forall rt, v_tasks v !! id = Some rt ->
    (forall n j, Tok n ∈ rt_owned rt -> v_tokens v !! n <> Some (Some j)) /\
    (forall i j, Wak i ∈ rt_owned rt -> v_wakers v !! i = Some (Some j) -> j = id).

(** Wakers of [id] are dropped. *)
Definition released id v v' : Prop :=
  exists l, v' = on_wakers (fun _ => l) v /\
    forall i, l !! i = v_wakers v !! i \/ (v_wakers v !! i = Some (Some id) /\ l !! i = Some None).

Lemma released_refl id v : released id v v.
Proof. exists (v_wakers v). split; [by destruct v|]. by left. Qed.

Lemma released_slot id i v v' :
  (forall j, v_wakers v !! i = Some (Some j) -> j = id) -> released id v v' -> released id v (drop_slot i v').
Proof.
  intros Hi (l & -> & Hl). exists (<[i := None]> l). split; [done|]. intros x. destruct (decide (x = i)) as [->|Hne].
  - destruct (Hl i) as [Heq|[Hv Heq]]; [|right; by rewrite list_lookup_insert_eq by by eapply lookup_lt_Some].
    destruct (v_wakers v !! i) as [[j|]|] eqn:Hw.
    + right. rewrite (Hi j eq_refl). by rewrite list_lookup_insert_eq by by eapply lookup_lt_Some.
    + left. by rewrite list_lookup_insert_eq by by eapply lookup_lt_Some.
    + left. by rewrite list_insert_ge by by apply lookup_ge_None.
  - rewrite list_lookup_insert_ne by done. apply Hl.
Qed.

Definition disown (rt : running_task F) : running_task F :=
  {| rt_queued := rt_queued rt; rt_future := rt_future rt; rt_owned := [] |}.

(** What is kept at the end of a poll of [id], in terms of the property [lv]. *)
Context (lv : view F U -> Prop).

Definition poll_lv id v (r : option F) : Prop :=
  match r with
  | Some f => lv (on_tasks (alter (put_future f) id) v)
  | None => idle_things id v /\ forall v', released id v v' -> lv (on_tasks (delete id) v')
  end.

Definition exec_lv id (r : poll unit) s : Prop :=
  match r with
  | Pending => lv (view_of None s)
  | Ready _ => exists f, (forall t, tasks s !! id = Some t -> owned t = []) /\ lv (on_tasks (delete id) (view_of (Some (id, f)) s))
  end.

Lemma in_view f s L held id t :
  sinv s L (polling id) held -> id ∈ L -> tasks s !! id = Some t ->
  v_tasks (view_of (Some (id, f)) s) !! id = Some {| rt_queued := queued t; rt_future := f; rt_owned := owned t |}.
Proof.
  intros Hinv HL Ht. destruct (polled_task _ _ _ _ Hinv HL) as (t' & Ht' & Hr & _).
  assert (t' = t) as -> by congruence. rewrite view_lookup, Ht. cbn. unfold as_running. rewrite Hr. cbn.
  by rewrite decide_True.
Qed.

(** The future goes back to its place. *)
Lemma wp_put_back_v (gone : nat -> Prop) s L held id f f0 (Q : unit -> sched F U -> Prop) :
  sinv s L (polling id) held -> id ∈ L -> gone id \/ fok (user s) f ->
  (forall s', sinv_ gone s' L at_rest held -> frame s s' -> (pot s' <= 2 * fsize (user s) f + pot s)%nat ->
     view_of None s' = on_tasks (alter (put_future f) id) (view_of (Some (id, f0)) s) ->
     view_of (Some (id, f0)) s' = view_of (Some (id, f0)) s ->
     (forall t, tasks s' !! id = Some t -> exists t0, tasks s !! id = Some t0 /\ owned t = owned t0) -> Q tt s') ->
  wpe (upd_task id (fun t => with_future (Some f) (owned t) t)) s Q E.
Proof.
  intros Hinv HL Hk HQ. eapply wpe_run.
  - apply (wp_put_back E gone s L held id f (fun _ s' => sinv_ gone s' L at_rest held /\ frame s s' /\
      (pot s' <= 2 * fsize (user s) f + pot s)%nat)); [done..|]. intros s' ? ? ?. done.
  - intros [] s' Hrun (H1 & H2 & H3). apply HQ; [done..| | |];
      (destruct (polled_task _ _ _ _ Hinv HL) as (t & Ht & Hr & Hf);
       unfold upd_task, get_task, bind, gets in Hrun; rewrite Ht in Hrun; cbn in Hrun; injection Hrun as <-).
    + apply view_eq; try done. intros x. cbn [v_tasks on_tasks]. rewrite view_lookup. cbn.
      destruct (decide (x = id)) as [->|Hne].
      * rewrite lookup_insert_eq, lookup_alter_eq. fold (v_tasks (view_of (Some (id, f0)) s)).
        pose proof (in_view f0 s L held id t Hinv HL Ht) as Hv. cbn [v_tasks view_of] in Hv. rewrite Hv. cbn.
        unfold as_running. cbn. by rewrite Hr.
      * rewrite lookup_insert_ne, lookup_alter_ne, map_lookup_imap by done.
        destruct (tasks s !! x) as [u|]; [|done]. cbn. unfold as_running, future_in. by rewrite decide_False by done.
    + eapply view_put; [done|]. unfold as_running, future_in. by case_decide.
    + cbn. rewrite lookup_insert_eq. intros u [= <-]. by exists t.
Qed.

(** What is dropped of the future that has returned. *)
Lemma wp_release_v cur s L held id l (Q : unit -> sched F U -> Prop) :
  sinv s L (polling id) held ->
  (forall n c, Tok n ∈ l -> tokens s !! n <> Some (Some c)) ->
  (forall i j, Wak i ∈ l -> wakers s !! i = Some (Some j) -> j = id) ->
  (forall s', sinv s' L (polling id) held -> later 0 s s' -> released id (view_of cur s) (view_of cur s') ->
     Q tt s') ->
  wpe (for_each (drop_thing drop_token) l) s Q E.
Proof.
  intros Hinv Htok Hwak HQ.
  apply (wp_for_each E (drop_thing drop_token) l s
    (fun s' => sinv s' L (polling id) held /\ later 0 s s' /\ released id (view_of cur s) (view_of cur s'))).
  - intros [n|i] s1 Hx (Hs1 & Hlt1 & Hv1).
    + assert (Hd : forall c, tokens s1 !! n <> Some (Some c)).
      { intros c Hc%(lt_token _ _ (proj1 Hlt1)). by apply (Htok n c). }
      cbn [drop_thing]. apply wpe_bind, wpe_gets. cbn [drop_token_]. apply wpe_bind, wpe_gets.
      destruct (tokens s1 !! n) as [[c|]|] eqn:Hn; [by destruct (Hd c)|by apply wpe_ret..].
    + cbn [drop_thing]. eapply (wp_drop_slot_v E none_returned cur); [exact Hs1|]. intros s2 Hs2 Hlt2 Hv2.
      split; [done|]. split; [by eapply (later_trans 0 0)|]. rewrite Hv2. apply released_slot; [|done].
      intros j. by apply Hwak.
  - split; [done|]. split; [apply later_refl|apply released_refl].
  - intros s' (? & ? & ?). by apply HQ.
Qed.

Lemma wp_finish_poll_v r s L held id f0 n (Q : poll unit -> sched F U -> Prop) :
  sinv s L (polling id) held -> id ∈ L -> poll_ok n (user s) r -> poll_lv id (view_of (Some (id, f0)) s) r ->
  exec_post id L held s (2 * n) (fun r s' => exec_lv id r s' -> Q r s') -> wpe (finish_poll id r) s Q E.
Proof.
  intros Hinv HL [Hin Hn] Hlv HQ. destruct (polled_task _ _ _ _ Hinv HL) as (t & Ht & Hr & Hf).
  destruct r as [f|]; cbn [finish_poll poll_lv] in *.
  { destruct Hn as [Hok Hn]. apply wpe_bind.
    apply (wp_put_back_v (returned Pending id) s L held id f f0); [done..|by right|].
    intros s' Hs' Hfr Hpot Hv _ _. apply wpe_ret.
    eapply HQ; [done..|by apply frame_grows|by rewrite (lt_user _ _ Hfr)|lia|]. cbn. by rewrite Hv. }
  destruct Hlv as [Hidle Hlv]. pose proof (in_view f0 s L held id t Hinv HL Ht) as Hv0.
  destruct (Hidle _ Hv0) as [Htok Hwak]. cbn [rt_owned] in Htok, Hwak.
  pose proof Hinv as [Hc _ _ _]. apply wpe_bind. eapply wp_get_task; [done|].
  apply wpe_bind, wpe_modify, wpe_bind. rewrite <- Hf.
  set (s1 := set_tasks (<[id := with_future (future t) [] t]> (tasks s)) s).
  assert (Hinv1 : sinv s1 L (polling id) held).
  { apply sinv_owned; try done. by intros x ?%not_elem_of_nil. }
  assert (Hlt1 : later 0 s s1) by by eapply later_put.
  assert (Hv1 : view_of (Some (id, f0)) s1 = on_tasks (alter disown id) (view_of (Some (id, f0)) s)).
  { eapply view_alter; [done|]. unfold as_running, future_in. cbn. rewrite decide_True by done. by destruct (done t). }
  eapply (wp_release_v (Some (id, f0)) s1); [exact Hinv1| | |].
  { intros n' c Hn'. apply Htok. by apply elem_of_reverse. }
  { intros i j Hi. apply Hwak. by apply elem_of_reverse. }
  intros s2 Hinv2 Hlt2 Hv2. rewrite Hv1 in Hv2. apply wpe_bind.
  apply (wp_put_back_v (returned (Ready tt) id) s2 L held id fdone f0); [done|done|by left|].
  intros s3 Hinv3 Hfr3 Hpot3 _ Hv3 Ho3. apply wpe_ret. destruct Hlt1 as [Hfr1 ?], Hlt2 as [Hfr2 ?].
  rewrite (lt_user _ _ Hfr2), (lt_user _ _ Hfr1) in Hpot3.
  eapply HQ; [done..| | |lia|].
  - apply frame_grows. eapply frame_trans; [done|]. by eapply frame_trans.
  - by rewrite (lt_user _ _ Hfr3), (lt_user _ _ Hfr2), (lt_user _ _ Hfr1).
  - destruct Hv2 as (l & Hv2 & Hl). exists f0. rewrite Hv3. split.
    + intros t3 Ht3. destruct (Ho3 _ Ht3) as (t2 & Ht2 & ->).
      pose proof (in_view f0 s2 L held id t2 Hinv2 HL Ht2) as Hv. rewrite Hv2 in Hv. cbn in Hv.
      rewrite lookup_alter_eq in Hv. cbn in Hv0. rewrite Hv0 in Hv. by injection Hv.
    + rewrite Hv2. replace (on_tasks (delete id) (on_wakers (λ _, l) (on_tasks (alter disown id) (view_of (Some (id, f0)) s))))
        with (on_tasks (delete id) (on_wakers (λ _, l) (view_of (Some (id, f0)) s))).
      * apply Hlv. by exists l.
      * apply view_eq; try done. intros x. cbn. destruct (decide (x = id)) as [->|Hne]; [by rewrite !lookup_delete_eq|].
        by rewrite !lookup_delete_ne, lookup_alter_ne.
Qed.

(** A running task is polled. *)
Lemma wp_drive_fut_v s L held id t f (Q : poll unit -> sched F U -> Prop) :
  sinv s L at_rest held -> queue_alive s = true -> uin (user s) ->
  tasks s !! id = Some t -> done t = Running -> future t = Some f ->
  act_v (AsTask id) (poll_lv id) (view_of None s) (fpoll f) ->
  exec_post id L held s 0 (fun r s' => exec_lv id r s' -> Q r s') -> wpe (drive_task id) s Q E.
Proof.
  intros Hinv Hal Hin Ht Hr Hf Hv HQ. pose proof Hinv as [Hc _ _ _].
  destruct (c_status _ _ _ _ Hc _ _ Ht) as (_ & _ & _ & H). rewrite Hr in H. destruct H as (HL & _ & Hq).
  apply wpe_bind. eapply wp_get_task; [done|]. apply wpe_bind. eapply wpe_deref; [done|].
  apply wpe_bind, wpe_modify.
  destruct (u_futures _ (s_users _ _ _ _ Hinv) _ _ _ Ht Hf) as [[]|Hfok].
  set (s1 := set_tasks (<[id := with_future None (owned t) t]> (tasks s)) s).
  assert (Hinv1 : sinv s1 L (polling id) held).
  { eapply (sinv_put s L at_rest (polling id)); try done.
    + split; [done|]. split; [done|]. split; [by intros ?%not_elem_of_nil|]. cbn. by rewrite Hr.
    + intros x Hx. unfold same_at. cbn. intuition congruence.
    + intros Hcur. by apply (c_queued _ _ _ _ Hc id t). }
  assert (Hv1 : view_of (Some (id, f)) s1 = view_of None s).
  { apply view_eq; try done. intros x. rewrite !view_lookup. cbn. destruct (decide (x = id)) as [->|Hne].
    - rewrite lookup_insert_eq, Ht. cbn. unfold as_running, future_in. cbn. by rewrite decide_True, Hf by done.
    - rewrite lookup_insert_ne by done. destruct (tasks s !! x); [|done]. cbn. unfold as_running, future_in.
      by rewrite decide_False by done. }
  apply wpe_bind. eapply (wp_run_act_v E (AsTask id) (Some (id, f)));
    [by exists f|exact Hinv1|exact HL|exact Hal| |rewrite Hv1; exact Hv|].
  { apply fpoll_ok; [apply (s_users _ _ _ _ Hinv)|done..]. }
  intros r L' s' m Hs' HL' Hgr Hr' Hpot _ Hlv. eapply wp_finish_poll_v; [done..|].
  intros r2 L2 s2 H1 H2 H3 H4 H5 H6. eapply HQ; [done|done| |done| |done].
  - eapply grows_trans; [|done]. eapply grows_trans; [|done]. apply frame_grows. by split.
  - change (user s1) with (user s) in *.
    pose proof (pot_put s _ _ _ id t (with_future None (owned t) t) Hc Ht) as Hp. fold s1 in Hp.
    unfold task_weight in Hp. rewrite Hf in Hp. cbn [future with_future] in Hp. lia.
Qed.
End poll.
