(* ===== verification/SchedularLive.v ===== *)
(** * A poll of the scheduler keeps what the polls of futures keep

    [lv] is a property of the tasks that run; a poll of the scheduler keeps it if
    the poll of each future does, and stops only when the executor is woken or
    no task is queued. *)

From S2P Require Import Prelude Defer Schedular SchedularInv SchedularSafe SchedularPoll SchedularQuiet SchedularView.
Import Schedular.

Section pop.
Context {F U : Type}.
Implicit Types (s : sched F U) (t : task F).
Context (cur : option (nat * F)) (id : nat) (s0 : sched F U).

(** Nothing but the task [id] has changed, and it does not run. *)
Record only_id s : Prop := {
  oi_tasks x : x <> id -> tasks s !! x ≫= as_running cur x = tasks s0 !! x ≫= as_running cur x;
  oi_wakers : wakers s = wakers s0;
  oi_tokens : tokens s = tokens s0;
  oi_next : next_id s = next_id s0;
  oi_user : user s = user s0;
}.
Definition stopped s : Prop := only_id s /\ forall t, tasks s !! id = Some t -> done t <> Running.

Lemma only_put x t t' s :
  only_id s -> tasks s !! x = Some t -> x = id \/ as_running cur x t' = as_running cur x t ->
  only_id (set_tasks (<[x := t']> (tasks s)) s).
Proof.
  intros [] Ht He. split; try done. intros y Hy. rewrite <- oi_tasks0 by done. cbn.
  destruct (decide (y = x)) as [->|Hne]; [|by rewrite lookup_insert_ne].
  rewrite lookup_insert_eq, Ht. cbn. by destruct He as [->|].
Qed.

Lemma stopped_put x t t' s :
  stopped s -> tasks s !! x = Some t -> done t' = done t -> as_running cur x t' = as_running cur x t ->
  stopped (set_tasks (<[x := t']> (tasks s)) s).
Proof.
  intros [Ho Hs] Ht Hd He. split; [eapply only_put; eauto|]. cbn.
  intros u [[<- <-]|[_ Hu]]%lookup_insert_Some; [rewrite Hd|]; eauto.
Qed.

Lemma stopped_same s s' :
  tasks s' = tasks s -> wakers s' = wakers s -> tokens s' = tokens s -> next_id s' = next_id s -> user s' = user s ->
  stopped s -> stopped s'.
Proof. intros H1 H2 H3 H4 H5 [[] Hs]. split; [split|]; rewrite ?H1, ?H2, ?H3, ?H4, ?H5; done. Qed.

(** Code that goes on so. *)
Definition keeps {A} (c : M (sched F U) A) : Prop := forall s, stopped s -> ho c s (fun _ => stopped).

Lemma keeps_bind {A B} (c : M (sched F U) A) (k : A -> M (sched F U) B) :
  keeps c -> (forall a, keeps (k a)) -> keeps (bind c k).
Proof. intros Hc Hk s Hs. apply ho_bind. intros a s' Hrun. apply Hk. by eapply Hc. Qed.

Lemma keeps_get_task x : keeps (get_task x).
Proof. intros s Hs. by apply ho_get_task. Qed.

Lemma keeps_gets {A} (f : sched F U -> A) : keeps (gets f).
Proof. intros s Hs. by apply ho_gets. Qed.

Lemma keeps_assert b m : keeps (assert b m).
Proof. intros s Hs. by apply ho_assert. Qed.

Lemma keeps_modify f :
  (forall s, tasks (f s) = tasks s /\ wakers (f s) = wakers s /\ tokens (f s) = tokens s /\
     next_id (f s) = next_id s /\ user (f s) = user s) -> keeps (modify f).
Proof. intros Hf s Hs. apply ho_modify. destruct (Hf s) as (? & ? & ? & ? & ?). by eapply (stopped_same s). Qed.

Lemma keeps_upd x g :
  (forall t, done (g t) = done t /\ as_running cur x (g t) = as_running cur x t) -> keeps (upd_task x g).
Proof.
  intros Hg s Hs. apply ho_bind, ho_get_task. intros t Ht. apply ho_modify. destruct (Hg t). by eapply stopped_put.
Qed.

Lemma keeps_decr : keeps (decr_task id).
Proof.
  intros s Hs. apply ho_bind, ho_get_task. intros t Ht. destruct (strong t =? 1)%Z; apply ho_modify.
  - destruct Hs as [[] Hs]. split; [split; try done|].
    + intros y Hy. rewrite <- oi_tasks0 by done. cbn. by rewrite lookup_delete_ne.
    + cbn. intros u. by rewrite lookup_delete_eq.
  - by eapply stopped_put.
Qed.

Ltac keep :=
  repeat first
    [ apply keeps_get_task | apply keeps_decr | apply keeps_upd; done | apply keeps_gets | apply keeps_assert
    | apply keeps_modify; done | apply keeps_bind; [|intros ?] | case_match ].

(** [pop_task_all] of a task that owns nothing. *)
Lemma ho_pop_task_all :
  (forall t, tasks s0 !! id = Some t -> done t = Running -> owned t = []) ->
  ho (pop_task_all id) s0 (fun _ s' => stopped s').
Proof.
  intros Hown. apply ho_bind, ho_bind, ho_get_task. intros t Ht. apply ho_modify.
  assert (H0 : only_id s0) by by split.
  pose proof (only_put id t (with_queued true t) s0 H0 Ht ltac:(by left)) as H1.
  apply ho_bind, ho_get_task. cbn [tasks set_tasks]. intros t1. rewrite lookup_insert_eq. intros [= <-].
  apply ho_bind, ho_modify, ho_bind. cbn [done with_queued].
  set (s1 := set_tasks _ s0) in *. set (t1 := with_done Done (with_queued true t)).
  assert (Ht1 : tasks s1 !! id = Some (with_queued true t)) by apply lookup_insert_eq.
  pose proof (only_put id _ t1 s1 H1 Ht1 ltac:(by left)) as H2. set (s2 := set_tasks (<[id := t1]> (tasks s1)) s1) in *.
  assert (Ht2 : tasks s2 !! id = Some t1) by apply lookup_insert_eq.
  assert (Hs2 : stopped s2).
  { split; [done|]. intros u Hu. rewrite Ht2 in Hu. by injection Hu as <-. }
  match goal with |- ho _ _ (fun _ s' => ho ?k s' _) => assert (Hrest : keeps k) by keep end.
  destruct (done t) eqn:Hd; [|apply ho_ret, Hrest, Hs2..].
  apply ho_bind, ho_get_task. intros u Hu. rewrite Ht2 in Hu. injection Hu as <-.
  apply ho_bind. intros f0 s3 Hf. assert (s3 = s2) as -> by (unfold deref in Hf; destruct (future t1); [by injection Hf|done]).
  apply ho_bind, ho_modify, ho_bind, ho_modify. cbn [owned t1 with_done with_queued]. rewrite Hown by done.
  apply ho_ret, Hrest.
  apply (stopped_same (set_tasks (<[id := with_future None [] t1]> (tasks s2)) s2)); [done..|]. split.
  - eapply only_put; [exact H2|exact Ht2|by left].
  - cbn. intros u. rewrite lookup_insert_eq. by intros [= <-].
Qed.
End pop.

Lemma stopped_view {F U} (id : nat) (f : F) (s s' : sched F U) :
  stopped (Some (id, f)) id s s' -> view_of None s' = on_tasks (delete id) (view_of (Some (id, f)) s).
Proof.
  intros [[Ht ? ? ? ?] Hs]. apply view_eq; try done. intros x. cbn [v_tasks on_tasks]. rewrite view_lookup.
  assert (Hx : forall t : task F, x <> id -> as_running None x t = as_running (Some (id, f)) x t).
  { intros t Hne. unfold as_running, future_in. by rewrite decide_False by done. }
  destruct (decide (x = id)) as [->|Hne].
  - rewrite lookup_delete_eq. destruct (tasks s' !! id) as [t|] eqn:Hid; [|done]. cbn. unfold as_running.
    specialize (Hs t eq_refl). by destruct (done t).
  - rewrite lookup_delete_ne, view_lookup, <- Ht by done. destruct (tasks s' !! x); [|done]. cbn. by apply Hx.
Qed.

Section poll.
Context {F U : Type} {FU : Future F U} {FS : FutureSpec F U} {FO : FutureOk F U}.
Implicit Types (s : sched F U) (L held : list nat) (t : task F) (v : view F U).
Context (E : string -> Prop).

(** ** The property that is kept

    The poll of a task that was taken out of the queue keeps it. *)
Context (lv : view F U -> Prop).
Context (lv_poll : forall v id rt,
  lv v -> v_tasks v !! id = Some rt -> uok (v_user v) -> uin (v_user v) -> fok (v_user v) (rt_future rt) ->
  act_v (AsTask id) (poll_lv lv id) (on_tasks (alter (queue_as false) id) v) (fpoll (rt_future rt))).

(** Fields the view does not have. *)
Lemma view_same s s' :
  tasks s' = tasks s -> wakers s' = wakers s -> tokens s' = tokens s -> next_id s' = next_id s -> user s' = user s ->
  view_of None s' = view_of None s.
Proof. unfold view_of. congruence. Qed.

(** What a poll ends with, besides [poll_post]. *)
Definition live_post s (r : option (poll unit)) s' : Prop :=
  lv (view_of None s') /\
  (gap s = None -> (pot s' < pot s)%nat \/ outer_woken s' = outer_woken s).

Lemma wp_yield_v w s0 s L held id fuel (Q : option (poll unit) -> sched F U -> Prop) :
  moves s0 s -> sinv s L at_rest (id :: held) -> uin (user s) -> (pot s <= pot s0)%nat ->
  (forall r s', poll_post w fuel s0 r s' -> view_of None s' = view_of None s -> Q r s') ->
  wpe (do! wake_outer w in do! schedular_drop id in ret (Some Pending)) s Q E.
Proof.
  intros [Hu Ha Hm Hs] Hinv Hin Hpot HQ. apply wpe_bind, wpe_modify, wpe_bind.
  eapply wpe_run.
  { eapply (wp_decr E _ L at_rest held id (fun _ s' => sinv s' L at_rest held /\ later 0 (add_outer_woken w s) s' /\
      outer_woken s' = outer_woken s ++ [w])); [eapply (sinv_same s); [by split|done..]|].
    intros m s' H1 H2 _ _. by split_and!. }
  intros [] s' Hrun (Hs' & [Hfr Hpot'] & How). apply wpe_ret, HQ.
  - exists L, held. change (pot (add_outer_woken w s)) with (pot s) in Hpot'.
    split_and!; [done|by rewrite (lt_alive _ _ Hfr)|by rewrite (lt_user _ _ Hfr)|by rewrite (lt_user _ _ Hfr)|by eexists|lia|done|].
    intros _ o Ho _. left. destruct (Hm _ _ Ho) as (l & Hl & _). exists (l ++ [w]).
    rewrite How, Hl, <- app_assoc. split; [done|]. apply elem_of_app. right. by left.
  - transitivity (view_of None (add_outer_woken w s)); [|done].
    eapply view_decr; [|exact Hs'|exact Hrun]. eapply (sinv_same s); [by split|done..].
Qed.

(** What is done with a running task, before the next iteration. *)
Lemma wp_running_v w fuel s L held cur t it y (Q : option (poll unit) -> sched F U -> Prop) :
  sinv s L (popped (Some cur)) (cur :: held) -> tasks s !! cur = Some t -> done t = Running ->
  queued t = true -> (cur ∉ should_poll s) -> queue_alive s = true -> uin (user s) -> lv (view_of None s) ->
  (forall s' L' it y, sinv s' L' at_rest held -> grows s s' -> uin (user s') -> (pot s' <= pot s)%nat ->
     lv (view_of None s') -> wpe (poll_loop fuel w it y) s' Q E) ->
  (forall r s', poll_post w (S fuel) s r s' -> lv (view_of None s') -> Q r s') ->
  wpe (do! upd_task cur (with_queued false) in
       do! assert (queued t) "assertion failed: prev" in
       let! r := drive_task cur in
       match r with
       | Ready _ =>
           do! pop_task_all cur in
           do! schedular_drop cur in
           poll_loop fuel w (it + 1) y
       | Pending =>
           let! t := get_task cur in
           let! n := gets len in
           if ((2 <? y + (if queued t then 1 else 0)) || (n <? it + 1))%Z then
             do! wake_outer w in
             do! schedular_drop cur in
             ret (Some Pending)
           else
             do! schedular_drop cur in
             poll_loop fuel w (it + 1) (y + (if queued t then 1 else 0))
       end) s Q E.
Proof.
  intros Hinv Ht Hr Hq Hout Hal Hin Hlv Hnext HQ.
  destruct (c_status _ _ _ _ (s_core _ _ _ _ Hinv) _ _ Ht) as (_ & _ & _ & Hst). rewrite Hr in Hst.
  destruct Hst as (_ & Hfu & _). destruct (future t) as [f|] eqn:Hf; [|discriminate (proj1 Hfu eq_refl)].
  assert (Hrt : v_tasks (view_of None s) !! cur = Some {| rt_queued := queued t; rt_future := f; rt_owned := owned t |}).
  { rewrite view_lookup, Ht. cbn. unfold as_running, future_in. by rewrite Hr, Hf. }
  apply wpe_bind. eapply wpe_run.
  { eapply (wp_unqueue E s L (cur :: held) cur t (fun _ s' => sinv s' L at_rest (cur :: held) /\ later 0 s s' /\
      tasks s' !! cur = Some (with_queued false t))); [done..|]. by intros s' ? ? ?. }
  intros [] s1 Hrun (Hinv1 & [Hfr1 Hpot1] & Ht1).
  assert (Hv1 : view_of None s1 = on_tasks (alter (queue_as false) cur) (view_of None s)).
  { unfold upd_task, get_task, bind, gets in Hrun. rewrite Ht in Hrun. cbn in Hrun. injection Hrun as <-.
    eapply view_alter; [done|]. unfold as_running, future_in. cbn. by rewrite Hr, Hf. }
  apply wpe_bind, wpe_assert_true; [done|]. apply wpe_bind.
  destruct (u_futures _ (s_users _ _ _ _ Hinv) _ _ _ Ht Hf) as [[]|Hfok].
  eapply (wp_drive_fut_v E lv); [exact Hinv1|by rewrite (lt_alive _ _ Hfr1)|by rewrite (lt_user _ _ Hfr1)|exact Ht1|exact Hr|exact Hf|..].
  { rewrite Hv1. apply (lv_poll _ _ _ Hlv Hrt); [apply (s_users _ _ _ _ Hinv)|done..]. }
  intros r L2 s2 Hinv2 HL2 Hgr2 Hin2 Hpot2 Hlv2.
  assert (Hgr : grows s s2) by (eapply grows_trans; [by apply frame_grows|done]).
  destruct r as [u|]; cbn [exec_lv] in Hlv2.
  - destruct Hlv2 as (f0 & Hown & Hlv2). apply wpe_bind. eapply wpe_run.
    { eapply (wp_pop_task_all E _ _ _ _ None (fun _ s' => exists l1 l2, L2 = l1 ++ cur :: l2 /\
        sinv_ (returned (Ready u) cur) s' (l1 ++ l2) at_rest (cur :: held) /\ later 0 s2 s')); [exact Hinv2|done|by left|].
      intros l1 l2 s3 ? ? ?. by exists l1, l2. }
    intros [] s3 Hrun3 (l1 & l2 & -> & Hinv3 & [Hfr3 Hpot3]).
    assert (Hv3 : view_of None s3 = on_tasks (delete cur) (view_of (Some (cur, f0)) s2)).
    { apply stopped_view. by eapply ho_pop_task_all; [intros t3 Ht3 _; apply Hown|]. }
    apply wpe_bind. eapply (wp_decr_v E _ None); [exact Hinv3|].
    intros s4 Hinv4 [Hfr4 Hpot4] Hv4. destruct u. apply sinv_popped in Hinv4; cycle 1.
    { pose proof (c_nodup _ _ _ _ (s_core _ _ _ _ Hinv2)) as Hnd.
      apply NoDup_app in Hnd as (_ & H12 & [H2 _]%NoDup_cons).
      intros [H|H]%elem_of_app; [|done]. apply (H12 cur H). left. }
    eapply Hnext; [done| |by rewrite (lt_user _ _ Hfr4), (lt_user _ _ Hfr3)|lia|by rewrite Hv4, Hv3].
    eapply grows_trans; [done|]. apply frame_grows. by eapply frame_trans.
  - apply (sinv_gone _ none_returned) in Hinv2; [|by intros ? ? [_ [=]]].
    destruct (core_get _ _ _ _ cur (s_core _ _ _ _ Hinv2)) as [t2 Ht2]; [by apply refs_list|].
    apply wpe_bind. eapply wp_get_task; [done|]. apply wpe_bind, wpe_gets.
    destruct (_ || _).
    + eapply wp_yield_v; [by apply grows_moves|done..|lia|]. intros r s4 Hpost Hv4. apply HQ; [done|by rewrite Hv4].
    + apply wpe_bind. eapply (wp_decr_v E _ None); [done|].
      intros s4 Hinv4 [Hfr4 Hpot4] Hv4. eapply Hnext; [done| |by rewrite (lt_user _ _ Hfr4)|lia|by rewrite Hv4].
      eapply grows_trans; [done|by apply frame_grows].
Qed.

Lemma wp_poll_loop_v w fuel s L held it y (Q : option (poll unit) -> sched F U -> Prop) :
  sinv s L at_rest held -> queue_alive s = true -> uin (user s) -> lv (view_of None s) ->
  (forall r s', poll_post w fuel s r s' -> live_post s r s' -> Q r s') -> wpe (poll_loop fuel w it y) s Q E.
Proof.
  revert s L held it y Q. induction fuel as [|fuel IH]; intros s L held it y Q Hinv Hal Hin Hlv HQ; cbn [poll_loop].
  { apply wpe_ret, HQ; [|split; [done|by right]]. exists L, held. split_and!; [done|done|apply ule_refl|done|lia|done..]. }
  apply wpe_bind. eapply wp_q_pop; [done|done|..].
  - intros Hg. apply wpe_bind, wpe_modify, wpe_ret, HQ.
    + exists L, held.
      split_and!; [eapply sinv_same; [| | | | |exact Hinv]; by try split|done|apply ule_refl|done|by eexists|done|done|].
      intros _ o (l & Hl & _) _. left. exists (l ++ [w]). cbn. rewrite Hl, <- app_assoc.
      split; [done|]. apply elem_of_app. right. by left.
    + split; [by erewrite view_same|]. intros Hn. unfold gaps in Hg. by rewrite Hn in Hg.
  - intros g s1 Hs. apply wpe_bind, wpe_gets, wpe_ret, HQ.
    + exists L, held.
      split_and!; [by apply sinv_gap|done|apply ule_refl|done|by eexists|done| |].
      * cbn. rewrite (l_next _ _ (s_linked _ _ _ _ Hinv)). by destruct L.
      * intros Hr o (l & Hl & Hw) Hse. destruct (Hs Hse) as [Hq _].
        destruct Hw as [Hw|Hw]; [right|left; by exists l]. split_and!; [done..|]. intros ->.
        cbn in Hr. by rewrite (l_next _ _ (s_linked _ _ _ _ Hinv)) in Hr.
    + split; [by erewrite view_same|]. by right.
  - intros cur q g s1 Hq Hout Hse Hg Hqt Hinv1. pose proof (pot_pop s cur q g Hq) as Hpot1.
    pose proof (moves_pop s q g Hse) as Hmv1. fold s1 in Hpot1, Hmv1.
    destruct (core_get _ _ _ _ cur (s_core _ _ _ _ Hinv1)) as [t Ht]; [by apply refs_held; left|].
    assert (Hlv1 : lv (view_of None s1)) by by erewrite view_same.
    assert (Hend : forall fuel1 s2 r s', moves s1 s2 -> (pot s2 <= pot s1)%nat -> (fuel <= fuel1)%nat ->
      poll_post w fuel1 s2 r s' -> lv (view_of None s') -> Q r s').
    { intros fuel1 s2 r s' Hm Hp Hle Hpost Hl. apply HQ.
      - apply (poll_post_step w (S fuel) fuel1 s s2); [by eapply moves_trans|lia|lia|exact Hpost].
      - split; [done|]. intros _. left. destruct Hpost as (? & ? & _ & _ & _ & _ & _ & Hpot & _). lia. }
    assert (Hnext : forall s' L' held' it y, sinv s' L' at_rest held' -> moves s1 s' -> uin (user s') ->
      (pot s' <= pot s1)%nat -> lv (view_of None s') -> wpe (poll_loop fuel w it y) s' Q E).
    { intros s' L' held' it' y' Hinv' Hm Hin' Hp Hl. eapply IH; [done|by rewrite (m_alive _ _ Hm)|done|done|].
      intros r s'' Hpost [Hl' _]. by apply (Hend fuel s' r s''). }
    apply wpe_bind. eapply (wp_get_task E s1); [done|]. destruct (done t) eqn:Hdn.
    + eapply (wp_running_v w fuel s1 L held cur t it y); try done; [by apply Hqt| |].
      * intros s' L' it' y' Hinv' Hgr Hin' Hp Hl. eapply Hnext; [done|by apply grows_moves|done..].
      * intros r s' Hpost Hl. by apply (Hend (S fuel) s1 r s'); [split; [apply ule_refl|done..]|lia|lia|..].
    + destruct (c_status _ _ _ _ (s_core _ _ _ _ Hinv1) _ _ Ht) as (_ & _ & _ & H).
      rewrite Hdn in H. destruct H as (HL & Hf & _). apply wpe_bind.
      eapply wpe_run.
      { eapply (wp_pop_task_all E s1 L _ cur _ (fun _ s' => exists L', sinv s' L' at_rest (cur :: held) /\ later 0 s1 s'));
          [exact Hinv1|done|by right|]. intros l1 l2 s' -> Hinv' Hlt. by exists (l1 ++ l2). }
      intros [] s' Hrun (L' & Hinv' & Hlt).
      eapply Hnext; [done|by eapply later_moves|by rewrite (lt_user _ _ (proj1 Hlt))|by destruct Hlt|].
      assert (Hst : stopped None cur s1 s') by (eapply ho_pop_task_all; [|exact Hrun]; congruence).
      assert (Hv : view_of None s' = view_of None s1); [|by rewrite Hv].
      destruct Hst as [[Hx ? ? ? ?] Hid]. apply view_eq; try done. intros x. rewrite !view_lookup.
      destruct (decide (x = cur)) as [->|Hne]; [|by apply Hx]. rewrite Ht. cbn. unfold as_running at 2. rewrite Hdn.
      destruct (tasks s' !! cur) as [u|] eqn:Hu; [|done]. cbn. unfold as_running. specialize (Hid u eq_refl). by destruct (done u).
    + apply wpe_bind. eapply (wp_decr_v E _ None); [by eapply sinv_popped_done|]. intros s' Hinv' Hlt Hv.
      eapply Hnext; [done|by eapply later_moves|by rewrite (lt_user _ _ (proj1 Hlt))|by destruct Hlt|by rewrite Hv].
Qed.

Lemma wp_poll_sched_v w fuel s L held (Q : option (poll unit) -> sched F U -> Prop) :
  sinv s L at_rest held -> queue_alive s = true -> uin (user s) -> lv (view_of None s) ->
  (forall r s', (L = [] /\ r = Some (Ready tt) /\ s' = s) \/
     (L <> [] /\ poll_post w fuel (set_registered (Some w) s) r s' /\ live_post s r s') -> Q r s') ->
  wpe (poll_sched fuel w) s Q E.
Proof.
  intros Hinv Hal Hin Hlv HQ. apply wpe_bind, wpe_gets. rewrite (l_next _ _ (s_linked _ _ _ _ Hinv)).
  destruct L as [|x L]; cbn [head].
  - apply wpe_ret, HQ. by left.
  - apply wpe_bind, wpe_modify. eapply wp_poll_loop_v; [|done|done|by erewrite view_same|].
    + eapply sinv_same; [| | | | |exact Hinv]; by try split.
    + intros r s' Hpost Hl. apply HQ. by right.
Qed.
End poll.
