(* ===== verification/SimpleFut.v ===== *)
(** * Futures that spawn, wake, cancel and keep wakers *)

From S2P Require Import Prelude Schedular SchedularInv SchedularPoll.
Import Schedular.

(** A future as the list of what it does until its next suspension. *)
Inductive fut :=
| FReady                      (* [Poll::Ready(())] *)
| FPend (k : fut)             (* [Poll::Pending] *)
| FWakeSelf (k : fut)         (* [cx.waker().wake_by_ref()] *)
| FStash (k : fut)            (* a clone of the waker is kept somewhere outside *)
| FSpawn (f k : fut)          (* [push_cancellable(f)], the token kept in the future *)
| FCancel (i : nat) (k : fut) (* drop of the [i]th thing the future owns *)
| FWake (i : nat) (k : fut).  (* a waker kept outside is called *)

Fixpoint poll_fut (f : fut) : act fut unit (option fut) :=
  match f with
  | FReady => ARet None
  | FPend k => ARet (Some k)
  | FWakeSelf k => AWakeSelf (poll_fut k)
  | FStash k => AClone false (fun _ => poll_fut k)
  | FSpawn f k => ASpawn f [] (fun _ => poll_fut k)
  | FCancel i k =>
      AOwned (fun l => match l !! i with Some x => ADrop x (poll_fut k) | None => poll_fut k end)
  | FWake i k => AWake i (poll_fut k)
  end.

#[export] Instance fut_future : Future fut unit := {| fpoll := poll_fut; fdone := FReady |}.

Fixpoint size (f : fut) : nat :=
  match f with
  | FReady => 1
  | FPend k | FWakeSelf k | FStash k | FCancel _ k | FWake _ k => S (size k)
  | FSpawn f k => S (size f + size k)
  end.

(** They share no memory, and each poll makes them smaller. *)
#[export] Instance fut_spec : FutureSpec fut unit :=
  {| uok := fun _ => True; uin := fun _ => True; ule := fun _ _ => True; fok := fun _ _ => True; fsize := fun _ f => size f;
     fpanics := fun _ => False |}.

Lemma size_pos f : (0 < size f)%nat.
Proof. destruct f; cbn; lia. Qed.

Lemma poll_fut_ok n f u : (size f <= n)%nat -> act_ok poll_ok n u (poll_fut f).
Proof.
  revert n. induction f as [|k IH|k IH|k IH|f _ k IH|i k IH|i k IH]; intros n Hn; cbn [size] in Hn; cbn.
  - by split.
  - split; [done|]. split; [done|]. cbn. lia.
  - exists (pred n). split; [lia|]. apply IH. lia.
  - intros _. apply IH. lia.
  - split; [done|]. exists (n - S (size f))%nat. split; [lia|]. intros _. apply IH. lia.
  - intros l. destruct (l !! i); apply IH; lia.
  - exists (pred n). split; [lia|]. apply IH. lia.
Qed.

#[export] Instance fut_ok : FutureOk fut unit.
Proof.
  split; [|intros; by apply poll_fut_ok]. split; try done. intros. apply size_pos.
Qed.

Lemma op_ok_fut (l : list (op fut)) : Forall op_ok l.
Proof. apply Forall_forall. intros o _. by destruct o. Qed.
