(* ===== verification/SchedularThms.v ===== *)
(** * What the scheduler of the tree runtime guarantees

    Whatever sequence of operations a scheduler has been through ([after]), with
    any futures that keep what [FutureOk] asks of them; the examples use those of
    [SimpleFut]. *)

From S2P Require Import Prelude Schedular SchedularInv SchedularSafe SchedularPoll SimpleFut.
Import Schedular.

Lemma split_unique (x : nat) l1 l2 k1 k2 :
  NoDup (l1 ++ x :: l2) -> l1 ++ x :: l2 = k1 ++ x :: k2 -> l1 = k1 /\ l2 = k2.
Proof.
  revert k1. induction l1 as [|y l1 IH]; intros [|z k1] Hnd He; cbn in *;
    apply NoDup_cons in Hnd as [Hx Hnd]; injection He; intros; subst.
  - done.
  - destruct Hx. apply elem_of_app. right. by left.
  - destruct Hx. apply elem_of_app. right. by left.
  - by destruct (IH k1 Hnd) as [-> ->].
Qed.

Section thms.
Context {F U : Type} {FU : Future F U} {FS : FutureSpec F U} {FO : FutureOk F U}.

(** The state a computation ends in. *)
Definition final {A} (c : M (sched F U) A) (s : sched F U) : sched F U :=
  match c s with Ok (_, s') => s' | _ => s end.

Lemma wp_returns (c : M (sched F U) unit) s (P : sched F U -> Prop) :
  wp c s (fun _ => P) -> exists s', c s = Ok (tt, s') /\ P s'.
Proof. intros H. destruct (wp_ok _ _ _ H) as ([] & s' & Hs & HP). by exists s'. Qed.

(** The state after the operations [l] on a new scheduler. *)
Definition after (u : U) (l : list (op F)) : sched F U := final (run_ops l) (new u).

Lemma after_rest u l : uok u -> Forall op_ok l -> rest (after u l).
Proof.
  intros Hu Hl. destruct (wp_returns _ _ _ (wp_sched_ops no_panic l (new u) (rest_new _ Hu) Hl)) as (s & Hs & Hr).
  unfold after, final. by rewrite Hs.
Qed.

Context (u : U) (l : list (op F)) (Hu : uok u) (Hl : Forall op_ok l).

(** [C11] No sequence of operations on a scheduler, with any futures, is undefined
    or panics: no task is used after it was freed, no future is dropped twice, the
    length does not underflow.  Afterwards the strong count of every task in
    memory is the number of its owners (list of tasks, queue, wakers, tokens, and
    counts lost to cancelled tasks), the list of all tasks is properly linked in
    both directions, and a task has a future exactly while it runs. *)
Theorem operations_defined :
  wp (run_ops l) (new u) (fun _ s => exists L held, sinv s L at_rest held).
Proof. exact (wp_sched_ops no_panic l (new u) (rest_new u Hu) Hl). Qed.

(** A poll ends with a result: the work left, which is what the tasks can
    still do and what is in the queue, bounds the iterations of its loop.  The
    poll does not add to the work left, and when it is ready no task is left. *)
Theorem poll_ends fuel w :
  queue_alive (after u l) = true -> uin (user (after u l)) -> (pot (after u l) < fuel)%nat ->
  exists p s', poll_sched fuel w (after u l) = Ok (Some p, s') /\
    (pot s' <= pot (after u l))%nat /\ (p = Ready tt -> all_next s' = None).
Proof.
  intros Hal Hin Hfuel. destruct (after_rest u l Hu Hl) as (L & held & Hinv).
  edestruct (wp_ok (poll_sched fuel w) (after u l)) as (r & s' & Hs & H).
  { eapply (wp_poll_sched _); [exact Hinv|exact Hal|exact Hin|]. intros r s' H. exact H. }
  destruct H as [(-> & -> & ->)|(_ & L' & held' & Hinv' & _ & _ & _ & Hr & Hpot & He & _)].
  - exists (Ready tt), (after u l). split; [exact Hs|]. split; [done|].
    intros _. apply (l_next _ _ (s_linked _ _ _ _ Hinv)).
  - destruct (Hr Hfuel) as [p ->]. exists p, s'. split; [exact Hs|]. split; [exact Hpot|].
    intros ->. rewrite (l_next _ _ (s_linked _ _ _ _ Hinv')). by rewrite He.
Qed.

(** A poll that is pending does not lose a wake-up: either the waker of its
    context was called during the poll, or it is registered with the queue for
    the next wake-up and the queue is empty. *)
Theorem poll_pending_woken fuel w s' :
  queue_alive (after u l) = true -> uin (user (after u l)) -> sees_all (after u l) ->
  poll_sched fuel w (after u l) = Ok (Some Pending, s') ->
  (exists woken, outer_woken s' = outer_woken (after u l) ++ woken /\ w ∈ woken) \/
  (registered s' = Some w /\ should_poll s' = []).
Proof.
  intros Hal Hin Hse Hp. destruct (after_rest u l Hu Hl) as (L & held & Hinv).
  edestruct (wp_ok (poll_sched fuel w) (after u l)) as (r & s1 & Hs & H).
  { eapply (wp_poll_sched _); [exact Hinv|exact Hal|exact Hin|]. intros r s1 H. exact H. }
  rewrite Hp in Hs. injection Hs as <- <-.
  destruct H as [(_ & ? & _)|(_ & L' & held' & _ & _ & _ & _ & _ & _ & _ & H)]; [done|].
  destruct (H eq_refl (outer_woken (after u l))) as [Hc|(? & ? & _)]; [|exact Hse|by left|by right].
  exists []. cbn. rewrite app_nil_r. split; [done|by left].
Qed.

Lemma with_strong_back (t : task F) : with_strong (strong (with_strong (strong t + 1) t) - 1) (with_strong (strong t + 1) t) = t.
Proof. destruct t as [n]. unfold with_strong. cbn. f_equal. lia. Qed.

(** A waker used by reference queues its task at the end and calls the waker
    of the executor, which then has to register again; if the task is queued
    already or done nothing happens. *)
Theorem wake_queues i id t :
  queue_alive (after u l) = true -> wakers (after u l) !! i = Some (Some id) ->
  tasks (after u l) !! id = Some t ->
  exists s', run_op (OWakeRef i) (after u l) = Ok (tt, s') /\
  if queued t
  then tasks s' !! id = Some t /\ should_poll s' = should_poll (after u l) /\
       outer_woken s' = outer_woken (after u l)
  else tasks s' !! id = Some (with_queued true (with_strong (strong t + 1) t)) /\
       should_poll s' = should_poll (after u l) ++ [id] /\
       outer_woken s' = outer_woken (after u l) ++ option_list (registered (after u l)) /\
       registered s' = None.
Proof.
  intros Hal Hi Ht. destruct (after_rest u l Hu Hl) as (L & held & Hinv). set (s := after u l) in *.
  set (t1 := with_strong (strong t + 1) t). pose proof (c_count _ _ _ _ (s_core _ _ _ _ Hinv) id) as Hc.
  rewrite Ht in Hc. apply wp_returns.
  apply wpe_bind, wpe_gets. rewrite Hi. apply wpe_bind, wpe_ret, wpe_bind, wpe_bind.
  eapply wp_get_task; [done|]. apply wpe_modify, wpe_bind, wpe_bind.
  eapply wp_get_task; [cbn; apply lookup_insert_eq|]. fold t1.
  change (queued t1) with (queued t). destruct (queued t).
  - apply wpe_ret, wpe_bind. eapply wp_get_task; [cbn; apply lookup_insert_eq|].
    destruct (Z.eqb_spec (strong t1) 1) as [H1|_]; [unfold t1 in H1; cbn in H1; lia|]. apply wpe_modify. cbn.
    rewrite lookup_insert_eq. split; [|done]. f_equal. by apply with_strong_back.
  - apply wpe_bind, wpe_modify, wpe_ret, wpe_bind, wpe_gets. cbn [queue_alive set_tasks]. rewrite Hal.
    apply wpe_bind, wpe_modify, wp_queue_wake; cbn.
    + intros ->. rewrite lookup_insert_eq, app_nil_r. done.
    + intros w ->. rewrite lookup_insert_eq. done.
Qed.

(** Dropping a cancel token drops the future of its task at once, if it has
    not been dropped yet, and uses the token up. *)
Theorem cancel_drops_future n id :
  tokens (after u l) !! n = Some (Some id) ->
  exists s', run_op (ODropToken n) (after u l) = Ok (tt, s') /\ id ∈ dropped s' /\
    NoDup (dropped s') /\ tokens s' !! n = Some None.
Proof.
  intros Hn. destruct (after_rest u l Hu Hl) as (L & held & Hinv). apply wp_returns.
  eapply wpe_post; [by apply (wp_drop_token_drops (gone := none_returned))|]. intros [] s' [[Hinv' _] H].
  destruct (H id Hn) as [Hin Ht]. split; [done|]. split; [|done]. apply (d_nodup _ (s_drops _ _ _ _ Hinv')).
Qed.

(** Every future is dropped once: none is dropped twice, and those that have
    not been dropped belong to tasks that are in memory and run. *)
Theorem futures_dropped_once :
  NoDup (dropped (after u l)) /\
  forall id, id ∈ dropped (after u l) <->
    (id < next_id (after u l))%nat /\ forall t, tasks (after u l) !! id = Some t -> done t <> Running.
Proof. destruct (after_rest u l Hu Hl) as (L & held & [_ _ [] _]). done. Qed.

(** [C36] [clear] ends, and leaves no task in the list: every future that was ever
    pushed has then been dropped, each of them once, and a task that is still in
    memory is done, holds no future and only waits for its last owner.  No task is
    left in the queue either, unless another thread is in the middle of a push that
    makes [pop] report an empty queue ([sees_all] says that there is none). *)
Theorem clear_drops_all fuel :
  (Z.to_nat (len (after u l)) < fuel)%nat -> (pot (after u l) + gaps (after u l) < fuel)%nat ->
  exists s', clear fuel (after u l) = Ok (Some tt, s') /\
    all_next s' = None /\ len s' = 0 /\ dropped s' ≡ₚ seq 0 (next_id (after u l)) /\
    (forall id t, tasks s' !! id = Some t -> done t = Done /\ future t = None /\ 0 < strong t) /\
    (sees_all (after u l) -> should_poll s' = []).
Proof.
  intros Hlen Hfuel. destruct (after_rest u l Hu Hl) as (L & held & Hinv).
  edestruct (wp_ok (clear fuel) (after u l)) as (r & s' & Hs & H).
  { eapply wp_clear; [exact Hinv|]. intros r L' s' H1 H2 H3 _ H4 H5.
    exact (conj (ex_intro (fun L' => sinv s' L' at_rest held /\
      (r = Some () → L' = [] ∧ (sees_all (after u l) → should_poll s' = []))) L' (conj H1 H4)) (conj H3 H5)). }
  destruct H as ((L' & Hinv' & He) & Hnx & Hr).
  rewrite (l_len _ _ (s_linked _ _ _ _ Hinv)), Nat2Z.id in Hlen. specialize (Hr Hlen Hfuel). subst r.
  destruct (He eq_refl) as [-> Hq]. exists s'. destruct Hinv' as [Hc [_ Hh _ Hlen'] [Hnd Hd] _].
  assert (Hdone : forall id t, tasks s' !! id = Some t -> done t = Done /\ future t = None).
  { intros id t Ht. destruct (c_status _ _ _ _ Hc _ _ Ht) as (_ & _ & _ & H).
    destruct (done t); [destruct H as [H _]; by apply not_elem_of_nil in H..|tauto]. }
  split_and!; [done|done|done| | |exact Hq].
  - apply NoDup_Permutation; [done|apply NoDup_seq|]. intros id. rewrite Hd, elem_of_seq, Hnx.
    split; [lia|]. intros Hid. split; [lia|]. intros t Ht. destruct (Hdone _ _ Ht). congruence.
  - intros id t Ht. destruct (Hdone _ _ Ht). split_and!; [done..|].
    pose proof (c_count _ _ _ _ Hc id) as Hct. rewrite Ht in Hct. lia.
Qed.

(** The doubly linked list kept in the tasks is the list of the tasks that
    run or are cancelled, newest first: [push_cancellable] puts a task in front,
    and [pop_task_all] takes one out of the middle. *)
Theorem task_list_refines :
  exists L, linked (after u l) L /\
    (queue_alive (after u l) = true -> forall f, fok (user (after u l)) f ->
       exists n s', push_cancellable f [] (after u l) = Ok (n, s') /\ linked s' (next_id (after u l) :: L)) /\
    (forall l1 id l2, L = l1 ++ id :: l2 ->
       exists s', pop_task_all id (after u l) = Ok (tt, s') /\ linked s' (l1 ++ l2)).
Proof.
  destruct (after_rest u l Hu Hl) as (L & held & Hinv). exists L. split; [apply Hinv|]. split.
  - intros Hal f Hf. edestruct (wp_ok (push_cancellable f []) (after u l)) as (n & s' & Hs & H).
    { eapply wp_push_cancellable;
        [exact Hinv|done|by intros n ?%not_elem_of_nil|done..|by apply not_elem_of_nil|]. intros [_ H _ _] _ _.
      refine (_ : (fun _ s' => linked s' (next_id (after u l) :: L)) _ _). exact H. }
    exists n, s'. done.
  - intros l1 id l2 ->. apply wp_returns.
    eapply wp_pop_task_all; [exact Hinv|apply elem_of_app; right; left|by left|].
    intros k1 k2 s' Hk [Hc' Hlk _ _] _.
    assert (Hnd : NoDup (l1 ++ id :: l2)) by apply (c_nodup _ _ _ _ (s_core _ _ _ _ Hinv)).
    destruct (split_unique _ _ _ _ _ Hnd Hk) as [-> ->]. done.
Qed.

End thms.

(** ** Examples *)

(** Operations for the examples: two tasks, one of which wakes itself, spawns a
    third and keeps a waker. *)
Definition busy : list (op fut) :=
  [OPush (FStash (FWakeSelf (FPend FReady))); OPush (FSpawn (FPend FReady) (FPend FReady))].

Lemma tt_ok : uok (F := fut) tt.
Proof. exact I. Qed.

Lemma busy_ok : Forall op_ok busy.
Proof. apply op_ok_fut. Qed.

Lemma operations_defined_witness :
  exists s, run_ops busy (new tt) = Ok (tt, s) /\ exists L held, sinv s L at_rest held.
Proof.
  pose proof (operations_defined tt busy tt_ok busy_ok) as H. unfold wpe in H.
  destruct (run_ops busy (new tt)) as [[[] s]| |]; [|destruct H..]. exists s. split; [reflexivity|exact H].
Defined.

Lemma poll_ends_witness :
  exists p s', poll_sched 30 7 (after tt busy) = Ok (Some p, s') /\
    (pot s' <= pot (after tt busy))%nat /\ (p = Ready tt -> all_next s' = None).
Proof. apply (poll_ends tt busy tt_ok busy_ok 30 7); [reflexivity|exact I|vm_compute; lia]. Defined.

Lemma poll_pending_woken_witness :
  let s' := final (poll_sched 30 7) (after tt busy) in
  (exists woken, outer_woken s' = outer_woken (after tt busy) ++ woken /\ 7%nat ∈ woken) \/
  (registered s' = Some 7%nat /\ should_poll s' = []).
Proof.
  apply (poll_pending_woken tt busy tt_ok busy_ok 30 7); [reflexivity|exact I|intros ? [=]|vm_compute; reflexivity].
Defined.

(** A task that kept a waker and waits. *)
Definition waiting : list (op fut) := [OPush (FStash (FPend FReady)); OPoll 30 7].

Lemma waiting_ok : Forall op_ok waiting.
Proof. apply op_ok_fut. Qed.

Lemma wake_queues_witness :
  exists s', run_op (OWakeRef 0) (after tt waiting) = Ok (tt, s') /\
    should_poll s' = [0%nat] /\ outer_woken s' = [7%nat].
Proof.
  destruct (wake_queues tt waiting tt_ok waiting_ok 0 0
    {| strong := 3; next := None; prev := None; done := Running; queued := false;
       future := Some FReady; owned := [] |}) as (s' & Hs & _ & Hq & Hw & _);
    [reflexivity..|]. exists s'. split; [exact Hs|]. split; [exact Hq|exact Hw].
Defined.

Lemma cancel_drops_future_witness :
  exists s', run_op (ODropToken 1) (after tt busy) = Ok (tt, s') /\ 1%nat ∈ dropped s' /\
    NoDup (dropped s') /\ tokens s' !! 1%nat = Some None.
Proof. apply (cancel_drops_future tt busy tt_ok busy_ok 1 1). reflexivity. Defined.

Lemma futures_dropped_once_witness :
  NoDup (dropped (after tt waiting)) /\ 0%nat ∉ dropped (after tt waiting).
Proof.
  destruct (futures_dropped_once tt waiting tt_ok waiting_ok) as [Hnd Hd]. split; [exact Hnd|].
  rewrite Hd. intros [_ H]. eapply H; reflexivity.
Defined.

(** Two tasks in the queue, and a push in progress that hides the second one. *)
Definition hidden : list (op fut) := busy ++ [OGap {| gap_after := 1; gap_inconsistant := false |}].

Lemma clear_drops_all_witness :
  (exists s', clear 40 (after tt busy) = Ok (Some tt, s') /\ all_next s' = None /\ len s' = 0 /\
    dropped s' ≡ₚ seq 0 2 /\
    (forall id t, tasks s' !! id = Some t -> done t = Done /\ future t = None /\ 0 < strong t) /\
    (sees_all (after tt busy) -> should_poll s' = [])) /\
  (exists s', clear 40 (after tt hidden) = Ok (Some tt, s') /\ all_next s' = None /\ len s' = 0 /\
    dropped s' ≡ₚ seq 0 2 /\
    (forall id t, tasks s' !! id = Some t -> done t = Done /\ future t = None /\ 0 < strong t) /\
    (sees_all (after tt hidden) -> should_poll s' = [])).
Proof.
  split; [apply (clear_drops_all tt busy tt_ok busy_ok 40)|
    apply (clear_drops_all tt hidden tt_ok (op_ok_fut hidden) 40)]; vm_compute; lia.
Defined.

(** With the push in progress a task stays in the queue, and in memory. *)
Example clear_leaves_hidden :
  should_poll (final (clear 40) (after tt hidden)) = [1%nat] /\
  (strong <$> tasks (final (clear 40) (after tt hidden)) !! 1%nat) = Some 2.
Proof. by split; vm_compute. Qed.

Lemma task_list_refines_witness :
  exists L, linked (after tt busy) L /\
    forall l1 id l2, L = l1 ++ id :: l2 ->
       exists s', pop_task_all id (after tt busy) = Ok (tt, s') /\ linked s' (l1 ++ l2).
Proof.
  destruct (task_list_refines tt busy tt_ok busy_ok) as (L & HL & _ & Hpop). exists L. exact (conj HL Hpop).
Defined.

(** A task whose cancel token was dropped while it was in the queue is never
    freed: the poll that takes it out of the list drops the count of the list and
    not the one the queue had.  Here no owner of task 0 is left, and it is still in
    memory with a count of one. *)
Theorem cancelled_task_leaks :
  let s := after tt [OPush (FPend FReady); OPoll 10 7; ODropToken 0; OPoll 10 7] in
  refs s [] [] = [] /\ all_next s = None /\
  exists t, tasks s !! 0%nat = Some t /\ strong t = 1 /\ done t = Done.
Proof. vm_compute. split; [done|]. split; [done|]. eexists. done. Qed.
