(* ===== verification/QueueRefine.v ===== *)
(** * The queue of the scheduler is the queue of the code

    [Schedular] uses a list for the queue of tasks to be polled, with a [gap] for a
    push of another thread that is not linked yet ([Schedular.q_push] and
    [q_pop]).  Here the queue of [Queue], whose pushes and pops are interleaved one
    access to memory at a time, is shown to be an implementation of it: a push
    takes effect when it swaps the head, a pop when it returns. *)

From stdpp Require Import functions.
From S2P Require Import Prelude Queue QueueThms Schedular.

Section refine.
Context {F U : Type} (stub : Z).

(** The node of a task. *)
Context (addr : nat -> Z).

Definition result_at (r : Schedular.Pop) : Queue.Pop :=
  match r with
  | Schedular.Empty => Queue.Empty
  | Schedular.Value id => Queue.Value (addr id)
  | Schedular.Inconsistant => Queue.Inconsistant
  end.

(** What happens to the queue of a scheduler. *)
Inductive event := EPush (id : nat) | EPop (g : option Schedular.gap_at).

Definition run_event (e : event) : M (Schedular.sched F U) (list Schedular.Pop) :=
  match e with
  | EPush id => do! Schedular.q_push id in ret []
  | EPop g =>
      do! modify (Schedular.set_gap g) in
      let! r := Schedular.q_pop in ret [r]
  end.

(** The results of the pops, in order. *)
Fixpoint run_events (l : list event) : M (Schedular.sched F U) (list Schedular.Pop) :=
  match l with
  | [] => ret []
  | e :: l => let! r := run_event e in let! rs := run_events l in ret (r ++ rs)
  end.

Definition pushes (l : list event) : list nat :=
  omap (fun e => match e with EPush id => Some id | EPop _ => None end) l.

(** The nodes that threads push are those of tasks. *)
Definition of_task (n : Z) : Prop := exists id, addr id = n.
Definition pushes_tasks (a : Queue.action) : Prop :=
  match a with Queue.Push _ n => of_task n | _ => True end.
Definition preparing_tasks (s : Queue.queue) : Prop :=
  forall i n, node_of (Queue.pcs s i) = Some n -> of_task n.

Definition implements (s : Queue.queue) (q : Schedular.sched F U) : Prop :=
  map addr (Schedular.should_poll q) = Queue.outstanding s.

(** The events [l] that a part of a schedule amounts to. *)
Definition refines (s s' : Queue.queue) (l : list event) : Prop :=
  forall q, implements s q -> exists rs q', run_events l q = Ok (rs, q') /\ implements s' q' /\
    Queue.results s' = Queue.results s ++ map result_at rs /\
    Queue.pushed s' = Queue.pushed s ++ map addr (pushes l).

Lemma run_events_app l1 l2 q rs1 q1 rs2 q2 :
  run_events l1 q = Ok (rs1, q1) -> run_events l2 q1 = Ok (rs2, q2) ->
  run_events (l1 ++ l2) q = Ok (rs1 ++ rs2, q2).
Proof.
  revert q rs1. induction l1 as [|e l1 IH]; intros q rs1; cbn [run_events app].
  - by intros [= <- <-].
  - unfold bind. destruct (run_event e q) as [[r q']| |]; [|done..].
    destruct (run_events l1 q') as [[rs q'']| |] eqn:H1; [|done..]. intros [= <- ->] H2.
    rewrite (IH _ _ H1 H2). cbn. by rewrite <- app_assoc.
Qed.

Lemma refines_trans s1 s2 s3 l1 l2 : refines s1 s2 l1 -> refines s2 s3 l2 -> refines s1 s3 (l1 ++ l2).
Proof.
  intros H1 H2 q Hq. destruct (H1 q Hq) as (rs1 & q1 & Hr1 & Hq1 & Hres1 & Hp1).
  destruct (H2 q1 Hq1) as (rs2 & q2 & Hr2 & Hq2 & Hres2 & Hp2). exists (rs1 ++ rs2), q2.
  split; [by eapply run_events_app|]. split; [done|].
  unfold pushes. rewrite omap_app, !map_app, !app_assoc, <- Hres1. unfold pushes in Hp1, Hp2. by rewrite <- Hp1.
Qed.

(** A step that the scheduler does not see. *)
Lemma refines_none s s' :
  Queue.results s' = Queue.results s -> Queue.pushed s' = Queue.pushed s ->
  Queue.popped s' = Queue.popped s -> refines s s' [].
Proof.
  intros Hr Hp Ho q Hq. exists [], q. split; [done|]. split; [|by rewrite !app_nil_r].
  unfold implements, Queue.outstanding in *. by rewrite Hp, Ho.
Qed.

Lemma outstanding_push s s' c n :
  qinv stub s c -> Queue.pushed s' = Queue.pushed s ++ [n] -> Queue.popped s' = Queue.popped s ->
  Queue.outstanding s' = Queue.outstanding s ++ [n].
Proof.
  intros Hq Hp Ho. unfold Queue.outstanding. rewrite Hp, Ho, (q_vals _ _ _ Hq), <- app_assoc.
  by rewrite !drop_app_length.
Qed.

Lemma refines_push s c i :
  qinv stub s c -> preparing_tasks s -> exists l, refines s (Queue.run_push i s) l.
Proof.
  intros Hq Ht. unfold Queue.run_push. destruct (Queue.pcs s i) as [|n|n|a b] eqn:Hi;
    [by exists []; apply refines_none..| |by exists []; apply refines_none].
  destruct (Ht i n) as [id Hid]; [by rewrite Hi|]. exists [EPush id]. intros q Himp.
  eexists _, _. split; [reflexivity|]. cbn. rewrite app_nil_r, Hid. split; [|done].
  unfold implements. erewrite (outstanding_push s); [|done..]. cbn. by rewrite map_app, Himp, <- Hid.
Qed.

(** What a step of [pop] does to the record of what happened. *)
Lemma run_pop_log s :
  let s' := Queue.run_pop stub s in Queue.pushed s' = Queue.pushed s /\
  ((Queue.results s' = Queue.results s /\ Queue.popped s' = Queue.popped s) \/
   exists r, Queue.results s' = Queue.results s ++ [r] /\
     Queue.popped s' = match r with Queue.Value x => Queue.popped s ++ [x] | _ => Queue.popped s end).
Proof.
  unfold Queue.run_pop, Queue.value_or. destruct (Queue.con s);
    repeat case_match; (split; [done|]); (by left) || (right; eexists; split; [reflexivity|done]).
Qed.

Lemma result_inj {A} (l : list A) x y : l ++ [x] = l ++ [y] -> x = y.
Proof. by intros [= ?]%app_inv_head. Qed.

Lemma pop_value q id rest :
  Schedular.should_poll q = id :: rest ->
  run_events [EPop None] q =
    Ok ([Schedular.Value id], Schedular.set_gap None (Schedular.set_should_poll rest (Schedular.set_gap None q))).
Proof. destruct q. cbn. by intros ->. Qed.

Lemma refines_pop s c : qinv stub s c -> exists l, refines s (Queue.run_pop stub s) l.
Proof.
  intros Hq. destruct (run_pop_inv stub s c Hq) as (c' & _ & Hpost).
  pose proof (run_pop_log s) as [Hp Hlog]. set (s' := Queue.run_pop stub s) in *.
  destruct Hlog as [[Hr Ho]|(r & Hr & Ho)]; [by exists []; apply refines_none|].
  destruct Hpost as [Hsame|(r' & Hr' & Hok)].
  { rewrite Hr in Hsame. apply (f_equal length) in Hsame. rewrite length_app in Hsame. cbn in Hsame. lia. }
  rewrite Hr in Hr'. apply result_inj in Hr' as <-.
  assert (Hfail : (forall x, r <> Queue.Value x) -> Queue.outstanding s' = Queue.outstanding s).
  { intros Hx. unfold Queue.outstanding. rewrite Hp, Ho. by destruct r as [|x|]; [|destruct (Hx x)|]. }
  assert (Hgap : forall b, Queue.outstanding s' = Queue.outstanding s ->
    result_at (if b : bool then Schedular.Inconsistant else Schedular.Empty) = r ->
    exists l, refines s s' l).
  { intros b Hout Hb. exists [EPop (Some {| Schedular.gap_after := 0; Schedular.gap_inconsistant := b |})].
    intros q Himp. eexists _, _. split; [reflexivity|]. split; [unfold implements; by rewrite Hout|].
    cbn [map app]. rewrite Hb. split; [done|]. by rewrite app_nil_r. }
  destruct r as [|x|]; cbn [result_ok] in Hok.
  - by apply (Hgap false); [apply Hfail|].
  - exists [EPop None]. intros q Himp. unfold implements in *. rewrite Hok in Himp.
    destruct (Schedular.should_poll q) as [|id rest] eqn:Hsp; [done|]. injection Himp as Hid Hrest.
    eexists _, _. split; [by apply pop_value|]. split; [done|]. cbn [map app result_at].
    rewrite Hid. split; [done|]. by rewrite app_nil_r.
  - by apply (Hgap true); [apply Hfail|].
Qed.

(** ** Runs *)
Lemma act_preparing s a : pushes_tasks a -> preparing_tasks s -> preparing_tasks (Queue.act stub s a).
Proof.
  intros Ha Ht. destruct a as [i n|i| |]; cbn [Queue.act].
  - destruct (Queue.pcs s i) eqn:Hi; [|done..]. intros j m. cbn.
    destruct (decide (j = i)) as [->|]; [rewrite fn_lookup_insert|rewrite fn_lookup_insert_ne by done; apply Ht].
    by intros [= <-].
  - unfold Queue.run_push. destruct (Queue.pcs s i) as [|n|n|x n] eqn:Hi; [done|..]; intros j m; cbn;
      (destruct (decide (j = i)) as [->|]; [rewrite fn_lookup_insert|rewrite fn_lookup_insert_ne by done; apply Ht]);
      try (by intros [= <-]; apply (Ht i); rewrite Hi); done.
  - by destruct (Queue.con s).
  - intros j m. assert (Queue.pcs (Queue.run_pop stub s) = Queue.pcs s) as ->; [|apply Ht].
    unfold Queue.run_pop, Queue.value_or. destruct (Queue.con s); by repeat case_match.
Qed.

Lemma act_refines s c a :
  qinv stub s c -> preparing_tasks s -> exists l, refines s (Queue.act stub s a) l.
Proof.
  intros Hq Ht. destruct a as [i n|i| |]; cbn [Queue.act].
  - exists []. by destruct (Queue.pcs s i); apply refines_none.
  - by eapply refines_push.
  - exists []. by destruct (Queue.con s); apply refines_none.
  - by eapply refines_pop.
Qed.

Lemma schedule_refines l : forall s c,
  qinv stub s c -> preparing_tasks s -> Queue.allowed stub l s -> Forall pushes_tasks l ->
  exists es, refines s (Queue.schedule stub l s) es.
Proof.
  induction l as [|a l IH]; intros s c Hq Ht Hal Hl; [by exists []; apply refines_none|].
  destruct Hal as [Ha Hal]. apply Forall_cons in Hl as [Hn Hl].
  destruct (act_inv stub s c a Hq Ha) as [c' Hq']. destruct (act_refines s c a Hq Ht) as [es1 H1].
  destruct (IH _ c' Hq' (act_preparing s a Hn Ht) Hal Hl) as [es2 H2].
  exists (es1 ++ es2). by eapply refines_trans.
Qed.

(** [C20] Every interleaving of pushes and pops on the queue of the code amounts to
    a sequence of the atomic pushes and pops that the scheduler is modelled with:
    the pops have the same results in the same order, the tasks are pushed in the
    order in which their pushes swapped the head, and at the end the list of the
    scheduler is what is in the queue. *)
Theorem queue_implements_schedular l (q : Schedular.sched F U) :
  Queue.allowed stub l (Queue.init stub) -> Forall pushes_tasks l -> Schedular.should_poll q = [] ->
  let s := Queue.schedule stub l (Queue.init stub) in
  exists es rs q', run_events es q = Ok (rs, q') /\
    map result_at rs = Queue.results s /\ map addr (pushes es) = Queue.pushed s /\
    map addr (Schedular.should_poll q') = Queue.outstanding s.
Proof.
  intros Hal Hl Hq s.
  destruct (schedule_refines l (Queue.init stub) [stub]) as [es Hes]; [apply init_qinv|done|done|done|].
  destruct (Hes q) as (rs & q' & Hrun & Himp & Hres & Hp).
  { unfold implements. by rewrite Hq. }
  by exists es, rs, q'.
Qed.
End refine.

(** Tasks at the nodes after the stub, and the schedule in which [pop] says [Empty]
    while values are there. *)
Definition task_addr (id : nat) : Z := Z.of_nat id.

Lemma late_push_tasks : Forall (pushes_tasks task_addr) late_push.
Proof.
  repeat constructor; cbn; [exists 1%nat|exists 2%nat]; reflexivity.
Defined.

Lemma queue_implements_schedular_witness :
  exists es rs q', run_events es (Schedular.new (F := unit) tt) = Ok (rs, q') /\
    map (result_at task_addr) rs = [Queue.Empty] /\ map task_addr (pushes es) = [1; 2] /\
    map task_addr (Schedular.should_poll q') = [1; 2].
Proof.
  apply (queue_implements_schedular 0 task_addr late_push (Schedular.new tt)).
  - solve_allowed.
  - exact late_push_tasks.
  - reflexivity.
Defined.

(** The events of that schedule. *)
Example late_push_events :
  run_events [EPush 1; EPush 2; EPop (Some {| Schedular.gap_after := 0; Schedular.gap_inconsistant := false |})]
    (Schedular.new (F := unit) tt)
  = Ok ([Schedular.Empty], Schedular.set_should_poll [1; 2]%nat (Schedular.new tt)).
Proof. reflexivity. Qed.
