(* ===== verification/WakerRefine.v ===== *)
(** * The waker of the scheduler is the atomic waker

    [Schedular] registers and calls the waker of its executor in one step
    ([Schedular.queue_register] and [queue_wake]).  Here [AtomicWaker], with one
    thread that registers and any number that wake, is shown to do the same under
    every interleaving: a registration takes effect when it gets the lock, a
    wake-up when it sets its bit; a registration that finds a wake-up going on is
    followed by one more. *)

From stdpp Require Import functions.
From S2P Require Import Prelude AtomicWaker AtomicWakerThms Schedular.
Import AtomicWaker.

Section refine.
Context {F U : Type}.

(** What happens to the waker of a scheduler. *)
Inductive event := ERegister (w : nat) | EWake.

Definition run_event (e : event) : M (Schedular.sched F U) unit :=
  match e with
  | ERegister w => Schedular.queue_register w
  | EWake => Schedular.queue_wake
  end.
Fixpoint run_events (l : list event) : M (Schedular.sched F U) unit :=
  match l with
  | [] => ret tt
  | e :: l => do! run_event e in run_events l
  end.

(** When a schedule takes effect. *)
Definition effect (s : aw) (a : action) : list event :=
  match a with
  | Run i =>
      match pcs s i with
      | RLock w => if (st s =? WAKING)%Z then [ERegister w; EWake] else [ERegister w]
      | WFetch => [EWake]
      | _ => []
      end
  | _ => []
  end.
Fixpoint effects (l : list action) (s : aw) : list event :=
  match l with
  | [] => []
  | a :: l => effect s a ++ match act a s with Ok (_, s') => effects l s' | _ => [] end
  end.

(** The waker a thread is about to call. *)
Definition carries (s : aw) (p : pc) : option nat :=
  match p with
  | RSwap w | RWake w | RWakeRef w => Some w
  | RUpdate w | RUnlock w | RTake w => if (st s =? 3)%Z then Some w else None
  | WRelease o | WWake o => o
  | WTake => cell s
  | Idle | RLock _ | WFetch => None
  end.

(** The waker that is registered; [r] is the thread that registers. *)
Definition stored (r : nat) (s : aw) : option nat :=
  if (st s =? 0)%Z then cell s
  else if (st s =? 1)%Z then match pcs s r with RUpdate w | RUnlock w => Some w | _ => None end
  else None.

(** [fl] are the wakers the threads are about to call. *)
Record abs (r : nat) (s : aw) (q : Schedular.sched F U) (fl : gmap nat nat) : Prop := {
  a_stored : Schedular.registered q = stored r s;
  a_carries : forall i, fl !! i = carries s (pcs s i);
  a_woken : woken s ++ (map_to_list fl).*2 ≡ₚ Schedular.outer_woken q;
}.

Lemma carried_split (fl : gmap nat nat) i :
  (map_to_list fl).*2 ≡ₚ option_list (fl !! i) ++ (map_to_list (delete i fl)).*2.
Proof.
  destruct (fl !! i) as [w|] eqn:Hi; [|by rewrite delete_id].
  rewrite <- (insert_delete_id fl i w Hi) at 1. by rewrite map_to_list_insert by apply lookup_delete_eq.
Qed.

(** The wakers [l] are called, those of [new] by the scheduler, and only what thread
    [k] is about to call changes. *)
Lemma abs_carry r s s' q q' fl k l new :
  abs r s q fl -> woken s' = woken s ++ l ->
  Schedular.outer_woken q' = Schedular.outer_woken q ++ new ->
  l ++ option_list (carries s' (pcs s' k)) ≡ₚ option_list (carries s (pcs s k)) ++ new ->
  (forall j, j <> k -> carries s' (pcs s' j) = carries s (pcs s j)) ->
  Schedular.registered q' = stored r s' -> exists fl', abs r s' q' fl'.
Proof.
  intros [_ Hc Hw] Hl Hnew Hperm Hj Hst.
  exists (partial_alter (fun _ => carries s' (pcs s' k)) k fl). split; [done|..].
  - intros j. destruct (decide (j = k)) as [->|Hne].
    + by rewrite lookup_partial_alter_eq.
    + by rewrite lookup_partial_alter_ne, Hj.
  - rewrite (carried_split _ k), lookup_partial_alter_eq.
    assert (delete k (partial_alter (fun _ => carries s' (pcs s' k)) k fl) = delete k fl) as ->.
    { apply map_eq. intros j. destruct (decide (j = k)) as [->|]; [by rewrite !lookup_delete_eq|].
      by rewrite !lookup_delete_ne, lookup_partial_alter_ne by done. }
    rewrite (carried_split fl k), Hc in Hw. rewrite Hl, Hnew, <- Hw.
    set (rest := (map_to_list (delete k fl)).*2).
    transitivity (woken s ++ (l ++ option_list (carries s' (pcs s' k))) ++ rest); [by rewrite !app_assoc|].
    rewrite Hperm. solve_Permutation.
Qed.

(** Thread [i] moves to [p]. *)
Lemma abs_step r s s' q q' fl i p l new :
  abs r s q fl -> pcs s' = <[i := p]> (pcs s) -> woken s' = woken s ++ l ->
  Schedular.outer_woken q' = Schedular.outer_woken q ++ new ->
  l ++ option_list (carries s' p) ≡ₚ option_list (carries s (pcs s i)) ++ new ->
  (forall j, j <> i -> carries s' (pcs s j) = carries s (pcs s j)) ->
  Schedular.registered q' = stored r s' -> exists fl', abs r s' q' fl'.
Proof.
  intros Habs Hpcs Hl Hnew Hperm Hj Hst.
  apply (abs_carry r s s' q q' fl i l new); try done; rewrite Hpcs.
  - by rewrite fn_lookup_insert.
  - intros j Hne. rewrite fn_lookup_insert_ne by done. by apply Hj.
Qed.

Lemma carries_same s s' p : cell s' = cell s -> (st s' =? 3)%Z = (st s =? 3)%Z -> carries s' p = carries s p.
Proof. intros Hc Hst. unfold carries. by rewrite Hc, Hst. Qed.

Lemma carries_free s s' p : holds p = false -> carries s' p = carries s p.
Proof. by destruct p. Qed.

Lemma wake_events_app l1 l2 q q1 : run_events l1 q = Ok (tt, q1) -> run_events (l1 ++ l2) q = run_events l2 q1.
Proof.
  revert q. induction l1 as [|e l1 IH]; intros q; cbn [run_events app]; [by intros [= ->]|].
  unfold bind. destruct (run_event e q) as [[[] q']| |]; [apply IH|done..].
Qed.

Lemma run_wake q :
  run_events [EWake] q = Ok (tt, match Schedular.registered q with
    | Some w => Schedular.add_outer_woken w (Schedular.set_registered None q)
    | None => q end).
Proof. destruct q as [? ? ? ? ? ? ? ? []]; reflexivity. Qed.

Section steps.
Context (r : nat) (s s' : aw) (i : nat) (Hinv : sig_inv r s) (Hrun : run i s = Ok (tt, s')).
Context (q : Schedular.sched F U) (fl : gmap nat nat) (Habs : abs r s q fl).

(** What is shown of each step. *)
Abbreviation step_ok := (exists q' fl', run_events (effect s (Run i)) q = Ok (tt, q') /\ abs r s' q' fl').

Lemma registrant : is_register (pcs s i) = true -> i = r.
Proof.
  intros Hp. destruct (decide (i = r)) as [|Hne]; [done|]. pose proof (sig_reg _ _ Hinv i Hne). congruence.
Qed.

Lemma others_free : holds (pcs s i) = true -> forall j, j <> i -> carries s' (pcs s j) = carries s (pcs s j).
Proof.
  intros Hh j Hj. destruct (lock_holder s i (sig_lock _ _ Hinv) Hh) as [_ Hn].
  by apply carries_free, Hn.
Qed.

(** A step the scheduler does not see. *)
Lemma silent p l :
  effect s (Run i) = [] -> pcs s' = <[i := p]> (pcs s) -> woken s' = woken s ++ l ->
  l ++ option_list (carries s' p) = option_list (carries s (pcs s i)) ->
  (forall j, j <> i -> carries s' (pcs s j) = carries s (pcs s j)) -> stored r s' = stored r s -> step_ok.
Proof.
  intros He Hpcs Hl Hc Hj Hst. exists q.
  destruct (abs_step r s s' q q fl i p l []) as [fl' H]; try done.
  - by rewrite app_nil_r.
  - by rewrite Hc, app_nil_r.
  - by rewrite Hst, (a_stored _ _ _ _ Habs).
  - exists fl'. by rewrite He.
Qed.

(** A waker is called. *)
Lemma refine_call o :
  pcs s i = WWake o \/ (exists w, o = Some w /\ (pcs s i = RWake w \/ pcs s i = RWakeRef w)) -> step_ok.
Proof.
  intros Hp. assert (Hs' : s' = set_pc i Idle (match o with Some w => add_woken w s | None => s end)).
  { unfold run, bind, gets in Hrun. destruct Hp as [Hp|(w & -> & [Hp|Hp])]; rewrite Hp in Hrun;
      [destruct o|..]; by injection Hrun as <-. }
  assert (Hcar : carries s (pcs s i) = o) by by destruct Hp as [->|(w & -> & [->| ->])].
  assert (Hno : forall w, pcs s i <> RUpdate w /\ pcs s i <> RUnlock w)
    by (intros w; by destruct Hp as [->|(w0 & _ & [->| ->])]).
  apply (silent Idle (option_list o)); subst s'.
  - unfold effect. by destruct Hp as [->|(w & _ & [->| ->])].
  - by destruct o.
  - destruct o; cbn; [done|by rewrite app_nil_r].
  - rewrite Hcar. cbn. by rewrite app_nil_r.
  - intros j _. apply carries_same; by destruct o.
  - unfold stored. destruct o; cbn; (destruct (st s =? 0)%Z; [done|destruct (st s =? 1)%Z; [|done]]).
    all: destruct (decide (r = i)) as [->|]; [rewrite fn_lookup_insert|by rewrite fn_lookup_insert_ne].
    all: by destruct Hp as [->|(w0 & _ & [->| ->])].
Qed.

Lemma refine_rlock w : pcs s i = RLock w -> step_ok.
Proof.
  intros Hp. assert (i = r) as -> by (apply registrant; by rewrite Hp).
  assert (Hst : st s = 0 \/ st s = 2).
  { destruct (sig_lock _ _ Hinv) as [[? _]|(h & Hh & Hok & _)]; [by left|right].
    assert (h <> r) as Hne%(sig_reg _ _ Hinv) by (intros ->; by rewrite Hp in Hh).
    destruct (pcs s h); by cbn in *; intuition. }
  unfold run, bind, gets in Hrun. rewrite Hp in Hrun. unfold modify, compare_exchange, bind, gets in Hrun.
  cbn [st note_register] in Hrun. unfold effect. rewrite Hp.
  destruct Hst as [Hst|Hst]; rewrite Hst in Hrun |- *; cbn in Hrun; injection Hrun as Hs'.
  - exists (Schedular.set_registered (Some w) q).
    destruct (abs_step r s s' q (Schedular.set_registered (Some w) q) fl r (RUpdate w) [] [] Habs) as [fl' H];
      rewrite <- ?Hs'; [done|by rewrite app_nil_r|by rewrite app_nil_r|by rewrite Hp| | |by exists fl'; rewrite Hs'].
    + intros j _. apply carries_same; [done|]. cbn. by rewrite Hst.
    + unfold stored. cbn. by rewrite fn_lookup_insert.
  - set (q' := Schedular.add_outer_woken w (Schedular.set_registered None (Schedular.set_registered (Some w) q))).
    exists q'. destruct (abs_step r s s' q q' fl r (RWakeRef w) [] [w] Habs) as [fl' H];
      rewrite <- ?Hs'; [done|by rewrite app_nil_r|done|by rewrite Hp| | |by exists fl'; rewrite Hs'].
    + intros j _. by apply carries_same.
    + unfold stored. cbn. by rewrite Hst.
Qed.

(** The steps of the holder of the lock. *)
Lemma refine_update w : pcs s i = RUpdate w -> step_ok.
Proof.
  intros Hp. assert (Hir : i = r) by (apply registrant; by rewrite Hp).
  assert (Hh : holds (pcs s i) = true) by by rewrite Hp.
  destruct (lock_holder s i (sig_lock _ _ Hinv) Hh) as [Hok _]. rewrite Hp in Hok. cbn in Hok.
  assert (Hs' : exists c, s' = set_pc i (RUnlock w) (set_cell c s)).
  { unfold run, bind, gets, goto, modify, ret in Hrun. rewrite Hp in Hrun.
    case_bool_decide; injection Hrun as <-; [exists (cell s)|eexists; done]. by destruct s. }
  destruct Hs' as [c Hs']. apply (silent (RUnlock w) []); rewrite ?Hs'; cbn.
  - by rewrite Hp.
  - done.
  - by rewrite app_nil_r.
  - by rewrite Hp.
  - intros j Hj. rewrite <- Hs'. by apply others_free.
  - unfold stored. cbn. rewrite <- Hir, fn_lookup_insert, Hp. by destruct Hok as [->| ->].
Qed.

Lemma refine_unlock w : pcs s i = RUnlock w -> step_ok.
Proof.
  intros Hp. assert (Hir : i = r) by (apply registrant; by rewrite Hp).
  assert (Hh : holds (pcs s i) = true) by by rewrite Hp.
  destruct (lock_holder s i (sig_lock _ _ Hinv) Hh) as [Hok _]. rewrite Hp in Hok. destruct Hok as [Hst Hc].
  pose proof (others_free Hh) as Ho.
  unfold run, bind, gets, compare_exchange, bind, gets, modify, ret, assert, goto in Hrun. rewrite Hp in Hrun.
  destruct Hst as [E|E]; rewrite E in Hrun; cbn in Hrun; injection Hrun as Hs'.
  - apply (silent Idle []); rewrite <- ?Hs'; cbn; try done.
    + by rewrite Hp.
    + by rewrite app_nil_r.
    + rewrite Hp. cbn. by rewrite E.
    + by rewrite Hs'.
    + unfold stored. cbn. by rewrite E, <- Hir, Hp, Hc.
  - apply (silent (RTake w) []); rewrite <- ?Hs'; cbn; try done.
    + by rewrite Hp.
    + by rewrite app_nil_r.
    + by rewrite Hp.
    + unfold stored. cbn. by rewrite E.
Qed.

Lemma refine_take w : pcs s i = RTake w -> step_ok.
Proof.
  intros Hp. assert (Hh : holds (pcs s i) = true) by by rewrite Hp.
  destruct (lock_holder s i (sig_lock _ _ Hinv) Hh) as [Hok _]. rewrite Hp in Hok. destruct Hok as [E Hc].
  pose proof (others_free Hh) as Ho.
  unfold run, bind, gets in Hrun. rewrite Hp in Hrun.
  unfold take_cell, bind, gets, modify, ret, unwrap, expect, goto in Hrun. rewrite Hc in Hrun. injection Hrun as Hs'.
  apply (silent (RSwap w) []); rewrite <- ?Hs'; cbn; try done.
  - by rewrite Hp.
  - by rewrite app_nil_r.
  - rewrite Hp. cbn. by rewrite E.
  - by rewrite Hs'.
  - unfold stored. cbn. by rewrite E.
Qed.

Lemma refine_swap w : pcs s i = RSwap w -> step_ok.
Proof.
  intros Hp. assert (Hh : holds (pcs s i) = true) by by rewrite Hp.
  destruct (lock_holder s i (sig_lock _ _ Hinv) Hh) as [Hok _]. rewrite Hp in Hok. destruct Hok as [E Hc].
  pose proof (others_free Hh) as Ho.
  unfold run, bind, gets in Hrun. rewrite Hp in Hrun. injection Hrun as Hs'.
  apply (silent (RWake w) []); rewrite <- ?Hs'; cbn; try done.
  - by rewrite Hp.
  - by rewrite app_nil_r.
  - by rewrite Hp.
  - by rewrite Hs'.
  - unfold stored. cbn. by rewrite E, Hc.
Qed.

Lemma refine_wtake : pcs s i = WTake -> step_ok.
Proof.
  intros Hp. assert (Hh : holds (pcs s i) = true) by by rewrite Hp.
  destruct (lock_holder s i (sig_lock _ _ Hinv) Hh) as [Hok _]. rewrite Hp in Hok. cbn in Hok.
  pose proof (others_free Hh) as Ho.
  unfold run, bind, gets in Hrun. rewrite Hp in Hrun. injection Hrun as Hs'.
  apply (silent (WRelease (cell s)) []); rewrite <- ?Hs'; cbn; try done.
  - by rewrite Hp.
  - by rewrite app_nil_r.
  - by rewrite Hp.
  - by rewrite Hs'.
  - unfold stored. cbn. by rewrite Hok.
Qed.

Lemma refine_release o : pcs s i = WRelease o -> step_ok.
Proof.
  intros Hp. assert (Hh : holds (pcs s i) = true) by by rewrite Hp.
  destruct (lock_holder s i (sig_lock _ _ Hinv) Hh) as [Hok _]. rewrite Hp in Hok. destruct Hok as [E Hc].
  pose proof (others_free Hh) as Ho.
  unfold run, bind, gets in Hrun. rewrite Hp in Hrun. injection Hrun as Hs'.
  apply (silent (WWake o) []); rewrite <- ?Hs'; cbn; try done.
  - by rewrite Hp.
  - by rewrite app_nil_r.
  - by rewrite Hp.
  - by rewrite Hs'.
  - unfold stored. cbn. by rewrite E, Hc.
Qed.

Lemma refine_fetch : pcs s i = WFetch -> step_ok.
Proof.
  intros Hp. assert (Hs' : s' = set_pc i (if (st s =? 0)%Z then WTake else Idle)
      (set_st (Z.lor (st s) WAKING) (note_wake s))).
  { unfold run, bind, gets in Hrun. rewrite Hp in Hrun.
    unfold modify, fetch_or, bind, gets, modify, ret in Hrun. cbn [st note_wake] in Hrun.
    change WAITING with 0 in Hrun. destruct (st s =? 0)%Z; unfold assert, goto, modify, ret, panic in Hrun.
    - by simplify_eq/=.
    - destruct ((_ || _) || _)%bool; by simplify_eq/=. }
  set (q' := match Schedular.registered q with
    | Some w => Schedular.add_outer_woken w (Schedular.set_registered None q) | None => q end).
  assert (Hq' : Schedular.outer_woken q' = Schedular.outer_woken q ++ option_list (stored r s) /\
    Schedular.registered q' = None).
  { unfold q'. rewrite <- (a_stored _ _ _ _ Habs).
    destruct (Schedular.registered q) eqn:Hr; [done|]. by rewrite app_nil_r. }
  destruct Hq' as [Hout Hreg]. exists q'. unfold effect. rewrite Hp, run_wake. fold q'.
  assert (Hgo : exists fl', abs r s' q' fl'); [|destruct Hgo as [fl' H]; by exists fl'].
  assert (Hcases : st s = 0 \/ (st s = 1 /\ exists w, pcs s r = RUpdate w \/ pcs s r = RUnlock w) \/ st s = 2 \/ st s = 3).
  { destruct (sig_lock _ _ Hinv) as [[? _]|(h & Hh & Hok & _)]; [by left|right].
    destruct (holder_state _ _ Hok Hh) as [H1|H1]; [left|by right].
    assert (h = r) as ->.
    { destruct (decide (h = r)) as [|Hne%(sig_reg _ _ Hinv)]; [done|].
      destruct (pcs s h); cbn in *; try done; try lia; destruct Hok; lia. }
    split; [done|]. destruct (pcs s r); cbn in *; eauto; try done; try lia; destruct Hok; lia. }
  destruct Hcases as [H0|[[H1 [w Hw]]|H23]].
  - apply (abs_step r s s' q q' fl i WTake [] (option_list (cell s)) Habs); rewrite ?Hs'; cbn.
    + by rewrite H0.
    + by rewrite app_nil_r.
    + rewrite Hout. unfold stored. by rewrite H0.
    + by rewrite Hp.
    + intros j _. apply carries_same; [done|]. cbn. by rewrite H0.
    + unfold stored. cbn. by rewrite H0.
  - assert (Hir : i <> r) by (intros Hir; rewrite Hir in Hp; by destruct Hw as [Hw|Hw]; rewrite Hw in Hp).
    assert (Hstored : stored r s = Some w) by (unfold stored; rewrite H1; by destruct Hw as [->| ->]).
    assert (Hw' : pcs s' r = pcs s r) by (rewrite Hs'; cbn; by rewrite fn_lookup_insert_ne).
    apply (abs_carry r s s' q q' fl r [] [w] Habs).
    + rewrite Hs'. cbn. by rewrite app_nil_r.
    + by rewrite Hout, Hstored.
    + rewrite Hw', Hs'. destruct Hw as [->| ->]; cbn; by rewrite H1.
    + intros j Hj. rewrite Hs'. cbn [pcs set_pc set_st note_wake]. destruct (decide (j = i)) as [->|Hne].
      * rewrite fn_lookup_insert, Hp, H1. done.
      * rewrite fn_lookup_insert_ne by done. apply carries_free.
        destruct (sig_lock _ _ Hinv) as [[? _]|(h & Hh & Hok & Hn)]; [lia|]. apply Hn. intros ->.
        assert (holds (pcs s r) = true) as Hr by by destruct Hw as [->| ->]. by rewrite Hn in Hr.
    + unfold stored. rewrite Hs'. cbn. by rewrite H1.
  - assert (Hstored : stored r s = None) by (unfold stored; by destruct H23 as [->| ->]).
    apply (abs_step r s s' q q' fl i Idle [] [] Habs); rewrite ?Hs'; cbn.
    + by destruct H23 as [->| ->].
    + by rewrite app_nil_r.
    + by rewrite Hout, Hstored.
    + by rewrite Hp.
    + intros j _. apply carries_same; [done|]. cbn. by destruct H23 as [->| ->].
    + unfold stored. cbn. by destruct H23 as [->| ->].
Qed.

Lemma refine_run : step_ok.
Proof.
  destruct (pcs s i) as [|w|w|w|w|w|w|w| | |o|o] eqn:Hp.
  - unfold run, bind, gets in Hrun. rewrite Hp in Hrun. injection Hrun as <-. exists q, fl. unfold effect. by rewrite Hp.
  - by apply (refine_rlock w).
  - by apply (refine_update w).
  - by apply (refine_unlock w).
  - by apply (refine_take w).
  - by apply (refine_swap w).
  - apply (refine_call (Some w)). right. exists w. auto.
  - apply (refine_call (Some w)). right. exists w. auto.
  - by apply refine_fetch.
  - by apply refine_wtake.
  - by apply (refine_release o).
  - apply (refine_call o). by left.
Qed.
End steps.

(** ** Runs *)
Lemma refine_call_start r s s' i p q fl :
  abs r s q fl -> call i p s = Ok (tt, s') -> carries s p = None ->
  (forall w, p <> RUpdate w /\ p <> RUnlock w) -> exists fl', abs r s' q fl'.
Proof.
  intros Habs Hc Hp Hno. unfold call, bind, gets in Hc. case_bool_decide as Hidle; [|injection Hc as <-; by exists fl].
  injection Hc as Hs'. apply (abs_step r s s' q q fl i p [] [] Habs); rewrite <- ?Hs'; cbn.
  - done.
  - by rewrite app_nil_r.
  - by rewrite app_nil_r.
  - rewrite (carries_same s) by done. by rewrite Hp, Hidle.
  - intros j _. by apply carries_same.
  - rewrite (a_stored _ _ _ _ Habs). unfold stored. cbn. destruct (st s =? 0)%Z; [done|].
    destruct (st s =? 1)%Z; [|done]. destruct (decide (r = i)) as [->|]; [|by rewrite fn_lookup_insert_ne].
    rewrite fn_lookup_insert, Hidle. destruct p as [|w|w|w|w|w|w|w| | |o|o]; try done; destruct (Hno w); done.
Qed.

Lemma waker_schedule_refines r l : forall s q fl,
  sig_inv r s -> Forall (registers_only r) l -> abs r s q fl ->
  exists s' q' fl', schedule l s = Ok (tt, s') /\ run_events (effects l s) q = Ok (tt, q') /\ abs r s' q' fl'.
Proof.
  induction l as [|a l IH]; intros s q fl Hi Hl Habs; cbn [schedule effects]; [by exists s, q, fl|].
  apply Forall_cons_1 in Hl as [Ha Hl]. destruct (act_sig r s a Hi Ha) as (s1 & Hact & Hi1).
  assert (Hstep : exists q1 fl1, run_events (effect s a) q = Ok (tt, q1) /\ abs r s1 q1 fl1).
  { destruct a as [i w|i|i]; cbn [act effect] in *.
    - destruct (refine_call_start r s s1 i (RLock w) q fl) as [fl1 H]; [done..|]. by exists q, fl1.
    - destruct (refine_call_start r s s1 i WFetch q fl) as [fl1 H]; [done..|]. by exists q, fl1.
    - by eapply (refine_run r s s1 i). }
  destruct Hstep as (q1 & fl1 & Hq1 & Habs1).
  destruct (IH s1 q1 fl1 Hi1 Hl Habs1) as (s2 & q2 & fl2 & Hs2 & Hq2 & Habs2).
  exists s2, q2, fl2. unfold bind. rewrite Hact. split; [done|]. split; [|done].
  by erewrite wake_events_app.
Qed.

(** [C21] Every interleaving of one thread that registers with any number that wake
    amounts to a sequence of the atomic operations the scheduler is modelled with,
    one for each operation at the moment it takes effect, with an additional
    wake-up after a registration that finds one going on.  No waker is called more
    often than the scheduler calls it; and once all operations have returned,
    exactly the same wakers have been called, and the same one is registered. *)
Theorem waker_implements_schedular r l (q : Schedular.sched F U) :
  Forall (registers_only r) l -> Schedular.registered q = None -> Schedular.outer_woken q = [] ->
  exists s q', schedule l new = Ok (tt, s) /\ run_events (effects l new) q = Ok (tt, q') /\
    woken s ⊆+ Schedular.outer_woken q' /\
    ((forall i, pcs s i = Idle) ->
     Schedular.registered q' = cell s /\ woken s ≡ₚ Schedular.outer_woken q').
Proof.
  intros Hl Hreg Hout. assert (Habs : abs r new q ∅).
  { split; [done|done|]. by rewrite Hout, map_to_list_empty. }
  destruct (waker_schedule_refines r l new q ∅ (sig_inv_new r) Hl Habs) as (s & q' & fl & Hs & Hq & [Hst Hc Hw]).
  exists s, q'. split; [done|]. split; [done|]. split.
  - rewrite <- Hw. by apply submseteq_inserts_r.
  - intros Hidle. assert (fl = ∅) as ->.
    { apply map_empty. intros i. by rewrite Hc, Hidle. }
    rewrite map_to_list_empty, app_nil_r in Hw. split; [|done]. rewrite Hst. unfold stored.
    destruct (schedule_sig r l new (sig_inv_new r) Hl) as (s2 & Hs2 & Hi2).
    rewrite Hs in Hs2. injection Hs2 as <-.
    destruct (sig_lock _ _ Hi2) as [[-> _]|(h & Hh & _)]; [done|]. by rewrite Hidle in Hh.
Qed.
End refine.

(** A wake-up that overtakes a registration, and another that is late. *)
Definition contended : list action :=
  [Register 0 7; Run 0; Wake 1; Run 1; Run 0; Run 0; Run 0; Run 0; Run 0; Run 0; Wake 2; Run 2; Register 0 8; Run 0; Run 0;
   Run 2; Run 2; Run 2].

Lemma waker_implements_schedular_witness :
  effects contended new = [ERegister 7; EWake; EWake; ERegister 8; EWake] /\
  exists s q', schedule contended new = Ok (tt, s) /\
    run_events (effects contended new) (Schedular.new (F := unit) tt) = Ok (tt, q') /\
    woken s ⊆+ Schedular.outer_woken q' /\
    ((forall i, pcs s i = Idle) ->
     Schedular.registered q' = cell s /\ woken s ≡ₚ Schedular.outer_woken q').
Proof.
  split; [vm_compute; reflexivity|].
  apply (waker_implements_schedular 0); [repeat constructor|reflexivity|reflexivity].
Defined.

Example contended_run :
  match schedule contended new, run_events (effects contended new) (Schedular.new (F := unit) tt) with
  | Ok (_, s), Ok (_, q) => woken s = [7; 8]%nat /\ Schedular.outer_woken q = [7; 8]%nat
  | _, _ => False
  end.
Proof. vm_compute. done. Qed.
