(* ===== verification/SchedularUnwind.v ===== *)
(** * Panics of futures that unwind through the scheduler (src/tree/schedular/mod.rs)

    In [Schedular] the panic of a future ends a run.  Here it unwinds: the future
    drops what it owns, the guard [remove] of [poll] takes the task out of the
    list, its waker is dropped, and the panic leaves [poll].  The caller may catch
    it and go on with the scheduler. *)

From S2P Require Import Prelude Exc Defer Schedular.
Import Schedular.

Section unwind.
Context {F U : Type}.

(** The panic of a poll as its result. *)
Fixpoint acatch {R} (a : act F U R) : act F U (exc R) :=
  match a with
  | ARet r => ARet (Returns r)
  | APanic m => ARet (Unwinds false m)
  | AStuck => AStuck
  | AWakeSelf k => AWakeSelf (acatch k)
  | AClone own k => AClone own (fun i => acatch (k i))
  | ASpawn f l k => ASpawn f l (fun n => acatch (k n))
  | ADrop x k => ADrop x (acatch k)
  | AWake i k => AWake i (acatch k)
  | AOwned k => AOwned (fun l => acatch (k l))
  | AGet k => AGet (fun u => acatch (k u))
  | AUpd g k => AUpd g (acatch k)
  end.

(** Code with a [Defer]: [g] is done when [a] returns and when it panics. *)
Definition aresult {R} (r : exc R) : act F U R :=
  match r with Returns r => ARet r | Unwinds _ m => APanic m end.
Definition afinally {R} (g : U -> U) (a : act F U R) : act F U R :=
  abind (acatch a) (fun r => AUpd g (aresult r)).

Context `{!Future F U}.

(** What the frames of a future own is dropped when a panic leaves them, as when
    they return; nothing polls the future after that. *)
Definition exec_task_u (id : nat) (a : act F U (option F)) : M (sched F U) (exc (poll unit)) :=
  let! r := run_act (AsTask id) (acatch a) in
  match r with
  | Returns r => let! p := finish_poll id r in ret (Returns p)
  | Unwinds b m => let! _ := finish_poll id None in ret (Unwinds b m)
  end.

Definition drive_fut_u (id : nat) : M (sched F U) (exc (poll unit)) :=
  let! t := get_task id in
  let! f := deref (future t) in
  do! put_task id (with_future None (owned t) t) in
  exec_task_u id (fpoll f).

Fixpoint poll_loop_u (fuel : nat) (w : nat) (iteration yielded : Z)
  : M (sched F U) (exc (option (poll unit))) :=
  match fuel with
  | O => ret (Returns None)
  | S fuel =>
      let! p := q_pop in
      match p with
      | Empty => let! e := is_empty in ret (Returns (Some (if e : bool then Ready tt else Pending)))
      | Inconsistant => do! wake_outer w in ret (Returns (Some Pending))
      | Value cur =>
          let! t := get_task cur in
          match done t with
          | Cancelled => do! pop_task_all cur in poll_loop_u fuel w iteration yielded
          | Done => do! decr_task cur in poll_loop_u fuel w iteration yielded
          | Running =>
              do! upd_task cur (with_queued false) in
              let? _ := catch false (assert (queued t) "assertion failed: prev") in
              let remove := Defer.new tt (fun _ => pop_task_all cur) in
              let iteration := iteration + 1 in
              let! r := drive_fut_u cur in
              match r with
              | Unwinds b m =>
                  do! Defer.drop remove in
                  do! schedular_drop cur in
                  ret (Unwinds b m)
              | Returns (Ready _) =>
                  do! Defer.drop remove in
                  do! schedular_drop cur in
                  poll_loop_u fuel w iteration yielded
              | Returns Pending =>
                  let! _ := Defer.take remove in
                  let! t := get_task cur in
                  let yielded := yielded + (if queued t then 1 else 0) in
                  let! n := gets len in
                  if ((2 <? yielded) || (n <? iteration))%Z then
                    do! wake_outer w in
                    do! schedular_drop cur in
                    ret (Returns (Some Pending))
                  else
                    do! schedular_drop cur in
                    poll_loop_u fuel w iteration yielded
              end
          end
      end
  end.

Definition poll_sched_u (fuel : nat) (w : nat) : M (sched F U) (exc (option (poll unit))) :=
  let! e := is_empty in
  if (e : bool) then ret (Returns (Some (Ready tt)))
  else do! queue_register w in poll_loop_u fuel w 0 0.

(** Operations on a scheduler whose owner catches the panics of [poll]. *)
Definition run_op_u (o : op F) : M (sched F U) unit :=
  match o with
  | OPoll fuel w => if_alive (let! _ := poll_sched_u fuel w in ret tt)
  | _ => run_op o
  end.

Fixpoint run_ops_u (l : list (op F)) : M (sched F U) unit :=
  match l with
  | [] => ret tt
  | o :: l => do! run_op_u o in run_ops_u l
  end.

(** An owner that polls again after a panic, [n] times at most; the messages it
    caught, and the result. *)
Fixpoint poll_again (n fuel w : nat) : M (sched F U) (list string * option (poll unit)) :=
  match n with
  | O => ret ([], None)
  | S n =>
      let! r := poll_sched_u fuel w in
      match r with
      | Returns p => ret ([], p)
      | Unwinds _ m => let! (ms, p) := poll_again n fuel w in ret (m :: ms, p)
      end
  end.

(** ** The same as [Schedular] up to the end of a run *)
Lemma acatch_agrees {R} o (a : act F U R) : follows (run_act o a) (run_act o (acatch a)).
Proof.
  induction a as [r|m| |k IH|own k IH|f l k IH|x k IH|i k IH|k IH|k IH|g k IH]; cbn [run_act acatch].
  - by apply agrees_ret.
  - apply agrees_panic. by exists false.
  - apply agrees_ub.
  - apply agrees_same. intros _. exact IH.
  - apply agrees_same. intros i. apply agrees_same. intros _. apply IH.
  - apply agrees_same. intros n. apply agrees_same. intros _. apply IH.
  - apply agrees_same. intros _. exact IH.
  - apply agrees_same. intros _. exact IH.
  - destruct o; [|apply IH]. apply agrees_same. intros t. apply IH.
  - apply agrees_same. intros u. apply IH.
  - apply agrees_same. intros _. exact IH.
Qed.

Lemma follows_returns {S X} (c : M S X) : follows c (let! x := c in ret (Returns x)).
Proof. intros s. unfold bind. destruct (c s) as [[x s']| |]; constructor. Qed.

Lemma exec_task_follows id a : follows (exec id a) (exec_task_u id a).
Proof.
  apply (agrees_bind Returns unwound); [apply acatch_agrees|intros r; apply follows_returns|].
  intros m y [p ->]. apply leaves_do. intros _. apply leaves_ret. by exists p.
Qed.

Lemma drive_fut_follows id : follows (drive_task id) (drive_fut_u id).
Proof.
  do 2 (apply agrees_same; intros ?). apply agrees_same. intros _. apply exec_task_follows.
Qed.

Lemma poll_loop_follows fuel w it y : follows (poll_loop fuel w it y) (poll_loop_u fuel w it y).
Proof.
  revert it y. induction fuel as [|fuel IH]; intros it y; [by apply agrees_ret|].
  apply agrees_same. intros [|cur|].
  - apply agrees_same. intros e. by apply agrees_ret.
  - apply agrees_same. intros t. destruct (done t); [|apply agrees_same; intros _; apply IH..].
    apply agrees_same. intros _. apply follows_and_then; [apply follows_catch|]. intros _.
    apply (agrees_bind Returns unwound); [apply drive_fut_follows|..].
    + intros [u|]; [do 2 (apply agrees_same; intros ?); apply IH|].
      do 3 (apply agrees_same; intros ?). destruct (_ || _).
      * do 2 (apply agrees_same; intros ?). by apply agrees_ret.
      * apply agrees_same. intros _. apply IH.
    + intros m y' [p ->]. do 2 (apply leaves_do; intros ?). apply leaves_ret. by exists p.
  - apply agrees_same. intros _. by apply agrees_ret.
Qed.

Lemma poll_sched_follows fuel w : follows (poll_sched fuel w) (poll_sched_u fuel w).
Proof.
  apply agrees_same. intros []; [by apply agrees_ret|]. apply agrees_same. intros _. apply poll_loop_follows.
Qed.
End unwind.
