(* ===== verification/SchedularUnwindSafe.v ===== *)
(** * A scheduler whose futures panic keeps its invariant

    What is asked of futures that may panic, and what a poll then leaves. *)

From S2P Require Import Prelude Exc Defer Schedular SchedularInv SchedularSafe SchedularPoll SchedularUnwind.
Import Schedular.

Section spec.
Context {F U : Type} {FU : Future F U} {FS : FutureSpec F U}.

(** What the scheduler sees of a poll: after a panic the future is over. *)
Definition over (r : exc (option F)) : option F := match r with Returns r => r | Unwinds _ _ => None end.
Definition ended (r : exc (poll unit)) : poll unit := match r with Returns p => p | Unwinds _ _ => Ready tt end.

(** ** Polls that may panic

    As [act_ok]; a panic satisfies [ppost]. *)
Definition act_safe {R} (ppost : nat -> U -> string -> Prop) (post : nat -> U -> R -> Prop) n u
    (a : act F U R) : Prop :=
  act_ok (fun n u r => match r with Returns r => post n u r | Unwinds _ m => ppost n u m end) n u (acatch a).

(** As [FutureOk], for futures that may panic with the messages [fpanics]: at a
    panic, too, others can be polled. *)
Class FutureOkU : Prop := {
  #[global] futureu_laws :: FutureLaws F U;
  fpollu_ok u f : uok u -> uin u -> fok u f ->
    act_safe (fun n u m => poll_ok n u None /\ fpanics m) poll_ok (fsize u f) u (fpoll f);
}.

(** Induction on the code of a poll, and the cases where the claim goes on to the
    rest of the code. *)
Ltac act_cases a IH :=
  induction a as [?r|?m| |?k IH|?own ?k IH|?f ?l ?k IH|?x ?k IH|?i ?k IH|?k IH|?k IH|?g ?k IH].
Ltac act_rest :=
  try done; try (by auto);
  try (intros (? & -> & ?); eexists; by auto);
  try (intros (? & ? & -> & ?); split; [done|]; eexists; by auto);
  try (intros (? & ? & ?); by auto).

Lemma act_safe_mono {R} (ppost ppost' : nat -> U -> string -> Prop) (post post' : nat -> U -> R -> Prop) n u a :
  (forall n u m, ppost n u m -> ppost' n u m) -> (forall n u r, post n u r -> post' n u r) ->
  act_safe ppost post n u a -> act_safe ppost' post' n u a.
Proof. intros Hp Hr. apply act_ok_mono. intros n' u' [r|b m]; auto. Qed.

Lemma act_safe_le {R} ppost (post : nat -> U -> R -> Prop) n u a :
  act_safe ppost post n u a ->
  act_safe (fun n' u m => (n' <= n)%nat /\ ppost n' u m) (fun n' u r => (n' <= n)%nat /\ post n' u r) n u a.
Proof.
  intros H. eapply act_ok_mono; [|exact (act_ok_le _ _ _ _ H)]. by intros n' u' [r|b m] Hr.
Qed.

Lemma act_safe_bind {R S} ppost (post : nat -> U -> S -> Prop) n u (a : act F U R) h :
  act_safe ppost (fun n u r => act_safe ppost post n u (h r)) n u a -> act_safe ppost post n u (abind a h).
Proof.
  unfold act_safe. revert n u. act_cases a IH; intros n u; cbn [act_ok acatch abind]; act_rest.
Qed.

(** The pieces of the code. *)
Section rules.
Context {R : Type} (ppost : nat -> U -> string -> Prop) (post : nat -> U -> R -> Prop).
Abbreviation safe := (act_safe ppost post).

Lemma safe_ret n u r : post n u r -> safe n u (ARet r).
Proof. done. Qed.
Lemma safe_panic n u m : ppost n u m -> safe n u (APanic m).
Proof. done. Qed.
Lemma safe_wake_self n u k : safe n u k -> safe (S n) u (AWakeSelf k).
Proof. by exists n. Qed.
Lemma safe_wake n u i k : safe n u k -> safe (S n) u (AWake i k).
Proof. by exists n. Qed.
Lemma safe_clone n u b k : (forall i, safe n u (k i)) -> safe n u (AClone b k).
Proof. done. Qed.
Lemma safe_spawn n u f l k :
  fok u f -> (forall i, safe n u (k i)) -> safe (S (fsize u f + n)) u (ASpawn f l k).
Proof. intros Hf Hk. split; [done|]. by exists n. Qed.
Lemma safe_drop n u x k : safe n u k -> safe n u (ADrop x k).
Proof. done. Qed.
Lemma safe_get n u k : safe n u (k u) -> safe n u (AGet k).
Proof. done. Qed.
Lemma safe_upd n u g k : ule u (g u) -> uok (g u) -> safe n (g u) k -> safe n u (AUpd g k).
Proof. by intros. Qed.
End rules.

(** A panic that is caught. *)
Lemma act_safe_catch {R S} ppost (post : nat -> U -> S -> Prop) n u (a : act F U R) h :
  act_safe (fun n u m => act_safe ppost post n u (h (Unwinds false m)))
    (fun n u r => act_safe ppost post n u (h (Returns r))) n u a ->
  act_safe ppost post n u (abind (acatch a) h).
Proof.
  unfold act_safe. revert n u. act_cases a IH; intros n u; cbn [act_ok acatch abind]; act_rest.
Qed.

(** What the [Defer] changes is seen after the return and after a panic. *)
Lemma act_safe_finally {R} ppost (post : nat -> U -> R -> Prop) n u (a : act F U R) g :
  act_safe (fun n u m => ule u (g u) /\ uok (g u) /\ ppost n (g u) m)
    (fun n u r => ule u (g u) /\ uok (g u) /\ post n (g u) r) n u a ->
  act_safe ppost post n u (afinally g a).
Proof. intros H. apply act_safe_catch. by eapply act_safe_mono; [..|exact H]. Qed.

(** Polls that never panic. *)
Lemma act_ok_safe {R} ppost (post : nat -> U -> R -> Prop) n u (a : act F U R) :
  act_ok post n u a -> act_safe ppost post n u a.
Proof.
  unfold act_safe. revert n u. act_cases a IH; intros n u; cbn [act_ok acatch]; act_rest.
Qed.

Lemma act_safe_ok {R} (ppost : nat -> U -> string -> Prop) (post : nat -> U -> R -> Prop) n u (a : act F U R) :
  (forall n u m, ~ ppost n u m) -> act_safe ppost post n u a -> act_ok post n u a.
Proof.
  intros Hp. unfold act_safe. revert n u. act_cases a IH; intros n u; cbn [act_ok acatch]; act_rest. by intros ?%Hp.
Qed.

(** Futures that never panic are among them, and are those with no message to
    panic with. *)
#[export] Instance future_ok_u {FO : FutureOk F U} : FutureOkU.
Proof. split; [apply future_laws|]. intros u f H1 H2 H3. by apply act_ok_safe, fpoll_ok. Qed.

Lemma no_panics_ok : FutureOkU -> (forall m, ~ fpanics m) -> FutureOk F U.
Proof.
  intros HU Hm. split; [apply futureu_laws|]. intros u f H1 H2 H3.
  eapply act_safe_ok; [|by apply fpollu_ok]. intros n v m [_ H]. by apply (Hm m).
Qed.
End spec.
Arguments FutureOkU F U {_ _}.

Section safe.
Context {F U : Type} {FU : Future F U} {FS : FutureSpec F U} {FO : FutureOkU F U}.
Implicit Types (s : sched F U) (L held : list nat) (t : task F).

Lemma out_dropped s L d held id :
  sinv s L d held -> (id < next_id s)%nat -> id ∉ L -> id ∈ dropped s.
Proof.
  intros [Hc _ [_ Hd] _] Hid HL. apply Hd. split; [done|]. intros t Ht Hr.
  destruct (c_status _ _ _ _ Hc _ _ Ht) as (_ & _ & _ & H). rewrite Hr in H. by destruct H.
Qed.

Lemma list_fresh gone s L d held id : sinv_ gone s L d held -> id ∈ L -> (id < next_id s)%nat.
Proof.
  intros [Hc _ _ _] HL. destruct (core_get _ _ _ _ id Hc) as [t Ht]; [by apply refs_list|].
  apply (c_fresh _ _ _ _ Hc). by eexists.
Qed.

(** The message of a panic is one of those futures panic with. *)
Definition foreseen {R} (r : exc R) : Prop := match r with Returns _ => True | Unwinds _ m => fpanics m end.

(** The state after a poll of the future of [id]. *)
Definition driven id held s (r : exc (poll unit)) s' : Prop :=
  exists L', sinv_ (returned (ended r) id) s' L' at_rest held /\ id ∈ L' /\ grows s s' /\ uin (user s') /\
    (pot s' <= pot s)%nat /\ foreseen r.

Lemma wp_drive_fut_u s L held id :
  sinv s L at_rest held -> queue_alive s = true -> uin (user s) ->
  (exists t, tasks s !! id = Some t /\ done t = Running) ->
  wp (drive_fut_u id) s (driven id held s).
Proof.
  intros Hinv Hal Hin Ht. eapply wp_take_future; [done..|]. intros f s1 Hinv1 HL Hfr Hfok Hpot.
  apply wpe_bind.
  eapply (wp_run_act _ (AsTask id) _ (fun n u r => match r with Returns r => poll_ok n u r | Unwinds _ m => poll_ok n u None /\ fpanics m end) (fsize (user s) f) s1 L held);
    [done|done|by rewrite (lt_alive _ _ Hfr)| |].
  { rewrite (lt_user _ _ Hfr). apply fpollu_ok; [apply (s_users _ _ _ _ Hinv)|done..]. }
  intros r L2 s2 m Hinv2 HL2 Hgr2 Hr Hpot2.
  assert (Hfin : forall (k : poll unit -> exc (poll unit)),
    (forall p, ended (k p) = p \/ ended (k p) = Ready tt) ->
    (forall p, foreseen (k p)) -> poll_ok m (user s2) (over r) ->
    wp (let! p := finish_poll id (over r) in ret (k p)) s2 (driven id held s)).
  { intros k Hk Hfs Hover. apply wpe_bind. eapply wp_finish_poll; [done..|].
    intros p L' s' Hinv' HL' Hgr Hin' Hpot'. apply wpe_ret. exists L'.
    split_and!; [|done|by eapply grows_trans; [apply frame_grows|eapply grows_trans]|done|lia|done].
    destruct (Hk p) as [->| ->]; [done|]. eapply sinv_gone; [|exact Hinv']. by intros ? ? [-> _]. }
  destruct r as [r|b msg]; [apply (Hfin Returns); [by left|done..]|].
  destruct Hr as [Hr Hmsg]. apply (Hfin (fun _ => Unwinds b msg)); [by right|done..].
Qed.

(** ** The loop of [poll] *)

(** The task of a panic: the panic is the one of its poll, and it is out of the list
    and its future dropped. *)
Definition thrown (b : bool) (m : string) L' s' : Prop :=
  exists id s1 s2, drive_fut_u id s1 = Ok (Unwinds b m, s2) /\ (id ∉ dropped s1) /\
    (id ∉ L') /\ id ∈ dropped s' /\ fpanics m.

(** What a poll with [fuel] leaves, as [poll_post]. *)
Definition poll_left (fuel : nat) s (r : exc (option (poll unit))) s' : Prop :=
  exists L' held', sinv s' L' at_rest held' /\ moves s s' /\ uin (user s') /\ (pot s' <= pot s)%nat /\
    ((pot s < fuel)%nat -> r <> Returns None) /\ (r = Returns (Some (Ready tt)) -> L' = []) /\
    match r with Returns _ => True | Unwinds b m => thrown b m L' s' end.

Lemma poll_left_step fuel fuel1 s s1 r s' :
  moves s s1 -> (pot s1 <= pot s)%nat -> (pot s < fuel -> pot s1 < fuel1)%nat ->
  poll_left fuel1 s1 r s' -> poll_left fuel s r s'.
Proof.
  intros Hm Hp Hf (L' & held' & H1 & H2 & H3 & H4 & H5 & H6 & H7). exists L', held'.
  split_and!; [done|by eapply moves_trans|done|lia|auto|done|done].
Qed.

Lemma moves_refl s : moves s s.
Proof. apply grows_moves, grows_refl. Qed.

Lemma moves_outer w s : moves s (add_outer_woken w s).
Proof. split; [apply ule_refl|done| |done]. intros w0 o. apply armed_outer. Qed.

Lemma sinv_outer w s L d held : sinv s L d held -> sinv (add_outer_woken w s) L d held.
Proof. intros H. eapply sinv_same; [| | | | |exact H]; by try split. Qed.

(** A return of the loop. *)
Lemma poll_left_ret fuel s0 s L held p :
  sinv s L at_rest held -> moves s0 s -> uin (user s) -> (pot s <= pot s0)%nat -> (p = Ready tt -> L = []) ->
  poll_left fuel s0 (Returns (Some p)) s.
Proof. intros ? ? ? ? Hp. exists L, held. split_and!; [done..|intros [= ->]; by apply Hp|done]. Qed.

(** What is done after the poll of the future of [cur]. *)
Lemma poll_driven_u w fuel s1 s2 held cur it y r :
  driven cur (cur :: held) s1 r s2 ->
  (exists t, tasks s1 !! cur = Some t /\ done t = Running) -> drops s1 -> drive_fut_u cur s1 = Ok (r, s2) ->
  (forall s' L' it y, sinv s' L' at_rest held -> grows s1 s' -> uin (user s') -> (pot s' <= pot s1)%nat ->
     wp (poll_loop_u fuel w it y) s' (poll_left fuel s')) ->
  wp (match r with
      | Unwinds b m =>
          do! pop_task_all cur in
          do! schedular_drop cur in
          ret (Unwinds b m)
      | Returns (Ready _) =>
          do! pop_task_all cur in
          do! schedular_drop cur in
          poll_loop_u fuel w it y
      | Returns Pending =>
          let! t := get_task cur in
          let! n := gets len in
          if ((2 <? y + (if queued t then 1 else 0)) || (n <? it))%Z then
            do! wake_outer w in
            do! schedular_drop cur in
            ret (Returns (Some Pending))
          else
            do! schedular_drop cur in
            poll_loop_u fuel w it (y + (if queued t then 1 else 0))
      end) s2 (poll_left fuel s1).
Proof.
  intros (L2 & Hinv2 & HL2 & Hgr & Hin2 & Hpot2 & Hfs) (t & Ht & Hr) Hdr Hrun Hnext.
  assert (Hloop : forall s' L' it y, sinv s' L' at_rest held -> frame s2 s' -> (pot s' <= pot s2)%nat ->
    wp (poll_loop_u fuel w it y) s' (poll_left fuel s1)).
  { intros s' L' it' y' H1 H2 H3. assert (grows s1 s') by (eapply grows_trans; [done|by apply frame_grows]).
    eapply wpe_post; [eapply Hnext; [done|done|by rewrite (lt_user _ _ H2)|lia]|].
    intros r' s''. apply poll_left_step; [by apply grows_moves|lia..]. }
  clear Hnext. destruct r as [[u|]|b m].
  - eapply wp_remove; [done..|]. intros s' L' Hinv' _ Hfr Hpot. by eapply Hloop.
  - apply (sinv_gone _ none_returned) in Hinv2; [|by intros ? ? [_ [=]]].
    destruct (core_get _ _ _ _ cur (s_core _ _ _ _ Hinv2)) as [t2 Ht2]; [by apply refs_list|].
    apply wpe_bind. eapply wp_get_task; [done|]. apply wpe_bind, wpe_gets. destruct (_ || _).
    + apply wpe_bind, wpe_modify, wpe_bind. eapply wp_decr; [by apply sinv_outer|].
      intros n s4 Hinv4 [Hfr4 Hpot4] _ _. apply wpe_ret.
      change (pot (add_outer_woken w s2)) with (pot s2) in Hpot4.
      eapply poll_left_ret; [done| |by rewrite (lt_user _ _ Hfr4)|lia|done].
      eapply moves_trans; [by apply grows_moves|]. eapply moves_trans; [apply (moves_outer w)|].
      by apply grows_moves, frame_grows.
    + apply wpe_bind. eapply wp_decr; [done|]. intros n s4 Hinv4 [Hfr4 Hpot4] _ _. by eapply Hloop.
  - eapply wp_remove; [done..|]. intros s' L' Hinv' HL' Hfr Hpot. apply wpe_ret. exists L', held.
    split_and!; [done| |by rewrite (lt_user _ _ Hfr)|lia|done|done|].
    + apply grows_moves. eapply grows_trans; [done|by apply frame_grows].
    + exists cur, s1, s2. split_and!; [done| |done| |done].
      * intros Hd. apply (d_dropped _ Hdr) in Hd as [_ Hd]. by apply (Hd _ Ht).
      * eapply out_dropped; [done| |done]. rewrite (lt_next _ _ Hfr). by eapply list_fresh.
Qed.

Lemma poll_running_u w fuel s L held cur t it y :
  sinv s L (popped (Some cur)) (cur :: held) -> tasks s !! cur = Some t -> done t = Running ->
  queued t = true -> (cur ∉ should_poll s) -> queue_alive s = true -> uin (user s) ->
  (forall s' L' it y, sinv s' L' at_rest held -> moves s s' -> uin (user s') -> (pot s' <= pot s)%nat ->
     wp (poll_loop_u fuel w it y) s' (poll_left fuel s')) ->
  wp (do! upd_task cur (with_queued false) in
      let? _ := catch false (assert (queued t) "assertion failed: prev") in
      let! r := drive_fut_u cur in
      match r with
      | Unwinds b m =>
          do! pop_task_all cur in
          do! schedular_drop cur in
          ret (Unwinds b m)
      | Returns (Ready _) =>
          do! pop_task_all cur in
          do! schedular_drop cur in
          poll_loop_u fuel w (it + 1) y
      | Returns Pending =>
          let! t := get_task cur in
          let! n := gets len in
          if ((2 <? y + (if queued t then 1 else 0)) || (n <? it + 1))%Z then
            do! wake_outer w in
            do! schedular_drop cur in
            ret (Returns (Some Pending))
          else
            do! schedular_drop cur in
            poll_loop_u fuel w (it + 1) (y + (if queued t then 1 else 0))
      end) s (poll_left fuel s).
Proof.
  intros Hinv Ht Hr Hq Hout Hal Hin Hnext. apply wpe_bind. eapply wp_unqueue; [done..|].
  intros s1 Hinv1 [Hfr1 Hpot1] Ht1. rewrite Hq.
  apply wpe_bind, wpe_ret, wpe_bind.
  assert (Hrun : exists t, tasks s1 !! cur = Some t /\ done t = Running) by by eexists.
  eapply wpe_post; [eapply wpe_self, wp_drive_fut_u;
    [done|by rewrite (lt_alive _ _ Hfr1)|by rewrite (lt_user _ _ Hfr1)|done]|].
  intros r s2 [Heq Hdr].
  eapply wpe_post; [eapply poll_driven_u; [done|done|apply Hinv1|done|]|].
  - intros s' L' it' y' H1 H2 H3 H4. eapply Hnext; [done| |done|lia].
    apply grows_moves. eapply grows_trans; [by apply frame_grows|done].
  - intros r' s'. apply poll_left_step; [by apply grows_moves, frame_grows|lia..].
Qed.

(** A panic uses up some of the work left. *)
Definition poll_less s (r : exc (option (poll unit))) s' : Prop :=
  match r with Returns _ => True | Unwinds _ _ => (pot s' < pot s)%nat end.

Lemma wp_poll_loop_u w fuel s L held it y :
  sinv s L at_rest held -> queue_alive s = true -> uin (user s) ->
  wp (poll_loop_u fuel w it y) s (fun r s' => poll_left fuel s r s' /\ poll_less s r s').
Proof.
  revert s L held it y. induction fuel as [|fuel IH]; intros s L held it y Hinv Hal Hin; cbn [poll_loop_u].
  { apply wpe_ret. split; [|done]. exists L, held. split_and!; [done|apply moves_refl|done|done|lia|done|done]. }
  apply wpe_bind. eapply wp_q_pop; [done|done|..].
  - intros Hg. apply wpe_bind, wpe_modify, wpe_ret. split; [|done].
    eapply poll_left_ret; [by apply sinv_outer, sinv_gap| |done|done|done].
    eapply moves_trans; [by apply (moves_gap _ None)|apply moves_outer].
  - intros g s1 Hs. apply wpe_bind, wpe_gets, wpe_ret. split; [|done].
    eapply poll_left_ret; [by apply sinv_gap|apply moves_gap; intros Hse; by destruct (Hs Hse)|done|done|].
    cbn. rewrite (l_next _ _ (s_linked _ _ _ _ Hinv)). by destruct L.
  - intros cur q g s1 Hq Hout Hse Hg Hqt Hinv1. pose proof (pot_pop s cur q g Hq) as Hpot1.
    pose proof (moves_pop s q g Hse) as Hmv1. fold s1 in Hpot1, Hmv1.
    destruct (core_get _ _ _ _ cur (s_core _ _ _ _ Hinv1)) as [t Ht]; [by apply refs_held; left|].
    assert (Hnext : forall s' L' held' it y, sinv s' L' at_rest held' -> moves s1 s' -> uin (user s') ->
      (pot s' <= pot s1)%nat -> wp (poll_loop_u fuel w it y) s' (poll_left fuel s')).
    { intros s' L' held' it' y' Hinv' Hm Hin' Hp.
      eapply wpe_post; [eapply IH; [done|by rewrite (m_alive _ _ Hm)|done]|]. by intros r s'' [? _]. }
    eapply wpe_post with (Q := poll_left fuel s1).
    2: { intros r s' Hl. split; [by apply (poll_left_step (S fuel) fuel s s1); [done|lia|lia|]|].
         destruct Hl as (? & ? & _ & _ & _ & Hp & _). destruct r; [done|]. cbn. lia. }
    assert (Hgo : forall s' L' held', sinv s' L' at_rest held' -> later 0 s1 s' ->
      wp (poll_loop_u fuel w it y) s' (poll_left fuel s1)).
    { intros s' L' held' H1 H2. pose proof (proj2 H2). eapply wpe_post;
        [eapply Hnext; [done|by eapply later_moves|by rewrite (lt_user _ _ (proj1 H2))|done]|].
      intros r s''. apply poll_left_step; [by eapply later_moves|lia..]. }
    apply wpe_bind. eapply (wp_get_task _ s1); [done|]. destruct (done t) eqn:Hdn.
    + eapply (poll_running_u w fuel s1 L held cur t it y); try done; [by apply Hqt|].
      intros s' L' it' y' Hinv' Hgr Hin' Hp. by eapply Hnext.
    + destruct (c_status _ _ _ _ (s_core _ _ _ _ Hinv1) _ _ Ht) as (_ & _ & _ & H).
      rewrite Hdn in H. destruct H as (HL & _). apply wpe_bind.
      eapply wp_pop_task_all; [exact Hinv1|done|by right|]. intros l1 l2 s' -> Hinv' Hlt. by eapply Hgo.
    + apply wpe_bind. eapply wp_decr; [by eapply sinv_popped_done|]. intros m s' Hinv' Hlt _ _. by eapply Hgo.
Qed.

Lemma sinv_register w s L d held : sinv s L d held -> sinv (set_registered (Some w) s) L d held.
Proof. intros H. eapply sinv_same; [| | | | |exact H]; by try split. Qed.

(** [poll] registers its waker, unless there is nothing to do. *)
Definition start_poll w s : sched F U :=
  match all_next s with Some _ => set_registered (Some w) s | None => s end.

Lemma start_poll_same w s :
  pot (start_poll w s) = pot s /\ queue_alive (start_poll w s) = queue_alive s /\ user (start_poll w s) = user s.
Proof. unfold start_poll. by destruct (all_next s). Qed.

Lemma wp_poll_sched_u w fuel s L held :
  sinv s L at_rest held -> queue_alive s = true -> uin (user s) ->
  wp (poll_sched_u fuel w) s (fun r s' => poll_left fuel (start_poll w s) r s' /\ poll_less s r s').
Proof.
  intros Hinv Hal Hin. apply wpe_bind, wpe_gets. unfold start_poll. destruct (all_next s) as [x|] eqn:Hx.
  - apply wpe_bind, wpe_modify.
    exact (wp_poll_loop_u w fuel (set_registered (Some w) s) L held 0 0 (sinv_register _ _ _ _ _ Hinv) Hal Hin).
  - apply wpe_ret. split; [|done]. eapply poll_left_ret; [done|apply moves_refl|done|done|].
    rewrite (l_next _ _ (s_linked _ _ _ _ Hinv)) in Hx. by destruct L.
Qed.

(** ** Everything that can happen *)
Lemma wp_op_u o s : rest s -> op_ok o -> wp (run_op_u o) s (fun _ => rest).
Proof.
  intros Hrest Hok. destruct (is_poll o) eqn:Ho; [|destruct o; by try apply wp_other_op].
  destruct o as [|fuel w| | | | | | | |]; try done. pose proof Hrest as (L & held & Hinv).
  apply wp_if_alive; [|done]. intros Hal. apply wpe_bind.
  eapply wpe_post; [eapply wp_poll_sched_u; [done|done|apply Hok, (s_users _ _ _ _ Hinv)]|].
  intros r s' [(L' & held' & H & _) _]. apply wpe_ret. by exists L', held'.
Qed.

Lemma wp_ops_u l s : rest s -> Forall op_ok l -> wp (run_ops_u l) s (fun _ => rest).
Proof.
  revert s. induction l as [|o l IH]; intros s Hs Hl; cbn [run_ops_u]; [by apply wpe_ret|].
  apply Forall_cons in Hl as [Ho Hl].
  apply wpe_bind. eapply wpe_post; [by apply wp_op_u|]. intros [] s' Hs'. by apply IH.
Qed.

(** ** Polling again after a panic *)
Lemma wp_poll_again n fuel w s L held :
  sinv s L at_rest held -> queue_alive s = true -> uin (user s) -> (pot s < fuel)%nat -> (pot s < n)%nat ->
  wp (poll_again n fuel w) s (fun r s' => exists p L' held', r.2 = Some p /\
    sinv s' L' at_rest held' /\ (length r.1 + pot s' <= pot s)%nat /\ (p = Ready tt -> L' = [])).
Proof.
  revert s L held. induction n as [|n IH]; intros s L held Hinv Hal Hin Hf Hn; [lia|].
  apply wpe_bind. eapply wpe_post; [by eapply wp_poll_sched_u|].
  intros r s' [(L' & held' & Hinv' & Hm & Hin' & Hp & Hr & He & _) Hless].
  destruct (start_poll_same w s) as (Hps & Hals & _). rewrite Hps in *.
  assert (Hm' : queue_alive s' = true) by by rewrite (m_alive _ _ Hm), Hals.
  specialize (Hr Hf).
  destruct r as [[p|]|b m]; [| |].
  - apply wpe_ret. exists p, L', held'. split_and!; [done|done|cbn; lia|]. intros ->. by apply He.
  - done.
  - cbn in Hless. apply wpe_bind. eapply wpe_post; [eapply IH; [done|done|done|lia|lia]|].
    intros [ms q] s2 (p & L2 & held2 & Hq & Hinv2 & Hlen & He2). apply wpe_ret.
    exists p, L2, held2. cbn in *. split_and!; [done|done|lia|done].
Qed.
End safe.
