(* ===== verification/SchedularUnwindThms.v ===== *)
(** * What the scheduler guarantees when its futures panic

    For futures that keep what [FutureOkU] asks of them, and a scheduler whose
    owner catches the panics of [poll] and goes on. *)

From S2P Require Import Prelude Exc Schedular SchedularInv SchedularSafe SchedularPoll SchedularThms.
From S2P Require Import SchedularUnwind SchedularUnwindSafe.
Import Schedular.

Section thms.
Context {F U : Type} {FU : Future F U} {FS : FutureSpec F U} {FO : FutureOkU F U}.

(** The state after the operations [l] on a new scheduler. *)
Definition after_u (u : U) (l : list (op F)) : sched F U := final (run_ops_u l) (new u).

Lemma after_u_rest u l : uok u -> Forall op_ok l -> rest (after_u u l).
Proof.
  intros Hu Hl. destruct (wp_ok _ _ _ (wp_ops_u l (new u) (rest_new _ Hu) Hl)) as ([] & s & Hs & Hr).
  unfold after_u, final. by rewrite Hs.
Qed.

Context (u : U) (l : list (op F)) (Hu : uok u) (Hl : Forall op_ok l).

(** [C12] No sequence of operations on a scheduler is undefined or aborts, when
    futures panic in their polls and the panics are caught: the counts of the
    tasks stay the numbers of their owners, the list stays linked and a task has a
    future exactly while it runs. *)
Theorem caught_panics_defined :
  wp (run_ops_u l) (new u) (fun _ s => exists L held, sinv s L at_rest held).
Proof. exact (wp_ops_u l (new u) (rest_new u Hu) Hl). Qed.

(** [C13] A panic that leaves [poll] is the one of the poll of a task whose future
    was not dropped before.  Afterwards that task is out of the list and its future
    has been dropped, once; if a waker or token still keeps it in memory it is
    marked as done and queued, so that they do nothing but give it up.  The waker of
    the poll has been called or is registered for the next wake-up. *)
Theorem panic_removes_task fuel w b m s' :
  queue_alive (after_u u l) = true -> uin (user (after_u u l)) ->
  poll_sched_u fuel w (after_u u l) = Ok (Unwinds b m, s') ->
  exists id s1 s2 L held, drive_fut_u id s1 = Ok (Unwinds b m, s2) /\ (id ∉ dropped s1) /\
    sinv s' L at_rest held /\ (id ∉ L) /\ id ∈ dropped s' /\ NoDup (dropped s') /\
    (forall t, tasks s' !! id = Some t -> done t = Done /\ queued t = true) /\
    armed w (outer_woken (after_u u l)) s'.
Proof.
  intros Hal Hin Hs. destruct (after_u_rest u l Hu Hl) as (L & held & Hinv).
  destruct (wp_ok _ _ _ (wp_poll_sched_u w fuel _ L held Hinv Hal Hin)) as (r & s1 & Hs1 & H).
  rewrite Hs in Hs1. injection Hs1 as <- <-.
  destruct H as [(L' & held' & Hinv' & Hm & _ & _ & _ & _ & id & s1 & s2 & H1 & H2 & H3 & H4 & _) Hless].
  exists id, s1, s2, L', held'. split_and!; try done.
  - apply (d_nodup _ (s_drops _ _ _ _ Hinv')).
  - intros t Ht. destruct (c_status _ _ _ _ (s_core _ _ _ _ Hinv') _ _ Ht) as (_ & _ & _ & H).
    destruct (done t); [by destruct H|by destruct H|by destruct H as (_ & ? & _)].
  - apply (m_armed _ _ Hm). unfold start_poll. destruct (all_next (after_u u l)) as [x|] eqn:Hx.
    + exists []. cbn. rewrite app_nil_r. split; [done|by left].
    + exfalso. unfold poll_sched_u, bind, is_empty, gets in Hs. by rewrite Hx in Hs.
Qed.

(** [C14] An owner that polls again after each panic comes to a result: it catches
    no more panics than there is work left, and when the result is ready no task is
    left. *)
Theorem polling_again_ends n fuel w :
  queue_alive (after_u u l) = true -> uin (user (after_u u l)) ->
  (pot (after_u u l) < fuel)%nat -> (pot (after_u u l) < n)%nat ->
  exists ms p s', poll_again n fuel w (after_u u l) = Ok ((ms, Some p), s') /\
    (length ms + pot s' <= pot (after_u u l))%nat /\ (p = Ready tt -> all_next s' = None).
Proof.
  intros Hal Hin Hf Hn. destruct (after_u_rest u l Hu Hl) as (L & held & Hinv).
  destruct (wp_ok _ _ _ (wp_poll_again n fuel w _ L held Hinv Hal Hin Hf Hn)) as ([ms q] & s' & Hs & H).
  destruct H as (p & L' & held' & Hq & Hinv' & Hlen & He). cbn in *. subst q.
  exists ms, p, s'. split; [exact Hs|]. split; [done|].
  intros Hp. rewrite (l_next _ _ (s_linked _ _ _ _ Hinv')). by rewrite (He Hp).
Qed.
End thms.

(** ** Examples *)

(** Futures that can panic, as the list of what they do. *)
Inductive risky :=
| RReady
| RThrow (m : string)
| RPend (k : risky)           (* [Poll::Pending] *)
| RWakeSelf (k : risky)
| RStash (k : risky)          (* a clone of the waker is kept somewhere outside *)
| RSpawn (f k : risky).       (* the token is kept in the future *)

Fixpoint poll_risky (f : risky) : act risky unit (option risky) :=
  match f with
  | RReady => ARet None
  | RThrow m => APanic m
  | RPend k => ARet (Some k)
  | RWakeSelf k => AWakeSelf (poll_risky k)
  | RStash k => AClone false (fun _ => poll_risky k)
  | RSpawn f k => ASpawn f [] (fun _ => poll_risky k)
  end.

#[export] Instance risky_future : Future risky unit := {| fpoll := poll_risky; fdone := RReady |}.

Fixpoint risk (f : risky) : nat :=
  match f with
  | RReady | RThrow _ => 1
  | RPend k | RWakeSelf k | RStash k => S (risk k)
  | RSpawn f k => S (risk f + risk k)
  end.

#[export] Instance risky_spec : FutureSpec risky unit :=
  {| uok := fun _ => True; uin := fun _ => True; ule := fun _ _ => True; fok := fun _ _ => True; fsize := fun _ f => risk f;
     fpanics := fun _ => True |}.

Lemma risk_pos f : (0 < risk f)%nat.
Proof. destruct f; cbn; lia. Qed.

Lemma poll_risky_ok n f u :
  (risk f <= n)%nat -> act_safe (fun n u m => poll_ok n u None /\ fpanics m) poll_ok n u (poll_risky f).
Proof.
  revert n. induction f as [|m|k IH|k IH|k IH|f _ k IH]; intros n Hn; cbn [risk] in Hn; cbn.
  - by split.
  - by split.
  - split; [done|]. split; [done|]. cbn. lia.
  - exists (pred n). split; [lia|]. apply IH. lia.
  - intros _. apply IH. lia.
  - split; [done|]. exists (n - S (risk f))%nat. split; [lia|]. intros _. apply IH. lia.
Qed.

#[export] Instance risky_ok : FutureOkU risky unit.
Proof.
  split; [|intros; by apply poll_risky_ok]. split; try done. intros. apply risk_pos.
Qed.

(** Two tasks that panic, one of which keeps a waker outside, between two that do
    not. *)
Definition perilous : list (op risky) :=
  [OPush (RSpawn (RPend RReady) (RPend RReady)); OPush (RStash (RThrow "first"));
   OPush (RWakeSelf (RPend (RThrow "second"))); OPush RReady].

Lemma risky_op_ok (l : list (op risky)) : Forall op_ok l.
Proof. apply Forall_forall. intros o _. by destruct o. Qed.

Lemma perilous_ok : uok (F := risky) tt /\ Forall op_ok perilous.
Proof. split; [exact I|apply risky_op_ok]. Qed.

Lemma caught_panics_defined_witness :
  wp (run_ops_u (perilous ++ [OPoll 30 7; OWake 0; OPoll 30 7; OClear 30])) (new tt)
    (fun _ s => exists L held, sinv s L at_rest held).
Proof. apply (caught_panics_defined tt); [exact I|apply risky_op_ok]. Defined.

(** The state a poll leaves. *)
Definition polled (l : list (op risky)) : sched risky unit := final (poll_sched_u 30 7) (after_u tt l).

Lemma panic_removes_task_witness :
  dropped (polled perilous) = [1%nat] /\
  exists id s1 s2 L held, drive_fut_u id s1 = Ok (Unwinds false "first", s2) /\ (id ∉ dropped s1) /\
    sinv (polled perilous) L at_rest held /\ (id ∉ L) /\ id ∈ dropped (polled perilous) /\
    NoDup (dropped (polled perilous)) /\
    (forall t, tasks (polled perilous) !! id = Some t -> done t = Done /\ queued t = true) /\
    armed 7 (outer_woken (after_u tt perilous)) (polled perilous).
Proof.
  split; [vm_compute; reflexivity|].
  apply (panic_removes_task tt perilous (proj1 perilous_ok) (proj2 perilous_ok) 30);
    [reflexivity|exact I|vm_compute; reflexivity].
Defined.

Lemma polling_again_ends_witness :
  exists ms p s', poll_again 30 30 7 (after_u tt perilous) = Ok ((ms, Some p), s') /\
    (length ms + pot s' <= pot (after_u tt perilous))%nat /\ (p = Ready tt -> all_next s' = None).
Proof.
  apply (polling_again_ends tt perilous (proj1 perilous_ok) (proj2 perilous_ok));
    [reflexivity|exact I|vm_compute; lia..].
Defined.

(** The messages caught on the way. *)
Example perilous_run :
  match poll_again 30 30 7 (after_u tt perilous) with
  | Ok ((ms, p), s') => ms = ["first"; "second"] /\ p = Some Pending /\ dropped s' = [1; 3; 2]%nat
  | _ => False
  end.
Proof. vm_compute. done. Qed.
