(* ===== verification/Tree.v ===== *)
(** * The tree runtime (src/tree/mod.rs, future.rs, runner.rs, stk.rs)

    A [TreeStack] is a root [Stack] and a scheduler.  A future on a stack may open
    a scope: a task of the scheduler, whose futures run on stacks of their own
    ([ScopeStkFuture]) and may open scopes again.

    The stacks are taken as the machine with a stack of continuations that
    [StackThms.step_refines] shows the stack runtime to be.  The code of a user
    future is a [prog]; a poll of it is an [act], which the scheduler runs for its
    tasks and [drive_root] for the root. *)

From S2P Require Import Prelude Defer Stack Schedular SchedularUnwind.
Import Schedular.

Module Tree.

Section tree.
Context {V : Type}.

(** ** User futures

    A value; [stk.run(p).await]; [stk.scope(|s| join(s.run(p) for p in l)).await],
    where [join] polls those that are not ready in order; the await of
    [stk.yield_now()], and of a future of an outside runtime;
    [TreeStack::with_context(|_| ())], the check of [Stk::enter_run] and
    [Stk::enter_scope]; and a panic. *)
Inductive prog : Type :=
| TRet (v : V)
| TRun (p : prog) (k : V -> prog)
| TScope (l : list prog) (k : list V -> prog)
| TYield (k : prog)
| TAwait (e : nat) (k : V -> prog)
| TInTree (k : prog)
| TThrow (m : string).

(** [Stk::enter_run], [Stk::enter_scope]. *)
Definition enter_run (p : prog) (k : V -> prog) : prog := TInTree (TRun p k).
Definition enter_scope (l : list prog) (k : list V -> prog) : prog := TInTree (TScope l k).

(** ** Stacks *)

(** [enum ScopeFutureState]: a running scope has its place and its cancel token. *)
Inductive scope_state :=
| SInitial (l : list prog)
| SRunning (place token : nat)
| SFinished.

(** The caller of a running task: the waker to be called when the caller returns,
    and the code after the call. *)
Definition frame : Type := option nat * (V -> prog).

(** The tasks of a stack: the one on top with its code, or with the scope it
    awaits, or with the value just returned to it; below it those that wait.
    The last two have no task, with and without a result. *)
Inductive conf :=
| CCode (p : prog) (n : option nat) (fs : list frame)
| CScope (s : scope_state) (k : list V -> prog) (n : option nat) (fs : list frame)
| CBack (v : V) (k : V -> prog) (n : option nat) (fs : list frame)
| CDone (v : V)
| CEmpty.

(** [Stack], with its field [async_context]. *)
Record stack := { st_conf : conf; st_state : StackState; st_context : Z }.

(** [ScopeStkFuture::new]: [Stack::new] and [enter_future]. *)
Definition scope_stk_new (p : prog) : stack :=
  {| st_conf := CCode p None []; st_state := Base; st_context := Ptr.dangling 1 |}.

(** ** Tasks *)

(** A future in a scope, polled until it is ready. *)
Inductive child := CStk (s : stack) | CFin (v : V).

(** The future given to [push_cancellable]: the place, the futures of the scope,
    and the waker to be called when they are ready. *)
Inductive fut :=
| TFut (place : nat) (cs : list child) (waker : option nat)
| TFDone.

(** ** Shared memory

    The places of scopes, each with the futures whose values it is for; the
    events of the outside runtime with the wakers it keeps; the state of the root
    stack; and the thread local pointers to the current stack and scheduler
    ([false] is [None]). *)
Inductive source := STask (i : nat) | SRoot (w : nat).

Record scope := { sc_body : list prog; sc_place : option (list V) }.

Record mem := {
  scopes : list scope;
  events : gmap nat V;
  waiting : list (nat * source);
  root_state : StackState;
  stack_ptr : bool;
  tree_ptr : bool;
}.

Definition set_scopes l (u : mem) : mem :=
  {| scopes := l; events := events u; waiting := waiting u; root_state := root_state u;
     stack_ptr := stack_ptr u; tree_ptr := tree_ptr u |}.
Definition set_events e (u : mem) : mem :=
  {| scopes := scopes u; events := e; waiting := waiting u; root_state := root_state u;
     stack_ptr := stack_ptr u; tree_ptr := tree_ptr u |}.
Definition set_waiting l (u : mem) : mem :=
  {| scopes := scopes u; events := events u; waiting := l; root_state := root_state u;
     stack_ptr := stack_ptr u; tree_ptr := tree_ptr u |}.
Definition set_root_state s (u : mem) : mem :=
  {| scopes := scopes u; events := events u; waiting := waiting u; root_state := s;
     stack_ptr := stack_ptr u; tree_ptr := tree_ptr u |}.
Definition set_stack_ptr b (u : mem) : mem :=
  {| scopes := scopes u; events := events u; waiting := waiting u; root_state := root_state u;
     stack_ptr := b; tree_ptr := tree_ptr u |}.
Definition set_tree_ptr b (u : mem) : mem :=
  {| scopes := scopes u; events := events u; waiting := waiting u; root_state := root_state u;
     stack_ptr := stack_ptr u; tree_ptr := b |}.

Abbreviation A := (act fut mem).

(** A new place; [Cell::take] and [Cell::set] on one. *)
Definition new_place {R} (l : list prog) (k : nat -> A R) : A R :=
  AGet (fun u =>
    AUpd (fun u => set_scopes (scopes u ++ [{| sc_body := l; sc_place := None |}]) u)
      (k (length (scopes u)))).
Definition put_place (q : nat) (o : option (list V)) (u : mem) : mem :=
  match scopes u !! q with
  | Some sc => set_scopes (<[q := {| sc_body := sc_body sc; sc_place := o |}]> (scopes u)) u
  | None => u
  end.
Definition take_place {R} (q : nat) (k : option (list V) -> A R) : A R :=
  AGet (fun u =>
    match scopes u !! q with
    | Some sc => AUpd (put_place q None) (k (sc_place sc))
    | None => AStuck
    end).

(** [Context]: where it lives, and the waker of an outside executor or, without
    one, of the task that is polled. *)
Record context := { cx_addr : Z; cx_root : option nat }.

(** ** The thread local pointers

    The [Defer] of [enter_context] runs when its body panics, too. *)
Definition with_context {R} (c : A R) : A R :=
  AGet (fun u => if stack_ptr u then c else APanic "Not within a stack context").
Definition enter_context {R} (c : A R) : A R :=
  AGet (fun u => AUpd (set_stack_ptr true) (afinally (set_stack_ptr (stack_ptr u)) c)).
Definition tree_with_context {R} (c : A R) : A R :=
  AGet (fun u =>
    if tree_ptr u then c else APanic "Used TreeStack functions outside of TreeStack context").

(** ** Polling the futures a task awaits *)

(** [Stack::push_task], as far as the state goes. *)
Definition push_task {R} (st : StackState) (k : StackState -> A R) : A R :=
  if decide (st = Base) then k NewTask
  else APanic "Invalid stack state, futures are not being evaluated in stack order.".

(** The first poll of a [StkFuture] on a stack with context [ctx] in state [st]:
    the waker the callee is to call, and the state then. *)
Definition poll_stk {R} (cx : context) (ctx : Z) (st : StackState)
    (k : option nat -> StackState -> A R) : A R :=
  with_context (
    if (ctx =? cx_addr cx)%Z then push_task st (k None)
    else AClone true (fun i => push_task st (k (Some i)))).

(** [Future for YieldFuture], not polled before. *)
Definition poll_yield {R} (cx : context) (ctx : Z) (st : StackState) (k : A R) : A R :=
  with_context (
    if decide (st = Yield) then
      let inconsistent := APanic "Stack was in inconsistant state for yielding." in
      if negb (ctx =? cx_addr cx)%Z then AWakeSelf inconsistent else inconsistent
    else k).

(** [Future for ScopeFuture]. *)
Definition poll_scope {R} (cx : context) (ctx : Z) (st : StackState) (s : scope_state)
    (k : poll (list V) -> scope_state -> StackState -> A R) : A R :=
  match s with
  | SInitial l =>
      new_place l (fun place =>
        let fut := TFut place (map (fun p => CStk (scope_stk_new p)) l) in
        with_context (
          (* the state is set without a look at the old one *)
          let st := NewTask in
          if (ctx =? cx_addr cx)%Z then
            tree_with_context (ASpawn (fut None) [] (fun n => k Pending (SRunning place n) st))
          else
            tree_with_context (AClone false (fun i =>
              ASpawn (fut (Some i)) [i] (fun n => k Pending (SRunning place n) st)))))
  | SRunning place token =>
      take_place place (fun x =>
        match x with
        | Some x => ADrop (Tok token) (k (Ready x) SFinished st)
        | None => k Pending s st
        end)
  | SFinished => k Pending s st
  end.

(** [Drop for ScopeFuture]. *)
Definition drop_scope {R} (s : scope_state) (k : A R) : A R :=
  match s with
  | SRunning _ token => ADrop (Tok token) k
  | SInitial _ | SFinished => k
  end.

(** A future of an outside runtime that is not ready keeps the waker. *)
Definition register {R} (cx : context) (e : nat) (k : A R) : A R :=
  match cx_root cx with
  | Some w => AUpd (fun u => set_waiting (waiting u ++ [(e, SRoot w)]) u) k
  | None => AClone false (fun i => AUpd (fun u => set_waiting (waiting u ++ [(e, STask i)]) u) k)
  end.

(** ** Driving a stack *)

(** What the poll of a task ends with: its value, a call, or the wait for an event
    or a scope. *)
Inductive progress :=
| PFin (v : V)
| PCall (p : prog) (n : option nat) (k : V -> prog)
| PBlock (p : prog)
| PScope (s : scope_state) (k : list V -> prog).

Section poll.
Context (cx : context) (ctx : Z).

Fixpoint exec (st : StackState) (p : prog) : A (progress * StackState) :=
  match p with
  | TRet v => ARet (PFin v, st)
  | TRun q k => poll_stk cx ctx st (fun n st => ARet (PCall q n k, st))
  | TScope l k => poll_scope cx ctx st (SInitial l) (fun _ s st => ARet (PScope s k, st))
  | TYield k => poll_yield cx ctx st (exec st k)
  | TAwait e k =>
      AGet (fun u =>
        match events u !! e with
        | Some v => exec st (k v)
        | None => register cx e (ARet (PBlock (TAwait e k), st))
        end)
  | TInTree k => tree_with_context (exec st k)
  | TThrow m => APanic m
  end.

(** [Stack::drive_task] on the task on top. *)
Definition drive_task (st : StackState) (c : conf) : A (progress * StackState) :=
  match c with
  | CCode p _ _ => exec st p
  | CScope s k _ _ =>
      poll_scope cx ctx st s (fun r s st =>
        match r with
        | Ready x => exec st (k x)
        | Pending => ARet (PScope s k, st)
        end)
  | CBack v k _ _ => exec st (k v)
  | CDone _ => AStuck
  | CEmpty => APanic "called `Option::unwrap()` on a `None` value"
  end.
End poll.

(** The tasks after the one on top has returned [v]. *)
Definition return_to (v : V) (fs : list frame) : conf :=
  match fs with
  | [] => CDone v
  | (n, k) :: fs => CBack v k n fs
  end.

(** The end of [Stack::drive_top_task] when the task is pending. *)
Definition after_pending (s : stack) : A (poll bool * stack) :=
  let base := {| st_conf := st_conf s; st_state := Base; st_context := st_context s |} in
  match st_state s with
  | Base => ARet (Pending, s)
  | Yield => ARet (Ready true, base)
  | Stack.Cancelled => APanic "stack should never be running tasks while cancelling"
  | NewTask => ARet (Ready false, base)
  end.

(** The waker and the frames of the task on top. *)
Definition top_task (c : conf) : option nat * list frame :=
  match c with
  | CCode _ n fs | CScope _ _ n fs | CBack _ _ n fs => (n, fs)
  | CDone _ | CEmpty => (None, [])
  end.

(** [Stack::drive_top_task]. *)
Definition drive_stack (cx : context) (s : stack) : A (poll bool * stack) :=
  let '(n, fs) := top_task (st_conf s) in
  enter_context (
    abind (drive_task cx (st_context s) (st_state s) (st_conf s)) (fun '(p, st) =>
      let s' := fun c => {| st_conf := c; st_state := st; st_context := st_context s |} in
      match p with
      | PFin v =>
          let done := ARet (Ready false, s' (return_to v fs)) in
          match n with Some i => AWake i done | None => done end
      | PCall q m k => after_pending (s' (CCode q m ((n, k) :: fs)))
      | PBlock q => after_pending (s' (CCode q n fs))
      | PScope sc k => after_pending (s' (CScope sc k n fs))
      end)).

(** [Stack::try_get_result]. *)
Definition try_result (s : stack) : option V * stack :=
  match st_conf s with
  | CDone v => (Some v, {| st_conf := CEmpty; st_state := st_state s; st_context := st_context s |})
  | _ => (None, s)
  end.

(** ** Futures in a scope *)

(** The loop of [poll] of [ScopeStkFuture]. *)
Fixpoint scope_stk_loop (fuel : nat) (cx : context) (s : stack) : A (poll V * stack) :=
  match fuel with
  | O => AStuck
  | S fuel =>
      match try_result s with
      | (Some x, s) => ARet (Ready x, s)
      | (None, s) =>
          abind (drive_stack cx s) (fun '(r, s) =>
            match r with
            | Pending => ARet (Pending, s)
            | Ready yielding =>
                if (yielding : bool) then AUpd (set_root_state Yield) (AWakeSelf (ARet (Pending, s)))
                else scope_stk_loop fuel cx s
            end)
      end
  end.

(** [Future for ScopeStkFuture].  The current stack, its [parent], is the root:
    the scheduler is polled nowhere else. *)
Definition poll_scope_stk (fuel : nat) (cx : context) (s : stack) : A (poll V * stack) :=
  with_context (AGet (fun u =>
    if decide (root_state u = Yield) then AWakeSelf (ARet (Pending, s))
    else enter_context (scope_stk_loop fuel cx s))).

(** The futures of a scope that are not ready are polled in order. *)
Fixpoint poll_children (fuel : nat) (cx : context) (cs : list child) : A (list child) :=
  match cs with
  | [] => ARet []
  | CFin v :: cs => abind (poll_children fuel cx cs) (fun cs => ARet (CFin v :: cs))
  | CStk s :: cs =>
      abind (poll_scope_stk fuel cx s) (fun '(r, s) =>
        abind (poll_children fuel cx cs) (fun cs =>
          ARet (match r with Ready v => CFin v | Pending => CStk s end :: cs)))
  end.

Definition finished (cs : list child) : option (list V) :=
  mapM (fun c => match c with CFin v => Some v | CStk _ => None end) cs.

(** The future pushed by [ScopeFuture]: [place.set(Some(fut.await))], then the waker. *)
Definition poll_fut (fuel : nat) (cx : context) (f : fut) : A (option fut) :=
  match f with
  | TFut place cs waker =>
      abind (poll_children fuel cx cs) (fun cs =>
        match finished cs with
        | Some x =>
            AUpd (put_place place (Some x))
              (match waker with Some i => AWake i (ARet None) | None => ARet None end)
        | None => ARet (Some (TFut place cs waker))
        end)
  | TFDone => APanic "`async fn` resumed after completion"
  end.

(** The contexts of tasks live at [addr]; the loops go round at most [fuel] times. *)
Definition tree_future (fuel : nat) (addr : Z) : Future fut mem :=
  {| fpoll := poll_fut fuel {| cx_addr := addr; cx_root := None |}; fdone := TFDone |}.
End tree.

Arguments prog V : clear implicits.
Arguments conf V : clear implicits.
Arguments stack V : clear implicits.
Arguments scope_state V : clear implicits.
Arguments frame V : clear implicits.
Arguments child V : clear implicits.
Arguments fut V : clear implicits.
Arguments scope V : clear implicits.
Arguments mem V : clear implicits.
Arguments progress V : clear implicits.

Section runner.
Context {V : Type} `{!Future (fut V) (mem V)}.

(** ** [TreeStack]

    The root stack, whose state is in the memory, and the scheduler. *)
Record tree := { root_conf : conf V; root_context : Z; sch : sched (fut V) (mem V) }.

Definition set_root_conf c (t : tree) : tree :=
  {| root_conf := c; root_context := root_context t; sch := sch t |}.
Definition set_root_context a (t : tree) : tree :=
  {| root_conf := root_conf t; root_context := a; sch := sch t |}.
Definition set_sch s (t : tree) : tree :=
  {| root_conf := root_conf t; root_context := root_context t; sch := s |}.

Definition new_mem : mem V :=
  {| scopes := []; events := ∅; waiting := []; root_state := Base; stack_ptr := false; tree_ptr := false |}.

(** [TreeStack::new]. *)
Definition new : tree :=
  {| root_conf := CEmpty; root_context := Ptr.dangling 1; sch := Schedular.new new_mem |}.

Definition on_sched {B} (c : M (sched (fut V) (mem V)) B) : M tree B := fun t =>
  match c (sch t) with
  | Ok (b, s) => Ok (b, set_sch s t)
  | Panic m => Panic m
  | UB => UB
  end.
Definition get_mem {B} (f : mem V -> B) : M tree B := gets (fun t => f (user (sch t))).
Definition upd_mem (f : mem V -> mem V) : M tree unit :=
  on_sched (modify (fun s => set_user (f (user s)) s)).

(** [TreeStack::enter]; the closure gives the future. *)
Definition enter (p : prog V) : M tree unit :=
  let! c := gets root_conf in
  match c with
  | CEmpty => modify (set_root_conf (CCode p None []))
  | _ => panic "Stack still has unresolved futures, did a previous runner leak?"
  end.

(** [TreeStack::enter_context], and [enter_context] of the root. *)
Definition tree_context {B} (f : M tree B) : M tree B :=
  let! old := get_mem tree_ptr in
  do! upd_mem (set_tree_ptr true) in
  let _defer := Defer.new old (fun old => upd_mem (set_tree_ptr old)) in
  let! r := f in
  do! Defer.drop _defer in
  ret r.
Definition root_enter_context {B} (f : M tree B) : M tree B :=
  let! old := get_mem stack_ptr in
  do! upd_mem (set_stack_ptr true) in
  let _defer := Defer.new old (fun old => upd_mem (set_stack_ptr old)) in
  let! r := f in
  do! Defer.drop _defer in
  ret r.

(** The context of an executor: its address and its waker. *)
Definition outer (addr : Z) (w : nat) : context := {| cx_addr := addr; cx_root := Some w |}.

(** [drive_top_task] of the root. *)
Definition drive_root (addr : Z) (w : nat) : M tree (poll bool) :=
  let! c := gets root_conf in
  let! a := gets root_context in
  let! st := get_mem root_state in
  let! (r, s) := on_sched (run_act (AsRoot w)
    (drive_stack (outer addr w) {| st_conf := c; st_state := st; st_context := a |})) in
  do! modify (set_root_conf (st_conf s)) in
  do! upd_mem (set_root_state (st_state s)) in
  ret r.

(** [TreeStack::drive_top_task]; [fuel] is for the loop of the scheduler. *)
Definition drive_top_task (fuel : nat) (addr : Z) (w : nat) : M tree (option (poll bool)) :=
  tree_context (
    let! empty := on_sched is_empty in
    let! pending :=
      if (empty : bool) then ret (Some false)
      else root_enter_context (
        let! r := on_sched (poll_sched fuel w) in
        ret (match r with Some r => Some (is_pending r) | None => None end)) in
    match pending with
    | None => ret None
    | Some true => ret (Some Pending)
    | Some false => let! r := drive_root addr w in ret (Some r)
    end).

(** ** The runner *)

(** [try_get_result] of the root. *)
Definition try_get_result : M tree (option V) :=
  let! c := gets root_conf in
  match c with
  | CDone v => do! modify (set_root_conf CEmpty) in ret (Some v)
  | _ => ret None
  end.

(** [set_rebless_context_addr] of the root. *)
Definition set_rebless_context_addr (a : Z) : M tree Z :=
  let! old := gets root_context in do! modify (set_root_context a) in ret old.

(** The loop of [FinishFuture]. *)
Fixpoint finish_loop (n fuel : nat) (addr : Z) (w : nat) (old : Z) : M tree (option (poll V)) :=
  match n with
  | O => ret None
  | S n =>
      let! x := try_get_result in
      match x with
      | Some x => let! _ := set_rebless_context_addr old in ret (Some (Ready x))
      | None =>
          let! r := drive_top_task fuel addr w in
          match r with
          | None => ret None
          | Some (Ready _) => finish_loop n fuel addr w old
          | Some Pending => let! _ := set_rebless_context_addr old in ret (Some Pending)
          end
      end
  end.

(** [Future for FinishFuture]. *)
Definition poll_finish (fuel : nat) (addr : Z) (w : nat) : M tree (option (poll V)) :=
  let! old := set_rebless_context_addr addr in finish_loop fuel fuel addr w old.

(** [Future for StepFuture]: the context is not restored after a step. *)
Definition poll_step (fuel : nat) (addr : Z) (w : nat) : M tree (option (poll (option V))) :=
  let! old := set_rebless_context_addr addr in
  let! x := try_get_result in
  match x with
  | Some x => let! _ := set_rebless_context_addr old in ret (Some (Ready (Some x)))
  | None =>
      let! r := drive_top_task fuel addr w in
      match r with
      | None => ret None
      | Some Pending => let! _ := set_rebless_context_addr old in ret (Some Pending)
      | Some (Ready _) => ret (Some (Ready None))
      end
  end.

(** [clear] of the root: the futures its tasks own are dropped. *)
Definition clear_root : M tree unit :=
  let! c := gets root_conf in
  match c with
  | CEmpty => ret tt
  | _ =>
      do! upd_mem (set_root_state Stack.Cancelled) in
      do! match c with
          | CScope s _ _ _ => on_sched (run_act (AsRoot 0) (drop_scope s (ARet tt)))
          | _ => ret tt
          end in
      do! modify (set_root_conf CEmpty) in
      upd_mem (set_root_state Base)
  end.

(** [Drop for Runner]. *)
Definition drop_runner (fuel : nat) : M tree (option unit) :=
  let! r := on_sched (clear fuel) in
  match r with
  | Some _ => do! clear_root in ret (Some tt)
  | None => ret None
  end.

(** ** The outside

    The event [e] happens with value [v], and the wakers kept for it are called;
    an event happens once. *)
Fixpoint wake_all (l : list (nat * source)) : M tree unit :=
  match l with
  | [] => ret tt
  | (_, STask i) :: l => do! on_sched (use_waker i true schedular_wake) in wake_all l
  | (_, SRoot w) :: l => do! on_sched (wake_outer w) in wake_all l
  end.

Definition happen (e : nat) (v : V) : M tree unit :=
  let! o := get_mem (fun u => events u !! e) in
  match o with
  | Some _ => ret tt
  | None =>
      let! l := get_mem waiting in
      do! upd_mem (fun u => set_waiting (filter (fun x => x.1 <> e) l) (set_events (<[e := v]> (events u)) u)) in
      wake_all (filter (fun x => x.1 = e) l)
  end.

Inductive tree_op :=
| TEnter (p : prog V)
| TFinish (fuel : nat) (addr : Z) (w : nat)
| TStep (fuel : nat) (addr : Z) (w : nat)
| TDropRunner (fuel : nat)
| TEvent (e : nat) (v : V)
| TWake (i : nat).                      (* a waker that exists is called once more *)

(** A runner that has returned its result is not polled again. *)
Definition if_busy (c : M tree unit) : M tree unit :=
  let! r := gets root_conf in match r with CEmpty => ret tt | _ => c end.

Definition run_tree_op (o : tree_op) : M tree unit :=
  match o with
  | TEnter p => enter p
  | TFinish fuel addr w => if_busy (let! _ := poll_finish fuel addr w in ret tt)
  | TStep fuel addr w => if_busy (let! _ := poll_step fuel addr w in ret tt)
  | TDropRunner fuel => let! _ := drop_runner fuel in ret tt
  | TEvent e v => happen e v
  | TWake i => on_sched (use_waker i false schedular_wake_ref)
  end.

Fixpoint run_tree_ops (l : list tree_op) : M tree unit :=
  match l with
  | [] => ret tt
  | o :: l => do! run_tree_op o in run_tree_ops l
  end.
End runner.

Arguments tree V : clear implicits.
Arguments tree_op V : clear implicits.

End Tree.
