(* ===== verification/TreeUnwind.v ===== *)
(** * Panics of futures that unwind through the tree (src/tree/mod.rs, runner.rs)

    In [Tree] the panic of a future ends a run.  Here it unwinds: out of the poll
    of a task, through the scheduler, which drops the task ([SchedularUnwind]), or
    out of the poll of the root; then through the [Defer]s of the thread local
    pointers and the poll of the runner, to an owner that may catch it and go on. *)

From S2P Require Import Prelude Exc Defer Stack Schedular SchedularUnwind Tree.
Import Schedular Tree.

Definition resumed : string := "`async fn` resumed after panicking".

Section unwind.
Context {V : Type} `{!Future (fut V) (mem V)}.

(** A future that has panicked stays on the stack without what it owned; polled
    again it panics, as the compiler makes an [async] function do. *)
Definition poisoned : prog V := TThrow resumed.

Definition poison (c : conf V) : conf V :=
  match c with
  | CCode _ n fs | CScope _ _ n fs | CBack _ _ n fs => CCode poisoned n fs
  | CDone _ | CEmpty => c
  end.

(** [drive_top_task] of the root.  A future that panics does so in the state in
    which its poll began: the state changes with the last thing a poll does. *)
Definition drive_root_u (addr : Z) (w : nat) : M (tree V) (exc (poll bool)) :=
  let! c := gets root_conf in
  let! a := gets root_context in
  let! st := get_mem root_state in
  let! x := on_sched (run_act (AsRoot w) (acatch
    (drive_stack (outer addr w) {| st_conf := c; st_state := st; st_context := a |}))) in
  match x with
  | Returns (r, s) =>
      do! modify (set_root_conf (st_conf s)) in
      do! upd_mem (set_root_state (st_state s)) in
      ret (Returns r)
  | Unwinds b m => do! modify (set_root_conf (poison c)) in ret (Unwinds b m)
  end.

(** [TreeStack::drive_top_task]: the [Defer]s of the two [enter_context] run
    however their bodies are left. *)
Definition drive_top_task_u (fuel : nat) (addr : Z) (w : nat) : M (tree V) (exc (option (poll bool))) :=
  tree_context (
    let! empty := on_sched is_empty in
    let? pending :=
      if (empty : bool) then ret (Returns (Some false))
      else root_enter_context (
        let? r := on_sched (poll_sched_u fuel w) in
        ret (Returns (match r with Some r => Some (is_pending r) | None => None end))) in
    match pending with
    | None => ret (Returns None)
    | Some true => ret (Returns (Some Pending))
    | Some false => let? r := drive_root_u addr w in ret (Returns (Some r))
    end).

(** The loop of [FinishFuture]: a panic leaves the rebless context as it is. *)
Fixpoint finish_loop_u (n fuel : nat) (addr : Z) (w : nat) (old : Z) : M (tree V) (exc (option (poll V))) :=
  match n with
  | O => ret (Returns None)
  | S n =>
      let! x := try_get_result in
      match x with
      | Some x => let! _ := set_rebless_context_addr old in ret (Returns (Some (Ready x)))
      | None =>
          let? r := drive_top_task_u fuel addr w in
          match r with
          | None => ret (Returns None)
          | Some (Ready _) => finish_loop_u n fuel addr w old
          | Some Pending => let! _ := set_rebless_context_addr old in ret (Returns (Some Pending))
          end
      end
  end.

(** [Future for FinishFuture]. *)
Definition poll_finish_u (fuel : nat) (addr : Z) (w : nat) : M (tree V) (exc (option (poll V))) :=
  let! old := set_rebless_context_addr addr in finish_loop_u fuel fuel addr w old.

(** [Future for StepFuture]. *)
Definition poll_step_u (fuel : nat) (addr : Z) (w : nat) : M (tree V) (exc (option (poll (option V)))) :=
  let! old := set_rebless_context_addr addr in
  let! x := try_get_result in
  match x with
  | Some x => let! _ := set_rebless_context_addr old in ret (Returns (Some (Ready (Some x))))
  | None =>
      let? r := drive_top_task_u fuel addr w in
      match r with
      | None => ret (Returns None)
      | Some Pending => let! _ := set_rebless_context_addr old in ret (Returns (Some Pending))
      | Some (Ready _) => ret (Returns (Some (Ready None)))
      end
  end.

(** Operations of an owner who catches the panics of polls. *)
Definition run_tree_op_u (o : tree_op V) : M (tree V) unit :=
  match o with
  | TFinish fuel addr w => if_busy (let! _ := poll_finish_u fuel addr w in ret tt)
  | TStep fuel addr w => if_busy (let! _ := poll_step_u fuel addr w in ret tt)
  | _ => run_tree_op o
  end.

Fixpoint run_tree_ops_u (l : list (tree_op V)) : M (tree V) unit :=
  match l with
  | [] => ret tt
  | o :: l => do! run_tree_op_u o in run_tree_ops_u l
  end.

(** ** The same as [Tree] up to the end of a run *)
Lemma on_sched_agrees {X Y} (ok : X -> Y) out c cu :
  agrees ok out c cu -> agrees ok out (on_sched (V := V) c) (on_sched cu).
Proof. intros H t. unfold on_sched. destruct (H (sch t)); by constructor. Qed.

(** A guard that runs however its body is left. *)
Lemma agrees_guarded {X Y} (ok : X -> Y) out (f : M (tree V) X) fu (d : M (tree V) unit) :
  agrees ok out f fu -> agrees ok out (let! r := f in do! d in ret r) (let! r := fu in do! d in ret r).
Proof.
  intros H. eapply agrees_bind; [exact H|intros x; apply agrees_same; intros _; by apply agrees_ret|].
  intros m y Hy. apply leaves_do. intros _. by apply leaves_ret.
Qed.

Lemma tree_context_agrees {X Y} (ok : X -> Y) out (f : M (tree V) X) fu :
  agrees ok out f fu -> agrees ok out (tree_context f) (tree_context fu).
Proof. intros H. do 2 (apply agrees_same; intros ?). by apply agrees_guarded. Qed.

Lemma root_context_agrees {X Y} (ok : X -> Y) out (f : M (tree V) X) fu :
  agrees ok out f fu -> agrees ok out (root_enter_context f) (root_enter_context fu).
Proof. intros H. do 2 (apply agrees_same; intros ?). by apply agrees_guarded. Qed.

Lemma drive_root_follows addr w : follows (drive_root addr w) (drive_root_u addr w).
Proof.
  do 3 (apply agrees_same; intros ?).
  apply (agrees_bind Returns unwound); [apply on_sched_agrees, acatch_agrees|..].
  - intros [r s]. do 2 (apply agrees_same; intros ?). by apply agrees_ret.
  - intros m y [p ->]. apply leaves_do. intros _. apply leaves_ret. by exists p.
Qed.

Lemma drive_top_task_follows fuel addr w : follows (drive_top_task fuel addr w) (drive_top_task_u fuel addr w).
Proof.
  apply tree_context_agrees, agrees_same. intros e. apply follows_and_then.
  - destruct e; [by apply agrees_ret|]. apply root_context_agrees, follows_and_then.
    + apply on_sched_agrees, poll_sched_follows.
    + intros r. by apply agrees_ret.
  - intros [[]|]; [by apply agrees_ret| |by apply agrees_ret].
    apply follows_and_then; [apply drive_root_follows|]. intros r. by apply agrees_ret.
Qed.

Lemma tree_finish_loop_follows n fuel addr w old : follows (finish_loop n fuel addr w old) (finish_loop_u n fuel addr w old).
Proof.
  induction n as [|n IH]; [by apply agrees_ret|]. apply agrees_same. intros [x|].
  - apply agrees_same. intros _. by apply agrees_ret.
  - apply follows_and_then; [apply drive_top_task_follows|]. intros [[x|]|]; [exact IH|..].
    + apply agrees_same. intros _. by apply agrees_ret.
    + by apply agrees_ret.
Qed.

Lemma tree_poll_finish_follows fuel addr w : follows (poll_finish fuel addr w) (poll_finish_u fuel addr w).
Proof. apply agrees_same. intros old. apply tree_finish_loop_follows. Qed.

Lemma tree_poll_step_follows fuel addr w : follows (poll_step fuel addr w) (poll_step_u fuel addr w).
Proof.
  apply agrees_same. intros old. apply agrees_same. intros [x|].
  - apply agrees_same. intros _. by apply agrees_ret.
  - apply follows_and_then; [apply drive_top_task_follows|]. intros [[x|]|]; [by apply agrees_ret| |by apply agrees_ret].
    apply agrees_same. intros _. by apply agrees_ret.
Qed.
End unwind.
