(* ===== verification/TreeInv.v ===== *)
(** * The invariant of the tree runtime

    What a [prog] denotes, what it costs to run, and the memory and futures that
    the scheduler's theorems ask for: every stack of a scope still denotes what
    it was made for. *)

From S2P Require Import Prelude Stack Schedular SchedularInv Tree TreeUnwind.
Import Schedular Tree.

(** The messages futures may panic with; one that did may be polled again.  There
    are none for programs that are [calm]. *)
Class Panics := {
  may_panic : string -> Prop;
  may_resume m : may_panic m -> may_panic resumed;
}.

Definition calm : Panics := {| may_panic _ := False; may_resume _ H := H |}.

(** ** Values *)
Section progs.
Context {V : Type}.
Implicit Types (p : prog V) (c : conf V) (fs : list (frame V)).

(** Induction on programs, with the futures of a scope. *)
Section ind.
Context (P : prog V -> Prop).
Context (HRet : forall v, P (TRet v)).
Context (HRun : forall q k, P q -> (forall v, P (k v)) -> P (TRun q k)).
Context (HScope : forall l k, Forall P l -> (forall vs, P (k vs)) -> P (TScope l k)).
Context (HYield : forall k, P k -> P (TYield k)).
Context (HAwait : forall e k, (forall v, P (k v)) -> P (TAwait e k)).
Context (HInTree : forall k, P k -> P (TInTree k)).
Context (HThrow : forall m, P (TThrow m)).

Fixpoint prog_all p : P p :=
  match p with
  | TRet v => HRet v
  | TRun q k => HRun q k (prog_all q) (fun v => prog_all (k v))
  | TScope l k =>
      HScope l k
        ((fix all l : Forall P l :=
            match l with
            | [] => Forall_nil_2 P
            | q :: l => Forall_cons_2 P q l (prog_all q) (all l)
            end) l)
        (fun vs => prog_all (k vs))
  | TYield k => HYield k (prog_all k)
  | TAwait e k => HAwait e k (fun v => prog_all (k v))
  | TInTree k => HInTree k (prog_all k)
  | TThrow m => HThrow m
  end.
End ind.

Section value.
(** The events that happen sooner or later. *)
Context {PN : Panics} (E : gmap nat V).

(** The value by plain recursion: the futures of a scope one after the other.  There
    is none when an event does not happen, or at a panic. *)
Fixpoint eval p : option V :=
  match p with
  | TRet v => Some v
  | TRun q k => v ← eval q; eval (k v)
  | TScope l k => vs ← mapM eval l; eval (k vs)
  | TYield k => eval k
  | TAwait e k => v ← E !! e; eval (k v)
  | TInTree k => eval k
  | TThrow _ => None
  end.

(** What is left to do: polls of tasks, wake-ups, and tasks to push. *)
Fixpoint cost p : nat :=
  match p with
  | TRet _ => 1
  | TRun q k => 2 + cost q + match eval q with Some v => cost (k v) | None => 0 end
  | TScope l k => 4 + list_sum (map cost l) + match mapM eval l with Some vs => cost (k vs) | None => 0 end
  | TYield k => cost k
  | TAwait e k => match E !! e with Some v => cost (k v) | None => 1 end
  | TInTree k => cost k
  | TThrow _ => 1
  end.

(** The panics that the recursion comes to, in one future of a scope or in another,
    are among those there may be. *)
Fixpoint covered p : Prop :=
  match p with
  | TRet _ => True
  | TRun q k => covered q /\ match eval q with Some v => covered (k v) | None => True end
  | TScope l k => foldr and True (map covered l) /\ match mapM eval l with Some vs => covered (k vs) | None => True end
  | TYield k => covered k
  | TAwait e k => match E !! e with Some v => covered (k v) | None => True end
  | TInTree k => covered k
  | TThrow m => may_panic m
  end.

Definition evals (l : list (prog V)) : option (list V) := mapM eval l.
Definition costs (l : list (prog V)) : nat := list_sum (map cost l).

(** A waker that will be called. *)
Definition wake_cost (n : option nat) : nat := match n with Some _ => 1 | None => 0 end.

Fixpoint eval_frames (o : option V) fs : option V :=
  match fs with
  | [] => o
  | (_, k) :: fs => eval_frames (v ← o; eval (k v)) fs
  end.
Fixpoint cost_frames (o : option V) fs : nat :=
  match fs with
  | [] => 0
  | (n, k) :: fs =>
      match o with
      | Some v => wake_cost n + cost (k v) + cost_frames (eval (k v)) fs
      | None => 0
      end
  end.
Fixpoint covered_frames (o : option V) fs : Prop :=
  match fs with
  | [] => True
  | (_, k) :: fs =>
      match o with
      | Some v => covered (k v) /\ covered_frames (eval (k v)) fs
      | None => True
      end
  end.

(** The futures of a scope that is awaited. *)
Definition scope_body (u : mem V) (s : scope_state V) : list (prog V) :=
  match s with
  | SInitial l => l
  | SRunning q _ => match scopes u !! q with Some sc => sc_body sc | None => [] end
  | SFinished => []
  end.

(** The value a task that awaits a scope goes on to. *)
Definition eval_scope (l : list (prog V)) (k : list V -> prog V) : option V := vs ← evals l; eval (k vs).
Definition cost_scope (l : list (prog V)) (k : list V -> prog V) : nat :=
  match evals l with Some vs => cost (k vs) | None => 0 end.
Definition covered_scope (l : list (prog V)) (k : list V -> prog V) : Prop :=
  match evals l with Some vs => covered (k vs) | None => True end.

Definition eval_conf (u : mem V) c : option V :=
  match c with
  | CCode p _ fs => eval_frames (eval p) fs
  | CScope s k _ fs => eval_frames (eval_scope (scope_body u s) k) fs
  | CBack v k _ fs => eval_frames (eval (k v)) fs
  | CDone v => Some v
  | CEmpty => None
  end.
Definition cost_conf (u : mem V) c : nat :=
  match c with
  | CCode p n fs => wake_cost n + cost p + cost_frames (eval p) fs
  | CScope s k n fs =>
      wake_cost n + cost_scope (scope_body u s) k + cost_frames (eval_scope (scope_body u s) k) fs
  | CBack v k n fs => wake_cost n + cost (k v) + cost_frames (eval (k v)) fs
  | CDone _ => 0
  | CEmpty => 0
  end.
Definition covered_conf (u : mem V) c : Prop :=
  match c with
  | CCode p _ fs => covered p /\ covered_frames (eval p) fs
  | CScope s k _ fs =>
      covered_scope (scope_body u s) k /\ covered_frames (eval_scope (scope_body u s) k) fs
  | CBack v k _ fs => covered (k v) /\ covered_frames (eval (k v)) fs
  | CDone _ => True
  | CEmpty => True
  end.

(** ** Memory *)

(** The scopes a stack awaits exist. *)
Definition conf_ok (u : mem V) c : Prop :=
  match c with
  | CScope (SRunning q _) _ _ _ => is_Some (scopes u !! q)
  | CScope _ _ _ _ => False
  | CEmpty => False
  | _ => True
  end.

(** What the memory keeps while it is used: the scopes stay, and events do not
    go away. *)
Definition mem_le (u u' : mem V) : Prop :=
  events u ⊆ events u' /\
  forall q sc, scopes u !! q = Some sc -> exists sc', scopes u' !! q = Some sc' /\ sc_body sc' = sc_body sc.

Record mem_ok (u : mem V) : Prop := {
  mo_events : events u ⊆ E;
  mo_places : forall q sc vs, scopes u !! q = Some sc -> sc_place sc = Some vs -> evals (sc_body sc) = Some vs;
}.

(** Futures may be polled in the context of a tree and of a stack that is not to
    yield. *)
Definition mem_in (u : mem V) : Prop := stack_ptr u = true /\ tree_ptr u = true /\ root_state u = Base.

(** ** Futures of tasks *)

(** The loops of a poll go round at most so often. *)
Context (fuel : nat).

Definition child_ok (u : mem V) (c : child V) p : Prop :=
  match c with
  | CFin v => eval p = Some v
  | CStk s =>
      conf_ok u (st_conf s) /\ st_state s = Base /\ (cost_conf u (st_conf s) < fuel)%nat /\
      eval_conf u (st_conf s) = eval p /\ covered_conf u (st_conf s)
  end.
Definition child_cost (u : mem V) (c : child V) : nat :=
  match c with CFin _ => 0 | CStk s => cost_conf u (st_conf s) end.
Definition children_cost (u : mem V) (cs : list (child V)) : nat := list_sum (map (child_cost u) cs).

Definition fut_fine (u : mem V) (f : fut V) : Prop :=
  match f with
  | TFut q cs _ => exists sc, scopes u !! q = Some sc /\ Forall2 (child_ok u) cs (sc_body sc)
  | TFDone => False
  end.
Definition fut_size (u : mem V) (f : fut V) : nat :=
  match f with TFut _ cs _ => 2 + children_cost u cs | TFDone => 1 end.

Definition tree_spec : FutureSpec (fut V) (mem V) :=
  {| uok := mem_ok; uin := mem_in; ule := mem_le; fok := fut_fine; fsize := fut_size;
     fpanics := may_panic |}.

(** ** Lemmas on values and costs *)

(** Where there is a value there is no panic on the way. *)
Lemma eval_covered p : is_Some (eval p) -> covered p.
Proof.
  induction p as [v|q k IHq IH|l k Hl IH|k IH|e k IH|k IH|m] using prog_all; intros [y Hy];
    cbn [eval covered] in *; try done; try by apply IH; eexists.
  - destruct (eval q) as [v|]; [|done]. split; [by apply IHq|by apply IH; exists y].
  - destruct (mapM eval l) as [vs|] eqn:Hvs; [|done]. split; [|by apply IH; exists y].
    clear Hy IH. revert vs Hvs. induction Hl as [|q l Hq _ IH]; [done|]. intros vs. cbn [mapM map foldr].
    destruct (eval q) as [v|]; [|done]. cbn [mbind option_bind]. destruct (mapM eval l) as [vs'|] eqn:Hl; [|done].
    intros _. split; [by apply Hq|by apply (IH vs')].
  - destruct (E !! e) as [v|]; [|done]. by apply IH; exists y.
Qed.

Lemma mem_le_refl u : mem_le u u.
Proof. split; [done|]. intros q sc Hq. by exists sc. Qed.

Lemma mem_le_trans u1 u2 u3 : mem_le u1 u2 -> mem_le u2 u3 -> mem_le u1 u3.
Proof.
  intros [He1 Hs1] [He2 Hs2]. split; [by etrans|].
  intros q sc Hq. destruct (Hs1 q sc Hq) as (sc1 & Hq1 & Hb1).
  destruct (Hs2 q sc1 Hq1) as (sc2 & Hq2 & Hb2). exists sc2. by rewrite Hb2.
Qed.

Lemma scope_body_le u u' q t :
  mem_le u u' -> is_Some (scopes u !! q) -> scope_body u' (SRunning q t) = scope_body u (SRunning q t).
Proof. intros [_ Hs] [sc Hq]. cbn. rewrite Hq. by destruct (Hs q sc Hq) as (sc' & -> & ->). Qed.

Lemma conf_le u u' c :
  mem_le u u' -> conf_ok u c ->
  conf_ok u' c /\ eval_conf u' c = eval_conf u c /\ cost_conf u' c = cost_conf u c /\
  covered_conf u' c = covered_conf u c.
Proof.
  intros Hle. destruct c as [p n fs|[l|q t|] k n fs|v k n fs|v|]; try done.
  cbn [conf_ok eval_conf cost_conf covered_conf]. intros Hq. rewrite (scope_body_le u u') by done.
  split; [|done]. destruct Hle as [_ Hs], Hq as [sc Hq]. by destruct (Hs q sc Hq) as (sc' & -> & _).
Qed.

Lemma child_le u u' ch p : mem_le u u' -> child_ok u ch p -> child_ok u' ch p /\ child_cost u' ch = child_cost u ch.
Proof.
  intros Hle. destruct ch as [s|v]; [|done]. cbn [child_ok child_cost]. intros (Hc & Hs & Hf & He).
  destruct (conf_le u u' _ Hle Hc) as (? & -> & -> & ->). done.
Qed.

Lemma children_cons u ch cs : children_cost u (ch :: cs) = (child_cost u ch + children_cost u cs)%nat.
Proof. done. Qed.

Lemma children_le u u' cs l :
  mem_le u u' -> Forall2 (child_ok u) cs l ->
  Forall2 (child_ok u') cs l /\ children_cost u' cs = children_cost u cs.
Proof.
  intros Hle. induction 1 as [|ch p cs l Hc _ [IH1 IH2]]; [done|].
  destruct (child_le _ _ _ _ Hle Hc) as [Hc' He]. split; [by constructor|]. by rewrite !children_cons, He, IH2.
Qed.
End value.
End progs.
