(* ===== verification/TreePoll.v ===== *)
(** * Polling in the tree runtime keeps values

    A step of a stack keeps the value its configuration denotes and lowers its
    cost, whatever the memory; so does a poll of the future of a scope, which is
    therefore one that the scheduler's theorems apply to.  A panic on the way is
    one that plain recursion comes to as well. *)

From S2P Require Import Prelude Stack Schedular SchedularInv SchedularUnwind SchedularUnwindSafe.
From S2P Require Import Tree TreeUnwind TreeInv.
Import Schedular Tree.

Section poll.
Context {V : Type} {PN : Panics} (E : gmap nat V) (fuel : nat).
Implicit Types (p : prog V) (c : conf V) (u : mem V).

#[local] Instance spec : FutureSpec (fut V) (mem V) := tree_spec E fuel.

Abbreviation eval := (eval E).
Abbreviation cost := (cost E).
Abbreviation cost_conf := (cost_conf E).
Abbreviation eval_conf := (eval_conf E).
Abbreviation covered := (covered E).
Abbreviation covered_conf := (covered_conf E).
Abbreviation mem_ok := (mem_ok E).

(** ** How the memory changes while one piece of code runs *)
Record steps u u' : Prop := {
  st_le : mem_le u u';
  st_stack : stack_ptr u' = stack_ptr u;
  st_tree : tree_ptr u' = tree_ptr u;
  st_events : events u' = events u;
  st_root : root_state u' = root_state u;
}.

Lemma steps_refl u : steps u u.
Proof. split; [apply mem_le_refl|done..]. Qed.

Lemma steps_trans u1 u2 u3 : steps u1 u2 -> steps u2 u3 -> steps u1 u3.
Proof. intros [] []. split; [by eapply mem_le_trans|congruence..]. Qed.

(** Changes of fields that are neither scopes nor events. *)
Lemma le_same u u' : scopes u' = scopes u -> events u' = events u -> mem_le u u'.
Proof. intros Hs He. split; [by rewrite He|]. intros q sc Hq. exists sc. by rewrite Hs. Qed.

Lemma ok_same u u' :
  scopes u' = scopes u -> events u' = events u -> mem_ok u -> mem_ok u'.
Proof. intros Hs He [? ?]. split; rewrite ?Hs, ?He; done. Qed.

Lemma steps_enter u u' :
  steps (set_stack_ptr true u) u' -> steps u (set_stack_ptr (stack_ptr u) u').
Proof. intros [Hl _ Ht He Hr]. by split. Qed.

(** Places. *)
Lemma put_place_ok u q o :
  mem_ok u ->
  (forall sc vs, scopes u !! q = Some sc -> o = Some vs -> evals E (sc_body sc) = Some vs) ->
  steps u (put_place q o u) /\ mem_ok (put_place q o u).
Proof.
  intros Hok Ho. unfold put_place. destruct (scopes u !! q) as [sc|] eqn:Hq; [|by split; [apply steps_refl|]].
  pose proof (lookup_lt_Some _ _ _ Hq) as Hlt. split.
  - split; [|done..]. split; [done|]. intros x sc' Hx. cbn.
    destruct (decide (x = q)) as [->|Hne].
    + eexists. rewrite list_lookup_insert_eq by done. split; [done|]. cbn. congruence.
    + exists sc'. by rewrite list_lookup_insert_ne.
  - destruct Hok as [He Hp]. split; [done|]. cbn. intros x sc' vs.
    destruct (decide (x = q)) as [->|Hne].
    + rewrite list_lookup_insert_eq by done. intros [= <-] Hvs. by apply (Ho sc).
    + rewrite list_lookup_insert_ne by done. apply Hp.
Qed.

Lemma new_place_ok u l :
  let u' := set_scopes (scopes u ++ [{| sc_body := l; sc_place := None |}]) u in
  mem_ok u -> steps u u' /\ mem_ok u' /\ scopes u' !! length (scopes u) = Some {| sc_body := l; sc_place := None |}.
Proof.
  intros u' [He Hp]. split_and!.
  - split; [|done..]. split; [done|]. intros q sc Hq. exists sc. cbn. by rewrite lookup_app_l by by eapply lookup_lt_Some.
  - split; [done|]. cbn. intros q sc vs [Hq|[_ Hq]]%lookup_app_Some; [by apply (Hp q)|].
    apply list_lookup_singleton_Some in Hq as [_ <-]. done.
  - cbn. by rewrite lookup_app_r, Nat.sub_diag.
Qed.

(** ** Rules for the pieces of a poll *)
Abbreviation ok := (act_safe (F := fut V) (U := mem V)).

Section pieces.
Context {R : Type} (pp : nat -> mem V -> string -> Prop) (post : nat -> mem V -> R -> Prop).
Implicit Types a : act (fut V) (mem V) R.

Lemma ok_with_context n u a : stack_ptr u = true -> ok pp post n u a -> ok pp post n u (with_context a).
Proof. intros Hp Ha. apply safe_get. by rewrite Hp. Qed.

Lemma ok_tree_with_context n u a : tree_ptr u = true -> ok pp post n u a -> ok pp post n u (tree_with_context a).
Proof. intros Hp Ha. apply safe_get. by rewrite Hp. Qed.

Lemma ok_enter_context n u a :
  mem_ok u ->
  ok (fun n u' m => mem_ok u' /\ pp n (set_stack_ptr (stack_ptr u) u') m)
    (fun n u' r => mem_ok u' /\ post n (set_stack_ptr (stack_ptr u) u') r) n (set_stack_ptr true u) a ->
  ok pp post n u (enter_context a).
Proof.
  intros Hok Ha. apply safe_get, safe_upd; [by apply le_same|by apply (ok_same u)|].
  apply act_safe_finally. eapply act_safe_mono; [..|exact Ha].
  all: intros n' u' r [Hok' Hr]; split; [by apply le_same|]; split; [by apply (ok_same u')|done].
Qed.

Lemma ok_register n u cx e a :
  mem_ok u -> (forall u', steps u u' -> mem_ok u' -> ok pp post n u' a) -> ok pp post n u (register cx e a).
Proof.
  intros Hok Ha. unfold register. destruct (cx_root cx) as [w|]; [|intros i].
  all: apply safe_upd; [by apply le_same|by apply (ok_same u)|].
  all: apply Ha; [|by apply (ok_same u)]; split; [by apply le_same|done..].
Qed.
End pieces.

(** ** Making a scope *)
Lemma costs_cons p l : costs E (p :: l) = (cost p + costs E l)%nat.
Proof. done. Qed.

Lemma costs_elem l p : p ∈ l -> (cost p <= costs E l)%nat.
Proof.
  induction l as [|q l IH]; [by intros ?%not_elem_of_nil|]. rewrite costs_cons.
  intros [->|Hp]%elem_of_cons; [lia|]. specialize (IH Hp). lia.
Qed.

Lemma new_children_ok u l :
  (costs E l < fuel)%nat -> foldr and True (map covered l) ->
  Forall2 (child_ok E fuel u) (map (fun p => CStk (scope_stk_new p)) l) l.
Proof.
  intros Hl. assert (H : forall p, p ∈ l -> (cost p < fuel)%nat).
  { intros p Hp%costs_elem. lia. }
  clear Hl. induction l as [|p l IH]; [by constructor|]. intros [Hp Hl]. constructor.
  - cbn. split_and!; try done. specialize (H p ltac:(left)). lia.
  - apply IH; [|done]. intros q Hq. apply H. by right.
Qed.

Lemma new_children_cost u l : children_cost E u (map (fun p => CStk (scope_stk_new p)) l) = costs E l.
Proof.
  induction l as [|p l IH]; [done|]. cbn [map]. rewrite children_cons, IH, costs_cons. cbn. lia.
Qed.

(** ** The code of a task

    [settled u0 m o]: what is known when the poll of a task that denotes [o] ends,
    if it began in memory [u0] and [m] is what others may do. *)
Definition settled u0 (m : nat) (o : option V) (n : nat) u (r : progress V * StackState) : Prop :=
  steps u0 u /\ mem_ok u /\
  match r with
  | (PFin v, st) => st = Base /\ o = Some v /\ (S m <= n)%nat
  | (PCall q i k, st) =>
      st = NewTask /\ o = (v ← eval q; eval (k v)) /\ covered (TRun q k) /\
      (1 + m + wake_cost i + cost q + match eval q with Some v => cost (k v) | None => 0 end <= n)%nat
  | (PBlock q, st) =>
      st = Base /\ o = eval q /\ covered q /\ (cost q + m <= n)%nat
  | (PScope s k, st) =>
      (exists q t, s = SRunning q t /\ is_Some (scopes u !! q)) /\
      o = eval_scope E (scope_body u s) k /\ covered_scope E (scope_body u s) k /\
      (st = NewTask /\ (S (cost_scope E (scope_body u s) k + m) <= n)%nat \/
       st = Base /\ (cost_scope E (scope_body u s) k + m <= n)%nat)
  end.

(** What is known when it panics; a task that does denotes nothing. *)
Definition broken u0 (m : nat) (n : nat) u (msg : string) : Prop :=
  steps u0 u /\ mem_ok u /\ may_panic msg /\ (m <= n)%nat.
Definition failed u0 m (o : option V) n u msg : Prop := o = None /\ broken u0 (S m) n u msg.

Lemma settled_steps u0 u1 m o n u r : steps u0 u1 -> settled u1 m o n u r -> settled u0 m o n u r.
Proof. intros Hs (Hs' & Hok & Hr). split; [by eapply steps_trans|]. by split. Qed.

Lemma broken_steps u0 u1 m n u msg : steps u0 u1 -> broken u1 m n u msg -> broken u0 m n u msg.
Proof. intros Hs (Hs' & Hr). split; [by eapply steps_trans|done]. Qed.

(** The memory a task runs with. *)
Definition running u : Prop := mem_ok u /\ stack_ptr u = true /\ tree_ptr u = true.

Lemma running_steps u u' : running u -> steps u u' -> mem_ok u' -> running u'.
Proof. intros (_ & Hs & Ht) [_ Hs' Ht' _ _] Hok. split; [done|]. by rewrite Hs', Ht'. Qed.

Lemma ok_new_scope pp cx ctx st l k m n u :
  running u -> (costs E l < fuel)%nat -> covered (TScope l k) ->
  (4 + costs E l + cost_scope E l k + m <= n)%nat ->
  ok pp (settled u m (eval_scope E l k)) n u
    (poll_scope cx ctx st (SInitial l) (fun _ s st => ARet (PScope s k, st))).
Proof.
  intros Hrun Hf [Hcl Hck] Hn. pose proof Hrun as (Hok & Hsp & Htp). cbn [poll_scope]. unfold new_place.
  destruct (new_place_ok u l Hok) as (Hst & Hok' & Hq). apply safe_get, safe_upd; [by apply st_le|done|].
  set (u' := set_scopes _ _) in *. set (q := length (scopes u)) in *.
  assert (Hend : forall w (i : list nat) , ok pp (settled u m (eval_scope E l k)) n u'
     (ASpawn (TFut q (map (fun p => CStk (scope_stk_new p)) l) w) i (fun t => ARet (PScope (SRunning q t) k, NewTask)))).
  { intros w i. set (f := TFut q _ w).
    assert (Hs : fsize u' f = (2 + costs E l)%nat) by exact (f_equal (Nat.add 2) (new_children_cost u' l)).
    replace n with (S (fsize u' f + (n - S (2 + costs E l)))) by lia. apply safe_spawn.
    { eexists. split; [exact Hq|]. by apply new_children_ok. }
    intros t. apply safe_ret. split; [done|]. split; [done|]. split; [exists q, t; split; [done|by eexists]|].
    assert (Hb : scope_body u' (SRunning q t) = l) by (unfold scope_body; by rewrite Hq).
    rewrite Hb. split; [done|]. split; [done|]. left. split; [done|]. lia. }
  apply ok_with_context; [done|]. destruct (_ =? _)%Z; apply ok_tree_with_context; try done.
  apply safe_clone. intros i. apply Hend.
Qed.

Lemma exec_ok cx ctx p : forall u m n,
  running u -> (cost p <= fuel)%nat -> covered p -> (cost p + m <= n)%nat ->
  ok (failed u m (eval p)) (settled u m (eval p)) n u (exec cx ctx Base p).
Proof.
  induction p as [v|q k _ _|l k _ _|k IH|e k IH|k IH|msg] using prog_all; intros u m n Hrun Hf Hcov Hn;
    pose proof Hrun as (Hok & Hsp & Htp).
  - apply safe_ret. split; [apply steps_refl|]. split; [done|]. cbn in Hn. split_and!; [done..|lia].
  - cbn [exec]. apply ok_with_context; [done|]. cbn [TreeInv.cost] in Hn.
    assert (Hend : forall i, ok (failed u m (eval (TRun q k))) (settled u m (eval (TRun q k))) n u (ARet (PCall q i k, NewTask))).
    { intros i. apply safe_ret. split; [apply steps_refl|]. split; [done|]. split_and!; try done; try apply Hcov.
      destruct i; cbn [wake_cost]; lia. }
    destruct (_ =? _)%Z; [apply Hend|]. apply safe_clone. intros i. apply Hend.
  - apply ok_new_scope; [done|..|done|].
    + cbn [TreeInv.cost] in Hf. fold (costs E l) in Hf. lia.
    + exact Hn.
  - cbn [exec]. apply ok_with_context; [done|]. by apply IH.
  - cbn [exec]. apply safe_get. pose proof Hok as [He _]. destruct (events u !! e) as [v|] eqn:Hv.
    + pose proof (lookup_weaken _ _ _ _ Hv He) as HE. cbn [TreeInv.cost TreeInv.covered] in Hn, Hf, Hcov.
      rewrite HE in Hn, Hf, Hcov. cbn [TreeInv.eval]. rewrite HE. by apply IH.
    + apply ok_register; [done|]. intros u' Hst Hok'. apply safe_ret. split; [done|]. split; [done|]. by split_and!.
  - cbn [exec]. apply ok_tree_with_context; [done|]. by apply IH.
  - apply safe_panic. split; [done|]. split; [apply steps_refl|]. split; [done|]. split; [exact Hcov|].
    cbn in Hn. lia.
Qed.

(** ** Driving a stack *)
Definition driven u0 (c0 : conf V) (m : nat) (n : nat) u (r : poll bool * stack V) : Prop :=
  steps u0 u /\ mem_ok u /\ conf_ok u (st_conf r.2) /\ st_state r.2 = Base /\
  (eval_conf u (st_conf r.2) = eval_conf u0 c0 /\ covered_conf u (st_conf r.2)) /\
  ((r.1 = Ready false /\ (cost_conf u (st_conf r.2) < cost_conf u0 c0)%nat \/
    r.1 = Pending /\ (cost_conf u (st_conf r.2) <= cost_conf u0 c0)%nat /\
    (forall v, st_conf r.2 <> CDone v)) /\
   (cost_conf u (st_conf r.2) + m <= n)%nat).

(** After a panic the task that was polled is poisoned. *)
Definition crashed u0 (c0 : conf V) (m : nat) (n : nat) u (msg : string) : Prop :=
  eval_conf u0 c0 = None /\ (cost_conf u (poison c0) <= cost_conf u0 c0)%nat /\
  broken u0 (cost_conf u (poison c0) + m) n u msg.

(** The task on top, in the midst of its poll: [o] is what it denotes. *)
Definition top_value u c : option V :=
  match c with
  | CCode p _ _ => eval p
  | CScope s k _ _ => eval_scope E (scope_body u s) k
  | CBack v k _ _ => eval (k v)
  | CDone _ | CEmpty => None
  end.
Definition top_cost u c : nat :=
  match c with
  | CCode p _ _ => cost p
  | CScope s k _ _ => cost_scope E (scope_body u s) k
  | CBack v k _ _ => cost (k v)
  | CDone _ | CEmpty => 0
  end.
Definition top_covered u c : Prop :=
  match c with
  | CCode p _ _ => covered p
  | CScope s k _ _ => covered_scope E (scope_body u s) k
  | CBack v k _ _ => covered (k v)
  | CDone _ | CEmpty => True
  end.
Definition has_task c : Prop := match c with CDone _ | CEmpty => False | _ => True end.

Lemma conf_split u c :
  has_task c ->
  eval_conf u c = eval_frames E (top_value u c) (top_task c).2 /\
  cost_conf u c = (wake_cost (top_task c).1 + top_cost u c + cost_frames E (top_value u c) (top_task c).2)%nat /\
  covered_conf u c = (top_covered u c /\ covered_frames E (top_value u c) (top_task c).2).
Proof. by destruct c. Qed.

(** Where there is no value, the callers do not go on. *)
Lemma frames_none fs : eval_frames E None fs = None /\ cost_frames E None fs = 0%nat /\ covered_frames E None fs.
Proof. induction fs as [|[n k] fs IH]; [done|]. cbn. split; [apply IH|done]. Qed.

Lemma poison_split u c :
  has_task c -> conf_ok u (poison c) /\ eval_conf u (poison c) = None /\
    cost_conf u (poison c) = S (wake_cost (top_task c).1) /\
    forall m, may_panic m -> covered_conf u (poison c).
Proof.
  assert (H : forall n fs, eval_conf u (CCode poisoned n fs) = None /\
    cost_conf u (CCode poisoned n fs) = S (wake_cost n) /\
    forall m, may_panic m -> covered_conf u (CCode poisoned n fs)).
  { intros n fs. cbn. destruct (frames_none fs) as (-> & -> & H). split; [done|]. split; [lia|].
    intros m Hm. split; [exact (may_resume m Hm)|done]. }
  destruct c as [p n fs|s k n fs|v k n fs|v|]; try done; intros _; (split; [done|apply H]).
Qed.

Lemma drive_task_ok cx ctx c u m n :
  running u -> conf_ok u c -> has_task c -> (top_cost u c <= fuel)%nat -> top_covered u c ->
  (top_cost u c + m <= n)%nat ->
  ok (failed u m (top_value u c)) (settled u m (top_value u c)) n u (drive_task cx ctx Base c).
Proof.
  intros Hrun Hc Ht Hf Hcov Hn. destruct c as [p i fs|s k i fs|v k i fs|v|]; try done;
    cbn [drive_task top_value top_cost top_covered] in *.
  - by apply exec_ok.
  - destruct s as [l|q t|]; try done. cbn [poll_scope]. unfold take_place. apply safe_get.
    destruct Hc as [sc Hq]. rewrite Hq. pose proof Hrun as (Hok & Hsp & Htp).
    destruct (put_place_ok u q None Hok ltac:(done)) as [Hst Hok'].
    apply safe_upd; [by apply st_le|done|]. set (u' := put_place q None u) in *.
    assert (Hb : scope_body u (SRunning q t) = sc_body sc) by (cbn; by rewrite Hq).
    rewrite Hb in *. destruct (sc_place sc) as [vs|] eqn:Hp.
    + apply safe_drop. pose proof (mo_places _ _ Hok q sc vs Hq Hp) as Hvs.
      unfold eval_scope, cost_scope, covered_scope in *. rewrite Hvs in *. cbn [mbind option_bind].
      eapply act_safe_mono; [..|apply (exec_ok cx ctx (k vs) u' m n); [by eapply running_steps|done..]].
      * intros n' u'' msg [Ho Hbr]. split; [done|]. by eapply broken_steps.
      * intros n' u'' r. by apply settled_steps.
    + assert (Hb' : scope_body u' (SRunning q t) = sc_body sc).
      { rewrite <- Hb. apply scope_body_le; [apply Hst|by eexists]. }
      apply safe_ret. split; [done|]. split; [done|]. rewrite Hb'. split; [|by split_and!; [..|right]].
      exists q, t. split; [done|]. destruct Hst as [[_ Hs] _ _ _ _]. destruct (Hs q sc Hq) as (sc' & -> & _). by eexists.
  - by apply exec_ok.
Qed.

(** What the caller of the task on top is left with. *)
Lemma return_to_value u v fs :
  eval_conf u (return_to v fs) = eval_frames E (Some v) fs /\
  cost_conf u (return_to v fs) = cost_frames E (Some v) fs /\ conf_ok u (return_to v fs) /\
  (covered_frames E (Some v) fs -> covered_conf u (return_to v fs)).
Proof. by destruct fs as [|[n k] fs]. Qed.

Lemma call_value u q i n k fs :
  eval_conf u (CCode q i ((n, k) :: fs)) = eval_frames E (v ← eval q; eval (k v)) fs /\
  (cost_conf u (CCode q i ((n, k) :: fs)) <=
     wake_cost i + cost q + match eval q with Some v => cost (k v) | None => 0 end +
     (wake_cost n + cost_frames E (v ← eval q; eval (k v)) fs))%nat /\
  (covered (TRun q k) -> covered_frames E (v ← eval q; eval (k v)) fs ->
     covered_conf u (CCode q i ((n, k) :: fs))).
Proof.
  split; [done|]. cbn [TreeInv.cost_conf cost_frames TreeInv.covered_conf covered_frames TreeInv.covered].
  destruct (eval q) as [v|]; cbn [mbind option_bind]; (split; [lia|tauto]).
Qed.

(** The end of a step whose task is not over: a call, or a wait. *)
Lemma after_pending_ok pp s0 s u0 u m n :
  steps u0 (set_stack_ptr (stack_ptr u0) u) -> mem_ok u -> conf_ok u (st_conf s) -> has_task (st_conf s) ->
  eval_conf u (st_conf s) = eval_conf u0 (st_conf s0) -> covered_conf u (st_conf s) ->
  (n <= cost_conf u0 (st_conf s0) + m)%nat ->
  (st_state s = NewTask /\ (S (cost_conf u (st_conf s) + m) <= n)%nat \/
   st_state s = Base /\ (cost_conf u (st_conf s) + m <= n)%nat) ->
  ok pp (fun n u' r => mem_ok u' /\ driven u0 (st_conf s0) m n (set_stack_ptr (stack_ptr u0) u') r) n u
    (after_pending s).
Proof.
  intros Hst Hok Hc Ht He Hcov Hn Hcost. unfold after_pending.
  assert (Hok2 : mem_ok (set_stack_ptr (stack_ptr u0) u)) by by apply (ok_same u).
  assert (Hsame : forall c, cost_conf (set_stack_ptr (stack_ptr u0) u) c = cost_conf u c) by done.
  destruct Hcost as [[-> Hcost]|[Hst' Hcost]]; [|rewrite Hst'].
  all: apply safe_ret; split; [done|]; split; [done|]; cbn [fst snd st_conf st_state]; rewrite ?Hsame.
  - split_and!; try done; [left; split; [done|]; lia|lia].
  - split_and!; try done. right. split_and!; [done|lia|]. by intros v; destruct (st_conf s).
Qed.

(** The end of a step whose task has returned [v]. *)
Lemma after_return_ok pp s0 a v n fs u0 u m k :
  steps u0 (set_stack_ptr (stack_ptr u0) u) -> mem_ok u ->
  eval_frames E (Some v) fs = eval_conf u0 (st_conf s0) -> covered_frames E (Some v) fs ->
  (k <= cost_conf u0 (st_conf s0) + m)%nat -> (S (wake_cost n + cost_frames E (Some v) fs + m) <= k)%nat ->
  ok pp (fun n u' r => mem_ok u' /\ driven u0 (st_conf s0) m n (set_stack_ptr (stack_ptr u0) u') r) k u
    (let done := ARet (Ready false, {| st_conf := return_to v fs; st_state := Base; st_context := a |}) in
     match n with Some i => AWake i done | None => done end).
Proof.
  intros Hst Hok He Hcov Hk Hle. destruct (return_to_value (set_stack_ptr (stack_ptr u0) u) v fs) as (He' & Hc' & Hco' & Hcov').
  assert (Hok2 : mem_ok (set_stack_ptr (stack_ptr u0) u)) by by apply (ok_same u).
  assert (Hend : forall n2, (wake_cost n + n2 = k)%nat ->
    ok pp (fun n u' r => mem_ok u' /\ driven u0 (st_conf s0) m n (set_stack_ptr (stack_ptr u0) u') r) n2 u
      (ARet (Ready false, {| st_conf := return_to v fs; st_state := Base; st_context := a |}))).
  { intros n2 Hn2. apply safe_ret. split; [done|]. split; [done|]. cbn [fst snd st_conf st_state].
    rewrite He', Hc'. split_and!; try done; [by apply Hcov'|left; split; [done|]|]; lia. }
  destruct n as [i|]; [|by apply (Hend k)]. cbn [wake_cost] in *.
  replace k with (S (pred k)) by lia. apply safe_wake, Hend. cbn. lia.
Qed.

Lemma drive_stack_ok cx s u m :
  mem_ok u -> tree_ptr u = true -> conf_ok u (st_conf s) -> has_task (st_conf s) -> st_state s = Base ->
  (cost_conf u (st_conf s) <= fuel)%nat -> covered_conf u (st_conf s) ->
  ok (crashed u (st_conf s) m) (driven u (st_conf s) m) (cost_conf u (st_conf s) + m) u (drive_stack cx s).
Proof.
  intros Hok Htp Hc Ht Hst Hf Hcov. unfold drive_stack.
  destruct (conf_split u _ Ht) as (Hev & Hco & Hcv). rewrite Hcv in Hcov. destruct Hcov as [Hctop Hcfs].
  destruct (poison_split u _ Ht) as (_ & _ & Hpc & _).
  destruct (top_task (st_conf s)) as [n fs] eqn:Htop. cbn [fst snd] in *.
  set (o := top_value u (st_conf s)) in *. set (m0 := (wake_cost n + cost_frames E o fs + m)%nat).
  apply ok_enter_context; [done|]. rewrite Hst. apply act_safe_bind.
  eapply act_safe_mono; [..|apply act_safe_le, (drive_task_ok cx (st_context s) (st_conf s) _ m0);
    [split; [by apply (ok_same u)|done]|by destruct (st_conf s) as [|[]|?|?|]|done|..]].
  4: exact Hctop.
  3,4: change (top_cost (set_stack_ptr true u) (st_conf s)) with (top_cost u (st_conf s)); lia.
  { intros n' u' msg [Hn' (Ho & Hsteps & Hok' & Hmsg & Hle)].
    change (top_value (set_stack_ptr true u) (st_conf s)) with o in Ho. split; [done|].
    rewrite Ho in Hev. split; [by rewrite Hev; apply frames_none|].
    change (cost_conf (set_stack_ptr _ u') (poison (st_conf s))) with (cost_conf u' (poison (st_conf s))).
    destruct (poison_split u' _ Ht) as (_ & _ & -> & _). rewrite Htop. cbn [fst]. split; [lia|].
    split; [by apply steps_enter|]. split; [by apply (ok_same u')|]. split; [done|]. lia. }
  intros n' u' [p st] [Hn' (Hsteps & Hok' & Hp)]. change (top_value (set_stack_ptr true u) (st_conf s)) with o in Hp.
  pose proof (steps_enter _ _ Hsteps) as Hsteps'. destruct p as [v|q i k|q|sc k].
  - destruct Hp as (-> & Hv & Hle). unfold m0 in Hle. rewrite Hv in Hev, Hco, Hcfs, Hle.
    apply (after_return_ok _ s); [done..|lia|lia].
  - destruct Hp as (-> & Ho & Hcq & Hle). destruct (call_value u' q i n k fs) as (He' & Hc' & Hcv').
    rewrite <- Ho in He', Hc', Hcv'.
    apply (after_pending_ok _ s); cbn [st_conf st_state]; try done; [by rewrite He', Hev|by apply Hcv'|]. left. split; [done|]. lia.
  - destruct Hp as (-> & Ho & Hcq & Hle). apply (after_pending_ok _ s); try done; cbn [st_conf].
    + cbn [TreeInv.eval_conf]. by rewrite <- Ho, Hev.
    + cbn [TreeInv.covered_conf]. by rewrite <- Ho.
    + right. split; [done|]. cbn [TreeInv.cost_conf]. rewrite <- Ho. lia.
  - destruct Hp as ((q & t & -> & Hq) & Ho & Hcq & Hcost). apply (after_pending_ok _ s); try done; cbn [st_conf].
    + cbn [TreeInv.eval_conf]. by rewrite <- Ho, Hev.
    + cbn [TreeInv.covered_conf]. by rewrite <- Ho.
    + cbn [TreeInv.cost_conf]. rewrite <- Ho.
      destruct Hcost as [[-> ?]|[-> ?]]; [left|right]; (split; [done|]); lia.
Qed.

(** ** Futures in a scope *)
(** What is left of a future after its poll. *)
Definition polled u0 p (m n : nat) u (r : poll V * stack V) : Prop :=
  steps u0 u /\ mem_ok u /\
  child_ok E fuel u (match r.1 with Ready v => CFin v | Pending => CStk r.2 end) p /\
  (child_cost E u (match r.1 with Ready v => CFin v | Pending => CStk r.2 end) + m <= n)%nat.

Lemma scope_stk_loop_ok cx p x s u m :
  mem_ok u -> tree_ptr u = true -> child_ok E fuel u (CStk s) p -> (cost_conf u (st_conf s) < x)%nat ->
  ok (broken u m) (polled u p m) (cost_conf u (st_conf s) + m) u (scope_stk_loop x cx s).
Proof.
  revert s u m. induction x as [|x IH]; intros s u m Hok Htp (Hc & Hst & Hf & He & Hcov) Hx; [lia|].
  cbn [scope_stk_loop].
  assert (Hdone : (exists v, st_conf s = CDone v) \/ try_result s = (None, s) /\ has_task (st_conf s)).
  { unfold try_result. destruct (st_conf s) as [q i fs|sc k i fs|v k i fs|v|]; try (by right). left. by exists v. }
  destruct Hdone as [[v Hv]|[-> Ht]].
  { unfold try_result. rewrite Hv in *. apply safe_ret. cbn in He. split; [apply steps_refl|]. split; [done|].
    split; [exact (eq_sym He)|]. cbn. lia. }
  apply act_safe_bind. eapply act_safe_mono; [..|apply (drive_stack_ok cx s u m); try done; lia].
  { intros n' u' msg (_ & _ & Hst' & Hok' & Hmsg & Hle). split_and!; [apply Hst'|apply Hst'..|done|done|lia]. }
  intros n' u' [r s'] (Hsteps & Hok' & Hc' & Hst' & [He' Hcov'] & Hr & Hn'). cbn [fst snd] in *.
  assert (Hch : (cost_conf u' (st_conf s') <= cost_conf u (st_conf s))%nat -> child_ok E fuel u' (CStk s') p).
  { intros Hle. split_and!; [done|done|lia|by rewrite He', He|done]. }
  destruct Hr as [[-> Hlt]|(-> & Hle & _)].
  - replace n' with (cost_conf u' (st_conf s') + (n' - cost_conf u' (st_conf s')))%nat by lia.
    eapply act_safe_mono; [..|apply IH; [done|by rewrite (st_tree _ _ Hsteps)|apply Hch; lia|lia]].
    + intros n2 u2 msg (Hst2 & Hok2 & Hmsg & Hle). split; [by eapply steps_trans|]. split; [done|]. split; [done|]. lia.
    + intros n2 u2 r (Hsteps2 & Hok2 & Hc2 & Hn2). split; [by eapply steps_trans|]. split; [done|]. split; [done|]. lia.
  - apply safe_ret. split; [done|]. split; [done|]. split; [by apply Hch|done].
Qed.

Lemma poll_scope_stk_ok cx p s u m :
  mem_ok u -> mem_in u -> child_ok E fuel u (CStk s) p ->
  ok (broken u m) (polled u p m) (cost_conf u (st_conf s) + m) u (poll_scope_stk fuel cx s).
Proof.
  intros Hok (Hsp & Htp & Hroot) Hc. unfold poll_scope_stk. apply ok_with_context; [done|]. apply safe_get.
  rewrite decide_False by by rewrite Hroot.
  apply ok_enter_context; [done|]. pose proof Hc as (_ & _ & Hf & _).
  eapply act_safe_mono; [..|apply (scope_stk_loop_ok cx p fuel s (set_stack_ptr true u) m);
    [by apply (ok_same u)|done|exact Hc|exact Hf]].
  - intros n' u' msg (Hsteps & Hok' & Hmsg & Hle). split; [done|].
    split; [by apply steps_enter|]. split; [by apply (ok_same u')|]. by split.
  - intros n' u' r (Hsteps & Hok' & Hch & Hn'). split; [done|].
    split; [by apply steps_enter|]. split; [by apply (ok_same u')|]. by split.
Qed.

Lemma in_steps u u' : steps u u' -> mem_in u -> mem_in u'.
Proof. intros [_ H1 H2 _ H3] (? & ? & ?). split_and!; congruence. Qed.

Lemma poll_children_ok cx cs l : forall u m,
  mem_ok u -> mem_in u -> Forall2 (child_ok E fuel u) cs l ->
  ok (broken u m)
    (fun n u' cs' => steps u u' /\ mem_ok u' /\ Forall2 (child_ok E fuel u') cs' l /\
        (children_cost E u' cs' + m <= n)%nat)
    (children_cost E u cs + m) u (poll_children fuel cx cs).
Proof.
  induction cs as [|ch cs IH] in l |- *; intros u m Hok Hin Hcs; inversion Hcs as [|? p ? l' Hch Hcs']; subst.
  { apply safe_ret. split; [apply steps_refl|]. split; [done|]. by split. }
  rewrite children_cons. destruct ch as [s|v]; cbn [poll_children child_cost]; apply act_safe_bind.
  - rewrite <- Nat.add_assoc.
    eapply act_safe_mono; [..|by apply (poll_scope_stk_ok cx p s u)].
    { intros n1 u1 msg (Hst1 & Hok1 & Hmsg & Hle). split_and!; [apply Hst1..|done|done|lia]. }
    intros n1 u1 [r s'] (Hst1 & Hok1 & Hch1 & Hn1).
    cbn [fst snd] in *. set (ch' := match r with Ready v => CFin v | Pending => CStk s' end) in *.
    destruct (children_le E fuel u u1 cs l' (st_le _ _ Hst1) Hcs') as [Hcs1 Hco1].
    apply act_safe_bind. replace n1 with (children_cost E u1 cs + (n1 - children_cost E u1 cs))%nat by lia.
    eapply act_safe_mono; [..|apply IH; [done|by eapply in_steps|done]].
    { intros n2 u2 msg (Hst2 & Hok2 & Hmsg & Hle). split; [by eapply steps_trans|]. split; [done|]. split; [done|lia]. }
    intros n2 u2 cs2 (Hst2 & Hok2 & Hcs2 & Hn2). apply safe_ret.
    destruct (child_le E fuel u1 u2 ch' p (st_le _ _ Hst2) Hch1) as [Hch2 Hco2].
    split; [by eapply steps_trans|]. split; [done|]. split; [by constructor|].
    rewrite children_cons, Hco2. lia.
  - eapply act_safe_mono; [..|by apply (IH l')]; [done|]. intros n1 u1 cs1 (Hst1 & Hok1 & Hcs1 & Hn1). apply safe_ret.
    split; [done|]. split; [done|]. split; [by constructor|]. by rewrite children_cons.
Qed.

(** Futures that are ready have the values of the scope. *)
Lemma finished_value u cs l vs :
  Forall2 (child_ok E fuel u) cs l -> finished cs = Some vs -> evals E l = Some vs /\ children_cost E u cs = 0%nat.
Proof.
  intros Hcs. revert vs. unfold finished, evals. induction Hcs as [|ch p cs l Hch _ IH]; intros vs; cbn [mapM].
  { by intros [= <-]. }
  destruct ch as [s|v]; [done|]. cbn [mbind option_bind] in *.
  destruct (mapM _ cs) as [vs'|] eqn:Hm; [|done]. intros [= <-]. destruct (IH _ eq_refl) as [Hvs Hco].
  cbn in Hch. cbn. rewrite Hch. cbn. change (mapM eval l) with (evals E l) in *. unfold evals in *. by rewrite Hvs.
Qed.

Lemma tree_poll_fut_ok addr cx f u :
  mem_ok u -> mem_in u -> fut_fine E fuel u f ->
  ok (fun n u m => poll_ok (FU := tree_future fuel addr) n u None /\ may_panic m)
    (poll_ok (FU := tree_future fuel addr)) (fut_size E u f) u (poll_fut fuel cx f).
Proof.
  intros Hok Hin Hf. destruct f as [q cs w|]; [|done]. destruct Hf as (sc & Hq & Hcs). cbn [poll_fut fut_size].
  apply act_safe_bind. rewrite Nat.add_comm.
  eapply act_safe_mono; [..|by apply (poll_children_ok cx cs (sc_body sc) u 2)].
  { intros n u' msg (Hst & Hok' & Hmsg & Hn). split; [|done]. split; [by eapply in_steps|]. cbn. lia. }
  intros n u' cs' (Hst & Hok' & Hcs' & Hn). pose proof Hst as [[_ Hsc] _ _ _ _].
  destruct (Hsc q sc Hq) as (sc' & Hq' & Hb). rewrite <- Hb in Hcs'.
  apply (in_steps _ _ Hst) in Hin.
  destruct (finished cs') as [vs|] eqn:Hfin.
  - destruct (finished_value _ _ _ _ Hcs' Hfin) as [Hvs Hco].
    destruct (put_place_ok u' q (Some vs) Hok') as [Hst2 Hok2].
    { intros sc2 vs2 Hq2 [= <-]. rewrite Hq' in Hq2. by injection Hq2 as <-. }
    apply safe_upd; [apply Hst2|done|]. apply (in_steps _ _ Hst2) in Hin.
    destruct w as [i|]; [|apply safe_ret; split; [done|]; cbn; lia].
    replace n with (S (pred n)) by lia. apply safe_wake, safe_ret. split; [done|]. cbn. lia.
  - apply safe_ret. split; [done|]. split; [by exists sc'|].
    change (fsize u') with (fut_size E u'). cbn [fut_size]. lia.
Qed.

(** The futures of scopes are ones the scheduler's theorems are about. *)
Lemma tree_future_laws : FutureLaws (fut V) (mem V).
Proof.
  split; cbn [ule uok fok uin fsize spec tree_spec].
  - apply mem_le_refl.
  - apply mem_le_trans.
  - intros u u' [q cs w|] Hle; [|done]. intros (sc & Hq & Hcs). destruct (proj2 Hle q sc Hq) as (sc' & Hq' & Hb).
    exists sc'. split; [done|]. rewrite Hb. by apply (children_le E fuel u).
  - intros u u' [q cs w|] Hle; [|done]. intros (sc & Hq & Hcs). cbn [fut_size]. f_equal.
    by apply (children_le E fuel u u' cs (sc_body sc)).
  - intros u [q cs w|]; cbn [fut_size]; lia.
Qed.

Lemma tree_future_ok_u addr : FutureOkU (fut V) (mem V) (FU := tree_future fuel addr).
Proof. split; [apply tree_future_laws|]. intros u f Hok Hin Hf. by apply tree_poll_fut_ok. Qed.
End poll.

(** ** Calm programs do not panic *)
Section calm.
Context {V : Type} (E : gmap nat V) (fuel : nat).
#[local] Existing Instance calm.
#[local] Instance calm_spec : FutureSpec (fut V) (mem V) := tree_spec E fuel.

Lemma calm_drive_stack_ok cx (s : stack V) u m :
  mem_ok E u -> tree_ptr u = true -> conf_ok u (st_conf s) -> has_task (st_conf s) -> st_state s = Base ->
  (cost_conf E u (st_conf s) <= fuel)%nat -> covered_conf E u (st_conf s) ->
  act_ok (driven E u (st_conf s) m) (cost_conf E u (st_conf s) + m) u (drive_stack cx s).
Proof. intros. eapply act_safe_ok; [|by apply drive_stack_ok]. by intros n u' msg (_ & _ & _ & _ & [] & _). Qed.

Lemma calm_poll_scope_stk_ok cx p (s : stack V) u m :
  mem_ok E u -> mem_in u -> child_ok E fuel u (CStk s) p ->
  act_ok (polled E fuel u p m) (cost_conf E u (st_conf s) + m) u (poll_scope_stk fuel cx s).
Proof. intros. eapply act_safe_ok; [|by apply poll_scope_stk_ok]. by intros n u' msg (_ & _ & [] & _). Qed.

Lemma tree_future_ok addr : FutureOk (fut V) (mem V) (FU := tree_future fuel addr).
Proof. apply no_panics_ok; [apply tree_future_ok_u|]. exact (fun _ H => H). Qed.
End calm.
