(* ===== verification/TreeSafe.v ===== *)
(** * The operations of a [TreeStack] keep its invariant

    The root keeps the value it was entered with, every poll ends, and the work
    left bounds the rounds of its loops.  This is shown of the operations of
    [TreeUnwind], for programs that may panic; those of [Tree] do the same for calm
    programs. *)

From S2P Require Import Prelude Exc Stack Schedular SchedularInv SchedularSafe SchedularPoll.
From S2P Require Import SchedularUnwind SchedularUnwindSafe Tree TreeUnwind TreeInv TreePoll.
Import Schedular Tree.

Section tree.
Context {V : Type} {PN : Panics} (E : gmap nat V) (b : nat) (task_addr : Z).

#[local] Instance fu : Future (fut V) (mem V) := tree_future b task_addr.
#[local] Instance fs : FutureSpec (fut V) (mem V) := tree_spec E b.
#[local] Instance fo : FutureOkU (fut V) (mem V) := tree_future_ok_u E b task_addr.

Abbreviation eval := (eval E).
Abbreviation cost := (cost E).
Abbreviation cost_conf := (cost_conf E).
Abbreviation eval_conf := (eval_conf E).

Context (P : string -> Prop).

Definition mem_of (t : tree V) : mem V := user (sch t).

(** The scheduler keeps its invariant; [sp] and [tp] are the thread local
    pointers. *)
Record tree_core (sp tp : bool) (t : tree V) : Prop := {
  tc_sched : exists L held, sinv (sch t) L at_rest held;
  tc_alive : queue_alive (sch t) = true;
  tc_stack : stack_ptr (mem_of t) = sp;
  tc_tree : tree_ptr (mem_of t) = tp;
  tc_state : root_state (mem_of t) = Base;
}.

(** The root has a task or a result, which denotes [o]. *)
Record root_is (o : option V) (t : tree V) : Prop := {
  ri_ok : conf_ok (mem_of t) (root_conf t);
  ri_value : eval_conf (mem_of t) (root_conf t) = o;
  ri_fuel : (cost_conf (mem_of t) (root_conf t) <= b)%nat;
  ri_covered : covered_conf E (mem_of t) (root_conf t);
}.

(** What is left to do by the root, and by everything. *)
Definition root_work (t : tree V) : nat := cost_conf (mem_of t) (root_conf t).
Definition work (t : tree V) : nat := pot (sch t) + 2 * root_work t.

(** ** Running parts of the state *)
Lemma wp_on_sched {B} (c : M (sched (fut V) (mem V)) B) t (Q : B -> tree V -> Prop) :
  wpe c (sch t) (fun r s => Q r (set_sch s t)) P -> wpe (on_sched c) t Q P.
Proof. unfold wpe, on_sched. by destruct (c (sch t)) as [[r s]|m|]. Qed.

Lemma set_sch_same (t : tree V) : set_sch (sch t) t = t.
Proof. by destruct t. Qed.

Lemma mem_ok_core sp tp t : tree_core sp tp t -> mem_ok E (mem_of t).
Proof. intros [(L & held & Hinv) _ _ _ _]. apply (s_users _ _ _ _ Hinv). Qed.

(** The memory changes as it may while code runs. *)
Definition on_mem (f : mem V -> mem V) (t : tree V) : tree V :=
  set_sch (set_user (f (mem_of t)) (sch t)) t.

Lemma wp_upd_mem f t (Q : unit -> tree V -> Prop) : Q tt (on_mem f t) -> wpe (upd_mem f) t Q P.
Proof. intros HQ. apply wp_on_sched, wpe_modify, HQ. Qed.

Lemma core_mem f sp tp sp' tp' t :
  tree_core sp tp t -> mem_le (mem_of t) (f (mem_of t)) -> mem_ok E (f (mem_of t)) ->
  stack_ptr (f (mem_of t)) = sp' -> tree_ptr (f (mem_of t)) = tp' -> root_state (f (mem_of t)) = Base ->
  tree_core sp' tp' (on_mem f t) /\ pot (sch (on_mem f t)) = pot (sch t).
Proof.
  intros [(L & held & Hinv) Hal _ _ _] Hle Hok ? ? ?.
  destruct (sinv_user (sch t) L at_rest held (f (mem_of t)) Hinv Hle Hok) as (Hinv' & _ & Hpot).
  split; [|done]. split; try done. by exists L, held.
Qed.

Lemma root_le o t t' :
  root_conf t' = root_conf t -> mem_le (mem_of t) (mem_of t') -> root_is o t ->
  root_is o t' /\ root_work t' = root_work t.
Proof.
  intros Hc Hle [Hok Hv Hf Hcov]. destruct (conf_le E (mem_of t) (mem_of t') _ Hle Hok) as (Hok' & Hv' & Hco & Hcov').
  unfold root_work. rewrite Hc, Hco. split; [|done]. split; rewrite Hc; [done|by rewrite Hv'|by rewrite Hco|by rewrite Hcov'].
Qed.

(** ** What an operation keeps *)

(** Everything but the root may change, with no more left to do. *)
Record same_root (t t' : tree V) : Prop := {
  sr_conf : root_conf t' = root_conf t;
  sr_context : root_context t' = root_context t;
  sr_mem : mem_le (mem_of t) (mem_of t');
  sr_pot : (pot (sch t') <= pot (sch t))%nat;
}.

Lemma same_root_refl t : same_root t t.
Proof. split; [done|done|apply mem_le_refl|done]. Qed.

Lemma same_root_trans t1 t2 t3 : same_root t1 t2 -> same_root t2 t3 -> same_root t1 t3.
Proof. intros [] []. split; [congruence..|by eapply mem_le_trans|lia]. Qed.

(** A thread local pointer is set. *)
Definition ptrs (t t' : tree V) : Prop :=
  exists f, t' = on_mem f t /\ forall u, scopes (f u) = scopes u /\ events (f u) = events u /\
    waiting (f u) = waiting u /\ root_state (f u) = root_state u.

Lemma set_ptrs f sp tp sp' tp' t :
  tree_core sp tp t ->
  (forall u, scopes (f u) = scopes u /\ events (f u) = events u /\ waiting (f u) = waiting u /\ root_state (f u) = root_state u) ->
  stack_ptr (f (mem_of t)) = sp' -> tree_ptr (f (mem_of t)) = tp' ->
  tree_core sp' tp' (on_mem f t) /\ ptrs t (on_mem f t).
Proof.
  intros Hc Hf Hs Ht. destruct (Hf (mem_of t)) as (H1 & H2 & _ & H3).
  destruct (core_mem f sp tp sp' tp' t) as [Hc' Hpot]; try done.
  { by apply (le_same (mem_of t)). }
  { apply (ok_same E (mem_of t)); [done..|by eapply mem_ok_core]. }
  { rewrite H3. apply Hc. }
  split; [done|]. by exists f.
Qed.

Lemma ptrs_same sp tp t t' : tree_core sp tp t -> ptrs t t' -> same_root t t'.
Proof.
  intros [(L & held & Hinv) _ _ _ _] (f & -> & Hf). destruct (Hf (mem_of t)) as (H1 & H2 & _ & _).
  pose proof (le_same (mem_of t) (f (mem_of t)) H1 H2) as Hle.
  destruct (sinv_user (sch t) L at_rest held (f (mem_of t)) Hinv Hle) as (_ & _ & Hpot).
  { apply (ok_same E (mem_of t)); [done..|apply (s_users _ _ _ _ Hinv)]. }
  split; [done|done|exact Hle|]. change (sch (on_mem f t)) with (set_user (f (mem_of t)) (sch t)). by apply Nat.eq_le_incl.
Qed.

(** A round inside [enter_context] of the tree, or of the root. *)
Lemma wp_tree_ptrs {B} (c : M (tree V) B) t (Q : B -> tree V -> Prop) :
  tree_core false false t ->
  (forall t', tree_core false true t' -> ptrs t t' ->
     wpe c t' (fun r t1 => tree_core false true t1 /\
        forall t2, tree_core false false t2 -> ptrs t1 t2 -> Q r t2) P) ->
  wpe (tree_context c) t Q P.
Proof.
  intros Hc Hk. apply wpe_bind, wpe_gets, wpe_bind, wp_upd_mem.
  destruct (set_ptrs (set_tree_ptr true) false false false true t) as [Hc1 Hs1]; [done|done|apply Hc|done|].
  apply wpe_bind. eapply wpe_post; [by apply Hk|]. intros r t1 [Ht1 HQ].
  apply wpe_bind, wp_upd_mem, wpe_ret.
  change (tree_ptr (user (sch t))) with (tree_ptr (mem_of t)). rewrite (tc_tree _ _ _ Hc).
  destruct (set_ptrs (set_tree_ptr false) false true false false t1) as [Hc2 Hs2]; [done|done|apply Ht1|done|].
  by apply HQ.
Qed.

Lemma wp_root_ptrs {B} (c : M (tree V) B) t (Q : B -> tree V -> Prop) :
  tree_core false true t ->
  (forall t', tree_core true true t' -> ptrs t t' ->
     wpe c t' (fun r t1 => tree_core true true t1 /\
        forall t2, tree_core false true t2 -> ptrs t1 t2 -> Q r t2) P) ->
  wpe (root_enter_context c) t Q P.
Proof.
  intros Hc Hk. apply wpe_bind, wpe_gets, wpe_bind, wp_upd_mem.
  destruct (set_ptrs (set_stack_ptr true) false true true true t) as [Hc1 Hs1]; [done|done|done|apply Hc|].
  apply wpe_bind. eapply wpe_post; [by apply Hk|]. intros r t1 [Ht1 HQ].
  apply wpe_bind, wp_upd_mem, wpe_ret.
  change (stack_ptr (user (sch t))) with (stack_ptr (mem_of t)). rewrite (tc_stack _ _ _ Hc).
  destruct (set_ptrs (set_stack_ptr false) true true false true t1) as [Hc2 Hs2]; [done|done|done|apply Ht1|].
  by apply HQ.
Qed.

Lemma wp_tree_context {B} (c : M (tree V) B) t (Q : B -> tree V -> Prop) :
  tree_core false false t ->
  (forall t', tree_core false true t' -> same_root t t' ->
     wpe c t' (fun r t1 => tree_core false true t1 /\
        forall t2, tree_core false false t2 -> same_root t1 t2 -> Q r t2) P) ->
  wpe (tree_context c) t Q P.
Proof.
  intros Hc Hk. apply wp_tree_ptrs; [done|]. intros t' Hc' Hp. eapply wpe_post; [apply Hk; [done|by eapply ptrs_same]|].
  intros r t1 [Hc1 HQ]. split; [done|]. intros t2 Hc2 Hp2. apply HQ; [done|by eapply ptrs_same].
Qed.

Lemma wp_root_context {B} (c : M (tree V) B) t (Q : B -> tree V -> Prop) :
  tree_core false true t ->
  (forall t', tree_core true true t' -> same_root t t' ->
     wpe c t' (fun r t1 => tree_core true true t1 /\
        forall t2, tree_core false true t2 -> same_root t1 t2 -> Q r t2) P) ->
  wpe (root_enter_context c) t Q P.
Proof.
  intros Hc Hk. apply wp_root_ptrs; [done|]. intros t' Hc' Hp. eapply wpe_post; [apply Hk; [done|by eapply ptrs_same]|].
  intros r t1 [Hc1 HQ]. split; [done|]. intros t2 Hc2 Hp2. apply HQ; [done|by eapply ptrs_same].
Qed.

(** ** The root *)

(** What the root is left with: its value, or a panic. *)
Definition root_end (o : option V) (t : tree V) (r : exc (poll bool)) (t' : tree V) : Prop :=
  match r with
  | Returns r =>
      r = Ready false /\ (root_work t' < root_work t)%nat \/ r = Pending /\ (forall v, root_conf t' <> CDone v)
  | Unwinds _ m => may_panic m /\ o = None
  end.

(** A step of the root in the context of the tree. *)
Lemma wp_drive_root_u addr w o t (Q : exc (poll bool) -> tree V -> Prop) :
  tree_core false true t -> root_is o t -> has_task (root_conf t) ->
  (forall r t', tree_core false true t' -> root_is o t' -> root_context t' = root_context t ->
     (work t' <= work t)%nat -> root_end o t r t' -> Q r t') ->
  wpe (drive_root_u addr w) t Q P.
Proof.
  intros Hc Hr Ht HQ. apply wpe_bind, wpe_gets, wpe_bind, wpe_gets, wpe_bind, wpe_gets, wpe_bind, wp_on_sched.
  pose proof (mem_ok_core _ _ _ Hc) as Hok. destruct Hr as [Hco Hv Hf Hcov].
  pose proof Hc as [(L & held & Hinv) Hal Hsp Htp Hst].
  set (s := {| st_conf := root_conf t; st_state := root_state (mem_of t); st_context := root_context t |}).
  pose proof (drive_stack_ok E b (outer addr w) s (mem_of t) 0 Hok Htp Hco Ht Hst Hf Hcov) as Hd.
  eapply (wp_run_act P (AsRoot w) (acatch (drive_stack (outer addr w) s))); [exact Hinv|done|done|exact Hd|].
  intros r L' sc m Hinv' _ Hgr Hres Hpot.
  assert (Hcore : forall c', steps (mem_of t) (user sc) -> tree_core false true (set_root_conf c' (set_sch sc t))).
  { intros c' Hsteps. split; [by exists L', held|by rewrite <- Hal; apply Hgr|..]; unfold mem_of in *; cbn.
    - by rewrite (st_stack _ _ Hsteps).
    - by rewrite (st_tree _ _ Hsteps).
    - by rewrite (st_root _ _ Hsteps). }
  change (st_conf s) with (root_conf t) in *. destruct r as [[r s']|bb msg].
  - destruct Hres as (Hsteps & Hok' & Hco' & Hst' & [Hv' Hcov'] & Hcost & Hle). cbn [fst snd] in *.
    apply wpe_bind, wpe_modify, wpe_bind, wp_upd_mem, wpe_ret.
    set (t1 := set_root_conf (st_conf s') (set_sch sc t)). pose proof (Hcore (st_conf s') Hsteps) as Hc1.
    destruct (core_mem (set_root_state (st_state s')) false true false true t1) as [Hc2 Hpot2];
      [done|by apply le_same|by apply (ok_same E (user sc))|apply Hc1|apply Hc1|exact Hst'|].
    destruct (root_le o t1 (on_mem (set_root_state (st_state s')) t1)) as [Hroot Hwork];
      [done|by apply le_same|split; [done|by rewrite <- Hv| |done]|].
    { change (root_conf t1) with (st_conf s'). change (mem_of t1) with (user sc). lia. }
    unfold root_work in Hwork. change (cost_conf (mem_of t1) (root_conf t1)) with (cost_conf (user sc) (st_conf s')) in Hwork.
    change (user (sch t)) with (mem_of t) in *. apply HQ; [done|done|done| |].
    + unfold work, root_work. rewrite Hwork, Hpot2. change (sch t1) with sc. lia.
    + unfold root_end, root_work. rewrite Hwork. destruct Hcost as [[-> ?]|(-> & _ & ?)]; [by left|by right].
  - destruct Hres as (Hnone & Hless & Hsteps & Hok' & Hmsg & Hle). apply wpe_bind, wpe_modify, wpe_ret.
    destruct (poison_split E (user sc) (root_conf t) Ht) as (Hp1 & Hp2 & Hp3 & Hp4).
    change (user (sch t)) with (mem_of t) in *. rewrite Hv in Hnone. apply HQ; [by apply Hcore| |done| |done].
    + split; [done|by rewrite Hnone| |by apply (Hp4 msg)]. cbn [root_conf set_root_conf].
      change (mem_of _) with (user sc). lia.
    + unfold work, root_work. cbn [root_conf set_root_conf sch set_sch]. change (mem_of (set_root_conf _ _)) with (user sc). lia.
Qed.

(** ** [TreeStack::drive_top_task] *)

(** What a step ends with: a result if there was fuel for the scheduler, or a
    panic. *)
Record stepped (fuel : nat) (o : option V) (t : tree V) (r : exc (option (poll bool))) (t' : tree V) : Prop := {
  sd_core : tree_core false false t';
  sd_root : root_is o t';
  sd_context : root_context t' = root_context t;
  sd_work : (work t' <= work t)%nat;
  sd_some : (work t < fuel)%nat -> r <> Returns None;
  sd_less x : r = Returns (Some (Ready x)) -> (root_work t' < root_work t)%nat;
  sd_pending : r = Returns (Some Pending) -> forall v, root_conf t' <> CDone v;
  sd_panic bb m : r = Unwinds bb m -> may_panic m;
}.

(** The root was not driven. *)
Lemma stepped_idle fuel o t t' r :
  tree_core false false t' -> same_root t t' -> root_is o t -> has_task (root_conf t) ->
  ((work t < fuel)%nat -> r <> Returns None) -> (forall x, r <> Returns (Some (Ready x))) ->
  (forall bb m, r = Unwinds bb m -> may_panic m) -> stepped fuel o t r t'.
Proof.
  intros Hc Hs Hr Ht Hf Hx Hp. destruct (root_le o t t' (sr_conf _ _ Hs) (sr_mem _ _ Hs) Hr) as [Hr' Hw].
  pose proof (sr_pot _ _ Hs). split; try done.
  - by rewrite (sr_context _ _ Hs).
  - unfold work in *. lia.
  - by intros x ?%Hx.
  - intros _ v Hv. rewrite <- (sr_conf _ _ Hs), Hv in Ht. done.
Qed.

(** The round of the scheduler. *)
Lemma wp_poll_tasks fuel w t (Q : exc (option bool) -> tree V -> Prop) :
  tree_core false true t ->
  (forall r t', tree_core false true t' -> same_root t t' -> ((pot (sch t) < fuel)%nat -> r <> Returns None) ->
     (forall bb m, r = Unwinds bb m -> may_panic m) -> Q r t') ->
  wpe (root_enter_context (
        let? r := on_sched (poll_sched_u fuel w) in
        ret (Returns (match r with Some r => Some (is_pending r) | None => None end)))) t Q P.
Proof.
  intros Hc HQ. apply wp_root_context; [done|]. intros t2 Hc2 Hs2.
  pose proof Hc2 as [(L & held & Hinv) Hal Hsp Htp Hst].
  unfold and_then. apply wpe_bind, wp_on_sched. eapply wpe_mono; [eapply (wp_poll_sched_u w fuel _ L held); [exact Hinv|done|by split_and!]| |by intros m []].
  intros r sc [(L' & held' & Hinv' & Hm & (Hsp' & Htp' & Hst') & Hpot & Hsome & _ & Hthrown) _].
  destruct (start_poll_same w (sch t2)) as (Hps & Hals & Hus). rewrite Hps in *.
  assert (Hmem : mem_le (mem_of t2) (user sc)) by (unfold mem_of; rewrite <- Hus; apply (m_user _ _ Hm)).
  assert (Hc3 : tree_core true true (set_sch sc t2)).
  { split; [by exists L', held'|by cbn; rewrite (m_alive _ _ Hm), Hals|done..]. }
  assert (Hs23 : same_root t2 (set_sch sc t2)) by by split.
  pose proof (same_root_trans _ _ _ Hs2 Hs23) as Hs13. pose proof (sr_pot _ _ Hs2).
  destruct r as [r|bb msg]; apply wpe_ret; (split; [done|]); intros t3 Hct3 Hs3; apply HQ; try done;
    try by eapply same_root_trans.
  - intros Hf. destruct r as [[[]|]|]; try done. by destruct (Hsome ltac:(lia)).
  - intros bb' m [= <- <-]. by destruct Hthrown as (? & ? & ? & _ & _ & _ & _ & Hmay).
Qed.

Lemma wp_drive_top_task_u fuel addr w o t (Q : exc (option (poll bool)) -> tree V -> Prop) :
  tree_core false false t -> root_is o t -> has_task (root_conf t) ->
  (forall r t', stepped fuel o t r t' -> Q r t') ->
  wpe (drive_top_task_u fuel addr w) t Q P.
Proof.
  intros Hc Hr Ht HQ. apply wp_tree_context; [done|]. intros t1 Hc1 Hs1.
  destruct (root_le o t t1 (sr_conf _ _ Hs1) (sr_mem _ _ Hs1) Hr) as [Hr1 Hw1].
  pose proof (sr_pot _ _ Hs1) as Hpot1.
  (* after the scheduler *)
  assert (Hroot : forall t2, tree_core false true t2 -> same_root t t2 ->
    wpe (let? r := drive_root_u addr w in ret (Returns (Some r))) t2 (fun r t3 => tree_core false true t3 /\
        forall t4, tree_core false false t4 -> same_root t3 t4 -> Q r t4) P).
  { intros t2 Hc2 Hs2. destruct (root_le o t t2 (sr_conf _ _ Hs2) (sr_mem _ _ Hs2) Hr) as [Hr2 Hw2].
    pose proof (sr_pot _ _ Hs2). unfold and_then.
    apply wpe_bind. eapply wp_drive_root_u; [done|done|by rewrite (sr_conf _ _ Hs2)|].
    intros r t3 Hc3 Hr3 Hctx Hwk Hend.
    assert (Hgo : forall r', (r' <> Returns None) ->
        (forall x, r' = Returns (Some (Ready x)) -> (root_work t3 < root_work t)%nat) ->
        (r' = Returns (Some Pending) -> forall v, root_conf t3 <> CDone v) ->
        (forall bb m, r' = Unwinds bb m -> may_panic m) ->
        tree_core false true t3 /\ forall t4, tree_core false false t4 -> same_root t3 t4 -> Q r' t4).
    { intros r' H1 H2 H3 H4. split; [done|]. intros t4 Hc4 Hs4. apply HQ.
      destruct (root_le o t3 t4 (sr_conf _ _ Hs4) (sr_mem _ _ Hs4) Hr3) as [Hr4 Hw4].
      pose proof (sr_pot _ _ Hs4). split; try done.
      - by rewrite (sr_context _ _ Hs4), Hctx, (sr_context _ _ Hs2).
      - unfold work in *. lia.
      - intros x ?%H2. lia.
      - intros Hx. rewrite (sr_conf _ _ Hs4). by apply H3. }
    destruct r as [r|bb m]; apply wpe_ret, Hgo; try done.
    - intros x [= ->]. destruct Hend as [[_ ?]|[? _]]; [lia|done].
    - intros [= ->]. by destruct Hend as [[? _]|[_ ?]].
    - intros bb' m' [= <- <-]. apply Hend. }
  apply wpe_bind, wp_on_sched, wpe_gets. rewrite set_sch_same. unfold and_then at 1. apply wpe_bind.
  destruct (match all_next (sch t1) with None => true | Some _ => false end); [by apply wpe_ret, Hroot|].
  apply wp_poll_tasks; [done|]. intros r t2 Hc2 Hs2 Hf Hp. pose proof (same_root_trans _ _ _ Hs1 Hs2) as Hs12.
  destruct r as [[[|]|]|bb m].
  - apply wpe_ret. split; [done|]. intros t3 Hc3 Hs3. apply HQ.
    apply stepped_idle; [done|by eapply same_root_trans|done..].
  - by apply Hroot.
  - apply wpe_ret. split; [done|]. intros t3 Hc3 Hs3. apply HQ.
    apply stepped_idle; [done|by eapply same_root_trans|done|done| |done|done]. unfold work. intros ?. by destruct (Hf ltac:(lia)).
  - apply wpe_ret. split; [done|]. intros t3 Hc3 Hs3. apply HQ.
    apply stepped_idle; [done|by eapply same_root_trans|done|done|done|done|]. intros bb' m' [= <- <-]. by eapply Hp.
Qed.

(** ** The runner *)

(** A [TreeStack] nobody polls: idle, or with a root that denotes [o]. *)
Definition idle (t : tree V) : Prop := tree_core false false t /\ root_conf t = CEmpty.
Definition busy (o : option V) (t : tree V) : Prop := tree_core false false t /\ root_is o t.

Lemma wp_tree_try_get_result o t (Q : option V -> tree V -> Prop) :
  tree_core false false t -> root_is o t ->
  (forall v t', root_conf t = CDone v -> o = Some v -> idle t' -> root_context t' = root_context t ->
     sch t' = sch t -> Q (Some v) t') ->
  (has_task (root_conf t) -> Q None t) ->
  wpe try_get_result t Q P.
Proof.
  intros Hc [Hok Hv Hf _] Hd Hn. apply wpe_bind, wpe_gets.
  destruct (root_conf t) as [q i fs|s k i fs|v k i fs|v|] eqn:Hconf; try (by apply wpe_ret, Hn).
  apply wpe_bind, wpe_modify, wpe_ret, Hd; try done. split; [|done]. by destruct Hc.
Qed.

Lemma core_context sp tp a t : tree_core sp tp t -> tree_core sp tp (set_root_context a t).
Proof. by intros []. Qed.

Lemma root_context_is o a t : root_is o t -> root_is o (set_root_context a t).
Proof. by intros []. Qed.

(** What [FinishFuture] returns: the value that was asked for, or it waits. *)
Definition finish_post (o : option V) (t : tree V) (r : poll V) (t' : tree V) : Prop :=
  match r with
  | Ready v => o = Some v /\ idle t' /\ (pot (sch t') <= work t)%nat
  | Pending => busy o t' /\ (work t' <= work t)%nat
  end.

(** A panic that leaves a poll is among those there may be; the tree denotes what it
    did, and the rebless context stays the one of the poll. *)
Definition unwound_post (addr : Z) (o : option V) (t t' : tree V) (m : string) : Prop :=
  may_panic m /\ busy o t' /\ (work t' <= work t)%nat /\ root_context t' = addr.

Definition finish_end (o : option V) (t : tree V) (old : Z) (r : exc (option (poll V))) (t' : tree V) : Prop :=
  match r with
  | Returns (Some p) => finish_post o t p t' /\ root_context t' = old
  | Returns None => busy o t'
  | Unwinds _ m => unwound_post (root_context t) o t t' m
  end.

Lemma finish_end_less o t t1 old r t' :
  (work t1 <= work t)%nat -> root_context t1 = root_context t -> finish_end o t1 old r t' -> finish_end o t old r t'.
Proof.
  intros Hw Hc. destruct r as [[[v|]|]|bb m]; cbn.
  - intros [(? & ? & ?) ?]. split_and!; try done. lia.
  - intros [[? ?] ?]. split_and!; try done. lia.
  - done.
  - intros (? & ? & ? & ?). split_and!; [done|done|lia|congruence].
Qed.

(** The context is put back. *)
Lemma wp_restore {A} old (a : A) t (Q : A -> tree V -> Prop) :
  Q a (set_root_context old t) -> wpe (let! _ := set_rebless_context_addr old in ret a) t Q P.
Proof. intros HQ. by apply wpe_bind, wpe_bind, wpe_gets, wpe_bind, wpe_modify, wpe_ret, wpe_ret. Qed.

Lemma busy_context o a t : busy o t -> busy o (set_root_context a t).
Proof. intros [? ?]. split; [by apply core_context|by apply root_context_is]. Qed.

Lemma idle_context a t : idle t -> idle (set_root_context a t).
Proof. intros [? ?]. split; [by apply core_context|done]. Qed.

Lemma wp_finish_loop_u n fuel addr w old o t (Q : exc (option (poll V)) -> tree V -> Prop) :
  busy o t ->
  (forall r t', ((root_work t < n)%nat -> (work t < fuel)%nat -> r <> Returns None) ->
     finish_end o t old r t' -> Q r t') ->
  wpe (finish_loop_u n fuel addr w old) t Q P.
Proof.
  revert t Q. induction n as [|n IH]; intros t Q [Hc Hr] HQ; cbn [finish_loop_u].
  { apply wpe_ret, HQ; [lia|by split]. }
  apply wpe_bind. apply (wp_tree_try_get_result o); [done|done|..].
  - intros v t1 _ Hv Hi _ Hsch. apply wp_restore, HQ; [done|]. split; [|done]. split; [done|].
    split; [by apply idle_context|]. change (pot (sch t1) <= work t)%nat. rewrite Hsch. unfold work. lia.
  - intros Ht. unfold and_then. apply wpe_bind. eapply wp_drive_top_task_u; [done..|].
    intros r t1 [Hc1 Hr1 Hctx Hwk Hsome Hless Hpend Hpan]. destruct r as [[[x|]|]|bb m].
    + specialize (Hless x eq_refl). eapply IH; [by split|]. intros r t2 Hs2 Hf2. apply HQ.
      * intros H1 H2. apply Hs2; lia.
      * by eapply finish_end_less.
    + apply wp_restore, HQ; [done|]. split; [|done]. by split; [apply busy_context|].
    + apply wpe_ret, HQ; [|by split]. intros _ Hfuel. by destruct (Hsome Hfuel).
    + apply wpe_ret, HQ; [done|]. by split_and!; [by eapply Hpan|..].
Qed.

Lemma wp_tree_poll_finish_u fuel addr w o t (Q : exc (option (poll V)) -> tree V -> Prop) :
  busy o t ->
  (forall r t', ((work t < fuel)%nat -> r <> Returns None) ->
     finish_end o (set_root_context addr t) (root_context t) r t' -> Q r t') ->
  wpe (poll_finish_u fuel addr w) t Q P.
Proof.
  intros Hb HQ. apply wpe_bind, wpe_bind, wpe_gets, wpe_bind, wpe_modify, wpe_ret.
  eapply wp_finish_loop_u; [by apply busy_context|]. intros r t' Hs Hf. apply HQ; [|done].
  change (root_work (set_root_context addr t)) with (root_work t) in Hs.
  change (work (set_root_context addr t)) with (work t) in Hs. unfold work in *. intros. apply Hs; lia.
Qed.

(** [StepFuture]: after a step that was made the context is the one it was polled
    with. *)
Definition step_post (addr : Z) (o : option V) (t : tree V) (r : poll (option V)) (t' : tree V) : Prop :=
  match r with
  | Ready (Some v) => o = Some v /\ idle t' /\ root_context t' = root_context t
  | Ready None => busy o t' /\ (root_work t' < root_work t)%nat /\ (work t' <= work t)%nat /\ root_context t' = addr
  | Pending => busy o t' /\ (work t' <= work t)%nat /\ root_context t' = root_context t
  end.

Definition step_end (addr : Z) (o : option V) (t : tree V) (r : exc (option (poll (option V)))) (t' : tree V) : Prop :=
  match r with
  | Returns (Some p) => step_post addr o t p t'
  | Returns None => busy o t'
  | Unwinds _ m => unwound_post addr o t t' m
  end.

Lemma wp_tree_poll_step_u fuel addr w o t (Q : exc (option (poll (option V))) -> tree V -> Prop) :
  busy o t ->
  (forall r t', ((work t < fuel)%nat -> r <> Returns None) -> step_end addr o t r t' -> Q r t') ->
  wpe (poll_step_u fuel addr w) t Q P.
Proof.
  intros Hb HQ. apply wpe_bind, wpe_bind, wpe_gets, wpe_bind, wpe_modify, wpe_ret.
  set (t0 := set_root_context addr t). destruct (busy_context o addr t Hb) as [Hc0 Hr0].
  apply wpe_bind. apply (wp_tree_try_get_result o); [done|done|..].
  - intros v t1 _ Hv Hi _ _. apply wp_restore, HQ; [done|]. by split_and!; [|apply idle_context|].
  - intros Ht. unfold and_then. apply wpe_bind. eapply wp_drive_top_task_u; [done..|].
    intros r t1 [Hc1 Hr1 Hctx Hwk Hsome Hless Hpend Hpan].
    change (work t0) with (work t) in *. change (root_work t0) with (root_work t) in *. destruct r as [[[x|]|]|bb m].
    + apply wpe_ret, HQ; [done|]. by split_and!; [|by eapply Hless|..].
    + apply wp_restore, HQ; [done|]. by split; [apply busy_context|].
    + apply wpe_ret, HQ; [|by split]. intros Hfuel. by destruct (Hsome Hfuel).
    + apply wpe_ret, HQ; [done|]. by split_and!; [by eapply Hpan|..].
Qed.

(** ** Dropping the runner *)

(** The root is gone. *)
Definition cleared L held (t t' : tree V) : Prop :=
  idle t' /\ sinv (sch t') L at_rest held /\ mem_le (mem_of t) (mem_of t').

Lemma wp_root_gone sc L held t (Q : unit -> tree V -> Prop) :
  tree_core false false t -> sinv sc L at_rest held -> queue_alive sc = true ->
  user sc = set_root_state Stack.Cancelled (mem_of t) ->
  (forall t', cleared L held t t' -> Q tt t') ->
  wpe (do! modify (set_root_conf CEmpty) in upd_mem (set_root_state Base)) (set_sch sc t) Q P.
Proof.
  intros Hc Hsc Hal Hu HQ. pose proof (mem_ok_core _ _ _ Hc) as Hok. apply wpe_bind, wpe_modify, wp_upd_mem.
  change (on_mem (set_root_state Base) (set_root_conf CEmpty (set_sch sc t)))
    with (set_root_conf CEmpty (set_sch (set_user (set_root_state Base (user sc)) sc) t)).
  destruct (sinv_user sc L at_rest held (set_root_state Base (user sc)) Hsc) as (Hsc' & _ & _);
    [by apply le_same|rewrite Hu; by apply (ok_same E (mem_of t))|].
  apply HQ. rewrite Hu in *. split; [split; [|done]|].
  - split; [by exists L, held|done|apply Hc|apply Hc|done].
  - split; [exact Hsc'|by apply le_same].
Qed.

Lemma wp_clear_root L held t (Q : unit -> tree V -> Prop) :
  tree_core false false t -> sinv (sch t) L at_rest held ->
  (forall t', cleared L held t t' -> Q tt t') -> wpe clear_root t Q P.
Proof.
  intros Hc Hinv HQ. pose proof Hc as [_ Hal Hsp Htp Hst]. pose proof (mem_ok_core _ _ _ Hc) as Hok.
  set (u1 := set_root_state Stack.Cancelled (mem_of t)).
  destruct (sinv_user (sch t) L at_rest held u1 Hinv) as (Hinv1 & _ & _); [by apply le_same|by apply (ok_same E (mem_of t))|].
  assert (Hskip : wpe (do! upd_mem (set_root_state Stack.Cancelled) in do! ret tt in
      do! modify (set_root_conf CEmpty) in upd_mem (set_root_state Base)) t Q P).
  { apply wpe_bind, wp_upd_mem, wpe_bind, wpe_ret. by eapply wp_root_gone. }
  apply wpe_bind, wpe_gets. destruct (root_conf t) as [p n fs|s k n fs|v k n fs|v|] eqn:Hconf; try exact Hskip.
  - destruct s as [l|q tok|]; try exact Hskip.
    apply wpe_bind, wp_upd_mem, wpe_bind, wp_on_sched. change (sch (on_mem _ t)) with (set_user u1 (sch t)).
    apply wpe_bind. eapply wpe_post; [by apply (wp_drop_thing (gone := none_returned) P _ _ L at_rest held)|].
    intros [] sc [Hsc [Hfr _]]. apply wpe_ret. change (set_sch sc (on_mem _ t)) with (set_sch sc t).
    eapply wp_root_gone; [done|done|by rewrite (lt_alive _ _ Hfr)|by rewrite (lt_user _ _ Hfr)|done].
  - apply wpe_ret, HQ. split; [by split|]. split; [done|apply mem_le_refl].
Qed.

Lemma wp_tree_drop_runner fuel t (Q : option unit -> tree V -> Prop) :
  tree_core false false t ->
  (forall r t', tree_core false false t' ->
     (r = Some tt -> idle t' /\ all_next (sch t') = None) ->
     (r = None -> root_conf t' = root_conf t /\ mem_of t' = mem_of t) ->
     ((Z.to_nat (len (sch t)) < fuel)%nat -> (pot (sch t) + gaps (sch t) < fuel)%nat -> r = Some tt) -> Q r t') ->
  wpe (drop_runner fuel) t Q P.
Proof.
  intros Hc HQ. pose proof Hc as [(L & held & Hinv) Hal Hsp Htp Hst]. apply wpe_bind, wp_on_sched.
  eapply wp_clear; [exact Hinv|]. intros r L' sc Hsc Hsal _ Hu Hr Hf.
  assert (Hc1 : tree_core false false (set_sch sc t)).
  { split; [by exists L', held|by rewrite <- Hal|..]; unfold mem_of in *; cbn; by rewrite Hu. }
  assert (Hfuel : (Z.to_nat (len (sch t)) < fuel)%nat -> (pot (sch t) + gaps (sch t) < fuel)%nat -> r = Some tt).
  { rewrite (l_len _ _ (s_linked _ _ _ _ Hinv)), Nat2Z.id. exact Hf. }
  destruct r as [[]|].
  - destruct (Hr eq_refl) as [-> _]. apply wpe_bind. eapply wp_clear_root; [done|exact Hsc|].
    intros t' ([Hc' He'] & Hinv' & _). apply wpe_ret, HQ; [done| |done|done]. intros _.
    split; [by split|]. apply (l_next _ _ (s_linked _ _ _ _ Hinv')).
  - apply wpe_ret, HQ; [done|done| |done]. intros _. by split.
Qed.

(** ** Events and wakers *)
Lemma wp_waker i bv f t (Q : unit -> tree V -> Prop) :
  tree_core false false t ->
  (forall id sc L held (Q' : unit -> sched (fut V) (mem V) -> Prop),
     sinv sc L at_rest (if bv : bool then id :: held else held) -> is_Some (tasks sc !! id) ->
     (forall s', sinv s' L at_rest held -> SchedularInv.frame sc s' -> (pot s' <= 1 + pot sc)%nat -> Q' tt s') ->
     wpe (f id) sc Q' P) ->
  (forall t', tree_core false false t' -> root_conf t' = root_conf t -> root_context t' = root_context t ->
     mem_of t' = mem_of t -> (pot (sch t') <= 1 + pot (sch t))%nat -> Q tt t') ->
  wpe (on_sched (use_waker i bv f)) t Q P.
Proof.
  intros Hc Hf HQ. pose proof Hc as [(L & held & Hinv) Hal Hsp Htp Hst]. apply wp_on_sched.
  eapply wp_use_waker; [exact Hinv| |rewrite set_sch_same; apply HQ; try done; lia].
  intros id sc Hsc [Hfr Hpot] Hid. eapply Hf; [exact Hsc|done|]. intros s' Hs' Hfr' Hpot'.
  assert (Hu : user s' = mem_of t) by by rewrite (lt_user _ _ Hfr'), (lt_user _ _ Hfr).
  apply HQ; [|done|done|exact Hu|cbn; lia].
  split; [by exists L, held|cbn; by rewrite (lt_alive _ _ Hfr'), (lt_alive _ _ Hfr)|..]; unfold mem_of in *; cbn; by rewrite Hu.
Qed.

Lemma wp_wake_all l t (Q : unit -> tree V -> Prop) :
  tree_core false false t ->
  (forall t', tree_core false false t' -> root_conf t' = root_conf t -> root_context t' = root_context t ->
     mem_of t' = mem_of t -> (pot (sch t') <= length l + pot (sch t))%nat -> Q tt t') ->
  wpe (wake_all l) t Q P.
Proof.
  revert t. induction l as [|[e [i|w]] l IH]; intros t Hc HQ; cbn [wake_all].
  - by apply wpe_ret, HQ.
  - apply wpe_bind. eapply wp_waker; [done| |].
    + intros id sc L held Q' Hsc _ HQ'. by eapply wp_schedular_wake.
    + intros t1 Hc1 H1 H2 H3 Hp1. apply IH; [done|]. intros t2 Hc2 H4 H5 H6 Hp2.
      apply HQ; [done|congruence..|cbn; lia].
  - apply wpe_bind, wp_on_sched, wpe_modify. pose proof Hc as [(L & held & Hinv) Hal Hsp Htp Hst].
    apply IH.
    + split; [|done..]. exists L, held. eapply (sinv_same (sch t)); [by split|done..].
    + intros t2 Hc2 H4 H5 H6 Hp2. apply HQ; [done..|]. cbn in Hp2 |- *. unfold pot in *. cbn in *. lia.
Qed.

(** An event that is to happen happens. *)
Lemma wp_happen e v t (Q : unit -> tree V -> Prop) :
  tree_core false false t -> E !! e = Some v ->
  (forall t', tree_core false false t' -> root_conf t' = root_conf t -> root_context t' = root_context t ->
     mem_le (mem_of t) (mem_of t') -> (pot (sch t') <= length (waiting (mem_of t)) + pot (sch t))%nat -> Q tt t') ->
  wpe (happen e v) t Q P.
Proof.
  intros Hc He HQ. pose proof (mem_ok_core _ _ _ Hc) as [Hev Hpl].
  apply wpe_bind, wpe_gets. change (user (sch t)) with (mem_of t). destruct (events (mem_of t) !! e) as [v'|] eqn:Hx.
  { apply wpe_ret, HQ; [done..|apply mem_le_refl|lia]. }
  apply wpe_bind, wpe_gets. change (user (sch t)) with (mem_of t). apply wpe_bind, wp_upd_mem.
  set (f := fun u : mem V => set_waiting _ _).
  assert (Hle : mem_le (mem_of t) (f (mem_of t))).
  { split; [by apply insert_subseteq|]. intros q sc Hq. by exists sc. }
  destruct (core_mem f false false false false t) as [Hc1 Hp1]; [done|done| |apply Hc..|].
  { split; [by apply insert_subseteq_l|exact Hpl]. }
  eapply wp_wake_all; [exact Hc1|]. intros t2 Hc2 H1 H2 H3 Hp2. apply HQ; [done|by rewrite H1|by rewrite H2|by rewrite H3|].
  rewrite Hp1 in Hp2. pose proof (length_filter (fun x : nat * source => x.1 = e) (waiting (mem_of t))). lia.
Qed.

Lemma wp_tree_enter p t (Q : unit -> tree V -> Prop) :
  idle t -> (cost p <= b)%nat -> covered E p ->
  (forall t', busy (eval p) t' -> root_context t' = root_context t -> sch t' = sch t -> root_work t' = cost p -> Q tt t') ->
  wpe (enter p) t Q P.
Proof.
  intros [Hc Hi] Hf Hcov HQ. apply wpe_bind, wpe_gets. rewrite Hi. apply wpe_modify, HQ; [|done|done|cbn; lia].
  split; [by destruct Hc|]. split; [done|done|cbn; lia|by split].
Qed.

(** ** Everything that can happen to a [TreeStack] *)
Definition tree_rest (t : tree V) : Prop := idle t \/ exists o, busy o t.

Definition leak : string := "Stack still has unresolved futures, did a previous runner leak?".

(** Futures are small enough for the fuel of the loops, they panic with the messages
    they may, and events bring what they are to bring. *)
Definition tree_op_ok (o : tree_op V) : Prop :=
  match o with
  | TEnter p => (cost p <= b)%nat /\ covered E p
  | TEvent e v => E !! e = Some v
  | _ => True
  end.

Lemma rest_core t : tree_rest t -> tree_core false false t.
Proof. by intros [[? _]|[o [? _]]]. Qed.

Lemma rest_mem t t' :
  tree_rest t -> tree_core false false t' -> root_conf t' = root_conf t -> mem_le (mem_of t) (mem_of t') -> tree_rest t'.
Proof.
  intros [[_ Hi]|[o [_ Hr]]] Hc Heq Hle; [left; split; [done|congruence]|].
  right. exists o. split; [done|]. by apply (root_le o t t').
Qed.

Lemma finish_end_rest o t old r t' : finish_end o t old r t' -> tree_rest t'.
Proof.
  destruct r as [[[v|]|]|bb m]; [intros [(_ & ? & _) _]; by left|intros [[? _] _]|intros ?|intros (_ & ? & _)].
  all: right; by exists o.
Qed.

Lemma step_end_rest addr o t r t' : step_end addr o t r t' -> tree_rest t'.
Proof.
  destruct r as [[[[v|]|]|]|bb m]; [intros (_ & ? & _); by left|intros [? _]|intros [? _]|intros ?|intros (_ & ? & _)].
  all: right; by exists o.
Qed.

Context (HP : P leak).

(** Operations that poll nothing. *)
Definition polls (o : tree_op V) : bool := match o with TFinish _ _ _ | TStep _ _ _ => true | _ => false end.

Lemma wp_if_busy c t :
  tree_rest t -> (forall o, busy o t -> wpe c t (fun _ => tree_rest) P) -> wpe (if_busy c) t (fun _ => tree_rest) P.
Proof.
  intros Hr Hb. apply wpe_bind, wpe_gets. destruct Hr as [[? Hi]|[o' [Hc' Hi]]].
  - rewrite Hi. apply wpe_ret. by left.
  - specialize (Hb o' ltac:(by split)). destruct (root_conf t) eqn:Hconf; try exact Hb.
    pose proof (ri_ok _ _ Hi) as Hk. by rewrite Hconf in Hk.
Qed.

Lemma wp_quiet_op o t :
  tree_rest t -> tree_op_ok o -> polls o = false -> wpe (run_tree_op o) t (fun _ => tree_rest) P.
Proof.
  intros Hr Hok Ho. pose proof (rest_core _ Hr) as Hc.
  destruct o as [p|fuel addr w|fuel addr w|fuel|e v|i]; try done; cbn [run_tree_op].
  - destruct Hok as [Hcost Hcov].
    destruct Hr as [Hi|[o Hb]]; [eapply wp_tree_enter; [done..|]; intros t' Hb _ _ _; right; by eexists|].
    apply wpe_bind, wpe_gets. destruct Hb as [_ [Hk _ _ _]].
    destruct (root_conf t); try (by apply wpe_panic). done.
  - apply wpe_bind. eapply wp_tree_drop_runner; [done|]. intros r t' Hc' Hs Hn _. apply wpe_ret.
    destruct r as [[]|]; [left; by apply Hs|]. destruct (Hn eq_refl) as [H1 H2].
    eapply rest_mem; [exact Hr|done|done|rewrite H2; apply mem_le_refl].
  - eapply wp_happen; [done|exact Hok|]. intros t' Hc' H1 _ H3 _. by eapply rest_mem.
  - eapply wp_waker; [done| |].
    + intros id sc L held Q' Hsc Hid HQ'. by eapply wp_schedular_wake_ref.
    + intros t' Hc' H1 _ H3 _. eapply rest_mem; [exact Hr|done|done|rewrite H3; apply mem_le_refl].
Qed.

Lemma wp_tree_op_u o t : tree_rest t -> tree_op_ok o -> wpe (run_tree_op_u o) t (fun _ => tree_rest) P.
Proof.
  intros Hr Hok. destruct (polls o) eqn:Ho; [|destruct o; by try apply wp_quiet_op].
  destruct o as [|fuel addr w|fuel addr w| | |]; try done; apply wp_if_busy; try done; intros o Hb; apply wpe_bind.
  - eapply wp_tree_poll_finish_u; [exact Hb|]. intros r t' _ Hf. by eapply wpe_ret, finish_end_rest.
  - eapply wp_tree_poll_step_u; [exact Hb|]. intros r t' _ Hf. by eapply wpe_ret, step_end_rest.
Qed.

Lemma wp_tree_ops_u l t : tree_rest t -> Forall tree_op_ok l -> wpe (run_tree_ops_u l) t (fun _ => tree_rest) P.
Proof.
  revert t. induction l as [|o l IH]; intros t Hr Hl; cbn [run_tree_ops_u]; [by apply wpe_ret|].
  apply Forall_cons in Hl as [Ho Hl]. apply wpe_bind. eapply wpe_post; [by apply wp_tree_op_u|]. intros [] t' Ht'. by apply IH.
Qed.
End tree.

(** ** Calm programs: the operations of [Tree] *)
Section calm.
Context {V : Type} (E : gmap nat V) (b : nat) (task_addr : Z).
#[local] Existing Instance calm.
#[local] Instance fu_calm : Future (fut V) (mem V) := tree_future b task_addr.
Context (P : string -> Prop).

Lemma wp_drive_root addr w o t (Q : poll bool -> tree V -> Prop) :
  tree_core E b false true t -> root_is E b o t -> has_task (root_conf t) ->
  (forall r t', tree_core E b false true t' -> root_is E b o t' -> root_context t' = root_context t ->
     (work E b t' <= work E b t)%nat ->
     (r = Ready false /\ (root_work E t' < root_work E t)%nat \/
      r = Pending /\ (forall v, root_conf t' <> CDone v)) -> Q r t') ->
  wpe (drive_root addr w) t Q P.
Proof.
  intros Hc Hr Ht HQ. apply (wpe_follows _ (drive_root_u addr w)); [apply drive_root_follows|].
  eapply wp_drive_root_u; [done..|]. intros [r|bb m] t' H1 H2 H3 H4 H5; [by apply HQ|]. by destruct H5.
Qed.

Lemma wp_drive_top_task fuel addr w o t (Q : option (poll bool) -> tree V -> Prop) :
  tree_core E b false false t -> root_is E b o t -> has_task (root_conf t) ->
  (forall r t', stepped E b fuel o t (Returns r) t' -> Q r t') ->
  wpe (drive_top_task fuel addr w) t Q P.
Proof.
  intros Hc Hr Ht HQ. apply (wpe_follows _ (drive_top_task_u fuel addr w)); [apply drive_top_task_follows|].
  eapply wp_drive_top_task_u; [done..|]. intros [r|bb m] t' H; [by apply HQ|]. by destruct (sd_panic _ _ _ _ _ _ _ H bb m).
Qed.

Lemma wp_tree_poll_finish fuel addr w o t (Q : option (poll V) -> tree V -> Prop) :
  busy E b o t ->
  (forall r t', ((work E b t < fuel)%nat -> is_Some r) ->
     (forall p, r = Some p -> finish_post E b o t p t' /\ root_context t' = root_context t) ->
     (r = None -> busy E b o t') -> Q r t') ->
  wpe (poll_finish fuel addr w) t Q P.
Proof.
  intros Hb HQ. apply (wpe_follows _ (poll_finish_u fuel addr w)); [apply tree_poll_finish_follows|].
  eapply wp_tree_poll_finish_u; [done|]. intros [[p|]|bb m] t' H1 H2; [| |by destruct H2].
  - apply HQ; [by eexists| |done]. intros p' [= <-]. exact H2.
  - apply HQ; [intros ?; by destruct H1|done|done].
Qed.

Lemma wp_tree_poll_step fuel addr w o t (Q : option (poll (option V)) -> tree V -> Prop) :
  busy E b o t ->
  (forall r t', ((work E b t < fuel)%nat -> is_Some r) -> (forall p, r = Some p -> step_post E b addr o t p t') ->
     (r = None -> busy E b o t') -> Q r t') ->
  wpe (poll_step fuel addr w) t Q P.
Proof.
  intros Hb HQ. apply (wpe_follows _ (poll_step_u fuel addr w)); [apply tree_poll_step_follows|].
  eapply wp_tree_poll_step_u; [done|]. intros [[p|]|bb m] t' H1 H2; [| |by destruct H2].
  - apply HQ; [by eexists| |done]. intros p' [= <-]. exact H2.
  - apply HQ; [intros ?; by destruct H1|done|done].
Qed.

Context (HP : P leak).

Lemma wp_tree_op o t :
  tree_rest E b t -> tree_op_ok E b o -> wpe (run_tree_op o) t (fun _ => tree_rest E b) P.
Proof.
  intros Hr Hok. destruct (polls o) eqn:Ho; [|by eapply wp_quiet_op].
  destruct o as [|fuel addr w|fuel addr w| | |]; try done; apply wp_if_busy; try done; intros o Hb; apply wpe_bind.
  - apply (wpe_follows _ (poll_finish_u fuel addr w)); [apply tree_poll_finish_follows|].
    eapply wp_tree_poll_finish_u; [exact Hb|]. intros [r|bb m] t' _ Hf; [|by destruct Hf].
    by eapply wpe_ret, finish_end_rest.
  - apply (wpe_follows _ (poll_step_u fuel addr w)); [apply tree_poll_step_follows|].
    eapply wp_tree_poll_step_u; [exact Hb|]. intros [r|bb m] t' _ Hf; [|by destruct Hf].
    by eapply wpe_ret, step_end_rest.
Qed.

Lemma wp_tree_ops l t :
  tree_rest E b t -> Forall (tree_op_ok E b) l -> wpe (run_tree_ops l) t (fun _ => tree_rest E b) P.
Proof.
  revert t. induction l as [|o l IH]; intros t Hr Hl; cbn [run_tree_ops]; [by apply wpe_ret|].
  apply Forall_cons in Hl as [Ho Hl]. apply wpe_bind. eapply wpe_post; [by apply wp_tree_op|]. intros [] t' Ht'. by apply IH.
Qed.
End calm.

(** A new tree. *)
Lemma new_idle {V} {PN : Panics} (E : gmap nat V) b : idle E b Tree.new.
Proof.
  split; [|done]. split; try done.
  destruct (rest_new (FS := fs E b) (new_mem : mem V)) as (L & held & H); [|by exists L, held].
  split; [apply map_empty_subseteq|]. by intros q sc vs.
Qed.
