(* ===== verification/TreeLive.v ===== *)
(** * No task of the tree is forgotten

    A task that is not in the queue waits for something that will wake it: an
    event whose waker is kept by the outside runtime, or a scope whose task runs
    and holds the waker to call.  Every poll keeps this. *)

From S2P Require Import Prelude Stack Schedular SchedularInv SchedularPoll SchedularView SchedularLive Tree TreeInv TreePoll.
Import Schedular Tree.
#[local] Existing Instance calm.

Section live.
Context {V : Type} (E : gmap nat V).
Implicit Types (u : mem V) (v : view (fut V) (mem V)) (c : conf V) (rt : running_task (fut V)).

(** ** Scopes

    What never changes about the scope with a place: its task, the task that
    awaits it ([None] is the root), its cancel token and the waker to call. *)
Record scope_info := { g_task : nat; g_par : option nat; g_tok : nat; g_waker : option nat }.
Implicit Types (G : gmap nat scope_info) (g : scope_info).

Definition place u (q : nat) : option (option (list V)) := sc_place <$> scopes u !! q.

(** A slot that is not for the waker of a scope. *)
Definition free_slot G v (i : nat) : Prop :=
  (i < length (v_wakers v))%nat /\ forall q g, G !! q = Some g -> g_waker g <> Some i.

(** ** Stacks *)
Definition conf_place c : option (nat * nat) :=
  match c with CScope (SRunning q t) _ _ _ => Some (q, t) | _ => None end.
Definition conf_wakers c : list nat := omap (fun n => n) ((top_task c).1 :: map fst (top_task c).2).

(** A scope that is awaited by [par] and not ready: its task runs and will wake
    [par]. *)
Definition place_live G v (par : option nat) (q t : nat) : Prop :=
  exists g, G !! q = Some g /\ g_par g = par /\ g_tok g = t /\
    (place (v_user v) q = Some None ->
       is_Some (v_tasks v !! g_task g) /\
       forall p, par = Some p -> exists i, g_waker g = Some i /\ v_wakers v !! i = Some (Some p)).

Definition conf_live G v (par : option nat) c : Prop :=
  (forall q t, conf_place c = Some (q, t) -> place_live G v par q t) /\
  (forall i, i ∈ conf_wakers c -> free_slot G v i).

(** ** Tasks *)
Definition is_queued v (id : nat) : Prop := exists rt, v_tasks v !! id = Some rt /\ rt_queued rt = true.

(** What a stack of the task [id] waits for. *)
Definition blocked v (id : nat) c : Prop :=
  match c with
  | CCode (TAwait e _) _ _ =>
      events (v_user v) !! e = None /\
      exists i, (e, STask i) ∈ waiting (v_user v) /\ v_wakers v !! i = Some (Some id)
  | CScope (SRunning q _) _ _ _ => place (v_user v) q = Some None
  | _ => False
  end.

(** A future of a scope that was polled: it is ready, it waits, or its task is
    polled again. *)
Definition stuck v (id : nat) (ch : child V) : Prop :=
  match ch with CStk s => is_queued v id \/ blocked v id (st_conf s) | CFin _ => True end.

(** The contexts of stacks in scopes are never the one of a poll. *)
Definition child_live G v (id : nat) (ch : child V) : Prop :=
  match ch with
  | CStk s => conf_live G v (Some id) (st_conf s) /\ st_context s = Ptr.dangling 1
  | CFin _ => True
  end.

Definition child_place (ch : child V) : option nat :=
  match ch with CStk s => fst <$> conf_place (st_conf s) | CFin _ => None end.
Definition child_places (cs : list (child V)) : list nat := omap child_place cs.

(** What the task [id] with place [q0] owns, when it awaits the scopes [qs]: their
    tokens, its own waker, and clones of the waker of its polls. *)
Definition owned_live G v (id q0 : nat) (qs : list nat) (l : list thing) : Prop :=
  forall x, x ∈ l -> match x with
    | Tok n => exists q g, G !! q = Some g /\ g_par g = Some id /\ g_tok g = n /\
        (q ∈ qs \/ v_tokens v !! n = Some None)
    | Wak i => (exists g, G !! q0 = Some g /\ g_waker g = Some i) \/
        (free_slot G v i /\ forall j, v_wakers v !! i = Some (Some j) -> j = id)
    end.

(** A task that is not polled. *)
Definition task_rest G v (id q : nat) (cs : list (child V)) rt : Prop :=
  Forall (child_live G v id) cs /\ NoDup (child_places cs) /\
  owned_live G v id q (child_places cs) (rt_owned rt) /\
  (rt_queued rt = true \/ Exists (fun ch => exists s, ch = CStk s /\ blocked v id (st_conf s)) cs).

(** Every task has an empty place, and a scope that has a value. *)
Definition task_live G v (cur : option nat) (id : nat) rt : Prop :=
  match rt_future rt with
  | TFut q cs w =>
      (exists g sc, G !! q = Some g /\ g_task g = id /\ g_waker g = w /\
         scopes (v_user v) !! q = Some sc /\ sc_place sc = None /\ is_Some (evals E (sc_body sc))) /\
      (cur <> Some id -> task_rest G v id q cs rt)
  | TFDone => False
  end.

Record info_ok v q g : Prop := {
  io_place : (q < length (scopes (v_user v)))%nat;
  io_task : (g_task g < v_next v)%nat;
  io_par p : g_par g = Some p -> (p < g_task g)%nat;
  io_tok : v_tokens v !! g_tok g = Some None \/ v_tokens v !! g_tok g = Some (Some (g_task g));
  io_waker i : g_waker g = Some i -> (i < length (v_wakers v))%nat;
}.

(** [cur] is polled. *)
Record live G (cur : option nat) v : Prop := {
  lv_tasks id rt : v_tasks v !! id = Some rt -> task_live G v cur id rt;
  lv_info q g : G !! q = Some g -> info_ok v q g;
  lv_task_inj q1 g1 q2 g2 : G !! q1 = Some g1 -> G !! q2 = Some g2 -> g_task g1 = g_task g2 -> q1 = q2;
  lv_waker_inj q1 g1 q2 g2 i :
    G !! q1 = Some g1 -> G !! q2 = Some g2 -> g_waker g1 = Some i -> g_waker g2 = Some i -> q1 = q2;
  lv_waiting e i : (e, STask i) ∈ waiting (v_user v) -> free_slot G v i;
  lv_events : events (v_user v) ⊆ E;
}.

(** ** What changes while a task is polled, or the root

    [T] is the place of a ready scope whose value is taken. *)
Record keeps (T : option nat) G v G' v' : Prop := {
  k_info : G ⊆ G';
  k_tasks j : is_Some (v_tasks v !! j) -> is_Some (v_tasks v' !! j);
  k_queued j : is_queued v j -> is_queued v' j;
  k_place q : is_Some (G !! q) -> T <> Some q -> place (v_user v') q = place (v_user v) q;
  k_free i : free_slot G v i -> free_slot G' v' i;
  k_waker q g i j : G !! q = Some g -> g_waker g = Some i -> v_wakers v !! i = Some (Some j) ->
    v_wakers v' !! i = Some (Some j);
  k_slot i j : v_wakers v !! i = Some (Some j) -> is_Some (v_tasks v !! j) ->
    v_wakers v' !! i = Some (Some j) \/ is_queued v' j;
  k_old i j : (i < length (v_wakers v))%nat -> v_wakers v' !! i = Some (Some j) -> v_wakers v !! i = Some (Some j);
  k_tok n : v_tokens v !! n = Some None -> v_tokens v' !! n = Some None;
  k_wait x : x ∈ waiting (v_user v) -> x ∈ waiting (v_user v');
  k_events : events (v_user v') = events (v_user v);
}.

Lemma place_keeps T G v G' v' par q t :
  keeps T G v G' v' -> T <> Some q -> place_live G v par q t -> place_live G' v' par q t.
Proof.
  intros Hk HT (g & Hq & Hp & Ht & Hl). exists g. split; [by eapply lookup_weaken, (k_info _ _ _ _ _ Hk)|].
  split; [done|]. split; [done|]. rewrite (k_place _ _ _ _ _ Hk q) by by rewrite ?Hq. intros Hn.
  destruct (Hl Hn) as [Hr Hw]. split; [by apply (k_tasks _ _ _ _ _ Hk)|].
  intros p Hpp. destruct (Hw p Hpp) as (i & Hi & Hs). exists i. split; [done|]. by eapply (k_waker _ _ _ _ _ Hk).
Qed.

Lemma conf_keeps T G v G' v' par c :
  keeps T G v G' v' -> (forall q t, conf_place c = Some (q, t) -> T <> Some q) ->
  conf_live G v par c -> conf_live G' v' par c.
Proof.
  intros Hk HT [Hp Hw]. split.
  - intros q t Hq. eapply place_keeps; [done|by eapply HT|by apply Hp].
  - intros i Hi. by apply (k_free _ _ _ _ _ Hk), Hw.
Qed.

Lemma blocked_keeps T G v G' v' id c par :
  keeps T G v G' v' -> (forall q t, conf_place c = Some (q, t) -> T <> Some q) ->
  conf_live G v par c -> is_Some (v_tasks v !! id) -> blocked v id c -> is_queued v' id \/ blocked v' id c.
Proof.
  intros Hk HT [Hp _] Hid. destruct c as [[| | | |e k| |] n fs|[|q t|] k n fs| | |]; try done; cbn [blocked].
  - intros (He & i & Hi & Hs). destruct (k_slot _ _ _ _ _ Hk i id Hs Hid) as [Hs'|Hq]; [right|by left].
    split; [by rewrite (k_events _ _ _ _ _ Hk)|]. exists i. split; [by apply (k_wait _ _ _ _ _ Hk)|done].
  - intros Hn. right. destruct (Hp q t eq_refl) as (g & Hg & _). by rewrite (k_place _ _ _ _ _ Hk q) by (rewrite ?Hg; eauto).
Qed.

Lemma stuck_keeps T G v G' v' id ch :
  keeps T G v G' v' -> (forall q, child_place ch = Some q -> T <> Some q) ->
  child_live G v id ch -> is_Some (v_tasks v !! id) -> stuck v id ch -> stuck v' id ch.
Proof.
  intros Hk HT Hc Hid. destruct ch as [s|x]; [|done]. destruct Hc as [Hc _]. intros [Hq|Hb].
  - left. by apply (k_queued _ _ _ _ _ Hk).
  - eapply blocked_keeps; [done| |done..]. intros q t Hq. apply HT. cbn. by rewrite Hq.
Qed.

Lemma child_keeps T G v G' v' id ch :
  keeps T G v G' v' -> (forall q, child_place ch = Some q -> T <> Some q) ->
  child_live G v id ch -> child_live G' v' id ch.
Proof.
  intros Hk HT. destruct ch as [s|x]; [|done]. intros [Hc Hx]. split; [|done].
  eapply conf_keeps; [done| |done]. intros q t Hq. apply HT. cbn. by rewrite Hq.
Qed.

Lemma owned_keeps T G v G' v' id q0 qs qs' l :
  keeps T G v G' v' -> (forall q, q ∈ qs -> q ∈ qs') -> owned_live G v id q0 qs l -> owned_live G' v' id q0 qs' l.
Proof.
  intros Hk Hqs Ho x Hx. specialize (Ho x Hx). destruct x as [n|i].
  - destruct Ho as (q & g & Hq & Hp & Ht & Hor). exists q, g. split; [by eapply lookup_weaken, (k_info _ _ _ _ _ Hk)|].
    split; [done|]. split; [done|]. destruct Hor as [Hin|Hn]; [left; by apply Hqs|right; by apply (k_tok _ _ _ _ _ Hk)].
  - destruct Ho as [(g & Hq & Hw)|[Hf Hj]].
    + left. exists g. split; [by eapply lookup_weaken, (k_info _ _ _ _ _ Hk)|done].
    + right. split; [by apply (k_free _ _ _ _ _ Hk)|]. intros j Hj'. apply Hj.
      apply (k_old _ _ _ _ _ Hk); [apply Hf|done].
Qed.

(** The places another task awaits are its own. *)
Lemma child_place_par G v id ch q :
  child_live G v id ch -> child_place ch = Some q -> exists g, G !! q = Some g /\ g_par g = Some id.
Proof.
  destruct ch as [s|x]; [|done]. cbn. intros [[Hp _] _]. destruct (conf_place (st_conf s)) as [[q' t]|]; [|done].
  intros [= <-]. destruct (Hp q' t eq_refl) as (g & ? & ? & _). by exists g.
Qed.

Lemma child_places_elem cs q : q ∈ child_places cs <-> exists ch, ch ∈ cs /\ child_place ch = Some q.
Proof. unfold child_places. rewrite list_elem_of_omap. done. Qed.

(** Tasks that are not polled stay live. *)
Lemma task_keeps T G v G' v' cur id rt rt' :
  keeps T G v G' v' ->
  (forall q, T = Some q -> exists g, G !! q = Some g /\ g_par g = cur /\ exists x, place (v_user v) q = Some (Some x)) ->
  (forall q sc, scopes (v_user v) !! q = Some sc -> exists sc', scopes (v_user v') !! q = Some sc' /\ sc_body sc' = sc_body sc) ->
  v_tasks v !! id = Some rt -> v_tasks v' !! id = Some rt' ->
  rt_future rt' = rt_future rt -> (cur <> Some id -> rt_owned rt' = rt_owned rt) ->
  task_live G v cur id rt -> task_live G' v' cur id rt'.
Proof.
  intros Hk HT Hb Hid Hid' Hf Ho. unfold task_live. rewrite Hf. destruct (rt_future rt) as [q cs w|]; [|done].
  intros [(g & sc & Hg & Ht & Hw & Hq & Hn & He) Hrest]. split.
  - exists g. destruct (Hb q sc Hq) as (sc' & Hq' & Hb'). exists sc'.
    split; [by eapply lookup_weaken, (k_info _ _ _ _ _ Hk)|]. split_and!; [done..| |by rewrite Hb'].
    assert (HTq : T <> Some q).
    { intros Heq. destruct (HT q Heq) as (_ & _ & _ & x & Hx). unfold place in Hx. rewrite Hq in Hx. cbn in Hx. congruence. }
    pose proof (k_place _ _ _ _ _ Hk q) as Hp. unfold place in Hp. rewrite Hq, Hq' in Hp. cbn in Hp.
    rewrite Hn in Hp. specialize (Hp ltac:(by eexists) HTq). congruence.
  - intros Hcur. destruct (Hrest Hcur) as (Hc & Hnd & Hown & Hor). rewrite Forall_forall in Hc.
    assert (HTc : forall ch q', ch ∈ cs -> child_place ch = Some q' -> T <> Some q').
    { intros ch q' Hch Hq' Heq. destruct (child_place_par _ _ _ _ _ (Hc ch Hch) Hq') as (g' & Hg' & Hp').
      destruct (HT q' Heq) as (g2 & Hg2 & Hp2 & _). congruence. }
    split_and!.
    + apply Forall_forall. intros ch Hch. eapply child_keeps; [done|by intros; eapply HTc|by apply Hc].
    + done.
    + rewrite (Ho Hcur). by eapply owned_keeps.
    + destruct Hor as [Hq1|Hex].
      * left. destruct (k_queued _ _ _ _ _ Hk id) as (rt2 & Hrt2 & Hq2); [by exists rt|]. congruence.
      * apply Exists_exists in Hex as (ch & Hch & s & -> & Hbl). pose proof (Hc _ Hch) as [Hcl _].
        destruct (blocked_keeps T G v G' v' id (st_conf s) (Some id)) as [(rt2 & Hrt2 & Hq2)|Hbl']; try done.
        -- intros q' t' Hq'. eapply HTc; [done|]. cbn. by rewrite Hq'.
        -- left. congruence.
        -- right. apply Exists_exists. exists (CStk s). split; [done|]. by exists s.
Qed.

(** The whole stays live when the tasks only change so, or are new. *)
Lemma live_keeps T G v G' v' cur :
  live G cur v -> keeps T G v G' v' ->
  (forall q, T = Some q -> exists g, G !! q = Some g /\ g_par g = cur /\ exists x, place (v_user v) q = Some (Some x)) ->
  (forall q sc, scopes (v_user v) !! q = Some sc -> exists sc', scopes (v_user v') !! q = Some sc' /\ sc_body sc' = sc_body sc) ->
  (forall id rt', v_tasks v' !! id = Some rt' ->
     (exists rt, v_tasks v !! id = Some rt /\ rt_future rt' = rt_future rt /\ (cur <> Some id -> rt_owned rt' = rt_owned rt)) \/
     task_live G' v' cur id rt') ->
  (forall q g, G' !! q = Some g -> G !! q = Some g \/ info_ok v' q g) ->
  (forall q g, G !! q = Some g -> info_ok v q g -> info_ok v' q g) ->
  (forall q1 g1 q2 g2, G' !! q1 = Some g1 -> G' !! q2 = Some g2 -> g_task g1 = g_task g2 -> q1 = q2) ->
  (forall q1 g1 q2 g2 i, G' !! q1 = Some g1 -> G' !! q2 = Some g2 -> g_waker g1 = Some i -> g_waker g2 = Some i -> q1 = q2) ->
  (forall e i, (e, STask i) ∈ waiting (v_user v') -> (e, STask i) ∈ waiting (v_user v) \/ free_slot G' v' i) ->
  live G' cur v'.
Proof.
  intros [Ht Hi _ _ Hw He] Hk HT Hb Htk Hg' Hi' H1 H2 Hwt. split; try done.
  - intros id rt' Hid'. destruct (Htk id rt' Hid') as [(rt & Hid & Hf & Ho)|Hl]; [|done].
    eapply task_keeps; [done..|]. by apply Ht.
  - intros q g Hq. destruct (Hg' q g Hq) as [Hq0|Hok]; [|done]. by apply Hi', Hi.
  - intros e i Hx. destruct (Hwt e i Hx) as [Hx'|Hf]; [|done]. by eapply (k_free _ _ _ _ _ Hk), Hw.
  - by rewrite (k_events _ _ _ _ _ Hk).
Qed.

(** ** Steps that keep everything *)
Lemma keeps_user G v (f : mem V -> mem V) :
  let u := v_user v in
  (forall q, is_Some (G !! q) -> place (f u) q = place u q) ->
  (forall x, x ∈ waiting u -> x ∈ waiting (f u)) -> events (f u) = events u ->
  keeps None G v G (on_user f v).
Proof. intros u Hp Hw He. split; try done; cbn; [by auto|by left]. Qed.

Lemma info_same v v' q g :
  (length (scopes (v_user v)) <= length (scopes (v_user v')))%nat -> (v_next v <= v_next v')%nat ->
  (forall n o, v_tokens v !! n = Some o -> v_tokens v' !! n = Some o \/ v_tokens v' !! n = Some None) ->
  (length (v_wakers v) <= length (v_wakers v'))%nat -> info_ok v q g -> info_ok v' q g.
Proof.
  intros H1 H2 H3 H4 []. split; [lia|lia|done| |].
  - destruct io_tok0 as [Hn|Hn]; destruct (H3 _ _ Hn); auto.
  - intros i Hi. specialize (io_waker0 i Hi). lia.
Qed.

(** Memory outside of scopes changes, or scopes are added. *)
Lemma live_user G cur v (f : mem V -> mem V) l :
  let u := v_user v in
  live G cur v -> scopes (f u) = scopes u ++ l -> events (f u) = events u ->
  (forall x, x ∈ waiting u -> x ∈ waiting (f u)) ->
  (forall e i, (e, STask i) ∈ waiting (f u) -> (e, STask i) ∈ waiting u \/ free_slot G v i) ->
  live G cur (on_user f v) /\ keeps None G v G (on_user f v).
Proof.
  cbn zeta. intros Hl Hs He Hw Hw'.
  assert (Hp : forall q, is_Some (G !! q) -> place (f (v_user v)) q = place (v_user v) q).
  { intros q [g Hg]. pose proof (io_place _ _ _ (lv_info _ _ _ Hl q g Hg)) as Hlt.
    unfold place. by rewrite Hs, lookup_app_l. }
  assert (Hk : keeps None G v G (on_user f v)) by by apply keeps_user.
  split; [|done]. eapply live_keeps; [exact Hl|exact Hk|done| | | | | | |].
  - intros q sc Hq. exists sc. cbn. rewrite Hs. by rewrite lookup_app_l by by eapply lookup_lt_Some.
  - intros id rt Hid. left. by exists rt.
  - by left.
  - intros q g Hg. apply info_same; cbn; [rewrite Hs, length_app; lia|lia|by left|lia].
  - apply Hl.
  - apply Hl.
  - exact Hw'.
Qed.

(** Tasks are marked as queued, the polled one comes to own things, and slots that
    are free are used up or added. *)
Lemma live_slots G cur v v' :
  live G cur v -> keeps None G v G v' -> v_user v' = v_user v -> v_next v' = v_next v ->
  (forall n o, v_tokens v !! n = Some o -> v_tokens v' !! n = Some o \/ v_tokens v' !! n = Some None) ->
  (length (v_wakers v) <= length (v_wakers v'))%nat ->
  (forall id rt', v_tasks v' !! id = Some rt' ->
     exists rt, v_tasks v !! id = Some rt /\ rt_future rt' = rt_future rt /\ (cur <> Some id -> rt_owned rt' = rt_owned rt)) ->
  live G cur v'.
Proof.
  intros Hl Hk Hu Hn Ht Hlen Htk. eapply live_keeps; [exact Hl|exact Hk|done| | | | | | |].
  - intros q sc Hq. exists sc. by rewrite Hu.
  - intros id rt Hid. left. by apply Htk.
  - by left.
  - intros q g Hg. apply info_same; [by rewrite Hu|by rewrite Hn|done|done].
  - apply Hl.
  - apply Hl.
  - rewrite Hu. by left.
Qed.

Lemma wake_lookup v id j rt' :
  v_tasks (wake_v id v) !! j = Some rt' -> exists rt, v_tasks v !! j = Some rt /\ rt_future rt' = rt_future rt /\
    rt_owned rt' = rt_owned rt /\ (rt_queued rt = true -> rt_queued rt' = true).
Proof.
  cbn. destruct (decide (j = id)) as [->|Hne].
  - rewrite lookup_alter_eq. destruct (v_tasks v !! id) as [rt|]; [|done]. intros [= <-]. by exists rt.
  - rewrite lookup_alter_ne by done. intros ->. by exists rt'.
Qed.

Lemma wake_some v id j : is_Some (v_tasks v !! j) -> is_Some (v_tasks (wake_v id v) !! j).
Proof.
  cbn. destruct (decide (j = id)) as [->|Hne]; [|by rewrite lookup_alter_ne].
  rewrite lookup_alter_eq. intros [rt ->]. by eexists.
Qed.

Lemma wake_is_queued v id : is_Some (v_tasks v !! id) -> is_queued (wake_v id v) id.
Proof. intros [rt Hrt]. exists (queue_as true rt). split; [|done]. cbn. by rewrite lookup_alter_eq, Hrt. Qed.

Lemma wake_queued_still v id j : is_queued v j -> is_queued (wake_v id v) j.
Proof.
  intros (rt & Hrt & Hq). destruct (wake_some v id j ltac:(by exists rt)) as [rt' Hrt'].
  exists rt'. split; [done|]. destruct (wake_lookup _ _ _ _ Hrt') as (rt2 & H2 & _ & _ & Hm). apply Hm. congruence.
Qed.

Lemma keeps_wake G v id : keeps None G v G (wake_v id v).
Proof. split; try done; [by apply wake_some|by apply wake_queued_still|by left]. Qed.

Lemma live_wake G cur v id : live G cur v -> live G cur (wake_v id v).
Proof.
  intros Hl. eapply live_slots; [exact Hl|apply keeps_wake|done|done|by left|done|].
  intros j rt' Hj. destruct (wake_lookup _ _ _ _ Hj) as (rt & ? & ? & ? & _). by exists rt.
Qed.

(** A free slot is called. *)
Lemma keeps_wake_slot G v i : free_slot G v i -> keeps None G v G (wake_slot i v).
Proof.
  intros [Hlt Hf]. unfold wake_slot. destruct (v_wakers v !! i) as [[id|]|] eqn:Hi; [|by split; auto..].
  split; try done; cbn [v_wakers wake_v on_tasks drop_slot on_wakers].
  - intros j Hj. by apply (wake_some (drop_slot i v)).
  - intros j Hj. by apply (wake_queued_still (drop_slot i v)).
  - intros x [Hx Hx']. split; [cbn; by rewrite length_insert|done].
  - intros q g x j Hq Hx Hj. rewrite list_lookup_insert_ne; [done|]. intros <-. by apply (Hf q g).
  - intros x j Hj Hrun. destruct (decide (x = i)) as [->|Hne]; [|left; by rewrite list_lookup_insert_ne].
    right. rewrite Hi in Hj. injection Hj as ->. by apply (wake_is_queued (drop_slot i v)).
  - intros x j _ [(_ & ? & _)|[_ ?]]%list_lookup_insert_Some; done.
Qed.

Lemma live_wake_slot G cur v i : live G cur v -> free_slot G v i -> live G cur (wake_slot i v).
Proof.
  intros Hl Hf. pose proof (keeps_wake_slot G v i Hf) as Hk. unfold wake_slot in *.
  destruct (v_wakers v !! i) as [[id|]|] eqn:Hi; [|done..].
  eapply live_slots; [exact Hl|exact Hk|done|done|by left|cbn; by rewrite length_insert|].
  intros j rt' Hj. destruct (wake_lookup (drop_slot i v) _ _ _ Hj) as (rt & ? & ? & ? & _). by exists rt.
Qed.

(** A slot is added; the polled task may come to own it. *)
Definition add_slot (x : option nat) (own_by : option nat) v : view (fut V) (mem V) :=
  let v' := on_wakers (fun l => l ++ [x]) v in
  match own_by with
  | Some id => on_tasks (alter (own (Wak (length (v_wakers v)))) id) v'
  | None => v'
  end.

Lemma own_lookup v x id j rt' :
  v_tasks (on_tasks (alter (own x) id) v) !! j = Some rt' ->
  exists rt, v_tasks v !! j = Some rt /\ rt_future rt' = rt_future rt /\ rt_queued rt' = rt_queued rt /\
    rt_owned rt' = if decide (j = id) then rt_owned rt ++ [x] else rt_owned rt.
Proof.
  cbn. destruct (decide (j = id)) as [->|Hne].
  - rewrite lookup_alter_eq. destruct (v_tasks v !! id) as [rt|]; [|done]. intros [= <-]. by exists rt.
  - rewrite lookup_alter_ne by done. intros ->. by exists rt'.
Qed.

Lemma own_some v x id j : is_Some (v_tasks v !! j) -> exists rt, v_tasks v !! j = Some rt /\ exists rt',
  v_tasks (on_tasks (alter (own x) id) v) !! j = Some rt' /\ rt_queued rt' = rt_queued rt.
Proof.
  intros [rt Hrt]. exists rt. split; [done|]. cbn. destruct (decide (j = id)) as [->|Hne].
  - rewrite lookup_alter_eq, Hrt. by eexists.
  - rewrite lookup_alter_ne, Hrt by done. by eexists.
Qed.

Lemma keeps_add_slot G v x o : keeps None G v G (add_slot x o v).
Proof.
  assert (Hk : keeps None G v G (add_slot x None v)).
  { split; try done; cbn.
    - intros i [Hlt Hf]. split; [cbn; rewrite length_app; lia|done].
    - intros q g i j _ _ Hj. by apply lookup_app_l_Some.
    - intros i j Hj _. left. by apply lookup_app_l_Some.
    - intros i j Hlt. by rewrite lookup_app_l. }
  destruct o as [id|]; [|done]. destruct Hk. split; try done; cbn [add_slot].
  - intros j Hj. destruct (own_some v (Wak (length (v_wakers v))) id j Hj) as (rt & _ & rt' & Hrt' & _). by exists rt'.
  - intros j (rt & Hrt & Hq). destruct (own_some v (Wak (length (v_wakers v))) id j ltac:(by eexists)) as (rt1 & H1 & rt' & Hrt' & He).
    exists rt'. split; [done|]. rewrite He. congruence.
  - intros i j Hi Hj. destruct (k_slot0 i j Hi Hj) as [?|(rt & Hrt & Hq)]; [by left|right].
    destruct (own_some v (Wak (length (v_wakers v))) id j ltac:(by eexists)) as (rt1 & H1 & rt' & Hrt' & He).
    exists rt'. split; [done|]. rewrite He. cbn in Hrt. congruence.
Qed.

Lemma live_add_slot G cur v x o : live G cur v -> (o = None \/ o = cur) -> live G cur (add_slot x o v).
Proof.
  intros Hl Ho. eapply live_slots; [exact Hl|apply keeps_add_slot|by destruct o|by destruct o|by destruct o; left| |].
  - destruct o; cbn; rewrite length_app; lia.
  - intros j rt' Hj. destruct o as [id|]; [|by exists rt'].
    destruct (own_lookup (on_wakers (fun l => l ++ [x]) v) _ _ _ _ Hj) as (rt & Hrt & Hf & _ & Hown).
    exists rt. split; [done|]. split; [done|]. intros Hne. rewrite Hown. case_decide as Heq; [|done].
    destruct Ho as [?|Ho]; [done|]. congruence.
Qed.

(** ** A scope is made *)
Lemma task_old G cur v j : live G cur v -> is_Some (v_tasks v !! j) -> (j < v_next v)%nat.
Proof.
  intros Hl [rt Hj]. pose proof (lv_tasks _ _ _ Hl j rt Hj) as Ht. unfold task_live in Ht.
  destruct (rt_future rt) as [q cs w|]; [|done]. destruct Ht as [(g & sc & Hg & <- & _) _].
  apply (io_task _ _ _ (lv_info _ _ _ Hl q g Hg)).
Qed.

Definition own_cur (cur : option nat) (x : thing) v : view (fut V) (mem V) :=
  match cur with Some id => on_tasks (alter (own x) id) v | None => v end.

Lemma own_cur_fields cur x v :
  v_wakers (own_cur cur x v) = v_wakers v /\ v_tokens (own_cur cur x v) = v_tokens v /\
  v_next (own_cur cur x v) = v_next v /\ v_user (own_cur cur x v) = v_user v.
Proof. by destruct cur. Qed.

Lemma own_cur_lookup cur x v j rt' :
  v_tasks (own_cur cur x v) !! j = Some rt' ->
  exists rt, v_tasks v !! j = Some rt /\ rt_future rt' = rt_future rt /\ rt_queued rt' = rt_queued rt /\
    (rt_owned rt' = if decide (cur = Some j) then rt_owned rt ++ [x] else rt_owned rt).
Proof.
  destruct cur as [id|]; cbn [own_cur].
  - intros (rt & H1 & H2 & H3 & H4)%own_lookup. exists rt. split_and!; [done..|]. rewrite H4.
    do 2 case_decide; try done; congruence.
  - intros H. exists rt'. split_and!; [done..|]. by rewrite decide_False.
Qed.

Lemma own_cur_some cur x v j rt :
  v_tasks v !! j = Some rt -> exists rt', v_tasks (own_cur cur x v) !! j = Some rt' /\ rt_queued rt' = rt_queued rt.
Proof.
  intros Hj. destruct cur as [id|]; [|by exists rt].
  destruct (own_some v x id j ltac:(by eexists)) as (rt1 & H1 & rt' & H' & Hq). exists rt'. split; [done|congruence].
Qed.

Definition scope_fut (q : nat) (l : list (prog V)) (w : option nat) : fut V :=
  TFut q (map (fun p => CStk (scope_stk_new p)) l) w.

Lemma new_child_places l : child_places (map (fun p => CStk (scope_stk_new p)) l : list (child V)) = [].
Proof. induction l; [done|]. cbn. exact IHl. Qed.

(** The state after [push_cancellable] in the first poll of a [ScopeFuture]; the
    clone of the waker of [cur], when there is one, is the last slot. *)
Definition scoped cur q l w xs v : view (fut V) (mem V) :=
  own_cur cur (Tok (length (v_tokens v)))
    (spawn_v (scope_fut q l w) (match w with Some i => [i] | None => [] end) (on_wakers (fun ws => ws ++ xs) v)).
Definition new_info cur w v : scope_info :=
  {| g_task := v_next v; g_par := cur; g_tok := length (v_tokens v); g_waker := w |}.

Lemma scoped_lookup cur q l w xs v j rt' :
  v_tasks (scoped cur q l w xs v) !! j = Some rt' ->
  (j = v_next v /\ rt_future rt' = scope_fut q l w /\ rt_queued rt' = true /\
     rt_owned rt' = map Wak (match w with Some i => [i] | None => [] end) ++
       (if decide (cur = Some j) then [Tok (length (v_tokens v))] else [])) \/
  (j <> v_next v /\ exists rt, v_tasks v !! j = Some rt /\ rt_future rt' = rt_future rt /\ rt_queued rt' = rt_queued rt /\
     rt_owned rt' = if decide (cur = Some j) then rt_owned rt ++ [Tok (length (v_tokens v))] else rt_owned rt).
Proof.
  intros (rt & Hj & Hf & Hq & Ho)%own_cur_lookup. cbn in Hj.
  apply lookup_insert_Some in Hj as [[<- <-]|[Hne Hj]].
  - left. cbn in Hf, Hq, Ho. split_and!; [done..|]. rewrite Ho. case_decide; [done|by rewrite app_nil_r].
  - right. split; [done|]. by exists rt.
Qed.

(** What the scope adds to the view. *)
Section scoped.
Context G (cur : option nat) v (q : nat) (l : list (prog V)) (w : option nat) (xs : list (option nat)).
Context (Hl : live G cur v) (Hq : G !! q = None).
Context (Hw : xs = [] /\ w = None /\ cur = None \/ xs = [cur] /\ w = Some (length (v_wakers v))).
Abbreviation G' := (<[q := new_info cur w v]> G).
Abbreviation v' := (scoped cur q l w xs v).

Lemma scoped_fields :
  v_wakers v' = v_wakers v ++ xs /\ v_tokens v' = v_tokens v ++ [Some (v_next v)] /\
  v_next v' = S (v_next v) /\ v_user v' = v_user v.
Proof.
  exact (own_cur_fields cur (Tok (length (v_tokens v)))
    (spawn_v (scope_fut q l w) (match w with Some i => [i] | None => [] end) (on_wakers (fun ws => ws ++ xs) v))).
Qed.

Lemma scoped_waker i : w = Some i -> i = length (v_wakers v) /\ v_wakers v' !! i = Some cur.
Proof.
  destruct scoped_fields as (Ew & _). intros Hi. destruct Hw as [(_ & ? & _)|[-> ?]]; [congruence|].
  assert (i = length (v_wakers v)) as -> by congruence. split; [done|]. by rewrite Ew, lookup_app_r, Nat.sub_diag.
Qed.

Lemma scoped_task j rt :
  v_tasks v !! j = Some rt -> exists rt', v_tasks v' !! j = Some rt' /\ rt_queued rt' = rt_queued rt.
Proof.
  intros Hj. apply own_cur_some. cbn. rewrite lookup_insert_ne; [done|].
  pose proof (task_old _ _ _ j Hl ltac:(by eexists)). lia.
Qed.

Lemma scoped_new : is_Some (v_tasks v' !! v_next v).
Proof.
  destruct (own_cur_some cur (Tok (length (v_tokens v)))
    (spawn_v (scope_fut q l w) (match w with Some i => [i] | None => [] end) (on_wakers (fun ws => ws ++ xs) v))
    (v_next v) _ (lookup_insert_eq _ _ _)) as (rt' & Hrt' & _). by exists rt'.
Qed.

Lemma keeps_scoped : keeps None G v G' v'.
Proof.
  destruct scoped_fields as (Ew & Et & En & Eu).
  split.
  - by apply insert_subseteq.
  - intros j [rt Hj]. destruct (scoped_task j rt Hj) as (rt' & ? & _). by exists rt'.
  - intros j (rt & Hj & Hqd). destruct (scoped_task j rt Hj) as (rt' & ? & ?). exists rt'. split; [done|congruence].
  - intros q' _ _. by rewrite Eu.
  - intros i [Hlt Hf]. split; [rewrite Ew, length_app; lia|]. intros q' g' [[<- <-]|[_ Hg]]%lookup_insert_Some; [|by apply (Hf q' g')].
    cbn. intros Hi. destruct (scoped_waker i Hi) as [-> _]. lia.
  - intros q' g i j _ _ Hj. rewrite Ew. by apply lookup_app_l_Some.
  - intros i j Hj _. left. rewrite Ew. by apply lookup_app_l_Some.
  - intros i j Hlt. by rewrite Ew, lookup_app_l.
  - intros n Hn. rewrite Et. by apply lookup_app_l_Some.
  - intros x. by rewrite Eu.
  - by rewrite Eu.
Qed.

(** The task of the scope is as it should be, with its stacks not yet polled. *)
Lemma scoped_task_live rt' :
  scopes (v_user v) !! q = Some {| sc_body := l; sc_place := None |} -> is_Some (evals E l) ->
  cur <> Some (v_next v) -> rt_future rt' = scope_fut q l w -> rt_queued rt' = true ->
  rt_owned rt' = map Wak (match w with Some i => [i] | None => [] end) ++
    (if decide (cur = Some (v_next v)) then [Tok (length (v_tokens v))] else []) ->
  task_live G' v' cur (v_next v) rt'.
Proof.
  destruct scoped_fields as (_ & _ & _ & Eu). intros Hsc Hev Hne Hf Hqd Ho.
  unfold task_live. rewrite Hf. unfold scope_fut. split.
  - exists (new_info cur w v), {| sc_body := l; sc_place := None |}. rewrite Eu. split; [apply lookup_insert_eq|done].
  - intros Hc. split_and!; [|by rewrite new_child_places; apply NoDup_nil_2| |by left].
    + apply Forall_forall. intros ch (p & -> & _)%list_elem_of_fmap. split; [|done].
      split; [done|]. intros i Hi. by apply not_elem_of_nil in Hi.
    + intros x Hx. rewrite Ho, decide_False, app_nil_r in Hx by done.
      apply list_elem_of_fmap in Hx as (i & -> & Hi). left. exists (new_info cur w v).
      split; [apply lookup_insert_eq|]. destruct w as [i'|]; [|by apply not_elem_of_nil in Hi].
      apply list_elem_of_singleton in Hi as ->. done.
Qed.
End scoped.

Lemma live_scoped G cur v q l w xs :
  live G cur v -> G !! q = None ->
  scopes (v_user v) !! q = Some {| sc_body := l; sc_place := None |} -> is_Some (evals E l) ->
  (xs = [] /\ w = None /\ cur = None \/ xs = [cur] /\ w = Some (length (v_wakers v))) ->
  (forall p, cur = Some p -> is_Some (v_tasks v !! p)) ->
  let G' := <[q := new_info cur w v]> G in let v' := scoped cur q l w xs v in
  live G' cur v' /\ keeps None G v G' v' /\ place_live G' v' cur q (length (v_tokens v)).
Proof.
  intros Hl Hq Hsc Hev Hw Hcur G' v'. destruct (scoped_fields cur v q l w xs) as (Ew & Et & En & Eu). fold v' in Ew, Et, En, Eu.
  pose proof (scoped_waker cur v q l w xs Hw) as Hwlt. fold v' in Hwlt.
  pose proof (keeps_scoped G cur v q l w xs Hl Hq Hw) as Hk. fold G' v' in Hk.
  assert (Hlt : forall p, cur = Some p -> (p < v_next v)%nat) by (intros p Hp; by apply (task_old _ _ _ _ Hl), Hcur).
  split; [|split; [exact Hk|]].
  - eapply live_keeps; [exact Hl|exact Hk|done| | | | | | |].
    + intros q' sc Hq'. exists sc. by rewrite Eu.
    + intros j rt' [(-> & Hf & Hqd & Ho)|(Hne & rt & Hj & Hf & Hqd & Ho)]%scoped_lookup.
      * right. apply scoped_task_live; try done. intros Hc%Hlt. lia.
      * left. exists rt. split; [done|]. split; [done|]. intros Hc. by rewrite Ho, decide_False.
    + intros q' g [[<- <-]|[_ Hg]]%lookup_insert_Some; [right|by left]. split; cbn.
      * rewrite Eu. by eapply lookup_lt_Some.
      * rewrite En. lia.
      * exact Hlt.
      * right. by rewrite Et, lookup_app_r, Nat.sub_diag.
      * intros i Hi. destruct (Hwlt i Hi) as [_ Hs]. by eapply lookup_lt_Some.
    + intros q' g _. apply info_same; [by rewrite Eu|rewrite En; lia| |rewrite Ew, length_app; lia].
      intros n o Hn. left. rewrite Et. by apply lookup_app_l_Some.
    + intros q1 g1 q2 g2 [[<- <-]|[Hn1 H1]]%lookup_insert_Some [[<- <-]|[Hn2 H2]]%lookup_insert_Some; [done|..].
      * intros He. pose proof (io_task _ _ _ (lv_info _ _ _ Hl _ _ H2)). cbn in He. lia.
      * intros He. pose proof (io_task _ _ _ (lv_info _ _ _ Hl _ _ H1)). cbn in He. lia.
      * by apply (lv_task_inj _ _ _ Hl).
    + intros q1 g1 q2 g2 i [[<- <-]|[Hn1 H1]]%lookup_insert_Some [[<- <-]|[Hn2 H2]]%lookup_insert_Some; [done|..].
      * cbn. intros Hi Hi2. pose proof (io_waker _ _ _ (lv_info _ _ _ Hl _ _ H2) i Hi2). destruct (Hwlt i Hi). lia.
      * cbn. intros Hi2 Hi. pose proof (io_waker _ _ _ (lv_info _ _ _ Hl _ _ H1) i Hi2). destruct (Hwlt i Hi). lia.
      * by apply (lv_waker_inj _ _ _ Hl).
    + intros e i. rewrite Eu. by left.
  - exists (new_info cur w v). split; [apply lookup_insert_eq|]. split; [done|]. split; [done|].
    intros _. split; [apply scoped_new|]. intros p ->. destruct Hw as [(_ & _ & ?)|[_ ->]]; [done|].
    exists (length (v_wakers v)). split; [done|]. by apply Hwlt.
Qed.

(** ** The value of a scope is taken *)
Lemma place_put u q o q' :
  place (put_place q o u) q' = if decide (q' = q) then (fun _ => o) <$> scopes u !! q else place u q'.
Proof.
  unfold place, put_place. destruct (scopes u !! q) as [sc|] eqn:Hq; [|case_decide; [by subst; rewrite Hq|done]].
  cbn. destruct (decide (q' = q)) as [->|Hne].
  - by rewrite list_lookup_insert_eq by by eapply lookup_lt_Some.
  - by rewrite list_lookup_insert_ne.
Qed.

Lemma put_same u q o :
  scopes (put_place q o u) = scopes u \/ (exists sc, scopes u !! q = Some sc /\
    scopes (put_place q o u) = <[q := {| sc_body := sc_body sc; sc_place := o |}]> (scopes u)).
Proof. unfold put_place. destruct (scopes u !! q) as [sc|]; [right; by exists sc|by left]. Qed.

Lemma put_fields u q o : events (put_place q o u) = events u /\ waiting (put_place q o u) = waiting u.
Proof. unfold put_place. by destruct (scopes u !! q). Qed.

Lemma put_bodies u q o q' sc :
  scopes u !! q' = Some sc -> exists sc', scopes (put_place q o u) !! q' = Some sc' /\ sc_body sc' = sc_body sc.
Proof.
  intros Hq'. destruct (put_same u q o) as [->|(sc0 & Hq & ->)]; [by exists sc|].
  destruct (decide (q' = q)) as [->|Hne].
  - rewrite list_lookup_insert_eq by by eapply lookup_lt_Some. eexists. split; [done|]. cbn. congruence.
  - rewrite list_lookup_insert_ne by done. by exists sc.
Qed.

Lemma put_length u q o : length (scopes (put_place q o u)) = length (scopes u).
Proof. destruct (put_same u q o) as [->|(sc0 & _ & ->)]; [done|]. by rewrite length_insert. Qed.

(** A place that is empty. *)
Lemma put_none u q : place u q = Some None -> put_place q None u = u.
Proof.
  unfold place, put_place. destruct (scopes u !! q) as [[l o]|] eqn:Hq; [|done]. cbn. intros [= ->].
  rewrite list_insert_id by done. by destruct u.
Qed.

(** The task of a scope that has a value does not run. *)
Lemma ready_stopped G cur v q g x :
  live G cur v -> G !! q = Some g -> place (v_user v) q = Some (Some x) -> v_tasks v !! g_task g = None.
Proof.
  intros Hl Hg Hp. destruct (v_tasks v !! g_task g) as [rt|] eqn:Hrt; [|done]. exfalso.
  pose proof (lv_tasks _ _ _ Hl _ _ Hrt) as Ht. unfold task_live in Ht.
  destruct (rt_future rt) as [q' cs w|]; [|done]. destruct Ht as [(g' & sc & Hg' & Htk & _ & Hs & Hn & _) _].
  assert (q' = q) as -> by by eapply (lv_task_inj _ _ _ Hl).
  unfold place in Hp. rewrite Hs in Hp. cbn in Hp. congruence.
Qed.

Lemma scope_taken G cur v v' q t x :
  live G cur v -> place_live G v cur q t -> place (v_user v) q = Some (Some x) ->
  v' = on_user (put_place q None) v \/ v' = on_tokens (fun l => <[t := None]> l) (on_user (put_place q None) v) ->
  live G cur v' /\ keeps (Some q) G v G v' /\ (forall j, v_tokens v !! t = Some (Some j) -> v_tasks v !! j = None).
Proof.
  intros Hl (g & Hg & Hpar & <- & _) Hp Hv'. destruct (put_fields (v_user v) q None) as [He Hw].
  assert (Hf : v_tasks v' = v_tasks v /\ v_wakers v' = v_wakers v /\ v_next v' = v_next v /\
    v_user v' = put_place q None (v_user v)) by by destruct Hv' as [-> | ->].
  destruct Hf as (Et & Ew & En & Eu).
  assert (Htok : forall n o, v_tokens v !! n = Some o -> v_tokens v' !! n = Some o \/ v_tokens v' !! n = Some None).
  { intros n o Hn. destruct Hv' as [-> | ->]; [by left|]. cbn. destruct (decide (n = g_tok g)) as [->|Hne].
    - right. by rewrite list_lookup_insert_eq by by eapply lookup_lt_Some.
    - left. by rewrite list_lookup_insert_ne. }
  assert (Hfree : forall i, free_slot G v i -> free_slot G v' i) by (intros i [? ?]; split; [by rewrite Ew|done]).
  assert (Hk : keeps (Some q) G v G v').
  { split; rewrite ?Et, ?Ew, ?Eu, ?He, ?Hw; try done.
    - intros j (rt & Hj & Hq). exists rt. by rewrite Et.
    - intros q' _ Hne. rewrite place_put, decide_False; [done|congruence].
    - by left.
    - intros n Hn. by destruct (Htok n _ Hn). }
  split; [|split; [exact Hk|]].
  - eapply live_keeps; [exact Hl|exact Hk| | | | | |apply Hl|apply Hl|].
    + intros q' [= <-]. exists g. split; [done|]. split; [done|by exists x].
    + intros q' sc Hq'. rewrite Eu. by apply put_bodies.
    + intros j rt Hj. left. exists rt. by rewrite <- Et.
    + by left.
    + intros q' g' _. apply info_same; [by rewrite Eu, put_length|by rewrite En|done|by rewrite Ew].
    + intros e i. rewrite Eu, Hw. by left.
  - intros j Hj. destruct (io_tok _ _ _ (lv_info _ _ _ Hl q g Hg)) as [Hn|Hn]; [congruence|].
    assert (j = g_task g) as -> by congruence. by eapply ready_stopped.
Qed.
End live.
