(* ===== verification/TreeLivePoll.v ===== *)
(** * Polls in the tree keep every task waiting for something

    The pieces of the poll of a stack, of a task or of the root, from the top
    down: a call, a scope, an event; a step of a stack; a future of a scope. *)

From S2P Require Import Prelude Exc Stack Schedular SchedularInv SchedularPoll SchedularView SchedularLive SchedularUnwind.
From S2P Require Import Tree TreeInv TreePoll TreeLive.
Import Schedular Tree.
#[local] Existing Instance calm.

(** What [act_ok] says of the end of a poll, together with [act_v]. *)
Lemma act_v_ok {F U} {FS : FutureSpec F U} {R} o (post : nat -> U -> R -> Prop) (postv : view F U -> R -> Prop) n v (a : act F U R) :
  act_ok post n (v_user v) a -> act_v o postv v a ->
  act_v o (fun v r => postv v r /\ exists m, post m (v_user v) r) v a.
Proof.
  revert n v. induction a as [r|m| |k IH|b k IH|f l k IH|[j|i] k IH|i k IH|k IH|k IH|g k IH];
    intros n v; cbn [act_ok act_v]; try done; try (by auto).
  - intros Hp Hv. split; [done|by exists n].
  - intros (m & -> & Ha) Hv. eapply IH; [|done]. destruct o; exact Ha.
  - intros Ha Hv. eapply IH; [|done]. specialize (Ha (length (v_wakers v))). by destruct o, b.
  - intros (Hf & m & -> & Ha) Hv. eapply IH; [|done]. specialize (Ha (length (v_tokens v))). by destruct o.
  - intros Ha (H1 & H2 & H3). split; [done|]. split; [by eapply IH|]. destruct o; [|done]. intros Hn. eapply IH; [done|by apply H3].
  - intros (m & -> & Ha) Hv. eapply IH; [|done]. unfold wake_slot. by destruct (v_wakers v !! i) as [[j|]|].
  - intros Ha Hv. by eapply IH.
  - intros (Hle & Hok & Ha) Hv. by eapply IH.
Qed.

(** A guard; nothing is said of a panic. *)
Lemma act_v_finally {F U R} o (post : view F U -> R -> Prop) v (a : act F U R) g :
  act_v o (fun v r => post (on_user g v) r) v a -> act_v o post v (afinally g a).
Proof.
  unfold afinally. revert v. induction a as [r|m| |k IH|own k IH|f l k IH|[n|i] k IH|i k IH|k IH|k IH|g' k IH];
    intros v; cbn [act_v acatch abind aresult]; try done; try (by auto).
  intros (H1 & H2 & H3). split_and!; [done|by auto|]. destruct o; [|done]. auto.
Qed.

Section poll.
Context {V : Type} (E : gmap nat V).
Implicit Types (u : mem V) (v : view (fut V) (mem V)) (c : conf V) (rt : running_task (fut V)) (p : prog V).
Implicit Types (G : gmap nat scope_info) (g : scope_info).

Abbreviation live := (live E).
Abbreviation eval := (TreeInv.eval E).

(** ** What is kept during the poll of one stack

    The poll is of the task [o], with future [f0] whose place is [q0], or of the
    root.  [fr] are the other stacks that count, with the tasks they belong to,
    and [sk] the futures of the task that were polled before.  The stack that is
    polled has the wakers [ws] and awaits the scope [pl]. *)
Context (o : who) (cx : context) (ctx : Z).
Context (fr : list (option nat * conf V)) (sk : list (child V)) (f0 : fut V) (q0 : nat).

Definition par : option nat := match o with AsTask id => Some id | AsRoot _ => None end.
Definition fr_places : list nat := omap (fun x => fst <$> conf_place x.2) fr.
Definition pl_places (pl : option (nat * nat)) : list nat := match pl with Some (q, _) => [q] | None => [] end.

Context (Hcx : cx_root cx = match o with AsTask _ => None | AsRoot w => Some w end).
Context (Hctx : par <> None -> ctx <> cx_addr cx).
Context (Hsk : forall s id, o = AsTask id -> CStk s ∈ sk -> (Some id, st_conf s) ∈ fr).

Record inv G v (ws : list nat) (pl : option (nat * nat)) : Prop := {
  iv_live : live G par v;
  iv_own id : o = AsTask id -> exists rt, v_tasks v !! id = Some rt /\ rt_future rt = f0 /\
    owned_live G v id q0 (pl_places pl ++ fr_places) (rt_owned rt);
  iv_frame x : x ∈ fr -> conf_live G v x.1 x.2;
  iv_stuck id ch : o = AsTask id -> ch ∈ sk -> stuck v id ch;
  iv_wakers i : i ∈ ws -> free_slot G v i;
  iv_place q t : pl = Some (q, t) -> place_live G v par q t /\ (q ∉ fr_places);
}.

Lemma fr_place x q t : x ∈ fr -> conf_place x.2 = Some (q, t) -> q ∈ fr_places.
Proof. intros Hx Hq. apply list_elem_of_omap. exists x. by rewrite Hq. Qed.

Lemma inv_step T G v G' v' ws ws' pl pl' :
  inv G v ws pl -> keeps T G v G' v' -> live G' par v' -> (forall q, T = Some q -> exists t, pl = Some (q, t)) ->
  (forall id rt, o = AsTask id -> v_tasks v !! id = Some rt ->
     owned_live G v id q0 (pl_places pl ++ fr_places) (rt_owned rt) ->
     exists rt', v_tasks v' !! id = Some rt' /\ rt_future rt' = rt_future rt /\
       owned_live G' v' id q0 (pl_places pl' ++ fr_places) (rt_owned rt')) ->
  (forall i, i ∈ ws' -> i ∈ ws \/ free_slot G' v' i) ->
  (forall q t, pl' = Some (q, t) -> pl = pl' /\ T = None \/ place_live G' v' par q t /\ (q ∉ fr_places)) ->
  inv G' v' ws' pl'.
Proof.
  intros [Hl Ho Hf Hs Hw Hp] Hk Hl' HT Ho' Hw' Hp'.
  assert (HTf : forall x q t, x ∈ fr -> conf_place x.2 = Some (q, t) -> T <> Some q).
  { intros x q t Hx Hq Heq. destruct (HT q Heq) as [t' Hpl]. destruct (Hp q t' Hpl) as [_ Hout].
    apply Hout. by eapply fr_place. }
  split.
  - done.
  - intros id Hid. destruct (Ho id Hid) as (rt & Hrt & Hf0 & Hown).
    destruct (Ho' id rt Hid Hrt Hown) as (rt' & Hrt' & Hf' & Hown'). exists rt'. by rewrite Hf'.
  - intros x Hx. eapply conf_keeps; [done| |by apply Hf]. intros q t. by apply HTf.
  - intros id ch Hid Hch. specialize (Hs id ch Hid Hch). destruct ch as [s|y]; [|done].
    pose proof (Hsk s id Hid Hch) as Hfr. destruct Hs as [Hq|Hb]; [left; by apply (k_queued _ _ _ _ _ Hk)|].
    destruct (Ho id Hid) as (rt & Hrt & _).
    eapply blocked_keeps; [done| |by apply (Hf _ Hfr)|by eexists|done]. intros q t. by apply (HTf _ q t Hfr).
  - intros i [Hi|Hi]%Hw'; [|done]. by apply (k_free _ _ _ _ _ Hk), Hw.
  - intros q t Hq. destruct (Hp' q t Hq) as [[-> ->]|?]; [|done].
    destruct (Hp q t Hq) as [Hpl Hout]. split; [|done]. by eapply place_keeps.
Qed.

(** The polled task changes only as the others may. *)
Lemma own_step G v G' v' pl id rt rt' :
  keeps None G v G' v' -> v_tasks v' !! id = Some rt' -> rt_future rt' = rt_future rt -> rt_owned rt' = rt_owned rt ->
  owned_live G v id q0 (pl_places pl ++ fr_places) (rt_owned rt) ->
  exists rt', v_tasks v' !! id = Some rt' /\ rt_future rt' = rt_future rt /\
    owned_live G' v' id q0 (pl_places pl ++ fr_places) (rt_owned rt').
Proof. intros Hk Hrt Hf Ho Hown. exists rt'. rewrite Ho. split_and!; [done..|]. by eapply owned_keeps. Qed.

(** ** Changes of the memory *)
Lemma inv_user G v ws pl (f : mem V -> mem V) l :
  inv G v ws pl -> scopes (f (v_user v)) = scopes (v_user v) ++ l -> events (f (v_user v)) = events (v_user v) ->
  (forall x, x ∈ waiting (v_user v) -> x ∈ waiting (f (v_user v))) ->
  (forall e i, (e, STask i) ∈ waiting (f (v_user v)) -> (e, STask i) ∈ waiting (v_user v) \/ free_slot G v i) ->
  inv G (on_user f v) ws pl.
Proof.
  intros Hi Hs He Hw Hw'. destruct (live_user E G par v f l (iv_live _ _ _ _ Hi) Hs He Hw Hw') as [Hl Hk].
  eapply inv_step; [exact Hi|exact Hk|exact Hl|done| |by left|by left].
  intros id rt _ Hrt. by eapply own_step.
Qed.

Lemma inv_quiet G v ws pl (f : mem V -> mem V) :
  inv G v ws pl -> scopes (f (v_user v)) = scopes (v_user v) -> events (f (v_user v)) = events (v_user v) ->
  waiting (f (v_user v)) = waiting (v_user v) -> inv G (on_user f v) ws pl.
Proof.
  intros Hi Hs He Hw. apply (inv_user G v ws pl f []); [done|by rewrite app_nil_r|done|by rewrite Hw|].
  intros e i. rewrite Hw. by left.
Qed.

(** ** Wakers *)
Lemma who_cases : (exists id, o = AsTask id) \/ (exists w, o = AsRoot w).
Proof. destruct o; eauto. Qed.

Lemma inv_wake_self G v ws pl : inv G v ws pl -> inv G (wake_self_v o v) ws pl.
Proof.
  intros Hi. destruct who_cases as [[id Ho]|[w Ho]]; rewrite Ho; [|done]. cbn [wake_self_v].
  eapply inv_step; [exact Hi|apply keeps_wake|apply live_wake, Hi|done| |by left|by left].
  intros id' rt _ Hrt Hown. destruct (wake_some v id id' ltac:(by eexists)) as [rt' Hrt'].
  destruct (wake_lookup _ _ _ _ Hrt') as (rt2 & H2 & Hf & Hown' & _). assert (rt2 = rt) as -> by congruence.
  eapply own_step; [apply keeps_wake|done..].
Qed.

Lemma inv_wake_slot G v ws pl i : inv G v ws pl -> free_slot G v i -> inv G (wake_slot i v) ws pl.
Proof.
  intros Hi Hf. pose proof (keeps_wake_slot G v i Hf) as Hk.
  eapply inv_step; [exact Hi|exact Hk|by apply live_wake_slot; [apply Hi|]|done| |by left|by left].
  intros id rt _ Hrt Hown.
  assert (H : exists rt', v_tasks (wake_slot i v) !! id = Some rt' /\ rt_future rt' = rt_future rt /\ rt_owned rt' = rt_owned rt).
  { unfold wake_slot. destruct (v_wakers v !! i) as [[j|]|]; [|by exists rt..].
    destruct (wake_some (drop_slot i v) j id ltac:(by eexists)) as [rt' Hrt'].
    destruct (wake_lookup _ _ _ _ Hrt') as (rt2 & H2 & Hf2 & Ho2 & _). exists rt'.
    change (v_tasks (drop_slot i v)) with (v_tasks v) in H2. assert (rt2 = rt) as -> by congruence. done. }
  destruct H as (rt' & ? & ? & ?). by eapply own_step.
Qed.

(** The slot of a new clone is free. *)
Lemma new_slot_free G v x own_by : live G par v -> free_slot G (add_slot x own_by v) (length (v_wakers v)).
Proof.
  intros Hl. assert (Hw : v_wakers (add_slot x own_by v) = v_wakers v ++ [x]) by by destruct own_by.
  split; [rewrite Hw, length_app; cbn; lia|]. intros q g Hg Hi.
  pose proof (io_waker _ _ _ (lv_info _ _ _ _ Hl q g Hg) _ Hi). lia.
Qed.

Lemma clone_add b v : clone_v o b v = add_slot par (if b then par else None) v.
Proof. unfold clone_v, par. by destruct o, b. Qed.

Lemma inv_clone b G v ws pl :
  inv G v ws pl -> inv G (clone_v o b v) (length (v_wakers v) :: ws) pl /\
    v_wakers (clone_v o b v) !! length (v_wakers v) = Some par /\ v_user (clone_v o b v) = v_user v.
Proof.
  intros Hi. rewrite clone_add. set (own_by := if b then par else None).
  pose proof (new_slot_free G v par own_by (iv_live _ _ _ _ Hi)) as Hfree.
  assert (Hw : v_wakers (add_slot par own_by v) = v_wakers v ++ [par]) by by destruct own_by.
  assert (Hs : v_wakers (add_slot par own_by v) !! length (v_wakers v) = Some par).
  { by rewrite Hw, lookup_app_r, Nat.sub_diag. }
  split; [|split; [done|by destruct own_by]].
  assert (Hk : keeps None G v G (add_slot par own_by v)) by apply keeps_add_slot.
  eapply inv_step; [exact Hi|exact Hk| |done| | |by left].
  - apply live_add_slot; [apply Hi|]. unfold own_by. destruct b; auto.
  - intros id rt Ho Hrt Hown. unfold own_by in *. destruct b; [|by eapply own_step].
    assert (Hp : par = Some id) by (unfold par; by rewrite Ho). rewrite Hp in *.
    exists (own (Wak (length (v_wakers v))) rt). split_and!; [cbn; by rewrite lookup_alter_eq, Hrt|done|].
    intros x [Hx|Hx%list_elem_of_singleton]%elem_of_app.
    + eapply (owned_keeps None G v); [done| |exact Hown|done]. done.
    + subst x. right. split; [done|]. intros j Hj. rewrite Hs in Hj. congruence.
  - intros i [->|Hi']%elem_of_cons; [by right|by left].
Qed.

(** ** The pieces of a poll *)
Abbreviation av := (act_v (F := fut V) (U := mem V) o).

Lemma av_with_context {R} (post : view (fut V) (mem V) -> R -> Prop) v a : av post v a -> av post v (with_context a).
Proof. intros Ha. cbn. by destruct (stack_ptr (v_user v)). Qed.

Lemma av_tree_with_context {R} (post : view (fut V) (mem V) -> R -> Prop) v a :
  av post v a -> av post v (tree_with_context a).
Proof. intros Ha. cbn. by destruct (tree_ptr (v_user v)). Qed.

Lemma av_push_task {R} (post : view (fut V) (mem V) -> R -> Prop) v st k :
  av post v (k NewTask) -> av post v (push_task st k).
Proof. intros Hk. unfold push_task. by case_decide. Qed.

Lemma av_poll_stk {R} (post : view (fut V) (mem V) -> R -> Prop) G v ws pl st k :
  inv G v ws pl ->
  (forall n v', inv G v' (match n with Some i => i :: ws | None => ws end) pl -> v_user v' = v_user v -> av post v' (k n NewTask)) ->
  av post v (poll_stk cx ctx st k).
Proof.
  intros Hi Hk. apply av_with_context. destruct (_ =? _)%Z; [by apply av_push_task, Hk|].
  cbn [act_v]. destruct (inv_clone true _ _ _ _ Hi) as (Hi' & _ & Hu). apply av_push_task. by apply (Hk (Some _)).
Qed.

(** A future that waits for an event. *)
Definition registered_for v e : Prop :=
  match o with
  | AsTask id => exists i, (e, STask i) ∈ waiting (v_user v) /\ v_wakers v !! i = Some (Some id)
  | AsRoot w => (e, SRoot w) ∈ waiting (v_user v)
  end.

Definition add_waiting e x : mem V -> mem V := fun u => set_waiting (waiting u ++ [(e, x)]) u.

Lemma inv_add_waiting G v ws pl e x :
  inv G v ws pl -> (forall i, x = STask i -> free_slot G v i) -> inv G (on_user (add_waiting e x) v) ws pl.
Proof.
  intros Hi Hx. apply (inv_user G v ws pl _ []); [done|cbn; by rewrite app_nil_r|done|cbn; intros; apply elem_of_app; by left|].
  cbn. intros e' i [Hw|Heq%list_elem_of_singleton]%elem_of_app; [by left|right]. apply Hx. congruence.
Qed.

Lemma av_register {R} (post : view (fut V) (mem V) -> R -> Prop) G v ws pl e k :
  inv G v ws pl ->
  (forall v', inv G v' ws pl -> events (v_user v') = events (v_user v) -> registered_for v' e -> av post v' k) ->
  av post v (register cx e k).
Proof.
  intros Hi Hk. unfold register. rewrite Hcx.
  assert (Hr : forall r, r = match o with AsTask _ => None | AsRoot w => Some w end ->
    av post v (match r with
      | Some w => AUpd (add_waiting e (SRoot w)) k
      | None => AClone false (fun i => AUpd (add_waiting e (STask i)) k)
      end)); [|by apply Hr].
  intros [w|] Hr; cbn [act_v].
  - apply Hk; [by apply inv_add_waiting|done|]. unfold registered_for. destruct o; [done|].
    injection Hr as <-. cbn. apply elem_of_app. right. by left.
  - destruct (inv_clone false _ _ _ _ Hi) as (Hi' & Hs & Hu). apply Hk.
    + destruct (inv_add_waiting G _ _ pl e (STask (length (v_wakers v))) Hi') as [H1 H2 H3 H4 H5 H6].
      { intros i [= <-]. apply (iv_wakers _ _ _ _ Hi'). by left. }
      split; [done..| |done]. intros i Hx. apply H5. by right.
    + cbn. by rewrite Hu.
    + unfold registered_for, par in *. destruct o; [|done]. exists (length (v_wakers v)). split; [|done].
      cbn. apply elem_of_app. right. by left.
Qed.

(** ** Scopes *)
Lemma own_v_cur x v : own_v o x v = own_cur par x v.
Proof. unfold own_v, par. by destruct o. Qed.

Lemma fr_place_live G v ws pl q : inv G v ws pl -> q ∈ fr_places -> is_Some (G !! q).
Proof.
  intros Hi (x & Hx & Hq)%list_elem_of_omap. destruct (conf_place x.2) as [[q' t]|] eqn:Hc; [|done].
  injection Hq as ->. destruct (proj1 (iv_frame _ _ _ _ Hi x Hx) _ _ Hc) as (g & Hg & _). by exists g.
Qed.

(** The scope is in its place, and its task is pushed. *)
Lemma inv_scoped G v ws q l w xs :
  inv G v ws None -> G !! q = None ->
  scopes (v_user v) !! q = Some {| sc_body := l; sc_place := None |} -> is_Some (evals E l) ->
  (xs = [] /\ w = None /\ par = None \/ xs = [par] /\ w = Some (length (v_wakers v))) ->
  inv (<[q := new_info par w v]> G) (scoped par q l w xs v) ws (Some (q, length (v_tokens v))).
Proof.
  intros Hi Hq Hs Hl Hw.
  assert (Hpar : forall p : nat, par = Some p -> is_Some (v_tasks v !! p)).
  { intros p Hp. unfold par in Hp. destruct who_cases as [[id Ho]|[w' Ho]]; rewrite Ho in Hp; [|done].
    injection Hp as <-. destruct (iv_own _ _ _ _ Hi id Ho) as (rt & Hrt & _). by exists rt. }
  destruct (live_scoped E G par v q l w xs (iv_live _ _ _ _ Hi) Hq Hs Hl Hw Hpar) as (Hlive & Hk & Hpl).
  eapply inv_step; [exact Hi|exact Hk|exact Hlive|done| |by left|].
  - intros id rt Ho Hrt Hown. assert (Hp : par = Some id) by (unfold par; by rewrite Ho).
    pose proof (task_old E _ _ _ id (iv_live _ _ _ _ Hi) ltac:(by eexists)) as Hold.
    assert (Hsome : exists rt', v_tasks (scoped par q l w xs v) !! id = Some rt').
    { apply (k_tasks _ _ _ _ _ Hk). by eexists. }
    destruct Hsome as [rt' Hrt']. exists rt'. split; [done|].
    destruct (scoped_lookup _ _ _ _ _ _ _ _ Hrt') as [(-> & _)|(_ & rt2 & Hrt2 & Hf & _ & Ho')]; [lia|].
    assert (rt2 = rt) as -> by congruence. split; [done|]. rewrite Ho', decide_True by done.
    intros x [Hx| ->%list_elem_of_singleton]%elem_of_app.
    + eapply (owned_keeps None G v _ _ id q0 _ _ _ Hk); [|exact Hown|done]. intros y Hy. by right.
    + exists q, (new_info par w v). rewrite lookup_insert_eq. split_and!; [done..|]. left. by left.
  - intros q' t [= <- <-]. right. split; [done|]. intros Hq'.
    destruct (fr_place_live _ _ _ _ _ Hi Hq') as [g Hg]. congruence.
Qed.

Lemma av_new_scope {R} (post : view (fut V) (mem V) -> R -> Prop) G v ws st l k :
  inv G v ws None -> is_Some (evals E l) ->
  (forall G' v' q t, inv G' v' ws (Some (q, t)) -> av post v' (k Pending (SRunning q t) NewTask)) ->
  av post v (poll_scope cx ctx st (SInitial l) k).
Proof.
  intros Hi Hl Hk. unfold poll_scope, new_place. cbn [act_v].
  set (f := fun u : mem V => set_scopes _ u). set (q := length (scopes (v_user v))).
  assert (Hq : G !! q = None).
  { apply eq_None_not_Some. intros [g Hg]. pose proof (io_place _ _ _ (lv_info _ _ _ _ (iv_live _ _ _ _ Hi) q g Hg)). lia. }
  assert (Hi1 : inv G (on_user f v) ws None) by (eapply inv_user; [done|done|done|done|by left]).
  assert (Hs : scopes (v_user (on_user f v)) !! q = Some {| sc_body := l; sc_place := None |}).
  { cbn. by rewrite lookup_app_r, Nat.sub_diag. }
  set (v1 := on_user f v) in *. clearbody v1 q. apply av_with_context.
  destruct (Z.eqb_spec ctx (cx_addr cx)) as [Heq|Hne]; apply av_tree_with_context; cbn [act_v]; rewrite own_v_cur.
  - assert (Hp : par = None) by (apply dec_stable; intros Hp; by destruct (Hctx Hp)).
    pose proof (inv_scoped G v1 ws q l None [] Hi1 Hq Hs Hl ltac:(by left)) as Hsc. unfold scoped in Hsc.
    replace (on_wakers (fun ws => ws ++ []) v1) with v1 in Hsc; [by apply (Hk _ _ _ _ Hsc)|].
    unfold on_wakers. destruct v1. cbn. by rewrite app_nil_r.
  - specialize (inv_scoped G v1 ws q l (Some (length (v_wakers v1))) [par] Hi1 Hq Hs Hl ltac:(by right)) as Hsc2.
    assert (Hc : clone_v o false v1 = on_wakers (fun ws => ws ++ [par]) v1) by (unfold clone_v, par; by destruct o).
    rewrite Hc. by apply (Hk _ _ _ _ Hsc2).
Qed.

(** The tokens of scopes whose value was taken. *)
Lemma owned_drop G v id q qs l :
  owned_live G v id q0 (q :: qs) l ->
  (forall g, G !! q = Some g -> (Tok (g_tok g) ∉ l) \/ v_tokens v !! g_tok g = Some None) -> owned_live G v id q0 qs l.
Proof.
  intros Ho Hq x Hx. specialize (Ho x Hx). destruct x as [n|i]; [|done].
  destruct Ho as (q' & g & Hg & Hp & Ht & Hor). exists q', g. split_and!; [done..|].
  destruct Hor as [[ ->|Hin]%elem_of_cons|Hn]; [|by left|by right]. right.
  destruct (Hq g Hg) as [Hn|Hn]; [|congruence]. destruct Hn. by rewrite Ht.
Qed.

Lemma inv_take G v v' ws q t x :
  inv G v ws (Some (q, t)) -> place (v_user v) q = Some (Some x) ->
  v' = on_user (put_place q None) v /\
    (forall id rt, o = AsTask id -> v_tasks v !! id = Some rt -> Tok t ∉ rt_owned rt) \/
  v' = on_tokens (fun l => <[t := None]> l) (on_user (put_place q None) v) ->
  inv G v' ws None.
Proof.
  intros Hi Hp Hv. destruct (iv_place _ _ _ _ Hi q t eq_refl) as [Hpl Hout].
  destruct (scope_taken E G par v v' q t x (iv_live _ _ _ _ Hi) Hpl Hp) as (Hl & Hk & _); [tauto|].
  assert (Et : v_tasks v' = v_tasks v) by by destruct Hv as [[-> _]| ->].
  eapply inv_step; [exact Hi|exact Hk|exact Hl|by intros q' [= <-]; eexists| |by left|done].
  intros id rt Ho Hrt Hown. exists rt. rewrite Et. split_and!; [done..|].
  eapply (owned_drop _ _ _ q); [eapply owned_keeps; [exact Hk| |exact Hown]; done|].
  intros g Hg. destruct Hpl as (g' & Hg' & _ & <- & _). assert (g' = g) as -> by congruence.
  destruct Hv as [[-> Hn]| ->]; [left; by eapply Hn|right]. cbn.
  destruct (io_tok _ _ _ (lv_info _ _ _ _ (iv_live _ _ _ _ Hi) q g Hg)) as [H|H]; apply lookup_lt_Some in H;
    by rewrite list_lookup_insert_eq.
Qed.

Lemma av_running_scope {R} (post : view (fut V) (mem V) -> R -> Prop) G v ws st q t k :
  inv G v ws (Some (q, t)) ->
  (place (v_user v) q = Some None -> av post v (k Pending (SRunning q t) st)) ->
  (forall x v', place (v_user v) q = Some (Some x) -> inv G v' ws None -> av post v' (k (Ready x) SFinished st)) ->
  av post v (poll_scope cx ctx st (SRunning q t) k).
Proof.
  intros Hi Hn Hk. unfold poll_scope, take_place. cbn [act_v]. unfold place in *.
  destruct (scopes (v_user v) !! q) as [[l p]|] eqn:Hq; [|done]. cbn [act_v sc_place fmap option_fmap option_map] in *.
  assert (Hp : place (v_user v) q = Some p) by by unfold place; rewrite Hq.
  destruct p as [x|]; cbn [act_v].
  - destruct (iv_place _ _ _ _ Hi q t eq_refl) as [Hpl _].
    destruct (scope_taken E G par v _ q t x (iv_live _ _ _ _ Hi) Hpl Hp (or_introl eq_refl)) as (_ & _ & Hst).
    split; [exact Hst|]. split; [apply (Hk x); [done|]; eapply inv_take; [done|done|by right]|].
    assert (Ho : forall o', o = o' -> match o' with
      | AsTask id => (forall rt, v_tasks v !! id = Some rt -> Tok t ∉ rt_owned rt) ->
          av post (on_user (put_place q None) v) (k (Ready x) SFinished st)
      | AsRoot _ => True end); [|by apply Ho].
    intros [id|w] Ho; [|done]. intros Hown. apply (Hk x); [done|]. eapply inv_take; [done|done|left].
    split; [done|]. intros id' rt Ho' Hrt. apply Hown. congruence.
  - replace (on_user (put_place q None) v) with v; [by apply Hn|].
    unfold on_user. rewrite put_none by done. by destruct v.
Qed.

(** ** The code of a task *)

(** How the poll of a task ends; the tasks were [m] when it began. *)
Definition settled_live (m : gmap nat (running_task (fut V))) (ws : list nat) v (r : progress V * StackState) : Prop :=
  exists G, match r.1 with
  | PFin _ => inv G v ws None
  | PCall _ n _ => inv G v (match n with Some i => i :: ws | None => ws end) None /\ r.2 = NewTask
  | PBlock p => inv G v ws None /\ exists e k, p = TAwait e k /\ events (v_user v) !! e = None /\ registered_for v e
  | PScope s _ => exists q t, s = SRunning q t /\ inv G v ws (Some (q, t)) /\
      (r.2 = NewTask \/ place (v_user v) q = Some None /\ v_tasks v = m)
  end.

Lemma av_exec m p : forall st G v ws,
  inv G v ws None -> is_Some (eval p) -> av (settled_live m ws) v (exec cx ctx st p).
Proof.
  induction p as [x|q k _ IH|l k _ IH|k IH|e k IH|k IH|msg] using prog_all; intros st G v ws Hi [y Hy]; cbn [exec].
  - by exists G.
  - eapply av_poll_stk; [exact Hi|]. intros n v' Hi' _. by exists G.
  - eapply av_new_scope; [exact Hi| |].
    + cbn [TreeInv.eval] in Hy. change (mapM (TreeInv.eval E) l) with (evals E l) in Hy.
      destruct (evals E l); [by eexists|done].
    + intros G' v' q t Hi'. exists G'. exists q, t. split; [done|]. split; [done|]. by left.
  - apply av_with_context. case_decide; [by destruct (negb _)|]. eapply IH; [done|by exists y].
  - cbn [act_v]. destruct (events (v_user v) !! e) as [z|] eqn:He.
    + eapply IH; [done|]. pose proof (lookup_weaken _ _ _ _ He (lv_events _ _ _ _ (iv_live _ _ _ _ Hi))) as HE.
      cbn [TreeInv.eval] in Hy. rewrite HE in Hy. by exists y.
    + eapply av_register; [done|]. intros v' Hi' Hev Hr. exists G. split; [done|].
      exists e, k. by rewrite Hev.
  - apply av_tree_with_context. eapply IH; [done|by exists y].
  - done.
Qed.

Lemma av_drive_task c G v :
  inv G v (conf_wakers c) (conf_place c) -> mem_ok E (v_user v) -> conf_ok (v_user v) c -> has_task c ->
  is_Some (top_value E (v_user v) c) -> av (settled_live (v_tasks v) (conf_wakers c)) v (drive_task cx ctx Base c).
Proof.
  intros Hi Hok Hc Ht Hv. destruct c as [p n fs|[l|q t|] k n fs|x k n fs|x|]; try done; cbn [drive_task].
  - by eapply av_exec.
  - eapply av_running_scope; [exact Hi| |].
    + intros Hp. exists G, q, t. split; [done|]. split; [done|]. by right.
    + intros x v' Hp Hi'. eapply av_exec; [exact Hi'|]. cbn [top_value scope_body] in Hv. unfold place in Hp.
      destruct (scopes (v_user v) !! q) as [sc|] eqn:Hq; [|done]. injection Hp as Hp.
      unfold eval_scope in Hv. by rewrite (mo_places _ _ Hok q sc x Hq Hp) in Hv.
  - by eapply av_exec.
Qed.

(** ** A step of a stack *)

(** What a stack that is not ready waits for. *)
Definition waits v c : Prop :=
  match c with
  | CCode (TAwait e _) _ _ => events (v_user v) !! e = None /\ registered_for v e
  | CScope (SRunning q _) _ _ _ => place (v_user v) q = Some None
  | _ => False
  end.

Definition driven_live (m : gmap nat (running_task (fut V))) (a : Z) v (r : poll bool * stack V) : Prop :=
  exists G, inv G v (conf_wakers (st_conf r.2)) (conf_place (st_conf r.2)) /\ st_context r.2 = a /\
    (r.1 = Pending -> waits v (st_conf r.2) /\ (is_Some (conf_place (st_conf r.2)) -> v_tasks v = m)).

Lemma inv_wakers G v ws ws' pl : inv G v ws pl -> (forall i, i ∈ ws' -> i ∈ ws) -> inv G v ws' pl.
Proof. intros [H1 H2 H3 H4 H5 H6] Hw. split; [done..| |done]. intros i Hi. by apply H5, Hw. Qed.

Lemma av_enter_context {R} (post : view (fut V) (mem V) -> R -> Prop) v a :
  av (fun v' r => post (on_user (set_stack_ptr (stack_ptr (v_user v))) v') r) (on_user (set_stack_ptr true) v) a ->
  av post v (enter_context a).
Proof. intros Ha. cbn. by apply act_v_finally. Qed.

Lemma av_after_pending m G v s :
  inv G v (conf_wakers (st_conf s)) (conf_place (st_conf s)) ->
  (st_state s = Base -> waits v (st_conf s) /\ (is_Some (conf_place (st_conf s)) -> v_tasks v = m)) ->
  av (driven_live m (st_context s)) v (after_pending s).
Proof.
  intros Hi Hw. unfold after_pending. destruct (st_state s); cbn [act_v]; try done; exists G; cbn [fst snd st_conf st_context].
  all: split; [done|]; split; [done|]. 1: by intros _; apply Hw. all: done.
Qed.

Lemma driven_live_ptr m a v r x : driven_live m a v r -> driven_live m a (on_user (set_stack_ptr x) v) r.
Proof. intros (G & Hi & Ha & Hw). exists G. split; [by apply inv_quiet|by split]. Qed.

Lemma av_drive_stack s G v :
  st_context s = ctx -> st_state s = Base ->
  inv G v (conf_wakers (st_conf s)) (conf_place (st_conf s)) -> mem_ok E (v_user v) -> conf_ok (v_user v) (st_conf s) ->
  has_task (st_conf s) -> is_Some (eval_conf E (v_user v) (st_conf s)) ->
  av (driven_live (v_tasks v) ctx) v (drive_stack cx s).
Proof.
  intros Hs Hst Hi Hok Hc Ht Hv. unfold drive_stack. rewrite (surjective_pairing (top_task (st_conf s))).
  apply av_enter_context. rewrite Hst, Hs.
  eapply act_v_mono; [intros v' r; apply driven_live_ptr|]. apply act_v_bind.
  assert (Hi' : inv G (on_user (set_stack_ptr true) v) (conf_wakers (st_conf s)) (conf_place (st_conf s))) by by apply inv_quiet.
  eapply act_v_mono; [|apply (av_drive_task (st_conf s) G _ Hi'); [by apply (ok_same E (v_user v))|by destruct (st_conf s) as [|[]|?|?|]|done|]].
  - intros v' [p st] (G' & H). cbn [fst snd] in H. set (n := (top_task (st_conf s)).1) in *. set (fs := (top_task (st_conf s)).2) in *.
    assert (Hws : conf_wakers (st_conf s) = omap (fun n => n) (n :: map fst fs)) by done. rewrite Hws in H.
    assert (Hfs : forall i, i ∈ omap (fun n => n) (map fst fs) -> i ∈ omap (fun n => n) (n :: map fst fs)).
    { intros i Hx. cbn [omap list_omap]. destruct n; [by right|done]. }
    destruct p as [x|q m k|q|sc k].
    + assert (Hend : forall v2, inv G' v2 (omap (fun n => n) (n :: map fst fs)) None ->
        av (driven_live (v_tasks v) ctx) v2 (ARet (Ready false, {| st_conf := return_to x fs; st_state := st; st_context := ctx |}))).
      { intros v2 H2. exists G'. cbn [fst snd st_conf st_context]. split; [|done].
        destruct fs as [|[m k] fs']; cbn [return_to conf_place]; (eapply inv_wakers; [exact H2|]); [by intros i ?%not_elem_of_nil|done]. }
      destruct n as [i|]; [|by apply Hend]. cbn [act_v]. apply Hend. apply inv_wake_slot; [done|].
      apply (iv_wakers _ _ _ _ H). by left.
    + destruct H as [H ->].
      apply (av_after_pending (v_tasks v) G' v' {| st_conf := CCode q m ((n, k) :: fs); st_state := NewTask; st_context := ctx |}); [|done].
      eapply inv_wakers; [exact H|]. intros j Hj. by destruct m.
    + destruct H as (H & e & k & -> & He & Hr).
      apply (av_after_pending (v_tasks v) G' v' {| st_conf := CCode (TAwait e k) n fs; st_state := st; st_context := ctx |}); [exact H|].
      intros _. split; [by split|by intros [? ?]].
    + destruct H as (q & t & -> & H & Hor).
      apply (av_after_pending (v_tasks v) G' v' {| st_conf := CScope (SRunning q t) k n fs; st_state := st; st_context := ctx |}); [exact H|].
      cbn [st_state st_conf waits]. intros ->. by destruct Hor as [|[? ?]].
  - destruct (conf_split E (v_user v) _ Ht) as [He _]. rewrite He in Hv.
    change (top_value E (v_user (on_user (set_stack_ptr true) v)) (st_conf s)) with (top_value E (v_user v) (st_conf s)).
    destruct (top_value E (v_user v) (st_conf s)); [by eexists|]. rewrite (proj1 (frames_none E _)) in Hv. by destruct Hv.
Qed.

(** ** A future of a scope *)
Definition scope_live v (r : poll V * stack V) : Prop :=
  exists G, inv G v (conf_wakers (st_conf r.2)) (conf_place (st_conf r.2)) /\ st_context r.2 = ctx /\
    (r.1 = Pending -> waits v (st_conf r.2) \/ forall id, o = AsTask id -> is_queued v id) /\
    (forall x, r.1 = Ready x -> conf_place (st_conf r.2) = None).

Context (fuel : nat).
#[local] Existing Instance spec.

Lemma av_scope_stk_loop x : forall s G v p,
  st_context s = ctx -> inv G v (conf_wakers (st_conf s)) (conf_place (st_conf s)) ->
  mem_ok E (v_user v) -> tree_ptr (v_user v) = true -> child_ok E fuel (v_user v) (CStk s) p -> is_Some (eval p) ->
  av scope_live v (scope_stk_loop x cx s).
Proof.
  induction x as [|x IH]; intros s G v p Hs Hi Hok Htp (Hc & Hst & Hf & He & Hcov) Hp; [done|]. cbn [scope_stk_loop].
  assert (Hdone : (exists z, st_conf s = CDone z) \/ try_result s = (None, s) /\ has_task (st_conf s)).
  { unfold try_result. destruct (st_conf s) as [q i fs|sc k i fs|y k i fs|y|]; try (by right). left. by exists y. }
  destruct Hdone as [[y Hy]|[-> Ht]].
  { unfold try_result. rewrite Hy in *. exists G. cbn [fst snd st_conf st_context]. split; [|done].
    eapply inv_wakers; [exact Hi|done]. }
  apply act_v_bind. eapply act_v_mono; [|eapply act_v_ok; [apply (calm_drive_stack_ok E fuel cx s (v_user v) 0); try done; lia|]];
    [|eapply av_drive_stack; try done; by rewrite He].
  intros v' [r s'] [(G' & Hi' & Hs' & Hw) (m & Hsteps & Hok' & Hc' & Hst' & [He' Hcov'] & Hr & _)]. cbn [fst snd] in *.
  destruct Hr as [[-> Hlt]|(-> & _ & _)].
  - eapply (IH _ G'); [done|done|done|by rewrite (st_tree _ _ Hsteps)| |exact Hp].
    split_and!; [done|done|lia|by rewrite He', He|done].
  - exists G'. cbn [fst snd]. split; [done|]. split; [done|]. split; [|done]. intros _. left. by apply Hw.
Qed.

Lemma scope_live_ptr v r x : scope_live v r -> scope_live (on_user (set_stack_ptr x) v) r.
Proof. intros (G & Hi & Ha & Hw). exists G. split; [by apply inv_quiet|by split]. Qed.

Lemma av_poll_scope_stk s G v p :
  st_context s = ctx -> inv G v (conf_wakers (st_conf s)) (conf_place (st_conf s)) ->
  mem_ok E (v_user v) -> tree_ptr (v_user v) = true -> child_ok E fuel (v_user v) (CStk s) p -> is_Some (eval p) ->
  av scope_live v (poll_scope_stk fuel cx s).
Proof.
  intros Hs Hi Hok Htp Hc Hp. apply av_with_context. cbn [act_v]. case_decide.
  - cbn [act_v]. exists G. cbn [fst snd]. split; [by apply inv_wake_self|]. split; [done|]. split; [|done]. intros _. right.
    intros id Ho. assert (Hw : wake_self_v o v = wake_v id v) by (unfold wake_self_v; by rewrite Ho).
    rewrite Hw. destruct (iv_own _ _ _ _ Hi id Ho) as (rt & Hrt & _). apply wake_is_queued. by exists rt.
  - apply av_enter_context. eapply act_v_mono; [intros v' r; apply scope_live_ptr|].
    eapply (av_scope_stk_loop _ _ G); [done|by apply inv_quiet|by apply (ok_same E (v_user v))|done|exact Hc|done].
Qed.
End poll.
