(* ===== verification/TreeLiveScope.v ===== *)
(** * A poll of a task of the tree keeps every task waiting for something

    All the futures of a scope are polled, and the task goes back to the
    scheduler, or returns, empties its place of nobody, and wakes the task that
    awaits it. *)

From S2P Require Import Prelude Stack Schedular SchedularInv SchedularPoll SchedularView SchedularLive.
From S2P Require Import Tree TreeInv TreePoll TreeLive TreeLivePoll.
Import Schedular Tree.
#[local] Existing Instance calm.

Section focus.
Context {V : Type} (E : gmap nat V).
Implicit Types (v : view (fut V) (mem V)) (c : conf V) (G : gmap nat scope_info).
Context (o : who) (f0 : fut V) (q0 : nat).

Abbreviation inv fr sk := (inv E o fr sk f0 q0).

(** One of the stacks is polled. *)
Lemma inv_focus fr all sk G v c :
  inv all sk G v [] None -> all ≡ₚ (par o, c) :: fr -> NoDup (fr_places all) ->
  inv fr sk G v (conf_wakers c) (conf_place c).
Proof.
  intros [Hl Ho Hf Hs _ _] Hp Hnd.
  assert (Hpl : fr_places all ≡ₚ pl_places (conf_place c) ++ fr_places fr).
  { unfold fr_places. rewrite Hp. cbn. by destruct (conf_place c) as [[q t]|]. }
  assert (Hc : conf_live G v (par o) c) by (apply (Hf (par o, c)); rewrite Hp; left).
  rewrite Hpl in Hnd. split; [done| |..].
  - intros id Hid. destruct (Ho id Hid) as (rt & Hrt & Hf0 & Hown). exists rt. split_and!; [done..|].
    eapply (owned_keeps None G v); [|intros q Hq|exact Hown]; [by split; auto|]. by rewrite <- Hpl.
  - intros x Hx. apply Hf. rewrite Hp. by right.
  - done.
  - apply Hc.
  - intros q t Hq. split; [by apply Hc|]. rewrite Hq in Hnd. by apply NoDup_cons in Hnd as [? _].
Qed.

(** It was polled. *)
Lemma inv_unfocus fr all sk sk' G v c :
  inv fr sk G v (conf_wakers c) (conf_place c) -> all ≡ₚ (par o, c) :: fr ->
  (forall id ch, o = AsTask id -> ch ∈ sk' -> ch ∈ sk \/ stuck v id ch) -> NoDup (fr_places fr) ->
  inv all sk' G v [] None /\ NoDup (fr_places all).
Proof.
  intros [Hl Ho Hf Hs Hw Hp'] Hp Hsk Hnd.
  assert (Hpl : fr_places all ≡ₚ pl_places (conf_place c) ++ fr_places fr).
  { unfold fr_places. rewrite Hp. cbn. by destruct (conf_place c) as [[q t]|]. }
  split.
  - split; [done| |..].
    + intros id Hid. destruct (Ho id Hid) as (rt & Hrt & Hf0 & Hown). exists rt. split_and!; [done..|].
      eapply (owned_keeps None G v); [|intros q Hq|exact Hown]; [by split; auto|]. cbn. by rewrite Hpl.
    + intros x Hx. rewrite Hp in Hx. apply elem_of_cons in Hx as [->|Hx]; [|by apply Hf].
      split; [|done]. intros q t Hq. by apply Hp'.
    + intros id ch Hid Hch. destruct (Hsk id ch Hid Hch) as [H|H]; [by apply Hs|done].
    + by intros i ?%not_elem_of_nil.
    + done.
  - rewrite Hpl. destruct (conf_place c) as [[q t]|]; [|done]. cbn. apply NoDup_cons. split; [|done]. by eapply Hp'.
Qed.
End focus.

Section scope.
Context {V : Type} (E : gmap nat V) (fuel : nat) (addr : Z).
Implicit Types (v : view (fut V) (mem V)) (c : conf V) (rt : running_task (fut V)) (p : prog V).
Implicit Types (G : gmap nat scope_info) (cs : list (child V)).
Context (Haddr : Ptr.dangling 1 <> addr).
Context (croot : conf V).

#[local] Existing Instance spec.

Section task.
Context (id : nat) (f0 : fut V) (q0 : nat).

Definition child_confs cs : list (option nat * conf V) :=
  omap (fun ch => match ch with CStk s => Some (Some id, st_conf s) | CFin _ => None end) cs.
Definition all_confs cs : list (option nat * conf V) := (None, croot) :: child_confs cs.

(** The futures of the task [id]: those that were polled, and the others. *)
Record kids G v (old cs : list (child V)) : Prop := {
  ki_inv : inv E (AsTask id) (all_confs (old ++ cs)) old f0 q0 G v [] None;
  ki_nodup : NoDup (fr_places (all_confs (old ++ cs)));
  ki_context s : CStk s ∈ old ++ cs -> st_context s = Ptr.dangling 1;
}.

Lemma child_confs_app cs1 cs2 : child_confs (cs1 ++ cs2) = child_confs cs1 ++ child_confs cs2.
Proof. apply omap_app. Qed.

Lemma all_confs_app old s cs : all_confs (old ++ CStk s :: cs) ≡ₚ (Some id, st_conf s) :: all_confs (old ++ cs).
Proof.
  unfold all_confs. rewrite !child_confs_app. cbn. rewrite <- Permutation_middle. apply perm_swap.
Qed.

Lemma child_confs_elem s cs : CStk s ∈ cs -> (Some id, st_conf s) ∈ all_confs cs.
Proof. intros Hs. right. apply list_elem_of_omap. by exists (CStk s). Qed.

(** A future was polled. *)
Lemma kids_polled v old s cs r :
  NoDup (fr_places (all_confs (old ++ cs))) -> (forall s, CStk s ∈ old ++ cs -> st_context s = Ptr.dangling 1) ->
  scope_live E (AsTask id) (Ptr.dangling 1) (all_confs (old ++ cs)) old f0 q0 v (r, s) ->
  exists G, kids G v (old ++ [match r with Ready x => CFin x | Pending => CStk s end]) cs.
Proof.
  intros Hnd Hctx (G' & Hi & Hs & Hp & Hr). cbn [fst snd] in *. exists G'. destruct r as [x|].
  - assert (He : all_confs ((old ++ [CFin x]) ++ cs) = all_confs (old ++ cs)).
    { unfold all_confs. by rewrite !child_confs_app, app_nil_r. }
    rewrite (Hr x eq_refl) in Hi. split; rewrite ?He; [|done|].
    + destruct Hi as [H1 H2 H3 H4 H5 H6]. split; [done..| |by intros i ?%not_elem_of_nil|done].
      intros id' ch Hid [Hch| ->%list_elem_of_singleton]%elem_of_app; [by apply H4|done].
    + intros s' [[Hs'|Hs'%list_elem_of_singleton]%elem_of_app|Hs']%elem_of_app; [|done|]; apply Hctx, elem_of_app; auto.
  - destruct (inv_unfocus E (AsTask id) f0 q0 (all_confs (old ++ cs)) (all_confs ((old ++ [CStk s]) ++ cs)) old
      (old ++ [CStk s]) G' v (st_conf s) Hi) as [Hi' Hnd']; [rewrite <- app_assoc; apply all_confs_app| |done|].
    + intros id' ch [= <-] [Hch| ->%list_elem_of_singleton]%elem_of_app; [by left|right].
      destruct (Hp eq_refl) as [Hw|Hq]; [by right|left]. by apply Hq.
    + split; [done..|]. intros s' [[Hs'|Hs'%list_elem_of_singleton]%elem_of_app|Hs']%elem_of_app;
        [|by injection Hs' as ->|]; apply Hctx, elem_of_app; auto.
Qed.

Let cx : context := {| cx_addr := addr; cx_root := None |}.

Lemma kids_poll cs : forall old G v l,
  kids G v old cs -> mem_ok E (v_user v) -> mem_in (v_user v) -> Forall2 (child_ok E fuel (v_user v)) cs l ->
  is_Some (evals E l) ->
  act_v (AsTask id) (fun v' cs' => exists G', kids G' v' (old ++ cs') []) v (poll_children fuel cx cs).
Proof.
  induction cs as [|ch cs IH]; intros old G v l Hk Hok Hin Hcs Hl; inversion Hcs as [|? p ? l' Hch Hcs']; subst.
  { exists G. by rewrite app_nil_r. }
  assert (Hp : is_Some (TreeInv.eval E p) /\ is_Some (evals E l')).
  { unfold evals in *. cbn in Hl. destruct (TreeInv.eval E p); [|by destruct Hl]. split; [by eexists|].
    cbn in Hl. destruct (mapM _ l'); [by eexists|by destruct Hl]. }
  destruct Hp as [Hp Hl'].
  assert (Hrest : forall G2 v2 ch2, kids G2 v2 (old ++ [ch2]) cs -> mem_ok E (v_user v2) -> mem_in (v_user v2) ->
    Forall2 (child_ok E fuel (v_user v2)) cs l' ->
    act_v (AsTask id) (fun v' cs' => exists G', kids G' v' (old ++ cs') []) v2
      (abind (poll_children fuel cx cs) (fun cs => ARet (ch2 :: cs)))).
  { intros G2 v2 ch2 Hk2 Hok2 Hin2 Hcs2. apply act_v_bind. eapply act_v_mono; [|by eapply (IH (old ++ [ch2]))].
    intros v3 cs3 [G3 Hk3]. exists G3. by rewrite <- app_assoc in Hk3. }
  destruct ch as [s|x]; cbn [poll_children].
  - apply act_v_bind. destruct Hk as [Hi Hnd Hctx].
    assert (Hctx' : forall s, CStk s ∈ old ++ cs -> st_context s = Ptr.dangling 1).
    { intros s' [Hs'|Hs']%elem_of_app; apply Hctx, elem_of_app; [by left|right; by right]. }
    assert (Hs : st_context s = Ptr.dangling 1) by (apply Hctx, elem_of_app; right; by left).
    assert (Hnd' : NoDup (fr_places (all_confs (old ++ cs)))).
    { assert (Hp' : fr_places (all_confs (old ++ CStk s :: cs)) ≡ₚ
        pl_places (conf_place (st_conf s)) ++ fr_places (all_confs (old ++ cs))).
      { unfold fr_places. rewrite all_confs_app. cbn [omap list_omap snd]. by destruct (conf_place (st_conf s)) as [[q t]|]. }
      rewrite Hp' in Hnd. by apply NoDup_app in Hnd as (_ & _ & ?). }
    pose proof (inv_focus E (AsTask id) f0 q0 _ _ old G v (st_conf s) Hi (all_confs_app _ _ _) Hnd) as Hi'.
    eapply act_v_mono; [|eapply act_v_ok;
      [apply (calm_poll_scope_stk_ok E fuel cx p s (v_user v) 0); done|
       eapply (av_poll_scope_stk E (AsTask id) cx (Ptr.dangling 1) (all_confs (old ++ cs)) old f0 q0); try done]].
    + intros v' [r s'] [Hlive (m & Hst & Hok' & _)]. cbn [fst snd] in *.
      destruct (kids_polled _ _ _ _ _ Hnd' Hctx' Hlive) as [G' Hk'].
      eapply Hrest; [exact Hk'|done|by eapply in_steps|]. by apply (children_le E fuel (v_user v)); [apply Hst|].
    + intros s' id' [= <-] Hs'. apply child_confs_elem, elem_of_app. by left.
    + apply Hin.
  - assert (He : all_confs (old ++ CFin x :: cs) = all_confs ((old ++ [CFin x]) ++ cs)) by by rewrite <- app_assoc.
    destruct Hk as [Hi Hnd Hctx]. rewrite He in Hi, Hnd. eapply (Hrest G); [|done..]. split; [|done|].
    + destruct Hi as [H1 H2 H3 H4 H5 H6]. split; [done..| |done|done].
      intros id' ch Hid [Hc2| ->%list_elem_of_singleton]%elem_of_app; [by apply H4|done].
    + intros s Hs. apply Hctx. by rewrite <- app_assoc in Hs.
Qed.
End task.

(** ** The task is taken, and put back *)
Lemma conf_live_tasks G v v' o c :
  v_wakers v' = v_wakers v -> v_user v' = v_user v ->
  (forall j, is_Some (v_tasks v !! j) -> is_Some (v_tasks v' !! j)) -> conf_live G v o c -> conf_live G v' o c.
Proof.
  intros Ew Eu Hs [Hp Hw]. split.
  - intros q t Hq. destruct (Hp q t Hq) as (g & Hg & Hpar & Ht & Hl). exists g. rewrite Eu, Ew. split_and!; [done..|].
    intros Hn. destruct (Hl Hn) as [Hr Hpp]. split; [by apply Hs|done].
  - intros i Hi. destruct (Hw i Hi) as [? ?]. split; [by rewrite Ew|done].
Qed.

Lemma task_rest_tasks G v v' j q cs rt :
  v_wakers v' = v_wakers v -> v_user v' = v_user v -> v_tokens v' = v_tokens v ->
  (forall j, is_Some (v_tasks v !! j) -> is_Some (v_tasks v' !! j)) ->
  task_rest G v j q cs rt -> task_rest G v' j q cs rt.
Proof.
  intros Ew Eu Et Hs (Hc & Hnd & Ho & Hor). split_and!; [| done| |].
  - eapply Forall_impl; [exact Hc|]. intros [s|x]; [|done]. intros [H1 H2]. split; [|done]. by eapply conf_live_tasks.
  - unfold owned_live, free_slot in *. by rewrite Ew, Et.
  - destruct Hor as [Hq|Hb]; [by left|right]. eapply Exists_impl; [exact Hb|]. intros ch (s & -> & Hs').
    exists s. split; [done|]. unfold blocked in *. by rewrite Ew, Eu.
Qed.

Lemma alter_some v h (id j : nat) : is_Some (v_tasks v !! j) -> is_Some (v_tasks (on_tasks (alter h id) v) !! j).
Proof.
  intros [rt Hrt]. cbn. destruct (decide (j = id)) as [->|Hne]; [rewrite lookup_alter_eq, Hrt|rewrite lookup_alter_ne by done];
    by eexists.
Qed.

Lemma live_swap G o o' v h id :
  live E G o v -> o = None \/ o = Some id ->
  (forall rt, v_tasks v !! id = Some rt -> task_live E G (on_tasks (alter h id) v) o' id (h rt)) ->
  live E G o' (on_tasks (alter h id) v).
Proof.
  intros [Ht Hi H1 H2 Hw He] Ho Hid. split; try done; [|by intros q g Hq; destruct (Hi q g Hq)].
  intros j rt' Hj. cbn in Hj. destruct (decide (j = id)) as [->|Hne].
  - rewrite lookup_alter_eq in Hj. destruct (v_tasks v !! id) as [rt|] eqn:Hrt; [|done]. injection Hj as <-. by apply Hid.
  - rewrite lookup_alter_ne in Hj by done. specialize (Ht j rt' Hj). unfold task_live in *.
    destruct (rt_future rt') as [q cs w|]; [|done]. destruct Ht as [Hf Hr]. split; [exact Hf|]. intros _.
    eapply (task_rest_tasks G v); [done..| |apply Hr; destruct Ho; congruence]. intros x. apply alter_some.
Qed.

Definition lv v : Prop := exists G, live E G None v /\ conf_live G v None croot.

Lemma fr_places_all id cs : fr_places (all_confs id cs) = pl_places (conf_place croot) ++ child_places cs.
Proof.
  unfold fr_places, all_confs. cbn [omap list_omap snd].
  assert (H : omap (fun x => fst <$> conf_place x.2) (child_confs id cs) = child_places cs).
  { unfold child_places. induction cs as [|[s|x] cs IH]; [done| |exact IH]. cbn.
    destruct (conf_place (st_conf s)); cbn; [f_equal|]; exact IH. }
  rewrite H. by destruct (conf_place croot) as [[q t]|].
Qed.

Lemma root_place G v id cs q :
  conf_live G v None croot -> Forall (child_live G v id) cs -> q ∈ pl_places (conf_place croot) -> q ∉ child_places cs.
Proof.
  intros [Hp _] Hc Hq Hq'. destruct (conf_place croot) as [[q' t]|] eqn:Hcr; [|by apply not_elem_of_nil in Hq].
  apply list_elem_of_singleton in Hq as ->. destruct (Hp q' t eq_refl) as (g & Hg & Hpar & _).
  apply child_places_elem in Hq' as (ch & Hch & Hpl). rewrite Forall_forall in Hc.
  destruct (child_place_par _ _ _ _ _ (Hc ch Hch) Hpl) as (g' & Hg' & Hpar'). congruence.
Qed.

(** The task is taken out of the queue. *)
Lemma kids_start v id rt :
  lv v -> v_tasks v !! id = Some rt ->
  exists q cs w G, rt_future rt = TFut q cs w /\ kids id (TFut q cs w) q G (on_tasks (alter (queue_as false) id) v) [] cs.
Proof.
  intros (G & Hl & Hroot) Hrt. pose proof (lv_tasks _ _ _ _ Hl id rt Hrt) as Ht. unfold task_live in Ht.
  destruct (rt_future rt) as [q cs w|] eqn:Hf; [|done]. destruct Ht as [Hown Hrest].
  destruct (Hrest ltac:(done)) as (Hc & Hnd & Ho & _). exists q, cs, w, G. split; [done|].
  set (v' := on_tasks (alter (queue_as false) id) v).
  assert (Hl' : live E G (Some id) v').
  { eapply live_swap; [exact Hl|by left|]. intros rt2 Hrt2. assert (rt2 = rt) as -> by congruence.
    unfold task_live. cbn [rt_future queue_as]. rewrite Hf. by split. }
  assert (Hroot' : conf_live G v' None croot) by (eapply (conf_live_tasks G v); [..|exact Hroot]; [done..|intros j; apply alter_some]).
  rewrite Forall_forall in Hc.
  assert (Hc' : forall s, CStk s ∈ cs -> conf_live G v' (Some id) (st_conf s)).
  { intros s Hs. eapply (conf_live_tasks G v); [..|apply (Hc _ Hs)]; [done..|intros j; apply alter_some]. }
  split; [split| |]; cbn [app].
  - done.
  - intros id' [= <-]. exists (queue_as false rt). split; [cbn; by rewrite lookup_alter_eq, Hrt|]. split; [done|].
    cbn [pl_places app]. rewrite fr_places_all. intros x Hx. specialize (Ho x Hx). destruct x as [n|i]; [|done].
    destruct Ho as (q' & g & Hg & Hpar & Htk & Hor). exists q', g. split_and!; [done..|].
    destruct Hor as [Hin|Hn]; [left; apply elem_of_app; by right|by right].
  - intros x [->|(ch & Hch & Hx)%list_elem_of_omap]%elem_of_cons; [done|]. destruct ch as [s|y]; [|done].
    injection Hx as <-. by apply Hc'.
  - by intros id' ch _ ?%not_elem_of_nil.
  - by intros i ?%not_elem_of_nil.
  - done.
  - rewrite fr_places_all. apply NoDup_app. split_and!; [|intros q'|done].
    + destruct (conf_place croot) as [[q' t]|]; cbn; [apply NoDup_singleton|constructor].
    + eapply root_place; [exact Hroot|]. by rewrite Forall_forall.
  - intros s Hs. by apply (Hc _ Hs).
Qed.

(** What the futures of a task are, after the poll of all. *)
Lemma kids_children id f0 q G v cs :
  kids id f0 q G v cs [] ->
  Forall (child_live G v id) cs /\ NoDup (child_places cs) /\ conf_live G v None croot /\ Forall (stuck v id) cs /\
  live E G (Some id) v /\
  exists rt, v_tasks v !! id = Some rt /\ rt_future rt = f0 /\ owned_live G v id q (child_places cs) (rt_owned rt).
Proof.
  intros [Hi Hnd Hctx]. rewrite app_nil_r in *. destruct Hi as [Hl Ho Hf Hs _ _].
  assert (Hroot : conf_live G v None croot) by (apply (Hf (None, croot)); left).
  rewrite fr_places_all in Hnd. apply NoDup_app in Hnd as (_ & Hout & Hnd). split_and!; [|done|done| |done|].
  - apply Forall_forall. intros [s|x] Hx; [|done]. split; [|by apply Hctx].
    apply (Hf (Some id, st_conf s)). by apply child_confs_elem.
  - apply Forall_forall. intros ch Hch. by apply Hs.
  - destruct (Ho id eq_refl) as (rt & Hrt & Hf0 & Hown). exists rt. split_and!; [done..|].
    intros x Hx. specialize (Hown x Hx). destruct x as [n|i]; [|done].
    destruct Hown as (q' & g & Hg & Hpar & Htk & Hor). exists q', g. split_and!; [done..|].
    destruct Hor as [Hin|Hn]; [|by right]. cbn [pl_places app] in Hin. rewrite fr_places_all in Hin.
    apply elem_of_app in Hin as [Hin|Hin]; [|by left]. destruct Hroot as [Hp _].
    destruct (conf_place croot) as [[q2 t]|]; [|by apply not_elem_of_nil in Hin].
    apply list_elem_of_singleton in Hin as ->. destruct (Hp q2 t eq_refl) as (g2 & Hg2 & Hpar2 & _). congruence.
Qed.

Lemma finished_none cs : finished cs = None -> exists s, CStk s ∈ cs.
Proof.
  unfold finished. induction cs as [|[s|x] cs IH]; [done|intros _; exists s; left|]. cbn.
  destruct (mapM _ cs) eqn:Hm; [done|]. intros _. destruct (IH eq_refl) as [s Hs]. exists s. by right.
Qed.

Lemma finished_places cs x : finished cs = Some x -> child_places cs = [].
Proof.
  unfold finished. revert x. induction cs as [|[s|y] cs IH]; intros x; [done|done|]. cbn.
  destruct (mapM _ cs) as [x'|] eqn:Hm; [|done]. intros _. by apply (IH x').
Qed.

(** Some futures are not ready: the task waits for them. *)
Lemma kids_wait id q cs0 w G v cs :
  kids id (TFut q cs0 w) q G v cs [] -> finished cs = None -> lv (on_tasks (alter (put_future (TFut q cs w)) id) v).
Proof.
  intros (Hc & Hnd & Hroot & Hs & Hl & rt & Hrt & Hf & Ho)%kids_children Hn. exists G. split.
  - eapply live_swap; [exact Hl|by right|]. intros rt2 Hrt2. assert (rt2 = rt) as -> by congruence.
    pose proof (lv_tasks _ _ _ _ Hl id rt Hrt) as Ht. unfold task_live in *. rewrite Hf in Ht. cbn [rt_future put_future].
    split; [apply Ht|]. intros _.
    eapply (task_rest_tasks G v); [done..|intros j; apply alter_some|]. split_and!; [done..|].
    destruct (finished_none _ Hn) as [s Hin]. rewrite Forall_forall in Hs. destruct (Hs _ Hin) as [(rt2 & Hq2 & Hq)|Hb].
    + left. cbn. congruence.
    + right. apply Exists_exists. exists (CStk s). split; [done|]. by exists s.
  - eapply (conf_live_tasks G v); [done..|intros j; apply alter_some|done].
Qed.

(** ** The task returns *)

(** What has changed when the task [id] with place [q] and waker [w] is over. *)
Record ended (id q : nat) (w : option nat) (x : list V) v v' : Prop := {
  en_tasks j rt' : v_tasks v' !! j = Some rt' -> j <> id /\ exists rt, v_tasks v !! j = Some rt /\
    rt_future rt' = rt_future rt /\ rt_owned rt' = rt_owned rt /\ (rt_queued rt = true -> rt_queued rt' = true);
  en_some j : j <> id -> is_Some (v_tasks v !! j) -> is_Some (v_tasks v' !! j);
  en_woken i j rt' : w = Some i -> v_wakers v !! i = Some (Some j) -> v_tasks v' !! j = Some rt' -> rt_queued rt' = true;
  en_length : length (v_wakers v') = length (v_wakers v);
  en_slot i j : v_wakers v !! i = Some (Some j) -> j <> id -> w <> Some i -> v_wakers v' !! i = Some (Some j);
  en_old i j : v_wakers v' !! i = Some (Some j) -> v_wakers v !! i = Some (Some j);
  en_tokens : v_tokens v' = v_tokens v;
  en_next : v_next v' = v_next v;
  en_user : v_user v' = put_place q (Some x) (v_user v);
}.

Section ended.
Context (G : gmap nat scope_info) (id q : nat) (w : option nat) (x : list V) (v v' : view (fut V) (mem V)).
Context (g : scope_info) (Hen : ended id q w x v v') (Hl : live E G (Some id) v).
Context (Hg : G !! q = Some g) (Hid : g_task g = id) (Hw : g_waker g = w).

Lemma ended_place q' : is_Some (G !! q') ->
  place (v_user v') q' = if decide (q' = q) then Some (Some x) else place (v_user v) q'.
Proof.
  intros _. rewrite (en_user _ _ _ _ _ _ Hen), place_put. case_decide as Hq'; [|done].
  pose proof (io_place _ _ _ (lv_info _ _ _ _ Hl q g Hg)) as Hlt.
  by destruct (lookup_lt_is_Some_2 _ _ Hlt) as [sc ->].
Qed.

Lemma ended_conf o c : o <> Some id -> conf_live G v o c -> conf_live G v' o c.
Proof.
  intros Ho [Hp Hf]. split.
  - intros q' t Hq. destruct (Hp q' t Hq) as (g' & Hg' & Hpar & Ht & Hn). exists g'. split_and!; [done..|].
    rewrite ended_place by by eexists. case_decide as Hd; [done|]. intros Hn'. destruct (Hn Hn') as [Hr Hwk].
    split; [apply (en_some _ _ _ _ _ _ Hen); [|done]|].
    + intros Heq. apply Hd. eapply (lv_task_inj _ _ _ _ Hl); [exact Hg'|exact Hg|congruence].
    + intros p Hp'. destruct (Hwk p Hp') as (i & Hi & Hs). exists i. split; [done|].
      apply (en_slot _ _ _ _ _ _ Hen); [done|congruence|]. intros Hi'. apply Hd.
      eapply (lv_waker_inj _ _ _ _ Hl); [exact Hg'|exact Hg|done|congruence].
  - intros i Hi. destruct (Hf i Hi) as [Hlt Hfree]. split; [by rewrite (en_length _ _ _ _ _ _ Hen)|done].
Qed.

Lemma ended_rest j q' cs rt rt' :
  v_tasks v' !! j = Some rt' -> rt_owned rt' = rt_owned rt -> (rt_queued rt = true -> rt_queued rt' = true) ->
  j <> id -> task_rest G v j q' cs rt -> task_rest G v' j q' cs rt'.
Proof.
  intros Hj Ho Hqd Hne (Hc & Hnd & Hown & Hor). rewrite Forall_forall in Hc. split_and!; [|done| |].
  - apply Forall_forall. intros [s|y] Hs; [|done]. destruct (Hc _ Hs) as [Hcl Hctx]. split; [|done].
    apply ended_conf; [congruence|done].
  - rewrite Ho. intros y Hy. specialize (Hown y Hy). destruct y as [n|i].
    + by rewrite (en_tokens _ _ _ _ _ _ Hen).
    + destruct Hown as [?|[[Hlt Hfree] Hji]]; [by left|right]. split; [split; [by rewrite (en_length _ _ _ _ _ _ Hen)|done]|].
      intros j' Hj'. apply Hji. by apply (en_old _ _ _ _ _ _ Hen).
  - destruct Hor as [Hq|Hb]; [left; by apply Hqd|].
    apply Exists_exists in Hb as (ch & Hch & s & -> & Hb). destruct (Hc _ Hch) as [[Hp _] _].
    assert (H : rt_queued rt' = true \/ blocked v' j (st_conf s)); [|destruct H as [H|H]; [by left|right;
      apply Exists_exists; exists (CStk s); split; [done|by exists s]]].
    destruct (st_conf s) as [[| | | |e k| |] n fs|[|q2 t|] k n fs| | |]; try done; cbn [blocked] in *.
    + right. rewrite (en_user _ _ _ _ _ _ Hen). destruct (put_fields (v_user v) q (Some x)) as [-> ->].
      destruct Hb as (He & i & Hi & Hs). split; [done|]. exists i. split; [done|].
      apply (en_slot _ _ _ _ _ _ Hen); [done..|]. intros Hwi.
      destruct (lv_waiting _ _ _ _ Hl e i Hi) as [_ Hfree]. by apply (Hfree q g Hg); congruence.
    + destruct (Hp q2 t eq_refl) as (g2 & Hg2 & Hpar & _ & Hn). rewrite ended_place by by eexists.
      case_decide as Hd; [left|by right]. subst q2. assert (g2 = g) as -> by congruence.
      destruct (Hn Hb) as [_ Hwk]. destruct (Hwk j eq_refl) as (i & Hi & Hs).
      eapply (en_woken _ _ _ _ _ _ Hen); [|exact Hs|exact Hj]. congruence.
Qed.

Lemma ended_live : live E G None v'.
Proof.
  destruct (put_fields (v_user v) q (Some x)) as [He Hwt].
  split; rewrite ?(en_user _ _ _ _ _ _ Hen), ?He, ?Hwt; try apply Hl.
  - intros j rt' Hj. destruct (en_tasks _ _ _ _ _ _ Hen j rt' Hj) as (Hne & rt & Hrt & Hf & Ho & Hqd).
    pose proof (lv_tasks _ _ _ _ Hl j rt Hrt) as Ht. unfold task_live in *. rewrite Hf.
    destruct (rt_future rt) as [q' cs w'|]; [|done]. destruct Ht as [(g' & sc & Hg' & Hj' & Hw' & Hq' & Hn & Hev) Hr]. split.
    + exists g'. assert (Hqq : q' <> q) by congruence.
      assert (Hsc : scopes (v_user v') !! q' = Some sc); [|by exists sc].
      rewrite (en_user _ _ _ _ _ _ Hen). destruct (put_same (v_user v) q (Some x)) as [->|(sc2 & _ & ->)]; [done|].
      by rewrite list_lookup_insert_ne.
    + intros _. eapply ended_rest; [done..|apply Hr; congruence].
  - intros q' g' Hq'. destruct (lv_info _ _ _ _ Hl q' g' Hq') as [H1 H2 H3 H4 H5].
    split; rewrite ?(en_user _ _ _ _ _ _ Hen), ?put_length, ?(en_next _ _ _ _ _ _ Hen), ?(en_tokens _ _ _ _ _ _ Hen),
      ?(en_length _ _ _ _ _ _ Hen); done.
  - intros e i Hi. destruct (lv_waiting _ _ _ _ Hl e i Hi) as [? ?]. split; [by rewrite (en_length _ _ _ _ _ _ Hen)|done].
Qed.
End ended.

Definition wake_opt (w : option nat) v : view (fut V) (mem V) := match w with Some i => wake_slot i v | None => v end.

Lemma wake_opt_fields w v :
  v_tokens (wake_opt w v) = v_tokens v /\ v_next (wake_opt w v) = v_next v /\ v_user (wake_opt w v) = v_user v /\
  length (v_wakers (wake_opt w v)) = length (v_wakers v).
Proof.
  destruct w as [i|]; [|done]. unfold wake_opt, wake_slot. destruct (v_wakers v !! i) as [[j|]|]; [|done..].
  cbn. by rewrite length_insert.
Qed.

Lemma wake_opt_lookup w v j rt' :
  v_tasks (wake_opt w v) !! j = Some rt' -> exists rt, v_tasks v !! j = Some rt /\ rt_future rt' = rt_future rt /\
    rt_owned rt' = rt_owned rt /\ (rt_queued rt = true -> rt_queued rt' = true) /\
    (forall i, w = Some i -> v_wakers v !! i = Some (Some j) -> rt_queued rt' = true).
Proof.
  destruct w as [i|]; [|by exists rt']. unfold wake_opt, wake_slot. destruct (v_wakers v !! i) as [[p|]|] eqn:Hi.
  - intros Hj. destruct (wake_lookup _ _ _ _ Hj) as (rt & Hrt & Hf & Ho & Hq). exists rt. split_and!; [done..|].
    intros i' [= <-] Hp. assert (p = j) as -> by congruence.
    destruct (wake_is_queued (drop_slot i v) j ltac:(by eexists)) as (rt2 & Hrt2 & Hq2). congruence.
  - exists rt'. split_and!; [done..|]. intros i' [= <-]. by rewrite Hi.
  - exists rt'. split_and!; [done..|]. intros i' [= <-]. by rewrite Hi.
Qed.

Lemma wake_opt_some w v j : is_Some (v_tasks v !! j) -> is_Some (v_tasks (wake_opt w v) !! j).
Proof.
  destruct w as [i|]; [|done]. unfold wake_opt, wake_slot. destruct (v_wakers v !! i) as [[p|]|]; [|done..].
  intros Hj. by apply wake_some.
Qed.

Lemma wake_opt_slot w v i :
  (w <> Some i /\ v_wakers (wake_opt w v) !! i = v_wakers v !! i) \/
  (w = Some i /\ forall j, v_wakers (wake_opt w v) !! i <> Some (Some j)).
Proof.
  destruct w as [i'|]; [|by left]. destruct (decide (i' = i)) as [->|Hne].
  - right. split; [done|]. intros j. unfold wake_opt, wake_slot. destruct (v_wakers v !! i) as [[p|]|] eqn:Hi; [|congruence..].
    cbn. rewrite list_lookup_insert_eq by by eapply lookup_lt_Some. done.
  - left. split; [congruence|]. unfold wake_opt, wake_slot. destruct (v_wakers v !! i') as [[p|]|]; [|done..].
    cbn. by rewrite list_lookup_insert_ne.
Qed.

Lemma same_length {A B} (l : list A) (k : list B) : (forall i, is_Some (l !! i) <-> is_Some (k !! i)) -> length l = length k.
Proof.
  intros H. apply Nat.le_antisymm; apply Nat.nlt_ge; intros Hlt%lookup_lt_is_Some_2.
  - apply H, lookup_lt_is_Some_1 in Hlt. lia.
  - apply H, lookup_lt_is_Some_1 in Hlt. lia.
Qed.

Lemma ended_delete id q w x v v' :
  released id (wake_opt w (on_user (put_place q (Some x)) v)) v' -> ended id q w x v (on_tasks (delete id) v').
Proof.
  set (v3 := wake_opt w _). intros (l & -> & Hl).
  destruct (wake_opt_fields w (on_user (put_place q (Some x)) v)) as (Et & En & Eu & Ew). fold v3 in Et, En, Eu, Ew.
  assert (Hs : forall i, (w <> Some i /\ v_wakers v3 !! i = v_wakers v !! i) \/
    (w = Some i /\ forall j, v_wakers v3 !! i <> Some (Some j))) by (intros i; exact (wake_opt_slot w (on_user (put_place q (Some x)) v) i)).
  split; cbn [on_tasks on_wakers v_tasks v_wakers v_tokens v_next v_user]; try done.
  - intros j rt' [Hne Hj]%lookup_delete_Some. split; [done|].
    destruct (wake_opt_lookup _ _ _ _ Hj) as (rt & Hrt & Hf & Ho & Hq & _). by exists rt.
  - intros j Hne Hj. rewrite lookup_delete_ne by done. by apply wake_opt_some.
  - intros i j rt' Hi Hj [_ Hrt]%lookup_delete_Some.
    destruct (wake_opt_lookup _ _ _ _ Hrt) as (_ & _ & _ & _ & _ & Hq). by apply (Hq i).
  - change (length (v_wakers v)) with (length (v_wakers (on_user (put_place q (Some x)) v))). rewrite <- Ew.
    apply same_length. intros i. destruct (Hl i) as [->|[-> ->]]; [done|]. by split.
  - intros i j Hi Hne Hw. destruct (Hs i) as [[_ He]|[? _]]; [|done]. rewrite <- Hi, <- He.
    destruct (Hl i) as [?|[Hid _]]; [done|]. congruence.
  - intros i j Hi. destruct (Hl i) as [He|[_ He]]; [|congruence]. rewrite He in Hi.
    destruct (Hs i) as [[_ He2]|[_ Hn]]; [congruence|]. by destruct (Hn j).
Qed.

(** All futures are ready: the task that awaits the scope is woken. *)
Lemma kids_return id q cs0 w G v cs x :
  kids id (TFut q cs0 w) q G v cs [] -> finished cs = Some x ->
  poll_lv lv id (wake_opt w (on_user (put_place q (Some x)) v)) None.
Proof.
  intros (Hc & Hnd & Hroot & Hs & Hl & rt & Hrt & Hf & Ho)%kids_children Hfin.
  rewrite (finished_places _ _ Hfin) in Ho.
  pose proof (lv_tasks _ _ _ _ Hl id rt Hrt) as Ht. unfold task_live in Ht. rewrite Hf in Ht.
  destruct Ht as [(g & _ & Hg & Hid & Hw & _) _]. split.
  - intros rt' Hrt'. destruct (wake_opt_lookup _ _ _ _ Hrt') as (rt2 & Hrt2 & _ & Ho' & _).
    assert (rt2 = rt) as -> by (cbn in Hrt2; congruence). rewrite Ho'.
    destruct (wake_opt_fields w (on_user (put_place q (Some x)) v)) as (Et & _). split.
    + intros n j Hn. destruct (Ho _ Hn) as (q' & g' & _ & _ & _ & [Hin|Htk]); [by apply not_elem_of_nil in Hin|].
      rewrite Et. cbn. congruence.
    + intros i j Hi. destruct (wake_opt_slot w (on_user (put_place q (Some x)) v) i) as [[Hne He]|[_ Hn]]; [|by intros H%Hn].
      rewrite He. destruct (Ho _ Hi) as [(g' & Hg' & Hw')|[_ Hj]]; [congruence|apply Hj].
  - intros v' Hrel%ended_delete. exists G. split.
    + by eapply (ended_live G id q w x v _ g).
    + by eapply (ended_conf G id q w x v _ g).
Qed.

(** ** The poll of a task *)
Lemma av_poll_fut v id rt :
  lv v -> v_tasks v !! id = Some rt -> mem_ok E (v_user v) -> mem_in (v_user v) -> fut_fine E fuel (v_user v) (rt_future rt) ->
  act_v (AsTask id) (poll_lv lv id) (on_tasks (alter (queue_as false) id) v)
    (poll_fut fuel {| cx_addr := addr; cx_root := None |} (rt_future rt)).
Proof.
  intros Hlv Hrt Hok Hin Hfine. destruct (kids_start v id rt Hlv Hrt) as (q & cs & w & G & Hf & Hk).
  destruct Hlv as (G0 & Hl0 & _). pose proof (lv_tasks _ _ _ _ Hl0 id rt Hrt) as Ht. unfold task_live in Ht.
  rewrite Hf in *. destruct Ht as [(_ & sc & _ & _ & _ & Hq & _ & Hev) _].
  destruct Hfine as (sc' & Hq' & Hcs). assert (sc' = sc) as -> by congruence.
  cbn [poll_fut]. apply act_v_bind. eapply act_v_mono; [|by eapply (kids_poll id (TFut q cs w) q cs [] G)].
  intros v' cs' [G' Hk']. cbn [app] in Hk'. destruct (finished cs') as [x|] eqn:Hfin.
  - cbn [act_v]. pose proof (kids_return _ _ _ _ _ _ _ _ Hk' Hfin) as Hr. by destruct w.
  - cbn [act_v]. by eapply kids_wait.
Qed.
End scope.
