(* ===== verification/TreeLiveRun.v ===== *)
(** * A tree that waits, waits for an event

    The operations of a [TreeStack] keep every task waiting for something.  When a
    poll is pending and the executor was not called, an event is still to come
    that will call it. *)

From S2P Require Import Prelude Exc Stack Schedular SchedularInv SchedularSafe SchedularPoll SchedularQuiet SchedularView SchedularLive.
From S2P Require Import Tree TreeInv TreePoll TreeSafe TreeLive TreeLivePoll TreeLiveScope.
Import Schedular Tree.
#[local] Existing Instance calm.

(** ** From a waiting task to an event *)
Section chain.
Context {V : Type} (E : gmap nat V) (b : nat).
Implicit Types (v : view (fut V) (mem V)) (c : conf V) (rt : running_task (fut V)) (G : gmap nat scope_info).

(** A task that waits for the event [e], of those that are to happen. *)
Definition waits_for v (e id : nat) : Prop :=
  is_Some (E !! e) /\ events (v_user v) !! e = None /\ is_Some (v_tasks v !! id) /\
  exists i, (e, STask i) ∈ waiting (v_user v) /\ v_wakers v !! i = Some (Some id).

(** A stack that can be evaluated waits for one of [E]. *)
Lemma await_in_E u e k n fs : is_Some (eval_conf E u (CCode (TAwait e k) n fs)) -> is_Some (E !! e).
Proof.
  cbn [eval_conf]. intros [y Hy]. cbn [eval] in Hy. destruct (E !! e); [by eexists|]. cbn in Hy. by rewrite (proj1 (frames_none E fs)) in Hy.
Qed.

Lemma evals_elem l p : is_Some (evals E l) -> p ∈ l -> is_Some (eval E p).
Proof.
  unfold evals. intros [vs Hvs] Hp. apply list_elem_of_lookup in Hp as [i Hi].
  apply mapM_Some in Hvs. destruct (Forall2_lookup_l _ _ _ _ _ Hvs Hi) as (y & _ & Hy). by exists y.
Qed.

(** The task of a scope that is awaited is younger, so the last one waits for an
    event. *)
Lemma chain G v :
  live E G None v -> (forall id rt, v_tasks v !! id = Some rt -> rt_queued rt = false /\ fut_fine E b (v_user v) (rt_future rt)) ->
  forall id, is_Some (v_tasks v !! id) -> exists e id', waits_for v e id'.
Proof.
  intros Hl Hq id. remember (v_next v - id)%nat as n eqn:Hn. revert id Hn. induction n as [n IH] using lt_wf_ind. intros id -> [rt Hrt].
  destruct (Hq id rt Hrt) as [Hu Hfine]. pose proof (lv_tasks _ _ _ _ Hl id rt Hrt) as Ht. unfold task_live in Ht.
  pose proof (task_old E G None v id Hl ltac:(by eexists)) as Hold.
  destruct (rt_future rt) as [q cs w|]; [|done]. destruct Ht as [(_ & sc & _ & _ & _ & Hsc & _ & Hev) Hr].
  destruct (Hr ltac:(done)) as (Hc & _ & _ & [?|Hb]); [congruence|].
  apply Exists_exists in Hb as (ch & Hch & s & -> & Hb). rewrite Forall_forall in Hc. destruct (Hc _ Hch) as [[Hp _] _].
  assert (Hval : is_Some (eval_conf E (v_user v) (st_conf s))).
  { destruct Hfine as (sc' & Hsc' & Hcs). assert (sc' = sc) as -> by congruence.
    apply list_elem_of_lookup in Hch as [k Hk]. destruct (Forall2_lookup_l _ _ _ _ _ Hcs Hk) as (p & Hpl & _ & _ & _ & He & _).
    rewrite He. eapply evals_elem; [done|]. by eapply list_elem_of_lookup_2. }
  destruct (st_conf s) as [[| | | |e k| |] m fs|[|q2 t|] k m fs| | |]; try done; cbn [blocked] in Hb.
  - destruct Hb as (He & i & Hi & Hs). exists e, id. split; [by eapply await_in_E|]. split; [done|].
    split; [by eexists|]. by exists i.
  - destruct (Hp q2 t eq_refl) as (g & Hg & Hpar & _ & Hn). destruct (Hn Hb) as [Hrun _].
    pose proof (io_par _ _ _ (lv_info _ _ _ _ Hl q2 g Hg) id Hpar) as Hlt.
    eapply (IH (v_next v - g_task g)%nat); [|done|done]. lia.
Qed.
End chain.

Section run.
Context {V : Type} (E : gmap nat V) (b : nat) (task_addr : Z).
Context (Haddr : Ptr.dangling 1 <> task_addr).

#[local] Instance fut_run : Future (fut V) (mem V) := fu b task_addr.
#[local] Instance spec_run : FutureSpec (fut V) (mem V) := fs E b.
#[local] Instance ok_run : FutureOk (fut V) (mem V) := tree_future_ok E b task_addr.

Abbreviation tree_core := (tree_core E b).
Abbreviation root_is := (root_is E b).
Abbreviation work := (work E b).
Context (P : string -> Prop).

Definition view_tree (t : tree V) : view (fut V) (mem V) := view_of None (sch t).

(** Every task of the tree waits for something, and so does the root. *)
Record alive (t : tree V) : Prop := {
  al_lv : lv E (root_conf t) (view_tree t);
  al_gap : gap (sch t) = None;
}.

(** The event [e] is to happen and will call the executor [w]. *)
Definition asleep (w : nat) (t : tree V) (e : nat) : Prop :=
  is_Some (E !! e) /\ events (mem_of t) !! e = None /\
  ((e, SRoot w) ∈ waiting (mem_of t) \/
   (exists id, waits_for E (view_tree t) e id) /\ registered (sch t) = Some w /\ should_poll (sch t) = []).

Definition extends (t t' : tree V) : Prop := exists l, outer_woken (sch t') = outer_woken (sch t) ++ l.

(** A poll by the executor [w] is pending: it has called [w] and done something, or
    it sleeps. *)
Definition pends (w : nat) (t t' : tree V) : Prop :=
  called w (outer_woken (sch t)) (sch t') /\ (work t' < work t)%nat \/ exists e, asleep w t' e.

(** A call of the executor is paid for with work, and events stay. *)
Record loud (t t' : tree V) : Prop := {
  ld_work : (work t' <= work t)%nat;
  ld_log : outer_woken (sch t') = outer_woken (sch t) \/ (work t' < work t)%nat;
  ld_events : events (mem_of t) ⊆ events (mem_of t');
}.

Lemma loud_refl t : loud t t.
Proof. split; [done|by left|done]. Qed.
Lemma loud_trans t1 t2 t3 : loud t1 t2 -> loud t2 t3 -> loud t1 t3.
Proof.
  intros [H1 H2 He1] [H3 H4 He3]. split; [lia| |by etrans].
  destruct H2 as [H2|H2], H4 as [H4|H4]; [left; congruence|right; lia..].
Qed.

Lemma extends_refl t : extends t t.
Proof. exists []. by rewrite app_nil_r. Qed.
Lemma extends_trans t1 t2 t3 : extends t1 t2 -> extends t2 t3 -> extends t1 t3.
Proof. intros [l1 H1] [l2 H2]. exists (l1 ++ l2). by rewrite H2, H1, app_assoc. Qed.

(** ** The thread local pointers do not matter *)
Lemma lv_quiet c v (f : mem V -> mem V) :
  scopes (f (v_user v)) = scopes (v_user v) -> events (f (v_user v)) = events (v_user v) ->
  waiting (f (v_user v)) = waiting (v_user v) -> lv E c v -> lv E c (on_user f v).
Proof.
  intros Hs He Hw (G & Hl & Hc). exists G.
  destruct (live_user E G None v f [] Hl) as [Hl' Hk]; [by rewrite app_nil_r|done|by rewrite Hw|rewrite Hw; by left|].
  split; [done|]. by eapply conf_keeps.
Qed.

Lemma ptrs_alive t t' : ptrs t t' -> alive t -> alive t' /\ outer_woken (sch t') = outer_woken (sch t) /\
  root_conf t' = root_conf t /\ v_tasks (view_tree t') = v_tasks (view_tree t) /\ all_next (sch t') = all_next (sch t) /\ (forall w e, asleep w t e -> asleep w t' e).
Proof.
  intros (f & -> & Hf) [Hlv Hg]. destruct (Hf (mem_of t)) as (H1 & H2 & H3 & _). split_and!; try done.
  - split; [|done]. by apply (lv_quiet (root_conf t) (view_tree t) f).
  - intros w e (He & Hn & Hor). split; [done|]. change (mem_of (on_mem f t)) with (f (mem_of t)). rewrite H2, H3.
    split; [done|]. destruct Hor as [Hr|[(id & Hwf) Hr]]; [by left|right]. split; [|exact Hr]. exists id.
    unfold waits_for in *. change (v_user (view_tree (on_mem f t))) with (f (mem_of t)). by rewrite H2, H3.
Qed.

(** ** The scheduler *)
Lemma lv_poll_tree c v id rt :
  lv E c v -> v_tasks v !! id = Some rt -> uok (v_user v) -> uin (v_user v) -> fok (v_user v) (rt_future rt) ->
  act_v (AsTask id) (poll_lv (lv E c) id) (on_tasks (alter (queue_as false) id) v) (fpoll (rt_future rt)).
Proof. intros. by apply av_poll_fut. Qed.

(** With an empty queue all tasks that run wait. *)
Lemma empty_queue s L held c :
  sinv s L at_rest held -> should_poll s = [] -> lv E c (view_of None s) -> L <> [] ->
  exists e id, waits_for E (view_of None s) e id.
Proof.
  intros Hinv Hq (G & Hl & _) HL. destruct L as [|x L]; [done|]. pose proof Hinv as [Hc _ _ Hus].
  destruct (core_get _ _ _ _ x Hc) as [t Ht]; [apply refs_list; left|].
  assert (Hst : forall y u, tasks s !! y = Some u -> queued u = true -> done u <> Done -> False).
  { intros y u Hu Hqd Hd. destruct (c_status _ _ _ _ Hc y u Hu) as (_ & _ & _ & H). destruct (done u); [| |done].
    - destruct H as (_ & _ & H). destruct (H Hqd) as [Hin|?]; [|done]. rewrite Hq in Hin. by apply not_elem_of_nil in Hin.
    - destruct H as (_ & _ & H & _). destruct (H Hqd) as [Hin|?]; [|done]. rewrite Hq in Hin. by apply not_elem_of_nil in Hin. }
  eapply (chain E b); [exact Hl| |].
  - intros id rt Hrt. rewrite view_lookup in Hrt. destruct (tasks s !! id) as [u|] eqn:Hu; [|done]. cbn in Hrt.
    unfold as_running in Hrt. destruct (done u) eqn:Hd; [|done..]. cbn in Hrt.
    destruct (future u) as [f|] eqn:Hf; [|done]. injection Hrt as <-. cbn. split.
    + destruct (queued u) eqn:Hqd; [|done]. destruct (Hst id u Hu Hqd ltac:(by rewrite Hd)).
    + destruct (u_futures _ Hus _ _ _ Hu Hf) as [[]|H]. exact H.
  - instantiate (1 := x). rewrite view_lookup, Ht. cbn. unfold as_running, future_in.
    destruct (c_status _ _ _ _ Hc x t Ht) as (_ & _ & _ & H). destruct (done t) eqn:Hd.
    + destruct (future t) as [f|] eqn:Hf; [by eexists|]. destruct H as (_ & [H _] & _). discriminate (H eq_refl).
    + destruct H as (_ & _ & Hc1 & Hc2). destruct (queued t) eqn:Hqd.
      * destruct (Hst x t Ht Hqd ltac:(by rewrite Hd)).
      * by apply not_elem_of_nil in Hc2.
    + destruct H as (_ & _ & H). by discriminate H; left.
Qed.

Lemma wp_tree_sched fuel w t L held (Q : option (poll unit) -> tree V -> Prop) :
  tree_core true true t -> alive t -> sinv (sch t) L at_rest held -> L <> [] ->
  (forall r sc, let t' := set_sch sc t in
     tree_core true true t' -> alive t' -> extends t t' -> mem_le (mem_of t) (mem_of t') -> (pot sc <= pot (sch t))%nat ->
     outer_woken sc = outer_woken (sch t) \/ (pot sc < pot (sch t))%nat ->
     (r = Some (Ready tt) -> all_next sc = None) ->
     (r = Some Pending -> called w (outer_woken (sch t)) sc /\ (pot sc < pot (sch t))%nat \/ exists e, asleep w t' e) -> Q r t') ->
  wpe (on_sched (poll_sched fuel w)) t Q P.
Proof.
  intros Hc [Hlv Hg] Hinv HL HQ. pose proof Hc as [_ Hal Hsp Htp Hst]. apply wp_on_sched.
  eapply wpe_run.
  { eapply (wp_poll_sched_v P (lv E (root_conf t)) (lv_poll_tree (root_conf t)) w fuel (sch t) L held
      (fun r s' => poll_post w fuel (set_registered (Some w) (sch t)) r s' /\ live_post (lv E (root_conf t)) (sch t) r s'));
      [exact Hinv|done|by split_and!|exact Hlv|].
    intros r s' [(? & _)|(_ & H1 & H2)]; [done|]. by split. }
  intros r sc Hrun [(L' & held' & H1 & H2 & H3 & (Hi1 & Hi2 & Hi3) & _ & Hpot & Hr & Hp) [Hlv' Hless]].
  assert (Hgap : gapless (outer_woken (sch t)) sc).
  { eapply (quiet_poll_sched (outer_woken (sch t)) fuel w (sch t)); [|exact Hrun]. split; [done|].
    exists []. by rewrite app_nil_r. }
  destruct Hgap as [Hg' Hext]. apply HQ; try done.
  - split; [by exists L', held'|etrans; [exact H2|exact Hal]|done..].
  - destruct (Hless Hg); [by right|by left].
  - intros Hready. rewrite (l_next _ _ (s_linked _ _ _ _ H1)). by rewrite (Hr Hready).
  - intros ->. destruct (Hp eq_refl (outer_woken (sch t))) as [Hcal|(Hreg & Hq & HL')].
    + exists []. cbn. rewrite app_nil_r. split; [done|by left].
    + intros g Hgg. change (gap (sch t) = Some g) in Hgg. congruence.
    + left. split; [done|]. destruct (Hless Hg) as [?|Heq]; [done|].
      destruct Hcal as (l & Hl & Hw). rewrite Heq in Hl.
      assert (l = []) as -> by (apply (app_inv_head (outer_woken (sch t))); by rewrite app_nil_r).
      by apply not_elem_of_nil in Hw.
    + right. destruct (empty_queue sc L' held' _ H1 Hq Hlv' HL') as (e & id & Hw). pose proof Hw as (He & Hn & _).
      exists e. split; [done|]. split; [done|]. right. split; [by exists id|done].
Qed.

(** ** The root *)
Lemma wp_drive_root_live addr w o t (Q : poll bool -> tree V -> Prop) :
  tree_core false true t -> root_is o t -> is_Some o -> has_task (root_conf t) -> alive t ->
  (forall r t', alive t' -> extends t t' -> outer_woken (sch t') = outer_woken (sch t) \/ (work t' < work t)%nat ->
     events (mem_of t') = events (mem_of t) ->
     (r = Pending -> waits (AsRoot w) (view_tree t') (root_conf t') /\
        (is_Some (conf_place (root_conf t')) -> v_tasks (view_tree t') = v_tasks (view_tree t))) -> Q r t') ->
  wpe (drive_root addr w) t Q P.
Proof.
  intros Hc Hr Hsome Ht [(G & Hlive & Hconf) Hg] HQ.
  apply wpe_bind, wpe_gets, wpe_bind, wpe_gets, wpe_bind, wpe_gets, wpe_bind, wp_on_sched.
  pose proof (mem_ok_core E b _ _ _ Hc) as Hok. destruct Hr as [Hco Hv Hf Hcov].
  pose proof Hc as [(L & held & Hinv) Hal Hsp Htp Hst].
  set (s := {| st_conf := root_conf t; st_state := root_state (user (sch t)); st_context := root_context t |}).
  pose proof (calm_drive_stack_ok E b (outer addr w) s (mem_of t) 0 Hok Htp Hco Ht Hst Hf Hcov) as Hd.
  assert (Hi : inv E (AsRoot w) [] [] TFDone 0 G (view_tree t) (conf_wakers (root_conf t)) (conf_place (root_conf t))).
  { destruct Hconf as [Hp Hw]. split; [done|done|by intros x ?%not_elem_of_nil|done|done|].
    intros q tok Hq. split; [by apply Hp|by intros ?%not_elem_of_nil]. }
  assert (Hd' : act_v (AsRoot w) (driven_live E (AsRoot w) [] [] TFDone 0 (v_tasks (view_tree t)) (root_context t))
    (view_tree t) (drive_stack (outer addr w) s)).
  { eapply av_drive_stack; try done. change (is_Some (eval_conf E (mem_of t) (root_conf t))). by rewrite Hv. }
  eapply wpe_run.
  { eapply (wp_run_act_v P (AsRoot w) None eq_refl (drive_stack (outer addr w) s) _ _ _ (sch t) L held
      (fun r sc => driven_live E (AsRoot w) [] [] TFDone 0 (v_tasks (view_tree t)) (root_context t) (view_of None sc) r /\
        (exists L', sinv sc L' at_rest held) /\ mem_ok E (user sc) /\ events (user sc) = events (mem_of t) /\ (outer_woken sc = outer_woken (sch t) \/
         pot sc + 2 * cost_conf E (user sc) (st_conf r.2) < pot (sch t) + 2 * cost_conf E (mem_of t) (root_conf t))%nat));
      [exact Hinv|done|done|exact Hd|exact Hd'|].
    intros r L' sc m Hsc _ _ (Hst' & Hok' & _ & _ & _ & _ & Hle) _ Hlog Hlv. split; [exact Hlv|].
    split; [by exists L'|]. split; [exact Hok'|]. split; [apply (st_events _ _ Hst')|].
    destruct Hlog as [?|Hlog]; [by left|right]. change (st_conf s) with (root_conf t) in *. lia. }
  intros [r s'] sc Hrun [(G' & Hi' & _ & Hp) ([L' Hsc] & Hok' & Hev & Hlog)]. cbn [fst snd] in *.
  apply wpe_bind, wpe_modify, wpe_bind, wp_upd_mem, wpe_ret.
  set (t1 := on_mem _ _). assert (Hview : view_tree t1 = on_user (set_root_state (st_state s')) (view_of None sc)) by done.
  assert (Hgap : gapless (outer_woken (sch t)) sc).
  { eapply (quiet_run_act (outer_woken (sch t)) (AsRoot w) _ (sch t)); [|exact Hrun]. split; [done|].
    exists []. by rewrite app_nil_r. }
  destruct (sinv_user sc L' at_rest held (set_root_state (st_state s') (user sc)) Hsc) as (_ & _ & Hpot);
    [by apply le_same|by apply (ok_same E (user sc))|].
  destruct Hgap as [Hg' Hext]. apply HQ; [split; [|done]|exact Hext| |exact Hev|].
  - change (root_conf t1) with (st_conf s'). rewrite Hview. apply lv_quiet; [done..|]. exists G'.
    destruct Hi' as [H1 _ _ _ H5 H6]. split; [exact H1|]. split; [|exact H5]. intros q tok Hq. by apply (H6 q tok).
  - destruct Hlog as [Hlog|Hlog]; [by left|right]. unfold TreeSafe.work.
    change (pot (set_user (set_root_state (st_state s') (user sc)) sc) + 2 * cost_conf E (user sc) (st_conf s') <
      pot (sch t) + 2 * cost_conf E (mem_of t) (root_conf t))%nat. by rewrite Hpot.
  - intros Hr. destruct (Hp Hr) as [H1 H2]. split; [exact H1|]. intros H3. rewrite Hview. by apply H2.
Qed.

Lemma wpe_both {S A} (c : M S A) s (Q R : A -> S -> Prop) :
  wpe c s Q P -> wpe c s R P -> wpe c s (fun a s' => Q a s' /\ R a s') P.
Proof. unfold wpe. by destruct (c s) as [[a s']| |]. Qed.

(** What the root waits for, when no task is left. *)
Lemma root_asleep w o t :
  alive t -> root_is o t -> is_Some o -> waits (AsRoot w) (view_tree t) (root_conf t) ->
  (is_Some (conf_place (root_conf t)) -> v_tasks (view_tree t) = ∅) -> exists e, asleep w t e.
Proof.
  intros [(G & Hl & [Hp _]) _] [_ Hv _ _] Ho Hw He. rewrite <- Hv in Ho. destruct (root_conf t) as [[| | | |e k| |] n fs|[|q tok|] k n fs| | |]; try done.
  - exists e. split; [by eapply await_in_E|]. split; [apply Hw|]. left. apply Hw.
  - destruct (Hp q tok eq_refl) as (g & Hg & _ & _ & Hn). destruct (Hn Hw) as [[rt Hrt] _].
    by rewrite (He ltac:(by eexists)) in Hrt.
Qed.

Lemma no_tasks t L held : sinv (sch t) L at_rest held -> all_next (sch t) = None -> v_tasks (view_tree t) = ∅.
Proof.
  intros Hinv Hn. rewrite (l_next _ _ (s_linked _ _ _ _ Hinv)) in Hn. destruct L as [|x L]; [|done].
  apply map_eq. intros id. unfold view_tree. rewrite view_lookup, lookup_empty.
  destruct (tasks (sch t) !! id) as [u|] eqn:Hu; [|done]. cbn. unfold as_running.
  destruct (c_status _ _ _ _ (s_core _ _ _ _ Hinv) id u Hu) as (_ & _ & _ & H). destruct (done u); [|done..].
  destruct H as [H _]. by apply not_elem_of_nil in H.
Qed.

(** ** A step *)

(** The thread local pointers are set before, after, or both. *)
Lemma pends_ptrs sp tp sp' tp' w o t t1 t2 t3 :
  tree_core sp tp t -> tree_core sp' tp' t2 -> root_is o t -> ptrs t t1 -> ptrs t2 t3 -> root_is o t2 -> alive t -> alive t2 ->
  pends w t1 t2 -> pends w t t3.
Proof.
  intros Hc Hc2 Hr Hp Hp2 Hr2 Ha Ha2. pose proof (ptrs_same E b task_addr _ _ _ _ Hc Hp) as Hs. pose proof (ptrs_same E b task_addr _ _ _ _ Hc2 Hp2) as Hs2.
  destruct (root_le E b o t t1 (sr_conf _ _ _ _ Hs) (sr_mem _ _ _ _ Hs) Hr) as [_ Hw1].
  destruct (root_le E b o t2 t3 (sr_conf _ _ _ _ Hs2) (sr_mem _ _ _ _ Hs2) Hr2) as [_ Hw2].
  destruct (ptrs_alive _ _ Hp Ha) as (_ & Ho & _). destruct (ptrs_alive _ _ Hp2 Ha2) as (_ & Ho2 & _ & _ & _ & Hsl).
  intros [[(l & Hl & Hin) Hlt]|[e He]]; [left|right; exists e; by apply Hsl].
  split; [exists l; by rewrite Ho2, Hl, Ho|]. pose proof (sr_pot _ _ _ _ Hs). pose proof (sr_pot _ _ _ _ Hs2).
  unfold TreeSafe.work in *. lia.
Qed.

Lemma loud_ptrs sp tp o t t' : tree_core sp tp t -> root_is o t -> ptrs t t' -> alive t -> loud t t'.
Proof.
  intros Hc Hr Hp Ha. pose proof (ptrs_same E b task_addr _ _ _ _ Hc Hp) as Hs.
  destruct (root_le E b o t t' (sr_conf _ _ _ _ Hs) (sr_mem _ _ _ _ Hs) Hr) as [_ Hw].
  destruct (ptrs_alive _ _ Hp Ha) as (_ & Ho & _). pose proof (sr_pot _ _ _ _ Hs).
  split; [unfold TreeSafe.work; lia|by left|apply (sr_mem _ _ _ _ Hs)].
Qed.

(** The part after the scheduler, when no task is left. *)
Lemma wp_root_live addr w o t1 t2 (Q : option (poll bool) -> tree V -> Prop) :
  tree_core false true t2 -> root_is o t2 -> is_Some o -> has_task (root_conf t2) -> alive t2 ->
  extends t1 t2 -> loud t1 t2 -> all_next (sch t2) = None ->
  (forall r t3, tree_core false true t3 -> root_is o t3 -> alive t3 -> extends t1 t3 -> loud t1 t3 ->
     (r = Some Pending -> pends w t1 t3) -> Q r t3) ->
  wpe (let! r := drive_root addr w in ret (Some r)) t2 Q P.
Proof.
  intros Hc2 Hr2 Hsome Ht Ha2 Hx2 Hl2 Hn2 HQ. apply wpe_bind. eapply wpe_post; [apply wpe_both|].
  - apply (wp_drive_root E b P addr w o t2 (fun r t3 => tree_core false true t3 /\ root_is o t3 /\ (work t3 <= work t2)%nat)); [done..|].
    by intros r t3 H1 H2 _ H3 _.
  - apply (wp_drive_root_live addr w o t2 (fun r t3 => alive t3 /\ extends t2 t3 /\
      (outer_woken (sch t3) = outer_woken (sch t2) \/ (work t3 < work t2)%nat) /\
      events (mem_of t3) = events (mem_of t2) /\ (r = Pending ->
      waits (AsRoot w) (view_tree t3) (root_conf t3) /\
      (is_Some (conf_place (root_conf t3)) -> v_tasks (view_tree t3) = v_tasks (view_tree t2))))); [done..|].
    by intros r t3 H1 H2 H3.
  - intros r t3 [(Hc3 & Hr3 & Hw3) (Ha3 & Hx3 & Hl3 & He3 & Hp3)]. apply wpe_ret, HQ; [done..|by eapply extends_trans| |].
    + eapply loud_trans; [exact Hl2|]. split; [done..|by rewrite He3].
    + intros [= ->]. right. destruct (Hp3 eq_refl) as [Hw Hv].
      eapply root_asleep; [done..|]. intros Hpl. rewrite (Hv Hpl). destruct Hc2 as [(L & held & Hinv) _ _ _ _].
      by eapply no_tasks.
Qed.

Lemma wp_top_live fuel addr w o t (Q : option (poll bool) -> tree V -> Prop) :
  tree_core false false t -> root_is o t -> is_Some o -> has_task (root_conf t) -> alive t ->
  (forall r t', alive t' -> extends t t' -> loud t t' -> (r = Some Pending -> pends w t t') -> Q r t') ->
  wpe (drive_top_task fuel addr w) t Q P.
Proof.
  intros Hc Hr Hsome Ht Ha HQ. apply (wp_tree_ptrs E b task_addr); [done|]. intros t1 Hc1 Hp1.
  pose proof (ptrs_same E b task_addr _ _ _ _ Hc Hp1) as Hs1.
  destruct (root_le E b o t t1 (sr_conf _ _ _ _ Hs1) (sr_mem _ _ _ _ Hs1) Hr) as [Hr1 _].
  destruct (ptrs_alive _ _ Hp1 Ha) as (Ha1 & Ho1 & Hconf1 & _). rewrite <- Hconf1 in Ht.
  (* how the step ends *)
  pose proof (loud_ptrs _ _ _ _ _ Hc Hr Hp1 Ha) as Hl1.
  assert (Hend : forall r t2, tree_core false true t2 -> root_is o t2 -> alive t2 -> extends t1 t2 -> loud t1 t2 ->
    (r = Some Pending -> pends w t1 t2) -> forall t3, tree_core false false t3 -> ptrs t2 t3 -> Q r t3).
  { intros r t2 Hc2 Hr2 Ha2 [l Hl] Hl2 Hpe t3 _ Hp3. destruct (ptrs_alive _ _ Hp3 Ha2) as (Ha3 & Ho3 & _).
    pose proof (loud_ptrs _ _ _ _ _ Hc2 Hr2 Hp3 Ha2) as Hl3.
    apply HQ; [done|exists l; by rewrite Ho3, Hl, Ho1|eapply loud_trans; [exact Hl1|by eapply loud_trans]|]. intros Hx.
    by apply (pends_ptrs false false false true w o t t1 t2 t3); [| | | | | | | |apply Hpe]. }
  assert (Hroot : forall t2, tree_core false true t2 -> root_is o t2 -> root_conf t2 = root_conf t1 -> alive t2 ->
    extends t1 t2 -> loud t1 t2 -> all_next (sch t2) = None ->
    wpe (let! r := drive_root addr w in ret (Some r)) t2 (fun r t3 => tree_core false true t3 /\
        forall t4, tree_core false false t4 -> ptrs t3 t4 -> Q r t4) P).
  { intros t2 Hc2 Hr2 Hconf2 Ha2 Hx2 Hl2 Hn2. eapply (wp_root_live addr w o t1 t2); try done; [by rewrite Hconf2|].
    intros r t3 H1 H2 H3 H4 H5 H6. split; [done|]. by apply Hend. }
  apply wpe_bind, wp_on_sched, wpe_gets. rewrite set_sch_same.
  destruct (all_next (sch t1)) as [x|] eqn:Hn; [|apply wpe_bind, wpe_ret, Hroot; [done..|apply extends_refl|apply loud_refl|done]].
  apply wpe_bind. apply (wp_root_ptrs E b task_addr); [done|]. intros t2 Hc2 Hp2.
  pose proof (ptrs_same E b task_addr _ _ _ _ Hc1 Hp2) as Hs2.
  destruct (root_le E b o t1 t2 (sr_conf _ _ _ _ Hs2) (sr_mem _ _ _ _ Hs2) Hr1) as [Hr2 _].
  destruct (ptrs_alive _ _ Hp2 Ha1) as (Ha2 & Ho2 & Hconf2 & _ & Hn2 & _).
  pose proof Hc2 as [(L & held & Hinv) _ _ _ _].
  assert (HL : L <> []).
  { intros ->. rewrite Hn, (l_next _ _ (s_linked _ _ _ _ Hinv)) in Hn2. done. }
  apply wpe_bind. eapply wp_tree_sched; [done|done|exact Hinv|exact HL|]. intros r sc t3 Hc3 Ha3 Hx3 Hle3 Hpot3 Hlog3 Hready Hpend.
  apply wpe_ret. split; [done|]. intros t4 Hc4 Hp4.
  destruct (root_le E b o t2 t3 eq_refl Hle3 Hr2) as [Hr3 Hw3].
  pose proof (ptrs_same E b task_addr _ _ _ _ Hc3 Hp4) as Hs4.
  destruct (root_le E b o t3 t4 (sr_conf _ _ _ _ Hs4) (sr_mem _ _ _ _ Hs4) Hr3) as [Hr4 Hw4].
  destruct (ptrs_alive _ _ Hp4 Ha3) as (Ha4 & Ho4 & Hconf4 & _ & Hn4 & _).
  assert (Hx4 : extends t1 t4) by (destruct Hx3 as [l Hl]; exists l; by rewrite Ho4, Hl, Ho2).
  assert (Hl13 : loud t1 t3).
  { eapply loud_trans; [by eapply loud_ptrs|]. split; [..|apply Hle3]; unfold TreeSafe.work; rewrite Hw3.
    - by apply Nat.add_le_mono_r.
    - destruct Hlog3 as [?|Hlt]; [by left|right]. apply Nat.add_lt_mono_r. exact Hlt. }
  assert (Hl14 : loud t1 t4) by (eapply loud_trans; [exact Hl13|by eapply loud_ptrs]).
  destruct r as [[[]|]|]; cbn [is_pending].
  - apply Hroot; [done|done|by rewrite Hconf4, <- Hconf2|done|done|done|]. rewrite Hn4. by apply Hready.
  - apply wpe_ret. split; [done|]. apply Hend; [done..|]. intros _.
    apply (pends_ptrs false true true true w o t1 t2 t3 t4); [done..|].
    destruct (Hpend eq_refl) as [[Hcal Hlt]|He]; [left|by right]. split; [done|]. unfold TreeSafe.work. rewrite Hw3.
    apply Nat.add_lt_mono_r. exact Hlt.
  - apply wpe_ret. split; [done|]. by apply Hend.
Qed.

(** ** Polls of the runner *)
Lemma alive_conf c t : alive t -> conf_place c = None -> conf_wakers c = [] -> alive (set_root_conf c t).
Proof.
  intros [(G & Hl & _) Hg] Hp Hw. split; [|done]. exists G. split; [exact Hl|]. cbn [root_conf set_root_conf]. split.
  - intros q tok Hq. congruence.
  - rewrite Hw. by intros i ?%not_elem_of_nil.
Qed.

Lemma alive_context a t : alive t -> alive (set_root_context a t).
Proof. by intros []. Qed.

Lemma pends_trans w t t1 t2 : extends t t1 -> (work t1 <= work t)%nat -> pends w t1 t2 -> pends w t t2.
Proof.
  intros [l Hl] Hw [[(l2 & Hl2 & Hin) Hlt]|He]; [left|by right]. split; [|lia].
  exists (l ++ l2). split; [by rewrite Hl2, Hl, app_assoc|]. apply elem_of_app. by right.
Qed.

Lemma pends_context a w t t' : pends w t t' -> pends w t (set_root_context a t').
Proof. exact (fun H => H). Qed.

Lemma loud_context a t t' : loud t t' -> loud t (set_root_context a t').
Proof. by intros []. Qed.
Lemma loud_from a t t' : loud (set_root_context a t) t' -> loud t t'.
Proof. by intros []. Qed.

(** What a poll ends with, besides its result. *)
Definition polled_live (w : nat) {A} t (r : option (poll A)) t' : Prop :=
  alive t' /\ extends t t' /\ loud t t' /\ (r = Some Pending -> pends w t t').

Lemma wp_finish_loop_live n fuel addr w old o t (Q : option (poll V) -> tree V -> Prop) :
  busy E b o t -> is_Some o -> alive t -> (forall r t', polled_live w t r t' -> Q r t') ->
  wpe (finish_loop n fuel addr w old) t Q P.
Proof.
  intros Hb Ho. revert t Q Hb. induction n as [|n IH]; intros t Q [Hc Hr] Ha HQ; cbn [finish_loop].
  { apply wpe_ret, HQ. split; [done|]. split; [apply extends_refl|]. split; [apply loud_refl|done]. }
  apply wpe_bind, wpe_bind, wpe_gets. assert (Hrest : has_task (root_conf t) ->
    wpe (let! r := drive_top_task fuel addr w in
         match r with
         | None => ret None
         | Some (Ready _) => finish_loop n fuel addr w old
         | Some Pending => let! _ := set_rebless_context_addr old in ret (Some Pending)
         end) t Q P).
  { intros Ht. apply wpe_bind. eapply wpe_post; [apply wpe_both|].
    - apply (wp_drive_top_task E b task_addr P fuel addr w o t (fun r => stepped E b fuel o t (Returns r))); [done..|by intros r t'].
    - apply (wp_top_live fuel addr w o t (polled_live w t)); [done..|by intros r t'].
    - intros r t1 [[Hc1 Hr1 _ Hwk _ _ _ _] (Ha1 & Hx1 & Hl1 & Hp1)]. destruct r as [[x|]|].
      + apply IH; [by split|done|]. intros r t2 (Ha2 & Hx2 & Hl2 & Hp2). apply HQ. split; [done|].
        split; [by eapply extends_trans|]. split; [by eapply loud_trans|]. intros Hr2. eapply pends_trans; [done..|by apply Hp2].
      + apply wpe_bind, wpe_bind, wpe_gets, wpe_bind, wpe_modify, wpe_ret, wpe_ret, HQ.
        split; [by apply alive_context|]. split; [exact Hx1|]. split; [by apply loud_context|]. intros _. by apply pends_context, Hp1.
      + apply wpe_ret, HQ. by split. }
  destruct Hr as [Hok Hv Hf _]. destruct (root_conf t) as [q i fs|sc k i fs|y k i fs|y|] eqn:Hconf; try (by apply wpe_ret, Hrest).
  - apply wpe_bind, wpe_modify, wpe_ret, wpe_bind, wpe_bind, wpe_gets, wpe_bind, wpe_modify, wpe_ret, wpe_ret, HQ.
    split; [by apply alive_context, alive_conf|]. split; [exists []; by rewrite app_nil_r|]. split; [|done].
    split; [|by left|done]. unfold TreeSafe.work, root_work. cbn. by rewrite (Hconf : root_conf t = CDone y).
Qed.

Lemma wp_poll_finish_live fuel addr w o t (Q : option (poll V) -> tree V -> Prop) :
  busy E b o t -> is_Some o -> alive t -> (forall r t', polled_live w t r t' -> Q r t') ->
  wpe (poll_finish fuel addr w) t Q P.
Proof.
  intros [Hc Hr] Ho Ha HQ. apply wpe_bind, wpe_bind, wpe_gets, wpe_bind, wpe_modify, wpe_ret.
  eapply wp_finish_loop_live; [split; [by apply core_context|by apply root_context_is]|done|by apply alive_context|].
  intros r t' (Ha' & Hx & Hl & Hp). apply HQ. split; [done|]. split; [exact Hx|]. split; [by eapply loud_from|exact Hp].
Qed.

Lemma wp_poll_step_live fuel addr w o t (Q : option (poll (option V)) -> tree V -> Prop) :
  busy E b o t -> is_Some o -> alive t -> (forall r t', polled_live w t r t' -> Q r t') ->
  wpe (poll_step fuel addr w) t Q P.
Proof.
  intros [Hc Hr] Ho Ha HQ. apply wpe_bind, wpe_bind, wpe_gets, wpe_bind, wpe_modify, wpe_ret.
  set (t0 := set_root_context addr t).
  assert (Hc0 : tree_core false false t0) by by apply core_context.
  assert (Hr0 : root_is o t0) by by apply root_context_is.
  assert (Ha0 : alive t0) by by apply alive_context.
  apply wpe_bind, wpe_bind, wpe_gets. assert (Hrest : has_task (root_conf t0) ->
    wpe (let! r := drive_top_task fuel addr w in
         match r with
         | None => ret None
         | Some Pending => let! _ := set_rebless_context_addr (root_context t) in ret (Some Pending)
         | Some (Ready _) => ret (Some (Ready None))
         end) t0 Q P).
  { intros Ht. apply wpe_bind. eapply wp_top_live; [done..|]. intros r t1 Ha1 Hx1 Hl1%loud_from Hp1. destruct r as [[x|]|].
    - apply wpe_ret, HQ. by split_and!.
    - apply wpe_bind, wpe_bind, wpe_gets, wpe_bind, wpe_modify, wpe_ret, wpe_ret, HQ.
      split; [by apply alive_context|]. split; [exact Hx1|]. split; [by apply loud_context|]. intros _. by apply pends_context, Hp1.
    - apply wpe_ret, HQ. by split_and!. }
  pose proof Hr0 as [Hok _ _ _]. destruct (root_conf t0) as [q i fs|sc k i fs|y k i fs|y|] eqn:Hconf; try (by apply wpe_ret, Hrest).
  - apply wpe_bind, wpe_modify, wpe_ret, wpe_bind, wpe_bind, wpe_gets, wpe_bind, wpe_modify, wpe_ret, wpe_ret, HQ.
    split; [by apply alive_context, alive_conf|]. split; [exists []; by rewrite app_nil_r|]. split; [|done].
    split; [|by left|done]. unfold TreeSafe.work, root_work. cbn. by rewrite (Hconf : root_conf t = CDone y).
Qed.

(** ** Other operations *)
Lemma new_alive : alive Tree.new.
Proof.
  split; [|done]. exists ∅. split; [|by split; [|intros i ?%not_elem_of_nil]].
  split.
  - intros id rt. unfold view_tree. rewrite view_lookup. cbn. by rewrite lookup_empty.
  - intros q g. by rewrite lookup_empty.
  - intros q1 g1 q2 g2. by rewrite lookup_empty.
  - intros q1 g1 q2 g2 i. by rewrite lookup_empty.
  - by intros e i ?%not_elem_of_nil.
  - apply map_empty_subseteq.
Qed.

Lemma wp_enter_live p t (Q : unit -> tree V -> Prop) :
  alive t -> root_conf t = CEmpty -> (forall t', alive t' -> Q tt t') -> wpe (enter p) t Q P.
Proof. intros Ha He HQ. apply wpe_bind, wpe_gets. rewrite He. apply wpe_modify, HQ. by apply alive_conf. Qed.
End run.
