(* ===== verification/TreeLiveEvent.v ===== *)
(** * Events call the executor

    An event wakes the tasks that wait for it, and a tree that sleeps is woken by
    the event it waits for.  The operations keep trees alive. *)

From S2P Require Import Prelude Stack Schedular SchedularInv SchedularSafe SchedularPoll SchedularQuiet SchedularView SchedularLive.
From S2P Require Import Tree TreeInv TreePoll TreeSafe TreeLive TreeLivePoll TreeLiveScope TreeLiveRun.
Import Schedular Tree.
#[local] Existing Instance calm.

(** ** Wakers called one after the other *)
Section woke.
Context {V : Type}.
Implicit Types (v : view (fut V) (mem V)).

Record woke v v' : Prop := {
  wk_tasks j : is_Some (v_tasks v !! j) -> is_Some (v_tasks v' !! j);
  wk_queued j : is_queued v j -> is_queued v' j;
  wk_slot i j : v_wakers v !! i = Some (Some j) -> is_Some (v_tasks v !! j) ->
    v_wakers v' !! i = Some (Some j) \/ is_queued v' j;
  wk_old i j : v_wakers v' !! i = Some (Some j) -> v_wakers v !! i = Some (Some j);
}.

Lemma woke_refl v : woke v v.
Proof. split; auto. Qed.

Lemma woke_trans v1 v2 v3 : woke v1 v2 -> woke v2 v3 -> woke v1 v3.
Proof.
  intros [T1 Q1 S1 O1] [T2 Q2 S2 O2]. split; [auto..| |auto]. intros i j Hi Hj.
  destruct (S1 i j Hi Hj) as [H|H]; [|right; auto]. apply S2; auto.
Qed.

Lemma woke_slot i v : woke v (wake_slot i v) /\ forall j, v_wakers (wake_slot i v) !! i <> Some (Some j).
Proof.
  unfold wake_slot. destruct (v_wakers v !! i) as [[p|]|] eqn:Hi; [|by split; [apply woke_refl|congruence]..].
  split; [split|].
  - intros j Hj. by apply wake_some.
  - intros j (rt & Hrt & Hq). by apply wake_queued_still; exists rt.
  - intros k j Hk Hj. destruct (decide (k = i)) as [->|Hne].
    + right. assert (p = j) as -> by congruence. by apply wake_is_queued.
    + left. cbn. by rewrite list_lookup_insert_ne.
  - intros k j. cbn. intros [(_ & ? & _)|[_ ?]]%list_lookup_insert_Some; done.
  - intros j. cbn. by rewrite list_lookup_insert_eq by by eapply lookup_lt_Some.
Qed.

Lemma wake_slot_user i u v : wake_slot i (on_user u v) = on_user u (wake_slot i v).
Proof. unfold wake_slot. cbn. by destruct (v_wakers v !! i) as [[p|]|]. Qed.
End woke.

(** ** The executor waits for the queue *)
Section waits.
Context {F U : Type}.
Implicit Types (s : sched F U).

(** The executor was called, or will be when a task is pushed. *)
Definition hears (w : nat) (o : list nat) s : Prop :=
  called w o s \/ ((exists l, outer_woken s = o ++ l) /\ registered s = Some w /\ should_poll s = []).

Lemma ho_decr id s :
  ho (decr_task id) s (fun _ s' => registered s' = registered s /\ should_poll s' = should_poll s /\ outer_woken s' = outer_woken s).
Proof. apply ho_bind, ho_get_task. intros t _. by destruct (strong t =? 1)%Z; apply ho_modify. Qed.

Lemma hears_same w o s s' :
  registered s' = registered s /\ should_poll s' = should_poll s /\ outer_woken s' = outer_woken s ->
  hears w o s -> hears w o s'.
Proof. unfold hears, called. by intros (-> & -> & ->). Qed.

Lemma called_more w o x s s' : called w o s -> outer_woken s' = outer_woken s ++ x -> called w o s'.
Proof. intros (l & Hl & Hw) Hx. exists (l ++ x). split; [by rewrite Hx, Hl, app_assoc|]. apply elem_of_app. by left. Qed.

Lemma ho_hears w o id s : hears w o s -> ho (schedular_wake id) s (fun _ s' => hears w o s').
Proof.
  intros Hh. apply ho_bind, ho_bind, ho_get_task. intros t Ht.
  assert (Hdrop : forall s1, registered s1 = registered s -> should_poll s1 = should_poll s -> outer_woken s1 = outer_woken s ->
    ho (schedular_drop id) s1 (fun _ s' => hears w o s')).
  { intros s1 H1 H2 H3 a s' Hrun. destruct (ho_decr id s1 a s' Hrun) as (H4 & H5 & H6).
    eapply hears_same; [|exact Hh]. by rewrite H4, H5, H6. }
  destruct (queued t); [by apply ho_ret, Hdrop|]. apply ho_bind, ho_modify, ho_ret, ho_bind, ho_gets.
  destruct (queue_alive _); [|by apply Hdrop]. apply ho_bind, ho_modify, ho_bind, ho_gets. cbn [negb registered set_should_poll set_tasks].
  destruct (registered s) as [w'|] eqn:Hr; [apply ho_bind, ho_modify, ho_modify|apply ho_ret]; left.
  - destruct Hh as [Hc|[[l Hl] [Hw _]]]; [by eapply called_more|]. rewrite Hr in Hw. injection Hw as ->.
    exists (l ++ [w]). cbn. rewrite Hl, app_assoc. split; [done|]. apply elem_of_app. right. by left.
  - destruct Hh as [Hc|[_ [Hw _]]]; [exact Hc|congruence].
Qed.

Lemma ho_hears_slot w o i s : hears w o s -> ho (use_waker i true schedular_wake) s (fun _ s' => hears w o s').
Proof.
  intros Hh. apply ho_bind, ho_gets. destruct (wakers s !! i) as [[id|]|]; [|by apply ho_ret..].
  by apply ho_bind, ho_modify, ho_hears.
Qed.
End waits.

Section run.
Context {V : Type} (E : gmap nat V) (b : nat) (task_addr : Z).
Context (Haddr : Ptr.dangling 1 <> task_addr).

#[local] Instance fut_event : Future (fut V) (mem V) := fu b task_addr.
#[local] Instance spec_event : FutureSpec (fut V) (mem V) := fs E b.
#[local] Instance ok_event : FutureOk (fut V) (mem V) := tree_future_ok E b task_addr.

Abbreviation tree_core := (tree_core E b).
Abbreviation alive := (alive E).
Abbreviation asleep := (asleep E).
Context (P : string -> Prop).

(** ** An event *)

(** The wakers are called while the memory is [u]. *)
Definition seen (u : mem V) (t : tree V) : view (fut V) (mem V) := on_user (fun _ => u) (view_tree t).

(** What has changed when those of [l] were called. *)
Record called_all (u : mem V) (l : list (nat * source)) (t t' : tree V) : Prop := {
  ca_core : tree_core false false t';
  ca_conf : root_conf t' = root_conf t;
  ca_mem : mem_of t' = mem_of t;
  ca_lv : lv E (root_conf t') (seen u t');
  ca_gap : gapless (outer_woken (sch t)) (sch t');
  ca_woke : woke (seen u t) (seen u t');
  ca_slots e i j : (e, STask i) ∈ l -> v_wakers (seen u t') !! i <> Some (Some j);
  ca_hears w o : hears w o (sch t) -> hears w o (sch t');
  ca_roots e w : (e, SRoot w) ∈ l -> called w (outer_woken (sch t)) (sch t');
}.

Lemma lv_wake_slot c v i e : lv E c v -> (e, STask i) ∈ waiting (v_user v) -> lv E c (wake_slot i v).
Proof.
  intros (G & Hl & Hc) Hi. exists G. pose proof (lv_waiting _ _ _ _ Hl e i Hi) as Hf.
  split; [by apply live_wake_slot|]. by eapply conf_keeps; [apply keeps_wake_slot|..].
Qed.

Lemma wp_call_slot u i e t (Q : unit -> tree V -> Prop) :
  tree_core false false t -> lv E (root_conf t) (seen u t) -> gap (sch t) = None -> (e, STask i) ∈ waiting u ->
  (forall t', called_all u [(e, STask i)] t t' -> Q tt t') ->
  wpe (on_sched (use_waker i true schedular_wake)) t Q P.
Proof.
  intros Hc Hlv Hg Hi HQ. pose proof Hc as [(L & held & Hinv) Hal Hsp Htp Hst]. apply wp_on_sched. eapply wpe_run.
  { eapply (wp_wake_slot_v P None i (sch t) L at_rest held (fun _ s' => sinv s' L at_rest held /\
      SchedularInv.frame (sch t) s' /\ view_of None s' = wake_slot i (view_tree t))); [exact Hinv|]. by intros s' ? ? _ ?. }
  intros [] sc Hrun (Hinv' & Hfr & Hv). apply HQ.
  assert (Hu : user sc = mem_of t) by apply (lt_user _ _ Hfr).
  assert (Hseen : seen u (set_sch sc t) = wake_slot i (seen u t)).
  { unfold seen, view_tree. cbn [sch set_sch]. rewrite Hv. by rewrite wake_slot_user. }
  destruct (woke_slot i (seen u t)) as [Hwk Hnone]. split; try done.
  - split; [by exists L, held|etrans; [exact (lt_alive _ _ Hfr)|exact Hal]|..]; unfold mem_of in *; cbn; by rewrite Hu.
  - rewrite Hseen. cbn [root_conf set_sch]. by eapply lv_wake_slot.
  - eapply (quiet_use_waker (outer_woken (sch t)) i true schedular_wake); [|split; [exact Hg|exists []; by rewrite app_nil_r]|exact Hrun].
    intros id. apply quiet_schedular_wake.
  - by rewrite Hseen.
  - intros e' i' j [= -> ->]%list_elem_of_singleton. rewrite Hseen. apply Hnone.
  - intros w o Hh. by eapply ho_hears_slot.
  - by intros e' w ?%list_elem_of_singleton.
Qed.

Lemma called_all_cons u x l t t1 t2 : called_all u [x] t t1 -> called_all u l t1 t2 -> called_all u (x :: l) t t2.
Proof.
  intros [C1 F1 M1 V1 G1 W1 S1 H1 R1] [C2 F2 M2 V2 G2 W2 S2 H2 R2].
  destruct G1 as [_ [l1 Hl1]], G2 as [Hg [l2 Hl2]]. split; [done|congruence|congruence|done| | | |auto|].
  - split; [done|]. exists (l1 ++ l2). by rewrite Hl2, Hl1, app_assoc.
  - by eapply woke_trans.
  - intros e i j [<-|Hin]%elem_of_cons Hj; [|by apply (S2 e i j)]. eapply (S1 e i j); [left|]. by apply (wk_old _ _ W2).
  - intros e w [<-|Hin]%elem_of_cons.
    + eapply called_more; [eapply R1; left|exact Hl2].
    + destruct (R2 e w Hin) as (l' & Hl' & Hw). exists (l1 ++ l'). split; [by rewrite Hl', Hl1, app_assoc|].
      apply elem_of_app. by right.
Qed.

Lemma wp_call_all u l t (Q : unit -> tree V -> Prop) :
  tree_core false false t -> lv E (root_conf t) (seen u t) -> gap (sch t) = None -> (forall x, x ∈ l -> x ∈ waiting u) ->
  (forall t', called_all u l t t' -> Q tt t') -> wpe (wake_all l) t Q P.
Proof.
  revert t Q. induction l as [|[e [i|w]] l IH]; intros t Q Hc Hlv Hg Hl HQ; cbn [wake_all].
  - apply wpe_ret, HQ. split; try done; [split; [done|exists []; by rewrite app_nil_r]|apply woke_refl|..].
    + by intros e i j ?%not_elem_of_nil.
    + by intros e w ?%not_elem_of_nil.
  - apply wpe_bind. eapply (wp_call_slot u i e); [done..|apply Hl; left|]. intros t1 H1.
    apply IH; [apply H1|apply H1|apply (ca_gap _ _ _ _ H1)|intros x Hx; apply Hl; by right|].
    intros t2 H2. apply HQ. by eapply called_all_cons.
  - apply wpe_bind, wp_on_sched, wpe_modify. set (t1 := set_sch _ t).
    assert (H1 : called_all u [(e, SRoot w)] t t1).
    { split; try done.
      - destruct Hc as [(L & held & Hinv) ? ? ? ?]. split; [|done..]. exists L, held.
        eapply (sinv_same (sch t)); [by split|done..].
      - split; [exact Hg|]. by exists [w].
      - apply woke_refl.
      - intros e' i j [=]%list_elem_of_singleton.
      - intros w' o [Hcal|(Hx & Hr & Hq)]; [left; by eapply called_more|right]. split; [|done].
        destruct Hx as [l0 Hl0]. exists (l0 ++ [w]). cbn. by rewrite Hl0, app_assoc.
      - intros e' w' [= -> ->]%list_elem_of_singleton. exists [w]. split; [done|by left]. }
    apply IH; [apply H1|apply H1|exact Hg|intros x Hx; apply Hl; by right|].
    intros t2 H2. apply HQ. by eapply called_all_cons.
Qed.

(** The memory after the event [e]. *)
Definition event_at (e : nat) (y : V) (u : mem V) : mem V :=
  set_waiting (filter (fun x => x.1 <> e) (waiting u)) (set_events (<[e := y]> (events u)) u).

(** When the wakers for [e] were called, no task waits for it. *)
Lemma lv_event c v e y :
  lv E c v -> E !! e = Some y -> events (v_user v) !! e = None ->
  (forall i j, (e, STask i) ∈ waiting (v_user v) -> v_wakers v !! i <> Some (Some j)) ->
  lv E c (on_user (event_at e y) v).
Proof.
  intros (G & [Ht Hi H1 H2 Hw He] & Hc) Hy Hn Hs. exists G. split; [|exact Hc]. split; try done.
  - intros id rt Hrt. specialize (Ht id rt Hrt). unfold task_live in *. destruct (rt_future rt) as [q cs w|]; [|done].
    destruct Ht as [Hown Hr]. split; [exact Hown|]. intros Hcur. destruct (Hr Hcur) as (Hch & Hnd & Ho & Hor).
    split; [exact Hch|]. split; [exact Hnd|]. split; [exact Ho|]. destruct Hor as [Hq|Hb]; [by left|right].
    eapply Exists_impl; [exact Hb|]. intros ch (s & -> & Hbl). exists s. split; [done|].
    destruct (st_conf s) as [[| | | |e' k| |] n fs|[|q2 t|] k n fs| | |]; try done. cbn [blocked] in *.
    destruct Hbl as (Hne & i & Hi' & Hsl). assert (e' <> e) by (intros ->; by apply (Hs i id)).
    split; [cbn; by rewrite lookup_insert_ne|]. exists i. split; [|done]. cbn. by apply list_elem_of_filter.
  - intros q g Hq. destruct (Hi q g Hq). by split.
  - intros e' i [_ Hin]%list_elem_of_filter. by apply (Hw e' i).
  - by apply insert_subseteq_l.
Qed.

Lemma queued_not_empty t L held id :
  sinv (sch t) L at_rest held -> is_queued (view_tree t) id -> should_poll (sch t) <> [].
Proof.
  intros Hinv (rt & Hrt & Hq) Hn. unfold view_tree in Hrt. rewrite view_lookup in Hrt.
  destruct (tasks (sch t) !! id) as [u|] eqn:Hu; [|done]. cbn in Hrt. unfold as_running in Hrt.
  destruct (c_status _ _ _ _ (s_core _ _ _ _ Hinv) id u Hu) as (_ & _ & _ & H). destruct (done u); [|done..].
  cbn in Hrt. destruct (future u); [|done]. injection Hrt as <-. cbn in Hq. destruct H as (_ & _ & H).
  destruct (H Hq) as [Hin|?]; [|done]. rewrite Hn in Hin. by apply not_elem_of_nil in Hin.
Qed.

(** What an event does to a tree that sleeps. *)
Record happened (e : nat) (t t' : tree V) : Prop := {
  ha_alive : alive t';
  ha_extends : extends t t';
  ha_event : is_Some (events (mem_of t') !! e);
  ha_events : events (mem_of t) ⊆ events (mem_of t');
  ha_woken w : asleep w t e -> called w (outer_woken (sch t)) (sch t');
  ha_other w e' : asleep w t e' -> e' <> e -> called w (outer_woken (sch t)) (sch t') \/ asleep w t' e';
}.

Lemma asleep_hears w t e : asleep w t e -> (e, SRoot w) ∈ waiting (mem_of t) \/
  (exists id, waits_for E (view_tree t) e id) /\ hears w (outer_woken (sch t)) (sch t).
Proof.
  intros (_ & _ & [Hr|(Hw & Hr & Hq)]); [by left|right]. split; [done|]. right. split; [|done].
  exists []. by rewrite app_nil_r.
Qed.

Lemma called_all_happened e y u t t1 :
  let f := event_at e y in
  tree_core false false t -> alive t -> u = mem_of t -> E !! e = Some y -> events u !! e = None ->
  called_all u (filter (fun x => x.1 = e) (waiting u)) (on_mem f t) t1 -> happened e t t1.
Proof.
  intros f Hc [Hlv Hg] Hu Hy Hn [Hc1 Hconf Hm Hlv1 [Hg1 Hx] Hwk Hsl Hh Hro].
  pose proof Hc1 as [(L & held & Hinv) _ _ _ _].
  assert (Hview : view_tree t1 = on_user f (seen u t1)).
  { unfold seen, view_tree, view_of, on_user. cbn. f_equal. change (user (sch t1)) with (mem_of t1). by rewrite Hm, Hu. }
  change (seen u (on_mem f t)) with (seen u t) in Hwk.
  assert (Hseen : seen u t = view_tree t) by (rewrite Hu; done). rewrite Hseen in Hwk.
  assert (Hfil : forall x, x ∈ waiting u -> x.1 = e -> x ∈ filter (fun x => x.1 = e) (waiting u)).
  { intros x Hin Hx1. by apply list_elem_of_filter. }
  (* a task that waited for [e'] still does, or is in the queue *)
  assert (Hwait : forall w e', hears w (outer_woken (sch t)) (sch t) -> forall id, waits_for E (view_tree t) e' id ->
    called w (outer_woken (sch t)) (sch t1) \/
    registered (sch t1) = Some w /\ should_poll (sch t1) = [] /\ exists i, (e', STask i) ∈ waiting u /\
      v_wakers (seen u t1) !! i = Some (Some id) /\ is_Some (v_tasks (seen u t1) !! id)).
  { intros w e' Hhe id (_ & _ & Hrun & i & Hi & Hs). destruct (Hh w (outer_woken (sch t)) Hhe) as [?|(_ & Hr & Hq)]; [by left|].
    destruct (wk_slot _ _ Hwk i id Hs Hrun) as [Hs1|Hq1].
    - right. split_and!; [done..|]. exists i. split; [by rewrite Hu|]. split; [done|by apply (wk_tasks _ _ Hwk)].
    - exfalso. eapply (queued_not_empty t1); [exact Hinv|exact Hq1|done]. }
  split.
  - split; [|done]. rewrite Hconf in *. change (root_conf (on_mem f t)) with (root_conf t) in *.
    rewrite Hview. apply lv_event; [done..|]. intros i j Hi. eapply (Hsl e). by apply Hfil.
  - exact Hx.
  - rewrite Hm. change (mem_of (on_mem f t)) with (f (mem_of t)). cbn. rewrite lookup_insert_eq. by eexists.
  - rewrite Hm. change (mem_of (on_mem f t)) with (f (mem_of t)). apply insert_subseteq. by rewrite <- Hu.
  - intros w Ha. destruct (asleep_hears _ _ _ Ha) as [Hr|[[id Hw] Hhe]].
    + eapply Hro. apply Hfil; [by rewrite Hu|done].
    + destruct (Hwait w e Hhe id Hw) as [?|(_ & _ & i & Hi & Hs & _)]; [done|]. exfalso. eapply (Hsl e); [|exact Hs]. by apply Hfil.
  - intros w e' Ha Hne. pose proof Ha as (He' & Hn' & _).
    assert (Hn1 : events (mem_of t1) !! e' = None).
    { rewrite Hm. change (mem_of (on_mem f t)) with (f (mem_of t)). cbn. by rewrite lookup_insert_ne. }
    assert (Hstill : forall x, (e', x) ∈ waiting u -> (e', x) ∈ waiting (mem_of t1)).
    { intros x Hx'. rewrite Hm. change (mem_of (on_mem f t)) with (f (mem_of t)). rewrite <- Hu. cbn. by apply list_elem_of_filter. }
    destruct (asleep_hears _ _ _ Ha) as [Hr|[[id Hw] Hhe]].
    + right. split; [done|]. split; [done|]. left. apply Hstill. by rewrite Hu.
    + destruct (Hwait w e' Hhe id Hw) as [?|(Hr & Hq & i & Hi & Hs & Hrun)]; [by left|right].
      split; [done|]. split; [done|]. right. split; [|done]. exists id. split; [done|].
      change (v_user (view_tree t1)) with (mem_of t1). split; [done|]. split; [exact Hrun|]. exists i. split; [by apply Hstill|exact Hs].
Qed.

Lemma wp_happen_live e y t (Q : unit -> tree V -> Prop) :
  tree_core false false t -> alive t -> E !! e = Some y -> (forall t', happened e t t' -> Q tt t') ->
  wpe (happen e y) t Q P.
Proof.
  intros Hc Ha Hy HQ. pose proof (mem_ok_core E b _ _ _ Hc) as [Hev Hpl]. destruct Ha as [Hlv Hg].
  apply wpe_bind, wpe_gets. change (user (sch t)) with (mem_of t). destruct (events (mem_of t) !! e) as [y'|] eqn:Hn.
  { apply wpe_ret, HQ. split; [done|apply extends_refl|by eexists|done| |by right]. intros w (_ & Hn' & _). congruence. }
  apply wpe_bind, wpe_gets. change (user (sch t)) with (mem_of t). apply wpe_bind, wp_upd_mem.
  change (on_mem _ t) with (on_mem (event_at e y) t). destruct (core_mem E b task_addr (event_at e y) false false false false t) as [Hc1 _];
    [done| | |apply Hc..|].
  { split; [by apply insert_subseteq|]. intros q sc Hq. by exists sc. }
  { split; [by apply insert_subseteq_l|exact Hpl]. }
  eapply (wp_call_all (mem_of t)); [exact Hc1|exact Hlv|exact Hg|by intros x [_ ?]%list_elem_of_filter|].
  intros t' Hca. apply HQ. by eapply (called_all_happened e y (mem_of t)).
Qed.

(** A waker that exists is called. *)
Lemma wp_wake_live i t (Q : unit -> tree V -> Prop) :
  tree_core false false t -> alive t -> (forall t', alive t' -> Q tt t') ->
  wpe (on_sched (use_waker i false schedular_wake_ref)) t Q P.
Proof.
  intros Hc [(G & Hl & Hcf) Hg] HQ. pose proof Hc as [(L & held & Hinv) Hal Hsp Htp Hst]. apply wp_on_sched.
  assert (Hq : quiet (gapless (outer_woken (sch t))) (use_waker (F := fut V) (U := mem V) i false schedular_wake_ref)).
  { apply quiet_use_waker. intros id. apply quiet_schedular_wake_ref. }
  eapply wpe_run.
  { apply wpe_bind, wpe_gets. instantiate (1 := fun _ sc => view_of None sc = view_tree t \/ exists id, view_of None sc = wake_v id (view_tree t)).
    destruct (wakers (sch t) !! i) as [[id|]|] eqn:Hi; [|by apply wpe_ret; left..]. apply wpe_bind, wpe_ret.
    eapply (wp_wake_ref_v P None (sch t) L at_rest held id); [exact Hinv|by eapply live_waker|].
    intros s' _ _ _ Hv. right. by exists id. }
  intros [] sc Hrun Hv. apply HQ. split.
  - exists G. unfold view_tree. cbn [sch set_sch root_conf]. destruct Hv as [->|[id ->]]; [done|].
    split; [by apply live_wake|]. by eapply conf_keeps; [apply keeps_wake|..].
  - eapply (Hq (sch t)); [|exact Hrun]. split; [exact Hg|]. exists []. by rewrite app_nil_r.
Qed.
End run.

Section ops.
Context {V : Type} (E : gmap nat V) (b : nat) (task_addr : Z).
Context (Haddr : Ptr.dangling 1 <> task_addr).

#[local] Instance fut_ops : Future (fut V) (mem V) := fu b task_addr.
#[local] Instance spec_ops : FutureSpec (fut V) (mem V) := fs E b.
#[local] Instance ok_ops : FutureOk (fut V) (mem V) := tree_future_ok E b task_addr.

(** ** Everything that can happen while the runner is kept

    Programs are entered that have a value when the events happen. *)
Definition live_op (o : tree_op V) : Prop :=
  match o with
  | TEnter p => (TreeInv.cost E p <= b)%nat /\ is_Some (TreeInv.eval E p)
  | TEvent e v => E !! e = Some v
  | TDropRunner _ => False
  | TFinish _ _ _ | TStep _ _ _ | TWake _ => True
  end.

(** A tree nobody polls. *)
Definition live_rest (t : tree V) : Prop :=
  alive E t /\ (idle E b t \/ exists o, is_Some o /\ busy E b o t).

Lemma live_rest_core t : live_rest t -> tree_core E b false false t.
Proof. by intros [_ [[? _]|(o & _ & ? & _)]]. Qed.

Lemma live_rest_mem t t' :
  live_rest t -> alive E t' -> tree_core E b false false t' -> root_conf t' = root_conf t -> mem_le (mem_of t) (mem_of t') ->
  live_rest t'.
Proof.
  intros [_ Hr] Ha Hc Heq Hle. split; [done|]. destruct Hr as [[_ Hi]|(o & Ho & _ & Hr)]; [left; split; [done|congruence]|].
  right. exists o. split; [done|]. split; [done|]. by apply (root_le E b o t t').
Qed.

(** A poll by the runner. *)
Lemma live_busy {A} (c : M (tree V) A) t :
  live_rest t -> (forall o, is_Some o -> busy E b o t -> wpe c t (fun _ => live_rest) (fun m => m = leak)) ->
  wpe (if_busy (let! _ := c in ret tt)) t (fun _ => live_rest) (fun m => m = leak).
Proof.
  intros [Ha Hr] Hb. apply wpe_bind, wpe_gets. destruct Hr as [[Hc Hi]|(o & Ho & Hbo)].
  - rewrite Hi. apply wpe_ret. split; [done|]. by left.
  - assert (H : wpe (let! _ := c in ret tt) t (fun _ => live_rest) (fun m => m = leak)).
    { apply wpe_bind. eapply wpe_post; [by apply (Hb o)|]. intros r t' Hr. by apply wpe_ret. }
    destruct Hbo as [_ [Hk _ _ _]]. by destruct (root_conf t).
Qed.

Lemma wp_live_op o t : live_rest t -> live_op o -> wpe (run_tree_op o) t (fun _ => live_rest) (fun m => m = leak).
Proof.
  intros Hr Hok. pose proof (live_rest_core t Hr) as Hc. pose proof Hr as [Ha _].
  destruct o as [p|fuel addr w|fuel addr w|fuel|e v|i]; cbn [run_tree_op]; try done.
  - destruct Hok as [Hcost Hev]. destruct Hr as [_ [Hi|(o & _ & _ & [Hk _ _ _])]].
    + eapply wpe_post; [apply wpe_both|].
      * apply (wp_tree_enter E b _ p t (fun _ => busy E b (TreeInv.eval E p))); [done..|by apply eval_covered|]. by intros t' ? _ _ _.
      * by apply (wp_enter_live E _ p t (fun _ => alive E)); [|apply Hi|intros].
      * intros [] t' [Hb Ha']. split; [done|]. right. by exists (TreeInv.eval E p).
    + apply wpe_bind, wpe_gets. destruct (root_conf t); try (by apply wpe_panic). done.
  - apply live_busy; [done|]. intros o Ho Hb. eapply wpe_post; [apply wpe_both|].
    + apply (wp_tree_poll_finish E b task_addr _ fuel addr w o t (fun r t' =>
        (forall p, r = Some p -> finish_post E b o t p t') /\ (r = None -> busy E b o t'))); [done|].
      intros r t' _ H1 H2. split; [intros p Hp; by apply H1|done].
    + apply (wp_poll_finish_live E b task_addr Haddr _ fuel addr w o t (fun _ => alive E)); [done..|]. by intros r t' [? _].
    + intros r t' [[H1 H2] Ha']. split; [done|]. destruct r as [[x|]|].
      * left. by destruct (H1 _ eq_refl) as (_ & ? & _).
      * right. exists o. split; [done|]. by destruct (H1 _ eq_refl).
      * right. exists o. split; [done|]. by apply H2.
  - apply live_busy; [done|]. intros o Ho Hb. eapply wpe_post; [apply wpe_both|].
    + apply (wp_tree_poll_step E b task_addr _ fuel addr w o t (fun r t' =>
        (forall p, r = Some p -> step_post E b addr o t p t') /\ (r = None -> busy E b o t'))); [done|].
      intros r t' _ H1 H2. by split.
    + apply (wp_poll_step_live E b task_addr Haddr _ fuel addr w o t (fun _ => alive E)); [done..|]. by intros r t' [? _].
    + intros r t' [[H1 H2] Ha']. split; [done|]. destruct r as [[[x|]|]|].
      * left. by destruct (H1 _ eq_refl) as (_ & ? & _).
      * right. exists o. split; [done|]. by destruct (H1 _ eq_refl).
      * right. exists o. split; [done|]. by destruct (H1 _ eq_refl).
      * right. exists o. split; [done|]. by apply H2.
  - eapply wpe_post; [apply wpe_both|].
    + apply (wp_happen E b task_addr _ e v t (fun _ t' => tree_core E b false false t' /\ root_conf t' = root_conf t /\
        mem_le (mem_of t) (mem_of t'))); [done..|]. by intros t' ? ? _ ? _.
    + apply (wp_happen_live E b task_addr _ e v t (fun _ => alive E)); [done..|]. intros t' H. apply H.
    + intros [] t' [(H1 & H2 & H3) Ha']. by eapply live_rest_mem.
  - eapply wpe_post; [apply wpe_both|].
    + apply (wp_waker E b _ i false schedular_wake_ref t (fun _ t' => tree_core E b false false t' /\
        root_conf t' = root_conf t /\ mem_of t' = mem_of t)); [done| |by intros t' ? ? _ ? _].
      intros id sc L held Q' Hsc Hid HQ'. by eapply wp_schedular_wake_ref.
    + apply (wp_wake_live E b _ i t (fun _ => alive E)); [done..|]. by intros t' ?.
    + intros [] t' [(H1 & H2 & H3) Ha']. eapply live_rest_mem; [done..|]. rewrite H3. apply mem_le_refl.
Qed.

Lemma wp_live_ops l t : live_rest t -> Forall live_op l -> wpe (run_tree_ops l) t (fun _ => live_rest) (fun m => m = leak).
Proof.
  revert t. induction l as [|o l IH]; intros t Hr Hl; cbn [run_tree_ops]; [by apply wpe_ret|].
  apply Forall_cons in Hl as [Ho Hl]. apply wpe_bind. eapply wpe_post; [by apply wp_live_op|]. intros [] t' Ht'. by apply IH.
Qed.

Lemma new_live : live_rest Tree.new.
Proof. split; [apply new_alive|left; apply new_idle]. Qed.
End ops.
