(* ===== verification/TreeThms.v ===== *)
(** * What the tree runtime guarantees

    For any programs with nested scopes that do not panic ([TreeUnwindThms] has those
    that do), any events of an outside runtime and any spurious wake-ups.  [E] holds the events that happen sooner or later, and [b]
    bounds the rounds of the loops inside one poll. *)

From S2P Require Import Prelude Stack Schedular SchedularInv SchedularSafe Tree TreeInv TreePoll TreeSafe.
Import Schedular Tree.
#[local] Existing Instance calm.

(** ** A program for the examples *)

(** Two scopes deep, with calls, an outside event and a yield. *)
Definition leaf (n : nat) : prog nat := TRun (TYield (TRet n)) (fun x => TRet (S x)).
Definition inner : prog nat := TScope [leaf 1; TAwait 3 TRet] (fun l => TRet (list_sum l)).
Definition nested : prog nat :=
  TRun (enter_scope [inner; leaf 5; inner] (fun l => TRet (list_sum l))) (fun x => TRet (2 * x)%nat).

Definition events3 : gmap nat nat := {[3%nat := 4%nat]}.

#[local] Instance fut_nat : Future (fut nat) (mem nat) := tree_future 100 64.

Definition tree_state {A} (r : outcome (A * tree nat)) : tree nat :=
  match r with Ok (_, t) => t | _ => Tree.new end.

(** The program entered, polled once, and polled again after the event. *)
Definition entered : tree nat := tree_state (enter nested Tree.new).
Definition before_event : tree nat := tree_state (poll_finish 200 80 7 entered).
Definition after_event : tree nat := tree_state (happen 3 4%nat before_event).

Definition result {A B} (r : outcome (option A * B)) : option A := match r with Ok (x, _) => x | _ => None end.

(** The facts on runs are lemmas of their own, the kernel checks them faster so. *)
Lemma run_busy {A} (c : M (tree nat) A) t o : wp c t (fun _ => busy events3 100 o) -> busy events3 100 o (tree_state (c t)).
Proof. unfold wpe. destruct (c t) as [[a t']| |]; [exact (fun H => H)|done..]. Qed.

Lemma wp_run {A} (c : M (tree nat) A) t (Q : A -> tree nat -> Prop) a t' : wp c t Q -> c t = Ok (a, t') -> Q a t'.
Proof. unfold wpe. intros H Hr. by rewrite Hr in H. Qed.

Lemma nested_cost : (TreeInv.cost events3 nested <= 100)%nat.
Proof. apply Nat.leb_le. vm_compute. reflexivity. Qed.

Lemma nested_covered : covered events3 nested.
Proof. apply eval_covered. exists 36%nat. vm_compute. reflexivity. Qed.

Lemma entered_ok : wp (enter nested) Tree.new (fun _ => busy events3 100 (TreeInv.eval events3 nested)).
Proof. eapply (wp_tree_enter events3 100); [apply new_idle|apply nested_cost|apply nested_covered|by intros]. Qed.

Lemma entered_busy : busy events3 100 (TreeInv.eval events3 nested) entered.
Proof. exact (run_busy _ _ _ entered_ok). Qed.

Lemma before_ok : wp (poll_finish 200 80 7) entered
  (fun r t => r = Some Pending -> busy events3 100 (TreeInv.eval events3 nested) t).
Proof.
  eapply (wp_tree_poll_finish events3 100 64); [exact entered_busy|]. intros r t _ Hp _ Hr. by apply (Hp _ Hr).
Qed.

Lemma before_pending : result (poll_finish 200 80 7 entered) = Some Pending.
Proof. vm_compute. reflexivity. Qed.

Lemma before_run : poll_finish 200 80 7 entered = Ok (Some Pending, before_event).
Proof.
  pose proof before_pending as H. unfold before_event.
  destruct (poll_finish 200 80 7 entered) as [[r t]| |]; [|discriminate..]. cbn in H. by subst r.
Qed.

Lemma before_busy : busy events3 100 (TreeInv.eval events3 nested) before_event.
Proof. exact (wp_run _ _ _ _ _ before_ok before_run eq_refl). Qed.

Lemma after_ok :
  wp (happen 3 4%nat) before_event (fun _ => busy events3 100 (TreeInv.eval events3 nested)).
Proof.
  pose proof before_busy as [Hc Hr]. eapply (wp_happen events3 100 64); [exact Hc|reflexivity|].
  intros t Hc' Heq _ Hle _. split; [done|]. by apply (root_le events3 100 _ before_event t).
Qed.

Lemma after_busy : busy events3 100 (TreeInv.eval events3 nested) after_event.
Proof. exact (run_busy _ _ _ after_ok). Qed.

Section thms.
Context {V : Type} (E : gmap nat V) (b : nat) (addr : Z).
#[local] Instance fut_V : Future (fut V) (mem V) := tree_future b addr.

(** [C7] Entering programs with scopes on a [TreeStack], polling, stepping,
    dropping the runner, events and spurious wake-ups, in any order, are never
    undefined, and the only panic is that of entering while a runner that was
    leaked has left its tasks: no task is used after it was freed, every future of
    a scope is polled with a stack and a scheduler in its thread local pointers,
    and no assertion on the state of a stack fails. *)
Theorem tree_ops_defined (l : list (tree_op V)) :
  Forall (tree_op_ok E b) l ->
  wpe (run_tree_ops l) Tree.new (fun _ t => tree_rest E b t) (fun m => m = leak).
Proof. intros Hl. apply (wp_tree_ops E b addr); [done| |done]. left. apply new_idle. Qed.

(** [C5] A poll of [FinishFuture] returns, if it has fuel for the work left; it
    does not panic; when it is ready the result is the value of the program by
    plain recursion, scopes evaluated one future after the other, however the
    scheduler interleaved them, and the tree is idle; otherwise the tree still
    denotes that value, with no more left to do.  The rebless context is what it
    was before. *)
Theorem tree_finish_value fuel ctx w p (t : tree V) :
  busy E b (TreeInv.eval E p) t -> (work E b t < fuel)%nat ->
  exists r t', poll_finish fuel ctx w t = Ok (Some r, t') /\ root_context t' = root_context t /\
    match r with
    | Ready v => TreeInv.eval E p = Some v /\ idle E b t'
    | Pending => busy E b (TreeInv.eval E p) t' /\ (work E b t' <= work E b t)%nat
    end.
Proof.
  intros Hb Hf.
  destruct (wp_ok (poll_finish fuel ctx w) t
    (fun r t' => ((work E b t < fuel)%nat -> is_Some r) /\ forall q, r = Some q -> finish_post E b (TreeInv.eval E p) t q t' /\ root_context t' = root_context t)) as (r & t' & Hrun & Hs & Hp).
  { eapply (wp_tree_poll_finish E b addr); [exact Hb|]. intros r t' Hs Hp _. exact (conj Hs Hp). }
  destruct (Hs Hf) as [p' ->]. destruct (Hp p' eq_refl) as [Hpost Hctx]. exists p', t'. split; [done|]. split; [done|].
  destruct p' as [v|]; [destruct Hpost as (? & ? & _)|]; done.
Qed.

(** Entering a program on an idle tree gives one that denotes its value, and
    what is left to do is what was left and twice the cost of the program. *)
Theorem tree_enter_denotes p (t : tree V) :
  idle E b t -> (TreeInv.cost E p <= b)%nat -> covered E p ->
  exists t', enter p t = Ok (tt, t') /\ busy E b (TreeInv.eval E p) t' /\
    work E b t' = (pot (FS := tree_spec E b) (sch t) + 2 * TreeInv.cost E p)%nat.
Proof.
  intros Hi Hc Hcov. destruct (wp_ok (enter p) t
    (fun _ t' => busy E b (TreeInv.eval E p) t' /\ sch t' = sch t /\ root_work E t' = TreeInv.cost E p)) as ([] & t' & Hrun & H).
  { eapply (wp_tree_enter E b); [exact Hi|exact Hc|exact Hcov|]. intros t' H1 _ H2 H3. exact (conj H1 (conj H2 H3)). }
  destruct H as (Hb & Hs & Hw). exists t'. split; [done|]. split; [done|]. unfold work. by rewrite Hs, Hw.
Qed.

(** [C32] A poll of [StepFuture] returns too.  After a step that was made the
    rebless context of the root stack is left at the address the future was
    polled with, on every other return it is restored. *)
Theorem tree_step_context fuel ctx w p (t : tree V) :
  busy E b (TreeInv.eval E p) t -> (work E b t < fuel)%nat ->
  exists r t', poll_step fuel ctx w t = Ok (Some r, t') /\
    match r with
    | Ready (Some v) => TreeInv.eval E p = Some v /\ idle E b t' /\ root_context t' = root_context t
    | Ready None => busy E b (TreeInv.eval E p) t' /\ (root_work E t' < root_work E t)%nat /\ root_context t' = ctx
    | Pending => busy E b (TreeInv.eval E p) t' /\ root_context t' = root_context t
    end.
Proof.
  intros Hb Hf.
  destruct (wp_ok (poll_step fuel ctx w) t
    (fun r t' => ((work E b t < fuel)%nat -> is_Some r) /\ forall q, r = Some q -> step_post E b ctx (TreeInv.eval E p) t q t')) as (r & t' & Hrun & Hs & Hp).
  { eapply (wp_tree_poll_step E b addr); [exact Hb|]. intros r t' Hs Hp _. exact (conj Hs Hp). }
  destruct (Hs Hf) as [p' ->]. specialize (Hp p' eq_refl). exists p', t'. split; [done|].
  destruct p' as [[v|]|]; cbn [step_post] in Hp; tauto.
Qed.

(** [C33] Dropping the runner at any moment, in the middle of scopes or not, leaves
    an idle tree with no task. *)
Theorem tree_drop_clears fuel (t : tree V) :
  tree_rest E b t -> (Z.to_nat (len (sch t)) < fuel)%nat ->
  (pot (FS := tree_spec E b) (sch t) + gaps (sch t) < fuel)%nat ->
  exists t', drop_runner fuel t = Ok (Some tt, t') /\ idle E b t' /\ all_next (sch t') = None.
Proof.
  intros Hr H1 H2. pose proof (rest_core _ _ _ Hr) as Hc.
  destruct (wp_ok (drop_runner fuel) t
    (fun r t' => r = Some tt /\ idle E b t' /\ all_next (sch t') = None)) as (r & t' & Hrun & -> & Hi).
  { eapply (wp_tree_drop_runner E b addr); [exact Hc|]. intros r t' _ Hs _ Hf. specialize (Hf H1 H2). split; [done|]. by apply Hs. }
  by exists t'.
Qed.

(** [finish] forgets the runner: when its future is dropped while it waits
    the tasks stay, and the tree panics when it is entered again. *)
Theorem tree_finish_leaks fuel ctx w p q (t t' : tree V) :
  busy E b (TreeInv.eval E p) t -> poll_finish fuel ctx w t = Ok (Some Pending, t') ->
  enter q t' = Panic leak.
Proof.
  intros Hb Hrun.
  assert (H : wp (poll_finish fuel ctx w) t
    (fun r t1 => forall q, r = Some q -> finish_post E b (TreeInv.eval E p) t q t1)).
  { eapply (wp_tree_poll_finish E b addr); [exact Hb|]. intros r t1 _ Hp _ q' Hr. by apply Hp. }
  unfold wpe in H. rewrite Hrun in H. destruct (H Pending eq_refl) as [[_ [Hk _ _ _]] _].
  unfold enter, bind, gets. by destruct (root_conf t').
Qed.
End thms.

(** ** The theorems at the example *)

Example tree_ops_defined_witness :
  wpe (run_tree_ops [TEnter nested; TFinish 200 80 7; TWake 0; TEvent 3 4%nat; TStep 200 80 7; TDropRunner 200;
    TEnter (leaf 2); TFinish 200 96 7]) Tree.new (fun _ t => tree_rest events3 100 t) (fun m => m = leak).
Proof.
  apply (tree_ops_defined events3 100 64).
  repeat constructor; try (apply Nat.leb_le; vm_compute; reflexivity); vm_compute; reflexivity.
Defined.

Example tree_finish_value_witness :
  exists t', poll_finish 200 80 7 after_event = Ok (Some (Ready 36%nat), t') /\
    TreeInv.eval events3 nested = Some 36%nat /\ idle events3 100 t'.
Proof.
  destruct (tree_finish_value events3 100 64 200 80 7 nested after_event after_busy) as (r & t' & Hrun & _ & H).
  { apply Nat.ltb_lt. vm_compute. reflexivity. }
  assert (Hr : result (poll_finish 200 80 7 after_event) = Some (Ready 36%nat)) by (vm_compute; reflexivity).
  change (fut_V 100 64) with fut_nat in Hrun. rewrite Hrun in Hr. injection Hr as ->. exists t'. exact (conj Hrun H).
Defined.

Example tree_enter_denotes_witness :
  exists t', enter nested Tree.new = Ok (tt, t') /\ busy events3 100 (Some 36%nat) t' /\ work events3 100 t' = 64%nat.
Proof.
  destruct (tree_enter_denotes events3 100 nested Tree.new (new_idle events3 100)) as (t' & Hrun & H).
  { apply nested_cost. }
  { apply nested_covered. }
  exists t'. exact (conj Hrun H).
Defined.

Example tree_step_context_witness :
  exists t', poll_step 200 80 7 entered = Ok (Some (Ready None), t') /\
    busy events3 100 (TreeInv.eval events3 nested) t' /\ root_context t' = 80.
Proof.
  destruct (tree_step_context events3 100 64 200 80 7 nested entered entered_busy) as (r & t' & Hrun & H).
  { apply Nat.ltb_lt. vm_compute. reflexivity. }
  assert (Hr : result (poll_step 200 80 7 entered) = Some (Ready None)) by (vm_compute; reflexivity).
  change (fut_V 100 64) with fut_nat in Hrun. rewrite Hrun in Hr. injection Hr as ->. exists t'. tauto.
Defined.

Example tree_drop_clears_witness :
  all_next (sch before_event) = Some 2%nat /\
  exists t', drop_runner 200 before_event = Ok (Some tt, t') /\ idle events3 100 t' /\ all_next (sch t') = None.
Proof.
  split; [vm_compute; reflexivity|]. apply (tree_drop_clears events3 100 64).
  - right. eexists. exact before_busy.
  - apply Nat.ltb_lt. vm_compute. reflexivity.
  - apply Nat.ltb_lt. vm_compute. reflexivity.
Defined.

Example tree_finish_leaks_witness :
  poll_finish 200 80 7 entered = Ok (Some Pending, before_event) /\ enter (leaf 1) before_event = Panic leak.
Proof.
  split; [exact before_run|].
  exact (tree_finish_leaks events3 100 64 200 80 7 nested (leaf 1) entered before_event entered_busy before_run).
Defined.
