(* ===== verification/TreeUnwindThms.v ===== *)
(** * What the tree runtime guarantees when its futures panic

    For programs whose panics are among those of [Panics], and an owner who catches
    the panics that leave a poll and goes on with the tree. *)

From S2P Require Import Prelude Exc Stack Schedular SchedularInv SchedularUnwind.
From S2P Require Import Tree TreeUnwind TreeInv TreePoll TreeSafe.
Import Schedular Tree.

Section thms.
Context {V : Type} {PN : Panics} (E : gmap nat V) (b : nat) (addr : Z).
#[local] Instance fut_unwind : Future (fut V) (mem V) := tree_future b addr.

(** A runner that unwinds does what the one of [Tree] does: the same results and
    states, and where that one ends with a panic, it is left by that panic. *)
Theorem tree_unwind_agrees fuel ctx w :
  follows (S := tree V) (poll_finish fuel ctx w) (poll_finish_u fuel ctx w) /\
  follows (S := tree V) (poll_step fuel ctx w) (poll_step_u fuel ctx w).
Proof. split; [apply tree_poll_finish_follows|apply tree_poll_step_follows]. Qed.

(** [C15] With futures that panic, on the root or in scopes, and panics that are
    caught, no sequence of operations on a tree is undefined; it panics only when it
    is entered while tasks are left.  After each operation, and each panic, the
    thread local pointers are what they were, the scheduler keeps its invariant,
    and the root stack has no task or one that denotes a value as before. *)
Theorem tree_panics_defined (l : list (tree_op V)) :
  Forall (tree_op_ok E b) l ->
  wpe (run_tree_ops_u l) Tree.new (fun _ t => tree_rest E b t) (fun m => m = leak).
Proof. intros Hl. apply (wp_tree_ops_u E b addr); [done| |done]. left. apply new_idle. Qed.

(** [C16] A poll of [FinishFuture] returns or is left by a panic of the program's
    futures, or of one that is polled again after its panic.  When it is ready, the
    value is the one of the program, although panics were caught before.  A panic
    leaves the tree with what the program denotes and no more to do, but does not
    put back the rebless context of the root. *)
Theorem tree_poll_unwinds fuel ctx w p (t : tree V) :
  busy E b (TreeInv.eval E p) t -> (work E b t < fuel)%nat ->
  exists r t', poll_finish_u fuel ctx w t = Ok (r, t') /\
    match r with
    | Returns (Some (Ready v)) => TreeInv.eval E p = Some v /\ idle E b t' /\ root_context t' = root_context t
    | Returns (Some Pending) =>
        busy E b (TreeInv.eval E p) t' /\ (work E b t' <= work E b t)%nat /\ root_context t' = root_context t
    | Returns None => False
    | Unwinds _ m =>
        may_panic m /\ busy E b (TreeInv.eval E p) t' /\ (work E b t' <= work E b t)%nat /\ root_context t' = ctx
    end.
Proof.
  intros Hb Hf.
  destruct (wp_ok (poll_finish_u fuel ctx w) t (fun r t' => ((work E b t < fuel)%nat -> r <> Returns None) /\
    finish_end E b (TreeInv.eval E p) (set_root_context ctx t) (root_context t) r t')) as (r & t' & Hrun & Hs & Hp).
  { eapply (wp_tree_poll_finish_u E b addr); [exact Hb|]. intros r t' H1 H2. exact (conj H1 H2). }
  exists r, t'. split; [done|]. destruct r as [[[v|]|]|bb m]; cbn in Hp.
  - by destruct Hp as [(? & ? & _) ?].
  - by destruct Hp as [[? ?] ?].
  - by destruct (Hs Hf).
  - exact Hp.
Qed.

(** [C34] [finish] forgets the runner: when its poll is left by a panic, as when its
    future is dropped while it waits, the tasks stay, and the tree panics when it is
    entered again. *)
Theorem tree_unfinished_leaks fuel ctx w p q r (t t' : tree V) :
  busy E b (TreeInv.eval E p) t -> poll_finish_u fuel ctx w t = Ok (r, t') ->
  (forall v, r <> Returns (Some (Ready v))) -> enter q t' = Panic leak.
Proof.
  intros Hb Hrun Hr.
  assert (H : wp (poll_finish_u fuel ctx w) t (fun r t1 =>
    finish_end E b (TreeInv.eval E p) (set_root_context ctx t) (root_context t) r t1)).
  { by eapply (wp_tree_poll_finish_u E b addr); [exact Hb|]. }
  unfold wpe in H. rewrite Hrun in H.
  assert (Hk : conf_ok (mem_of t') (root_conf t')).
  { destruct r as [[[v|]|]|bb m]; cbn in H; [by destruct (Hr v)|..].
    - by destruct H as [[[_ [Hk _ _ _]] _] _].
    - by destruct H as [_ [Hk _ _ _]].
    - by destruct H as (_ & [_ [Hk _ _ _]] & _). }
  unfold enter, bind, gets. by destruct (root_conf t').
Qed.
End thms.

(** ** Examples *)

(** A scope one of whose futures panics in a call; a scope inside a scope whose
    continuation panics; and a root that does after a scope. *)
Definition double (n : nat) : prog nat := TRun (TRet n) (fun x => TRet (2 * x)%nat).
Definition boom : prog nat :=
  TScope [double 1; TRun (TThrow "boom") TRet; TAwait 3 TRet] (fun l => TRet (list_sum l)).
Definition inside : prog nat :=
  enter_scope [TScope [double 2] (fun _ => TThrow "inside"); double 3] (fun l => TRet (list_sum l)).
Definition late : prog nat := TRun (enter_scope [double 1; double 2] (fun l => TRet (list_sum l))) (fun _ => TThrow "late").

Definition event3 : gmap nat nat := {[3%nat := 4%nat]}.

Section examples.
Instance bangs : Panics.
Proof.
  refine {| may_panic m := m = resumed \/ m = "boom" \/ m = "inside" \/ m = "late" |}. by left.
Defined.
#[local] Instance fut_bangs : Future (fut nat) (mem nat) := tree_future 100 64.

Lemma covered_all : covered event3 boom /\ covered event3 inside /\ covered event3 late.
Proof. vm_compute. tauto. Qed.

(** Each program is polled until it panics, and once more. *)
Definition reckless : list (tree_op nat) :=
  [TEnter boom; TFinish 200 80 7; TEvent 3 4%nat; TFinish 200 96 7; TDropRunner 200;
   TEnter inside; TStep 200 80 7; TFinish 200 80 7; TDropRunner 200;
   TEnter late; TFinish 200 80 7; TFinish 200 80 7].

Lemma reckless_ok : Forall (tree_op_ok event3 100) reckless.
Proof.
  destruct covered_all as (H1 & H2 & H3).
  assert (Hc : forall q, covered event3 q -> (TreeInv.cost event3 q <=? 100)%nat = true -> tree_op_ok event3 100 (TEnter q)).
  { intros q Hq Hn. split; [by apply Nat.leb_le|done]. }
  repeat (apply Forall_cons_2; [try done; try (apply Hc; [done|by vm_compute])|]). constructor.
Qed.

Lemma tree_panics_defined_witness :
  wpe (run_tree_ops_u reckless) Tree.new (fun _ t => tree_rest event3 100 t) (fun m => m = leak).
Proof. exact (tree_panics_defined event3 100 64 reckless reckless_ok). Defined.

(** The state after operations. *)
Definition after_ops (l : list (tree_op nat)) : tree nat :=
  match run_tree_ops_u l Tree.new with Ok (_, t) => t | _ => Tree.new end.

Definition how {A B} (r : outcome (exc (option A) * B)) : option (exc (option A)) :=
  match r with Ok (x, _) => Some x | _ => None end.

(** The panics that leave the polls. *)
Example polls_of_reckless :
  how (poll_finish_u 200 80 7 (after_ops [TEnter boom])) = Some (Unwinds false "boom") /\
  how (poll_finish_u 200 80 7 (after_ops [TEnter inside])) = Some (Unwinds false "inside") /\
  how (poll_finish_u 200 80 7 (after_ops [TEnter late])) = Some (Unwinds false "late") /\
  how (poll_finish_u 200 80 7 (after_ops [TEnter late; TFinish 200 80 7])) = Some (Unwinds false resumed).
Proof. vm_compute. done. Qed.

(** The task of a scope that panicked is gone and nobody tells the task that awaits
    the scope: polled again, the runner waits, with no task and no event that could
    wake it, for good. *)
Example scope_panic_hangs n ctx w :
  let t := after_ops [TEnter boom; TFinish 200 80 7; TEvent 3 4%nat] in
  all_next (sch t) = None /\ waiting (mem_of t) = [] /\
  poll_finish_u (S n) ctx w t = Ok (Returns (Some Pending), t).
Proof. vm_compute. done. Qed.

Lemma boom_busy : busy event3 100 (TreeInv.eval event3 boom) (after_ops [TEnter boom]).
Proof.
  assert (H : wp (enter boom) Tree.new (fun _ => busy event3 100 (TreeInv.eval event3 boom))).
  { eapply (wp_tree_enter event3 100); [apply new_idle| |apply covered_all|by intros].
    apply Nat.leb_le. vm_compute. reflexivity. }
  exact H.
Qed.

Lemma tree_poll_unwinds_witness :
  exists t', poll_finish_u 200 80 7 (after_ops [TEnter boom]) = Ok (Unwinds false "boom", t') /\
    busy event3 100 (TreeInv.eval event3 boom) t' /\ root_context t' = 80.
Proof.
  destruct (tree_poll_unwinds event3 100 64 200 80 7 boom _ boom_busy) as (r & t' & Hrun & H).
  { apply Nat.ltb_lt. vm_compute. reflexivity. }
  assert (Hr : how (poll_finish_u 200 80 7 (after_ops [TEnter boom])) = Some (Unwinds false "boom")) by apply polls_of_reckless.
  change (fut_unwind 100 64) with fut_bangs in Hrun. rewrite Hrun in Hr. injection Hr as ->. exists t'. tauto.
Defined.

Lemma tree_unfinished_leaks_witness :
  exists t', poll_finish_u 200 80 7 (after_ops [TEnter boom]) = Ok (Unwinds false "boom", t') /\
    enter (double 1) t' = Panic leak.
Proof.
  assert (Hr : how (poll_finish_u 200 80 7 (after_ops [TEnter boom])) = Some (Unwinds false "boom")) by apply polls_of_reckless.
  destruct (poll_finish_u 200 80 7 (after_ops [TEnter boom])) as [[r t']| |] eqn:Hrun; [|done..].
  injection Hr as ->. exists t'. split; [done|].
  by apply (tree_unfinished_leaks event3 100 64 200 80 7 boom (double 1) (Unwinds false "boom") _ t' boom_busy Hrun).
Defined.
End examples.
