(* ===== verification/TreeLiveThms.v ===== *)
(** * A program in a tree comes to its end

    An executor that polls a [TreeStack] and sleeps in between is woken by the
    events the program waits for, whatever the order they happen in, and gets its
    value. *)

From S2P Require Import Prelude Defer Stack Schedular SchedularInv SchedularSafe SchedularPoll SchedularQuiet.
From S2P Require Import Tree TreeInv TreePoll TreeSafe TreeLiveScope TreeLiveRun TreeLiveEvent TreeThms.
Import Schedular Tree.
#[local] Existing Instance calm.

(** ** An executor *)
Section executor.
Context {V : Type} `{!Future (fut V) (mem V)}.
Implicit Types (arr : list (nat * V)) (t : tree V).

(** Whether the waker [w] was called after those of [o]. *)
Definition woken_since (w : nat) (o : list nat) t : bool := bool_decide (w ∈ drop (length o) (outer_woken (sch t))).

(** Events happen one after the other until the executor is woken. *)
Fixpoint sleep (w : nat) (o : list nat) arr : M (tree V) (option (list (nat * V))) :=
  match arr with
  | [] => ret None
  | (e, y) :: arr =>
      do! happen e y in
      let! c := gets (woken_since w o) in
      if (c : bool) then ret (Some arr) else sleep w o arr
  end.

(** Polls until the value is there; while the executor sleeps the events of [arr]
    happen.  At most [n] polls. *)
Fixpoint block_on (n fuel : nat) (addr : Z) (w : nat) arr : M (tree V) (option V) :=
  match n with
  | O => ret None
  | S n =>
      let! o := gets (fun t => outer_woken (sch t)) in
      let! r := poll_finish fuel addr w in
      match r with
      | None => ret None
      | Some (Ready x) => ret (Some x)
      | Some Pending =>
          let! c := gets (woken_since w o) in
          if (c : bool) then block_on n fuel addr w arr
          else
            let! r := sleep w o arr in
            match r with
            | Some arr => block_on n fuel addr w arr
            | None => ret None
            end
      end
  end.

(** ** More fuel changes nothing *)
Lemma more_on_sched {B} (c c' : M (sched (fut V) (mem V)) (option B)) : more c c' -> more (on_sched c) (on_sched c').
Proof.
  intros Hc t a t'. unfold on_sched. destruct (c (sch t)) as [[[x|] s]| |] eqn:Hr; [|done..].
  rewrite (Hc _ _ _ Hr). done.
Qed.

Lemma more_context {B} (c c' : M (tree V) (option B)) : more c c' -> more (tree_context c) (tree_context c').
Proof.
  intros Hc. apply more_bind. intros old. apply more_bind. intros _. apply more_first; [done|intros a; apply more_refl|].
  intros t x t'. unfold bind, Defer.drop. by destruct (upd_mem (set_tree_ptr old) t) as [[[] ?]| |].
Qed.

Lemma more_drive_top fuel fuel' addr w :
  (fuel <= fuel')%nat -> more (drive_top_task (V := V) fuel addr w) (drive_top_task fuel' addr w).
Proof.
  intros Hle. apply more_context, more_bind. intros empty. apply more_first.
  - destruct empty; [apply more_refl|]. apply more_bind. intros old. apply more_bind. intros _. apply more_first.
    + apply more_first; [by apply more_on_sched, more_poll_sched|intros a; apply more_refl|]. by intros t x t'.
    + intros a. apply more_refl.
    + intros t x t'. unfold bind, Defer.drop. by destruct (upd_mem (set_stack_ptr old) t) as [[[] ?]| |].
  - intros a. apply more_refl.
  - by intros t x t'.
Qed.

Lemma more_finish_loop n n' fuel fuel' addr w old :
  (n <= n')%nat -> (fuel <= fuel')%nat -> more (finish_loop (V := V) n fuel addr w old) (finish_loop n' fuel' addr w old).
Proof.
  intros Hn Hle. revert n' Hn. induction n as [|n IH]; intros n' Hn; [apply more_none|].
  destruct n' as [|n']; [lia|]. cbn [finish_loop]. apply more_bind. intros [x|]; [apply more_refl|].
  apply more_first; [by apply more_drive_top| |by intros t x t'].
  intros [x|]; [apply IH; lia|apply more_refl].
Qed.

Lemma more_poll_finish fuel fuel' addr w :
  (fuel <= fuel')%nat -> more (poll_finish (V := V) fuel addr w) (poll_finish fuel' addr w).
Proof. intros Hle. apply more_bind. intros old. by apply more_finish_loop. Qed.
End executor.

Section thms.
Context {V : Type} (E : gmap nat V) (b : nat) (addr : Z).
Context (Haddr : Ptr.dangling 1 <> addr).
#[local] Instance fut_live : Future (fut V) (mem V) := tree_future b addr.

(** ** Runs of the executor *)

(** The events that have not happened yet are among those to come. *)
Definition covers (arr : list (nat * V)) (t : tree V) : Prop :=
  (forall e y, (e, y) ∈ arr -> E !! e = Some y) /\
  (forall e y, E !! e = Some y -> events (mem_of t) !! e = None -> (e, y) ∈ arr).

(** A root with value [v], in a tree in which nothing is forgotten. *)
Definition runs (v : V) (t : tree V) : Prop := busy E b (Some v) t /\ alive E t.

Lemma happen_runs v e y t :
  runs v t -> E !! e = Some y -> exists t', happen e y t = Ok (tt, t') /\ runs v t' /\ happened E e t t'.
Proof.
  intros [[Hc Hr] Ha] Hy. destruct (wp_ok (happen e y) t (fun _ t' => (tree_core E b false false t' /\
    root_conf t' = root_conf t /\ mem_le (mem_of t) (mem_of t')) /\ happened E e t t')) as ([] & t' & Hrun & (H1 & H2 & H3) & H4).
  { apply wpe_both.
    - eapply (wp_happen E b addr); [done..|]. by intros t' ? ? _ ? _.
    - by eapply (wp_happen_live E b addr). }
  exists t'. split; [done|]. split; [|done]. split; [|apply H4]. split; [done|]. by apply (root_le E b (Some v) t t').
Qed.

Lemma covers_next e y arr t t' : covers ((e, y) :: arr) t -> happened E e t t' -> covers arr t'.
Proof.
  intros [H1 H2] Hh. split; [intros e' y' Hin; apply H1; by right|]. intros e' y' He Hn.
  assert (Hn' : events (mem_of t) !! e' = None).
  { destruct (events (mem_of t) !! e') as [z|] eqn:Hz; [|done].
    pose proof (lookup_weaken _ _ _ _ Hz (ha_events _ _ _ _ Hh)). congruence. }
  destruct (ha_event _ _ _ _ Hh) as [z Hz].
  destruct (elem_of_cons arr (e', y') (e, y)) as [Hi _]. destruct (Hi (H2 _ _ He Hn')) as [[= -> ->]|?]; [congruence|done].
Qed.

Lemma woken_called w o (t : tree V) : (exists l, outer_woken (sch t) = o ++ l) -> woken_since w o t = true <-> called w o (sch t).
Proof.
  intros [l Hl]. unfold woken_since, called. rewrite bool_decide_eq_true, Hl, drop_app_length. split; [intros Hw; by exists l|].
  intros (l' & Hl' & Hw). by apply app_inv_head in Hl' as ->.
Qed.

(** The executor that sleeps is woken. *)
Lemma sleep_ends v w o arr : forall t e,
  runs v t -> asleep E w t e -> (exists l, outer_woken (sch t) = o ++ l) -> covers arr t ->
  exists arr' t', sleep w o arr t = Ok (Some arr', t') /\ (length arr' < length arr)%nat /\ runs v t' /\ covers arr' t'.
Proof.
  induction arr as [|[e1 y1] arr IH]; intros t e Hr Ha [l Hl] Hcov.
  { destruct Ha as ([y Hy] & Hn & _). destruct Hcov as [_ Hcov]. by destruct (not_elem_of_nil (e, y)); apply Hcov. }
  destruct (happen_runs v e1 y1 t Hr (proj1 Hcov e1 y1 ltac:(left))) as (t1 & Hrun & Hr1 & Hh).
  pose proof (covers_next _ _ _ _ _ Hcov Hh) as Hcov1. destruct (ha_extends _ _ _ _ Hh) as [l1 Hl1].
  assert (Hx1 : exists l, outer_woken (sch t1) = o ++ l) by (exists (l ++ l1); by rewrite Hl1, Hl, app_assoc).
  cbn [sleep]. unfold bind at 1. rewrite Hrun. unfold bind, gets.
  destruct (woken_since w o t1) eqn:Hw.
  { exists arr, t1. split; [done|]. split; [cbn; lia|done]. }
  assert (Hnc : ~ called w (outer_woken (sch t)) (sch t1)).
  { intros (l2 & Hl2 & Hin). assert (woken_since w o t1 = true); [|congruence]. apply woken_called; [done|].
    exists (l ++ l2). rewrite Hl2, Hl, app_assoc. split; [done|]. apply elem_of_app. by right. }
  destruct (decide (e1 = e)) as [->|Hne]; [by destruct Hnc; apply (ha_woken _ _ _ _ Hh)|].
  destruct (ha_other _ _ _ _ Hh w e Ha ltac:(done)) as [?|Ha1]; [done|].
  destruct (IH t1 e Hr1 Ha1 Hx1 Hcov1) as (arr' & t' & Hs & Hlt & Hr' & Hc'). exists arr', t'. split; [exact Hs|].
  split; [cbn; lia|done].
Qed.

(** One poll, with enough fuel. *)
Lemma poll_runs v ctx w t fuel :
  runs v t -> (work E b t < fuel)%nat ->
  exists r t', poll_finish fuel ctx w t = Ok (Some r, t') /\
    match r with
    | Ready x => x = v /\ idle E b t'
    | Pending => runs v t' /\ extends t t' /\ loud E b t t' /\ pends E b w t t'
    end.
Proof.
  intros [Hb Ha] Hf. destruct (wp_ok (poll_finish fuel ctx w) t (fun r t' =>
    (is_Some r /\ forall p, r = Some p -> finish_post E b (Some v) t p t') /\ polled_live E b w t r t')) as (r & t' & Hrun & ([p ->] & Hp) & Hl).
  { apply wpe_both.
    - eapply (wp_tree_poll_finish E b addr); [exact Hb|]. intros r t' Hs Hp _. split; [by apply Hs|]. intros p Hr. by apply Hp.
    - by eapply (wp_poll_finish_live E b addr). }
  exists p, t'. split; [done|]. specialize (Hp p eq_refl). destruct Hl as (Ha' & Hx & Hlo & Hpe). destruct p as [x|].
  - destruct Hp as (Hv & Hi & _). split; [congruence|done].
  - destruct Hp as [Hb' _]. split_and!; [by split|done|done|by apply Hpe].
Qed.

Lemma block_on_more n n' fuel fuel' ctx w arr :
  (n <= n')%nat -> (fuel <= fuel')%nat -> more (block_on (V := V) n fuel ctx w arr) (block_on n' fuel' ctx w arr).
Proof.
  intros Hn Hf. revert n' arr Hn. induction n as [|n IH]; intros n' arr Hn; [apply more_none|].
  destruct n' as [|n']; [lia|]. cbn [block_on]. apply more_bind. intros o. apply more_first; [by apply more_poll_finish| |by intros t x t'].
  intros [x|]; [apply more_refl|]. apply more_bind. intros []; [apply IH; lia|]. apply more_bind. intros [arr'|]; [apply IH; lia|apply more_refl].
Qed.

(** The work left decreases from poll to poll, and what is to happen while the
    executor sleeps. *)
Lemma block_on_ends v ctx w : forall arr t, runs v t -> covers arr t ->
  exists N t', idle E b t' /\ block_on N N ctx w arr t = Ok (Some v, t').
Proof.
  intros arr. remember (length arr) as k eqn:Hk. revert arr Hk. induction k as [k IHk] using lt_wf_ind. intros arr -> t.
  remember (work E b t) as m eqn:Hm. revert t Hm. induction m as [m IHm] using lt_wf_ind. intros t -> Hr Hcov.
  destruct (poll_runs v ctx w t (S (work E b t)) Hr ltac:(lia)) as (r & t1 & Hrun & Hpost).
  set (fuel := S (work E b t)) in *.
  assert (Hpoll : forall fuel', (fuel <= fuel')%nat -> poll_finish fuel' ctx w t = Ok (Some r, t1)).
  { intros fuel' Hle. by apply (more_poll_finish fuel). }
  destruct r as [x|]; [destruct Hpost as [-> Hi]|destruct Hpost as (Hr1 & Hx & [Hle Hlog Hev] & Hpe)].
  { exists fuel, t1. split; [done|]. unfold fuel at 1. cbn [block_on]. unfold bind at 1, gets, bind at 1.
    by rewrite Hpoll. }
  assert (Hcov1 : covers arr t1).
  { destruct Hcov as [H1 H2]. split; [done|]. intros e y He Hn. apply H2; [done|]. by eapply lookup_weaken_None. }
  destruct (woken_since w (outer_woken (sch t)) t1) eqn:Hw.
  - assert (Hlt : (work E b t1 < work E b t)%nat).
    { destruct Hlog as [Heq|?]; [|done]. apply woken_called in Hw as (l & Hl & Hin); [|exact Hx].
      rewrite Heq in Hl. assert (l = []) as -> by (apply (app_inv_head (outer_woken (sch t))); by rewrite app_nil_r).
      by apply not_elem_of_nil in Hin. }
    destruct (IHm _ Hlt t1 eq_refl Hr1 Hcov1) as (N & t' & Hi & Hb).
    exists (S (Nat.max N fuel)), t'. split; [done|]. cbn [block_on]. unfold bind at 1, gets at 1, bind at 1.
    rewrite Hpoll by lia. unfold bind, gets. rewrite Hw. eapply (block_on_more N); [..|exact Hb]; lia.
  - assert (Has : exists e, asleep E w t1 e).
    { destruct Hpe as [[Hcal _]|?]; [|done]. apply (woken_called w _ _ Hx) in Hcal. congruence. }
    destruct Has as [e Has]. destruct (sleep_ends v w _ arr t1 e Hr1 Has Hx Hcov1) as (arr' & t2 & Hs & Hlt & Hr2 & Hcov2).
    destruct (IHk _ Hlt arr' eq_refl t2 Hr2 Hcov2) as (N & t' & Hi & Hb).
    exists (S (Nat.max N fuel)), t'. split; [done|]. cbn [block_on]. unfold bind at 1, gets at 1, bind at 1.
    rewrite Hpoll by lia. unfold bind at 1, gets at 1. rewrite Hw. unfold bind. rewrite Hs.
    eapply (block_on_more N); [..|exact Hb]; lia.
Qed.

(** [C6] No task of a tree is forgotten.  After programs were entered, polled,
    stepped and woken in any order, with nested scopes or without, a poll of
    [FinishFuture] that is pending has either called the waker of its context, and
    then less is left to do; or an event that the program waits for has not
    happened yet, and when it happens the waker is called.  So an executor that
    sleeps until its waker is called polls again. *)
Theorem tree_pending_waits l fuel ctx w (t t' : tree V) :
  Forall (live_op E b) l -> run_tree_ops l Tree.new = Ok (tt, t) -> root_conf t <> CEmpty ->
  poll_finish fuel ctx w t = Ok (Some Pending, t') ->
  called w (outer_woken (sch t)) (sch t') /\ (work E b t' < work E b t)%nat \/
  exists e v, E !! e = Some v /\ events (mem_of t') !! e = None /\
    exists t'', happen e v t' = Ok (tt, t'') /\ called w (outer_woken (sch t')) (sch t'').
Proof.
  intros Hl Hrun Hne Hpoll. assert (Hwp : wpe (run_tree_ops l) Tree.new (fun _ => live_rest E b) (fun m => m = leak)).
  { by apply (wp_live_ops E b addr Haddr); [apply new_live|]. }
  unfold wpe in Hwp. rewrite Hrun in Hwp. destruct Hwp as [Ha [[_ ?]|(o & [v ->] & Hb)]]; [done|].
  assert (H1 : wpe (poll_finish fuel ctx w) t (fun r t' => r = Some Pending -> busy E b (Some v) t') (fun _ => False)).
  { eapply (wp_tree_poll_finish E b addr); [exact Hb|]. intros r t2 _ Hp _ Hr. by apply (Hp _ Hr). }
  assert (H2 : wpe (poll_finish fuel ctx w) t (polled_live E b w t) (fun _ => False)).
  { by eapply (wp_poll_finish_live E b addr). }
  unfold wpe in H1, H2. rewrite Hpoll in H1, H2. destruct H2 as (Ha' & _ & _ & Hp).
  destruct (Hp eq_refl) as [?|[e He]]; [by left|right]. pose proof He as ([y Hy] & Hn & _).
  destruct (happen_runs v e y t' (conj (H1 eq_refl) Ha') Hy) as (t2 & Hrun2 & _ & Hh).
  exists e, y. split; [done|]. split; [done|]. exists t2. split; [done|]. by apply (ha_woken _ _ _ _ Hh).
Qed.

(** [C4] A program comes to its end.  When all the events a program may wait for
    happen, in whatever order, an executor that polls [FinishFuture], sleeps until
    its waker is called and polls again returns the value of the program, and the
    tree is idle; the number of polls and the fuel of each have a bound. *)
Theorem tree_completes l (t : tree V) ctx w p v arr :
  Forall (live_op E b) l -> run_tree_ops l Tree.new = Ok (tt, t) -> root_conf t = CEmpty ->
  TreeInv.eval E p = Some v -> (TreeInv.cost E p <= b)%nat -> covers arr t ->
  exists N t', idle E b t' /\ forall n, (N <= n)%nat ->
    (do! enter p in block_on n n ctx w arr) t = Ok (Some v, t').
Proof.
  intros Hl Hrun He Hv Hc Hcov. assert (Hwp : wpe (run_tree_ops l) Tree.new (fun _ => live_rest E b) (fun m => m = leak)).
  { by apply (wp_live_ops E b addr Haddr); [apply new_live|]. }
  unfold wpe in Hwp. rewrite Hrun in Hwp. destruct Hwp as [Ha Hr].
  assert (Hi : idle E b t).
  { destruct Hr as [?|(o & _ & _ & [Hk _ _ _])]; [done|]. by rewrite He in Hk. }
  destruct (wp_ok (enter p) t (fun _ t' => (busy E b (TreeInv.eval E p) t' /\ sch t' = sch t) /\ alive E t')) as ([] & t1 & Hent & [Hb Hs] & Ha1).
  { apply wpe_both.
    - apply (wp_tree_enter E b); [done|done|apply eval_covered; by eexists|]. by intros t' ? _ ? _.
    - by apply (wp_enter_live E). }
  rewrite Hv in Hb. destruct (block_on_ends v ctx w arr t1 (conj Hb Ha1)) as (N & t' & Hi' & Hbl).
  { unfold covers, mem_of in *. by rewrite Hs. }
  exists N, t'. split; [done|]. intros n Hn. unfold bind. rewrite Hent. eapply (block_on_more N); [..|exact Hbl]; lia.
Qed.
End thms.

(** ** The theorems at the example *)
#[local] Existing Instance fut_nat.

Lemma entered_run : run_tree_ops [TEnter nested] Tree.new = Ok (tt, entered).
Proof. reflexivity. Qed.

Lemma nested_live : Forall (live_op events3 100) [TEnter nested].
Proof. constructor; [|constructor]. split; [apply nested_cost|by eexists]. Qed.

Lemma to_come : covers events3 [(3%nat, 4%nat)] (Tree.new : tree nat).
Proof.
  split.
  - by intros e y [= -> ->]%list_elem_of_singleton.
  - intros e y. unfold events3. intros [<- <-]%lookup_singleton_Some _. left.
Qed.

Example tree_pending_waits_witness :
  poll_finish 200 80 7 entered = Ok (Some Pending, before_event) /\
  (called 7 (outer_woken (sch entered)) (sch before_event) /\ (work events3 100 before_event < work events3 100 entered)%nat \/
   exists e v, events3 !! e = Some v /\ events (mem_of before_event) !! e = None /\
     exists t'', happen e v before_event = Ok (tt, t'') /\ called 7 (outer_woken (sch before_event)) (sch t'')).
Proof.
  split; [exact before_run|].
  apply (tree_pending_waits events3 100 64 ltac:(done) [TEnter nested] 200 80 7 entered before_event nested_live entered_run).
  - discriminate.
  - exact before_run.
Defined.

Example tree_completes_witness :
  exists N t', idle events3 100 t' /\ forall n, (N <= n)%nat ->
    (do! enter nested in block_on n n 80 7 [(3%nat, 4%nat)]) (Tree.new : tree nat) = Ok (Some 36%nat, t').
Proof.
  apply (tree_completes events3 100 64 ltac:(done) [] Tree.new 80 7 nested 36%nat [(3%nat, 4%nat)]).
  - constructor.
  - reflexivity.
  - reflexivity.
  - vm_compute. reflexivity.
  - apply nested_cost.
  - apply to_come.
Defined.
