(* ===== verification/Calculator.v ===== *)
(** * The calculator (src/examples/calculator.rs)

    A parser of arithmetic expressions by binding powers and an evaluator, both
    recursive [async] functions run on a [Stack].  They are programs in the sense
    of [StackEval], so that they run on the runtime of [Stack] and [Runner].

    A [&mut Buffer] lent to a callee and given back with its result is a buffer
    passed and returned.  The loops of [parse] carry fuel. *)

From Stdlib Require Import Ascii SpecFloat.
From S2P Require Import Prelude Ptr StackAlloc Stack Runner StackEval.

(** ** Syntax trees *)
Definition f64 : Type := spec_float.

Inductive UnaryOperator := Neg | Pos.
Inductive BinaryOperator := Pow | Mul | Div | Add | Sub.

#[global] Instance UnaryOperator_eq_dec : EqDecision UnaryOperator.
Proof. solve_decision. Defined.
#[global] Instance BinaryOperator_eq_dec : EqDecision BinaryOperator.
Proof. solve_decision. Defined.

Inductive Expression :=
| Number (x : f64)
| Covered (e : Expression)
| Binary (left : Expression) (op : BinaryOperator) (right : Expression)
| Unary (op : UnaryOperator) (expr : Expression).

(** ** Characters *)
Definition bytes : Type := list ascii.

Definition is_ascii_digit (c : ascii) : bool :=
  (48 <=? nat_of_ascii c)%nat && (nat_of_ascii c <=? 57)%nat.
(** Tab, line feed, form feed, carriage return, space. *)
Definition is_ascii_whitespace (c : ascii) : bool :=
  bool_decide (nat_of_ascii c ∈ [9; 10; 12; 13; 32]%nat).
(** [c.eq_ignore_ascii_case(&b'e')] *)
Definition is_e (c : ascii) : bool := Ascii.eqb c "e" || Ascii.eqb c "E".
Definition is_sign (c : ascii) : bool := Ascii.eqb c "-" || Ascii.eqb c "+".
Definition is_number_char (c : ascii) : bool :=
  is_ascii_digit c || (Ascii.eqb c "." || Ascii.eqb c "e" || Ascii.eqb c "E").

(** [Iterator for Buffer]: the slice loses its first byte. *)
Definition next (b : bytes) : option ascii * bytes :=
  match b with
  | [] => (None, [])
  | head :: tail => (Some head, tail)
  end.
(** [Buffer::get]. *)
Definition get (b : bytes) (i : nat) : option ascii := b !! i.

(** ** Numbers: [str::parse::<f64>] of the standard library

    Digits with at most one point and at least one digit, then an optional
    exponent with at least one digit; nothing may follow.  (The strings [parse]
    collects do not start with a sign or the name of a special value.)  The
    result is the nearest [f64], ties to even. *)
Definition prec : Z := 53.
Definition emax : Z := 1024.

Definition digit (c : ascii) : Z := Z.of_nat (nat_of_ascii c) - 48.

(** The digits at the front: the number [acc] is continued with, how many there
    are, and what follows. *)
Fixpoint digits (acc : Z) (n : nat) (b : bytes) : Z * nat * bytes :=
  match b with
  | c :: b' => if is_ascii_digit c then digits (10 * acc + digit c) (S n) b' else (acc, n, b)
  | [] => (acc, n, [])
  end.

(** The optional exponent at the end of a literal. *)
Definition exponent (b : bytes) : option Z :=
  match b with
  | [] => Some 0
  | c :: b =>
      if is_e c then
        let '(neg, b) :=
          match b with
          | s :: b' => if is_sign s then (Ascii.eqb s "-", b') else (false, b)
          | [] => (false, [])
          end in
        match digits 0 0 b with
        | (_, O, _) => None
        | (x, S _, []) => Some (if (neg : bool) then - x else x)
        | (_, S _, _ :: _) => None
        end
      else None
  end.

(** [m * 10 ^ e], rounded once. *)
Definition f64_of_decimal (m e : Z) : f64 :=
  match m with
  | Zpos p =>
      if (0 <=? e)%Z then binary_normalize prec emax (m * 10 ^ e) 0 false
      else SFdiv prec emax (S754_finite false p 0) (S754_finite false (Z.to_pos (10 ^ (- e))) 0)
  | Z0 | Zneg _ => S754_zero false
  end.

Definition parse_f64 (b : bytes) : option f64 :=
  let '(m, n, b) := digits 0 0 b in
  let '(m, n', b) :=
    match b with
    | c :: b' => if Ascii.eqb c "." then digits m 0 b' else (m, O, b)
    | [] => (m, O, b)
    end in
  if bool_decide ((n + n')%nat = O) then None
  else e ← exponent b; Some (f64_of_decimal m (e - Z.of_nat n')).

(** The loop of [parse] that collects a number, after its first character: what
    it appends, and what it leaves. *)
Fixpoint number_rest (b : bytes) : bytes * bytes :=
  match b with
  | [] => ([], [])
  | c :: b' =>
      if is_number_char c then
        match b' with
        | s :: b'' =>
            if is_e c && is_sign s then let (n, r) := number_rest b'' in (c :: s :: n, r)
            else let (n, r) := number_rest b' in (c :: n, r)
        | [] => ([c], [])
        end
      else ([], b)
  end.

(** ** Parsing *)

(** What a call of [parse] returns, with the buffer it leaves, or that its loops
    ran out of fuel. *)
Inductive parsed :=
| POk (e : Expression) (b : bytes)
| PErr
| PFuel.

(** The results of the two kinds of tasks. *)
Inductive value :=
| VParsed (r : parsed)
| VNum (x : f64).

(** [ctx.run(p).await?] *)
Definition run_try (p : prog value) (k : Expression -> bytes -> prog value) : prog value :=
  PRun p (fun v => match v with VParsed (POk e b) => k e b | _ => PRet v end).

Section parse.
(** The recursive calls. *)
Context (parse : bytes -> Z -> prog value).

(** The first loop.  It looks at [peek], which no round changes. *)
Fixpoint parse_lhs (fuel : nat) (peek : option ascii) (b : bytes)
    (k : Expression -> bytes -> prog value) : prog value :=
  match fuel with
  | O => PRet (VParsed PFuel)
  | S fuel =>
      match peek with
      | None => PRet (VParsed PErr)
      | Some x =>
          if Ascii.eqb x "+" then run_try (parse (next b).2 7) (fun e b => k (Unary Pos e) b)
          else if Ascii.eqb x "-" then run_try (parse (next b).2 7) (fun e b => k (Unary Neg e) b)
          else if Ascii.eqb x "(" then
            run_try (parse (next b).2 0) (fun e b =>
              match next b with
              | (Some c, b) => if Ascii.eqb c ")" then k (Covered e) b else PRet (VParsed PErr)
              | (None, _) => PRet (VParsed PErr)
              end)
          else if is_ascii_whitespace x then parse_lhs fuel peek b k
          else if is_number_char x then
            let (number, b) := number_rest (next b).2 in
            match parse_f64 (x :: number) with
            | Some num => k (Number num) b
            | None => PRet (VParsed PErr)
            end
          else PRet (VParsed PErr)
      end
  end.

(** The operator at the front of the buffer, with its binding powers. *)
Inductive peeked :=
| IOp (op : BinaryOperator) (bp : Z * Z)
| IContinue
| IBreak.

Definition peek_op (b : bytes) : peeked :=
  match get b 0 with
  | None => IBreak
  | Some x =>
      if Ascii.eqb x "*" then
        match get b 1 with
        | Some y => if Ascii.eqb y "*" then IOp Pow (5, 6) else IOp Mul (3, 4)
        | None => IOp Mul (3, 4)
        end
      else if Ascii.eqb x "/" then IOp Div (3, 4)
      else if Ascii.eqb x "+" then IOp Add (1, 2)
      else if Ascii.eqb x "-" then IOp Sub (1, 2)
      else if is_ascii_whitespace x then IContinue
      else IBreak
  end.

(** The second loop. *)
Fixpoint parse_infix (fuel : nat) (binding_power : Z) (lhs : Expression) (b : bytes) : prog value :=
  match fuel with
  | O => PRet (VParsed PFuel)
  | S fuel =>
      match peek_op b with
      | IBreak => PRet (VParsed (POk lhs b))
      | IContinue => parse_infix fuel binding_power lhs b
      | IOp op bp =>
          if (bp.1 <? binding_power)%Z then PRet (VParsed (POk lhs b))
          else
            let b := (next b).2 in
            let b := if decide (op = Pow) then (next b).2 else b in
            run_try (parse b bp.2) (fun rhs b =>
              parse_infix fuel binding_power (Binary lhs op rhs) b)
      end
  end.
End parse.

(** [parse]; [fuel] bounds the depth of the recursion and each loop. *)
Fixpoint parse (fuel : nat) (b : bytes) (binding_power : Z) : prog value :=
  match fuel with
  | O => PRet (VParsed PFuel)
  | S depth =>
      parse_lhs (parse depth) fuel (get b 0) b (fun lhs b =>
        parse_infix (parse depth) fuel binding_power lhs b)
  end.

(** ** Evaluating *)
Section eval.
(** [f64::powf] is a function of the platform. *)
Context (powf : f64 -> f64 -> f64).

Definition binary (op : BinaryOperator) (left right : f64) : f64 :=
  match op with
  | Pow => powf left right
  | Mul => SFmul prec emax left right
  | Div => SFdiv prec emax left right
  | Add => SFadd prec emax left right
  | Sub => SFsub prec emax left right
  end.
Definition unary (op : UnaryOperator) (x : f64) : f64 :=
  match op with Neg => SFopp x | Pos => x end.

(** The number a call of [eval] returns. *)
Definition num (v : value) : f64 := match v with VNum x => x | VParsed _ => S754_nan end.

Fixpoint eval (e : Expression) : prog value :=
  match e with
  | Number x => PRet (VNum x)
  | Covered x => PRun (eval x) (fun v => PRet v)
  | Binary l op r =>
      PRun (eval l) (fun x => PRun (eval r) (fun y =>
        PRet (VNum (binary op (num x) (num y)))))
  | Unary op e => PRun (eval e) (fun v => PRet (VNum (unary op (num v))))
  end.

(** ** The program *)
Inductive printed :=
| PrintNothing
| PrintError
| PrintNumber (x : f64).

(** [args.join(" ")] *)
Fixpoint join (args : list bytes) : bytes :=
  match args with
  | [] => []
  | [a] => a
  | a :: args => a ++ " "%char :: join args
  end.

Section main.
Context {A : Type} `{!StackAlloc A}.
Context (place_layout : Layout) (task_layout : code value -> Layout).

Abbreviation run := (enter_finish (VParsed PErr) place_layout task_layout).

(** [main], on a stack of its own; [None] if the fuel is out. *)
Definition main (fuel : nat) (addr : Z) (args : list bytes)
  : M (world value A) (option printed) :=
  let expr := join args in
  match expr with
  | [] => ret (Some PrintNothing)
  | _ :: _ =>
      let! r := run (parse fuel expr 0) fuel addr true in
      match r with
      | Some (VParsed (POk e _)) =>
          let! x := run (eval e) fuel addr false in
          match x with
          | Some (VNum x) => ret (Some (PrintNumber x))
          | _ => ret None
          end
      | Some (VParsed PErr) => ret (Some PrintError)
      | _ => ret None
      end
  end.
End main.
End eval.
