(* ===== verification/CalculatorSpec.v ===== *)
(** * The grammar of the calculator

    [written] is the language of expressions, with the operators grouped by
    their binding powers, and [parse] is shown to decide it. *)

From Stdlib Require Import Ascii SpecFloat.
From S2P Require Import Prelude StackEval Calculator.

(** ** The grammar *)
Definition lbp (op : BinaryOperator) : Z :=
  match op with Pow => 5 | Mul | Div => 3 | Add | Sub => 1 end.
Definition rbp (op : BinaryOperator) : Z := lbp op + 1.
Definition op_chars (op : BinaryOperator) : bytes :=
  match op with
  | Pow => ["*"; "*"] | Mul => ["*"] | Div => ["/"] | Add => ["+"] | Sub => ["-"]
  end%char.
Definition unary_char (op : UnaryOperator) : ascii :=
  match op with Neg => "-" | Pos => "+" end%char.

(** A literal: a number character, then characters the loop would collect. *)
Definition literal (s : bytes) (x : f64) : Prop :=
  exists c t, s = c :: t /\ is_number_char c = true /\ number_rest t = (t, []) /\ parse_f64 s = Some x.

(** [written bp e s]: [s] is the expression [e], in a place where operators
    bind at least as tightly as [bp]. *)
Inductive written : Z -> Expression -> bytes -> Prop :=
| w_number bp x s : literal s x -> written bp (Number x) s
| w_covered bp e s : written 0 e s -> written bp (Covered e) ("("%char :: s ++ [")"%char])
| w_unary bp op e s : written 7 e s -> written bp (Unary op e) (unary_char op :: s)
| w_binary bp l op r s t :
    bp <= lbp op -> written (lbp op) l s -> written (rbp op) r t ->
    written bp (Binary l op r) (s ++ op_chars op ++ t).

(** An expression that ends in a literal. *)
Fixpoint ends_number (e : Expression) : bool :=
  match e with
  | Number _ => true
  | Covered _ => false
  | Binary _ _ r => ends_number r
  | Unary _ e => ends_number e
  end.

Definition starts (P : ascii -> bool) (b : bytes) : bool :=
  match b with c :: _ => P c | [] => false end.

(** What may follow an expression: nothing that would continue it, and no white
    space, which [parse] cannot skip. *)
Definition op_stops (bp : Z) (rest : bytes) : Prop :=
  match peek_op rest with
  | IOp _ p => p.1 < bp
  | IContinue => False
  | IBreak => True
  end.
Definition stops (bp : Z) (e : Expression) (rest : bytes) : Prop :=
  op_stops bp rest /\ (ends_number e = true -> starts is_number_char rest = false).

(** The number an expression denotes. *)
Fixpoint denote (powf : f64 -> f64 -> f64) (e : Expression) : f64 :=
  match e with
  | Number x => x
  | Covered e => denote powf e
  | Binary l op r => binary powf op (denote powf l) (denote powf r)
  | Unary op e => unary op (denote powf e)
  end.

Fixpoint size (e : Expression) : nat :=
  match e with
  | Number _ => 1
  | Covered e => S (size e)
  | Binary l _ r => S (size l + size r)
  | Unary _ e => S (size e)
  end.

(** ** Characters *)
Lemma ascii_eqb_eq c d : Ascii.eqb c d = true -> c = d.
Proof. apply Ascii.eqb_eq. Qed.

(** Classes of characters that do not overlap, by looking at every character. *)
Definition all_chars : list ascii := map ascii_of_nat (seq 0 256).

Lemma in_all_chars c : In c all_chars.
Proof.
  rewrite <- (ascii_nat_embedding c). apply in_map, in_seq.
  pose proof (nat_ascii_bounded c). lia.
Qed.

Lemma class_disjoint (P Q : ascii -> bool) :
  forallb (fun c => negb (P c && Q c)) all_chars = true -> forall c, P c = true -> Q c = false.
Proof.
  intros H c Hc. rewrite forallb_forall in H. specialize (H c (in_all_chars c)).
  rewrite Hc in H. by destruct (Q c).
Qed.

(** No character of a number is one that [parse_lhs] or [peek_op] tests before. *)
Definition special (c : ascii) : bool :=
  Ascii.eqb c "+" || Ascii.eqb c "-" || Ascii.eqb c "(" || Ascii.eqb c "*" || Ascii.eqb c "/" ||
  is_ascii_whitespace c || is_sign c.

Lemma number_char_special c : is_number_char c = true -> special c = false.
Proof. apply class_disjoint. vm_compute. reflexivity. Qed.

Lemma special_false c :
  special c = false ->
  Ascii.eqb c "+" = false /\ Ascii.eqb c "-" = false /\ Ascii.eqb c "(" = false /\
  Ascii.eqb c "*" = false /\ Ascii.eqb c "/" = false /\ is_ascii_whitespace c = false.
Proof. unfold special. rewrite !orb_false_iff. tauto. Qed.

Lemma e_number_char c : is_e c = true -> is_number_char c = true /\ is_ascii_digit c = false /\ Ascii.eqb c "." = false /\ is_sign c = false.
Proof. unfold is_e. by intros [->%ascii_eqb_eq| ->%ascii_eqb_eq]%orb_true_iff. Qed.

(** ** Literals *)
Section number_rest.
Lemma number_rest_split b : forall n r, number_rest b = (n, r) -> b = n ++ r.
Proof.
  induction b as [b IH] using (induction_ltof1 _ length).
  intros n r. destruct b as [|c b']; cbn [number_rest]; [by intros [= <- <-]|].
  destruct (is_number_char c); [|by intros [= <- <-]].
  destruct b' as [|s b'']; [by intros [= <- <-]|].
  destruct (is_e c && is_sign s).
  - destruct (number_rest b'') as [n' r'] eqn:Hn. intros [= <- <-]. cbn. do 2 f_equal.
    apply (IH b''); [|done]. unfold ltof. cbn. lia.
  - destruct (number_rest (s :: b'')) as [n' r'] eqn:Hn. intros [= <- <-]. cbn [app]. f_equal.
    apply (IH (s :: b'')); [|done]. unfold ltof. cbn. lia.
Qed.

(** What is collected would be collected again, and it ends where it has to. *)
Lemma number_rest_again b : forall n r,
  number_rest b = (n, r) -> number_rest n = (n, []) /\ starts is_number_char r = false.
Proof.
  induction b as [b IH] using (induction_ltof1 _ length).
  intros n r. destruct b as [|c b']; cbn [number_rest]; [by intros [= <- <-]|].
  destruct (is_number_char c) eqn:Hc; [|by intros [= <- <-]].
  destruct b' as [|s b'']; [by intros [= <- <-]; cbn; rewrite Hc|].
  destruct (is_e c && is_sign s) eqn:He.
  - destruct (number_rest b'') as [n' r'] eqn:Hn. intros [= <- <-].
    destruct (IH b'' ltac:(unfold ltof; cbn; lia) _ _ Hn) as [Hn' Hr].
    cbn [number_rest]. by rewrite Hc, He, Hn'.
  - destruct (number_rest (s :: b'')) as [n' r'] eqn:Hn. intros [= <- <-].
    destruct (IH (s :: b'') ltac:(unfold ltof; cbn; lia) _ _ Hn) as [Hn' Hr].
    split; [|done]. cbn [number_rest]. rewrite Hc. destruct n' as [|d n'']; [done|].
    apply number_rest_split in Hn as [= <- _]. by rewrite He, Hn'.
Qed.

(** A literal is collected whole, unless its end and a sign would be taken for
    the beginning of an exponent. *)
Lemma number_rest_app t r :
  number_rest t = (t, []) -> starts is_number_char r = false ->
  (forall t' c, t = t' ++ [c] -> is_e c = true -> starts is_sign r = false) ->
  number_rest (t ++ r) = (t, r).
Proof.
  induction t as [t IH] using (induction_ltof1 _ length). intros Ht Hr Hs.
  destruct t as [|c t']; cbn [app].
  - destruct r as [|d r]; [done|]. cbn in *. by rewrite Hr.
  - cbn [number_rest] in *. destruct (is_number_char c) eqn:Hc; [|done].
    destruct t' as [|s t'']; cbn [app] in *.
    + destruct r as [|d r]; [done|]. destruct (is_e c) eqn:He; cbn [andb].
      * specialize (Hs [] c eq_refl He). cbn in Hs. rewrite Hs. cbn in *. by rewrite Hr.
      * cbn in *. by rewrite Hr.
    + destruct (is_e c && is_sign s) eqn:He.
      * destruct (number_rest t'') as [n' r'] eqn:Hn. injection Ht as -> ->.
        rewrite (IH t''); [done|unfold ltof; cbn; lia|done..|].
        intros t' d -> Hd. by apply (Hs (c :: s :: t') d).
      * destruct (number_rest (s :: t'')) as [n' r'] eqn:Hn. injection Ht as -> ->.
        change (s :: t'' ++ r) with ((s :: t'') ++ r).
        rewrite (IH (s :: t'')); [done|unfold ltof; cbn; lia|done..|].
        intros t' d Heq Hd. apply (Hs (c :: t') d); [|done]. by rewrite Heq.
Qed.
End number_rest.

(** No number ends with the letter of an exponent. *)
Lemma digits_app acc n s c :
  is_ascii_digit c = false ->
  digits acc n (s ++ [c]) = (let '(a, m, r) := digits acc n s in (a, m, r ++ [c])).
Proof.
  intros Hc. revert acc n. induction s as [|d s IH]; intros acc n; cbn; [by rewrite Hc|].
  by destruct (is_ascii_digit d).
Qed.

Lemma exponent_last s c : is_e c = true -> exponent (s ++ [c]) = None.
Proof.
  intros He. destruct (e_number_char c He) as (_ & Hd & _ & Hsg).
  destruct s as [|a s]; cbn [app exponent]; [by rewrite He|].
  destruct (is_e a); [|done]. destruct s as [|b s]; cbn [app].
  - rewrite Hsg. cbn. by rewrite Hd.
  - assert (H : forall neg s', match digits 0 0 (s' ++ [c]) with
        | (_, O, _) => None | (x, S _, []) => Some (if (neg : bool) then - x else x)
        | (_, S _, _ :: _) => None end = None).
    { intros neg s'. rewrite digits_app by done. destruct (digits 0 0 s') as [[x n] r].
      destruct n; [done|]. by destruct r. }
    destruct (is_sign b); [apply H|apply (H false (b :: s))].
Qed.

Lemma parse_f64_last s c : is_e c = true -> parse_f64 (s ++ [c]) = None.
Proof.
  intros He. destruct (e_number_char c He) as (_ & Hd & Hp & _).
  unfold parse_f64. rewrite digits_app by done. destruct (digits 0 0 s) as [[m n] b].
  assert (H : forall n (m' : Z) n' b', (if bool_decide ((n + n')%nat = O) then None
     else e ← exponent (b' ++ [c]); Some (f64_of_decimal m' (e - Z.of_nat n'))) = None).
  { intros k m' n' b'. rewrite exponent_last by done. by case_bool_decide. }
  destruct b as [|d b]; cbn [app].
  - rewrite Hp. apply (H n m O []).
  - destruct (Ascii.eqb d "."); [|apply (H n m O (d :: b))].
    rewrite digits_app by done. destruct (digits m 0 b) as [[m' n'] b']. apply H.
Qed.

(** The literal is read back in front of anything that does not go on with it. *)
Lemma literal_app c t x r :
  literal (c :: t) x -> starts is_number_char r = false -> number_rest (t ++ r) = (t, r).
Proof.
  intros (c' & t' & [= <- <-] & _ & Ht & Hx) Hr. apply number_rest_app; [done..|].
  intros t' d -> Hd. pose proof (parse_f64_last (c :: t') d Hd) as Hn. cbn in Hn, Hx. congruence.
Qed.

(** ** Operators *)
Lemma peek_op_inv b :
  match peek_op b with
  | IOp op p => p = (lbp op, rbp op) /\ exists t, b = op_chars op ++ t
  | IContinue => exists c t, b = c :: t /\ is_ascii_whitespace c = true
  | IBreak => True
  end.
Proof.
  unfold peek_op, get. destruct b as [|x b]; cbn; [done|].
  destruct (Ascii.eqb x "*") eqn:H1; [apply ascii_eqb_eq in H1 as ->|].
  { destruct b as [|y b]; cbn; [by split; [|exists []]|].
    destruct (Ascii.eqb y "*") eqn:H2; [apply ascii_eqb_eq in H2 as ->|];
      split; [done|by exists b|done|by exists (y :: b)]. }
  destruct (Ascii.eqb x "/") eqn:H2; [apply ascii_eqb_eq in H2 as ->; split; [done|by exists b]|].
  destruct (Ascii.eqb x "+") eqn:H3; [apply ascii_eqb_eq in H3 as ->; split; [done|by exists b]|].
  destruct (Ascii.eqb x "-") eqn:H4; [apply ascii_eqb_eq in H4 as ->; split; [done|by exists b]|].
  destruct (is_ascii_whitespace x) eqn:H5; [by exists x, b|done].
Qed.

(** An operator is recognised where no second star follows. *)
Lemma peek_op_app op t :
  starts (fun c => Ascii.eqb c "*") t = false -> peek_op (op_chars op ++ t) = IOp op (lbp op, rbp op).
Proof. destruct op, t as [|c t]; cbn; try done. by intros ->. Qed.

Lemma skip_op op t :
  (if decide (op = Pow) then (next (next (op_chars op ++ t)).2).2 else (next (op_chars op ++ t)).2) = t.
Proof. by destruct op. Qed.

Lemma op_chars_number op t : starts is_number_char (op_chars op ++ t) = false.
Proof. by destruct op. Qed.

Lemma op_chars_length op : (0 < length (op_chars op))%nat.
Proof. destruct op; cbn; lia. Qed.

Lemma lbp_bounds op : 1 <= lbp op <= 5.
Proof. destruct op; cbn; lia. Qed.

Lemma binary_app s op t rest : (s ++ op_chars op ++ t) ++ rest = s ++ op_chars op ++ t ++ rest.
Proof. by rewrite <- !app_assoc. Qed.

(** No expression is empty or starts with a star. *)
Lemma written_start bp e s : written bp e s -> s <> [] /\ forall rest, starts (fun c => Ascii.eqb c "*") (s ++ rest) = false.
Proof.
  induction 1 as [bp x s (c & t & -> & Hc & _)|bp e s _ _|bp op e s _ _|bp l op r s t _ _ [IHn IHs] _ _].
  - split; [done|]. intros rest. apply (special_false c), number_char_special, Hc.
  - done.
  - split; [done|]. by destruct op.
  - split; [by destruct s|]. intros rest. rewrite binary_app. apply IHs.
Qed.

Lemma written_length bp e s : written bp e s -> (0 < length s)%nat.
Proof. intros [H _]%written_start. destruct s; [done|cbn; lia]. Qed.

Lemma written_size bp e s : written bp e s -> (size e <= length s)%nat.
Proof.
  induction 1 as [bp x s (c & t & -> & _)|bp e s _ IH|bp op e s _ IH|bp l op r s t _ _ IHl _ IHr]; cbn.
  - lia.
  - rewrite length_app. cbn. lia.
  - lia.
  - rewrite !length_app. pose proof (op_chars_length op). lia.
Qed.

(** ** What [parse] returns is what was written *)
Section run.
Context (ev : gmap nat value).
Abbreviation result := (StackEval.eval ev).

Lemma result_try p k :
  result (run_try p k) =
    match result p with Some (VParsed (POk e b)) => result (k e b) | o => o end.
Proof. unfold run_try. cbn [StackEval.eval]. by destruct (result p) as [[[]|]|]. Qed.

Definition returns (p : prog value) (e : Expression) (b : bytes) : Prop :=
  result p = Some (VParsed (POk e b)).

Lemma returns_try p k e b :
  returns (run_try p k) e b -> exists e' b', returns p e' b' /\ returns (k e' b') e b.
Proof.
  unfold returns. rewrite result_try. destruct (result p) as [[[e' b'| |]|]|]; [|done..].
  by intros H; exists e', b'.
Qed.

Section sound.
Context (parse : bytes -> Z -> prog value).
Context (Hparse : forall b bp e rest, returns (parse b bp) e rest ->
  exists s, b = s ++ rest /\ written bp e s /\ stops bp e rest).

Lemma lhs_sound m b k e rest :
  returns (parse_lhs parse m (get b 0) b k) e rest ->
  exists e0 s b', b = s ++ b' /\ (forall bp, written bp e0 s) /\
    (ends_number e0 = true -> starts is_number_char b' = false) /\ returns (k e0 b') e rest.
Proof.
  induction m as [|m IH]; [done|]. cbn [parse_lhs]. unfold get in *.
  destruct b as [|x b]; [done|]. cbn in *.
  destruct (Ascii.eqb x "+") eqn:H1; [apply ascii_eqb_eq in H1 as ->|].
  { intros (e' & b' & (s & -> & Hw & _ & He)%Hparse & Hk)%returns_try.
    exists (Unary Pos e'), ("+"%char :: s), b'. split_and!; [done|intros bp; by apply (w_unary bp Pos)|exact He|done]. }
  destruct (Ascii.eqb x "-") eqn:H2; [apply ascii_eqb_eq in H2 as ->|].
  { intros (e' & b' & (s & -> & Hw & _ & He)%Hparse & Hk)%returns_try.
    exists (Unary Neg e'), ("-"%char :: s), b'. split_and!; [done|intros bp; by apply (w_unary bp Neg)|exact He|done]. }
  destruct (Ascii.eqb x "(") eqn:H3; [apply ascii_eqb_eq in H3 as ->|].
  { intros (e' & b' & (s & -> & Hw & Hs)%Hparse & Hk)%returns_try.
    destruct b' as [|c b']; [done|]. cbn in Hk.
    destruct (Ascii.eqb c ")") eqn:H4; [apply ascii_eqb_eq in H4 as ->|done].
    exists (Covered e'), ("("%char :: s ++ [")"%char]), b'.
    split_and!; [by cbn; rewrite <- app_assoc|intros bp; by apply w_covered|done|done]. }
  destruct (is_ascii_whitespace x); [exact IH|].
  destruct (is_number_char x) eqn:Hx; [|done].
  destruct (number_rest b) as [t b'] eqn:Hn. destruct (parse_f64 (x :: t)) as [y|] eqn:Hy; [|done].
  intros Hk. pose proof (number_rest_again b t b' Hn) as [Ht Hb'].
  exists (Number y), (x :: t), b'. rewrite (number_rest_split _ _ _ Hn).
  split_and!; [done| |done|done]. intros bp. apply w_number. by exists x, t.
Qed.

Lemma infix_sound m bp lhs b e rest s0 :
  returns (parse_infix parse m bp lhs b) e rest ->
  written bp lhs s0 -> (forall op p, peek_op b = IOp op p -> written (lbp op) lhs s0) ->
  (ends_number lhs = true -> starts is_number_char b = false) ->
  exists s, b = s ++ rest /\ written bp e (s0 ++ s) /\ stops bp e rest.
Proof.
  revert lhs b s0. induction m as [|m IH]; [done|]. intros lhs b s0. cbn [parse_infix].
  assert (Hstop : op_stops bp b -> returns (PRet (VParsed (POk lhs b))) e rest ->
    written bp lhs s0 -> (ends_number lhs = true -> starts is_number_char b = false) ->
    exists s, b = s ++ rest /\ written bp e (s0 ++ s) /\ stops bp e rest).
  { intros Ho [= -> ->] Hw He. exists []. rewrite app_nil_r. by split_and!. }
  destruct (peek_op b) as [op p| |] eqn:Hop.
  - pose proof (peek_op_inv b) as Hinv. rewrite Hop in Hinv. destruct Hinv as [-> (t & ->)]. cbn [fst snd].
    destruct (lbp op <? bp)%Z eqn:Hbp.
    + intros Hr Hw _ He. apply Hstop; [|done..]. unfold op_stops. rewrite Hop. cbn. lia.
    + rewrite skip_op. intros (r & b' & (s & -> & Hw & Hs)%Hparse & Hk)%returns_try Hl Hop' _.
      specialize (Hop' _ _ eq_refl). destruct Hs as [Hs He].
      destruct (IH _ b' (s0 ++ op_chars op ++ s) Hk) as (s' & -> & Hw' & Hst).
      * by apply w_binary; [lia|..].
      * intros op' p' Hp'. unfold op_stops in Hs. rewrite Hp' in Hs.
        pose proof (peek_op_inv b') as Hi. rewrite Hp' in Hi. destruct Hi as [-> _]. cbn in Hs. unfold rbp in Hs.
        by apply w_binary; [lia|..].
      * exact He.
      * exists (op_chars op ++ s ++ s'). rewrite <- !app_assoc in *. by split.
  - intros Hr Hw _ He. destruct (IH lhs b s0 Hr Hw) as (s & Hs); [by rewrite Hop|done|by exists s].
  - intros Hr Hw _ He. apply Hstop; [|done..]. unfold op_stops. by rewrite Hop.
Qed.
End sound.

Lemma parse_sound n b bp e rest :
  returns (parse n b bp) e rest -> exists s, b = s ++ rest /\ written bp e s /\ stops bp e rest.
Proof.
  revert b bp e rest. induction n as [|n IH]; [done|]. intros b bp e rest. cbn [parse].
  intros (e0 & s & b' & -> & Hw & He & Hk)%(lhs_sound _ IH).
  destruct (infix_sound _ IH _ _ _ _ _ _ s Hk (Hw bp)) as (s' & -> & Hw' & Hs); [by intros; apply Hw|done|].
  exists (s ++ s'). by rewrite <- app_assoc.
Qed.

(** ** What was written is what [parse] returns *)
Definition fits_after (bp : Z) (e : Expression) (rest : bytes) : Prop :=
  (forall op p, peek_op rest = IOp op p -> lbp op <= bp) /\ peek_op rest <> IContinue /\
  (ends_number e = true -> starts is_number_char rest = false).

Lemma infix_stops p m bp e rest :
  op_stops bp rest -> (0 < m)%nat -> returns (parse_infix p m bp e rest) e rest.
Proof.
  unfold op_stops. intros Hs Hm. destruct m as [|m]; [lia|]. cbn [parse_infix].
  destruct (peek_op rest) as [op q| |]; [|done..]. by replace (q.1 <? bp)%Z with true by lia.
Qed.

Lemma fits_stops bp bp' e rest : fits_after bp e rest -> bp < bp' -> op_stops bp' rest.
Proof.
  intros (Hp & Hc & _) Hlt. unfold op_stops. pose proof (peek_op_inv rest) as Hi.
  destruct (peek_op rest) as [op q| |]; [|done..]. destruct Hi as [-> _].
  specialize (Hp _ _ eq_refl). cbn. lia.
Qed.

Lemma stops_fits bp e rest : stops bp e rest -> fits_after bp e rest.
Proof.
  intros [Hs He]. unfold op_stops in Hs. pose proof (peek_op_inv rest) as Hi. split_and!; [|intros Hc|done].
  - intros op p Hp. rewrite Hp in Hs, Hi. destruct Hi as [-> _]. cbn in Hs. lia.
  - by rewrite Hc in Hs.
Qed.

(** [parse] on each first character. *)
Lemma parse_unary n op s bp :
  result (parse (S n) (unary_char op :: s) bp) =
    match result (parse n s 7) with
    | Some (VParsed (POk e b)) => result (parse_infix (parse n) (S n) bp (Unary op e) b)
    | o => o
    end.
Proof. destruct op; exact (result_try _ _). Qed.

Lemma parse_covered n s bp :
  result (parse (S n) ("("%char :: s) bp) =
    match result (parse n s 0) with
    | Some (VParsed (POk e (c :: b))) =>
        if Ascii.eqb c ")" then result (parse_infix (parse n) (S n) bp (Covered e) b)
        else Some (VParsed PErr)
    | Some (VParsed (POk _ [])) => Some (VParsed PErr)
    | o => o
    end.
Proof.
  change (parse (S n) ("("%char :: s) bp) with (run_try (parse n s 0) (fun e b =>
    match next b with
    | (Some c, b) =>
        if Ascii.eqb c ")" then parse_infix (parse n) (S n) bp (Covered e) b else PRet (VParsed PErr)
    | (None, _) => PRet (VParsed PErr)
    end)).
  rewrite result_try. destruct (result (parse n s 0)) as [[[e [|c b]| |]|]|]; [done| |done..].
  cbn [next]. by destruct (Ascii.eqb c ")").
Qed.

Lemma parse_number n c s bp :
  is_number_char c = true ->
  result (parse (S n) (c :: s) bp) =
    let (t, b) := number_rest s in
    match parse_f64 (c :: t) with
    | Some x => result (parse_infix (parse n) (S n) bp (Number x) b)
    | None => Some (VParsed PErr)
    end.
Proof.
  intros Hc. change (parse (S n) (c :: s) bp) with
    (parse_lhs (parse n) (S n) (Some c) (c :: s) (fun lhs b => parse_infix (parse n) (S n) bp lhs b)).
  cbn [parse_lhs]. destruct (special_false c (number_char_special c Hc)) as (-> & -> & -> & _ & _ & ->).
  rewrite Hc. cbn [next snd]. destruct (number_rest s) as [t b]. by destruct (parse_f64 (c :: t)).
Qed.

Lemma parse_step bp e s :
  written bp e s -> forall n rest bp',
  bp' <= bp -> fits_after bp e rest -> (length (s ++ rest) <= n)%nat ->
  exists m, (length rest < m)%nat /\
    result (parse (S n) (s ++ rest) bp') = result (parse_infix (parse n) m bp' e rest).
Proof.
  induction 1 as [bp x s Hx|bp e s Hw IH|bp op e s Hw IH|bp l op r s t Hbp Hwl IHl Hwr IHr];
    intros n rest bp' Hbp' Hfit Hn.
  - destruct Hx as (c & t & -> & Hc & Ht & Hy). exists (S n).
    split; [cbn in Hn; rewrite length_app in Hn; lia|].
    change ((c :: t) ++ rest) with (c :: t ++ rest). rewrite parse_number by done.
    rewrite (literal_app c t x rest); [by rewrite Hy|by exists c, t|]. by apply Hfit.
  - assert (Heq : ("("%char :: s ++ [")"%char]) ++ rest = "("%char :: s ++ ")"%char :: rest).
    { cbn. by rewrite <- app_assoc. }
    rewrite Heq in *. exists (S n). cbn in Hn. rewrite length_app in Hn. cbn in Hn. split; [lia|].
    rewrite parse_covered. destruct n as [|n]; [lia|].
    destruct (IH n (")"%char :: rest) 0) as (m & Hm & Hr); [done|by split_and!|rewrite length_app; cbn; lia|].
    by rewrite Hr, infix_stops; [|unfold op_stops|lia].
  - cbn in Hn. exists (S n). rewrite length_app in Hn. split; [lia|].
    pose proof (written_length _ _ _ Hw) as Hl. destruct n as [|n]; [lia|].
    assert (Hfit' : fits_after 6 e rest).
    { split_and!; [|apply Hfit..]. intros op' _ _. pose proof (lbp_bounds op'). lia. }
    destruct (IH n rest 7) as (m & Hm & Hr); [done| |rewrite length_app; lia|].
    { split_and!; [|apply Hfit'..]. intros op' _ _. pose proof (lbp_bounds op'). lia. }
    change ((unary_char op :: s) ++ rest) with (unary_char op :: s ++ rest).
    rewrite parse_unary, Hr, infix_stops; [done|by apply (fits_stops 6 7 e)|lia].
  - rewrite binary_app in *. rewrite !length_app in Hn.
    pose proof (written_length _ _ _ Hwl). pose proof (written_length _ _ _ Hwr). pose proof (op_chars_length op).
    assert (Hop : peek_op (op_chars op ++ t ++ rest) = IOp op (lbp op, rbp op)).
    { apply peek_op_app. by apply (written_start _ _ _ Hwr). }
    destruct (IHl n (op_chars op ++ t ++ rest) bp') as (m & Hm & Hr); [lia| |rewrite !length_app; lia|].
    { split_and!; [|by rewrite Hop|intros _; apply op_chars_number].
      intros op' p'. rewrite Hop. intros [= <- _]. lia. }
    rewrite Hr. rewrite !length_app in Hm. destruct m as [|m]; [lia|]. exists m. split; [lia|].
    cbn [parse_infix]. rewrite Hop. cbn [fst snd]. replace (lbp op <? bp')%Z with false by lia.
    rewrite skip_op, result_try. destruct n as [|n]; [lia|].
    assert (Hfr : fits_after (lbp op) r rest).
    { split_and!; [|apply Hfit..]. intros op' p' Hp. destruct Hfit as [Hf _]. specialize (Hf _ _ Hp). lia. }
    destruct (IHr n rest (rbp op)) as (m' & Hm' & Hr'); [done| |rewrite length_app; lia|].
    { split_and!; [|apply Hfit..]. intros op' p' Hp. destruct Hfr as [Hf _]. specialize (Hf _ _ Hp). unfold rbp. lia. }
    rewrite Hr', infix_stops; [done| |lia]. apply (fits_stops (lbp op) _ r); [done|unfold rbp; lia].
Qed.

Lemma parse_complete n bp e s rest :
  written bp e s -> stops bp e rest -> (length (s ++ rest) < n)%nat ->
  returns (parse n (s ++ rest) bp) e rest.
Proof.
  intros Hw Hs Hn. destruct n as [|n]; [lia|].
  destruct (parse_step _ _ _ Hw n rest bp) as (m & Hm & Hr); [done|by apply stops_fits|lia|].
  unfold returns. rewrite Hr. apply infix_stops; [apply Hs|lia].
Qed.

(** ** Without white space the fuel does not run out *)
Definition no_space (b : bytes) : Prop := Forall (fun c => is_ascii_whitespace c = false) b.
Definition total (p : prog value) : Prop := exists r, result p = Some (VParsed r) /\ r <> PFuel.

Lemma try_total p k :
  total p -> (forall e b, returns p e b -> total (k e b)) -> total (run_try p k).
Proof.
  intros (r & Hr & Hf) Hk. unfold total. rewrite result_try, Hr.
  destruct r; [by apply Hk|by exists PErr|done].
Qed.

Lemma no_space_suffix s b : no_space (s ++ b) -> no_space b.
Proof. by intros [_ H]%Forall_app. Qed.

Section total.
Context (n : nat).
Context (IHn : forall b bp, no_space b -> (length b < n)%nat -> total (parse n b bp)).

Lemma infix_total m bp lhs b :
  no_space b -> (length b < m)%nat -> (length b <= n)%nat -> total (parse_infix (parse n) m bp lhs b).
Proof.
  revert lhs b. induction m as [|m IH]; intros lhs b Hb Hm Hn; [lia|]. cbn [parse_infix].
  pose proof (peek_op_inv b) as Hop. destruct (peek_op b) as [op q| |].
  - destruct (q.1 <? bp)%Z; [by exists (POk lhs b)|]. destruct Hop as [_ [t ->]].
    rewrite skip_op. pose proof (op_chars_length op). rewrite length_app in *.
    apply no_space_suffix in Hb. apply try_total; [apply IHn; [done|lia]|].
    intros e b' (s & -> & _)%parse_sound. rewrite length_app in *.
    apply no_space_suffix in Hb. apply IH; [done|lia..].
  - destruct Hop as (c & t & -> & Hc). apply Forall_cons in Hb as [Hb _]. congruence.
  - by exists (POk lhs b).
Qed.

Lemma parse_total_step b bp :
  no_space b -> (length b < S n)%nat -> total (parse (S n) b bp).
Proof.
  intros Hb Hn. destruct b as [|c b]; [by exists PErr|]. apply Forall_cons in Hb as [Hc Hb].
  cbn in Hn. unfold total. pose proof (IHn b 0 Hb ltac:(lia)) as (r0 & H0 & Hr0).
  pose proof (IHn b 7 Hb ltac:(lia)) as (r7 & H7 & Hr7).
  assert (Hrest : forall s e b', b = s ++ b' -> total (parse_infix (parse n) (S n) bp e b')).
  { intros s e b' ->. rewrite length_app in Hn. apply no_space_suffix in Hb. apply infix_total; [done|lia..]. }
  assert (Hu : forall op, c = unary_char op -> total (parse (S n) (c :: b) bp)).
  { intros op ->. unfold total. rewrite parse_unary, H7. destruct r7 as [e b'| |]; [|by exists PErr|done].
    apply parse_sound in H7 as (s & Heq & _). by apply (Hrest s). }
  destruct (Ascii.eqb c "+") eqn:H1; [apply ascii_eqb_eq in H1; by apply (Hu Pos)|].
  destruct (Ascii.eqb c "-") eqn:H2; [apply ascii_eqb_eq in H2; by apply (Hu Neg)|].
  destruct (Ascii.eqb c "(") eqn:H3.
  { apply ascii_eqb_eq in H3 as ->. rewrite parse_covered, H0. destruct r0 as [e [|d b']| |]; [by exists PErr| |by exists PErr|done].
    apply parse_sound in H0 as (s & Heq & _). destruct (Ascii.eqb d ")"); [|by exists PErr].
    apply (Hrest (s ++ [d])). by rewrite <- app_assoc. }
  destruct (is_number_char c) eqn:Hnum.
  - rewrite parse_number by done. destruct (number_rest b) as [t b'] eqn:Ht.
    destruct (parse_f64 (c :: t)); [|by exists PErr]. apply (Hrest t). by apply number_rest_split.
  - exists PErr. split; [|done]. cbn [parse parse_lhs get lookup list_lookup]. by rewrite H1, H2, H3, Hc, Hnum.
Qed.
End total.

Lemma parse_total n b bp : no_space b -> (length b < n)%nat -> total (parse n b bp).
Proof.
  revert b bp. induction n as [|n IH]; intros b bp; [lia|]. by apply parse_total_step.
Qed.

(** ** How many polls it takes *)
Definition left_over (p : prog value) : nat :=
  match result p with Some (VParsed (POk _ b)) => length b | _ => 0 end.
(** Two polls for each byte consumed, and one. *)
Definition cheap (p : prog value) (x : nat) : Prop :=
  (StackEval.cost ev p + 2 * left_over p <= 2 * x + 1)%nat.

Lemma try_cheap p k x :
  cheap p x -> (forall e b, cheap (k e b) (length b)) -> cheap (run_try p k) (S x).
Proof.
  unfold cheap, left_over. intros Hp Hk. rewrite result_try. unfold run_try. cbn [StackEval.cost].
  destruct (result p) as [[[e b| |]|y]|]; cbn [StackEval.cost StackEval.eval] in *; [|lia..].
  specialize (Hk e b). lia.
Qed.

Lemma ret_cheap r x : (match r with POk _ b => (length b <= x)%nat | _ => True end) -> cheap (PRet (VParsed r)) x.
Proof. unfold cheap, left_over. cbn. destruct r; lia. Qed.

Lemma cheap_le p x y : cheap p x -> (x <= y)%nat -> cheap p y.
Proof. unfold cheap. lia. Qed.

Lemma infix_cheap p m bp lhs b :
  (forall b bp, cheap (p b bp) (length b)) -> cheap (parse_infix p m bp lhs b) (length b).
Proof.
  intros Hp. revert lhs b. induction m as [|m IH]; intros lhs b; cbn [parse_infix]; [by apply ret_cheap|].
  pose proof (peek_op_inv b) as Hop. destruct (peek_op b) as [op q| |]; [|apply IH|by apply ret_cheap].
  destruct (q.1 <? bp)%Z; [by apply ret_cheap|]. destruct Hop as [_ [t ->]]. rewrite skip_op.
  apply (cheap_le _ (S (length t))); [by apply try_cheap|].
  rewrite length_app. pose proof (op_chars_length op). lia.
Qed.

Lemma parse_cheap n b bp : cheap (parse n b bp) (length b).
Proof.
  revert b bp. induction n as [|n IH]; intros b bp; cbn [parse]; [by apply ret_cheap|].
  assert (Hk : forall m e b', cheap (parse_infix (parse n) m bp e b') (length b')).
  { intros. by apply infix_cheap. }
  generalize (S n) at 1 as m. induction m as [|m IHm]; cbn [parse_lhs]; [by apply ret_cheap|].
  destruct b as [|x b]; cbn [get lookup list_lookup]; [by apply ret_cheap|]. cbn [next snd length].
  destruct (Ascii.eqb x "+"); [by apply try_cheap|]. destruct (Ascii.eqb x "-"); [by apply try_cheap|].
  destruct (Ascii.eqb x "(").
  { apply try_cheap; [done|]. intros e [|d b']; cbn [next]; [by apply ret_cheap|].
    destruct (Ascii.eqb d ")"); [|by apply ret_cheap]. eapply cheap_le; [apply Hk|cbn; lia]. }
  destruct (is_ascii_whitespace x); [exact IHm|]. destruct (is_number_char x); [|by apply ret_cheap].
  destruct (number_rest b) as [t b'] eqn:Ht. apply number_rest_split in Ht as ->.
  destruct (parse_f64 (x :: t)); [|by apply ret_cheap].
  eapply cheap_le; [apply Hk|rewrite length_app; lia].
Qed.

(** ** White space at the front is never skipped *)
Lemma parse_space n c b bp :
  is_ascii_whitespace c = true -> result (parse n (c :: b) bp) = Some (VParsed PFuel).
Proof.
  intros Hc. destruct n as [|n]; [done|]. cbn [parse].
  assert (Hd : Ascii.eqb c "+" = false /\ Ascii.eqb c "-" = false /\ Ascii.eqb c "(" = false).
  { by split_and!; apply (class_disjoint is_ascii_whitespace (fun c => Ascii.eqb c _)). }
  destruct Hd as (H1 & H2 & H3). generalize (S n) at 1 as m.
  induction m as [|m IHm]; [done|]. cbn [parse_lhs get lookup list_lookup].
  by rewrite H1, H2, H3, Hc.
Qed.

(** ** Evaluating *)
Lemma eval_denote powf e : result (Calculator.eval powf e) = Some (VNum (denote powf e)).
Proof.
  induction e as [x|e IH|l IHl op r IHr|op e IH]; cbn [Calculator.eval StackEval.eval denote];
    [done|by rewrite IH|by rewrite IHl; cbn; rewrite IHr|by rewrite IH].
Qed.

Lemma eval_cost powf e : (S (StackEval.cost ev (Calculator.eval powf e)) = 2 * size e)%nat.
Proof.
  induction e as [x|e IH|l IHl op r IHr|op e IH]; cbn [Calculator.eval StackEval.cost size];
    rewrite ?eval_denote; cbn [StackEval.cost]; [done|lia| |lia].
  rewrite ?eval_denote. cbn [StackEval.cost]. lia.
Qed.
End run.
