(* ===== verification/CalculatorThms.v ===== *)
(** * What the calculator computes

    [parse] decides the grammar [written], printing and parsing are inverse, and
    [main] on the runtime of [Stack] prints the number the expression denotes. *)

From Stdlib Require Import Ascii SpecFloat.
From S2P Require Import Prelude Ptr StackAlloc Stack Runner StackInv StackSafe StackEval RunnerSafe StackSim StackThms.
From S2P Require Import Calculator CalculatorSpec.

(** ** Printing *)
Section print.
(** The printer of numbers, such as [Display] of [f64]. *)
Context (show : f64 -> bytes).

Fixpoint print (e : Expression) : bytes :=
  match e with
  | Number x => show x
  | Covered e => "("%char :: print e ++ [")"%char]
  | Binary l op r => print l ++ op_chars op ++ print r
  | Unary op e => unary_char op :: print e
  end.

Fixpoint numbers (e : Expression) : list f64 :=
  match e with
  | Number x => [x]
  | Covered e | Unary _ e => numbers e
  | Binary l _ r => numbers l ++ numbers r
  end.

(** The operators are grouped by their powers, to the left among equals. *)
Fixpoint fits (bp : Z) (e : Expression) : Prop :=
  match e with
  | Number _ => True
  | Covered e => fits 0 e
  | Binary l op r => bp <= lbp op /\ fits (lbp op) l /\ fits (rbp op) r
  | Unary _ e => fits 7 e
  end.

(** Printed numbers are literals that are read as the same number. *)
Definition shows (xs : list f64) : Prop := Forall (fun x => literal (show x) x) xs.

Lemma print_written bp e : fits bp e -> shows (numbers e) -> written bp e (print e).
Proof.
  unfold shows. revert bp. induction e as [x|e IH|l IHl op r IHr|op e IH]; intros bp; cbn [fits print numbers].
  - intros _ [Hx _]%Forall_cons. by apply w_number.
  - intros Hf Hs. apply w_covered. by apply IH.
  - intros (Hbp & Hl & Hr) [Hsl Hsr]%Forall_app. apply w_binary; auto.
  - intros Hf Hs. apply w_unary. by apply IH.
Qed.
End print.

Lemma written_fits bp e s : written bp e s -> fits bp e.
Proof. by induction 1. Qed.

(** ** White space *)
Lemma infix_space ev p m bp e c b :
  is_ascii_whitespace c = true ->
  StackEval.eval ev (parse_infix p m bp e (c :: b)) = Some (VParsed PFuel).
Proof.
  intros Hc. assert (Hp : peek_op (c :: b) = IContinue).
  { unfold peek_op. cbn [get lookup list_lookup].
    assert (Hd : Ascii.eqb c "*" = false /\ Ascii.eqb c "/" = false /\ Ascii.eqb c "+" = false /\ Ascii.eqb c "-" = false).
    { by split_and!; apply (class_disjoint is_ascii_whitespace (fun c => Ascii.eqb c _)). }
    destruct Hd as (-> & -> & -> & ->). by rewrite Hc. }
  induction m as [|m IH]; cbn [parse_infix]; [done|]. by rewrite Hp.
Qed.

Lemma parse_then_space ev bp e s c b :
  is_ascii_whitespace c = true -> written bp e s -> forall n bp', bp' <= bp ->
  (length (s ++ c :: b) <= n)%nat ->
  StackEval.eval ev (parse (S n) (s ++ c :: b) bp') = Some (VParsed PFuel).
Proof.
  intros Hc. assert (Hnum : starts is_number_char (c :: b) = false).
  { by apply (class_disjoint is_ascii_whitespace is_number_char). }
  induction 1 as [bp x s Hx|bp e s Hw IH|bp op e s Hw IH|bp l op r s t Hbp Hwl IHl Hwr IHr];
    intros n bp' Hbp' Hn.
  - destruct Hx as (d & t & -> & Hd & Ht & Hy). change ((d :: t) ++ c :: b) with (d :: t ++ c :: b).
    rewrite parse_number by done. rewrite (literal_app d t x (c :: b)); [|by exists d, t|done].
    rewrite Hy. by apply infix_space.
  - assert (Heq : ("("%char :: s ++ [")"%char]) ++ c :: b = "("%char :: s ++ ")"%char :: c :: b).
    { cbn. by rewrite <- app_assoc. }
    rewrite Heq in *. cbn in Hn. rewrite parse_covered.
    rewrite (parse_complete _ n 0 e s (")"%char :: c :: b)); [|done|by split|lia].
    cbn [Ascii.eqb]. by apply infix_space.
  - change ((unary_char op :: s) ++ c :: b) with (unary_char op :: s ++ c :: b).
    cbn in Hn. destruct n as [|n]; [lia|]. by rewrite parse_unary, IH by (done || lia).
  - rewrite binary_app in *. pose proof (written_length _ _ _ Hwl). rewrite !length_app in Hn.
    assert (Hop : peek_op (op_chars op ++ t ++ c :: b) = IOp op (lbp op, rbp op)).
    { apply peek_op_app. by apply (written_start _ _ _ Hwr). }
    destruct (parse_step ev _ _ _ Hwl n (op_chars op ++ t ++ c :: b) bp') as (m & Hm & Hr); [lia| |rewrite !length_app; lia|].
    { split_and!; [|by rewrite Hop|intros _; apply op_chars_number].
      intros op' p'. rewrite Hop. intros [= <- _]. lia. }
    rewrite Hr. destruct m as [|m]; [lia|]. cbn [parse_infix]. rewrite Hop. cbn [fst snd].
    replace (lbp op <? bp')%Z with false by lia. rewrite skip_op, result_try.
    destruct n as [|n]; [cbn in Hn; lia|]. pose proof (op_chars_length op).
    rewrite IHr; [done|done|rewrite length_app; lia].
Qed.

(** ** The program *)

(** What [main] may print for the input [b]. *)
Definition prints (powf : f64 -> f64 -> f64) (b : bytes) (p : printed) : Prop :=
  match p with
  | PrintNothing => b = []
  | PrintError => b <> [] /\ ~ exists e s rest, b = s ++ rest /\ written 0 e s /\ stops 0 e rest
  | PrintNumber x => exists e s rest, b = s ++ rest /\ written 0 e s /\ stops 0 e rest /\ x = denote powf e
  end.

(** Inputs for the witnesses. *)
Definition one_half : f64 := S754_finite false 6755399441055744 (-52).
Definition two : f64 := S754_finite false 4503599627370496 (-51).
Definition show0 (x : f64) : bytes :=
  (match x with S754_finite false 6755399441055744 (-52) => ["1"; "."; "5"] | _ => ["2"] end)%char.
Definition expr0 : Expression :=
  Binary (Number one_half) Add (Binary (Number two) Mul (Unary Neg (Number two))).
Definition powf0 (x _ : f64) : f64 := x.

Lemma literal_compute s x c t :
  s = c :: t -> is_number_char c = true -> number_rest t = (t, []) -> parse_f64 s = Some x -> literal s x.
Proof. intros. by exists c, t. Defined.

(** ** Results *)

(** [C25] The parser decides the grammar: with fuel above the length of the input
    it returns [e] and the rest of the input exactly if the input is [e] as
    written, with operators that bind as tightly as asked, followed by something
    that does not go on with it. *)
Theorem parse_grammar ev n b bp e rest :
  (length b < n)%nat ->
  StackEval.eval ev (parse n b bp) = Some (VParsed (POk e rest)) <->
  exists s, b = s ++ rest /\ written bp e s /\ stops bp e rest.
Proof.
  intros Hn. split; [apply parse_sound|]. intros (s & -> & Hw & Hs). by apply parse_complete.
Qed.

Lemma parse_grammar_witness :
  (length (print show0 expr0) < 9)%nat /\
  (StackEval.eval ∅ (parse 9 (print show0 expr0) 0) = Some (VParsed (POk expr0 [])) <->
   exists s, print show0 expr0 = s ++ [] /\ written 0 expr0 s /\ stops 0 expr0 []).
Proof. split; [apply Nat.ltb_lt; vm_compute; reflexivity|]. apply parse_grammar. apply Nat.ltb_lt. vm_compute. reflexivity. Defined.

(** [C26] Parsing a printed expression gives the expression back, for every
    expression whose operators are grouped by their powers, if the numbers in it
    are printed as literals that are read as themselves. *)
Theorem parse_print show ev n bp e :
  fits bp e -> shows show (numbers e) -> (length (print show e) < n)%nat ->
  StackEval.eval ev (parse n (print show e) bp) = Some (VParsed (POk e [])).
Proof.
  intros Hf Hs Hn. rewrite <- (app_nil_r (print show e)).
  apply parse_complete; [by apply print_written|by split|by rewrite app_nil_r].
Qed.

Lemma parse_print_witness :
  fits 0 expr0 /\ StackEval.eval ∅ (parse 9 (print show0 expr0) 0) = Some (VParsed (POk expr0 [])).
Proof.
  assert (Hf : fits 0 expr0) by (unfold expr0; cbn [fits]; unfold rbp, lbp; lia). split; [exact Hf|].
  apply parse_print; [exact Hf| |apply Nat.ltb_lt; vm_compute; reflexivity].
  repeat constructor; eapply literal_compute; vm_compute; reflexivity.
Defined.

(** [C28] Parsing terminates on every input without white space: with fuel above
    its length the result is an expression or an error, after at most two polls
    for each byte and one. *)
Theorem parse_ends ev n b bp :
  no_space b -> (length b < n)%nat ->
  exists r, StackEval.eval ev (parse n b bp) = Some (VParsed r) /\ r <> PFuel /\
    (StackEval.cost ev (parse n b bp) <= 2 * length b + 1)%nat.
Proof.
  intros Hb Hn. destruct (parse_total ev n b bp Hb Hn) as (r & Hr & Hf).
  pose proof (parse_cheap ev n b bp) as Hc. unfold cheap in Hc. exists r. split_and!; [done..|lia].
Qed.

Lemma parse_ends_witness :
  no_space (print show0 expr0) /\
  exists r, StackEval.eval ∅ (parse 9 (print show0 expr0) 0) = Some (VParsed r) /\ r <> PFuel /\
    (StackEval.cost ∅ (parse 9 (print show0 expr0) 0) <= 2 * length (print show0 expr0) + 1)%nat.
Proof.
  assert (Hb : no_space (print show0 expr0)) by (repeat constructor).
  split; [exact Hb|]. apply parse_ends; [exact Hb|]. apply Nat.ltb_lt. vm_compute. reflexivity.
Defined.

(** White space is looked at again and again, never skipped: in front of an
    expression or behind one, no fuel is enough, the loops of [parse] do not end. *)
Theorem parse_space_diverges ev n b bp e s c :
  is_ascii_whitespace c = true -> written bp e s -> (length (s ++ c :: b) < n)%nat ->
  StackEval.eval ev (parse n (c :: b) bp) = Some (VParsed PFuel) /\
  StackEval.eval ev (parse n (s ++ c :: b) bp) = Some (VParsed PFuel).
Proof.
  intros Hc Hw Hn. split; [by apply parse_space|]. destruct n as [|n]; [lia|].
  apply (parse_then_space _ bp e); [done..|lia].
Qed.

Lemma parse_space_diverges_witness :
  written 0 (Number two) ["2"%char] /\
  StackEval.eval ∅ (parse 100 [" "%char; "+"%char] 0) = Some (VParsed PFuel) /\
  StackEval.eval ∅ (parse 100 (["2"; " "; "+"]%char) 0) = Some (VParsed PFuel).
Proof.
  assert (Hw : written 0 (Number two) ["2"%char]).
  { apply w_number. eapply literal_compute; vm_compute; reflexivity. }
  split; [exact Hw|].
  apply (parse_space_diverges ∅ 100 ["+"%char] 0 (Number two) ["2"%char] " "%char);
    [reflexivity|exact Hw|apply Nat.ltb_lt; vm_compute; reflexivity].
Defined.

(** [C27] The whole program, both of its runs on one stack: on an input without
    white space it prints the number the expression at the front of the input
    denotes, or an error if there is none, and leaves the stack idle. *)
Theorem main_prints {A} `{!StackAlloc A} place_layout task_layout powf (w : world value A) fuel addr args :
  layouts_ok (A := A) place_layout task_layout -> inv_idle w -> state w = Base ->
  no_space (join args) -> (2 * length (join args) + 1 < fuel)%nat ->
  wpe (main powf place_layout task_layout fuel addr args) w
    (fun r w' => inv_idle w' /\ state w' = Base /\
       exists p, r = Some p /\ prints powf (join args) p) sa_fail.
Proof.
  intros [Hpl Htl] Hi Hst Hb Hf. unfold main. destruct (join args) as [|c b] eqn:Hj.
  { apply wpe_ret. split_and!; [done..|]. by exists PrintNothing. }
  assert (Hne : c :: b <> []) by done. clear Hj. revert Hb Hf Hne. generalize (c :: b).
  intros inp Hb Hf Hne. destruct (parse_total (events w) fuel inp 0 Hb ltac:(lia)) as (r & Hr & Hnf).
  pose proof (parse_cheap (events w) fuel inp 0) as Hc. unfold cheap in Hc.
  apply wpe_bind. eapply wpe_post; [apply (wp_enter_finish _ _ _ Hpl Htl _ _ _ _ _ _ Hi Hst Hr); lia|].
  intros o w1 (-> & Hi1 & Hst1). cbn beta iota.
  destruct r as [e rest| |]; [| |done].
  - apply parse_sound in Hr as (s & Heq & Hw & Hs).
    pose proof (written_size _ _ _ Hw). pose proof (eval_cost (events w1) powf e).
    pose proof (f_equal length Heq) as Hl. rewrite length_app in Hl.
    apply wpe_bind. eapply wpe_post.
    { apply (wp_enter_finish _ _ _ Hpl Htl _ _ _ _ _ _ Hi1 Hst1 (eval_denote _ powf e)). lia. }
    intros o w2 (-> & Hi2 & Hst2). apply wpe_ret. split_and!; [done..|].
    exists (PrintNumber (denote powf e)). split; [done|]. by exists e, s, rest.
  - apply wpe_ret. split_and!; [done..|]. exists PrintError. split; [done|].
    split; [done|].
    intros (e & s & rest & Heq & Hw & Hs). rewrite Heq in Hr.
    assert (returns (events w) (parse fuel (s ++ rest) 0) e rest) as Hr'.
    { apply parse_complete; [done..|]. rewrite <- Heq. lia. }
    unfold returns in Hr'. congruence.
Qed.

Lemma main_prints_witness :
  no_space (join [print show0 expr0]) /\
  wpe (main powf0 layout0 (fun _ => layout0) 99 64 [print show0 expr0]) (new_stack : world value ideal_state)
    (fun r w' => inv_idle w' /\ state w' = Base /\
       exists p, r = Some p /\ prints powf0 (join [print show0 expr0]) p) (sa_fail (A := ideal_state)).
Proof.
  assert (Hb : no_space (join [print show0 expr0])) by (repeat constructor). split; [exact Hb|].
  apply (main_prints layout0 (fun _ => layout0) powf0 new_stack 99 64 [print show0 expr0]).
  - split; [reflexivity|intros f; reflexivity].
  - apply new_stack_inv.
  - reflexivity.
  - exact Hb.
  - apply Nat.ltb_lt. vm_compute. reflexivity.
Defined.

(** The run itself: 1.5+2*-2 is -2.5. *)
Example main_run :
  (match main powf0 layout0 (fun _ => layout0) 99 64 [print show0 expr0] (new_stack : world value ideal_state) with
   | Ok (r, _) => r | _ => None end) = Some (PrintNumber (S754_finite true 5629499534213120 (-51))).
Proof. vm_compute. reflexivity. Qed.
