(* ===== verification/Examples.v ===== *)
(** * The other examples (src/examples/heavy_fibbo.rs, heavy_fibbo_base.rs, async.rs)

    A recursive function that keeps a megabyte on its stack frame, as an ordinary
    function and as a future on the stack of the runtime, and a deep recursion
    that ends by reading a file.  The ballast of their frames is not part of the
    state; a build with overflow checks ([debug]) panics where one without them
    wraps. *)

From S2P Require Import Prelude Ptr StackAlloc Stack Runner StackEval StackSim.

Definition add_overflow : string := "attempt to add with overflow".

(** ** heavy_fibbo_base.rs *)
(** [a + b] of two [usize]. *)
Definition usize_add {T} (debug : bool) (a b : Z) : M T Z :=
  if (a + b <=? usize_max)%Z then ret (a + b)
  else if debug then panic add_overflow else ret ((a + b) mod 2 ^ usize_bits).

Fixpoint heavy_fibbo_base {T} (debug : bool) (n : nat) : M T Z :=
  match n with
  | O => ret 1
  | S O => ret 1
  | S (S m as n') =>
      let! a := heavy_fibbo_base debug n' in
      let! b := heavy_fibbo_base debug m in
      usize_add debug a b
  end.

Definition main_base {T} (debug : bool) : M T unit :=
  let! res := heavy_fibbo_base debug 20 in
  assert (res =? 10946)%Z "assertion `left == right` failed".

(** ** heavy_fibbo.rs *)
Definition usize_add_prog (debug : bool) (a b : Z) : prog Z :=
  if (a + b <=? usize_max)%Z then PRet (a + b)
  else if debug then PThrow add_overflow else PRet ((a + b) mod 2 ^ usize_bits).

Fixpoint heavy_fibbo (debug : bool) (n : nat) : prog Z :=
  match n with
  | O => PRet 1
  | S O => PRet 1
  | S (S m as n') =>
      PRun (heavy_fibbo debug n') (fun a =>
      PRun (heavy_fibbo debug m) (fun b => usize_add_prog debug a b))
  end.

(** What the program prints. *)
Inductive line := Result (res : Z) | Finished (x : Z) | TimedOut.

Section heavy_main.
Context {A : Type} `{!StackAlloc A}.
Context (place_layout : Layout) (task_layout : code Z -> Layout).

(** The loop over [runner.step()]; [rounds] is the number of rounds until more than
    three seconds have passed. *)
Fixpoint step_loop (rounds : nat) (addr : Z) : M (world Z A) (list line) :=
  match rounds with
  | O => ret []
  | S rounds =>
      let! x := step 0 task_layout addr in
      let! rest := step_loop rounds addr in
      ret (match x with Some x => Finished x :: rest | None => rest end)
  end.

(** [fuel] bounds the loop of [finish]. *)
Definition main_heavy (debug : bool) (rounds fuel : nat) (addr : Z) : M (world Z A) (option (list line)) :=
  do! enter place_layout task_layout (compile (heavy_fibbo debug 20)) in
  let! res := finish 0 task_layout fuel addr false in
  match res with
  | None => ret None
  | Some res =>
      do! assert (res =? 10946)%Z "assertion `left == right` failed" in
      do! enter place_layout task_layout (compile (heavy_fibbo debug 60)) in
      let! printed := step_loop rounds addr in
      do! drop_runner false in
      do! drop_stack in
      ret (Some (Result res :: printed ++ [TimedOut]))
  end.
End heavy_main.

(** ** async.rs *)
(** What a future of the program gives: the text, or what reading the file gave. *)
Inductive value := Text (s : string) | Read (r : string + string).

(** [Result::unwrap] on what the read gave; the error is its [Debug] form. *)
Definition unwrap_read (v : value) : prog value :=
  match v with
  | Read (inl s) => PRet (Text s)
  | Read (inr e) => PThrow ("called `Result::unwrap()` on an `Err` value: " +:+ e)
  | Text _ => PThrow "not the result of a read"
  end.

(** The read of the file is event 0. *)
Fixpoint deep_read (n : nat) : prog value :=
  match n with
  | O => PAwait 0 unwrap_read
  | S n => PRun (deep_read n) PRet
  end.

Section async_main.
Context {A : Type} `{!StackAlloc A}.
Context (place_layout : Layout) (task_layout : code value -> Layout).

(** What it prints; [arrivals] is what happens outside while it runs. *)
Definition main_async (fuel : nat) (cx : Context) (arrivals : list (nat * value)) : M (world value A) (option string) :=
  do! enter place_layout task_layout (compile (deep_read 20)) in
  let! r := executor (Text "") task_layout fuel cx arrivals in
  ret (match r with Some (Text s) => Some s | _ => None end).
End async_main.
