(* ===== verification/ExamplesThms.v ===== *)
(** * What the examples compute

    The function on the stack of the runtime is the ordinary recursive function,
    and the programs print what their asserts say. *)

From S2P Require Import Prelude Exc Ptr Allocator AllocatorSpec StackAlloc.
From S2P Require Import Stack Runner StackInv StackSafe StackEval RunnerSafe StackSim StackThms.
From S2P Require Import Unwind UnwindSafe UnwindExact UnwindRun Examples.

(** ** The recursive function *)

(** The Fibonacci numbers, without a width. *)
Fixpoint fibs (n : nat) : Z * Z :=
  match n with O => (1, 1) | S n => let (a, b) := fibs n in (b, a + b) end.
Definition fibz (n : nat) : Z := (fibs n).1.

Lemma fibz_SS n : fibz (S (S n)) = fibz (S n) + fibz n.
Proof. unfold fibz. cbn [fibs]. destruct (fibs n) as [a b]. cbn [fst]. lia. Qed.

Lemma fibz_pos n : 0 < fibz n /\ 0 < fibz (S n).
Proof. induction n as [|n [IH1 IH2]]; [done|]. split; [done|]. rewrite fibz_SS. lia. Qed.

Lemma fibz_mono n m : (n <= m)%nat -> fibz n <= fibz m.
Proof.
  induction 1 as [|m _ IH]; [lia|]. destruct m as [|m]; [done|]. rewrite fibz_SS.
  pose proof (fibz_pos m). lia.
Qed.

(** The largest argument whose value fits a [usize]. *)
Lemma fibz_fits n : (n <= 92)%nat -> fibz n <= usize_max.
Proof. intros Hn. etrans; [by apply (fibz_mono n 92)|]. by vm_compute. Qed.

Lemma nat_ind2 (P : nat -> Prop) :
  P 0%nat -> P 1%nat -> (forall n, P n -> P (S n) -> P (S (S n))) -> forall n, P n.
Proof.
  intros H0 H1 HS n. enough (P n /\ P (S n)) by tauto. induction n as [|n [IH1 IH2]]; auto.
Qed.

Lemma base_SS {T} debug n (s : T) :
  heavy_fibbo_base debug (S (S n)) s =
    (let! a := heavy_fibbo_base debug (S n) in let! b := heavy_fibbo_base debug n in usize_add debug a b) s.
Proof. done. Qed.

Lemma base_value {T} debug n (s : T) :
  (n <= 92)%nat -> heavy_fibbo_base debug n s = Ok (fibz n, s).
Proof.
  revert n. refine (nat_ind2 _ _ _ _); [done..|]. intros n IH0 IH1 Hn.
  rewrite base_SS. unfold bind. rewrite IH1, IH0 by lia. unfold usize_add.
  rewrite fibz_SS. pose proof (fibz_fits (S (S n)) Hn) as Hf. rewrite fibz_SS in Hf.
  by rewrite (proj2 (Z.leb_le _ _) Hf).
Qed.

(** The outcome of the ordinary function says what the program evaluates to. *)
Lemma heavy_agrees {T} ev debug n (s : T) :
  match heavy_fibbo_base debug n s with
  | Ok (v, s') => s' = s /\ eval ev (heavy_fibbo debug n) = Some v /\ throws ev (heavy_fibbo debug n) = None
  | Panic m => eval ev (heavy_fibbo debug n) = None /\ throws ev (heavy_fibbo debug n) = Some m
  | UB => False
  end.
Proof.
  revert n. refine (nat_ind2 _ _ _ _); [done..|]. intros n IH0 IH1.
  rewrite base_SS.
  change (heavy_fibbo debug (S (S n))) with
    (PRun (heavy_fibbo debug (S n)) (fun a =>
     PRun (heavy_fibbo debug n) (fun b => usize_add_prog debug a b))).
  set (h1 := heavy_fibbo debug (S n)) in *. unfold bind.
  destruct (heavy_fibbo_base debug (S n) s) as [[a s1]|m|]; [|destruct IH1 as [He Ht]|done].
  2: { cbn [eval throws]. by rewrite He, Ht. }
  destruct IH1 as (-> & He & Ht). cbn [eval throws]. rewrite He, Ht. cbn [mbind option_bind eval throws].
  destruct (heavy_fibbo_base debug n s) as [[b s2]|m|]; [|destruct IH0 as [He0 Ht0]|done].
  2: { by rewrite He0, Ht0. }
  destruct IH0 as (-> & He0 & Ht0). rewrite He0, Ht0. cbn [mbind option_bind].
  unfold usize_add, usize_add_prog. destruct (a + b <=? usize_max)%Z; [done|]. by destruct debug.
Qed.

(** The polls the function takes on the stack. *)
Lemma heavy_eval ev debug n : (n <= 92)%nat -> eval ev (heavy_fibbo debug n) = Some (fibz n).
Proof.
  intros Hn. pose proof (heavy_agrees ev debug n tt) as H. rewrite base_value in H by done. by destruct H as (_ & ? & _).
Qed.

Lemma heavy_cost ev debug n :
  (n <= 92)%nat -> Z.of_nat (cost ev (heavy_fibbo debug n)) = 4 * fibz n - 3.
Proof.
  revert n. refine (nat_ind2 _ _ _ _); [done..|]. intros n IH0 IH1 Hn.
  change (heavy_fibbo debug (S (S n))) with
    (PRun (heavy_fibbo debug (S n)) (fun a => PRun (heavy_fibbo debug n) (fun b => usize_add_prog debug a b))).
  pose proof (heavy_eval ev debug (S n) ltac:(lia)) as He1. pose proof (heavy_eval ev debug n ltac:(lia)) as He0.
  specialize (IH0 ltac:(lia)). specialize (IH1 ltac:(lia)).
  set (h1 := heavy_fibbo debug (S n)) in *. cbn [cost]. rewrite He1. cbn [cost]. rewrite He0.
  assert (cost ev (usize_add_prog debug (fibz (S n)) (fibz n)) = 1%nat) as ->.
  { unfold usize_add_prog. destruct (_ <=? _)%Z; [done|by destruct debug]. }
  rewrite fibz_SS. lia.
Qed.

(** [C29] The recursive function on the stack of the runtime is the ordinary
    recursive function, for every argument and in both builds: where the ordinary
    one returns, the run gives its value; where an addition overflows in a build
    that checks, the run unwinds with the same panic.  Either way the stack is
    left idle.  Only an allocator that finds no memory makes it end otherwise: in
    [enter], with the panic of the allocator, or in a call, where that panic is
    undefined. *)
Theorem heavy_fibbo_runs {A} `{!StackAlloc A} place_layout task_layout (w : world Z A) debug n fuel addr :
  layouts_ok (A := A) place_layout task_layout ->
  inv_idle w -> state w = Base -> (cost (events w) (heavy_fibbo debug n) < fuel)%nat ->
  match enter place_layout task_layout (compile (heavy_fibbo debug n)) w with
  | Ok (_, w1) =>
      match finish_u 0 task_layout fuel addr false w1 with
      | Ok (r, w') => inv_idle w' /\
          match heavy_fibbo_base debug n tt with
          | Ok (v, _) => r = Returns (Some v)
          | Panic m => r = Unwinds false m
          | UB => False
          end
      | UB => out_of_memory 0 task_layout (stub_context addr) w1
      | Panic _ => False
      end
  | Panic m => sa_fail m
  | UB => False
  end.
Proof.
  intros [Hpl Htl] Hi Hst Hfuel.
  eapply runs_to_post; [by apply (program_runs 0 place_layout task_layout Hpl Htl w _ fuel addr false)|].
  intros r w' (Hi' & _ & H). split; [done|]. pose proof (heavy_agrees (events w) debug n tt) as Ha.
  destruct (heavy_fibbo_base debug n tt) as [[v s]|m|].
  - destruct Ha as (_ & He & _). by rewrite He in H.
  - destruct Ha as [He Ht]. by rewrite He, Ht in H.
  - done.
Qed.

Definition stackZ : world Z ideal_state := new_stack.

(** The stack of the source, with the allocator of src/allocator.rs. *)
#[local] Instance real_alloc : StackAlloc ast := stack_allocator (H := bump_global) true.
Definition real_stackZ : world Z ast := new_stack.

(** What the run over that allocator gives. *)
Definition real_run (debug : bool) (n fuel : nat) : option (exc (option Z)) :=
  match enter layout0 (fun _ => layout0) (compile (heavy_fibbo debug n)) real_stackZ with
  | Ok (_, w1) => match finish_u 0 (fun _ => layout0) fuel 64 false w1 with Ok (r, _) => Some r | _ => None end
  | _ => None
  end.

Lemma heavy_fibbo_runs_witness :
  heavy_fibbo_base true 10 tt = Ok (89, tt) /\ real_run true 10 1000 = Some (Returns (Some 89)) /\
  match enter layout0 (fun _ => layout0) (compile (heavy_fibbo true 10)) real_stackZ with
  | Ok (_, w1) =>
      match finish_u 0 (fun _ => layout0) 1000 64 false w1 with
      | Ok (r, w') => inv_idle w' /\
          match heavy_fibbo_base true 10 tt with
          | Ok (v, _) => r = Returns (Some v)
          | Panic m => r = Unwinds false m
          | UB => False
          end
      | UB => out_of_memory 0 (fun _ => layout0) (stub_context 64) w1
      | Panic _ => False
      end
  | Panic m => sa_fail m
  | UB => False
  end.
Proof.
  split; [vm_compute; reflexivity|]. split; [vm_compute; reflexivity|].
  assert (Hl : layouts_ok (A := ast) layout0 (fun _ : code Z => layout0)).
  { assert (H : layout_small layout0) by (split; [split; [done|by exists 3|done]|done]).
    split; [exact H|by intros]. }
  assert (Hi : inv_idle real_stackZ) by apply new_stack_inv.
  assert (Hst : state real_stackZ = Base) by reflexivity.
  assert (Hf : (cost (events real_stackZ) (heavy_fibbo true 10) < 1000)%nat)
    by (apply Nat.ltb_lt; vm_compute; reflexivity).
  pose proof (heavy_fibbo_runs layout0 (fun _ => layout0) real_stackZ true 10 1000 64 Hl Hi Hst Hf) as H.
  exact H.
Defined.

(** The width of [usize] is enough up to 92: there the function is exact in
    both builds.  The next argument overflows: a checking build panics, the other
    one wraps. *)
Theorem heavy_fibbo_width debug n :
  (n <= 92)%nat ->
  heavy_fibbo_base debug n tt = Ok (fibz n, tt) /\
  heavy_fibbo_base true 93 tt = Panic add_overflow /\
  heavy_fibbo_base false 93 tt = Ok (fibz 93 - 2 ^ 64, tt).
Proof.
  intros Hn. split; [by apply base_value|].
  assert (H : forall d, heavy_fibbo_base d 93 tt = usize_add d (fibz 92) (fibz 91) tt).
  { intros d. rewrite (base_SS d 91). unfold bind. by rewrite !base_value by lia. }
  rewrite !H. split; vm_compute; reflexivity.
Qed.

Lemma heavy_fibbo_width_witness :
  heavy_fibbo_base false 92 tt = Ok (12200160415121876738, tt) /\
  heavy_fibbo_base true 93 tt = Panic add_overflow /\
  heavy_fibbo_base false 93 tt = Ok (fibz 93 - 2 ^ 64, tt).
Proof. apply (heavy_fibbo_width false 92). lia. Defined.

(** ** The program of heavy_fibbo.rs *)
Definition printed_steps (xs : list (option Z)) : list line := omap (fun x => Finished <$> x) xs.

Lemma step_loop_times {A} `{!StackAlloc A} task_layout n addr : forall w : world Z A,
  step_loop task_layout n addr w = (let! xs := step_times 0 task_layout n addr in ret (printed_steps xs)) w.
Proof.
  induction n as [|n IH]; intros w; [done|]. cbn [step_loop step_times]. unfold bind at 1 3 4.
  destruct (step 0 task_layout addr w) as [[x w1]| |]; [|done..]. unfold bind at 1. rewrite IH. unfold bind.
  destruct (step_times 0 task_layout n addr w1) as [[xs w2]| |]; [|done..]. by destruct x.
Qed.

Lemma printed_none n : printed_steps (replicate n None) = [].
Proof. by induction n. Qed.

Lemma printed_snoc n v : printed_steps (replicate n None ++ [Some v]) = [Finished v].
Proof. by induction n. Qed.

(** What is printed after the result, by the number of rounds of the loop. *)
Definition polls_of_60 : Z := 10018923127841.
Definition loop_prints (rounds : nat) : list line :=
  if decide (Z.of_nat rounds <= polls_of_60) then [] else [Finished 2504730781961].

Lemma heavy_60 ev debug :
  eval ev (heavy_fibbo debug 60) = Some 2504730781961 /\
  Z.of_nat (cost ev (heavy_fibbo debug 60)) = polls_of_60.
Proof.
  split; [rewrite heavy_eval by lia|rewrite heavy_cost by lia]; by vm_compute.
Qed.

Lemma heavy_20 ev debug :
  eval ev (heavy_fibbo debug 20) = Some 10946 /\ Z.of_nat (cost ev (heavy_fibbo debug 20)) = 43781.
Proof.
  split; [rewrite heavy_eval by lia|rewrite heavy_cost by lia]; by vm_compute.
Qed.

(** [C39] The program prints the result its assert expects, and then, however many
    rounds its loop makes before the three seconds are over, that it timed out;
    only after ten million million rounds it would print the value of the second
    function, and then panic, since it goes on stepping a finished runner. *)
Theorem main_heavy_prints {A} `{!StackAlloc A} place_layout task_layout (w : world Z A) debug rounds fuel addr :
  layouts_ok (A := A) place_layout task_layout -> inv_idle w -> state w = Base -> 43781 < Z.of_nat fuel ->
  wpe (main_heavy place_layout task_layout debug rounds fuel addr) w
    (fun r w' => inv_idle w' /\ r = Some (Result 10946 :: loop_prints rounds ++ [TimedOut]))
    (fun m => sa_fail m \/ polls_of_60 + 1 < Z.of_nat rounds /\
       m = "called `Option::unwrap()` on a `None` value").
Proof.
  intros [Hpl Htl] Hi Hst Hfuel. unfold main_heavy.
  pose proof (fun ev => heavy_20 ev debug) as H20. pose proof (fun ev => heavy_60 ev debug) as H60.
  revert H20 H60. generalize (heavy_fibbo debug 20), (heavy_fibbo debug 60). intros p20 p60 H20 H60.
  destruct (H20 (events w)) as [He Hc].
  pose proof (wp_enter_finish 0 _ _ Hpl Htl w _ _ fuel addr false Hi Hst He ltac:(lia)) as H1.
  apply wpe_assoc, wpe_bind. eapply wpe_mono; [exact H1| |by left].
  intros r w1 (-> & Hi1 & Hst1). apply wpe_bind, wpe_assert_true; [done|].
  apply wpe_bind. eapply wpe_mono; [by apply (wp_enter_repr _ _ Hpl Htl)| |by left]. intros [] w2 [Hr2 _].
  destruct (H60 (events w2)) as [He60 Hc60].
  apply wpe_bind. eapply wpe_eq; [apply step_loop_times|]. apply wpe_bind.
  assert (Hc2 : Z.of_nat (cost_conf (events w2) (CRun p60 [])) = polls_of_60).
  { rewrite <- Hc60. cbn [cost_conf cost_frames]. by rewrite Nat.add_0_r. }
  set (c := CRun _ _) in *. eapply wpe_mono; [apply (wp_step_times 0 _ Htl rounds addr w2 c _ Hr2 He60)|..].
  - intros xs w3 (Hx & Hw & _). apply wpe_ret, wpe_bind.
    assert (Hi3 : stack_inv w3).
    { destruct (decide _); [destruct Hw as [c' Hr3]; by eapply repr_inv|by apply inv_is_idle]. }
    eapply wpe_mono; [by apply wp_drop_runner| |done]. intros [] w4 [Hi4 _].
    apply wpe_bind. eapply wpe_mono; [by apply wp_drop_stack, inv_is_idle| |done]. intros [] w5 [Hi5 _].
    apply wpe_ret. split; [done|]. do 3 f_equal. unfold steps_return, loop_prints in *.
    destruct (decide (rounds <= _)%nat).
    + rewrite decide_True by lia. rewrite Hx. apply printed_none.
    + rewrite decide_False by lia. destruct Hx as [_ ->]. apply printed_snoc.
  - intros m [Hm|[Hn ->]]; [by left|right]. split; [lia|done].
Qed.

Lemma main_heavy_prints_witness :
  43781 < Z.of_nat (Z.to_nat 50000) /\
  wpe (main_heavy layout0 (fun _ => layout0) true 1000 (Z.to_nat 50000) 64) stackZ
    (fun r w' => inv_idle w' /\ r = Some (Result 10946 :: loop_prints 1000 ++ [TimedOut]))
    (fun m => sa_fail (A := ideal_state) m \/ polls_of_60 + 1 < Z.of_nat 1000 /\
       m = "called `Option::unwrap()` on a `None` value").
Proof.
  assert (Hf : 43781 < Z.of_nat (Z.to_nat 50000)) by (rewrite Z2Nat.id; lia). split; [exact Hf|].
  apply main_heavy_prints; [by split|apply new_stack_inv|reflexivity|exact Hf].
Defined.

Lemma loop_prints_witness : loop_prints 1000 = [].
Proof. reflexivity. Qed.

(** ** The program of async.rs *)
Lemma deep_eval ev n v : ev !! 0%nat = Some v -> forall o, eval ev (unwrap_read v) = o ->
  eval ev (deep_read n) = o.
Proof.
  intros Hv o Ho. induction n as [|n IH]; cbn [deep_read eval]; [by rewrite Hv|].
  rewrite IH. by destruct o.
Qed.

Lemma deep_throws ev n v m :
  ev !! 0%nat = Some v -> throws ev (unwrap_read v) = Some m -> throws ev (deep_read n) = Some m.
Proof.
  intros Hv Hm. induction n as [|n IH]; cbn [deep_read throws]; [by rewrite Hv|]. by rewrite IH.
Qed.

Lemma deep_cost ev n : (cost ev (deep_read n) <= 2 * n + 1)%nat.
Proof.
  induction n as [|n IH]; cbn [deep_read cost].
  - destruct (ev !! 0%nat) as [[|[|]]|]; cbn; lia.
  - destruct (eval ev (deep_read n)); cbn; lia.
Qed.

(** The deep recursion gives what the read gives, whenever it comes and
    whatever else comes before: the program prints the text of the file, or panics
    with the error of the read. *)
Theorem main_async_prints {A} `{!StackAlloc A} place_layout task_layout (w : world value A) fuel cx arrivals r :
  layouts_ok (A := A) place_layout task_layout -> inv_idle w -> state w = Base ->
  arrivals_new arrivals (events w) -> deliver arrivals (events w) !! 0%nat = Some (Read r) ->
  (41 < fuel)%nat ->
  wpe (main_async place_layout task_layout fuel cx arrivals) w
    (fun o w' => inv_idle w' /\ exists s, r = inl s /\ o = Some s)
    (fun m => sa_fail m \/ exists e, r = inr e /\
       m = ("called `Result::unwrap()` on an `Err` value: " +:+ e)%string).
Proof.
  intros [Hpl Htl] Hi Hst Hnew Hr Hfuel. apply wpe_bind.
  eapply wpe_mono; [by apply (wp_enter_repr _ _ Hpl Htl)| |by left]. intros [] w1 [Hr1 He].
  rewrite <- He in Hnew, Hr.
  assert (Hcost : forall ev, (cost_conf ev (CRun (deep_read 20) []) < fuel)%nat).
  { intros ev. pose proof (deep_cost ev 20). cbn [cost_conf cost_frames]. lia. }
  apply wpe_bind. destruct r as [s|e].
  - eapply wpe_mono; [eapply (wp_executor _ _ Htl fuel cx arrivals w1 _ (Text s) Hr1 Hnew)|..].
    + cbn [eval_conf eval_frames]. by eapply deep_eval.
    + intros ev _ _. apply Hcost.
    + intros o w2 [-> Hi2]. apply wpe_ret. split; [done|]. by exists s.
    + by left.
  - eapply wpe_mono; [eapply (wp_executor_throws _ _ Htl fuel cx _ arrivals w1 _ Hr1 Hnew)|done|].
    + cbn [throws_conf throws_frames]. by eapply deep_throws.
    + intros ev _ _. apply Hcost.
    + intros m [Hm| ->]; [by left|right]. by exists e.
Qed.

Definition stackT : world value ideal_state := new_stack.

Lemma main_async_prints_witness :
  deliver [(3%nat, Text "x"); (0%nat, Read (inl "[package]"))] (events stackT) !! 0%nat = Some (Read (inl "[package]")) /\
  wpe (main_async layout0 (fun _ => layout0) 50 cx0 [(3%nat, Text "x"); (0%nat, Read (inl "[package]"))]) stackT
    (fun o w' => inv_idle w' /\ exists s, inl "[package]" = inl (B := string) s /\ o = Some s)
    (fun m => sa_fail (A := ideal_state) m \/ exists e, inl "[package]" = inr (A := string) e /\
       m = ("called `Result::unwrap()` on an `Err` value: " +:+ e)%string).
Proof.
  split; [reflexivity|].
  apply main_async_prints; [by split|apply new_stack_inv|reflexivity|by split|reflexivity|].
  apply Nat.ltb_lt. reflexivity.
Defined.
